(* ===== verification/_CoqProject ===== *)
-Q . S2P
Prelude.v
Types.v
RuntimeConfig.v
RaftLog.v
Quorum.v
Sessions.v
RaftGroup.v
Timers.v
Replicate.v
Membership.v
Text.v
Apply.v
Election.v
Leader.v
Follower.v
Snapshots.v
NodeCore.v
Frames.v
Votes.v
Campaign.v
Cluster.v
Ballots.v
Replication.v
Commit.v
Transfer.v
Pipeline.v
Changes.v
Reads.v
Limits.v
Bytes.v
DenseIndex.v
Disk.v
Wal.v
WalScan.v
WalInv.v
WalOpen.v
WalOps.v
WalLog.v
WalRefine.v
WalCrash.v
WalLimits.v
GroupCommit.v
LogPersister.v
LogDurable.v
Sha256.v
LevelDb.v
StatePersister.v
StateDurable.v
Hybrid.v
HybridDurable.v
Json.v
Protocol.v
Identity.v
Dispatch.v
Client.v
Store.v
Connection.v
Peers.v
Config.v
Transport.v
TimerService.v
AdminServer.v
RateLimit.v
AdminHandlers.v
StoreAdmin.v
Construct.v
GroupPersister.v
Events.v
Shutdown.v
StoreLifecycle.v
AsyncClient.v
LogFrames.v
LogEvents.v
LogPromotion.v
LogCluster.v
LevelPersister.v
LevelLog.v
NodeLifecycle.v
Metrics.v
Counter.v
