(* ===== verification/Prelude.v ===== *)
(** * RollingRaft: a verification development

    RollingRaft is a C++ implementation of the Raft consensus algorithm with
    pre-vote, CheckQuorum, leader leases, joint membership changes, learners,
    snapshots, client sessions, several groups per process, an admin server and
    a client library.  This library translates its source into Rocq functions
    and proves what makes them correct.  File names below are those of the
    repository: [src/], [include/rollingraft/] and [example/].

    ** The program and how its parts interact

    A node ([RaftNodeImpl]) serves one group ([RaftGroup]).  Requests reach it
    through the network transport and the wire protocol, are checked against the
    identity of the sender, and are given to a handler.  The leader appends
    commands to its in-memory log, hands them to the log persister and sends them
    to its peers; it commits an entry that a majority holds durably, and the apply
    thread gives committed entries to the user's state machine in order.
    Followers merge what they receive and save their term and vote before they
    answer.  The log persister batches entries into a persister: the hybrid one
    keeps the log in a write-ahead log and the rest in LevelDB.  A store
    ([RaftStore]) runs several groups over one transport and one timer service.
    The HTTP server shows a node or a store and changes it; the client finds the
    leader and retries.

    ** How code becomes definitions

    - A stateful handler is a computation [Prog S A]: a state goes to a value and
      a state, or the process aborts.  [M] is [Prog Node].  What a handler asks of
      an interface (timer, network, persister, state machine) is recorded in
      [trace_]; what the interface answers is a field of the class [Env], and what
      [Start] is answered a [StartAnswers].  A save may fail and leave the old or
      the new state ([env_save_left]); [LoadState] may fail ([sa_load]).
    - Persisters are [State S A] over a disk or a database whose operations may
      fail.
    - Handlers that release their locks are split into phases, and threads and
      callbacks are events; theorems quantify over every order of them.
    - [NodeId], [Term] and [Index] are integers of their width in [Z]; [u32],
      [u64], [i32] and [i64] are written where the source computes.
    - Code outside the repository (LevelDB, protocol buffers, the JSON library,
      sockets, TLS, the file system) is a class of operations, with a second class
      of laws that state what its documentation promises; each has a concrete
      instance, on which the witnesses run.

    ** Files: the protocol

    - [Prelude]: machine integers, the program monad, [keeps] and [runs] with
      their tactics and hint database, list and arithmetic lemmas.
    - [Types]: [types.h], [status.h], [rpc.h], [raft_node.h], [persister.h].
      [RuntimeConfig]: [runtime_config.cpp].  [Config]: [RaftNodeConfig::Validate]
      of [raft_node.cpp] and the parsing of addresses.
    - [RaftLog]: [raft_log.cpp], refined to a map on an interval.  [Quorum]:
      [ClusterConfig] and [QuorumSatisfied].  [Sessions]:
      [client_session_manager.cpp].  [RaftGroup]: [raft_group.h], the environment
      and the node's state.
    - [Timers] ([quiesced_mode.cpp] and the tick), [Replicate] and [Leader]
      ([log_replicator.cpp]), [Membership] ([membership_manager.cpp]), [Apply]
      ([state_machine_applier.cpp]), [Election] ([election_manager.cpp]),
      [Follower] and [Dispatch] ([rpc_handlers.cpp]), [Snapshots]
      ([snapshot_manager.cpp]), [NodeCore] ([raft_node_core.cpp]).
    - [Frames], [Votes], [Campaign]: what handlers leave alone, how term and vote
      move, how elections are started and won.  [Cluster]: processes that crash
      and restart and messages that are delayed, repeated or lost, with
      [election_safety].  [Ballots]: what one node promises about its vote.
    - [Replication]: the follower's handler refines a merge of logs.  [LogFrames],
      [LogEvents], [LogPromotion]: what every handler does to the log and what it
      sends.  [LogCluster]: [cluster_log_matching], the Log Matching
      property of the runs of a cluster in which the two phases of an
      AppendEntries handler are steps of their own.
    - [Pipeline] (batches in flight), [Commit] (committing and applying), [Reads]
      (linearizable reads), [Transfer] (snapshots in chunks), [Changes]
      (membership changes end to end), [Limits] (where the code does less than the
      protocol or a comment asks).

    ** Files: storage

    - [Bytes], [Disk], [DenseIndex], [Wal] translate [wal_persister.cpp];
      [WalScan], [WalInv], [WalOpen], [WalOps], [WalLog] are its
      invariant; [WalRefine] shows that it is a map, [WalCrash] what it finds after
      the process died, [WalLimits] what [Sync] makes durable against a loss of
      power, and what the log does not promise.
    - [GroupCommit] ([group_commit_controller.cpp]), [LogPersister]
      ([log_persister.cpp], with the contract of a persister as the class
      [PersisterSpec]) and [LogDurable], proved against the contract.
    - [Sha256] (with FIPS 180-4 written down independently of the code in its
      module [Fips]), [LevelDb] (the database and its laws), [StatePersister]
      ([state_persister.cpp]) and [StateDurable].
    - [Hybrid] and [HybridDurable] ([hybrid_persister.cpp]) and [GroupPersister]
      ([multi_raft_persister.cpp]) discharge the contract, so that the theorems of
      [LogDurable] reach the disk.
    - [LevelPersister] ([leveldb_persister.cpp]) and [LevelLog]: the persister
      with everything in one database, and its log as a map across crashes.

    ** Files: around the protocol

    - [Json], [Protocol] ([json_protocol.cpp]), [Identity] ([tls_identity.cpp],
      [client_authorization.cpp]).
    - [Connection], [Peers], [Transport] ([asio_network_transport.cpp]),
      [TimerService] ([asio_timer_service.cpp]).
    - [Client], [AsyncClient] ([client.cpp], [rpc_client.cpp], [client/]).
    - [Store], [StoreAdmin], [StoreLifecycle] ([raft_store.cpp]), [Construct]
      ([raft_group.cpp]).
    - [Shutdown] and [NodeLifecycle]: starting and stopping a node with its
      services ([raft_node_core.cpp]).
    - [AdminServer], [RateLimit], [AdminHandlers] ([metrics_http_server.cpp],
      [sse_connection.cpp] and the handlers a node registers), [Events]
      ([event.cpp]), [Metrics] ([metrics.h], [metrics.cpp]).
    - [Counter]: the state machine and the node ids of the examples
      ([example/multi_raft/multi_raft_server.cpp],
      [example/counter/counter_server.cpp]).
    - [Text]: strings as the sources cut and join them.

    ** What the theorems show

    - Safety of the protocol: [election_safety], [cluster_log_matching], the vote
      theorems of [Ballots], [append_entries_refines], [replication_round],
      [try_commit_spec], [apply_committed_enqueues], [apply_loop_in_order].
    - Durability, from the callback of a command to the restart after a crash:
      [acknowledged_is_durable], [acknowledged_survives_restart],
      [group_log_survives_restart] (its counterpart for a group of a store),
      [synced_commands_survive],
      [torn_write_is_cut_off], [saved_state_survives], [snapshot_swap_is_atomic],
      [level_log_refines].
    - Refinements of abstract contracts: [wal_refines_map],
      [publish_reaches_subscribers], [registry_refines] and those above.
    - Liveness of calls: every send, asynchronous call, timer and caller of a node
      that stops is answered as often as promised ([every_send_answered_once],
      [async_calls_answered], [timeouts_fire_once], [stop_answers_callers]).
    - Isolation and authorization: [only_permitted_requests_run],
      [unauthorized_changes_nothing], [store_settings_agree].
    - Lifecycle: [store_up_or_down], [node_up_or_down].
    - Lemmas about what goes wrong, most of them in [Limits], [WalLimits] and at
      the end of the component files, name the situation they need.  Where such a
      situation bounds what a theorem can say, the theorem excludes it by a
      hypothesis and its comment names the lemma:
      [late_phase2_overwrites_leader] for [cluster_log_matching],
      [missing_trailer_blocks_open], [zero_tail_drops_segment],
      [empty_meta_blocks_open] and [rotated_segment_not_synced] for the crash
      theorems of the write-ahead log, [open_hides_read_error] for
      [saved_state_survives], [failed_load_forgets_vote] for
      [restart_restores_vote], [compacted_voter_accepts_all] for
      [granted_vote_durable], [joint_commit_without_new_majority] for
      [try_commit_spec], [binary_chunk_not_sent] for
      [snapshot_transfer_complete], [group_id_wraps] for
      [client_request_reaches_group], [empty_reply_stops_reading] for
      [messages_arrive_in_order], [next_connection_batches] and
      [accepted_settings_block_updates] for [store_settings_agree],
      [server_exception_without_applying] for [node_up_or_down], and
      [start_of_null_network] for [store_up_or_down].

    ** Bounds and fuel

    - [apply_committed_loop] and [try_commit_loop] get the number of entries
      between the two indices they walk through; [broadcast_loop] gets one round
      more than the log has entries, and [broadcast_terminates] shows that it stops
      within them and that more rounds change nothing.
    - [scan_loop] gets a round for every byte of the file, [restore_batches]
      one for every thousand indices, [file_chunks] and [read_stream] one for every
      byte: each round consumes at least one, and the theorems about them state the
      full result, not a conditional one.
    - Loading a snapshot in chunks gets 2^32 rounds: chunk numbers are 32 bits wide.
    - Theorems about terms, timer ids and counters name the bound below which the
      machine integer does not wrap.
    - [cluster_log_matching] is about clusters with fixed membership that take no
      snapshots; [election_safety] about fixed membership.  In both a node that
      restarts loads what was saved.
    - Crashes of the process are between calls of a persister; [power_off] is a
      loss of power that takes every segment back to its last [fdatasync] and
      leaves the files that the code never synchronises as they are.
    - [StopWithin] says how many of the four phases of a shutdown were over when
      the timeout passed and how many the detached thread has run since.

    ** Not modelled

    - Mutexes and condition variables: a handler runs under the locks its source
      takes; where it releases them the model has separate steps.
    - Accepting connections, reading and writing sockets, and TLS handshakes: calls
      into a library.  What arrives and what becomes of a connection are events.
    - Log output, and the places where the protocol counts for metrics: nothing
      reads them back.
    - Getters, the null checks of constructors, and the setters of user callbacks.
      Exceptions of user code are modelled where the code depends on them: event
      handlers ([Publish]) and callbacks of the client ([AsyncClient]).
    - [ConfigChangeRequest] and its response, which are never sent.
    - The SHA-256 code that [leveldb_persister.cpp] repeats from
      [state_persister.cpp].
    - The command lines and printing loops of the examples, the benchmarks and the
      tests. *)

From stdpp Require Export base gmap strings list pretty numbers.
From stdpp Require Import relations.

#[global] Open Scope Z_scope.

(** ** Machine integers *)

Definition UINT32_MAX : Z := 4294967295.
Definition UINT64_MAX : Z := 18446744073709551615.

(** Reduction modulo 2^32 and 2^64: unsigned arithmetic of the source. *)
Definition u32 (z : Z) : Z := z mod 4294967296.
Definition u64 (z : Z) : Z := z mod 18446744073709551616.

(** Narrowing to a two's complement [int32_t]. *)
Definition i32 (z : Z) : Z :=
  let m := z mod 4294967296 in
  if decide (m < 2147483648) then m else m - 4294967296.

Definition is_u32 (z : Z) : Prop := 0 <= z <= UINT32_MAX.
Definition is_u64 (z : Z) : Prop := 0 <= z <= UINT64_MAX.

(** [std::chrono::duration_cast<milliseconds>] of a difference of two
    [steady_clock] time points kept in nanoseconds: truncation to zero. *)
Definition elapsed_ms (now since : Z) : Z := Z.quot (now - since) 1000000.
Definition ms (n : Z) : Z := n * 1000000.

(** ** Record update *)

(** [g <| f := v |>] replaces field [f] of the record [g].  The setter of a
    projection is found by abstracting the projection in the eta expansion of
    the record, which every record with setters registers as [Eta]. *)
Class Eta (R : Type) := eta : R -> R.
Class Setter {R T : Type} (proj : R -> T) := set : (T -> T) -> R -> R.
Arguments set {R T} proj {_} f r : simpl never.

Ltac solve_setter proj :=
  match type of proj with
  | ?R -> _ =>
      let e := constr:(@eta R _) in
      let e := eval hnf in e in
      match eval pattern proj in e with
      | ?h _ => exact (fun f => h (fun r => f (proj r)))
      end
  end.

#[export] Hint Extern 1 (Setter ?proj) => solve_setter proj : typeclass_instances.

Notation "x <| f := v |>" := (set f (fun _ => v) x)
  (at level 1, f at level 0, left associativity,
   format "x  '<|'  f  :=  v  '|>'").
Notation "x <| f ::= u |>" := (set f u x)
  (at level 1, f at level 0, left associativity,
   format "x  '<|'  f  ::=  u  '|>'").

(** [proj_simp] computes projections of updated records without unfolding the
    updates themselves; it also reads through functions of a record that do
    not depend on the updated field. *)
Ltac proj_simp_step :=
  match goal with
  | |- context [?p (@set ?R ?T ?q ?i ?f ?g)] =>
      first [ change (p (@set R T q i f g)) with (p g)
            | progress change (p (@set R T q i f g)) with (f (p g)); cbv beta ]
  end.

Ltac proj_simp_in_step H :=
  match type of H with
  | context [?p (@set ?R ?T ?q ?i ?f ?g)] =>
      first [ change (p (@set R T q i f g)) with (p g) in H
            | progress change (p (@set R T q i f g)) with (f (p g)) in H; cbv beta in H ]
  end.

Tactic Notation "proj_simp" := repeat proj_simp_step.
Tactic Notation "proj_simp" "in" hyp(H) := repeat proj_simp_in_step H.

(** ** The effect monad *)

(** Every member function of the node is a computation on the node's state
    that either returns a value or reaches [std::abort]. *)
Inductive Outcome (S A : Type) : Type :=
| Done (a : A) (s : S)
| Aborted (s : S).
Arguments Done {S A} a s.
Arguments Aborted {S A} s.

Definition Prog (S A : Type) : Type := S -> Outcome S A.

#[global] Instance Prog_ret S : MRet (Prog S) := fun A a s => Done a s.
#[global] Instance Prog_bind S : MBind (Prog S) := fun A B k m s =>
  match m s with
  | Done a s' => k a s'
  | Aborted s' => Aborted s'
  end.

Section prog.
Context {S : Type}.

Definition gets {A} (f : S -> A) : Prog S A := fun s => Done (f s) s.
Definition modify (f : S -> S) : Prog S unit := fun s => Done tt (f s).
Definition abort {A} : Prog S A := fun s => Aborted s.
Definition when (b : bool) (m : Prog S unit) : Prog S unit :=
  if b then m else mret tt.

Fixpoint forM {A} (l : list A) (f : A -> Prog S unit) : Prog S unit :=
  match l with
  | [] => mret tt
  | x :: l' => f x ;; forM l' f
  end.

(** The state a run ends in, and its value if it was not aborted. *)
Definition final {A} (o : Outcome S A) : S :=
  match o with Done _ s => s | Aborted s => s end.
Definition value {A} (o : Outcome S A) : option A :=
  match o with Done a _ => Some a | Aborted _ => None end.

(** [keeps R m]: every run of [m], aborted or not, relates its first and last
    state by [R]. *)
Definition keeps (R : relation S) {A} (m : Prog S A) : Prop :=
  forall s, R s (final (m s)).

End prog.

Create HintDb keeps.

Section keeps.
Context {S : Type} (R : relation S) `{!PreOrder R}.

Lemma keeps_ret {A} (a : A) : keeps R (mret a).
Proof. intros s. simpl. reflexivity. Qed.

Lemma keeps_gets {A} (f : S -> A) : keeps R (gets f).
Proof. intros s. simpl. reflexivity. Qed.

Lemma keeps_abort {A} : keeps R (@abort S A).
Proof. intros s. simpl. reflexivity. Qed.

Lemma keeps_modify f : (forall s, R s (f s)) -> keeps R (modify f).
Proof. intros H s. apply H. Qed.

Lemma keeps_bind {A B} (m : Prog S A) (k : A -> Prog S B) :
  keeps R m -> (forall a, keeps R (k a)) -> keeps R (m ≫= k).
Proof.
  intros Hm Hk s. unfold mbind, Prog_bind. specialize (Hm s).
  destruct (m s) as [a s'|s']; simpl in *; [|done].
  etransitivity; [exact Hm | apply Hk].
Qed.

Lemma keeps_when b m : keeps R m -> keeps R (when b m).
Proof. intros Hm. destruct b; [exact Hm | apply keeps_ret]. Qed.

Lemma keeps_forM {A} (l : list A) f :
  (forall x, keeps R (f x)) -> keeps R (forM l f).
Proof.
  intros Hf. induction l as [|x l IH]; simpl; [apply keeps_ret|].
  apply keeps_bind; auto.
Qed.

(** The rest of a computation may rely on how its first part ended. *)
Lemma final_bind {A B} (m : Prog S A) (k : A -> Prog S B) s :
  R s (final (m s)) ->
  (forall a s', m s = Done a s' -> R s' (final (k a s'))) ->
  R s (final ((m ≫= k) s)).
Proof.
  intros Hm Hk. unfold mbind, Prog_bind. destruct (m s) as [a s'|s'] eqn:E; simpl in *; [|done].
  etransitivity; [exact Hm | by apply Hk].
Qed.

Lemma keeps_mono (R' : relation S) {A} (m : Prog S A) :
  (forall s s', R s s' -> R' s s') -> keeps R m -> keeps R' m.
Proof. intros HR Hm s. apply HR, Hm. Qed.

(** Reading a value first: the state is the same when the rest runs, so the
    rest may rely on what was read. *)
Lemma keeps_gets_bind {A B} (f : S -> A) (k : A -> Prog S B) :
  (forall s, R s (final (k (f s) s))) -> keeps R (gets f ≫= k).
Proof. intros H s. apply H. Qed.

End keeps.

#[export] Hint Resolve keeps_ret keeps_gets keeps_abort keeps_when keeps_forM : keeps.

(** One structural step of a [keeps] goal; leaf updates are left over. *)
Ltac keeps_step :=
  match goal with
  | |- keeps _ (_ ≫= _) =>
      first [ eapply keeps_bind; [apply _ | | intros ?] | eapply keeps_bind; [| intros ?] ]
  | |- keeps _ (mret _) => eapply keeps_ret; apply _
  | |- keeps _ (gets _) => eapply keeps_gets; apply _
  | |- keeps _ abort => eapply keeps_abort; apply _
  | |- keeps _ (when _ _) =>
      first [ eapply keeps_when; [apply _ |] | eapply keeps_when ]
  | |- keeps _ (forM _ _) =>
      first [ eapply keeps_forM; [apply _ | intros ?] | eapply keeps_forM; intros ? ]
  | |- keeps _ (if ?b then _ else _) => destruct b
  | |- keeps _ (match ?x with _ => _ end) => destruct x
  end.
Ltac keeps_solve := repeat (cbv beta zeta; first [ keeps_step | solve [eauto with keeps] ]).

(** ** Total computations *)

(** [runs R m]: every run of [m] completes, and relates its first and last
    state by [R]. *)
Definition runs {S A} (R : relation S) (m : Prog S A) : Prop :=
  forall s, exists a s', m s = Done a s' /\ R s s'.

Section runs.
Context {S : Type} (R : relation S) `{!PreOrder R}.

Lemma runs_ret {A} (a : A) : runs R (mret a).
Proof. intros s. by exists a, s. Qed.

Lemma runs_gets {A} (f : S -> A) : runs R (gets f).
Proof. intros s. by exists (f s), s. Qed.

Lemma runs_modify f : (forall s, R s (f s)) -> runs R (modify f).
Proof. intros H s. by exists tt, (f s). Qed.

Lemma runs_bind {A B} (m : Prog S A) (k : A -> Prog S B) :
  runs R m -> (forall a, runs R (k a)) -> runs R (m ≫= k).
Proof.
  intros Hm Hk s. destruct (Hm s) as (a&s1&E1&H1). destruct (Hk a s1) as (b&s2&E2&H2).
  exists b, s2. split; [unfold mbind, Prog_bind; by rewrite E1 | by transitivity s1].
Qed.

Lemma runs_when b m : runs R m -> runs R (when b m).
Proof. intros Hm. destruct b; [exact Hm | apply runs_ret]. Qed.

Lemma runs_forM {A} (l : list A) f : (forall x, runs R (f x)) -> runs R (forM l f).
Proof.
  intros Hf. induction l as [|x l IH]; simpl; [apply runs_ret|]. by apply runs_bind.
Qed.

Lemma runs_keeps {A} (m : Prog S A) : runs R m -> keeps R m.
Proof. intros Hm s. destruct (Hm s) as (a&s'&->&?). done. Qed.

End runs.

Ltac runs_step :=
  match goal with
  | |- runs _ (_ ≫= _) =>
      first [ eapply runs_bind; [apply _ | | intros ?] | eapply runs_bind; [| intros ?] ]
  | |- runs _ (mret _) => eapply runs_ret; apply _
  | |- runs _ (gets _) => eapply runs_gets; apply _
  | |- runs _ (when _ _) => first [ eapply runs_when; [apply _ |] | eapply runs_when ]
  | |- runs _ (forM _ _) =>
      first [ eapply runs_forM; [apply _ | intros ?] | eapply runs_forM; intros ? ]
  | |- runs _ (if ?b then _ else _) => destruct b
  | |- runs _ (match ?x with _ => _ end) => destruct x
  end.
Ltac runs_solve := repeat (cbv beta zeta; first [ runs_step | solve [eauto with keeps] ]).

(** ** Loops with an exit *)

(** [loop n f s] runs [f] from [s] until it exits with [inr], for at most
    [2 ^ n] rounds. *)
Fixpoint loop {A B : Type} (n : nat) (f : A -> A + B) (s : A) : A + B :=
  match n with
  | O => f s
  | S n' => match loop n' f s with inl s' => loop n' f s' | inr b => inr b end
  end.

(** A loop whose measure grows by one each round and stays under a bound of
    [2 ^ n] exits; an invariant of the rounds holds at the exit. *)
Lemma loop_progress {A B} (f : A -> A + B) (I : A -> Prop) (Q : B -> Prop) (m : A -> Z)
    (Hinl : forall s s', I s -> f s = inl s' -> I s' /\ m s + 1 <= m s')
    (Hinr : forall s b, I s -> f s = inr b -> Q b) n s :
  I s ->
  match loop n f s with
  | inl s' => I s' /\ m s + 2 ^ Z.of_nat n <= m s'
  | inr b => Q b
  end.
Proof.
  revert s. induction n as [|n IH]; intros s Hs; simpl.
  - destruct (f s) as [s'|b] eqn:E; [|eauto].
    destruct (Hinl _ _ Hs E). split; [done|]. simpl. lia.
  - pose proof (IH s Hs) as H1. destruct (loop n f s) as [s'|b]; [|done].
    destruct H1 as [Hs' Hm]. pose proof (IH s' Hs') as H2.
    destruct (loop n f s') as [s''|b]; [|done]. destruct H2 as [? ?]. split; [done|].
    rewrite Nat2Z.inj_succ, Z.pow_succ_r by lia. lia.
Qed.

Lemma loop_exits {A B} (f : A -> A + B) (I : A -> Prop) (Q : B -> Prop) (m : A -> Z)
    (Hinl : forall s s', I s -> f s = inl s' -> I s' /\ m s + 1 <= m s')
    (Hinr : forall s b, I s -> f s = inr b -> Q b) n s :
  I s -> (forall s', I s' -> m s' < m s + 2 ^ Z.of_nat n) ->
  exists b, loop n f s = inr b /\ Q b.
Proof.
  intros Hs Hb. pose proof (loop_progress f I Q m Hinl Hinr n s Hs) as H.
  destruct (loop n f s) as [s'|b]; [|eauto].
  destruct H as [Hs' ?]. specialize (Hb s' Hs'). lia.
Qed.

(** ** Running computations symbolically *)

Lemma run_bind {S A B} (m : Prog S A) (k : A -> Prog S B) s :
  (m ≫= k) s = match m s with Done a s' => k a s' | Aborted s' => Aborted s' end.
Proof. reflexivity. Qed.
Lemma run_gets {S A} (f : S -> A) s : gets f s = Done (f s) s.
Proof. reflexivity. Qed.
Lemma run_modify {S} (f : S -> S) s : modify f s = Done tt (f s).
Proof. reflexivity. Qed.
Lemma run_ret {S A} (a : A) s : (mret a : Prog S A) s = Done a s.
Proof. reflexivity. Qed.

Create Rewrite HintDb run.
#[export] Hint Rewrite @run_bind @run_gets @run_modify @run_ret : run.
Ltac run := repeat (progress (autorewrite with run; cbv beta iota zeta)).

(** ** Shared arithmetic and list lemmas *)

Lemma u32_small z : 0 <= z <= UINT32_MAX -> u32 z = z.
Proof. unfold u32, UINT32_MAX. intros. apply Z.mod_small. lia. Qed.

Lemma u32_range z : 0 <= u32 z <= UINT32_MAX.
Proof.
  unfold u32, UINT32_MAX. pose proof (Z.mod_pos_bound z 4294967296 ltac:(lia)). lia.
Qed.

Lemma u64_small z : 0 <= z <= UINT64_MAX -> u64 z = z.
Proof. unfold u64, UINT64_MAX. intros. apply Z.mod_small. lia. Qed.

#[export] Hint Resolve u32_range : core.

Create Rewrite HintDb len.
#[export] Hint Rewrite @length_app @length_take @length_drop @length_insert
  @length_fmap @length_cons @length_nil : len.
Ltac len := autorewrite with len in *; try lia.

(** Case analysis on every [decide] and boolean test in sight. *)
Ltac case_all :=
  repeat match goal with
         | |- context [decide ?P] => destruct (decide P)
         | H : context [decide ?P] |- _ => destruct (decide P)
         end; simplify_eq; try done.

(** Occurrences of [x] removed from a vector: the erase-remove idiom. *)
Definition vec_remove (x : Z) (l : list Z) : list Z := filter (fun y => y <> x) l.

Lemma elem_of_vec_remove x y l : y ∈ vec_remove x l <-> y ∈ l /\ y <> x.
Proof. unfold vec_remove. rewrite list_elem_of_filter. tauto. Qed.
