(* ===== verification/Types.v ===== *)
(** * Data of the node: status values, log entries, messages, configuration

    [include/rollingraft/types.h], [status.h], [raft_log.h], [rpc.h],
    [raft_node.h], [persister.h], [runtime_config.h], [state_machine.h] and
    the structs of [src/raft_group.h].  [NodeId] is an [int32_t], [Term] and
    [Index] are [uint32_t]; all are kept in [Z] and every wrap-around is
    written where the source computes. *)

From S2P Require Import Prelude.

Abbreviation NodeId := Z (only parsing).
Abbreviation Term := Z (only parsing).
Abbreviation Index := Z (only parsing).
Abbreviation NodeAddr := string (only parsing).

(** ** Status *)

Inductive Code :=
| kOk | kCorruption | kRequestVoteError | kAppendEntriesError
| kInstallSnapshotError | kSerializeError | kDeSerializeError | kProtocolError
| kRaftNodeStartError | kGenericError | kNotLeader | kUnauthenticated
| kPermissionDenied.

#[global] Instance Code_eq_dec : EqDecision Code.
Proof. solve_decision. Defined.

(** A null [state_] is [StOK]; otherwise the array holds a code and a message. *)
Inductive Status :=
| StOK
| StErr (code : Code) (message : string).

#[global] Instance Status_eq_dec : EqDecision Status.
Proof. solve_decision. Defined.

(** The constructor joins the two parts with ": " when the second is there. *)
Definition mkStatus (code : Code) (msg msg2 : string) : Status :=
  StErr code (if decide (msg2 = "") then msg else msg +:+ ": " +:+ msg2).

Definition Error1 (msg : string) : Status := mkStatus kGenericError msg "".
Definition Error2 (msg msg2 : string) : Status := mkStatus kGenericError msg msg2.

Definition NotLeader (leader_id : NodeId) (leader_addr : string) : Status :=
  mkStatus kNotLeader
    (if decide (0 <= leader_id) then "Not leader, leader is " +:+ leader_addr
     else "Not leader") "".

Definition status_ok (s : Status) : bool :=
  match s with StOK => true | StErr _ _ => false end.

Definition status_code (s : Status) : Code :=
  match s with StOK => kOk | StErr c _ => c end.

Definition GetMessage (s : Status) : string :=
  match s with StOK => "" | StErr _ m => m end.

Definition CodeName (s : Status) : string :=
  match status_code s with
  | kOk => "OK"
  | kCorruption => "Corruption"
  | kRequestVoteError => "RequestVoteError"
  | kAppendEntriesError => "AppendEntriesError"
  | kInstallSnapshotError => "InstallSnapshotError"
  | kSerializeError => "SerializeError"
  | kDeSerializeError => "DeSerializeError"
  | kProtocolError => "ProtocolError"
  | kRaftNodeStartError => "RaftNodeStartError"
  | kGenericError => "Error"
  | kNotLeader => "NotLeader"
  | kUnauthenticated => "UNAUTHENTICATED"
  | kPermissionDenied => "PERMISSION_DENIED"
  end.

(** The name, a colon and the message; an OK code has no colon. *)
Definition ToString (s : Status) : string :=
  match s with
  | StOK => "OK"
  | StErr c m => (if decide (c = kOk) then "OK" else CodeName s +:+ ": ") +:+ m
  end.

(** ** Log entries *)

Record RaftLogEntry := mkEntry {
  index_ : Index;
  term_ : Term;
  data_ : string;
  command_ : string;
  checksum_ : Z
}.
#[global] Instance RaftLogEntry_eta : Eta RaftLogEntry := fun r =>
  mkEntry (index_ r) (term_ r) (data_ r) (command_ r) (checksum_ r).

#[global] Instance RaftLogEntry_eq_dec : EqDecision RaftLogEntry.
Proof. solve_decision. Defined.

(** ** Roles and cluster configuration *)

Inductive RaftNodeRole := FOLLOWER | CANDIDATE | LEADER.

#[global] Instance RaftNodeRole_eq_dec : EqDecision RaftNodeRole.
Proof. solve_decision. Defined.

Record ClusterConfig := mkClusterConfig {
  nodes : list NodeId;
  old_nodes : list NodeId;
  learners : list NodeId;
  version : Z;
  is_joint : bool
}.
#[global] Instance ClusterConfig_eta : Eta ClusterConfig := fun r =>
  mkClusterConfig (nodes r) (old_nodes r) (learners r) (version r) (is_joint r).

#[global] Instance ClusterConfig_eq_dec : EqDecision ClusterConfig.
Proof. solve_decision. Defined.

Record PersistentState := mkPersistentState {
  p_current_term : Term;
  p_voted_for : NodeId;
  p_cluster_nodes : list NodeId;
  p_cluster_old_nodes : list NodeId;
  p_cluster_learners : list NodeId;
  p_cluster_version : Z;
  p_cluster_is_joint : bool
}.

#[global] Instance PersistentState_eq_dec : EqDecision PersistentState.
Proof. solve_decision. Defined.

(** ** Configuration *)

Record RuntimeConfigValues := mkRuntimeConfigValues {
  election_timeout_ms : Z;
  heartbeat_interval_ms : Z;
  max_entries_per_append : Z;
  rpc_timeout_ms : Z;
  snapshot_threshold_entries : Z;
  snapshot_threshold_bytes : Z;
  snapshot_check_interval_ms : Z;
  max_retry_attempts : Z;
  base_retry_delay_ms : Z;
  max_retry_delay_ms : Z;
  log_retention_entries : Z;
  max_snapshot_size_bytes : Z;
  propose_timeout_ms : Z;
  leader_lease_enabled : bool;
  max_pipeline_window : Z;
  transport_batching_enabled : bool
}.

#[global] Instance RuntimeConfigValues_eq_dec : EqDecision RuntimeConfigValues.
Proof. solve_decision. Defined.

(** The defaults of the struct's member initialisers. *)
Definition default_values : RuntimeConfigValues :=
  mkRuntimeConfigValues 300 50 100 500 10000 (10 * 1024 * 1024) 5000 5 10 500 0
    (100 * 1024 * 1024) 5000 true 128 true.

(** The fields of [RaftNodeConfig] that the group reads after construction. *)
Record RaftNodeConfig := mkRaftNodeConfig {
  listen_addr : NodeAddr;
  auto_remove_dead_nodes : bool;
  dead_node_timeout_ms : Z;
  quiesced_mode_enabled : bool;
  quiesced_idle_threshold_ms : Z;
  quiesced_heartbeat_interval_ms : Z;
  quiesced_election_timeout_ms : Z;
  quiesced_max_consecutive_timeouts : Z;
  data_dir : string;
  client_auth_enabled : bool
}.

Definition default_node_config : RaftNodeConfig :=
  mkRaftNodeConfig "127.0.0.1:8001" false 600 false 2000 5000 10000 3 "" false.

(** ** Messages *)

(** Correlation and group ids only pair a response with its request; the
    pairing is carried by the effect that sends the request. *)
Record RequestVoteRequest := mkRequestVoteRequest {
  rv_term : Term;
  rv_candidate_id : NodeId;
  rv_last_log_index : Index;
  rv_last_log_term : Term
}.

Record RequestVoteResponse := mkRequestVoteResponse {
  rvr_term : Term;
  rvr_vote_granted : bool
}.
#[global] Instance RequestVoteResponse_eta : Eta RequestVoteResponse := fun r =>
  mkRequestVoteResponse (rvr_term r) (rvr_vote_granted r).

Record PreVoteRequest := mkPreVoteRequest {
  pv_term : Term;
  pv_candidate_id : NodeId;
  pv_last_log_index : Index;
  pv_last_log_term : Term
}.

Record PreVoteResponse := mkPreVoteResponse {
  pvr_term : Term;
  pvr_vote_granted : bool
}.

Record AppendEntriesRequest := mkAppendEntriesRequest {
  ae_term : Term;
  ae_leader_id : NodeId;
  ae_prev_log_index : Index;
  ae_prev_log_term : Term;
  ae_entries : list RaftLogEntry;
  ae_leader_commit : Index
}.

Record AppendEntriesResponse := mkAppendEntriesResponse {
  aer_term : Term;
  aer_success : bool;
  aer_conflict_index : Index;
  aer_entries_count : Index
}.
#[global] Instance AppendEntriesResponse_eta : Eta AppendEntriesResponse := fun r =>
  mkAppendEntriesResponse (aer_term r) (aer_success r) (aer_conflict_index r)
    (aer_entries_count r).

Record InstallSnapshotRequest := mkInstallSnapshotRequest {
  is_term : Term;
  is_leader_id : NodeId;
  is_last_included_index : Index;
  is_last_included_term : Term;
  is_offset : Z;
  is_data : string;
  is_done : bool
}.

Record InstallSnapshotResponse := mkInstallSnapshotResponse {
  isr_term : Term
}.

Record ApplyResult := mkApplyResult {
  ar_success : bool;
  ar_response : string;
  ar_applied_index : Z;
  ar_error_message : string
}.
