(* ===== verification/RuntimeConfig.v ===== *)
(** * Runtime configuration: [src/runtime_config.cpp]

    The store of tunable parameters: validated partial updates from JSON, reset
    to the values of construction.  The JSON library is the parameter
    [JsonLib]. *)

From S2P Require Import Prelude Types.

(** [json_parse] is [json::parse], [inl] being the exception's text;
    [json_u32 j key] and [json_bool j key] convert [j[key]] to the type of the
    field it is assigned to, [None] being the exception of a conversion. *)
Class JsonLib := mkJsonLib {
  json : Type;
  json_parse : string -> string + json;
  json_contains : json -> string -> bool;
  json_u32 : json -> string -> option Z;
  json_bool : json -> string -> option bool
}.

Record RuntimeConfig := mkRuntimeConfig {
  values_ : RuntimeConfigValues;
  defaults_ : RuntimeConfigValues
}.
#[global] Instance RuntimeConfig_eta : Eta RuntimeConfig := fun r =>
  mkRuntimeConfig (values_ r) (defaults_ r).

Definition RuntimeConfig_new (defaults : RuntimeConfigValues) : RuntimeConfig :=
  mkRuntimeConfig defaults defaults.

Definition Reset (c : RuntimeConfig) : RuntimeConfig := c <| values_ := defaults_ c |>.

Definition INVALID (msg : string) : Status := Error2 "INVALID_CONFIG" msg.

Definition Validate (v : RuntimeConfigValues) : Status :=
  if decide (election_timeout_ms v < 50 \/ 5000 < election_timeout_ms v) then
    INVALID "election_timeout_ms must be in [50, 5000]"
  else if decide (heartbeat_interval_ms v < 10 \/ 1000 < heartbeat_interval_ms v) then
    INVALID "heartbeat_interval_ms must be in [10, 1000]"
  else if decide (max_entries_per_append v < 1 \/ 10000 < max_entries_per_append v) then
    INVALID "max_entries_per_append must be in [1, 10000]"
  else if decide (rpc_timeout_ms v < 100 \/ 10000 < rpc_timeout_ms v) then
    INVALID "rpc_timeout_ms must be in [100, 10000]"
  else if decide (snapshot_threshold_entries v < 100 \/ 1000000 < snapshot_threshold_entries v) then
    INVALID "snapshot_threshold_entries must be in [100, 1000000]"
  else if decide (snapshot_threshold_bytes v < 1024 * 1024 \/ 1024 * 1024 * 1024 < snapshot_threshold_bytes v) then
    INVALID "snapshot_threshold_bytes must be in [1MB, 1GB]"
  else if decide (snapshot_check_interval_ms v < 1000 \/ 60000 < snapshot_check_interval_ms v) then
    INVALID "snapshot_check_interval_ms must be in [1000, 60000]"
  else if decide (max_retry_attempts v < 1 \/ 100 < max_retry_attempts v) then
    INVALID "max_retry_attempts must be in [1, 100]"
  else if decide (base_retry_delay_ms v < 1 \/ 1000 < base_retry_delay_ms v) then
    INVALID "base_retry_delay_ms must be in [1, 1000]"
  else if decide (max_retry_delay_ms v < 10 \/ 10000 < max_retry_delay_ms v) then
    INVALID "max_retry_delay_ms must be in [10, 10000]"
  else if decide (100000 < log_retention_entries v) then
    INVALID "log_retention_entries must be <= 100000"
  else if decide (0 < max_snapshot_size_bytes v /\ max_snapshot_size_bytes v < 1024 * 1024) then
    INVALID "max_snapshot_size_bytes must be 0 (unlimited) or >= 1MB"
  else if decide (propose_timeout_ms v < 100 \/ 60000 < propose_timeout_ms v) then
    INVALID "propose_timeout_ms must be in [100, 60000]"
  else if decide (max_pipeline_window v < 1 \/ 10000 < max_pipeline_window v) then
    INVALID "max_pipeline_window must be in [1, 10000]"
  else if decide (election_timeout_ms v <= heartbeat_interval_ms v) then
    INVALID "heartbeat_interval_ms must be < election_timeout_ms"
  else if decide (max_retry_delay_ms v < base_retry_delay_ms v) then
    INVALID "base_retry_delay_ms must be <= max_retry_delay_ms"
  else if decide (rpc_timeout_ms v < heartbeat_interval_ms v) then
    INVALID "rpc_timeout_ms must be >= heartbeat_interval_ms"
  else StOK.

Section update.
Context `{!JsonLib}.

(** A field is taken from the object when it is there. *)
Definition field_u32 (j : json) (key : string) (current : Z) : option Z :=
  if json_contains j key then json_u32 j key else Some current.
Definition field_bool (j : json) (key : string) (current : bool) : option bool :=
  if json_contains j key then json_bool j key else Some current.

Definition propose_values (j : json) (v : RuntimeConfigValues) : option RuntimeConfigValues :=
  election_timeout_ms' ← field_u32 j "election_timeout_ms" (election_timeout_ms v);
  heartbeat_interval_ms' ← field_u32 j "heartbeat_interval_ms" (heartbeat_interval_ms v);
  max_entries_per_append' ← field_u32 j "max_entries_per_append" (max_entries_per_append v);
  rpc_timeout_ms' ← field_u32 j "rpc_timeout_ms" (rpc_timeout_ms v);
  snapshot_threshold_entries' ← field_u32 j "snapshot_threshold_entries" (snapshot_threshold_entries v);
  snapshot_threshold_bytes' ← field_u32 j "snapshot_threshold_bytes" (snapshot_threshold_bytes v);
  snapshot_check_interval_ms' ← field_u32 j "snapshot_check_interval_ms" (snapshot_check_interval_ms v);
  max_retry_attempts' ← field_u32 j "max_retry_attempts" (max_retry_attempts v);
  base_retry_delay_ms' ← field_u32 j "base_retry_delay_ms" (base_retry_delay_ms v);
  max_retry_delay_ms' ← field_u32 j "max_retry_delay_ms" (max_retry_delay_ms v);
  log_retention_entries' ← field_u32 j "log_retention_entries" (log_retention_entries v);
  max_snapshot_size_bytes' ← field_u32 j "max_snapshot_size_bytes" (max_snapshot_size_bytes v);
  propose_timeout_ms' ← field_u32 j "propose_timeout_ms" (propose_timeout_ms v);
  leader_lease_enabled' ← field_bool j "leader_lease_enabled" (leader_lease_enabled v);
  max_pipeline_window' ← field_u32 j "max_pipeline_window" (max_pipeline_window v);
  transport_batching_enabled' ← field_bool j "transport_batching_enabled" (transport_batching_enabled v);
  Some (mkRuntimeConfigValues election_timeout_ms' heartbeat_interval_ms' max_entries_per_append' rpc_timeout_ms'
          snapshot_threshold_entries' snapshot_threshold_bytes' snapshot_check_interval_ms' max_retry_attempts'
          base_retry_delay_ms' max_retry_delay_ms' log_retention_entries' max_snapshot_size_bytes'
          propose_timeout_ms' leader_lease_enabled' max_pipeline_window' transport_batching_enabled').

(** An exception of a conversion leaves the function: [abort]. *)
Definition UpdateFromJson (json_str : string) : Prog RuntimeConfig Status :=
  match json_parse json_str with
  | inl what => mret (Error2 "INVALID_JSON" what)
  | inr j =>
      v ← gets values_;
      match propose_values j v with
      | None => abort
      | Some proposed =>
          match Validate proposed with
          | StOK => modify (fun c => c <| values_ := proposed |>) ;; mret StOK
          | err => mret err
          end
      end
  end.

End update.

(** ** The ranges *)

Definition in_range (lo hi x : Z) : Prop := lo <= x <= hi.

(** What a valid configuration promises. *)
Record valid_values (v : RuntimeConfigValues) : Prop := {
  vv_election : in_range 50 5000 (election_timeout_ms v);
  vv_heartbeat : in_range 10 1000 (heartbeat_interval_ms v);
  vv_entries : in_range 1 10000 (max_entries_per_append v);
  vv_rpc : in_range 100 10000 (rpc_timeout_ms v);
  vv_threshold : in_range 100 1000000 (snapshot_threshold_entries v);
  vv_bytes : in_range (1024 * 1024) (1024 * 1024 * 1024) (snapshot_threshold_bytes v);
  vv_check : in_range 1000 60000 (snapshot_check_interval_ms v);
  vv_attempts : in_range 1 100 (max_retry_attempts v);
  vv_base : in_range 1 1000 (base_retry_delay_ms v);
  vv_max : in_range 10 10000 (max_retry_delay_ms v);
  vv_retention : log_retention_entries v <= 100000;
  vv_size : max_snapshot_size_bytes v <= 0 \/ 1024 * 1024 <= max_snapshot_size_bytes v;
  vv_propose : in_range 100 60000 (propose_timeout_ms v);
  vv_window : in_range 1 10000 (max_pipeline_window v);
  vv_beats : heartbeat_interval_ms v < election_timeout_ms v;
  vv_delays : base_retry_delay_ms v <= max_retry_delay_ms v;
  vv_calls : heartbeat_interval_ms v <= rpc_timeout_ms v
}.

Lemma Validate_spec v : Validate v = StOK <-> valid_values v.
Proof.
  unfold Validate, INVALID, Error2, mkStatus. split.
  - intros H. repeat (case_decide; [discriminate H|]). split; unfold in_range; lia.
  - intros []. unfold in_range in *. repeat (rewrite decide_False by lia). done.
Qed.

(** ** Histories *)

(** What a store goes through: updates, accepted or not, and resets.  An update
    that throws leaves the store to the next call. *)
Inductive ConfigOp := OpUpdate (json_str : string) | OpReset.

Section histories.
Context `{!JsonLib}.

Definition run_op (c : RuntimeConfig) (op : ConfigOp) : RuntimeConfig :=
  match op with
  | OpUpdate s => final (UpdateFromJson s c)
  | OpReset => Reset c
  end.

(** Every outcome of an update. *)
Lemma UpdateFromJson_run s c :
  (exists err, UpdateFromJson s c = Done err c /\ err <> StOK) \/
  UpdateFromJson s c = Aborted c \/
  exists j v, json_parse s = inr j /\ propose_values j (values_ c) = Some v /\ valid_values v /\
    UpdateFromJson s c = Done StOK (c <| values_ := v |>).
Proof.
  unfold UpdateFromJson. destruct (json_parse s) as [what|j] eqn:Ej.
  { left. eexists. split; [done|]. unfold Error2, mkStatus. done. }
  rewrite run_bind, run_gets. destruct (propose_values j (values_ c)) as [v|] eqn:Ev; [|by right; left].
  destruct (Validate v) as [|code msg] eqn:Hv; [|left; by eexists].
  right. right. exists j, v. rewrite run_bind, run_modify, run_ret. apply Validate_spec in Hv. done.
Qed.

Lemma run_op_valid c op :
  valid_values (values_ c) -> valid_values (defaults_ c) ->
  valid_values (values_ (run_op c op)) /\ defaults_ (run_op c op) = defaults_ c.
Proof.
  intros Hv Hd. destruct op as [s|]; simpl; [|done].
  destruct (UpdateFromJson_run s c) as [(err&->&_)|[->|(j&v&_&_&?&->)]]; done.
Qed.

End histories.

(** ** Properties *)

(** An update is all or nothing.  [UpdateFromJson] either returns success,
    and the values are those of the request over the old ones, all within their
    ranges, or it returns an error or throws, and the store is unchanged. *)
Theorem config_update_atomic `{!JsonLib} (s : string) (c : RuntimeConfig) :
  match UpdateFromJson s c with
  | Done StOK c' =>
      exists j, json_parse s = inr j /\ propose_values j (values_ c) = Some (values_ c') /\
        valid_values (values_ c') /\ defaults_ c' = defaults_ c
  | Done (StErr _ _) c' => c' = c
  | Aborted c' => c' = c
  end.
Proof.
  destruct (UpdateFromJson_run s c) as [(err&->&He)|[->|(j&v&Hj&Hp&Hv&->)]]; [|done|by exists j].
  by destruct err.
Qed.

(** The configuration stays valid.  A store built with valid values has
    valid values after any sequence of updates and resets; in particular the
    heartbeat interval stays below the election timeout, and the pipeline window
    stays open for at least one entry. *)
Theorem config_stays_valid `{!JsonLib} (d : RuntimeConfigValues) (ops : list ConfigOp)
    (Hd : Validate d = StOK) :
  let v := values_ (foldl run_op (RuntimeConfig_new d) ops) in
  valid_values v /\ heartbeat_interval_ms v < election_timeout_ms v /\ 1 <= max_pipeline_window v.
Proof.
  apply Validate_spec in Hd. cbv zeta.
  assert (forall c, valid_values (values_ c) -> valid_values (defaults_ c) ->
    valid_values (values_ (foldl run_op c ops))) as Hops.
  { induction ops as [|op ops IH]; intros c Hv Hdc; [done|]. simpl.
    destruct (run_op_valid c op Hv Hdc) as [? Hdef]. apply IH; [done|]. by rewrite Hdef. }
  pose proof (Hops (RuntimeConfig_new d) Hd Hd) as Hv. split; [done|].
  split; [apply Hv|]. destruct (vv_window _ Hv). done.
Qed.

(** Objects as maps of numbers, with one text that parses. *)
Definition sample_json : JsonLib :=
  mkJsonLib (gmap string Z)
    (fun s => if decide (s = "{heartbeat_interval_ms: 400}")
              then inr {["heartbeat_interval_ms" := 400]} else inl "parse error")
    (fun j k => bool_decide (is_Some (j !! k))) (fun j k => j !! k) (fun _ _ => None).

Lemma config_stays_valid_witness :
  heartbeat_interval_ms
    (values_ (@run_op sample_json (RuntimeConfig_new default_values)
       (OpUpdate "{heartbeat_interval_ms: 400}"))) < 300.
Proof.
  destruct (@config_stays_valid sample_json default_values [OpUpdate "{heartbeat_interval_ms: 400}"]
    ltac:(vm_compute; reflexivity)) as (_&H&_).
  refine (Z.lt_le_trans _ _ _ H _). vm_compute. discriminate.
Defined.
