(* ===== verification/RaftLog.v ===== *)
(** * The in-memory log: [src/raft_log.cpp]

    [RaftLog] keeps the entries of a deque, the index of the first of them and
    a cached byte count.  The file translates every member function, states
    the representation invariant [log_wf], and proves that the class refines a
    finite map from indices to entries whose domain is an interval. *)

From S2P Require Import Prelude Types.

Record RaftLog := mkRaftLog {
  entries_ : list RaftLogEntry;
  start_index_ : Index;
  estimated_bytes_ : Z
}.
#[global] Instance RaftLog_eta : Eta RaftLog := fun r =>
  mkRaftLog (entries_ r) (start_index_ r) (estimated_bytes_ r).

Definition RaftLog_init : RaftLog := mkRaftLog [] 1 0.

(** ** Member functions *)

(** [sizeof(entry.index_) + sizeof(entry.term_) + entry.data_.size()] *)
Definition EstimateEntryBytes (e : RaftLogEntry) : Z :=
  4 + 4 + Z.of_nat (String.length (data_ e)).

Definition log_size (l : RaftLog) : Z := Z.of_nat (length (entries_ l)).

Definition GetLastLogInfo (l : RaftLog) : Index * Term :=
  match list.last (entries_ l) with
  | None => (0, 0)
  | Some e => (index_ e, term_ e)
  end.

Definition LastLogIndex (l : RaftLog) : Index := (GetLastLogInfo l).1.

Definition GetFirstIndex (l : RaftLog) : Index := start_index_ l.

Definition push_entry (l : RaftLog) (e : RaftLogEntry) : RaftLog :=
  mkRaftLog (entries_ l ++ [e]) (start_index_ l)
    (u64 (estimated_bytes_ l + EstimateEntryBytes e)).

(** The status is [OK] on every path of both append functions. *)
Definition Append (term : Term) (data : string) (l : RaftLog) : Index * RaftLog :=
  let last_index := (GetLastLogInfo l).1 in
  let new_index := if decide (last_index = 0) then start_index_ l else u32 (last_index + 1) in
  (new_index, push_entry l (mkEntry new_index term data "" 0)).

Arguments Append : simpl never.

Definition AppendLogEntry (e : RaftLogEntry) (l : RaftLog) : RaftLog := push_entry l e.

Definition ToPhysicalIndex (l : RaftLog) (logical_index : Index) : Z :=
  u32 (logical_index - start_index_ l).

Definition IsInRange (l : RaftLog) (index : Index) : bool :=
  bool_decide (start_index_ l <= index) &&
  bool_decide (index < u32 (start_index_ l + u32 (log_size l))).

Definition GetEntry (l : RaftLog) (index : Index) : option RaftLogEntry :=
  if IsInRange l index then entries_ l !! Z.to_nat (ToPhysicalIndex l index) else None.

Definition GetEntries (l : RaftLog) (start stop : Index) : list RaftLogEntry :=
  if decide (stop <= start \/ entries_ l = []) then []
  else
    let actual_start := Z.max start (start_index_ l) in
    let actual_end := Z.min stop (u32 (start_index_ l + u32 (log_size l))) in
    if decide (actual_end <= actual_start) then []
    else
      let phys_start := Z.to_nat (ToPhysicalIndex l actual_start) in
      let phys_end := Z.to_nat (ToPhysicalIndex l actual_end) in
      take (phys_end - phys_start) (drop phys_start (entries_ l)).

Definition GetLogTerm (l : RaftLog) (index : Index) : Term :=
  if decide (index = 0) then 0
  else match GetEntry l index with
       | None => 0
       | Some e => term_ e
       end.

(** [while (entries_.size() > new_size) { ...; entries_.pop_back(); }].
    One iteration removes one entry, so the number of entries is enough fuel. *)
Fixpoint truncate_loop (fuel : nat) (new_size : Z) (es : list RaftLogEntry) (bytes : Z)
  : list RaftLogEntry * Z :=
  match fuel with
  | O => (es, bytes)
  | S fuel' =>
      if decide (new_size < Z.of_nat (length es)) then
        match list.last es with
        | None => (es, bytes)
        | Some e =>
            truncate_loop fuel' new_size (removelast es) (u64 (bytes - EstimateEntryBytes e))
        end
      else (es, bytes)
  end.

Definition TruncateSuffix (from_index : Index) (l : RaftLog) : RaftLog :=
  if decide (from_index > u64 (start_index_ l + log_size l)) then l
  else if decide (from_index <= start_index_ l) then mkRaftLog [] (start_index_ l) 0
  else
    let '(es, bytes) :=
      truncate_loop (length (entries_ l)) (ToPhysicalIndex l from_index)
        (entries_ l) (estimated_bytes_ l) in
    mkRaftLog es (start_index_ l) bytes.

Definition SetStartIndex (index : Index) (l : RaftLog) : RaftLog := mkRaftLog [] index 0.

Definition GetLogStats (l : RaftLog) : Z * Z := (log_size l, estimated_bytes_ l).

(** ** Invariant and abstraction *)

Definition total_bytes (es : list RaftLogEntry) : Z :=
  foldr (fun e n => EstimateEntryBytes e + n) 0 es.

(** The entries carry consecutive indices from [start_index_], no index has
    wrapped, and the cached byte count is exact modulo the width of [size_t]. *)
Record log_wf (l : RaftLog) : Prop := {
  wf_start : 1 <= start_index_ l;
  wf_bound : start_index_ l + log_size l <= UINT32_MAX;
  wf_index : forall k e, entries_ l !! k = Some e -> index_ e = start_index_ l + Z.of_nat k;
  wf_bytes : estimated_bytes_ l = u64 (total_bytes (entries_ l))
}.

(** The invariant as a test, to evaluate on concrete logs. *)
Fixpoint indices_from (i : Index) (es : list RaftLogEntry) : bool :=
  match es with
  | [] => true
  | e :: es' => bool_decide (index_ e = i) && indices_from (i + 1) es'
  end.

Definition log_wfb (l : RaftLog) : bool :=
  bool_decide (1 <= start_index_ l) && bool_decide (start_index_ l + log_size l <= UINT32_MAX) &&
  indices_from (start_index_ l) (entries_ l) &&
  bool_decide (estimated_bytes_ l = u64 (total_bytes (entries_ l))).

(** The next index a contiguous append is given. *)
Definition next_free (l : RaftLog) : Index := start_index_ l + log_size l.

(** The finite map from indices to entries that the log stands for. *)
Definition log_map (l : RaftLog) : gmap Z RaftLogEntry :=
  list_to_map ((fun e => (index_ e, e)) <$> entries_ l).

(** The content of one index, read off the entries directly. *)
Definition log_at (l : RaftLog) (i : Index) : option RaftLogEntry :=
  if decide (start_index_ l <= i) then entries_ l !! Z.to_nat (i - start_index_ l) else None.

(** ** Lemmas *)

Lemma log_size_nonneg l : 0 <= log_size l.
Proof. unfold log_size. lia. Qed.
#[export] Hint Resolve log_size_nonneg : core.

Lemma indices_from_spec i es k e :
  indices_from i es = true -> es !! k = Some e -> index_ e = i + Z.of_nat k.
Proof.
  revert i k. induction es as [|x es IH]; intros i k; simpl; [by rewrite lookup_nil|].
  rewrite andb_true_iff, bool_decide_eq_true. intros [<- Hes]. destruct k as [|k]; simpl.
  - intros [= ->]. lia.
  - intros Hk. rewrite (IH _ _ Hes Hk). lia.
Qed.

Lemma log_wfb_sound l : log_wfb l = true -> log_wf l.
Proof.
  unfold log_wfb. rewrite !andb_true_iff, !bool_decide_eq_true. intros [[[? ?] Hi] ?].
  split; try done. intros k e. by apply indices_from_spec.
Qed.

Lemma RaftLog_init_wf : log_wf RaftLog_init.
Proof. split; simpl; unfold log_size, UINT32_MAX; simpl; try lia; done. Qed.

Lemma log_at_Some l i e :
  log_at l i = Some e <-> start_index_ l <= i /\ entries_ l !! Z.to_nat (i - start_index_ l) = Some e.
Proof. unfold log_at. case_decide; split; [done|by intros [_ ?]|done|intros [??]; lia]. Qed.

Lemma log_at_lt l i e : log_at l i = Some e -> start_index_ l <= i < next_free l.
Proof.
  rewrite log_at_Some. intros [? H%lookup_lt_Some]. unfold next_free, log_size. lia.
Qed.

Lemma log_at_is_Some l i :
  start_index_ l <= i < next_free l -> is_Some (log_at l i).
Proof.
  unfold next_free, log_size. intros [??]. unfold log_at. rewrite decide_True by done.
  apply lookup_lt_is_Some_2. lia.
Qed.

Lemma log_at_None l i : ~ (start_index_ l <= i < next_free l) -> log_at l i = None.
Proof.
  intros H. destruct (log_at l i) as [e|] eqn:E; [|done]. by apply log_at_lt in E.
Qed.

Section wf.
Context (l : RaftLog) (W : log_wf l).

Lemma log_at_index i e : log_at l i = Some e -> index_ e = i.
Proof. rewrite log_at_Some. intros [? H]. rewrite (wf_index l W _ _ H). lia. Qed.

Lemma range_end : u32 (start_index_ l + u32 (log_size l)) = next_free l.
Proof.
  pose proof (wf_bound l W). pose proof (wf_start l W). pose proof (log_size_nonneg l).
  unfold next_free. rewrite !u32_small; [done|lia|]. rewrite u32_small; lia.
Qed.

Lemma IsInRange_spec i : IsInRange l i = true <-> start_index_ l <= i < next_free l.
Proof. unfold IsInRange. rewrite range_end. rewrite andb_true_iff, !bool_decide_eq_true. lia. Qed.

Lemma ToPhysicalIndex_spec i :
  start_index_ l <= i <= UINT32_MAX -> ToPhysicalIndex l i = i - start_index_ l.
Proof.
  intros. unfold ToPhysicalIndex. pose proof (wf_start l W). apply u32_small. lia.
Qed.

Lemma GetEntry_at i : GetEntry l i = log_at l i.
Proof.
  unfold GetEntry. destruct (IsInRange l i) eqn:E.
  - apply IsInRange_spec in E as E'. pose proof (wf_bound l W). unfold next_free in *.
    rewrite ToPhysicalIndex_spec by lia. unfold log_at. rewrite decide_True by lia. done.
  - symmetry. apply log_at_None. intros H. apply IsInRange_spec in H. congruence.
Qed.

Lemma GetLogTerm_at i :
  GetLogTerm l i = match log_at l i with Some e => term_ e | None => 0 end.
Proof.
  unfold GetLogTerm. rewrite GetEntry_at. case_decide as E; [|done]. subst.
  rewrite log_at_None; [done|]. pose proof (wf_start l W). lia.
Qed.

Lemma log_map_at i : log_map l !! i = log_at l i.
Proof.
  unfold log_map. destruct (log_at l i) as [e|] eqn:E.
  - apply elem_of_list_to_map_1'.
    + intros y Hy. apply list_elem_of_fmap in Hy as (e' & [= -> ->] & Hin).
      apply list_elem_of_lookup in Hin as [k Hk]. pose proof (wf_index l W _ _ Hk) as Hi.
      apply log_at_Some in E as [? E]. rewrite Hi in E.
      replace (Z.to_nat (start_index_ l + Z.of_nat k - start_index_ l)) with k in E by lia.
      congruence.
    + apply list_elem_of_fmap. exists e. rewrite (log_at_index _ _ E). split; [done|].
      apply log_at_Some in E as [_ E]. by eapply list_elem_of_lookup_2.
  - apply not_elem_of_list_to_map_1. rewrite <- list_fmap_compose. intros Hin.
    apply list_elem_of_fmap in Hin as (e & -> & Hin). simpl in E.
    apply list_elem_of_lookup in Hin as [k Hk]. rewrite (wf_index l W _ _ Hk) in E.
    unfold log_at in E. case_decide; [|lia].
    replace (Z.to_nat _) with k in E by lia. congruence.
Qed.

Lemma GetLastLogInfo_cases :
  (entries_ l = [] /\ GetLastLogInfo l = (0, 0)) \/
  (exists e, log_at l (next_free l - 1) = Some e /\
             GetLastLogInfo l = (next_free l - 1, term_ e) /\ start_index_ l < next_free l).
Proof.
  unfold GetLastLogInfo. rewrite last_lookup.
  destruct (entries_ l !! pred (length (entries_ l))) as [e|] eqn:E.
  - right. exists e. pose proof (lookup_lt_Some _ _ _ E) as Hl.
    rewrite (wf_index l W _ _ E). unfold next_free, log_size. split_and!; [|f_equal; lia|lia].
    apply log_at_Some. split; [lia|]. rewrite <- E. f_equal. lia.
  - left. apply lookup_ge_None in E. destruct (entries_ l); [done|]. simpl in E. lia.
Qed.

Lemma LastLogIndex_spec :
  LastLogIndex l = if decide (entries_ l = []) then 0 else next_free l - 1.
Proof.
  unfold LastLogIndex. destruct GetLastLogInfo_cases as [[E ->]|(e & H & -> & ?)].
  - by rewrite decide_True.
  - rewrite decide_False; [done|]. intros E. unfold next_free, log_size in *. rewrite E in *.
    simpl in *. lia.
Qed.

End wf.

Lemma total_bytes_app es es' : total_bytes (es ++ es') = total_bytes es + total_bytes es'.
Proof. induction es as [|e es IH]; simpl; [done|]. fold (total_bytes (es ++ es')). rewrite IH.
  fold (total_bytes es). lia. Qed.

Lemma u64_add_l a b : u64 (u64 a + b) = u64 (a + b).
Proof. unfold u64. apply Zplus_mod_idemp_l. Qed.

Lemma u64_sub_l a b : u64 (u64 a - b) = u64 (a - b).
Proof. unfold u64. apply Zminus_mod_idemp_l. Qed.

Lemma log_wf_last l : log_wf l -> entries_ l = [] \/ LastLogIndex l = next_free l - 1.
Proof. intros W. rewrite LastLogIndex_spec by done. case_decide; auto. Qed.

(** Contiguous push: the common core of both append functions. *)
Lemma push_entry_wf l e :
  log_wf l -> next_free l < UINT32_MAX -> index_ e = next_free l -> log_wf (push_entry l e).
Proof.
  intros W Hb He. unfold next_free, log_size in *. split; simpl.
  - apply W.
  - unfold log_size. simpl. len.
  - intros k x Hk. apply lookup_snoc_Some in Hk as [[? Hk]|[-> <-]]; [|lia].
    by apply (wf_index l W).
  - rewrite total_bytes_app, (wf_bytes l W). simpl. rewrite u64_add_l. f_equal. lia.
Qed.

Lemma push_entry_at l e i :
  log_wf l -> index_ e = next_free l ->
  log_at (push_entry l e) i = if decide (i = next_free l) then Some e else log_at l i.
Proof.
  intros W He. unfold log_at, next_free, log_size. simpl.
  case_decide as Hs; case_decide as Hi.
  - subst i. replace (Z.to_nat _) with (length (entries_ l)) by lia.
    rewrite lookup_app_r by lia. by rewrite Nat.sub_diag.
  - rewrite lookup_app. destruct (entries_ l !! Z.to_nat (i - start_index_ l)) eqn:E; [done|].
    apply lookup_ge_None in E. apply lookup_ge_None. simpl. lia.
  - pose proof (wf_start l W). lia.
  - done.
Qed.

Lemma Append_run l term data :
  log_wf l -> next_free l < UINT32_MAX ->
  Append term data l = (next_free l, push_entry l (mkEntry (next_free l) term data "" 0)).
Proof.
  intros W Hb. unfold Append.
  assert (E : (if decide ((GetLastLogInfo l).1 = 0) then start_index_ l
               else u32 ((GetLastLogInfo l).1 + 1)) = next_free l).
  { pose proof (wf_start l W). destruct (GetLastLogInfo_cases l W) as [[E ->]|(e & He & -> & ?)].
    - simpl. unfold next_free, log_size. rewrite E. simpl. lia.
    - simpl. rewrite decide_False by lia. rewrite u32_small; lia. }
  by rewrite E.
Qed.

Lemma truncate_loop_spec fuel n es b :
  (length es <= fuel)%nat -> b = u64 (total_bytes es) ->
  truncate_loop fuel (Z.of_nat n) es b =
    (take n es, u64 (total_bytes (take n es))).
Proof.
  revert es b. induction fuel as [|fuel IH]; intros es b Hf ->; simpl.
  - destruct es; [|simpl in Hf; lia]. by rewrite take_nil.
  - case_decide as Hn; [|by rewrite take_ge by lia].
    destruct es as [|e es _] using rev_ind; [simpl in Hn; lia|].
    rewrite last_snoc, removelast_last. len.
    rewrite total_bytes_app, u64_sub_l. simpl.
    rewrite IH; [|lia|f_equal; lia]. by rewrite take_app_le by lia.
Qed.

Lemma TruncateSuffix_run from l :
  log_wf l -> 0 <= from <= UINT32_MAX ->
  exists l', TruncateSuffix from l = l' /\ start_index_ l' = start_index_ l /\
    entries_ l' = take (Z.to_nat (from - start_index_ l)) (entries_ l) /\
    estimated_bytes_ l' = u64 (total_bytes (entries_ l')).
Proof.
  intros W Hf. eexists. split; [done|]. unfold TruncateSuffix.
  pose proof (wf_start l W). pose proof (wf_bound l W). pose proof (log_size_nonneg l).
  unfold UINT32_MAX, log_size in *.
  case_decide as Hc1.
  - rewrite u64_small in Hc1 by (unfold UINT64_MAX; lia).
    rewrite take_ge by lia. split_and!; [done..|]. apply W.
  - case_decide as Hc2.
    + simpl. replace (Z.to_nat _) with 0%nat by lia. done.
    + rewrite ToPhysicalIndex_spec by (unfold UINT32_MAX; try done; lia).
      set (n := Z.to_nat (from - start_index_ l)).
      replace (from - start_index_ l) with (Z.of_nat n) by lia.
      rewrite truncate_loop_spec; [done|done|apply W].
Qed.

Lemma TruncateSuffix_wf from l :
  log_wf l -> 0 <= from <= UINT32_MAX -> log_wf (TruncateSuffix from l).
Proof.
  intros W Hf. destruct (TruncateSuffix_run from l W Hf) as (l' & -> & Hs & He & Hb).
  split.
  - rewrite Hs. apply W.
  - unfold log_size. rewrite Hs, He. pose proof (wf_bound l W). unfold log_size in *. len.
  - intros k e. rewrite He, Hs. intros [Hk _]%lookup_take_Some. by apply (wf_index l W).
  - done.
Qed.

Lemma TruncateSuffix_at from l i :
  log_wf l -> 0 <= from <= UINT32_MAX ->
  log_at (TruncateSuffix from l) i = if decide (i < from) then log_at l i else None.
Proof.
  intros W Hf. destruct (TruncateSuffix_run from l W Hf) as (l' & -> & Hs & He & _).
  unfold log_at. rewrite Hs, He. case_decide as Hc1; [|by case_decide].
  case_decide as Hc2.
  - by rewrite lookup_take_lt by lia.
  - by rewrite lookup_take_ge by lia.
Qed.

Lemma SetStartIndex_wf i l : 1 <= i <= UINT32_MAX -> log_wf (SetStartIndex i l).
Proof. intros. split; simpl; unfold log_size; simpl; try lia; done. Qed.

Lemma SetStartIndex_at i j l : log_at (SetStartIndex i l) j = None.
Proof. unfold log_at. simpl. by case_decide. Qed.

Lemma GetEntries_wf l a b :
  log_wf l -> 0 <= a ->
  GetEntries l a b =
    take (Z.to_nat (Z.min b (next_free l) - Z.max a (start_index_ l)))
      (drop (Z.to_nat (Z.max a (start_index_ l) - start_index_ l)) (entries_ l)).
Proof.
  intros W Ha. unfold GetEntries. rewrite range_end by done.
  pose proof (wf_bound l W). pose proof (wf_start l W). unfold next_free in *.
  case_decide as Hc1.
  { destruct Hc1 as [Hc1|E].
    - replace (Z.to_nat _) with 0%nat by lia. done.
    - rewrite E, drop_nil, take_nil. done. }
  case_decide as Hc2.
  { replace (Z.to_nat _) with 0%nat by lia. done. }
  rewrite !ToPhysicalIndex_spec by (try done; lia). f_equal. lia.
Qed.

Lemma lookup_GetEntries l a b k :
  log_wf l -> 0 <= a ->
  GetEntries l a b !! k =
    if decide (Z.max a (start_index_ l) + Z.of_nat k < b)
    then log_at l (Z.max a (start_index_ l) + Z.of_nat k) else None.
Proof.
  intros W Ha. rewrite GetEntries_wf by done. rewrite lookup_take.
  set (m := Z.max a (start_index_ l)). unfold next_free.
  case_decide as Hk; case_decide as Hb.
  - rewrite lookup_drop. unfold log_at. rewrite decide_True by lia. f_equal. lia.
  - lia.
  - symmetry. apply log_at_None. unfold next_free. lia.
  - done.
Qed.

Lemma omap_log_at l n a :
  omap (log_at l) (seqZ a (Z.of_nat n)) =
    take (Z.to_nat (Z.min (a + Z.of_nat n) (next_free l) - Z.max a (start_index_ l)))
      (drop (Z.to_nat (Z.max a (start_index_ l) - start_index_ l)) (entries_ l)).
Proof.
  revert a. induction n as [|n IH]; intros a.
  { simpl. by replace (Z.to_nat _) with 0%nat by lia. }
  rewrite seqZ_cons by lia. cbn [omap list_omap].
  replace (Z.pred (Z.of_nat (S n))) with (Z.of_nat n) by lia.
  destruct (log_at l a) as [e|] eqn:E.
  - pose proof (log_at_lt _ _ _ E). apply log_at_Some in E as [Hs E].
    replace (Z.max a (start_index_ l)) with a by lia.
    rewrite (drop_S _ e) by done.
    replace (Z.to_nat (Z.min (a + Z.of_nat (S n)) (next_free l) - a))
      with (S (Z.to_nat (Z.min (Z.succ a + Z.of_nat n) (next_free l) - Z.succ a))) by lia.
    cbn [take]. f_equal. etransitivity; [apply IH|].
    replace (Z.max (Z.succ a) (start_index_ l)) with (Z.succ a) by lia.
    f_equal. f_equal. lia.
  - etransitivity; [apply IH|].
    destruct (decide (a < start_index_ l)) as [Ha|Ha].
    { replace (Z.max (Z.succ a) _) with (Z.max a (start_index_ l)) by lia. f_equal. lia. }
    assert (next_free l <= a).
    { destruct (decide (a < next_free l)); [|lia].
      destruct (log_at_is_Some l a) as [? ?]; [lia|congruence]. }
    replace (Z.to_nat (Z.min (Z.succ a + Z.of_nat n) _ - _)) with 0%nat by lia.
    by replace (Z.to_nat (Z.min (a + Z.of_nat (S n)) _ - _)) with 0%nat by lia.
Qed.

(** A concrete log: two entries after a snapshot at index 4. *)
Definition sample_log : RaftLog :=
  (Append 3 "b" (Append 2 "a" (SetStartIndex 5 RaftLog_init)).2).2.

Lemma sample_log_wf : log_wf sample_log.
Proof.
  unfold sample_log.
  set (l0 := SetStartIndex 5 RaftLog_init).
  assert (W0 : log_wf l0) by (apply SetStartIndex_wf; unfold UINT32_MAX; lia).
  rewrite (Append_run l0) by (done || (vm_compute; reflexivity)). cbv beta iota zeta delta [snd].
  set (l1 := push_entry l0 _).
  assert (W1 : log_wf l1) by (apply push_entry_wf; [done|vm_compute; reflexivity|done]).
  rewrite (Append_run l1) by (done || (vm_compute; reflexivity)).
  apply push_entry_wf; [done|vm_compute; reflexivity|done].
Defined.

(** ** Properties *)

(** [RaftLog::Append] on a well-formed log that has an index left returns
    the first free index, keeps the representation invariant, and adds exactly
    one binding to the index-to-entry map the log stands for; the index was
    not bound before and every other index keeps its entry. *)
Theorem Append_refines (l : RaftLog) (term : Term) (data : string)
    (W : log_wf l) (Hb : next_free l < UINT32_MAX) :
  let '(i, l') := Append term data l in
  i = next_free l /\ log_wf l' /\ log_map l !! i = None /\
  log_map l' = <[i := mkEntry i term data "" 0]> (log_map l) /\
  GetLastLogInfo l' = (i, term).
Proof.
  rewrite Append_run by done. set (e := mkEntry _ _ _ _ _).
  assert (W' : log_wf (push_entry l e)) by by apply push_entry_wf.
  split_and!; [done|done| | |].
  - rewrite log_map_at by done. apply log_at_None. lia.
  - apply map_eq. intros j. rewrite lookup_insert, !log_map_at by done.
    rewrite push_entry_at by done. repeat case_decide; congruence.
  - unfold GetLastLogInfo. simpl. by rewrite last_snoc.
Qed.

Lemma Append_refines_witness :
  let '(i, l') := Append 9 "c" sample_log in
  i = 7 /\ log_map l' = <[i := mkEntry i 9 "c" "" 0]> (log_map sample_log).
Proof.
  pose proof (Append_refines sample_log 9 "c" sample_log_wf ltac:(vm_compute; reflexivity)) as H.
  destruct (Append 9 "c" sample_log) as [i l']. destruct H as (-> & _ & _ & -> & _).
  split; reflexivity.
Defined.

(** [RaftLog::TruncateSuffix] keeps the representation invariant and
    restricts the index-to-entry map to the indices below the argument, for
    every argument: below, inside and beyond the stored range. *)
Theorem TruncateSuffix_refines (l : RaftLog) (from : Index)
    (W : log_wf l) (Hf : 0 <= from <= UINT32_MAX) :
  log_wf (TruncateSuffix from l) /\
  log_map (TruncateSuffix from l) = filter (fun p => p.1 < from) (log_map l).
Proof.
  assert (W' : log_wf (TruncateSuffix from l)) by by apply TruncateSuffix_wf.
  split; [done|]. apply map_eq. intros j. rewrite map_lookup_filter.
  rewrite !log_map_at by done. rewrite TruncateSuffix_at by done.
  destruct (log_at l j); simpl; repeat case_decide; done.
Qed.

Lemma TruncateSuffix_refines_witness :
  log_map (TruncateSuffix 6 sample_log) = filter (fun p => p.1 < 6) (log_map sample_log).
Proof.
  apply (TruncateSuffix_refines sample_log 6 sample_log_wf). unfold UINT32_MAX. lia.
Defined.

(** [RaftLog::GetEntries(start, end)] returns the entries bound to the
    indices of the half-open range in increasing order, skipping those that
    are compacted away or not yet written. *)
Theorem GetEntries_refines (l : RaftLog) (start stop : Index)
    (W : log_wf l) (Hs : 0 <= start) :
  GetEntries l start stop =
    omap (fun i => log_map l !! i) (seqZ start (stop - start)).
Proof.
  rewrite GetEntries_wf by done.
  rewrite (list_omap_ext _ (log_at l) _ (seqZ start (stop - start)))
    by (apply Forall_Forall2_diag, Forall_forall; intros; by apply log_map_at).
  destruct (decide (0 <= stop - start)) as [Hn|Hn].
  - replace (stop - start) with (Z.of_nat (Z.to_nat (stop - start))) by lia.
    rewrite omap_log_at. f_equal. lia.
  - rewrite seqZ_nil by lia. simpl. replace (Z.to_nat _) with 0%nat by lia. done.
Qed.

Lemma GetEntries_refines_witness :
  GetEntries sample_log 3 7 = omap (fun i => log_map sample_log !! i) (seqZ 3 4).
Proof. apply (GetEntries_refines sample_log 3 7 sample_log_wf). lia. Defined.
