(* ===== verification/Quorum.v ===== *)
(** * Cluster membership and quorums

    The member functions of [ClusterConfig] ([include/rollingraft/raft_node.h])
    and the quorum test of elections, CheckQuorum and ReadIndex
    ([RaftNodeImpl::QuorumSatisfied], [src/election_manager.cpp]).  The
    theorems are the intersection facts that elections and joint consensus
    rest on. *)

From S2P Require Import Prelude Types.

(** ** Member functions *)

Fixpoint IsMember (id : NodeId) (l : list NodeId) : bool :=
  match l with
  | [] => false
  | node :: l' => if decide (node = id) then true else IsMember id l'
  end.

Definition Contains (c : ClusterConfig) (id : NodeId) : bool :=
  if IsMember id (nodes c) then true
  else if is_joint c && IsMember id (old_nodes c) then true
  else if IsMember id (learners c) then true
  else false.

Definition IsVoter (c : ClusterConfig) (id : NodeId) : bool :=
  if IsMember id (nodes c) then true
  else if is_joint c && IsMember id (old_nodes c) then true
  else false.

Definition IsLearner (c : ClusterConfig) (id : NodeId) : bool := IsMember id (learners c).

Definition GetMajority (c : ClusterConfig) : Z :=
  u32 (u32 (Z.of_nat (length (nodes c))) / 2 + 1).

Definition GetOldMajority (c : ClusterConfig) : Z :=
  u32 (u32 (Z.of_nat (length (old_nodes c))) / 2 + 1).

Definition JointMajoritySatisfied (c : ClusterConfig) (old_count new_count : Z) : bool :=
  if negb (is_joint c) then bool_decide (i32 (GetMajority c) <= new_count)
  else bool_decide (i32 (GetOldMajority c) <= old_count) &&
       bool_decide (i32 (GetMajority c) <= new_count).

(** The loop counts the members of the [std::set] found in a vector. *)
Definition count_in (l : list NodeId) (voters : gset Z) : Z :=
  Z.of_nat (length (filter (fun v => v ∈ l) (elements voters))).

Definition QuorumSatisfied (c : ClusterConfig) (voters : gset Z) : bool :=
  JointMajoritySatisfied c (count_in (old_nodes c) voters) (count_in (nodes c) voters).

(** ** Lemmas *)

(** Vectors shorter than 2^31 keep every count inside [int]. *)
Definition config_small (c : ClusterConfig) : Prop :=
  Z.of_nat (length (nodes c)) < 2147483648 /\ Z.of_nat (length (old_nodes c)) < 2147483648.

Lemma IsMember_spec id l : IsMember id l = true <-> id ∈ l.
Proof.
  induction l as [|x l IH]; simpl.
  - split; [done|]. by intros ?%elem_of_nil.
  - rewrite elem_of_cons. case_decide; [naive_solver|]. rewrite IH. naive_solver.
Qed.

Lemma IsVoter_spec c id :
  IsVoter c id = true <-> id ∈ nodes c \/ (is_joint c = true /\ id ∈ old_nodes c).
Proof.
  unfold IsVoter. rewrite <- !IsMember_spec.
  destruct (IsMember id (nodes c)), (is_joint c), (IsMember id (old_nodes c)); naive_solver.
Qed.

Lemma Contains_spec c id :
  Contains c id = true <-> IsVoter c id = true \/ id ∈ learners c.
Proof.
  unfold Contains, IsVoter. rewrite <- IsMember_spec.
  destruct (IsMember id (nodes c)), (is_joint c), (IsMember id (old_nodes c)),
    (IsMember id (learners c)); naive_solver.
Qed.

Lemma majority_half n :
  0 <= n < 2147483648 -> i32 (u32 (u32 n / 2 + 1)) = n / 2 + 1.
Proof.
  intros Hn. pose proof (Z.div_mod n 2 ltac:(lia)). pose proof (Z.mod_pos_bound n 2 ltac:(lia)).
  rewrite (u32_small n) by (unfold UINT32_MAX; lia).
  rewrite u32_small by (unfold UINT32_MAX; lia).
  unfold i32. cbv zeta. rewrite Z.mod_small by lia. case_decide; lia.
Qed.

Lemma count_in_size l V : count_in l V = Z.of_nat (size (V ∩ list_to_set l)).
Proof.
  unfold count_in. f_equal. unfold size, set_size. simpl.
  apply Permutation_length. apply NoDup_Permutation.
  - apply list.NoDup_filter, NoDup_elements.
  - apply NoDup_elements.
  - intros x. rewrite list_elem_of_filter, !elem_of_elements. set_solver.
Qed.

Lemma size_list_to_set_le (l : list Z) : (size (list_to_set l : gset Z) <= length l)%nat.
Proof.
  induction l as [|x l IH]; [done|]. rewrite list_to_set_cons. cbn [length].
  destruct (decide (x ∈ (list_to_set l : gset Z))).
  - replace ({[x]} ∪ list_to_set l : gset Z) with (list_to_set l : gset Z) by set_solver. lia.
  - rewrite size_union, size_singleton by set_solver. lia.
Qed.

(** Two sets that each hold more than half of a vector share one of its
    members. *)
Lemma majorities_meet (l : list Z) (V1 V2 : gset Z) :
  Z.of_nat (length l) / 2 + 1 <= count_in l V1 ->
  Z.of_nat (length l) / 2 + 1 <= count_in l V2 ->
  exists v, v ∈ V1 /\ v ∈ V2 /\ v ∈ l.
Proof.
  rewrite !count_in_size. set (L := list_to_set l : gset Z). intros H1 H2.
  destruct (decide (V1 ∩ L ∩ (V2 ∩ L) = ∅)) as [E|E].
  - exfalso. pose proof (size_list_to_set_le l). fold L in H.
    assert (size ((V1 ∩ L) ∪ (V2 ∩ L)) <= size L)%nat as Hle
      by (apply subseteq_size; set_solver).
    rewrite size_union in Hle by (apply disjoint_intersection_L; exact E).
    pose proof (Z.div_mod (Z.of_nat (length l)) 2 ltac:(lia)).
    pose proof (Z.mod_pos_bound (Z.of_nat (length l)) 2 ltac:(lia)). lia.
  - apply set_choose_L in E as [v Hv]. exists v. unfold L in Hv. set_solver.
Qed.

Lemma QuorumSatisfied_spec c V :
  config_small c ->
  QuorumSatisfied c V = true <->
    Z.of_nat (length (nodes c)) / 2 + 1 <= count_in (nodes c) V /\
    (is_joint c = true -> Z.of_nat (length (old_nodes c)) / 2 + 1 <= count_in (old_nodes c) V).
Proof.
  intros [Hn Ho]. unfold QuorumSatisfied, JointMajoritySatisfied, GetMajority, GetOldMajority.
  rewrite !majority_half by lia. destruct (is_joint c); simpl.
  - rewrite andb_true_iff, !bool_decide_eq_true. naive_solver.
  - rewrite bool_decide_eq_true. naive_solver.
Qed.

(** ** Configurations with the same members *)

(** Nodes list their peers in different orders; the decisions do not depend on
    the order. *)
Definition same_members (c c' : ClusterConfig) : Prop :=
  nodes c ≡ₚ nodes c' /\ old_nodes c ≡ₚ old_nodes c' /\ is_joint c = is_joint c'.

#[global] Instance same_members_equiv : Equivalence same_members.
Proof.
  split.
  - intros c. by split_and!.
  - intros c c' (?&?&?). by split_and!.
  - intros c1 c2 c3 (H1&H2&?) (H1'&H2'&?). split_and!; [by rewrite H1|by rewrite H2|congruence].
Qed.

#[global] Instance count_in_proper : Proper ((≡ₚ) ==> (=) ==> (=)) count_in.
Proof. intros l l' Hl V ? <-. rewrite !count_in_size. by rewrite (list_to_set_perm_L _ _ Hl). Qed.

#[global] Instance QuorumSatisfied_proper : Proper (same_members ==> (=) ==> (=)) QuorumSatisfied.
Proof.
  intros c c' (Hn&Ho&Hj) V ? <-.
  unfold QuorumSatisfied, JointMajoritySatisfied, GetMajority, GetOldMajority.
  by rewrite Hj, (Permutation_length Hn), (Permutation_length Ho), (count_in_proper _ _ Hn V V eq_refl),
    (count_in_proper _ _ Ho V V eq_refl).
Qed.

#[global] Instance IsVoter_proper : Proper (same_members ==> (=) ==> (=)) IsVoter.
Proof.
  intros c c' (Hn&Ho&Hj) i ? <-. apply eq_true_iff_eq. rewrite !IsVoter_spec.
  by rewrite Hj, Hn, Ho.
Qed.

Lemma quorums_share c V1 V2 :
  config_small c -> QuorumSatisfied c V1 = true -> QuorumSatisfied c V2 = true ->
  exists v, v ∈ V1 /\ v ∈ V2 /\ v ∈ nodes c.
Proof.
  intros Hs Q1 Q2. apply QuorumSatisfied_spec in Q1 as [Q1 _]; [|done].
  apply QuorumSatisfied_spec in Q2 as [Q2 _]; [|done].
  by apply majorities_meet.
Qed.

(** ** Properties *)

(** Any two voter sets that pass [QuorumSatisfied] under one
    configuration, joint or not, share a voter of the new node list. *)
Theorem quorums_intersect (c : ClusterConfig) (V1 V2 : gset Z)
    (Hs : config_small c)
    (Q1 : QuorumSatisfied c V1 = true) (Q2 : QuorumSatisfied c V2 = true) :
  exists v, v ∈ V1 /\ v ∈ V2 /\ v ∈ nodes c.
Proof. by apply quorums_share. Qed.

Lemma quorums_intersect_witness :
  exists v, v ∈ ({[1; 2]} : gset Z) /\ v ∈ ({[2; 3]} : gset Z) /\ v ∈ [1; 2; 3].
Proof.
  apply (quorums_intersect (mkClusterConfig [1; 2; 3] [] [] 1 false)).
  - split; simpl; lia.
  - vm_compute. reflexivity.
  - vm_compute. reflexivity.
Defined.

(** Joint consensus: a quorum of the transitional configuration shares a
    voter with every quorum of the old configuration alone and with every
    quorum of the new configuration alone, so no decision of either side can
    be made behind the back of the transition. *)
Theorem joint_quorum_meets_both_sides (old_ new_ ls : list NodeId) (ver : Z) (V W : gset Z)
    (Hs : config_small (mkClusterConfig new_ old_ ls ver true))
    (QJ : QuorumSatisfied (mkClusterConfig new_ old_ ls ver true) V = true) :
  (QuorumSatisfied (mkClusterConfig old_ [] ls ver false) W = true ->
     exists v, v ∈ V /\ v ∈ W /\ v ∈ old_) /\
  (QuorumSatisfied (mkClusterConfig new_ [] ls ver false) W = true ->
     exists v, v ∈ V /\ v ∈ W /\ v ∈ new_).
Proof.
  apply QuorumSatisfied_spec in QJ as [QN QO]; [|done]. simpl in QN, QO.
  specialize (QO eq_refl). destruct Hs as [Hn Ho]. simpl in Hn, Ho.
  split; intros QW; apply QuorumSatisfied_spec in QW as [QW _];
    try (split; simpl; lia); by apply majorities_meet.
Qed.

Lemma joint_quorum_meets_both_sides_witness :
  exists v, v ∈ ({[1; 2; 3]} : gset Z) /\ v ∈ ({[2; 3]} : gset Z) /\ v ∈ [1; 2; 3].
Proof.
  apply (joint_quorum_meets_both_sides [1; 2; 3] [1; 2; 3; 4] [] 2).
  - split; simpl; lia.
  - vm_compute. reflexivity.
  - vm_compute. reflexivity.
Defined.
