(* ===== verification/Sessions.v ===== *)
(** * Client sessions: [src/client_session_manager.cpp]

    Deduplication of proposals by session and sequence number, with a bounded
    number of sessions kept in least-recently-used order.  The iterator
    [lru_it] of a session points at its own id in the list, so erasing it
    removes that id. *)

From S2P Require Import Prelude Types.

Record SessionResult := mkSessionResult {
  sr_success : bool;
  sr_response : string;
  sr_applied_index : Index;
  sr_applied_term : Term;
  sr_error_message : string
}.

Record ClientSessionEntry := mkClientSessionEntry {
  cse_last_seq : Z;
  cse_last_result : SessionResult;
  cse_last_active : Z
}.
#[global] Instance ClientSessionEntry_eta : Eta ClientSessionEntry := fun r =>
  mkClientSessionEntry (cse_last_seq r) (cse_last_result r) (cse_last_active r).

Record ClientSessionManager := mkClientSessionManager {
  max_sessions_ : Z;
  ttl_ms_ : Z;
  lru_list_ : list Z;
  sessions_ : gmap Z ClientSessionEntry
}.
#[global] Instance ClientSessionManager_eta : Eta ClientSessionManager := fun r =>
  mkClientSessionManager (max_sessions_ r) (ttl_ms_ r) (lru_list_ r) (sessions_ r).

Definition ClientSessionManager_new (max_sessions ttl_ms : Z) : ClientSessionManager :=
  mkClientSessionManager max_sessions ttl_ms [] ∅.

(** ** Member functions *)

Fixpoint erase_first (x : Z) (l : list Z) : list Z :=
  match l with
  | [] => []
  | y :: l' => if decide (y = x) then l' else y :: erase_first x l'
  end.

Definition TouchSession (now session_id : Z) (m : ClientSessionManager) : ClientSessionManager :=
  m <| lru_list_ := session_id :: erase_first session_id (lru_list_ m) |>
    <| sessions_ ::= alter (fun e => e <| cse_last_active := now |>) session_id |>.

(** Returns the cached result of a request that is not newer than the last. *)
Definition IsDuplicate (now session_id seq_num : Z) (m : ClientSessionManager)
  : option SessionResult * ClientSessionManager :=
  match sessions_ m !! session_id with
  | None => (None, m)
  | Some entry =>
      let m := TouchSession now session_id m in
      if decide (seq_num < cse_last_seq entry) then (Some (cse_last_result entry), m)
      else if decide (seq_num = cse_last_seq entry) then (Some (cse_last_result entry), m)
      else (None, m)
  end.

Definition EvictLRU (m : ClientSessionManager) : ClientSessionManager :=
  match list.last (lru_list_ m) with
  | None => m
  | Some session_id =>
      m <| sessions_ ::= delete session_id |> <| lru_list_ ::= @removelast Z |>
  end.

Definition RecordResult (now session_id seq_num : Z) (result : SessionResult)
    (m : ClientSessionManager) : ClientSessionManager :=
  match sessions_ m !! session_id with
  | Some entry =>
      TouchSession now session_id
        (m <| sessions_ ::= <[session_id := mkClientSessionEntry seq_num result now]> |>)
  | None =>
      let m := if bool_decide (max_sessions_ m <= Z.of_nat (size (sessions_ m))) &&
                  bool_decide (0 < max_sessions_ m)
               then EvictLRU m else m in
      m <| lru_list_ := session_id :: lru_list_ m |>
        <| sessions_ ::= <[session_id := mkClientSessionEntry seq_num result now]> |>
  end.

Definition expired (now ttl : Z) (e : ClientSessionEntry) : bool :=
  let elapsed := elapsed_ms now (cse_last_active e) in
  bool_decide (0 <= elapsed) && bool_decide (ttl <= u64 elapsed).

(** The reverse traversal removes each expired session from map and list. *)
Fixpoint evict_loop (now ttl : Z) (rev_lru : list Z) (removed : Z)
    (s : gmap Z ClientSessionEntry) : list Z * Z * gmap Z ClientSessionEntry :=
  match rev_lru with
  | [] => ([], removed, s)
  | id :: rest =>
      match s !! id with
      | None =>
          let '(kept, n, s') := evict_loop now ttl rest removed s in (id :: kept, n, s')
      | Some e =>
          if expired now ttl e then evict_loop now ttl rest (removed + 1) (delete id s)
          else let '(kept, n, s') := evict_loop now ttl rest removed s in (id :: kept, n, s')
      end
  end.

Definition EvictExpired (now : Z) (m : ClientSessionManager) : Z * ClientSessionManager :=
  if decide (ttl_ms_ m = 0) then (0, m)
  else
    let '(kept, n, s) := evict_loop now (ttl_ms_ m) (reverse (lru_list_ m)) 0 (sessions_ m) in
    (n, m <| lru_list_ := reverse kept |> <| sessions_ := s |>).

Definition Clear (m : ClientSessionManager) : ClientSessionManager :=
  m <| sessions_ := ∅ |> <| lru_list_ := [] |>.

(** ** Invariant *)

(** The list holds every session once and nothing else, and a positive
    capacity is never exceeded. *)
Record sessions_wf (m : ClientSessionManager) : Prop := {
  sw_nodup : NoDup (lru_list_ m);
  sw_dom : forall id, id ∈ lru_list_ m <-> is_Some (sessions_ m !! id);
  sw_size : 0 < max_sessions_ m -> Z.of_nat (length (lru_list_ m)) <= max_sessions_ m
}.

Lemma sessions_wf_size m : sessions_wf m -> size (sessions_ m) = length (lru_list_ m).
Proof.
  intros W. rewrite <- (size_dom (D := gset Z) (sessions_ m)).
  replace (dom (sessions_ m) : gset Z) with (list_to_set (lru_list_ m) : gset Z).
  - apply size_list_to_set. apply W.
  - apply set_eq. intros x. rewrite elem_of_list_to_set, elem_of_dom. apply W.
Qed.

Lemma elem_of_erase_first x y l : NoDup l -> y ∈ erase_first x l <-> y ∈ l /\ y <> x.
Proof.
  induction 1 as [|z l Hz Hl IH]; simpl; [set_solver|]. case_decide; set_solver.
Qed.

Lemma NoDup_erase_first x l : NoDup l -> NoDup (erase_first x l).
Proof.
  induction 1 as [|z l Hz Hl IH]; simpl; [constructor|]. case_decide; [done|].
  constructor; [|done]. rewrite elem_of_erase_first by done. tauto.
Qed.

Lemma length_erase_first x l : x ∈ l -> S (length (erase_first x l)) = length l.
Proof.
  induction l as [|z l IH]; simpl; [set_solver|]. intros H. case_decide; [done|].
  simpl. rewrite IH; set_solver.
Qed.

Lemma TouchSession_wf now id m :
  is_Some (sessions_ m !! id) -> sessions_wf m -> sessions_wf (TouchSession now id m).
Proof.
  intros Hid W. assert (Hin : id ∈ lru_list_ m) by (by apply (sw_dom m W)).
  split; unfold TouchSession; proj_simp.
  - constructor; [|apply NoDup_erase_first, W].
    rewrite elem_of_erase_first by apply W. tauto.
  - intros x. rewrite elem_of_cons, elem_of_erase_first by apply W. rewrite (sw_dom m W).
    rewrite lookup_alter. case_decide; subst; rewrite ?fmap_is_Some; [tauto|].
    split; [intros [->|[? _]]; done|]. intros Hx. right. split; [done|congruence].
  - intros Hp. simpl. rewrite length_erase_first by done. by apply W.
Qed.

Lemma EvictLRU_wf m : sessions_wf m -> sessions_wf (EvictLRU m).
Proof.
  intros W. unfold EvictLRU. destruct (lru_list_ m) as [|x l _] eqn:E using rev_ind; [done|].
  rewrite last_snoc. pose proof (sw_nodup m W) as Hn. rewrite E in Hn.
  apply list.NoDup_app in Hn as (Hl & Hx & _).
  split; proj_simp; rewrite E, ?removelast_last; [done| |].
  - intros id. rewrite lookup_delete. case_decide; subst.
    + split; [|by intros []]. intros Hin. specialize (Hx _ Hin). set_solver.
    + rewrite <- (sw_dom m W), E. set_solver.
  - intros Hp. pose proof (sw_size m W Hp) as Hs. rewrite E in Hs. len.
Qed.

Lemma insert_existing_wf id e m :
  is_Some (sessions_ m !! id) -> sessions_wf m ->
  sessions_wf (m <| sessions_ ::= <[id := e]> |>).
Proof.
  intros Hid W. split; proj_simp; try apply W.
  intros x. rewrite (sw_dom m W), lookup_insert. case_decide; subst; [|done].
  split; [eauto|done].
Qed.

Lemma push_session_wf id e m :
  sessions_ m !! id = None -> sessions_wf m ->
  (0 < max_sessions_ m -> Z.of_nat (length (lru_list_ m)) < max_sessions_ m) ->
  sessions_wf (m <| lru_list_ := id :: lru_list_ m |> <| sessions_ ::= <[id := e]> |>).
Proof.
  intros Hid W Hc. split; proj_simp.
  - constructor; [|apply W]. rewrite (sw_dom m W), Hid. by intros [].
  - intros x. rewrite elem_of_cons, (sw_dom m W), lookup_insert. case_decide; subst.
    + split; [eauto|by left].
    + split; [intros [->|?]; done|by right].
  - intros Hp. specialize (Hc Hp). simpl. lia.
Qed.

Lemma length_EvictLRU m :
  lru_list_ m <> [] -> S (length (lru_list_ (EvictLRU m))) = length (lru_list_ m).
Proof.
  intros Hne. unfold EvictLRU. destruct (lru_list_ m) as [|x l _] eqn:E using rev_ind; [done|].
  rewrite last_snoc. proj_simp. rewrite E, removelast_last. len.
Qed.

Lemma EvictLRU_None id m : sessions_ m !! id = None -> sessions_ (EvictLRU m) !! id = None.
Proof.
  intros H. unfold EvictLRU. destruct (list.last _); [|done]. proj_simp.
  rewrite lookup_delete. by case_decide.
Qed.

Lemma RecordResult_wf now id seq r m : sessions_wf m -> sessions_wf (RecordResult now id seq r m).
Proof.
  intros W. unfold RecordResult. destruct (sessions_ m !! id) as [e|] eqn:E.
  - apply TouchSession_wf.
    + proj_simp. rewrite lookup_insert_eq. eauto.
    + apply insert_existing_wf; eauto.
  - cbv zeta. rewrite sessions_wf_size by done.
    destruct (bool_decide (max_sessions_ m <= _)) eqn:H1;
      destruct (bool_decide (0 < max_sessions_ m)) eqn:H2; simpl;
      rewrite ?bool_decide_eq_true, ?bool_decide_eq_false in *.
    + assert (lru_list_ m <> []) by (intros F; rewrite F in H1; simpl in H1; lia).
      pose proof (length_EvictLRU m ltac:(done)).
      assert (Hmax : max_sessions_ (EvictLRU m) = max_sessions_ m)
        by (unfold EvictLRU; by destruct (list.last _)).
      pose proof (sw_size m W H2).
      apply push_session_wf; [by apply EvictLRU_None|by apply EvictLRU_wf|].
      rewrite Hmax. lia.
    + apply push_session_wf; [done..|lia].
    + apply push_session_wf; [done..|lia].
    + apply push_session_wf; [done..|lia].
Qed.

Lemma RecordResult_lookup now id seq r m :
  sessions_ (RecordResult now id seq r m) !! id = Some (mkClientSessionEntry seq r now).
Proof.
  unfold RecordResult. destruct (sessions_ m !! id) as [e|] eqn:E.
  - unfold TouchSession. proj_simp. rewrite lookup_alter_eq, lookup_insert_eq. done.
  - cbv zeta. proj_simp. by rewrite lookup_insert_eq.
Qed.

Lemma evict_loop_spec now ttl ids n s kept n' s' :
  NoDup ids -> (forall id, id ∈ ids -> is_Some (s !! id)) ->
  evict_loop now ttl ids n s = (kept, n', s') ->
  (forall id, id ∈ kept <-> id ∈ ids /\ exists e, s !! id = Some e /\ expired now ttl e = false) /\
  NoDup kept /\ n' + Z.of_nat (length kept) = n + Z.of_nat (length ids) /\
  (forall id, s' !! id = if decide (id ∈ ids /\ id ∉ kept) then None else s !! id).
Proof.
  intros Hnd. revert n s kept n' s'. induction Hnd as [|x ids Hx Hnd IH];
    intros n s kept n' s' Hs Hrun; simpl in Hrun.
  { simplify_eq. split_and!; [|constructor|done|]; intros id; [set_solver|].
    case_decide; set_solver. }
  destruct (Hs x) as [e He]; [set_solver|]. rewrite He in Hrun.
  destruct (expired now ttl e) eqn:Ex.
  - apply IH in Hrun as (Hk & Hn & Hlen & Hl);
      [|intros id Hid; rewrite lookup_delete_ne by congruence; apply Hs; by right].
    split_and!; [|done|simpl; lia|].
    + intros id. rewrite Hk. destruct (decide (id = x)) as [->|Hne].
      * split; [tauto|]. intros [_ (e' & ? & ?)]. congruence.
      * rewrite lookup_delete_ne by done. rewrite elem_of_cons. tauto.
    + intros id. rewrite Hl. destruct (decide (id = x)) as [->|Hne].
      * rewrite lookup_delete_eq. assert (x ∉ kept) by (rewrite Hk; tauto).
        rewrite (decide_True (P := x ∈ x :: ids /\ _)) by (split; [left|done]).
        by case_decide.
      * rewrite lookup_delete_ne by done. apply decide_ext. rewrite elem_of_cons. tauto.
  - destruct (evict_loop now ttl ids n s) as [[kept0 n0] s0] eqn:Er. simplify_eq.
    apply IH in Er as (Hk & Hn & Hlen & Hl); [|intros id Hid; apply Hs; by right].
    split_and!; [| |simpl; lia|].
    + intros id. rewrite !elem_of_cons, Hk. split; [|tauto].
      intros [->|]; [|tauto]. split; [by left|]. eauto.
    + constructor; [|done]. rewrite Hk. tauto.
    + intros id. rewrite Hl. apply decide_ext. rewrite !elem_of_cons.
      destruct (decide (id = x)) as [->|]; tauto.
Qed.

Lemma evict_loop_count now ttl ids n s kept n' s' :
  evict_loop now ttl ids n s = (kept, n', s') -> n <= n'.
Proof.
  revert n s kept n' s'. induction ids as [|x ids IH]; intros n s kept n' s' H; simpl in H.
  { simplify_eq. lia. }
  destruct (s !! x) as [e|]; [destruct (expired now ttl e)|].
  - apply IH in H. lia.
  - destruct (evict_loop _ _ ids _ _) as [[??]?] eqn:E. simplify_eq. by eapply IH.
  - destruct (evict_loop _ _ ids _ _) as [[??]?] eqn:E. simplify_eq. by eapply IH.
Qed.

Lemma EvictExpired_wf now m : sessions_wf m -> sessions_wf (EvictExpired now m).2.
Proof.
  intros W. unfold EvictExpired. case_decide; [done|].
  destruct (evict_loop _ _ _ _ _) as [[kept n] s] eqn:E. simpl.
  pose proof (evict_loop_count _ _ _ _ _ _ _ _ E) as Hcount.
  apply evict_loop_spec in E as (Hk & Hn & Hlen & Hl).
  - split; proj_simp.
    + by rewrite reverse_Permutation.
    + intros id. rewrite elem_of_reverse, Hl.
      assert (id ∈ reverse (lru_list_ m) <-> id ∈ lru_list_ m) as Hrev by apply elem_of_reverse.
      destruct (decide (id ∈ kept)) as [Hin|Hin].
      * rewrite decide_False by tauto. destruct (proj1 (Hk id) Hin) as [_ (e & -> & _)].
        split; eauto.
      * case_decide as Hd; [split; [done|by intros []]|].
        rewrite <- (sw_dom m W). tauto.
    + intros Hp. pose proof (sw_size m W Hp). rewrite !length_reverse in *. lia.
  - rewrite reverse_Permutation. apply W.
  - intros id. rewrite elem_of_reverse. apply W.
Qed.

Lemma IsDuplicate_wf now id seq m : sessions_wf m -> sessions_wf (IsDuplicate now id seq m).2.
Proof.
  intros W. unfold IsDuplicate. destruct (sessions_ m !! id) eqn:E; [|done].
  repeat case_decide; apply TouchSession_wf; eauto.
Qed.

(** ** Sequences of calls *)

Inductive SessionOp :=
| OpIsDuplicate (now id seq : Z)
| OpRecordResult (now id seq : Z) (r : SessionResult)
| OpEvictExpired (now : Z)
| OpClear.

Definition run_session_op (m : ClientSessionManager) (op : SessionOp) : ClientSessionManager :=
  match op with
  | OpIsDuplicate now id seq => (IsDuplicate now id seq m).2
  | OpRecordResult now id seq r => RecordResult now id seq r m
  | OpEvictExpired now => (EvictExpired now m).2
  | OpClear => Clear m
  end.

Lemma run_session_op_wf op m : sessions_wf m -> sessions_wf (run_session_op m op).
Proof.
  intros W. destruct op; simpl.
  - by apply IsDuplicate_wf.
  - by apply RecordResult_wf.
  - by apply EvictExpired_wf.
  - split; unfold Clear; proj_simp; [constructor| |simpl; lia].
    intros id. rewrite lookup_empty. split; [by intros ?%elem_of_nil|by intros []].
Qed.

Lemma ClientSessionManager_new_wf cap ttl : sessions_wf (ClientSessionManager_new cap ttl).
Proof.
  split; simpl; [constructor| |lia].
  intros id. rewrite lookup_empty. split; [by intros ?%elem_of_nil|by intros []].
Qed.

(** ** Properties *)

(** After any sequence of calls on a new manager the recency list holds
    every live session exactly once and nothing else, and with a positive
    capacity the number of sessions never exceeds it. *)
Theorem sessions_reachable_wf (cap ttl : Z) (ops : list SessionOp) :
  let m := foldl run_session_op (ClientSessionManager_new cap ttl) ops in
  sessions_wf m /\
  (0 < cap -> Z.of_nat (size (sessions_ m)) <= cap).
Proof.
  cbv zeta.
  assert (G : forall m, sessions_wf m -> max_sessions_ m = cap ->
    sessions_wf (foldl run_session_op m ops) /\
    max_sessions_ (foldl run_session_op m ops) = cap).
  { induction ops as [|op ops IH]; intros m W Hm; simpl; [done|].
    apply IH; [by apply run_session_op_wf|]. rewrite <- Hm. destruct op; simpl.
    - unfold IsDuplicate. destruct (sessions_ m !! id); [|done]. by repeat case_decide.
    - unfold RecordResult, EvictLRU. destruct (sessions_ m !! id); [done|].
      cbv zeta. destruct (_ && _); [|done]. by destruct (list.last _).
    - unfold EvictExpired. case_decide; [done|]. by destruct (evict_loop _ _ _ _ _) as [[??]?].
    - done. }
  destruct (G _ (ClientSessionManager_new_wf cap ttl) eq_refl) as [W Hm].
  split; [done|]. intros Hc. rewrite sessions_wf_size by done. rewrite <- Hm at 2.
  apply W. by rewrite Hm.
Qed.

(** Deduplication: once a result is recorded for a session, every request
    of that session with the same or an older sequence number is answered with
    it and a newer one is let through. *)
Theorem recorded_result_is_served (m : ClientSessionManager) (t t' id seq seq' : Z)
    (r : SessionResult) :
  (IsDuplicate t' id seq' (RecordResult t id seq r m)).1 =
    if decide (seq' <= seq) then Some r else None.
Proof.
  unfold IsDuplicate. rewrite RecordResult_lookup. simpl.
  repeat case_decide; simpl; (done || lia).
Qed.
