(* ===== verification/RaftGroup.v ===== *)
(** * State of one Raft group and the effects of its node

    [src/raft_group.h] (state), the fields of [RaftNodeImpl]
    ([src/raft_node_impl.h]) that handlers change, and the interfaces the node
    calls: timer service, network transport, persister, log persister, state
    machine, JSON library.  A handler is a [Node]-state computation; what it
    asks of an interface is recorded in [trace_], in order, and what an
    interface answers is a field of the environment [Env].

    Not represented: the metrics registry and the log messages (write-only),
    correlation ids (a response is paired with its request by the callback
    that [SendRpc] records), and the mutexes (every handler runs under the
    locks its source takes, so runs of handlers do not interleave except where
    the source releases the locks between two phases; such handlers are
    several definitions). *)

From S2P Require Import Prelude Types RaftLog Quorum Sessions.

(** ** Records of [raft_group.h] *)

(** A user callback is named by a number; an empty [std::function] is [None]. *)
Abbreviation Callback := (option Z).

Record PendingProposal := mkPendingProposal {
  pp_index : Index;
  pp_callback : Callback;
  pp_propose_time : Z
}.

Record ClientSession := mkClientSession {
  cs_last_seq : Z;
  cs_last_response : string;
  cs_last_index : Index;
  cs_last_term : Term;
  cs_last_active : Z
}.

(** A snapshot handle: its metadata and [Read(offset, length)]. *)
Record Snapshot := mkSnapshot {
  sn_last_included_index : Z;
  sn_last_included_term : Z;
  sn_read : Z -> Z -> string
}.

Record SnapshotSendState := mkSnapshotSendState {
  ss_snapshot : option Snapshot;
  ss_offset : Z;
  ss_last_included_index : Index;
  ss_last_included_term : Term;
  ss_in_progress : bool;
  ss_last_chunk_size : Z
}.
#[global] Instance SnapshotSendState_eta : Eta SnapshotSendState := fun r =>
  mkSnapshotSendState (ss_snapshot r) (ss_offset r) (ss_last_included_index r)
    (ss_last_included_term r) (ss_in_progress r) (ss_last_chunk_size r).

(** The default-constructed value that [map[key]] inserts. *)
Definition SnapshotSendState_default : SnapshotSendState :=
  mkSnapshotSendState None 0 0 0 false 0.

Record PendingReadIndex := mkPendingReadIndex {
  pr_read_index : Index;
  pr_callback : Callback;
  pr_start_time : Z;
  pr_acks : gset Z;
  pr_heartbeats_sent : bool
}.
#[global] Instance PendingReadIndex_eta : Eta PendingReadIndex := fun r =>
  mkPendingReadIndex (pr_read_index r) (pr_callback r) (pr_start_time r) (pr_acks r)
    (pr_heartbeats_sent r).

Record InflightEntry := mkInflightEntry {
  if_start_index : Index;
  if_count : Z
}.

Record ApplyTask := mkApplyTask {
  at_index : Index;
  at_data : string;
  at_callback : Callback;
  at_is_config_change : bool;
  at_propose_time : option Z;
  at_session_id : Z;
  at_seq_num : Z
}.

(** ** Group state *)

Record RaftGroup := mkRaftGroup {
  config_ : RaftNodeConfig;
  runtime_config_ : RuntimeConfigValues;
  server_id_ : NodeId;
  group_id_ : Z;
  peer_addrs_ : list NodeAddr;
  peer_map_ : gmap Z NodeAddr;
  current_term_ : Term;
  voted_for_ : NodeId;
  log_ : RaftLog;
  commit_index_ : Index;
  last_applied_ : Index;
  flushed_index_ : Index;
  leader_id_ : NodeId;
  leader_addr_ : NodeAddr;
  role_ : RaftNodeRole;
  vote_count_ : Z;
  votes_received_ : gset Z;
  pre_votes_received_ : gset Z;
  next_index_ : gmap Z Index;
  match_index_ : gmap Z Index;
  client_sessions_ : gmap Z ClientSession;
  session_manager_ : ClientSessionManager;
  proposal_sessions_ : gmap Z (Z * Z);
  retry_state_ : gmap Z Z;
  inflight_ : gmap Z (list InflightEntry);
  last_heartbeat_sent_ : gmap Z Z;
  leader_lease_expiry_ : Z;
  pre_vote_count_ : Z;
  pre_vote_running_ : bool;
  pre_vote_term_ : Term;
  check_quorum_enabled_ : bool;
  pre_vote_enabled_ : bool;
  has_leader_contact_ : bool;
  last_leader_contact_ : Z;
  quorum_acks_ : gmap Z Z;
  quiesced_ : bool;
  last_activity_time_ : Z;
  consecutive_quiesced_timeouts_ : Z;
  last_contact_time_ : gmap Z Z;
  pending_config_change_ : bool;
  cluster_config_ : ClusterConfig;
  election_timer_enabled_ : bool;
  election_deadline_ : Z;
  heartbeat_timer_enabled_ : bool;
  heartbeat_deadline_ : Z;
  snapshot_check_timer_enabled_ : bool;
  snapshot_check_deadline_ : Z;
  last_snapshot_index_ : Index;
  last_snapshot_term_ : Term;
  snapshot_sends_ : gmap Z SnapshotSendState;
  snapshot_temp_path_ : string;
  snapshot_recv_index_ : Index;
  snapshot_recv_term_ : Term;
  snapshot_recv_expected_offset_ : Z;
  snapshot_restore_in_progress_ : bool;
  pending_proposals_ : gmap Z PendingProposal;
  apply_queue_ : list ApplyTask;
  apply_running_ : bool;
  last_enqueued_ : Index;
  pending_reads_ : gmap Z PendingReadIndex;
  next_read_id_ : Z;
  role_change_callback_ : bool;
  leader_change_callback_ : bool
}.
#[global] Instance RaftGroup_eta : Eta RaftGroup := fun r =>
  mkRaftGroup (config_ r) (runtime_config_ r) (server_id_ r) (group_id_ r) (peer_addrs_ r) (peer_map_ r)
    (current_term_ r) (voted_for_ r) (log_ r) (commit_index_ r) (last_applied_ r)
    (flushed_index_ r) (leader_id_ r) (leader_addr_ r) (role_ r) (vote_count_ r)
    (votes_received_ r) (pre_votes_received_ r) (next_index_ r) (match_index_ r)
    (client_sessions_ r) (session_manager_ r) (proposal_sessions_ r) (retry_state_ r) (inflight_ r)
    (last_heartbeat_sent_ r) (leader_lease_expiry_ r) (pre_vote_count_ r)
    (pre_vote_running_ r) (pre_vote_term_ r) (check_quorum_enabled_ r) (pre_vote_enabled_ r)
    (has_leader_contact_ r) (last_leader_contact_ r) (quorum_acks_ r) (quiesced_ r)
    (last_activity_time_ r) (consecutive_quiesced_timeouts_ r) (last_contact_time_ r)
    (pending_config_change_ r) (cluster_config_ r) (election_timer_enabled_ r)
    (election_deadline_ r) (heartbeat_timer_enabled_ r) (heartbeat_deadline_ r)
    (snapshot_check_timer_enabled_ r) (snapshot_check_deadline_ r) (last_snapshot_index_ r)
    (last_snapshot_term_ r) (snapshot_sends_ r) (snapshot_temp_path_ r)
    (snapshot_recv_index_ r) (snapshot_recv_term_ r) (snapshot_recv_expected_offset_ r)
    (snapshot_restore_in_progress_ r) (pending_proposals_ r) (apply_queue_ r)
    (apply_running_ r) (last_enqueued_ r) (pending_reads_ r) (next_read_id_ r)
    (role_change_callback_ r) (leader_change_callback_ r).

(** ** Effects *)

Inductive Rpc :=
| RequestVoteRpc (req : RequestVoteRequest)
| PreVoteRpc (req : PreVoteRequest)
| AppendEntriesRpc (req : AppendEntriesRequest)
| InstallSnapshotRpc (req : InstallSnapshotRequest).

(** What the completion lambda of an RPC captures. *)
Inductive RpcCallback :=
| CbRequestVote (original_term : Term)
| CbPreVote (original_pre_vote_term : Term)
| CbAppendEntries (is_heartbeat : bool)
| CbReadIndex (read_id : Z)
| CbInstallSnapshot.

(** The lambdas given to [TimerService::SetTimeout]. *)
Inductive TimerAction :=
| TaPreVoteTimeout
| TaRetryAppendEntries (peer_id : NodeId)
| TaRemoveNode (id : NodeId)
| TaPromoteLearner (id : NodeId)
| TaPrepareSnapshot (peer_id : NodeId)
| TaRetrySnapshotChunk (peer_id : NodeId)
| TaStop
| TaCallback (cb : Z) (result : ApplyResult).

Inductive Effect :=
| SendRpc (peer_id : NodeId) (addr : NodeAddr) (rpc : Rpc) (cb : RpcCallback)
| SetTimeout (delay_ms : Z) (action : TimerAction)
| SaveState (state : PersistentState) (ok : bool)
| LogAppend (entry : RaftLogEntry) (notify : option Index)
| LogAppendSync (entry : RaftLogEntry) (status : Status)
| LogTruncateSuffix (from_index : Index)
| LogTruncatePrefixAsync (before_index : Index)
| PublishRoleChanged (old_role new_role : RaftNodeRole) (term : Term)
| PublishLeaderChanged (leader_id : NodeId) (leader_addr : NodeAddr) (term : Term)
| PublishLifecycle (node_id : NodeId) (started : bool)
| CallRoleChange (role : RaftNodeRole) (term : Term)
| CallLeaderChange (leader_id : NodeId) (leader_addr : NodeAddr)
| CallProposal (cb : Z) (result : ApplyResult)
| CallRead (cb : Z)
| SmApply (data : string) (index : Index)
| SmRestore (content : string)
| SaveSnapshot (content : string) (index : Index) (term : Term).

(** ** Environment *)

(** Opening a temporary file for truncation or append, and removing it. *)
Inductive FileOp := OpenTrunc | OpenAppend | RemoveFile.

(** What the interfaces answer during one run of a handler.  [env_draw lo hi]
    is the value the election timer's uniform distribution returns;
    [env_sm_apply] is the user state machine's answer to one command, [inl]
    being an exception; [env_save_left] says whether a save that failed is found
    by the next start all the same; [env_write_fails path data] is [Some n] when writing
    [data] stops after [n] bytes. *)
Class Env := mkEnv {
  env_now : Z;
  env_steady_now : Z;
  env_draw : Z -> Z -> Z;
  env_persister : bool;
  env_save_ok : PersistentState -> bool;
  env_save_left : PersistentState -> bool;
  env_log_persister : bool;
  env_append_sync : RaftLogEntry -> Status;
  env_serialize_ok : Rpc -> bool;
  env_create_snapshot : option Snapshot;
  env_save_snapshot : Index -> Term -> Status;
  env_file_ok : FileOp -> string -> bool;
  env_write_fails : string -> string -> option nat;
  env_restore_ok : string -> bool;
  env_sm_apply : string -> Index -> string + ApplyResult;
  env_json_dump : list NodeId -> string;
  env_json_parse : string -> option (list NodeId)
}.

(** ** Node state *)

Inductive NodeState := kInitialized | kRunning | kStopping | kStopped.

#[global] Instance NodeState_eq_dec : EqDecision NodeState.
Proof. solve_decision. Defined.

(** [disk_] is the state that a start would find saved; [files_] the snapshot
    temporary files. *)
Record Node := mkNode {
  group_ : RaftGroup;
  state_ : NodeState;
  snapshot_in_progress_ : bool;
  disk_ : option PersistentState;
  files_ : gmap string string;
  trace_ : list Effect
}.
#[global] Instance Node_eta : Eta Node := fun r =>
  mkNode (group_ r) (state_ r) (snapshot_in_progress_ r) (disk_ r) (files_ r) (trace_ r).

Abbreviation M := (Prog Node).

Definition getg {A} (f : RaftGroup -> A) : M A := gets (fun n => f (group_ n)).
Definition putg (f : RaftGroup -> RaftGroup) : M unit :=
  modify (fun n => n <| group_ ::= f |>).
Definition emit (e : Effect) : M unit :=
  modify (fun n => n <| trace_ ::= fun t => t ++ [e] |>).

Definition IsRunning : M bool := gets (fun n => bool_decide (state_ n = kRunning)).

Notation "f <~ v" := (putg (fun g => g <| f := v |>)) (at level 55).

(** ** State of a freshly built group *)

Definition group_init (id : NodeId) (conf : RaftNodeConfig) (rc : RuntimeConfigValues)
    (peers : list (NodeId * NodeAddr)) (check_quorum pre_vote : bool) : RaftGroup :=
  mkRaftGroup conf rc id 0 (peers.*2) (list_to_map peers) 0 (-1) RaftLog_init 0 0 0 (-1) ""
    FOLLOWER 0 ∅ ∅ ∅ ∅ ∅ (ClientSessionManager_new 10000 300000) ∅ ∅ ∅ ∅ 0 0 false 0 check_quorum pre_vote false 0 ∅ false 0 0 ∅
    false (mkClusterConfig (id :: peers.*1) [] [] 1 false) false 0 false 0 false 0 0 0 ∅ ""
    0 0 0 false ∅ [] false 0 ∅ 1 false false.

Definition node_init (g : RaftGroup) : Node := mkNode g kRunning false None ∅ [].

(** ** Running the primitives *)

Lemma run_getg {A} (f : RaftGroup -> A) w : getg f w = Done (f (group_ w)) w.
Proof. reflexivity. Qed.
Lemma run_putg f w : putg f w = Done tt (w <| group_ ::= f |>).
Proof. reflexivity. Qed.
Lemma run_emit e w : emit e w = Done tt (w <| trace_ ::= fun t => t ++ [e] |>).
Proof. reflexivity. Qed.
#[export] Hint Rewrite @run_getg run_putg run_emit : run.

(** ** A concrete environment *)

(** Text of a node list and its parser, for witnesses. *)
Definition sample_dump (l : list NodeId) : string :=
  "[" +:+ String.concat "," (pretty <$> l) +:+ "]".

Fixpoint sample_digits (s : string) (acc : Z) (seen : bool) : option (list NodeId) :=
  match s with
  | EmptyString => None
  | String a s' =>
      let n := Z.of_nat (Ascii.nat_of_ascii a) in
      if decide (48 <= n <= 57) then sample_digits s' (acc * 10 + (n - 48)) true
      else if decide (n = 44) then (fun l => acc :: l) <$> sample_digits s' 0 false
      else if decide (n = 93) then Some (if seen then [acc] else [])
      else None
  end.

Definition sample_parse (s : string) : option (list NodeId) :=
  match s with
  | String a s' =>
      if decide (Ascii.nat_of_ascii a = 91%nat) then sample_digits s' 0 false else None
  | EmptyString => None
  end.

(** A snapshot handle over a string. *)
Definition string_snapshot (index : Z) (term : Z) (content : string) : Snapshot :=
  mkSnapshot index term (fun off len => String.substring (Z.to_nat off) (Z.to_nat len) content).

Definition sample_env (persister log_persister : bool) (now : Z) : Env :=
  mkEnv now now (fun lo hi => lo) persister (fun _ => true) (fun _ => false) log_persister (fun _ => StOK)
    (fun _ => true) (Some (string_snapshot 2 1 "state")) (fun _ _ => StOK) (fun _ _ => true)
    (fun _ _ => None) (fun _ => true) (fun _ i => inr (mkApplyResult true "ok" i ""))
    sample_dump sample_parse.

(** Node [id] of a cluster with the given peers. *)
Definition sample_group (id : NodeId) (peers : list NodeId) (pre_vote check_quorum : bool) : RaftGroup :=
  group_init id default_node_config default_values ((fun p => (p, "host:" +:+ pretty p)) <$> peers)
    check_quorum pre_vote.
