(* ===== verification/Timers.v ===== *)
(** * Timers and quiesced mode

    The tick-driven deadlines ([src/election_manager.cpp],
    [src/log_replicator.cpp], [src/snapshot_manager.cpp]) and
    [src/quiesced_mode.cpp]. *)

From S2P Require Import Prelude Types RaftLog Quorum RaftGroup.

Section timers.
Context `{!Env}.

(** [Random timeout]: the distribution is closed at both ends. *)
Definition CancelElectionTimerLocked : M unit := election_timer_enabled_ <~ false.

Definition ResetElectionTimerLocked : M unit :=
  CancelElectionTimerLocked ;;
  cfg ← getg runtime_config_;
  q ← getg quiesced_;
  conf ← getg config_;
  let base_timeout :=
    if (q : bool) then quiesced_election_timeout_ms conf else election_timeout_ms cfg in
  let timeout := u32 (env_draw base_timeout (u32 (2 * base_timeout))) in
  election_deadline_ <~ env_now + ms timeout ;;
  election_timer_enabled_ <~ true.

Definition StartHeartbeatTimerLocked (interval_ms : Z) : M unit :=
  cfg ← getg runtime_config_;
  let interval := if decide (interval_ms = 0) then heartbeat_interval_ms cfg else interval_ms in
  heartbeat_deadline_ <~ env_now + ms interval ;;
  heartbeat_timer_enabled_ <~ true.

Definition StopHeartbeatTimerLocked : M unit := heartbeat_timer_enabled_ <~ false.

Definition StartSnapshotCheckTimerLocked : M unit :=
  enabled ← getg snapshot_check_timer_enabled_;
  if (enabled : bool) then mret tt
  else
    cfg ← getg runtime_config_;
    snapshot_check_deadline_ <~ env_now + ms (snapshot_check_interval_ms cfg) ;;
    snapshot_check_timer_enabled_ <~ true.

Definition StopSnapshotCheckTimerLocked : M unit := snapshot_check_timer_enabled_ <~ false.

(** ** Quiesced mode *)

Definition ShouldEnterQuiescedLocked : M bool :=
  conf ← getg config_;
  q ← getg quiesced_;
  last ← getg last_activity_time_;
  mret (if negb (quiesced_mode_enabled conf) then false
        else if (q : bool) then false
        else
          let elapsed := elapsed_ms env_steady_now last in
          bool_decide (0 <= elapsed) &&
          bool_decide (quiesced_idle_threshold_ms conf <= u32 elapsed)).

Definition EnterQuiescedLocked : M unit :=
  q ← getg quiesced_;
  quiesced_ <~ true ;;
  if (q : bool) then mret tt
  else
    consecutive_quiesced_timeouts_ <~ 0 ;;
    role ← getg role_;
    conf ← getg config_;
    when (bool_decide (role = LEADER))
      (StopHeartbeatTimerLocked ;;
       StartHeartbeatTimerLocked (quiesced_heartbeat_interval_ms conf)).

Definition ExitQuiescedLocked : M unit :=
  q ← getg quiesced_;
  quiesced_ <~ false ;;
  if negb q then mret tt
  else
    consecutive_quiesced_timeouts_ <~ 0 ;;
    role ← getg role_;
    when (bool_decide (role = LEADER))
      (StopHeartbeatTimerLocked ;; StartHeartbeatTimerLocked 0).

Definition RecordActivityLocked : M unit :=
  last_activity_time_ <~ env_steady_now ;;
  q ← getg quiesced_;
  when q ExitQuiescedLocked.

End timers.
