(* ===== verification/Replicate.v ===== *)
(** * Sending entries and snapshots to a peer

    [SendAppendEntriesToPeerLocked] and [BroadcastAppendEntriesLocked]
    ([src/log_replicator.cpp]), the leader's snapshot stream
    ([src/snapshot_manager.cpp]) and [GetLogTermLocked]
    ([src/raft_node_core.cpp]). *)

From S2P Require Import Prelude Types RaftLog Quorum RaftGroup Timers.

(** [map[key]] on the two index maps: a missing key is inserted with 0. *)
Definition next_index_at (peer : NodeId) : M Index :=
  m ← getg next_index_;
  match m !! peer with
  | Some v => mret v
  | None => next_index_ <~ <[peer := 0]> m ;; mret 0
  end.

Definition match_index_at (peer : NodeId) : M Index :=
  m ← getg match_index_;
  match m !! peer with
  | Some v => mret v
  | None => match_index_ <~ <[peer := 0]> m ;; mret 0
  end.

Definition set_next_index (peer : NodeId) (i : Index) : M unit :=
  putg (fun g => g <| next_index_ ::= <[peer := i]> |>).
Definition set_match_index (peer : NodeId) (i : Index) : M unit :=
  putg (fun g => g <| match_index_ ::= <[peer := i]> |>).

(** The term of an index, the snapshot boundary included. *)
Definition log_term (g : RaftGroup) (index : Z) : Term :=
  if decide (index = 0) then 0
  else if decide (index = last_snapshot_index_ g) then last_snapshot_term_ g
  else GetLogTerm (log_ g) index.

Definition GetLogTermLocked (index : Z) : M Term := getg (fun g => log_term g index).

Definition kSnapshotChunkSize : Z := 64 * 1024.

Section replicate.
Context `{!Env}.

(** ** Snapshot stream, leader side *)

Definition set_send (peer : NodeId) (s : SnapshotSendState) : M unit :=
  putg (fun g => g <| snapshot_sends_ ::= <[peer := s]> |>).

Definition SendNextSnapshotChunkLocked (peer_id : NodeId) : M unit :=
  sends ← getg snapshot_sends_;
  match sends !! peer_id with
  | None => mret tt
  | Some state =>
      match ss_snapshot state, ss_in_progress state with
      | Some snap, true =>
          let buffer := sn_read snap (ss_offset state) kSnapshotChunkSize in
          let bytes_read := Z.of_nat (String.length buffer) in
          let state := state <| ss_last_chunk_size := bytes_read |> in
          set_send peer_id state ;;
          let is_last := bool_decide (bytes_read < kSnapshotChunkSize) in
          term ← getg current_term_;
          id ← getg server_id_;
          let req := mkInstallSnapshotRequest term id (ss_last_included_index state)
                       (ss_last_included_term state) (u32 (ss_offset state)) buffer is_last in
          if negb (env_serialize_ok (InstallSnapshotRpc req)) then
            set_send peer_id (state <| ss_in_progress := false |>)
          else
            peers ← getg peer_map_;
            match peers !! peer_id with
            | None => set_send peer_id (state <| ss_in_progress := false |>)
            | Some addr =>
                emit (SendRpc peer_id addr (InstallSnapshotRpc req) CbInstallSnapshot)
            end
      | _, _ => mret tt
      end
  end.

Definition SendInstallSnapshotToPeerLocked (peer_id : NodeId) : M unit :=
  sends ← getg snapshot_sends_;
  let state := default SnapshotSendState_default (sends !! peer_id) in
  set_send peer_id state ;;
  if ss_in_progress state then mret tt
  else
    match ss_snapshot state with
    | Some _ =>
        set_send peer_id (state <| ss_in_progress := true |>) ;;
        SendNextSnapshotChunkLocked peer_id
    | None =>
        busy ← gets snapshot_in_progress_;
        if (busy : bool) then mret tt
        else
          modify (fun n => n <| snapshot_in_progress_ := true |>) ;;
          set_send peer_id (state <| ss_in_progress := true |>) ;;
          emit (SetTimeout 0 (TaPrepareSnapshot peer_id))
    end.

(** ** AppendEntries *)

(** Entries counted by the pipeline window of one peer. *)
Definition inflight_count (l : list InflightEntry) : Z :=
  foldr (fun e n => u64 (if_count e + n)) 0 l.

Definition SendAppendEntriesToPeerLocked (peer_id : NodeId) : M unit :=
  nexts ← getg next_index_;
  match nexts !! peer_id with
  | None => mret tt
  | Some next_idx =>
      first_log_index ← getg (fun g => GetFirstIndex (log_ g));
      if decide (next_idx < first_log_index) then SendInstallSnapshotToPeerLocked peer_id
      else
        term ← getg current_term_;
        id ← getg server_id_;
        let prev := u32 (next_idx - 1) in
        prev_term ← GetLogTermLocked prev;
        commit ← getg commit_index_;
        log ← getg log_;
        cfg ← getg runtime_config_;
        let effective_last := (GetLastLogInfo log).1 in
        let entries :=
          if decide (next_idx <= effective_last) then
            GetEntries log next_idx
              (Z.min (u32 (next_idx + max_entries_per_append cfg)) (u32 (effective_last + 1)))
          else [] in
        let req := mkAppendEntriesRequest term id prev prev_term entries commit in
        let is_heartbeat := bool_decide (entries = []) in
        inflight ← getg inflight_;
        if negb is_heartbeat &&
           bool_decide (max_pipeline_window cfg
                        <= inflight_count (default [] (inflight !! peer_id)))
        then mret tt
        else if negb (env_serialize_ok (AppendEntriesRpc req)) then mret tt
        else
          peers ← getg peer_map_;
          match peers !! peer_id with
          | None => mret tt
          | Some addr =>
              (if is_heartbeat then
                 putg (fun g => g <| last_heartbeat_sent_ ::= <[peer_id := env_now]> |>)
               else
                 let count := Z.of_nat (length entries) in
                 putg (fun g => g <| inflight_ ::=
                   <[peer_id := default [] (inflight !! peer_id) ++
                                [mkInflightEntry next_idx count]]> |>) ;;
                 set_next_index peer_id (u32 (next_idx + count))) ;;
              emit (SendRpc peer_id addr (AppendEntriesRpc req) (CbAppendEntries is_heartbeat))
          end
  end.

(** [while (true)] of one peer: stops when a send did not advance
    [next_index_].  The result tells whether that happened within the fuel. *)
Fixpoint broadcast_loop (fuel : nat) (peer_id : NodeId) : M bool :=
  match fuel with
  | O => mret false
  | S fuel' =>
      before ← next_index_at peer_id;
      SendAppendEntriesToPeerLocked peer_id ;;
      after ← next_index_at peer_id;
      if decide (after = before) then mret true else broadcast_loop fuel' peer_id
  end.

(** Every round but the last sends at least one entry of the log to the peer. *)
Definition broadcast_fuel (g : RaftGroup) : nat := S (length (entries_ (log_ g))).

Definition BroadcastAppendEntriesLocked : M unit :=
  peers ← getg peer_map_;
  forM ((map_to_list peers).*1) (fun peer_id =>
    fuel ← getg broadcast_fuel;
    broadcast_loop fuel peer_id ;; mret tt).

(** Retry of a failed batch with exponential backoff.  [1u << attempts] has a
    defined value for [attempts < 32] only. *)
Definition ScheduleAppendEntriesRetryLocked (peer_id : NodeId) : M unit :=
  running ← IsRunning;
  role ← getg role_;
  if negb running || negb (bool_decide (role = LEADER)) then mret tt
  else
    retries ← getg retry_state_;
    let attempts := default 0 (retries !! peer_id) + 1 in
    retry_state_ <~ <[peer_id := attempts]> retries ;;
    cfg ← getg runtime_config_;
    if decide (i32 (max_retry_attempts cfg) < attempts) then
      retry_state_ <~ delete peer_id retries
    else
      let delay := u32 (base_retry_delay_ms cfg * u32 (Z.shiftl 1 attempts)) in
      let delay := Z.min delay (max_retry_delay_ms cfg) in
      emit (SetTimeout delay (TaRetryAppendEntries peer_id)).

Definition ScheduleAppendEntriesRetry (peer_id : NodeId) (is_heartbeat : bool) : M unit :=
  inflight ← getg inflight_;
  match (if is_heartbeat then None else inflight !! peer_id) with
  | Some (head :: _) =>
      set_next_index peer_id (if_start_index head) ;;
      putg (fun g => g <| inflight_ ::= <[peer_id := []]> |>)
  | _ => mret tt
  end ;;
  ScheduleAppendEntriesRetryLocked peer_id.

End replicate.
