(* ===== verification/Membership.v ===== *)
(** * Applying membership changes: [src/membership_manager.cpp]

    Configuration changes travel through the log as text commands.  The file
    translates the command parser and the effect of every command, with the
    exceptions of [std::stoll] and of the JSON library caught where the source
    catches them.  [env_json_dump] and [env_json_parse] stand for the JSON
    library's dump and parse of a node list. *)

From Stdlib Require Import Ascii.
From S2P Require Import Prelude Types RaftLog Quorum RaftGroup Timers Replicate.

(** ** Text helpers *)

Definition is_space (a : Ascii.ascii) : bool :=
  let n := Ascii.nat_of_ascii a in
  bool_decide (n = 32%nat) || (bool_decide (9 <= n)%nat && bool_decide (n <= 13)%nat).

Definition digit_of (a : Ascii.ascii) : option Z :=
  let n := Ascii.nat_of_ascii a in
  if decide (48 <= n <= 57)%nat then Some (Z.of_nat n - 48) else None.

Fixpoint skip_space (s : string) : string :=
  match s with
  | String a s' => if is_space a then skip_space s' else s
  | EmptyString => s
  end.

(** The digits at the front of [s]: their value and whether there was one. *)
Fixpoint read_digits (acc : Z) (seen : bool) (s : string) : option Z :=
  match s with
  | String a s' =>
      match digit_of a with
      | Some d => read_digits (acc * 10 + d) true s'
      | None => if seen then Some acc else None
      end
  | EmptyString => if seen then Some acc else None
  end.

(** [std::stoll]: leading space, a sign, digits; [None] is one of its two
    exceptions (no digits, or outside [long long]). *)
Definition stoll (s : string) : option Z :=
  let s := skip_space s in
  let r := match s with
           | String "-"%char s' => Z.opp <$> read_digits 0 false s'
           | String "+"%char s' => read_digits 0 false s'
           | _ => read_digits 0 false s
           end in
  match r with
  | Some v => if decide (-9223372036854775808 <= v <= 9223372036854775807) then Some v else None
  | None => None
  end.

Definition starts_with (cmd pre : string) : bool := String.prefix pre cmd.

(** [cmd.substr(pos)] *)
Definition substr_from (pos : nat) (cmd : string) : string :=
  String.substring pos (String.length cmd - pos) cmd.

(** [cmd.find(':', pos)] splits [cmd] after position [pos] at the first colon. *)
Definition split_colon (pos : nat) (cmd : string) : option (string * string) :=
  match String.index pos ":" cmd with
  | None => None
  | Some pos2 => Some (String.substring pos (pos2 - pos) cmd, substr_from (S pos2) cmd)
  end.

Definition PREFIX_JOINT : string := "CONFIG_CHANGE:JOINT:".
Definition PREFIX_FINALIZE : string := "CONFIG_CHANGE:FINALIZE:".
Definition PREFIX_ADD_LEARNER : string := "CONFIG_CHANGE:ADD_LEARNER:".
Definition PREFIX_PROMOTE : string := "CONFIG_CHANGE:PROMOTE:".
Definition PREFIX_ADD : string := "CONFIG_CHANGE:ADD:".
Definition PREFIX_REMOVE : string := "CONFIG_CHANGE:REMOVE:".

(** The id a host:port address stands for when none is configured. *)
Fixpoint rfind_colon (s : string) : option string :=
  match s with
  | EmptyString => None
  | String a s' =>
      match rfind_colon s' with
      | Some r => Some r
      | None => if decide (a = ":"%char) then Some s' else None
      end
  end.

(** [std::stoi] must consume the whole port. *)
Fixpoint all_digits (s : string) : bool :=
  match s with
  | EmptyString => true
  | String a s' => bool_decide (is_Some (digit_of a)) && all_digits s'
  end.

Definition strip_sign (s : string) : string :=
  match s with
  | String "-"%char s' => s'
  | String "+"%char s' => s'
  | _ => s
  end.

Definition ExtractNodeIdFromAddr (addr : NodeAddr) : NodeId :=
  match rfind_colon addr with
  | None => -1
  | Some port_str =>
      if decide (port_str = "") then -1
      else
        match stoll port_str with
        | None => -1
        | Some port =>
            if negb (bool_decide (-2147483648 <= port <= 2147483647)) then -1
            else if negb (all_digits (strip_sign (skip_space port_str))) then -1
            else if decide (port < 0) then -1
            else port
        end
  end.

Section membership.
Context `{!Env}.

Definition CurrentPersistentState (g : RaftGroup) : PersistentState :=
  let c := cluster_config_ g in
  mkPersistentState (current_term_ g) (voted_for_ g) (nodes c) (old_nodes c) (learners c)
    (version c) (is_joint c).

(** [persister_->SaveState]: a save that fails may have left the old state or
    the new one. *)
Definition SaveStateM (s : PersistentState) : M bool :=
  let ok := env_save_ok s in
  emit (SaveState s ok) ;;
  when (ok || env_save_left s) (modify (fun n => n <| disk_ := Some s |>)) ;;
  mret ok.

Definition PersistClusterConfigLocked : M unit :=
  if negb env_persister then mret tt
  else
    s ← getg CurrentPersistentState;
    SaveStateM s ;; mret tt.

Definition upd_config (f : ClusterConfig -> ClusterConfig) : M unit :=
  putg (fun g => g <| cluster_config_ ::= f |>).

Definition bump_version (c : ClusterConfig) : ClusterConfig := c <| version ::= fun v => u64 (v + 1) |>.

(** Every voter leaves the learner list. *)
Definition drop_voters_from_learners (c : ClusterConfig) : ClusterConfig :=
  c <| learners := foldl (fun ls id => vec_remove id ls) (learners c) (nodes c) |>.

(** Append a command as the leader and hand it to the log persister; shared by
    the two places that propose FINALIZE. *)
Definition append_and_persist (cmd : string) : M Index :=
  term ← getg current_term_;
  log ← getg log_;
  let '(idx, log') := Append term cmd log in
  log_ <~ log' ;;
  (if env_log_persister then
     match GetEntry log' idx with
     | Some e => emit (LogAppend e (Some idx))
     | None => mret tt
     end
   else putg (fun g => g <| flushed_index_ ::= Z.max idx |>)) ;;
  mret idx.

Definition apply_joint (cmd : string) : M unit :=
  match split_colon (String.length PREFIX_JOINT) cmd with
  | None => mret tt
  | Some (old_nodes_json, new_nodes_json) =>
      match env_json_parse old_nodes_json with
      | None => mret tt
      | Some old_ =>
          upd_config (fun c => c <| old_nodes := old_ |>) ;;
          match env_json_parse new_nodes_json with
          | None => mret tt
          | Some new_ =>
              upd_config (fun c =>
                drop_voters_from_learners
                  (bump_version (c <| nodes := new_ |> <| is_joint := true |>))) ;;
              PersistClusterConfigLocked ;;
              role ← getg role_;
              if decide (role = LEADER) then
                c ← getg cluster_config_;
                append_and_persist (PREFIX_FINALIZE +:+ env_json_dump (nodes c)) ;;
                BroadcastAppendEntriesLocked
              else mret tt
          end
      end
  end.

Definition apply_finalize (cmd : string) : M unit :=
  match env_json_parse (substr_from (String.length PREFIX_FINALIZE) cmd) with
  | None => mret tt
  | Some new_ =>
      upd_config (fun c =>
        drop_voters_from_learners
          (bump_version (c <| nodes := new_ |> <| old_nodes := [] |> <| is_joint := false |>))) ;;
      PersistClusterConfigLocked
  end.

(** Start replicating to a peer that a committed command introduced. *)
Definition learn_peer (id : NodeId) (addr : NodeAddr) : M unit :=
  me ← getg server_id_;
  peers ← getg peer_map_;
  if decide (id <> me /\ peers !! id = None) then
    peer_map_ <~ <[id := addr]> peers ;;
    putg (fun g => g <| peer_addrs_ ::= fun l => l ++ [addr] |>) ;;
    role ← getg role_;
    log ← getg log_;
    when (bool_decide (role = LEADER))
      (set_next_index id (u32 ((GetLastLogInfo log).1 + 1)) ;; set_match_index id 0)
  else mret tt.

Definition apply_add_learner (cmd : string) : M unit :=
  match split_colon (String.length PREFIX_ADD_LEARNER) cmd with
  | None => mret tt
  | Some (id_str, addr) =>
      match stoll id_str with
      | None => mret tt
      | Some v =>
          let id := i32 v in
          c ← getg cluster_config_;
          if Contains c id then mret tt
          else
            upd_config (fun c => bump_version (c <| learners ::= fun l => l ++ [id] |>)) ;;
            learn_peer id addr ;;
            PersistClusterConfigLocked
      end
  end.

Definition apply_promote (cmd : string) : M unit :=
  match stoll (substr_from (String.length PREFIX_PROMOTE) cmd) with
  | None => mret tt
  | Some v =>
      let id := i32 v in
      upd_config (fun c => c <| learners ::= vec_remove id |>) ;;
      c ← getg cluster_config_;
      if IsVoter c id then mret tt
      else
        upd_config (fun c => bump_version (c <| nodes ::= fun l => l ++ [id] |>)) ;;
        PersistClusterConfigLocked
  end.

Definition apply_add (cmd : string) : M unit :=
  match split_colon (String.length PREFIX_ADD) cmd with
  | None => mret tt
  | Some (id_str, addr) =>
      match stoll id_str with
      | None => mret tt
      | Some v =>
          let id := i32 v in
          c ← getg cluster_config_;
          if Contains c id then mret tt
          else
            upd_config (fun c =>
              (bump_version (c <| nodes ::= fun l => l ++ [id] |>)) <| learners ::= vec_remove id |>) ;;
            learn_peer id addr ;;
            PersistClusterConfigLocked
      end
  end.

Definition apply_remove (cmd : string) : M unit :=
  match stoll (substr_from (String.length PREFIX_REMOVE) cmd) with
  | None => mret tt
  | Some v =>
      let id := i32 v in
      upd_config (fun c =>
        bump_version (c <| nodes ::= vec_remove id |> <| learners ::= vec_remove id |>)) ;;
      putg (fun g => g <| peer_map_ ::= delete id |> <| next_index_ ::= delete id |>
                       <| match_index_ ::= delete id |>
                       <| peer_addrs_ ::= filter (fun a => ExtractNodeIdFromAddr a <> id) |>) ;;
      PersistClusterConfigLocked ;;
      me ← getg server_id_;
      when (bool_decide (id = me)) (emit (SetTimeout 0 TaStop))
  end.

(** The guard clears [pending_config_change_] on every way out. *)
Definition ApplyConfigChangeLocked (cmd : string) : M unit :=
  (if starts_with cmd PREFIX_JOINT then apply_joint cmd
   else if starts_with cmd PREFIX_FINALIZE then apply_finalize cmd
   else if starts_with cmd PREFIX_ADD_LEARNER then apply_add_learner cmd
   else if starts_with cmd PREFIX_PROMOTE then apply_promote cmd
   else if starts_with cmd PREFIX_ADD then apply_add cmd
   else if starts_with cmd PREFIX_REMOVE then apply_remove cmd
   else mret tt) ;;
  pending_config_change_ <~ false.

End membership.
