(* ===== verification/Text.v ===== *)
(** * Strings: pieces, prefixes and separators

    Lemmas about [std::string] as the sources use it: cutting into pieces
    ([substr]), joining, prefixes ([rfind(prefix, 0)]) and the first colon
    ([find(':', pos)]). *)

From S2P Require Import Prelude Types RaftLog Quorum RaftGroup Timers Replicate Membership.

(** ** Pieces of strings *)

Lemma str_app_cons a s1 s2 : String a s1 +:+ s2 = String a (s1 +:+ s2).
Proof. done. Qed.

Lemma str_app_nil s : s +:+ "" = s.
Proof. induction s; [done|]. rewrite str_app_cons. congruence. Qed.

Lemma length_str_app s1 s2 : String.length (s1 +:+ s2) = (String.length s1 + String.length s2)%nat.
Proof. induction s1; [done|]. rewrite str_app_cons. simpl. congruence. Qed.

Lemma substring_length s : forall m n, String.length (String.substring n m s) = Nat.min m (String.length s - n).
Proof.
  induction s as [|a s IH]; intros m n; [by destruct n, m; simpl; rewrite ?Nat.min_0_r|].
  destruct n as [|n]; [destruct m as [|m]; simpl; [done|]|exact (IH m n)].
  rewrite IH. by rewrite Nat.sub_0_r.
Qed.

Lemma substring_all s m : (String.length s <= m)%nat -> String.substring 0 m s = s.
Proof.
  revert m. induction s as [|a s IH]; intros m; [by destruct m|]. simpl. intros Hm.
  destruct m as [|m]; [lia|]. by rewrite IH by lia.
Qed.

Lemma substring_split s : forall n a b,
  String.substring n (a + b) s = String.substring n a s +:+ String.substring (n + a) b s.
Proof.
  induction s as [|c s IH]; intros n a b; [by destruct n, a, b|].
  destruct n as [|n]; simpl; [|apply IH]. destruct a as [|a]; simpl; [done|].
  by rewrite (IH 0%nat), str_app_cons.
Qed.

Lemma substring_past s n m : (String.length s <= n)%nat -> String.substring n m s = "".
Proof.
  intros Hn. assert (String.length (String.substring n m s) = 0%nat) as H0
    by (rewrite substring_length; lia).
  by destruct (String.substring n m s).
Qed.

Lemma substring_min s n m :
  String.substring n (Nat.min m (String.length s - n)) s = String.substring n m s.
Proof.
  destruct (decide (m <= String.length s - n)%nat); [by rewrite Nat.min_l by done|].
  rewrite Nat.min_r by lia.
  replace m with ((String.length s - n) + (m - (String.length s - n)))%nat by lia.
  rewrite substring_split, (substring_past _ (_ + _)) by lia.
  by rewrite str_app_nil.
Qed.

Lemma substr_from_length n s : String.length (substr_from n s) = (String.length s - n)%nat.
Proof. unfold substr_from. rewrite substring_length. lia. Qed.

Lemma cut_app n s : String.substring 0 n s +:+ substr_from n s = s.
Proof.
  unfold substr_from. change n with (0 + n)%nat at 2. rewrite <- substring_split.
  apply substring_all. lia.
Qed.

Lemma concat_empty_cons x l : String.concat "" (x :: l) = x +:+ String.concat "" l.
Proof.
  destruct l as [|y l]; [|done]. simpl. induction x; [done|]. rewrite str_app_cons. congruence.
Qed.

(** ** Prefixes *)

Lemma prefix_app p s : String.prefix p (p +:+ s) = true.
Proof.
  induction p as [|a p IH]; [by destruct s|]. rewrite str_app_cons. simpl.
  by destruct (Ascii.ascii_dec a a).
Qed.

Lemma str_app_assoc s1 s2 s3 : (s1 +:+ s2) +:+ s3 = s1 +:+ s2 +:+ s3.
Proof. induction s1; [done|]. rewrite !str_app_cons. congruence. Qed.

Lemma substring_after p s m : String.substring (String.length p) m (p +:+ s) = String.substring 0 m s.
Proof. induction p; [done|]. by rewrite str_app_cons. Qed.

Lemma substring_app s1 s2 : String.substring 0 (String.length s1) (s1 +:+ s2) = s1.
Proof.
  induction s1; [by destruct s2|]. rewrite str_app_cons. simpl. congruence.
Qed.

Lemma substr_from_app p s : substr_from (String.length p) (p +:+ s) = s.
Proof.
  unfold substr_from. rewrite substring_after, length_str_app. apply substring_all. lia.
Qed.

(** ** The first colon *)

Lemma index_after p s k :
  String.index 0 ":" s = Some k ->
  String.index (String.length p) ":" (p +:+ s) = Some (String.length p + k)%nat.
Proof.
  intros Hk. induction p as [|a p IH]; [done|]. rewrite str_app_cons. simpl. by rewrite IH.
Qed.

Lemma prefix_colon c s s' : String.prefix ":" (String c s) = String.prefix ":" (String c s').
Proof. by destruct s, s'. Qed.

Lemma index_cons c s :
  String.index 0 ":" (String c s) =
    if String.prefix ":" (String c "") then Some 0%nat else S <$> String.index 0 ":" s.
Proof. rewrite (prefix_colon c "" s). by destruct s. Qed.

Lemma index_colon a b :
  String.index 0 ":" a = None -> String.index 0 ":" (a +:+ ":" +:+ b) = Some (String.length a).
Proof.
  induction a as [|c a IH]; [by destruct b|]. rewrite str_app_cons, !index_cons.
  destruct (String.prefix _ _); [done|]. destruct (String.index 0 ":" a); [done|].
  intros _. by rewrite IH.
Qed.

(** [prefix:a:b] is split into [a] and [b]. *)
Lemma split_colon_app p a b :
  String.index 0 ":" a = None ->
  split_colon (String.length p) (p +:+ a +:+ ":" +:+ b) = Some (a, b).
Proof.
  intros Ha. unfold split_colon. rewrite (index_after _ _ _ (index_colon a b Ha)).
  f_equal. f_equal.
  - rewrite substring_after. replace (_ + _ - _)%nat with (String.length a) by lia.
    apply substring_app.
  - replace (p +:+ a +:+ ":" +:+ b) with ((p +:+ a +:+ ":") +:+ b) by (by rewrite !str_app_assoc).
    replace (S (String.length p + String.length a)) with (String.length (p +:+ a +:+ ":"))
      by (rewrite !length_str_app; simpl; lia).
    apply substr_from_app.
Qed.
