(* ===== verification/Apply.v ===== *)
(** * Committing, applying and serving reads

    [TryCommitLocked] ([src/log_replicator.cpp]) and
    [src/state_machine_applier.cpp]: entries are committed by counting
    replicas, handed to the apply queue in index order, applied in batches by
    the apply thread, and pending linearizable reads are completed when the
    applied index reaches them. *)

From S2P Require Import Prelude Types RaftLog Quorum Sessions RaftGroup Timers Replicate.
From S2P Require Import Membership.

Definition CONFIG_PREFIX : string := "CONFIG_CHANGE:".

Definition is_config_command (data : string) : bool := starts_with data CONFIG_PREFIX.

Section apply.
Context `{!Env}.

(** ** Enqueueing committed entries *)

Definition push_task (t : ApplyTask) : M unit :=
  putg (fun g => g <| apply_queue_ ::= fun q => q ++ [t] |>).

(** The proposer of a configuration change is answered from a timer. *)
Definition complete_config_proposal (i : Index) : M unit :=
  props ← getg pending_proposals_;
  match props !! i with
  | Some p =>
      pending_proposals_ <~ delete i props ;;
      match pp_callback p with
      | Some cb => emit (SetTimeout 0 (TaCallback cb (mkApplyResult true "" i "")))
      | None => mret tt
      end
  | None => mret tt
  end.

(** One round of the loop of [ApplyCommittedLocked]. *)
Definition apply_one : M unit :=
  putg (fun g => g <| last_enqueued_ ::= fun i => u32 (i + 1) |>) ;;
  i ← getg last_enqueued_;
  log ← getg log_;
  match GetEntry log i with
  | None => abort
  | Some entry =>
      if is_config_command (data_ entry) then
        ApplyConfigChangeLocked (data_ entry) ;;
        complete_config_proposal i ;;
        push_task (mkApplyTask i "" None true None 0 0)
      else
        props ← getg pending_proposals_;
        sess ← getg proposal_sessions_;
        let cb := p ← props !! i; pp_callback p in
        let time := pp_propose_time <$> props !! i in
        let '(sid, seq) := default (0, 0) (sess !! i) in
        pending_proposals_ <~ delete i props ;;
        proposal_sessions_ <~ delete i sess ;;
        push_task (mkApplyTask i (data_ entry) cb false time sid seq)
  end.

(** [while (last_enqueued_ < commit_index_)]: each round moves
    [last_enqueued_] up by one and leaves [commit_index_] alone. *)
Fixpoint apply_committed_loop (fuel : nat) : M unit :=
  match fuel with
  | O => mret tt
  | S fuel' =>
      enq ← getg last_enqueued_;
      commit ← getg commit_index_;
      if decide (enq < commit) then apply_one ;; apply_committed_loop fuel' else mret tt
  end.

Definition ApplyCommittedLocked : M unit :=
  fuel ← getg (fun g => Z.to_nat (commit_index_ g - last_enqueued_ g));
  apply_committed_loop fuel.

(** ** Commit *)

Definition in_old (c : ClusterConfig) (id : NodeId) : bool :=
  is_joint c && IsMember id (old_nodes c).

(** Replica counts of one index: the leader itself, then every peer whose
    [match_index_] has reached it. *)
Definition commit_counts (g : RaftGroup) (index : Index) : Z * Z :=
  let c := cluster_config_ g in
  let holders := server_id_ g ::
    (filter (fun p => index <= p.2) (map_to_list (match_index_ g))).*1 in
  (Z.of_nat (length (filter (fun id => in_old c id = true) holders)),
   Z.of_nat (length (filter (fun id => IsVoter c id = true) holders))).

Definition can_commit (g : RaftGroup) (index : Index) : bool :=
  let '(old_count, new_count) := commit_counts g index in
  JointMajoritySatisfied (cluster_config_ g) old_count new_count.

(** [for (index = commit_ceiling; index > commit_index_; --index)] *)
Fixpoint try_commit_loop (fuel : nat) (index : Index) : M unit :=
  match fuel with
  | O => mret tt
  | S fuel' =>
      g ← getg id;
      if decide (commit_index_ g < index) then
        if decide (log_term g index <> current_term_ g) then mret tt
        else if can_commit g index then
          commit_index_ <~ index ;;
          ApplyCommittedLocked
        else try_commit_loop fuel' (index - 1)
      else mret tt
  end.

Definition commit_ceiling (g : RaftGroup) : Index :=
  Z.min (GetLastLogInfo (log_ g)).1 (flushed_index_ g).

Definition TryCommitLocked : M unit :=
  ceiling ← getg commit_ceiling;
  commit ← getg commit_index_;
  try_commit_loop (Z.to_nat (ceiling - commit)) ceiling.

(** ** Linearizable reads *)

Definition read_ready (g : RaftGroup) (r : PendingReadIndex) : bool :=
  (if pr_heartbeats_sent r then QuorumSatisfied (cluster_config_ g) (pr_acks r) else true) &&
  bool_decide (pr_read_index r <= last_applied_ g).

(** An empty callback is called all the same: [std::bad_function_call] leaves
    the function, and the thread, by the runtime's [terminate]. *)
Definition complete_read (read_id : Z) : M unit :=
  reads ← getg pending_reads_;
  match reads !! read_id with
  | None => mret tt
  | Some r =>
      pending_reads_ <~ delete read_id reads ;;
      match pr_callback r with
      | Some cb => emit (CallRead cb)
      | None => abort
      end
  end.

Definition ProcessPendingReadsLocked : M unit :=
  g ← getg id;
  let completed := (filter (fun p => read_ready g p.2 = true) (map_to_list (pending_reads_ g))).*1 in
  forM completed complete_read.

Definition HandleReadIndexAckLocked (from read_id : Z) : M unit :=
  reads ← getg pending_reads_;
  match reads !! read_id with
  | None => mret tt
  | Some r =>
      let r := r <| pr_acks ::= union {[from]} |> in
      pending_reads_ <~ <[read_id := r]> reads ;;
      g ← getg id;
      if negb (pr_heartbeats_sent r) then
        when (bool_decide (pr_read_index r <= last_applied_ g)) ProcessPendingReadsLocked
      else if QuorumSatisfied (cluster_config_ g) (pr_acks r) &&
              bool_decide (pr_read_index r <= last_applied_ g)
      then complete_read read_id
      else mret tt
  end.

(** The completion lambda of a ReadIndex heartbeat. *)
Definition OnReadIndexResponse (from read_id : Z) (resp : AppendEntriesResponse) : M unit :=
  when (aer_success resp) (HandleReadIndexAckLocked from read_id).

(** A peer's acknowledgement counts for every read that is waiting. *)
Definition ack_pending_reads (from : NodeId) : M unit :=
  putg (fun g => g <| pending_reads_ ::= fmap (fun r => r <| pr_acks ::= union {[from]} |>) |>).

(** Peers a ReadIndex heartbeat goes to: those that got none recently, topped
    up from the others until a majority with the leader is in reach. *)
Definition recently_sent (g : RaftGroup) (peer : NodeId) : bool :=
  match last_heartbeat_sent_ g !! peer with
  | None => false
  | Some t =>
      let elapsed := elapsed_ms env_now t in
      bool_decide (0 <= elapsed) &&
      bool_decide (u32 elapsed < heartbeat_interval_ms (runtime_config_ g))
  end.

Definition read_index_targets (g : RaftGroup) : list NodeId :=
  let peers := (map_to_list (peer_map_ g)).*1 in
  let to_send := filter (fun p => recently_sent g p = false) peers in
  let to_skip := filter (fun p => recently_sent g p = true) peers in
  let c := cluster_config_ g in
  let majority := if is_joint c then Z.max (GetMajority c) (GetOldMajority c) else GetMajority c in
  if bool_decide (Z.of_nat (length to_send) + 1 < majority) then
    to_send ++ take (Z.to_nat (majority - 1 - Z.of_nat (length to_send))) to_skip
  else to_send.

Definition send_read_heartbeat (read_id : Z) (peer_id : NodeId) : M unit :=
  next ← next_index_at peer_id;
  g ← getg id;
  let prev := u32 (next - 1) in
  let req := mkAppendEntriesRequest (current_term_ g) (server_id_ g) prev (log_term g prev) []
               (commit_index_ g) in
  if negb (env_serialize_ok (AppendEntriesRpc req)) then mret tt
  else match peer_map_ g !! peer_id with
       | None => mret tt
       | Some addr => emit (SendRpc peer_id addr (AppendEntriesRpc req) (CbReadIndex read_id))
       end.

Definition BroadcastReadIndexHeartbeatsLocked (read_id : Z) : M unit :=
  targets ← getg read_index_targets;
  forM targets (send_read_heartbeat read_id) ;;
  putg (fun g => g <| pending_reads_ ::= alter (fun r => r <| pr_heartbeats_sent := true |>) read_id |>).

(** ** The apply thread *)

Definition kBatchSize : nat := 64.

Definition call_proposal (cb : Callback) (r : ApplyResult) : M unit :=
  match cb with Some c => emit (CallProposal c r) | None => mret tt end.

(** One task of a batch; the value is the new [new_last_applied]. *)
Definition apply_task (new_last_applied : Index) (t : ApplyTask) : M Index :=
  if decide (at_index t <= new_last_applied) then
    call_proposal (at_callback t) (mkApplyResult true "" (at_index t) "") ;;
    mret new_last_applied
  else if at_is_config_change t then mret (at_index t)
  else
    emit (SmApply (at_data t) (at_index t)) ;;
    let result :=
      match env_sm_apply (at_data t) (at_index t) with
      | inr r => r
      | inl what =>
          mkApplyResult false "" (at_index t) ("state machine exception: " +:+ what)
      end in
    when (bool_decide (at_session_id t <> 0))
      (putg (fun g => g <| session_manager_ ::=
         RecordResult env_steady_now (at_session_id t) (at_seq_num t)
           (mkSessionResult (ar_success result) (ar_response result)
              (u32 (ar_applied_index result)) 0 (ar_error_message result)) |>)) ;;
    call_proposal (at_callback t) result ;;
    mret (at_index t).

Fixpoint apply_tasks (new_last_applied : Index) (batch : list ApplyTask) : M Index :=
  match batch with
  | [] => mret new_last_applied
  | t :: batch' => i ← apply_task new_last_applied t; apply_tasks i batch'
  end.

(** One iteration of the [while] loop of [ApplyLoop]; the value tells whether
    the loop goes on.  On an empty queue the thread waits: no change. *)
Definition ApplyLoop : M bool :=
  running ← getg apply_running_;
  if negb running then mret false
  else
    queue ← getg apply_queue_;
    if decide (queue = []) then mret true
    else
      apply_queue_ <~ drop kBatchSize queue ;;
      start ← getg last_applied_;
      new_last_applied ← apply_tasks start (take kBatchSize queue);
      last_applied_ <~ new_last_applied ;;
      ProcessPendingReadsLocked ;;
      mret true.

End apply.
