(* ===== verification/Election.v ===== *)
(** * Elections: [src/election_manager.cpp]

    Role transitions, the election timeout with its pre-vote round, and the
    candidate's side of the two vote RPCs. *)

From S2P Require Import Prelude Types RaftLog Quorum RaftGroup Timers Replicate Membership.

Section election.
Context `{!Env}.

(** ** Role transitions *)

(** [SaveState] of the current state; a failure is fatal. *)
Definition persist_or_abort : M unit :=
  if negb env_persister then mret tt
  else
    s ← getg CurrentPersistentState;
    ok ← SaveStateM s;
    if (ok : bool) then mret tt else abort.

(** The role-changed event and callback, when the role did change. *)
Definition publish_role (old_role : RaftNodeRole) : M unit :=
  g ← getg id;
  when (bool_decide (old_role <> role_ g))
    (emit (PublishRoleChanged old_role (role_ g) (current_term_ g))).

Definition call_role (old_role : RaftNodeRole) : M unit :=
  g ← getg id;
  when (bool_decide (old_role <> role_ g) && role_change_callback_ g)
    (emit (CallRoleChange (role_ g) (current_term_ g))).

(** The vote is forgotten only when the term advances. *)
Definition enter_follower (term : Term) : M unit :=
  role_ <~ FOLLOWER ;;
  current ← getg current_term_;
  when (bool_decide (current < term)) (voted_for_ <~ -1) ;;
  current_term_ <~ term ;;
  vote_count_ <~ 0 ;;
  votes_received_ <~ ∅.

Definition BecomeFollowerLockedImpl (term : Term) (persist_state : bool) : M unit :=
  old_role ← getg role_;
  enter_follower term ;;
  pre_votes_received_ <~ ∅ ;;
  leader_id_ <~ -1 ;;
  leader_addr_ <~ "" ;;
  StopHeartbeatTimerLocked ;;
  inflight_ <~ ∅ ;;
  StopSnapshotCheckTimerLocked ;;
  snapshot_sends_ <~ ∅ ;;
  (if persist_state then ResetElectionTimerLocked else CancelElectionTimerLocked) ;;
  when persist_state persist_or_abort ;;
  publish_role old_role ;;
  call_role old_role.

(** The three entry points differ in the locks their callers hold and in
    whether the state is saved. *)
Definition BecomeFollowerLocked (term : Term) : M unit := BecomeFollowerLockedImpl term true.
Definition BecomeFollowerWithReplicationLocked (term : Term) : M unit :=
  BecomeFollowerLockedImpl term true.
Definition BecomeFollowerAfterDiskFailureLocked (term : Term) : M unit :=
  BecomeFollowerLockedImpl term false.

Definition ElectionQuorumSatisfiedLocked (voters : gset Z) : M bool :=
  getg (fun g => QuorumSatisfied (cluster_config_ g) voters).

Definition init_peer (last_index : Index) (peer_id : NodeId) : M unit :=
  set_next_index peer_id (u32 (last_index + 1)) ;;
  set_match_index peer_id 0 ;;
  putg (fun g => g <| quorum_acks_ ::= <[peer_id := env_now]> |>
                   <| last_contact_time_ ::= <[peer_id := env_now]> |>).

Definition BecomeLeaderLocked : M unit :=
  old_role ← getg role_;
  role_ <~ LEADER ;;
  putg (fun g => g <| leader_id_ := server_id_ g |>
                   <| leader_addr_ := listen_addr (config_ g) |>) ;;
  last_index ← getg (fun g => (GetLastLogInfo (log_ g)).1);
  next_index_ <~ ∅ ;;
  match_index_ <~ ∅ ;;
  retry_state_ <~ ∅ ;;
  inflight_ <~ ∅ ;;
  snapshot_sends_ <~ ∅ ;;
  client_sessions_ <~ ∅ ;;
  quorum_acks_ <~ ∅ ;;
  last_contact_time_ <~ ∅ ;;
  peers ← getg peer_map_;
  forM ((map_to_list peers).*1) (init_peer last_index) ;;
  CancelElectionTimerLocked ;;
  StartHeartbeatTimerLocked 0 ;;
  StartSnapshotCheckTimerLocked ;;
  c ← getg cluster_config_;
  (if is_joint c then
     append_and_persist (PREFIX_FINALIZE +:+ env_json_dump (nodes c)) ;; mret tt
   else mret tt) ;;
  publish_role old_role ;;
  g ← getg id;
  emit (PublishLeaderChanged (server_id_ g) (listen_addr (config_ g)) (current_term_ g)) ;;
  call_role old_role ;;
  when (leader_change_callback_ g)
    (emit (CallLeaderChange (server_id_ g) (listen_addr (config_ g)))) ;;
  BroadcastAppendEntriesLocked.

(** ** Vote requests *)

Definition SendRequestVoteToPeerLocked (peer_id : NodeId) (addr : NodeAddr) : M unit :=
  g ← getg id;
  let '(last_index, last_term) := GetLastLogInfo (log_ g) in
  let req := mkRequestVoteRequest (current_term_ g) (server_id_ g) last_index last_term in
  if negb (env_serialize_ok (RequestVoteRpc req)) then mret tt
  else emit (SendRpc peer_id addr (RequestVoteRpc req) (CbRequestVote (current_term_ g))).

Definition BroadcastRequestVoteLocked : M unit :=
  peers ← getg peer_map_;
  forM (map_to_list peers) (fun p => SendRequestVoteToPeerLocked p.1 p.2).

Definition SendPreVoteToPeerLocked (peer_id : NodeId) (addr : NodeAddr) : M unit :=
  g ← getg id;
  let '(last_index, last_term) := GetLastLogInfo (log_ g) in
  let req := mkPreVoteRequest (pre_vote_term_ g) (server_id_ g) last_index last_term in
  if negb (env_serialize_ok (PreVoteRpc req)) then mret tt
  else emit (SendRpc peer_id addr (PreVoteRpc req) (CbPreVote (pre_vote_term_ g))).

Definition BroadcastPreVoteLocked : M unit :=
  peers ← getg peer_map_;
  forM (map_to_list peers) (fun p => SendPreVoteToPeerLocked p.1 p.2).

(** A new term with a vote for oneself. *)
Definition enter_candidate : M unit :=
  role_ <~ CANDIDATE ;;
  putg (fun g => g <| current_term_ ::= fun t => u32 (t + 1) |>) ;;
  putg (fun g => g <| voted_for_ := server_id_ g |>) ;;
  vote_count_ <~ 1 ;;
  putg (fun g => g <| votes_received_ := {[server_id_ g]} |>).

Definition BecomeCandidateLocked : M unit :=
  old_role ← getg role_;
  enter_candidate ;;
  persist_or_abort ;;
  publish_role old_role ;;
  call_role old_role ;;
  votes ← getg votes_received_;
  quorum ← ElectionQuorumSatisfiedLocked votes;
  if (quorum : bool) then BecomeLeaderLocked
  else BroadcastRequestVoteLocked ;; ResetElectionTimerLocked.

(** ** Election timeout *)

Definition start_pre_vote : M unit :=
  pre_vote_running_ <~ true ;;
  pre_vote_count_ <~ 1 ;;
  putg (fun g => g <| pre_votes_received_ := {[server_id_ g]} |>
                   <| pre_vote_term_ := u32 (current_term_ g + 1) |>) ;;
  votes ← getg pre_votes_received_;
  quorum ← ElectionQuorumSatisfiedLocked votes;
  if (quorum : bool) then pre_vote_running_ <~ false ;; BecomeCandidateLocked
  else
    BroadcastPreVoteLocked ;;
    cfg ← getg runtime_config_;
    emit (SetTimeout (Z.max 10 (election_timeout_ms cfg / 2)) TaPreVoteTimeout).

Definition start_election : M unit :=
  enabled ← getg pre_vote_enabled_;
  if negb enabled then BecomeCandidateLocked else start_pre_vote.

Definition OnElectionTimeoutLocked : M unit :=
  running ← IsRunning;
  role ← getg role_;
  if negb running then mret tt
  else if decide (role = LEADER) then mret tt
  else
    q ← getg quiesced_;
    if (q : bool) then
      putg (fun g => g <| consecutive_quiesced_timeouts_ ::= fun n => u32 (n + 1) |>) ;;
      n ← getg consecutive_quiesced_timeouts_;
      conf ← getg config_;
      if decide (quiesced_max_consecutive_timeouts conf <= n) then
        ExitQuiescedLocked ;; start_election
      else ResetElectionTimerLocked
    else start_election.

(** The lambda of the pre-vote timer. *)
Definition OnPreVoteTimeout : M unit :=
  pending ← getg pre_vote_running_;
  when pending
    (pre_vote_running_ <~ false ;;
     pre_vote_count_ <~ 0 ;;
     pre_votes_received_ <~ ∅ ;;
     ResetElectionTimerLocked).

(** ** Vote responses *)

Definition HandleRequestVoteResponse (from : NodeId) (resp : RequestVoteResponse)
    (original_term : Term) : M unit :=
  running ← IsRunning;
  g ← getg id;
  if negb running then mret tt
  else if decide (role_ g <> CANDIDATE) then mret tt
  else if decide (current_term_ g < rvr_term resp) then BecomeFollowerLocked (rvr_term resp)
  else if decide (original_term <> current_term_ g) then mret tt
  else if decide (rvr_term resp < current_term_ g) then mret tt
  else if rvr_vote_granted resp then
    putg (fun g => g <| votes_received_ ::= union {[from]} |>) ;;
    putg (fun g => g <| vote_count_ := u32 (Z.of_nat (size (votes_received_ g))) |>) ;;
    votes ← getg votes_received_;
    quorum ← ElectionQuorumSatisfiedLocked votes;
    when quorum BecomeLeaderLocked
  else mret tt.

Definition HandlePreVoteResponse (from : NodeId) (resp : PreVoteResponse)
    (original_pre_vote_term : Term) : M unit :=
  running ← IsRunning;
  g ← getg id;
  if negb running then mret tt
  else if negb (pre_vote_running_ g) then mret tt
  else if decide (role_ g = CANDIDATE \/ role_ g = LEADER) then mret tt
  else if decide (original_pre_vote_term <> pre_vote_term_ g) then mret tt
  else if decide (current_term_ g < pvr_term resp) then
    pre_vote_running_ <~ false ;;
    pre_vote_count_ <~ 0 ;;
    BecomeFollowerLocked (pvr_term resp)
  else if pvr_vote_granted resp then
    putg (fun g => g <| pre_votes_received_ ::= union {[from]} |>) ;;
    putg (fun g => g <| pre_vote_count_ := u32 (Z.of_nat (size (pre_votes_received_ g))) |>) ;;
    votes ← getg pre_votes_received_;
    quorum ← ElectionQuorumSatisfiedLocked votes;
    when quorum
      (pre_vote_running_ <~ false ;;
       pre_vote_count_ <~ 0 ;;
       pre_votes_received_ <~ ∅ ;;
       BecomeCandidateLocked)
  else mret tt.

End election.
