(* ===== verification/Leader.v ===== *)
(** * The leader's side of replication: [src/log_replicator.cpp]

    Responses to AppendEntries and heartbeats, the heartbeat tick with
    CheckQuorum, learner promotion and dead-node removal. *)

From S2P Require Import Prelude Types RaftLog Quorum Sessions RaftGroup Timers Replicate.
From S2P Require Import Membership Apply Election.

Section leader.
Context `{!Env}.

(** A voter's acknowledgement no older than an election timeout. *)
Definition fresh_ack (g : RaftGroup) (ack_time : Z) : bool :=
  let elapsed := elapsed_ms env_now ack_time in
  bool_decide (0 <= elapsed) &&
  bool_decide (u32 elapsed < election_timeout_ms (runtime_config_ g)).

Definition fresh_voters (g : RaftGroup) : list NodeId :=
  (filter (fun p => fresh_ack g p.2 = true /\ IsVoter (cluster_config_ g) p.1 = true)
     (map_to_list (quorum_acks_ g))).*1.

(** Contact bookkeeping shared by the two kinds of acknowledgement. *)
Definition record_ack (from : NodeId) : M unit :=
  putg (fun g => g <| last_contact_time_ ::= <[from := env_now]> |>) ;;
  enabled ← getg check_quorum_enabled_;
  when enabled (putg (fun g => g <| quorum_acks_ ::= <[from := env_now]> |>)).

Definition update_lease : M unit :=
  g ← getg id;
  let ack_count := 1 + Z.of_nat (length (fresh_voters g)) in
  when (bool_decide (GetMajority (cluster_config_ g) <= u32 ack_count))
    (leader_lease_expiry_ <~ env_now + ms (election_timeout_ms (runtime_config_ g))).

(** [TaRetryAppendEntries] *)
Definition OnRetryAppendEntries (peer_id : NodeId) : M unit :=
  role ← getg role_;
  when (bool_decide (role = LEADER)) (SendAppendEntriesToPeerLocked peer_id).

(** ** AppendEntries responses *)

(** [max({match + 1, next - 1})]: back off by one, never below progress. *)
Definition back_off (from : NodeId) : M unit :=
  m ← match_index_at from;
  n ← next_index_at from;
  set_next_index from (Z.max (u32 (m + 1)) (u32 (n - 1))).

(** The response acknowledges the oldest batch in flight. *)
Definition on_append_success (from : NodeId) (resp : AppendEntriesResponse) (head : InflightEntry)
    : M unit :=
  let new_match := u32 (u32 (if_start_index head + aer_entries_count resp) - 1) in
  m ← match_index_at from;
  set_match_index from (Z.max m new_match) ;;
  n ← next_index_at from;
  set_next_index from (Z.max n (u32 (Z.max m new_match + 1))) ;;
  putg (fun g => g <| retry_state_ ::= delete from |>) ;;
  record_ack from ;;
  update_lease ;;
  ack_pending_reads from ;;
  TryCommitLocked ;;
  last_index ← getg (fun g => (GetLastLogInfo (log_ g)).1);
  n ← next_index_at from;
  when (bool_decide (n <= last_index)) (SendAppendEntriesToPeerLocked from).

(** A conflict hint, or one step back from the rejected batch. *)
Definition on_append_failure (from : NodeId) (resp : AppendEntriesResponse) (head : InflightEntry)
    : M unit :=
  putg (fun g => g <| inflight_ ::= <[from := []]> |>) ;;
  (if decide (0 < aer_conflict_index resp) then
     set_next_index from (aer_conflict_index resp) ;;
     m ← match_index_at from;
     when (bool_decide (aer_conflict_index resp <= m))
       (set_match_index from (u32 (aer_conflict_index resp - 1)))
   else
     let next := Z.max 1 (u32 (if_start_index head - 1)) in
     set_next_index from next ;;
     m ← match_index_at from;
     when (bool_decide (next <= m)) (set_match_index from (u32 (next - 1)))) ;;
  n ← next_index_at from;
  when (bool_decide (n < 1)) (set_next_index from 1) ;;
  putg (fun g => g <| last_contact_time_ ::= <[from := env_now]> |>) ;;
  ScheduleAppendEntriesRetryLocked from.

Definition HandleAppendEntriesResponse (from : NodeId) (resp : AppendEntriesResponse) : M unit :=
  running ← IsRunning;
  g ← getg id;
  if negb running then mret tt
  else if decide (role_ g <> LEADER) then mret tt
  else if decide (current_term_ g < aer_term resp) then BecomeFollowerLocked (aer_term resp)
  else
    match inflight_ g !! from with
    | Some (head :: rest) =>
        putg (fun g => g <| inflight_ ::= <[from := rest]> |>) ;;
        if aer_success resp then on_append_success from resp head
        else on_append_failure from resp head
    | _ =>
        if aer_success resp then mret tt
        else back_off from ;; ScheduleAppendEntriesRetryLocked from
    end.

(** ** Heartbeat responses *)

Definition on_heartbeat_failure (from : NodeId) (resp : AppendEntriesResponse) : M unit :=
  putg (fun g => g <| last_contact_time_ ::= <[from := env_now]> |>) ;;
  leader_last ← getg (fun g => (GetLastLogInfo (log_ g)).1);
  if decide (leader_last < aer_conflict_index resp /\ 0 < aer_conflict_index resp) then
    SendInstallSnapshotToPeerLocked from
  else
    (if decide (0 < aer_conflict_index resp) then
       let next := Z.min (aer_conflict_index resp) (u32 (leader_last + 1)) in
       set_next_index from next ;;
       m ← match_index_at from;
       when (bool_decide (next <= m)) (set_match_index from (u32 (next - 1)))
     else back_off from) ;;
    emit (SetTimeout 0 (TaRetryAppendEntries from)).

Definition HandleHeartbeatResponse (from : NodeId) (resp : AppendEntriesResponse) : M unit :=
  running ← IsRunning;
  g ← getg id;
  if negb running then mret tt
  else if decide (role_ g <> LEADER) then mret tt
  else if decide (current_term_ g < aer_term resp) then BecomeFollowerLocked (aer_term resp)
  else if negb (aer_success resp) then on_heartbeat_failure from resp
  else
    record_ack from ;;
    update_lease ;;
    ack_pending_reads from.

(** ** The heartbeat tick *)

Definition CheckQuorumLocked : M unit :=
  running ← IsRunning;
  g ← getg id;
  if negb running || negb (bool_decide (role_ g = LEADER)) then mret tt
  else
    let acked_voters : gset Z := {[server_id_ g]} ∪ list_to_set (fresh_voters g) in
    quorum ← ElectionQuorumSatisfiedLocked acked_voters;
    when (negb quorum) (BecomeFollowerWithReplicationLocked (current_term_ g)).

Definition MaybeAutoPromoteLearnersLocked : M unit :=
  running ← IsRunning;
  g ← getg id;
  if negb running || negb (bool_decide (role_ g = LEADER)) then mret tt
  else
    forM (learners (cluster_config_ g)) (fun learner_id =>
      match match_index_ g !! learner_id with
      | Some m =>
          when (bool_decide (commit_index_ g <= m))
            (emit (SetTimeout 0 (TaPromoteLearner learner_id)))
      | None => mret tt
      end).

(** A voter the leader has not heard from for [dead_node_timeout_ms]. *)
Definition is_dead (g : RaftGroup) (peer_id : NodeId) : bool :=
  bool_decide (peer_id <> server_id_ g) &&
  match last_contact_time_ g !! peer_id with
  | None => true
  | Some t =>
      let elapsed := elapsed_ms env_now t in
      bool_decide (0 <= elapsed) &&
      bool_decide (dead_node_timeout_ms (config_ g) <= u32 elapsed)
  end.

Definition removal_keeps_quorum (g : RaftGroup) (dead_id : NodeId) : bool :=
  let remaining := u32 (Z.of_nat (length (nodes (cluster_config_ g))) - 1) in
  let active_voters := 1 + Z.of_nat (length (filter (fun id => id <> dead_id) (fresh_voters g))) in
  bool_decide (u32 (remaining / 2 + 1) <= u32 active_voters).

Definition MaybeRemoveDeadNodesLocked : M unit :=
  running ← IsRunning;
  g ← getg id;
  if negb running || negb (bool_decide (role_ g = LEADER)) then mret tt
  else if negb (auto_remove_dead_nodes (config_ g)) then mret tt
  else
    forM (filter (fun p => is_dead g p = true) (nodes (cluster_config_ g))) (fun dead_id =>
      when (removal_keeps_quorum g dead_id) (emit (SetTimeout 1 (TaRemoveNode dead_id)))).

Definition OnHeartbeatTimeoutLocked : M unit :=
  running ← IsRunning;
  role ← getg role_;
  if negb running then mret tt
  else if decide (role <> LEADER) then mret tt
  else
    idle ← ShouldEnterQuiescedLocked;
    when idle EnterQuiescedLocked ;;
    q ← getg quiesced_;
    reads ← getg pending_reads_;
    if (q : bool) && bool_decide (reads = ∅) then mret tt
    else
      check ← getg check_quorum_enabled_;
      when check CheckQuorumLocked ;;
      role ← getg role_;
      if decide (role <> LEADER) then mret tt
      else
        BroadcastAppendEntriesLocked ;;
        MaybeAutoPromoteLearnersLocked ;;
        MaybeRemoveDeadNodesLocked.

Definition CheckHeartbeatTimeoutLocked : M unit :=
  g ← getg id;
  if negb (heartbeat_timer_enabled_ g) || bool_decide (env_now < heartbeat_deadline_ g) then mret tt
  else
    let interval := if quiesced_ g then quiesced_heartbeat_interval_ms (config_ g)
                    else heartbeat_interval_ms (runtime_config_ g) in
    putg (fun g => g <| heartbeat_deadline_ ::= fun d => d + ms interval |>) ;;
    OnHeartbeatTimeoutLocked.

End leader.
