(* ===== verification/Follower.v ===== *)
(** * Incoming RPCs: [src/rpc_handlers.cpp]

    The voter's side of elections and the follower's side of replication and
    of snapshot transfer.  [HandleAppendEntries] and [HandleInstallSnapshot]
    release their locks between phases; each phase is a definition, and the
    handler is their composition. *)

From S2P Require Import Prelude Types RaftLog Quorum Sessions RaftGroup Timers Replicate.
From S2P Require Import Membership Apply Election.

Section follower.
Context `{!Env}.

(** ** Votes *)

Definition up_to_date (g : RaftGroup) (last_log_index : Index) (last_log_term : Term) : bool :=
  let '(last_index, last_term) := GetLastLogInfo (log_ g) in
  bool_decide (last_term < last_log_term) ||
  (bool_decide (last_log_term = last_term) && bool_decide (last_index <= last_log_index)).

(** Leader stickiness: a valid leader was heard within the election timeout. *)
Definition sticky (g : RaftGroup) : bool :=
  check_quorum_enabled_ g && has_leader_contact_ g &&
  let elapsed := elapsed_ms env_now (last_leader_contact_ g) in
  bool_decide (0 <= elapsed) &&
  bool_decide (u32 elapsed < election_timeout_ms (runtime_config_ g)).

Definition grant_vote (candidate_id : NodeId) : M bool :=
  voted_for_ <~ candidate_id ;;
  ResetElectionTimerLocked ;;
  if negb env_persister then mret true
  else s ← getg CurrentPersistentState; SaveStateM s.

Definition HandleRequestVote (req : RequestVoteRequest) : M RequestVoteResponse :=
  current ← getg current_term_;
  when (bool_decide (current < rv_term req)) (BecomeFollowerLocked (rv_term req)) ;;
  g ← getg id;
  let reject := mkRequestVoteResponse (current_term_ g) false in
  if decide (rv_term req < current_term_ g) then mret reject
  else if negb (IsVoter (cluster_config_ g) (rv_candidate_id req)) then mret reject
  else if negb (up_to_date g (rv_last_log_index req) (rv_last_log_term req)) then mret reject
  else if sticky g then mret reject
  else if decide (voted_for_ g = -1 \/ voted_for_ g = rv_candidate_id req) then
    granted ← grant_vote (rv_candidate_id req);
    mret (mkRequestVoteResponse (current_term_ g) granted)
  else mret reject.

Definition HandlePreVote (req : PreVoteRequest) : M PreVoteResponse :=
  g ← getg id;
  mret (mkPreVoteResponse (current_term_ g)
    (if decide (pv_term req <= current_term_ g) then false
     else if negb (IsVoter (cluster_config_ g) (pv_candidate_id req)) then false
     else if negb (up_to_date g (pv_last_log_index req) (pv_last_log_term req)) then false
     else negb (sticky g))).

(** ** AppendEntries *)

Definition learn_leader (leader_id : NodeId) : M unit :=
  leader_id_ <~ leader_id ;;
  peers ← getg peer_map_;
  match peers !! leader_id with
  | Some addr => leader_addr_ <~ addr
  | None => mret tt
  end.

(** Phase 1, under the election lock.  [inl] is an early return. *)
Definition append_phase1 (req : AppendEntriesRequest) : M (AppendEntriesResponse + Term) :=
  RecordActivityLocked ;;
  g ← getg id;
  if negb (IsVoter (cluster_config_ g) (ae_leader_id req)) then
    mret (inl (mkAppendEntriesResponse (current_term_ g) false 0 0))
  else
    when (bool_decide (current_term_ g < ae_term req)) (BecomeFollowerLocked (ae_term req)) ;;
    current ← getg current_term_;
    if decide (ae_term req < current) then mret (inl (mkAppendEntriesResponse current false 0 0))
    else
      learn_leader (ae_leader_id req) ;;
      last_leader_contact_ <~ env_now ;;
      has_leader_contact_ <~ true ;;
      ResetElectionTimerLocked ;;
      mret (inr current).

(** The first entry whose term differs from the one in the log cuts the log. *)
Fixpoint truncate_conflicts (entries : list RaftLogEntry) : M unit :=
  match entries with
  | [] => mret tt
  | entry :: rest =>
      existing_term ← GetLogTermLocked (index_ entry);
      if decide (existing_term <> 0 /\ existing_term <> term_ entry) then
        putg (fun g => g <| log_ ::= TruncateSuffix (index_ entry) |>) ;;
        when env_log_persister (emit (LogTruncateSuffix (index_ entry)))
      else truncate_conflicts rest
  end.

Definition expected_index (l : RaftLog) : Index :=
  let last_index := (GetLastLogInfo l).1 in
  if decide (last_index = 0) then GetFirstIndex l else u32 (last_index + 1).

(** [Some i]: an entry was not contiguous, [i] is the conflict hint. *)
Fixpoint append_new (entries : list RaftLogEntry) : M (option Index) :=
  match entries with
  | [] => mret None
  | entry :: rest =>
      log ← getg log_;
      if decide (index_ entry < GetFirstIndex log) then append_new rest
      else
        existing_term ← GetLogTermLocked (index_ entry);
        if decide (existing_term <> 0 /\ existing_term = term_ entry) then append_new rest
        else if decide (index_ entry <> expected_index log) then mret (Some (expected_index log))
        else
          log_ <~ (Append (term_ entry) (data_ entry) log).2 ;;
          when env_log_persister (emit (LogAppend entry None)) ;;
          append_new rest
  end.

Definition follow_commit (leader_commit : Index) : M unit :=
  g ← getg id;
  when (bool_decide (commit_index_ g < leader_commit))
    (commit_index_ <~ Z.min leader_commit (GetLastLogInfo (log_ g)).1 ;;
     ApplyCommittedLocked).

(** Phase 2, under the replication lock. *)
Definition append_phase2 (req : AppendEntriesRequest) (term : Term) : M AppendEntriesResponse :=
  let reject conflict := mkAppendEntriesResponse term false conflict 0 in
  g ← getg id;
  let prev := ae_prev_log_index req in
  if decide (0 < prev /\ u32 (prev + 1) < GetFirstIndex (log_ g)) then
    mret (reject (GetFirstIndex (log_ g)))
  else if decide (0 < prev /\ log_term g prev <> ae_prev_log_term req) then mret (reject prev)
  else
    truncate_conflicts (ae_entries req) ;;
    gap ← append_new (ae_entries req);
    match gap with
    | Some expected => mret (reject expected)
    | None =>
        follow_commit (ae_leader_commit req) ;;
        mret (mkAppendEntriesResponse term true 0 (u32 (Z.of_nat (length (ae_entries req)))))
    end.

Definition HandleAppendEntries (req : AppendEntriesRequest) : M AppendEntriesResponse :=
  r ← append_phase1 req;
  match r with
  | inl resp => mret resp
  | inr term => append_phase2 req term
  end.

(** ** InstallSnapshot *)

Definition kChunkSize : nat := Z.to_nat (64 * 1024).

(** What the chunk providers of the restore and of the persist read: the file
    in pieces of [kChunkSize], until nothing is left. *)
Fixpoint file_chunks (fuel : nat) (content : string) : list string :=
  match fuel with
  | O => []
  | S fuel' =>
      if decide (content = "") then []
      else String.substring 0 kChunkSize content :: file_chunks fuel' (substr_from kChunkSize content)
  end.

Definition stream_file (content : string) : string :=
  String.concat "" (file_chunks (String.length content) content).

Definition file_content (path : string) : M string :=
  files ← gets files_;
  mret (default "" (files !! path)).

Definition remove_file (path : string) : M unit :=
  when (env_file_ok RemoveFile path) (modify (fun n => n <| files_ ::= delete path |>)).

Definition install_phase1 (req : InstallSnapshotRequest) : M (bool * InstallSnapshotResponse) :=
  g ← getg id;
  let reject := (false, mkInstallSnapshotResponse (current_term_ g)) in
  if negb (IsVoter (cluster_config_ g) (is_leader_id req)) then mret reject
  else if decide (is_term req < current_term_ g) then mret reject
  else
    when (bool_decide (current_term_ g < is_term req)) (BecomeFollowerLocked (is_term req)) ;;
    current ← getg current_term_;
    learn_leader (is_leader_id req) ;;
    ResetElectionTimerLocked ;;
    mret (true, mkInstallSnapshotResponse current).

Definition reset_receive : M unit :=
  putg (fun g => g <| snapshot_recv_index_ := 0 |> <| snapshot_recv_term_ := 0 |>
                   <| snapshot_recv_expected_offset_ := 0 |>).

Definition snapshot_path (g : RaftGroup) (index : Index) (term : Term) : string :=
  (if decide (data_dir (config_ g) = "") then "/tmp" else data_dir (config_ g)) +:+
  "/rollingraft_snapshot_" +:+ pretty (server_id_ g) +:+ "_g" +:+ pretty (group_id_ g) +:+
  "_" +:+ pretty index +:+ "_" +:+ pretty term.

(** Offset 0 starts a transfer; the value tells whether to go on. *)
Definition begin_transfer (req : InstallSnapshotRequest) : M bool :=
  path ← getg (fun g => snapshot_path g (is_last_included_index req) (is_last_included_term req));
  putg (fun g => g <| snapshot_recv_index_ := is_last_included_index req |>
                   <| snapshot_recv_term_ := is_last_included_term req |>
                   <| snapshot_recv_expected_offset_ := 0 |>
                   <| snapshot_temp_path_ := path |>) ;;
  if env_file_ok OpenTrunc path then
    modify (fun n => n <| files_ ::= <[path := ""]> |>) ;; mret true
  else mret false.

(** Any other chunk must be the next one of the transfer in progress. *)
Definition continue_transfer (req : InstallSnapshotRequest) : M bool :=
  g ← getg id;
  if decide (snapshot_temp_path_ g = "" \/
             is_last_included_index req <> snapshot_recv_index_ g \/
             is_last_included_term req <> snapshot_recv_term_ g \/
             is_offset req <> snapshot_recv_expected_offset_ g) then
    when (bool_decide (snapshot_temp_path_ g <> ""))
      (remove_file (snapshot_temp_path_ g) ;; snapshot_temp_path_ <~ "") ;;
    reset_receive ;;
    mret false
  else mret true.

(** Append the chunk to the temporary file. *)
Definition write_chunk (data : string) : M bool :=
  path ← getg snapshot_temp_path_;
  if negb (env_file_ok OpenAppend path) then mret false
  else
    old ← file_content path;
    match env_write_fails path data with
    | Some n =>
        modify (fun s => s <| files_ ::= <[path := old +:+ String.substring 0 n data]> |>) ;; mret false
    | None =>
        modify (fun s => s <| files_ ::= <[path := old +:+ data]> |>) ;;
        putg (fun g => g <| snapshot_recv_expected_offset_ ::=
                              fun o => u64 (o + Z.of_nat (String.length data)) |>) ;;
        mret true
    end.

(** Phase 2; [Some path] when the last chunk has arrived. *)
Definition install_phase2 (req : InstallSnapshotRequest) : M (option string) :=
  restoring ← getg snapshot_restore_in_progress_;
  if bool_decide (is_offset req = 0) && restoring then mret None
  else
    go ← (if decide (is_offset req = 0) then begin_transfer req else continue_transfer req);
    if negb go then mret None
    else
      written ← write_chunk (is_data req);
      if negb written then mret None
      else if is_done req then
        path ← getg snapshot_temp_path_;
        reset_receive ;;
        snapshot_temp_path_ <~ "" ;;
        snapshot_restore_in_progress_ <~ true ;;
        mret (Some path)
      else mret None.

Definition RestoreFromSnapshotFile (path : string) : M bool :=
  content ← file_content path;
  emit (SmRestore (stream_file content)) ;;
  mret (env_restore_ok (stream_file content)).

Definition PersistSnapshotFile (path : string) (index : Index) (term : Term) : M unit :=
  when env_persister
    (content ← file_content path;
     emit (SaveSnapshot (stream_file content) index term)).

(** Phase 2c: move log and indices to the snapshot, unless newer state won. *)
Definition install_apply (index : Index) (term : Term) : M unit :=
  g ← getg id;
  if decide (index <= last_snapshot_index_ g) then mret tt
  else if decide (index < commit_index_ g) then mret tt
  else
    putg (fun g => g <| log_ ::= SetStartIndex (u32 (index + 1)) |>
                     <| last_snapshot_index_ := index |>
                     <| last_snapshot_term_ := term |>) ;;
    when env_log_persister (emit (LogTruncatePrefixAsync (u32 (index + 1)))) ;;
    putg (fun g => g <| last_applied_ := index |> <| commit_index_ := index |>
                     <| apply_queue_ := [] |> <| last_enqueued_ := index |>).

(** Phases 2b and 2c of a complete transfer. *)
Definition install_done (path : string) (index : Index) (term : Term) : M unit :=
  restored ← RestoreFromSnapshotFile path;
  (if negb restored then remove_file path
   else
     last ← getg last_snapshot_index_;
     when (bool_decide (last < index)) (PersistSnapshotFile path index term) ;;
     install_apply index term ;;
     remove_file path) ;;
  snapshot_restore_in_progress_ <~ false.

Definition HandleInstallSnapshot (req : InstallSnapshotRequest) : M InstallSnapshotResponse :=
  r ← install_phase1 req;
  let '(go, resp) := r in
  if negb go then mret resp
  else
    finished ← install_phase2 req;
    match finished with
    | Some path => install_done path (is_last_included_index req) (is_last_included_term req)
    | None => mret tt
    end ;;
    mret resp.

(** ** ReadIndex requests of other nodes *)

(** [(leader_valid, read_index, term)] *)
Definition HandleReadIndexRequest : M (bool * Index * Term) :=
  RecordActivityLocked ;;
  g ← getg id;
  mret (if decide (role_ g = LEADER) then (true, commit_index_ g, current_term_ g)
        else (false, 0, current_term_ g)).

(** ** Sender authentication *)

Definition SenderIdentityMatches (authenticated_node_id claimed_node_id : NodeId) : bool :=
  bool_decide (authenticated_node_id < 0) || bool_decide (authenticated_node_id = claimed_node_id).

End follower.
