(* ===== verification/Snapshots.v ===== *)
(** * Snapshots, leader side: [src/snapshot_manager.cpp]

    Creating and persisting a snapshot, compacting the log behind it, and the
    chunk stream to a lagging peer.  Creation runs without locks between two
    locked phases; each phase is a definition. *)

From S2P Require Import Prelude Types RaftLog Quorum Sessions RaftGroup Timers Replicate.
From S2P Require Import Membership Apply Election.

Section snapshots.
Context `{!Env}.

Definition kReadChunkSize : Z := 64 * 1024.

(** ** Reading a snapshot to its end *)

(** The pre-scan: [inr true] when the size is within [max]. *)
Definition scan_step (snap : Snapshot) (max : Z) (st : Z * Z) : (Z * Z) + (bool * Z) :=
  let '(check_offset, total_size) := st in
  let bytes_read := Z.of_nat (String.length (sn_read snap check_offset kReadChunkSize)) in
  if decide (bytes_read = 0) then inr (true, total_size)
  else
    let total_size := u64 (total_size + bytes_read) in
    if decide (max < total_size) then inr (false, total_size)
    else inl (u64 (check_offset + bytes_read), total_size).

(** The chunk provider of [SaveSnapshotStream], run to its end. *)
Definition stream_step (snap : Snapshot) (st : Z * string) : (Z * string) + string :=
  let '(offset, acc) := st in
  let chunk := sn_read snap offset kReadChunkSize in
  if decide (chunk = "") then inr acc
  else inl (u64 (offset + Z.of_nat (String.length chunk)), acc +:+ chunk).

(** Both loops have run their course after far fewer than [2 ^ 64] rounds. *)
Definition scan_snapshot (snap : Snapshot) (max : Z) : (Z * Z) + (bool * Z) :=
  loop 64 (scan_step snap max) (0, 0).
Definition stream_snapshot (snap : Snapshot) : (Z * string) + string :=
  loop 64 (stream_step snap) (0, "").

Definition max_snapshot_size (cfg : RuntimeConfigValues) : Z :=
  if decide (0 < max_snapshot_size_bytes cfg) then max_snapshot_size_bytes cfg
  else 100 * 1024 * 1024.

(** ** Creating *)

Definition ShouldTriggerSnapshot (g : RaftGroup) : bool :=
  let last_index := (GetLastLogInfo (log_ g)).1 in
  let cfg := runtime_config_ g in
  if decide (last_index <= last_snapshot_index_ g) then false
  else if decide (snapshot_threshold_entries cfg <= u32 (last_index - last_snapshot_index_ g)) then true
  else bool_decide (snapshot_threshold_bytes cfg <= (GetLogStats (log_ g)).2).

(** [inl] is the error status, [inr] the metadata of the saved snapshot. *)
Definition CreateAndPersistSnapshot : M (Status + Index * Term) :=
  match env_create_snapshot with
  | None => mret (inl (Error1 "Failed to create snapshot"))
  | Some snap =>
      let index := u32 (sn_last_included_index snap) in
      let term := u32 (sn_last_included_term snap) in
      cfg ← getg runtime_config_;
      match scan_snapshot snap (max_snapshot_size cfg) with
      | inl _ => abort
      | inr (false, _) => mret (inl (Error1 "Snapshot exceeds max size"))
      | inr (true, total_size) =>
          if env_persister && bool_decide (0 < total_size) then
            last ← getg last_snapshot_index_;
            if decide (index <= last) then mret (inl (Error1 "Snapshot superseded while creating"))
            else
              match stream_snapshot snap with
              | inl _ => abort
              | inr content =>
                  emit (SaveSnapshot content index term) ;;
                  match env_save_snapshot index term with
                  | StOK => mret (inr (index, term))
                  | err => mret (inl err)
                  end
              end
          else mret (inr (index, term))
      end
  end.

Definition ApplySnapshotLocked (index : Index) (term : Term) : M Status :=
  running ← IsRunning;
  g ← getg id;
  if negb running then mret (Error1 "Node stopped while creating snapshot")
  else if decide (role_ g <> LEADER) then mret (NotLeader (leader_id_ g) (leader_addr_ g))
  else if decide (index <= last_snapshot_index_ g) then
    mret (Error1 "Snapshot superseded while creating")
  else if decide (index < (GetLastLogInfo (log_ g)).1) then
    mret (Error1 "Log advanced while creating snapshot")
  else
    putg (fun g => g <| log_ ::= SetStartIndex (u32 (index + 1)) |>
                     <| last_snapshot_index_ := index |>
                     <| last_snapshot_term_ := term |>) ;;
    let retention := log_retention_entries (runtime_config_ g) in
    let compact_before :=
      if decide (retention < u32 (index + 1)) then u32 (u32 (index + 1) - retention) else 1 in
    when env_log_persister (emit (LogTruncatePrefixAsync compact_before)) ;;
    mret StOK.

(** Phases 2 and 3 of the automatic and of the manual snapshot. *)
Definition create_and_apply : M Status :=
  r ← CreateAndPersistSnapshot;
  match r with
  | inl err => mret err
  | inr (index, term) => ApplySnapshotLocked index term
  end.

(** The in-progress token, taken on entry and given back on every way out. *)
Definition with_snapshot_token (busy : Status) (m : M Status) : M Status :=
  taken ← gets snapshot_in_progress_;
  if (taken : bool) then mret busy
  else
    modify (fun n => n <| snapshot_in_progress_ := true |>) ;;
    status ← m;
    modify (fun n => n <| snapshot_in_progress_ := false |>) ;;
    mret status.

Definition RunAutoSnapshotIfNeeded : M Status :=
  with_snapshot_token StOK
    (running ← IsRunning;
     g ← getg id;
     if negb running || negb (bool_decide (role_ g = LEADER)) then mret StOK
     else if negb (ShouldTriggerSnapshot g) then mret StOK
     else create_and_apply).

Definition TriggerSnapshot : M Status :=
  with_snapshot_token (Error1 "A snapshot is already in progress")
    (running ← IsRunning;
     g ← getg id;
     if negb running then mret (Error1 "Node not running")
     else if decide (role_ g <> LEADER) then mret (NotLeader (leader_id_ g) (leader_addr_ g))
     else create_and_apply).

Definition CheckSnapshotTimeoutLocked : M unit :=
  g ← getg id;
  if negb (snapshot_check_timer_enabled_ g) || bool_decide (env_now < snapshot_check_deadline_ g)
  then mret tt
  else
    putg (fun g => g <| snapshot_check_deadline_ ::=
                          fun d => d + ms (snapshot_check_interval_ms (runtime_config_ g)) |>) ;;
    RunAutoSnapshotIfNeeded ;; mret tt.

(** ** Sending *)

(** [TaPrepareSnapshot]: the token was taken when the timer was armed. *)
Definition PrepareSnapshotForPeer (peer_id : NodeId) : M unit :=
  match env_create_snapshot with
  | None => mret tt
  | Some snapshot =>
      running ← IsRunning;
      g ← getg id;
      match snapshot_sends_ g !! peer_id with
      | None => mret tt
      | Some state =>
          if negb running || negb (bool_decide (role_ g = LEADER)) then
            set_send peer_id (state <| ss_in_progress := false |>)
          else
            match ss_snapshot state with
            | Some _ => mret tt
            | None =>
                let needed :=
                  match next_index_ g !! peer_id with
                  | None => false
                  | Some next => bool_decide (next < GetFirstIndex (log_ g))
                  end in
                if negb needed then set_send peer_id (state <| ss_in_progress := false |>)
                else
                  set_send peer_id
                    (mkSnapshotSendState (Some snapshot) 0 (u32 (sn_last_included_index snapshot))
                       (u32 (sn_last_included_term snapshot)) true (ss_last_chunk_size state)) ;;
                  SendNextSnapshotChunkLocked peer_id
            end
      end
  end ;;
  modify (fun n => n <| snapshot_in_progress_ := false |>).

(** [TaRetrySnapshotChunk] *)
Definition OnRetrySnapshotChunk (peer_id : NodeId) : M unit :=
  role ← getg role_;
  when (bool_decide (role = LEADER)) (SendNextSnapshotChunkLocked peer_id).

(** Phase 1; the value tells whether phase 2 runs. *)
Definition snapshot_response_phase1 (resp : InstallSnapshotResponse) : M bool :=
  running ← IsRunning;
  g ← getg id;
  if negb running then mret false
  else if decide (role_ g <> LEADER) then mret false
  else if decide (current_term_ g < isr_term resp) then
    BecomeFollowerLocked (isr_term resp) ;; mret false
  else mret true.

Definition snapshot_response_phase2 (from : NodeId) (rpc_success : bool) : M unit :=
  sends ← getg snapshot_sends_;
  match sends !! from with
  | None => mret tt
  | Some state =>
      set_send from (state <| ss_in_progress := false |>) ;;
      if negb rpc_success then emit (SetTimeout 100 (TaRetrySnapshotChunk from))
      else if decide (ss_last_chunk_size state < kSnapshotChunkSize) then
        set_match_index from (ss_last_included_index state) ;;
        set_next_index from (u32 (ss_last_included_index state + 1)) ;;
        putg (fun g => g <| snapshot_sends_ ::= delete from |>) ;;
        TryCommitLocked
      else
        set_send from (state <| ss_offset := u64 (ss_offset state + ss_last_chunk_size state) |>
                             <| ss_in_progress := true |>) ;;
        SendNextSnapshotChunkLocked from
  end.

(** A response that did not parse, or an RPC that failed, carries the default
    term 0. *)
Definition HandleInstallSnapshotResponse (from : NodeId) (resp : InstallSnapshotResponse)
    (rpc_success : bool) : M unit :=
  go ← snapshot_response_phase1 resp;
  when go (snapshot_response_phase2 from rpc_success).

End snapshots.
