(* ===== verification/NodeCore.v ===== *)
(** * The node's own interface: [src/raft_node_core.cpp]

    Proposals, membership proposals, linearizable reads, client requests
    ([HandleClientRequest] of [src/rpc_handlers.cpp]), start-up from the
    persisted state, shutdown and the periodic tick. *)

From S2P Require Import Prelude Types RaftLog Quorum Sessions RaftGroup Timers Replicate.
From S2P Require Import Membership Apply Election Leader Follower Snapshots.

Section core.
Context `{!Env}.

Definition not_leader : M Status :=
  g ← getg id; mret (NotLeader (leader_id_ g) (leader_addr_ g)).

(** ** Proposals *)

Definition flush_to (index : Index) : M unit :=
  putg (fun g => g <| flushed_index_ ::= fun f => Z.max f index |>).

Definition add_pending (index : Index) (cb : Callback) : M unit :=
  putg (fun g => g <| pending_proposals_ ::=
                        <[index := mkPendingProposal index cb env_steady_now]> |>).

(** The new entry goes to the log persister, which calls
    [OnLogEntryPersisted] back. *)
Definition persist_async (index : Index) : M unit :=
  log ← getg log_;
  match GetEntry log index with
  | Some e => emit (LogAppend e (Some index))
  | None => mret tt
  end.

(** The answer of the session cache, if it has one. *)
Definition check_session (session_id seq_num : Z) : M (option SessionResult) :=
  if decide (session_id = 0) then mret None
  else
    m ← getg session_manager_;
    let '(cached, m') := IsDuplicate env_steady_now session_id seq_num m in
    session_manager_ <~ m' ;;
    mret cached.

Definition append_command (command : string) : M Index :=
  term ← getg current_term_;
  log ← getg log_;
  let '(index, log') := Append term command log in
  log_ <~ log' ;;
  mret index.

Definition Propose (command : string) (callback : Callback) (session_id seq_num : Z) : M Status :=
  RecordActivityLocked ;;
  running ← IsRunning;
  role ← getg role_;
  if negb running then mret (Error1 "Node not running")
  else if decide (role <> LEADER) then not_leader
  else
    cached ← check_session session_id seq_num;
    match cached with
    | Some r =>
        call_proposal callback
          (mkApplyResult (sr_success r) (sr_response r) (sr_applied_index r) (sr_error_message r)) ;;
        mret StOK
    | None =>
        index ← append_command command;
        when (bool_decide (session_id <> 0))
          (putg (fun g => g <| proposal_sessions_ ::= <[index := (session_id, seq_num)]> |>)) ;;
        (if env_log_persister then persist_async index else flush_to index) ;;
        add_pending index callback ;;
        BroadcastAppendEntriesLocked ;;
        mret StOK
    end.

(** [cb i] names the lambda that collects the result of the [i]th command. *)
Fixpoint append_batch (commands : list string) : M (list Index) :=
  match commands with
  | [] => mret []
  | c :: cs => index ← append_command c; rest ← append_batch cs; mret (index :: rest)
  end.

Definition ProposeBatch (commands : list string) (cb : nat -> Z) : M Status :=
  RecordActivityLocked ;;
  running ← IsRunning;
  role ← getg role_;
  if negb running then mret (Error1 "Node not running")
  else if decide (role <> LEADER) then not_leader
  else if decide (commands = []) then mret (Error1 "Empty batch")
  else
    indices ← append_batch commands;
    forM (imap pair indices) (fun p =>
      when env_log_persister (persist_async p.2) ;;
      add_pending p.2 (Some (cb p.1))) ;;
    when (negb env_log_persister) (flush_to (default 0 (list.last indices))) ;;
    BroadcastAppendEntriesLocked ;;
    TryCommitLocked ;;
    mret StOK.

(** The log persister's callback: step down after a failed write, retry the
    commit after a good one. *)
Definition OnLogEntryPersisted (index : Index) (status : Status) : M unit :=
  match status with
  | StErr _ msg =>
      g ← getg id;
      when (bool_decide (role_ g = LEADER))
        (BecomeFollowerAfterDiskFailureLocked (current_term_ g)) ;;
      props ← getg pending_proposals_;
      match props !! index with
      | None => mret tt
      | Some p =>
          pending_proposals_ <~ delete index props ;;
          call_proposal (pp_callback p) (mkApplyResult false "" 0 msg)
      end
  | StOK =>
      running ← IsRunning;
      role ← getg role_;
      if negb running then mret tt
      else if decide (role <> LEADER) then mret tt
      else flush_to index ;; TryCommitLocked
  end.

(** [LogPersister::AppendSync] of a new entry, or an immediate flush. *)
Definition persist_sync (index : Index) : M Status :=
  if negb env_log_persister then flush_to index ;; mret StOK
  else
    log ← getg log_;
    match GetEntry log index with
    | None => mret StOK
    | Some e =>
        let status := env_append_sync e in
        emit (LogAppendSync e status) ;;
        when (status_ok status) (flush_to index) ;;
        mret status
    end.

(** ** Membership proposals *)

Definition CHANGE_IN_PROGRESS : string :=
  "A membership change is already in progress; wait for it to commit".

(** Append, flush, mark the change as pending; [k] is what follows. *)
Definition propose_change (cmd : string) (k : M unit) : M Status :=
  index ← append_command cmd;
  status ← persist_sync index;
  match status with
  | StErr _ _ => mret status
  | StOK =>
      pending_config_change_ <~ true ;;
      k ;;
      mret StOK
  end.

(** The guards shared by the four proposals: running, leader, [ok], no change
    pending. *)
Definition guard_change (ok : ClusterConfig -> bool) (err : string) (m : M Status) : M Status :=
  running ← IsRunning;
  g ← getg id;
  if negb running then mret (Error1 "Node not running")
  else if decide (role_ g <> LEADER) then not_leader
  else if negb (ok (cluster_config_ g)) then mret (Error1 err)
  else if pending_config_change_ g then mret (Error1 CHANGE_IN_PROGRESS)
  else m.

Definition joint_command (old_ new_ : list NodeId) : string :=
  PREFIX_JOINT +:+ env_json_dump old_ +:+ ":" +:+ env_json_dump new_.

Definition add_peer (id : NodeId) (addr : NodeAddr) : M unit :=
  putg (fun g => g <| peer_map_ ::= <[id := addr]> |>
                   <| next_index_ ::= <[id := u32 ((GetLastLogInfo (log_ g)).1 + 1)]> |>
                   <| match_index_ ::= <[id := 0]> |>) ;;
  BroadcastAppendEntriesLocked.

Definition AddNode (id : NodeId) (addr : NodeAddr) : M Status :=
  guard_change (fun c => negb (Contains c id)) "Node already in cluster"
    (old_ ← getg (fun g => nodes (cluster_config_ g));
     propose_change (joint_command old_ (old_ ++ [id])) (add_peer id addr)).

Definition RemoveNode (id : NodeId) : M Status :=
  guard_change (fun c => Contains c id) "Node not in cluster"
    (old_ ← getg (fun g => nodes (cluster_config_ g));
     propose_change (joint_command old_ (vec_remove id old_))
       (putg (fun g => g <| peer_map_ ::= delete id |> <| next_index_ ::= delete id |>
                         <| match_index_ ::= delete id |>
                         <| peer_addrs_ ::= filter (fun a => ExtractNodeIdFromAddr a <> id) |>) ;;
        BroadcastAppendEntriesLocked ;;
        g ← getg Datatypes.id;
        when (bool_decide (id = server_id_ g)) (BecomeFollowerLocked (current_term_ g)))).

Definition AddLearner (id : NodeId) (addr : NodeAddr) : M Status :=
  guard_change (fun c => negb (Contains c id)) "Node already in cluster"
    (propose_change (PREFIX_ADD_LEARNER +:+ pretty id +:+ ":" +:+ addr) (add_peer id addr)).

Definition PromoteLearner (id : NodeId) : M Status :=
  guard_change (fun c => IsLearner c id) "Node is not a learner"
    (old_ ← getg (fun g => nodes (cluster_config_ g));
     propose_change (joint_command old_ (old_ ++ [id])) BroadcastAppendEntriesLocked).

Definition TransferLeadershipTo (target_id : NodeId) : M Status :=
  running ← IsRunning;
  g ← getg id;
  if negb running then mret (Error1 "Node not running")
  else if decide (role_ g <> LEADER) then not_leader
  else if decide (target_id = server_id_ g) then mret (Error1 "Cannot transfer leadership to self")
  else if decide (peer_map_ g !! target_id = None) then mret (Error1 "Target node not in cluster")
  else
    SendAppendEntriesToPeerLocked target_id ;;
    BecomeFollowerLocked (current_term_ g) ;;
    mret StOK.

(** ** Linearizable reads *)

Definition add_read (read_index : Index) (callback : Callback) (acks : gset Z)
    (heartbeats_sent : bool) : M Z :=
  read_id ← getg next_read_id_;
  next_read_id_ <~ u64 (read_id + 1) ;;
  putg (fun g => g <| pending_reads_ ::=
    <[read_id := mkPendingReadIndex read_index callback env_steady_now acks heartbeats_sent]> |>) ;;
  mret read_id.

Definition lease_valid (g : RaftGroup) : bool :=
  leader_lease_enabled (runtime_config_ g) && bool_decide (env_now < leader_lease_expiry_ g).

Definition read_index_leader (callback : Callback) : M Status :=
  g ← getg id;
  if lease_valid g then
    add_read (commit_index_ g) callback ∅ false ;;
    ProcessPendingReadsLocked ;;
    mret StOK
  else
    read_id ← add_read (commit_index_ g) callback {[server_id_ g]} true;
    BroadcastReadIndexHeartbeatsLocked read_id ;;
    mret StOK.

(** The follower's answer to the leader's ReadIndex response
    [(leader_valid, read_index, term)]; [None] is a failed RPC. *)
Definition read_index_forwarded (leader_id : NodeId) (leader_addr : NodeAddr)
    (callback : Callback) (resp : string + bool * Index * Term) : M Status :=
  match resp with
  | inl err =>
      mret (Error2 "READINDEX_FORWARD" ("Failed to forward ReadIndex to leader: " +:+ err))
  | inr (valid, read_index, term) =>
      if negb valid then mret (NotLeader leader_id leader_addr)
      else
        current ← getg current_term_;
        if decide (current < term) then BecomeFollowerLocked term ;; not_leader
        else
          add_read read_index callback ∅ false ;;
          ProcessPendingReadsLocked ;;
          mret StOK
  end.

(** [resp] is what the leader answers if the request has to be forwarded. *)
Definition ReadIndex (callback : Callback) (resp : string + bool * Index * Term) : M Status :=
  RecordActivityLocked ;;
  running ← IsRunning;
  g ← getg id;
  if negb running then mret (Error1 "Node not running")
  else if decide (role_ g = LEADER) then read_index_leader callback
  else if decide (leader_id_ g < 0 \/ leader_addr_ g = "") then not_leader
  else read_index_forwarded (leader_id_ g) (leader_addr_ g) callback resp.

(** ** Client requests *)

Record ClientRequest := mkClientRequest {
  cr_command : string;
  cr_client_id : Z;
  cr_seq : Z;
  cr_read_only : bool
}.

Record ClientResponse := mkClientResponse {
  crs_success : bool;
  crs_response : string;
  crs_error : string;
  crs_error_code : string;
  crs_last_applied_index : Index;
  crs_leader_id : NodeId;
  crs_leader_addr : NodeAddr
}.

(** [ProposeAndWaitLocked] up to the wait; [inl] is an early result. *)
Definition propose_and_wait (command : string) (cb : Z) : M (ApplyResult + Index) :=
  index ← append_command command;
  status ← persist_sync index;
  match status with
  | StErr _ msg => mret (inl (mkApplyResult false "" 0 msg))
  | StOK =>
      add_pending index (Some cb) ;;
      BroadcastAppendEntriesLocked ;;
      mret (inr index)
  end.

(** After the wait: [None] is a timeout. *)
Definition propose_waited (index : Index) (result : option ApplyResult) : M ApplyResult :=
  match result with
  | Some r => mret r
  | None =>
      putg (fun g => g <| pending_proposals_ ::= delete index |>) ;;
      mret (mkApplyResult false "" 0 "Command execution timeout")
  end.

Definition default_session : ClientSession := mkClientSession 0 "" 0 0 0.

(** Where the handler of a client request is: answered, after the early part of
    [ProposeAndWaitLocked], or waiting for [ReadIndex]. *)
Inductive ClientProgress :=
| Answered (resp : ClientResponse)
| Proposed (r : ApplyResult + Index)
| Reading.

(** A query, up to the wait; [resp] is what a leader answers should [ReadIndex]
    have to forward the request. *)
Definition client_read_begin (cb : Z) (resp : string + bool * Index * Term) : M ClientProgress :=
  status ← ReadIndex (Some cb) resp;
  if status_ok status then mret Reading
  else
    g ← getg id;
    let '(leader_id, leader_addr) :=
      if decide (status_code status = kNotLeader) then (leader_id_ g, leader_addr_ g) else (-1, "") in
    mret (Answered (mkClientResponse false "" (GetMessage status) "" 0 leader_id leader_addr)).

(** The rest for a query: [None] is the timeout, else what the state machine
    answers. *)
Definition client_read_end (query_result : option ApplyResult) : M ClientResponse :=
  g ← getg id;
  mret (match query_result with
        | None => mkClientResponse false "" "ReadIndex timeout" "" 0 (-1) ""
        | Some r => mkClientResponse (ar_success r) (ar_response r) (ar_error_message r) ""
                      (u32 (ar_applied_index r)) (server_id_ g) (listen_addr (config_ g))
        end).

Definition client_request_begin (req : ClientRequest) (cb : Z) (resp : string + bool * Index * Term)
    : M ClientProgress :=
  RecordActivityLocked ;;
  g ← getg id;
  if decide (role_ g <> LEADER) then
    mret (Answered (mkClientResponse false "" "Not leader" "" 0 (leader_id_ g) (leader_addr_ g)))
  else if cr_read_only req then client_read_begin cb resp
  else
    let s := default default_session (client_sessions_ g !! cr_client_id req) in
    let s := mkClientSession (cs_last_seq s) (cs_last_response s) (cs_last_index s)
               (cs_last_term s) env_steady_now in
    putg (fun g => g <| client_sessions_ ::= <[cr_client_id req := s]> |>) ;;
    if decide (cr_seq req <= cs_last_seq s) then
      mret (Answered (mkClientResponse true (cs_last_response s) "" "" (cs_last_index s) (server_id_ g)
                        (listen_addr (config_ g))))
    else
      r ← propose_and_wait (cr_command req) cb;
      mret (Proposed r).

(** The rest of the handler, once the result is known. *)
Definition client_request_end (req : ClientRequest) (result : ApplyResult) : M ClientResponse :=
  g ← getg id;
  let s := default default_session (client_sessions_ g !! cr_client_id req) in
  let s := if ar_success result
           then mkClientSession (cr_seq req) (ar_response result) (u32 (ar_applied_index result))
                  (current_term_ g) (cs_last_active s)
           else s in
  putg (fun g => g <| client_sessions_ ::= <[cr_client_id req := s]> |>) ;;
  mret (mkClientResponse (ar_success result) (ar_response result) (ar_error_message result) ""
          (u32 (ar_applied_index result)) (server_id_ g) (listen_addr (config_ g))).

(** ** Start *)

(** What the persister and the transport answer while a node that owns its
    transport starts. *)
Record StartAnswers := mkStartAnswers {
  sa_open : Status;
  sa_load : option PersistentState;
  sa_snapshot : option (Status * string * Z * Z);
  sa_restore_ok : bool;
  sa_entries : list RaftLogEntry;
  sa_network : Status
}.

Definition restore_config (s : PersistentState) (c : ClusterConfig) : ClusterConfig :=
  if decide (0 < p_cluster_version s) then
    mkClusterConfig (p_cluster_nodes s) (p_cluster_old_nodes s) (p_cluster_learners s)
      (p_cluster_version s) (p_cluster_is_joint s)
  else c.

(** [sa_load] is what [LoadState] reads, [None] when its status is not ok. *)
Definition restore_state (sa : StartAnswers) : M unit :=
  match sa_load sa with
  | None => mret tt
  | Some s =>
      putg (fun g => g <| current_term_ := p_current_term s |> <| voted_for_ := p_voted_for s |>
                       <| cluster_config_ ::= restore_config s |>)
  end.

(** [Some err]: the snapshot is there but cannot be used. *)
Definition restore_snapshot (sa : StartAnswers) : M (option Status) :=
  match sa_snapshot sa with
  | None => mret None
  | Some (StErr _ msg, _, _, _) => mret (Some (Error1 ("Failed to load snapshot: " +:+ msg)))
  | Some (StOK, content, index, term) =>
      if decide (content = "") then
        mret (Some (Error1 "Failed to load snapshot: snapshot data is empty"))
      else
        emit (SmRestore content) ;;
        if negb (sa_restore_ok sa) then
          mret (Some (Error1 "Failed to restore snapshot from persister"))
        else
        putg (fun g => g <| last_snapshot_index_ := u32 index |>
                         <| last_snapshot_term_ := u32 term |>
                         <| log_ ::= SetStartIndex (u32 (index + 1)) |>
                         <| commit_index_ := u32 index |> <| last_applied_ := u32 index |>
                         <| last_enqueued_ := u32 index |>) ;;
        mret None
  end.

Definition restore_log (entries : list RaftLogEntry) (l : RaftLog) : RaftLog :=
  match entries with
  | [] => l
  | e :: _ =>
      let l := if decide (index_ e <> GetFirstIndex l) then SetStartIndex (index_ e) l else l in
      foldl (fun l e => AppendLogEntry e l) l entries
  end.

Definition restore_entries (sa : StartAnswers) : M unit :=
  putg (fun g => g <| log_ ::= restore_log (sa_entries sa) |>) ;;
  putg (fun g => g <| flushed_index_ := LastLogIndex (log_ g) |>).

Definition start_failed (err : Status) : M Status :=
  modify (fun n => n <| state_ := kInitialized |>) ;; mret err.

(** A [NodeLifecycleEvent] of this node. *)
Definition publish_lifecycle (started : bool) : M unit :=
  id ← getg server_id_;
  emit (PublishLifecycle id started).

(** A file of the directory that an earlier transfer to this group received into.
    A directory that cannot be listed is one from which nothing can be removed. *)
Definition received_file (g : RaftGroup) (path : string) : bool :=
  let dir := (if decide (data_dir (config_ g) = "") then "/tmp" else data_dir (config_ g)) +:+ "/" in
  let prefix := "rollingraft_snapshot_" +:+ pretty (server_id_ g) +:+ "_g" +:+ pretty (group_id_ g) +:+ "_" in
  String.prefix (dir +:+ prefix) path &&
  bool_decide (String.index 0 "/" (String.substring (String.length dir) (String.length path) path) = None).

Definition remove_received_files : M unit :=
  modify (fun n => n <| files_ ::= filter (fun p =>
    (received_file (group_ n) p.1 && env_file_ok RemoveFile p.1) = false) |>).

Definition start_services (sa : StartAnswers) : M Status :=
  remove_received_files ;;
  match sa_network sa with
  | StErr _ _ => start_failed (sa_network sa)
  | StOK =>
      term ← getg current_term_;
      BecomeFollowerLocked term ;;
      apply_running_ <~ true ;;
      publish_lifecycle true ;;
      mret StOK
  end.

Definition Start (sa : StartAnswers) : M Status :=
  st ← gets state_;
  if decide (st <> kInitialized) then mret (Error1 "Already started or stopped")
  else
    modify (fun n => n <| state_ := kRunning |>) ;;
    if negb env_persister then start_services sa
    else
      match sa_open sa with
      | StErr _ _ => start_failed (sa_open sa)
      | StOK =>
          restore_state sa ;;
          bad ← restore_snapshot sa;
          match bad with
          | Some err => start_failed err
          | None => restore_entries sa ;; start_services sa
          end
      end.

(** ** Shutdown *)

Definition stopped_result : ApplyResult := mkApplyResult false "" 0 "Node stopped".

(** What the shutdown does to the group; the services around it, the log persister
    included, have models of their own.  Proposals that are still pending are
    called without a check for an empty callback. *)
Definition DoGracefulShutdown : M unit :=
  CancelElectionTimerLocked ;;
  StopHeartbeatTimerLocked ;;
  StopSnapshotCheckTimerLocked ;;
  apply_running_ <~ false ;;
  remaining ← getg apply_queue_;
  apply_queue_ <~ [] ;;
  forM remaining (fun t => call_proposal (at_callback t) stopped_result) ;;
  props ← getg pending_proposals_;
  pending_proposals_ <~ ∅ ;;
  forM (map_to_list props) (fun p =>
    match pp_callback p.2 with
    | Some cb => emit (CallProposal cb stopped_result)
    | None => abort
    end) ;;
  modify (fun n => n <| state_ := kStopped |>) ;;
  publish_lifecycle false.

(** [Stop] without a shutdown timeout. *)
Definition Stop : M Status :=
  st ← gets state_;
  match st with
  | kRunning =>
      modify (fun n => n <| state_ := kStopping |>) ;;
      DoGracefulShutdown ;;
      mret StOK
  | kStopped => mret StOK
  | _ => mret (Error1 "Node not running")
  end.

(** ** The tick *)

Definition OnStoreTick : M unit :=
  running ← IsRunning;
  if negb running then mret tt
  else
    g ← getg id;
    when (election_timer_enabled_ g && bool_decide (election_deadline_ g <= env_now))
      OnElectionTimeoutLocked ;;
    CheckHeartbeatTimeoutLocked ;;
    CheckSnapshotTimeoutLocked.

End core.
