(* ===== verification/Frames.v ===== *)
(** * What the handlers leave alone

    [quiet] relates two states of a node between which its term, vote, role
    and collected votes are the same and nothing but the current vote was
    saved.  Every helper and most handlers are [quiet]; the lemmas are hints of
    the [keeps] database, and the election proofs build on them. *)

From S2P Require Import Prelude Types RaftLog Quorum Sessions RaftGroup Timers Replicate.
From S2P Require Import Membership Apply Election Leader Follower Snapshots NodeCore.

Definition vote_of (w : Node) : Term * NodeId :=
  (current_term_ (group_ w), voted_for_ (group_ w)).

Definition saved_vote (s : PersistentState) : Term * NodeId := (p_current_term s, p_voted_for s).

Definition disk_vote (w : Node) : option (Term * NodeId) := saved_vote <$> disk_ w.

Definition quiet (w w' : Node) : Prop :=
  server_id_ (group_ w') = server_id_ (group_ w) /\
  vote_of w' = vote_of w /\
  role_ (group_ w') = role_ (group_ w) /\
  votes_received_ (group_ w') = votes_received_ (group_ w) /\
  (disk_vote w' = disk_vote w \/ disk_vote w' = Some (vote_of w)).

#[global] Instance quiet_preorder : PreOrder quiet.
Proof.
  split.
  - intros w. repeat split; auto.
  - intros w1 w2 w3 (?&?&?&?&H12) (?&?&?&?&H23). repeat split; try congruence.
    destruct H12, H23; [left|right|right|right]; congruence.
Qed.

(** [silent] helpers do not change the membership either. *)
Definition silent (w w' : Node) : Prop :=
  quiet w w' /\ cluster_config_ (group_ w') = cluster_config_ (group_ w).

#[global] Instance silent_preorder : PreOrder silent.
Proof.
  split.
  - intros w. split; reflexivity.
  - intros w1 w2 w3 [H12 ?] [H23 ?]. split; [by transitivity w2 | congruence].
Qed.

Lemma keeps_silent_quiet {A} (m : M A) : keeps silent m -> keeps quiet m.
Proof. apply keeps_mono. by intros w w' [??]. Qed.
#[export] Hint Resolve keeps_silent_quiet | 4 : keeps.

Ltac quiet_leaf :=
  apply keeps_modify; intros ?; unfold silent, quiet; split_and?;
  first [reflexivity | left; reflexivity].
#[export] Hint Extern 1 (keeps silent (modify _)) => quiet_leaf : keeps.
#[export] Hint Extern 1 (keeps silent (putg _)) => quiet_leaf : keeps.
#[export] Hint Extern 1 (keeps silent (emit _)) => quiet_leaf : keeps.
#[export] Hint Extern 1 (keeps silent (getg _)) => eapply keeps_gets; apply _ : keeps.
#[export] Hint Extern 1 (keeps quiet (modify _)) => quiet_leaf : keeps.
#[export] Hint Extern 1 (keeps quiet (putg _)) => quiet_leaf : keeps.
#[export] Hint Extern 1 (keeps quiet (emit _)) => quiet_leaf : keeps.
#[export] Hint Extern 1 (keeps quiet (getg _)) => eapply keeps_gets; apply _ : keeps.
#[export] Hint Extern 1 (PreOrder quiet) => exact quiet_preorder : keeps.

(** Handlers only differ in where their leaves are. *)
Tactic Notation "quiet" reference(f) := unfold f; keeps_solve.

Section quiet.
Context `{!Env}.

Lemma silent_IsRunning : keeps silent IsRunning.
Proof. apply keeps_gets. apply _. Qed.
Hint Resolve silent_IsRunning : keeps.

Lemma silent_CancelElectionTimer : keeps silent CancelElectionTimerLocked.
Proof. quiet CancelElectionTimerLocked. Qed.
Hint Resolve silent_CancelElectionTimer : keeps.

Lemma silent_ResetElectionTimer : keeps silent ResetElectionTimerLocked.
Proof. quiet ResetElectionTimerLocked. Qed.

Lemma silent_StartHeartbeatTimer n : keeps silent (StartHeartbeatTimerLocked n).
Proof. quiet StartHeartbeatTimerLocked. Qed.

Lemma silent_StopHeartbeatTimer : keeps silent StopHeartbeatTimerLocked.
Proof. quiet StopHeartbeatTimerLocked. Qed.

Lemma silent_StartSnapshotCheckTimer : keeps silent StartSnapshotCheckTimerLocked.
Proof. quiet StartSnapshotCheckTimerLocked. Qed.

Lemma silent_StopSnapshotCheckTimer : keeps silent StopSnapshotCheckTimerLocked.
Proof. quiet StopSnapshotCheckTimerLocked. Qed.
Hint Resolve silent_ResetElectionTimer silent_StartHeartbeatTimer silent_StopHeartbeatTimer
  silent_StartSnapshotCheckTimer silent_StopSnapshotCheckTimer : keeps.

(** *** Sending *)

Lemma silent_next_index_at p : keeps silent (next_index_at p).
Proof. quiet next_index_at. Qed.

Lemma silent_match_index_at p : keeps silent (match_index_at p).
Proof. quiet match_index_at. Qed.

Lemma silent_set_next_index p i : keeps silent (set_next_index p i).
Proof. quiet set_next_index. Qed.

Lemma silent_set_match_index p i : keeps silent (set_match_index p i).
Proof. quiet set_match_index. Qed.

Lemma silent_GetLogTermLocked i : keeps silent (GetLogTermLocked i).
Proof. quiet GetLogTermLocked. Qed.

Lemma silent_set_send p s : keeps silent (set_send p s).
Proof. quiet set_send. Qed.
Hint Resolve silent_next_index_at silent_match_index_at silent_set_next_index silent_set_match_index
  silent_GetLogTermLocked silent_set_send : keeps.

Lemma silent_SendNextSnapshotChunk p : keeps silent (SendNextSnapshotChunkLocked p).
Proof. quiet SendNextSnapshotChunkLocked. Qed.
Hint Resolve silent_SendNextSnapshotChunk : keeps.

Lemma silent_SendInstallSnapshotToPeer p : keeps silent (SendInstallSnapshotToPeerLocked p).
Proof. quiet SendInstallSnapshotToPeerLocked. Qed.
Hint Resolve silent_SendInstallSnapshotToPeer : keeps.

Lemma silent_SendAppendEntriesToPeer p : keeps silent (SendAppendEntriesToPeerLocked p).
Proof. quiet SendAppendEntriesToPeerLocked. Qed.
Hint Resolve silent_SendAppendEntriesToPeer : keeps.

Lemma silent_broadcast_loop n p : keeps silent (broadcast_loop n p).
Proof. induction n; simpl; keeps_solve. Qed.
Hint Resolve silent_broadcast_loop : keeps.

Lemma silent_BroadcastAppendEntries : keeps silent BroadcastAppendEntriesLocked.
Proof. quiet BroadcastAppendEntriesLocked. Qed.

Lemma silent_ScheduleRetryLocked p : keeps silent (ScheduleAppendEntriesRetryLocked p).
Proof. quiet ScheduleAppendEntriesRetryLocked. Qed.
Hint Resolve silent_BroadcastAppendEntries silent_ScheduleRetryLocked : keeps.

Lemma silent_ScheduleRetry p b : keeps silent (ScheduleAppendEntriesRetry p b).
Proof. quiet ScheduleAppendEntriesRetry. Qed.

(** *** Saving the current state *)

Lemma silent_save_current :
  keeps silent (s ← getg CurrentPersistentState; SaveStateM s).
Proof.
  intros w. unfold getg, SaveStateM, emit. run.
  destruct (env_save_ok _); [|destruct (env_save_left _)]; run;
    unfold silent, quiet, vote_of, disk_vote; simpl; proj_simp; repeat split; auto.
Qed.

Lemma silent_PersistClusterConfig : keeps silent PersistClusterConfigLocked.
Proof.
  unfold PersistClusterConfigLocked. destruct (negb _); [keeps_solve|].
  intros w. pose proof (silent_save_current w) as Hq. revert Hq.
  unfold getg. run. destruct (SaveStateM _ w); done.
Qed.
Hint Resolve silent_save_current silent_PersistClusterConfig : keeps.

Lemma silent_persist_or_abort : keeps silent persist_or_abort.
Proof.
  unfold persist_or_abort. destruct (negb _); [keeps_solve|].
  intros w. pose proof (silent_save_current w) as Hq. revert Hq.
  unfold getg. run. destruct (SaveStateM _ w) as [[] ?|]; done.
Qed.

(** *** Committing and applying *)

Lemma silent_append_and_persist cmd : keeps silent (append_and_persist cmd).
Proof. quiet append_and_persist. Qed.
Hint Resolve silent_persist_or_abort silent_append_and_persist : keeps.

Lemma quiet_upd_config f : keeps quiet (upd_config f).
Proof. quiet upd_config. Qed.
Hint Resolve quiet_upd_config : keeps.

Lemma quiet_learn_peer i a : keeps quiet (learn_peer i a).
Proof. quiet learn_peer. Qed.
Hint Resolve quiet_learn_peer : keeps.

Lemma quiet_ApplyConfigChange cmd : keeps quiet (ApplyConfigChangeLocked cmd).
Proof.
  unfold ApplyConfigChangeLocked, apply_joint, apply_finalize, apply_add_learner, apply_promote,
    apply_add, apply_remove. keeps_solve.
Qed.
Hint Resolve quiet_ApplyConfigChange : keeps.

Lemma quiet_push_task t : keeps quiet (push_task t).
Proof. quiet push_task. Qed.
Hint Resolve quiet_push_task : keeps.

Lemma quiet_apply_one : keeps quiet apply_one.
Proof. unfold apply_one, complete_config_proposal. keeps_solve. Qed.
Hint Resolve quiet_apply_one : keeps.

Lemma quiet_apply_committed_loop n : keeps quiet (apply_committed_loop n).
Proof. induction n; simpl; keeps_solve. Qed.
Hint Resolve quiet_apply_committed_loop : keeps.

Lemma quiet_ApplyCommitted : keeps quiet ApplyCommittedLocked.
Proof. quiet ApplyCommittedLocked. Qed.
Hint Resolve quiet_ApplyCommitted : keeps.

Lemma quiet_try_commit_loop n i : keeps quiet (try_commit_loop n i).
Proof. revert i. induction n; intros i; simpl; keeps_solve. Qed.
Hint Resolve quiet_try_commit_loop : keeps.

Lemma quiet_TryCommit : keeps quiet TryCommitLocked.
Proof. quiet TryCommitLocked. Qed.
Hint Resolve quiet_TryCommit : keeps.

Lemma silent_complete_read i : keeps silent (complete_read i).
Proof. quiet complete_read. Qed.
Hint Resolve silent_complete_read : keeps.

Lemma silent_ProcessPendingReads : keeps silent ProcessPendingReadsLocked.
Proof. quiet ProcessPendingReadsLocked. Qed.
Hint Resolve silent_ProcessPendingReads : keeps.

Lemma quiet_OnReadIndexResponse p i r : keeps quiet (OnReadIndexResponse p i r).
Proof. unfold OnReadIndexResponse, HandleReadIndexAckLocked. keeps_solve. Qed.

Lemma quiet_BroadcastReadIndex i : keeps quiet (BroadcastReadIndexHeartbeatsLocked i).
Proof. unfold BroadcastReadIndexHeartbeatsLocked, send_read_heartbeat. keeps_solve. Qed.

Lemma silent_call_proposal cb r : keeps silent (call_proposal cb r).
Proof. quiet call_proposal. Qed.
Hint Resolve quiet_OnReadIndexResponse quiet_BroadcastReadIndex silent_call_proposal : keeps.

Lemma quiet_apply_task i t : keeps quiet (apply_task i t).
Proof. quiet apply_task. Qed.
Hint Resolve quiet_apply_task : keeps.

Lemma quiet_apply_tasks i ts : keeps quiet (apply_tasks i ts).
Proof. revert i. induction ts; intros i; simpl; keeps_solve. Qed.
Hint Resolve quiet_apply_tasks : keeps.

Lemma quiet_ApplyLoop : keeps quiet ApplyLoop.
Proof. quiet ApplyLoop. Qed.

(** *** Timers, roles, leader bookkeeping *)

Lemma silent_ExitQuiesced : keeps silent ExitQuiescedLocked.
Proof. quiet ExitQuiescedLocked. Qed.
Hint Resolve silent_ExitQuiesced : keeps.

Lemma silent_EnterQuiesced : keeps silent EnterQuiescedLocked.
Proof. quiet EnterQuiescedLocked. Qed.

Lemma silent_ShouldEnterQuiesced : keeps silent ShouldEnterQuiescedLocked.
Proof. quiet ShouldEnterQuiescedLocked. Qed.

Lemma silent_RecordActivity : keeps silent RecordActivityLocked.
Proof. quiet RecordActivityLocked. Qed.

Lemma silent_publish_role r : keeps silent (publish_role r).
Proof. quiet publish_role. Qed.

Lemma silent_call_role r : keeps silent (call_role r).
Proof. quiet call_role. Qed.

Lemma silent_init_peer i p : keeps silent (init_peer i p).
Proof. quiet init_peer. Qed.

Lemma silent_ElectionQuorum V : keeps silent (ElectionQuorumSatisfiedLocked V).
Proof. quiet ElectionQuorumSatisfiedLocked. Qed.

Lemma silent_BroadcastRequestVote : keeps silent BroadcastRequestVoteLocked.
Proof. unfold BroadcastRequestVoteLocked, SendRequestVoteToPeerLocked. keeps_solve. Qed.

Lemma silent_BroadcastPreVote : keeps silent BroadcastPreVoteLocked.
Proof. unfold BroadcastPreVoteLocked, SendPreVoteToPeerLocked. keeps_solve. Qed.

Lemma silent_learn_leader i : keeps silent (learn_leader i).
Proof. quiet learn_leader. Qed.

Lemma silent_OnPreVoteTimeout : keeps silent OnPreVoteTimeout.
Proof. quiet OnPreVoteTimeout. Qed.

End quiet.

#[export] Hint Resolve silent_IsRunning silent_CancelElectionTimer silent_ResetElectionTimer
  silent_StartHeartbeatTimer silent_StopHeartbeatTimer silent_StartSnapshotCheckTimer
  silent_StopSnapshotCheckTimer silent_next_index_at silent_match_index_at silent_set_next_index
  silent_set_match_index silent_GetLogTermLocked silent_set_send silent_SendNextSnapshotChunk
  silent_SendInstallSnapshotToPeer silent_SendAppendEntriesToPeer silent_BroadcastAppendEntries
  silent_ScheduleRetryLocked silent_ScheduleRetry silent_save_current silent_PersistClusterConfig
  silent_persist_or_abort silent_append_and_persist quiet_ApplyConfigChange quiet_ApplyCommitted
  quiet_TryCommit silent_complete_read silent_ProcessPendingReads quiet_OnReadIndexResponse
  quiet_BroadcastReadIndex silent_call_proposal quiet_apply_tasks quiet_ApplyLoop
  silent_ExitQuiesced silent_EnterQuiesced silent_ShouldEnterQuiesced silent_RecordActivity
  silent_publish_role silent_call_role silent_init_peer silent_ElectionQuorum
  silent_BroadcastRequestVote silent_BroadcastPreVote silent_learn_leader silent_OnPreVoteTimeout
  : keeps.
