(* ===== verification/Votes.v ===== *)
(** * How a node's vote evolves

    [evolves]: the pair (term, vote) only moves forward, what is saved lies
    between the old and the new pair, and the role is kept or becomes
    FOLLOWER.  Every handler that cannot start or win an election evolves the
    node in this sense.  [campaigns] adds the transitions of the handlers that
    can. *)

From S2P Require Import Prelude Types RaftLog Quorum Sessions RaftGroup Timers Replicate.
From S2P Require Import Membership Apply Election Leader Follower Snapshots NodeCore Frames.

(** ** The order on votes *)

Definition vote_le (a b : Term * NodeId) : Prop :=
  a.1 < b.1 \/ (a.1 = b.1 /\ (a.2 = -1 \/ a.2 = b.2)).

#[global] Instance vote_le_preorder : PreOrder vote_le.
Proof.
  split; unfold vote_le.
  - intros a. auto.
  - intros [t1 v1] [t2 v2] [t3 v3]; simpl. lia.
Qed.

(** A saved pair moves from [d] to [d'] while the node's goes from [m] to [m']. *)
Definition disk_step (m m' : Term * NodeId) (d d' : option (Term * NodeId)) : Prop :=
  d' = d \/ exists v, d' = Some v /\ vote_le m v /\ vote_le v m'.

Lemma disk_step_trans m1 m2 m3 d1 d2 d3 :
  vote_le m1 m2 -> vote_le m2 m3 ->
  disk_step m1 m2 d1 d2 -> disk_step m2 m3 d2 d3 -> disk_step m1 m3 d1 d3.
Proof.
  intros H12 H23 [->|(v&->&?&?)] [->|(v'&->&?&?)]; unfold disk_step.
  - auto.
  - right. exists v'. split_and!; [done| |done]. by transitivity m2.
  - right. exists v. split_and!; [done|done|]. by transitivity m2.
  - right. exists v'. split_and!; [done| |done]. by transitivity m2.
Qed.

Definition evolves (w w' : Node) : Prop :=
  server_id_ (group_ w') = server_id_ (group_ w) /\
  vote_le (vote_of w) (vote_of w') /\
  disk_step (vote_of w) (vote_of w') (disk_vote w) (disk_vote w') /\
  (role_ (group_ w') = FOLLOWER \/
   (role_ (group_ w') = role_ (group_ w) /\
    current_term_ (group_ w') = current_term_ (group_ w) /\
    votes_received_ (group_ w') = votes_received_ (group_ w))).

#[global] Instance evolves_preorder : PreOrder evolves.
Proof.
  split.
  - intros w. split_and!; [done|reflexivity|by left|by right].
  - intros w1 w2 w3 (Hi&Hv&Hd&Hr) (Hi'&Hv'&Hd'&Hr'). split_and!.
    + congruence.
    + by transitivity (vote_of w2).
    + by eapply disk_step_trans.
    + destruct Hr' as [->|(->&->&->)]; [by left|]. exact Hr.
Qed.

Lemma quiet_evolves w w' : quiet w w' -> evolves w w'.
Proof.
  intros (Hi&Hv&Hr&Hvs&Hd). split_and!; [done|by rewrite Hv| |].
  - unfold disk_step. rewrite Hv. destruct Hd as [->| ->]; [by left|]. right.
    eexists. split; [done|]. split; reflexivity.
  - right. unfold vote_of in Hv. by simplify_eq.
Qed.

Lemma keeps_quiet_evolves {A} (m : M A) : keeps quiet m -> keeps evolves m.
Proof. apply keeps_mono, quiet_evolves. Qed.
#[export] Hint Resolve keeps_quiet_evolves | 5 : keeps.

#[export] Hint Extern 1 (keeps evolves (modify _)) => apply keeps_quiet_evolves; quiet_leaf : keeps.
#[export] Hint Extern 1 (keeps evolves (putg _)) => apply keeps_quiet_evolves; quiet_leaf : keeps.
#[export] Hint Extern 1 (keeps evolves (emit _)) => apply keeps_quiet_evolves; quiet_leaf : keeps.
#[export] Hint Extern 1 (keeps evolves (getg _)) => eapply keeps_gets; apply _ : keeps.

Section evolves.
Context `{!Env}.

Lemma evolves_enter_follower w t :
  current_term_ (group_ w) <= t -> evolves w (final (enter_follower t w)).
Proof.
  intros Ht. unfold enter_follower, getg, putg. run. proj_simp.
  case_bool_decide; simpl; run; unfold evolves, vote_of, disk_vote; simpl; proj_simp;
    (split_and!; [done| |by left|by left]).
  - left. done.
  - right. simpl. split; [lia|by right].
Qed.

Lemma evolves_BecomeFollower w t p :
  current_term_ (group_ w) <= t -> evolves w (final (BecomeFollowerLockedImpl t p w)).
Proof.
  intros Ht. unfold BecomeFollowerLockedImpl.
  eapply final_bind; [apply _|reflexivity|intros ? ? [= <- <-]].
  eapply final_bind; [apply _|by apply evolves_enter_follower|]. intros _ w' _.
  match goal with |- evolves _ (final (?m _)) => enough (keeps evolves m) as Hm by apply Hm end.
  keeps_solve.
Qed.

(** Step through reads and branches of a handler at a given state; where a
    branch does not step down, its parts are in the [keeps] database. *)
Ltac by_keeps :=
  match goal with
  | |- evolves ?w (final (?m ?w)) =>
      let Hm := fresh in enough (keeps evolves m) as Hm by apply Hm; solve [keeps_solve]
  end.
Ltac evolve_step :=
  match goal with
  | |- evolves ?w (final (BecomeFollowerLocked _ ?w)) => apply evolves_BecomeFollower; lia
  | |- evolves ?w (final (BecomeFollowerWithReplicationLocked _ ?w)) =>
      apply evolves_BecomeFollower; lia
  | |- evolves ?w (final (BecomeFollowerAfterDiskFailureLocked _ ?w)) =>
      apply evolves_BecomeFollower; lia
  | |- evolves ?w (final ((getg _ ≫= _) ?w)) =>
      eapply final_bind; [apply _|reflexivity|intros ? ? [= <- <-]]
  | |- evolves ?w (final ((IsRunning ≫= _) ?w)) =>
      eapply final_bind; [apply _|reflexivity|intros ? ? [= <- <-]]
  | |- evolves ?w (final ((?m ≫= _) ?w)) =>
      eapply final_bind; [apply _| |intros ? ? _]
  | |- evolves ?w (final (when (bool_decide _) _ ?w)) => case_bool_decide; simpl when
  | |- evolves ?w (final (when ?b _ ?w)) => destruct b; simpl when
  | |- evolves ?w (final ((if ?b then _ else _) ?w)) => destruct b
  | |- evolves ?w (final ((match ?x with _ => _ end) ?w)) => destruct x
  end.
Ltac evolve := cbv zeta; repeat (first [by_keeps | evolve_step]; cbv beta zeta).

Lemma evolves_append_new es : keeps evolves (append_new es).
Proof. induction es; simpl; keeps_solve. Qed.

Lemma evolves_truncate_conflicts es : keeps evolves (truncate_conflicts es).
Proof. induction es; simpl; keeps_solve. Qed.

Lemma evolves_follow_commit i : keeps evolves (follow_commit i).
Proof. unfold follow_commit. keeps_solve. Qed.
Hint Resolve evolves_append_new evolves_truncate_conflicts evolves_follow_commit : keeps.

Lemma evolves_append_phase1 req : keeps evolves (append_phase1 req).
Proof. intros w. unfold append_phase1. evolve. Qed.

Lemma evolves_append_phase2 req t : keeps evolves (append_phase2 req t).
Proof. intros w. unfold append_phase2. evolve. Qed.
Hint Resolve evolves_append_phase1 evolves_append_phase2 : keeps.

Lemma evolves_HandleAppendEntries req : keeps evolves (HandleAppendEntries req).
Proof. unfold HandleAppendEntries. keeps_solve. Qed.

Lemma evolves_install_phase1 req : keeps evolves (install_phase1 req).
Proof. intros w. unfold install_phase1. evolve. Qed.

Lemma evolves_install_phase2 req : keeps evolves (install_phase2 req).
Proof.
  unfold install_phase2, begin_transfer, continue_transfer, write_chunk, file_content, remove_file,
    reset_receive. keeps_solve.
Qed.

Lemma evolves_install_done p i t : keeps evolves (install_done p i t).
Proof.
  unfold install_done, install_apply, RestoreFromSnapshotFile, PersistSnapshotFile, file_content,
    remove_file. keeps_solve.
Qed.
Hint Resolve evolves_install_phase1 evolves_install_phase2 evolves_install_done : keeps.

Lemma evolves_HandleInstallSnapshot req : keeps evolves (HandleInstallSnapshot req).
Proof. unfold HandleInstallSnapshot. keeps_solve. Qed.

Lemma evolves_HandlePreVote req : keeps evolves (HandlePreVote req).
Proof. unfold HandlePreVote. keeps_solve. Qed.

Lemma evolves_HandleReadIndexRequest : keeps evolves HandleReadIndexRequest.
Proof. unfold HandleReadIndexRequest. keeps_solve. Qed.

(** *** The leader's handlers *)

Lemma evolves_record_ack p : keeps evolves (record_ack p).
Proof. unfold record_ack. keeps_solve. Qed.

Lemma evolves_update_lease : keeps evolves update_lease.
Proof. unfold update_lease. keeps_solve. Qed.

Lemma evolves_ack_pending_reads p : keeps evolves (ack_pending_reads p).
Proof. unfold ack_pending_reads. keeps_solve. Qed.

Lemma evolves_back_off p : keeps evolves (back_off p).
Proof. unfold back_off. keeps_solve. Qed.
Hint Resolve evolves_record_ack evolves_update_lease evolves_ack_pending_reads evolves_back_off
  : keeps.

Lemma evolves_on_append_success p r h : keeps evolves (on_append_success p r h).
Proof. unfold on_append_success. keeps_solve. Qed.

Lemma evolves_on_append_failure p r h : keeps evolves (on_append_failure p r h).
Proof. unfold on_append_failure. keeps_solve. Qed.

Lemma evolves_on_heartbeat_failure p r : keeps evolves (on_heartbeat_failure p r).
Proof. unfold on_heartbeat_failure. keeps_solve. Qed.
Hint Resolve evolves_on_append_success evolves_on_append_failure evolves_on_heartbeat_failure
  : keeps.

Lemma evolves_HandleAppendEntriesResponse p r : keeps evolves (HandleAppendEntriesResponse p r).
Proof. intros w. unfold HandleAppendEntriesResponse. evolve. Qed.

Lemma evolves_HandleHeartbeatResponse p r : keeps evolves (HandleHeartbeatResponse p r).
Proof. intros w. unfold HandleHeartbeatResponse. evolve. Qed.

Lemma evolves_OnRetryAppendEntries p : keeps evolves (OnRetryAppendEntries p).
Proof. unfold OnRetryAppendEntries. keeps_solve. Qed.

Lemma evolves_CheckQuorum : keeps evolves CheckQuorumLocked.
Proof.
  intros w. unfold CheckQuorumLocked, ElectionQuorumSatisfiedLocked. evolve.
Qed.
Hint Resolve evolves_CheckQuorum : keeps.

Lemma evolves_CheckHeartbeatTimeout : keeps evolves CheckHeartbeatTimeoutLocked.
Proof.
  unfold CheckHeartbeatTimeoutLocked, OnHeartbeatTimeoutLocked, MaybeAutoPromoteLearnersLocked,
    MaybeRemoveDeadNodesLocked. keeps_solve.
Qed.

(** *** Snapshots *)

Lemma evolves_create_and_apply : keeps evolves create_and_apply.
Proof.
  unfold create_and_apply, CreateAndPersistSnapshot, ApplySnapshotLocked. keeps_solve.
Qed.
Hint Resolve evolves_create_and_apply : keeps.

Lemma evolves_TriggerSnapshot : keeps evolves TriggerSnapshot.
Proof. unfold TriggerSnapshot, with_snapshot_token. keeps_solve. Qed.

Lemma evolves_CheckSnapshotTimeout : keeps evolves CheckSnapshotTimeoutLocked.
Proof.
  unfold CheckSnapshotTimeoutLocked, RunAutoSnapshotIfNeeded, with_snapshot_token. keeps_solve.
Qed.

Lemma evolves_PrepareSnapshotForPeer p : keeps evolves (PrepareSnapshotForPeer p).
Proof. unfold PrepareSnapshotForPeer. keeps_solve. Qed.

Lemma evolves_OnRetrySnapshotChunk p : keeps evolves (OnRetrySnapshotChunk p).
Proof. unfold OnRetrySnapshotChunk. keeps_solve. Qed.

Lemma evolves_HandleInstallSnapshotResponse p r b :
  keeps evolves (HandleInstallSnapshotResponse p r b).
Proof.
  intros w. unfold HandleInstallSnapshotResponse, snapshot_response_phase1,
    snapshot_response_phase2. evolve.
Qed.

(** *** The node's own interface *)

Lemma evolves_append_command c : keeps evolves (append_command c).
Proof. unfold append_command. keeps_solve. Qed.

Lemma evolves_append_batch cs : keeps evolves (append_batch cs).
Proof. pose proof evolves_append_command. induction cs; simpl; keeps_solve. Qed.

Lemma evolves_persist_sync i : keeps evolves (persist_sync i).
Proof. unfold persist_sync, flush_to. keeps_solve. Qed.

Lemma evolves_not_leader : keeps evolves not_leader.
Proof. unfold not_leader. keeps_solve. Qed.

Lemma evolves_add_read i cb a h : keeps evolves (add_read i cb a h).
Proof. unfold add_read. keeps_solve. Qed.
Hint Resolve evolves_append_command evolves_append_batch evolves_persist_sync evolves_not_leader
  evolves_add_read : keeps.

Lemma evolves_Propose c cb i n : keeps evolves (Propose c cb i n).
Proof. unfold Propose, check_session, persist_async, flush_to, add_pending. keeps_solve. Qed.

Lemma evolves_ProposeBatch cs cb : keeps evolves (ProposeBatch cs cb).
Proof. unfold ProposeBatch, persist_async, flush_to, add_pending. keeps_solve. Qed.

Lemma evolves_OnLogEntryPersisted i s : keeps evolves (OnLogEntryPersisted i s).
Proof. intros w. unfold OnLogEntryPersisted, flush_to. evolve. Qed.

Lemma evolves_guard_change ok err m : keeps evolves m -> keeps evolves (guard_change ok err m).
Proof. intros ?. unfold guard_change. keeps_solve. Qed.

Lemma evolves_propose_change c k : keeps evolves k -> keeps evolves (propose_change c k).
Proof. intros ?. unfold propose_change. keeps_solve. Qed.

Lemma evolves_add_peer i a : keeps evolves (add_peer i a).
Proof. unfold add_peer. keeps_solve. Qed.
Hint Resolve evolves_guard_change evolves_propose_change evolves_add_peer : keeps.

Lemma evolves_AddNode i a : keeps evolves (AddNode i a).
Proof. apply evolves_guard_change. keeps_solve. Qed.

Lemma evolves_remove_and_step_down i :
  keeps evolves (g ← getg id;
    when (bool_decide (i = server_id_ g)) (BecomeFollowerLocked (current_term_ g))).
Proof. intros w. evolve. Qed.
Hint Resolve evolves_remove_and_step_down : keeps.

Lemma evolves_RemoveNode i : keeps evolves (RemoveNode i).
Proof.
  apply evolves_guard_change. keeps_step; [keeps_solve|]. apply evolves_propose_change.
  keeps_step; [keeps_solve|]. keeps_step; [keeps_solve|]. apply evolves_remove_and_step_down.
Qed.

Lemma evolves_AddLearner i a : keeps evolves (AddLearner i a).
Proof. apply evolves_guard_change. keeps_solve. Qed.

Lemma evolves_PromoteLearner i : keeps evolves (PromoteLearner i).
Proof. apply evolves_guard_change. keeps_solve. Qed.

Lemma evolves_ReadIndex cb r : keeps evolves (ReadIndex cb r).
Proof. intros w. unfold ReadIndex, read_index_leader, read_index_forwarded. evolve. Qed.

Lemma evolves_client_request_begin r cb resp : keeps evolves (client_request_begin r cb resp).
Proof. unfold client_request_begin, client_read_begin, propose_and_wait, add_pending. keeps_solve. apply evolves_ReadIndex. Qed.

Lemma evolves_client_read_end r : keeps evolves (client_read_end r).
Proof. unfold client_read_end. keeps_solve. Qed.

Lemma evolves_client_request_end r a : keeps evolves (client_request_end r a).
Proof. unfold client_request_end. keeps_solve. Qed.

Lemma evolves_propose_waited i r : keeps evolves (propose_waited i r).
Proof. unfold propose_waited. keeps_solve. Qed.

Lemma evolves_Stop : keeps evolves Stop.
Proof. unfold Stop, DoGracefulShutdown. keeps_solve. Qed.

Lemma evolves_TransferLeadershipTo i : keeps evolves (TransferLeadershipTo i).
Proof.
  intros w. unfold TransferLeadershipTo. do 2 evolve_step. repeat (case_match; [by_keeps|]).
  pose proof (silent_SendAppendEntriesToPeer i w) as [Hq _].
  eapply final_bind; [apply _|by apply quiet_evolves|]. intros a w' E. rewrite E in Hq. simpl in Hq.
  eapply final_bind; [apply _| |intros; reflexivity].
  apply evolves_BecomeFollower. destruct Hq as (_&Hv&_). injection Hv as Hv _.
  unfold id. lia.
Qed.

End evolves.
