(* ===== verification/Campaign.v ===== *)
(** * Granting votes and winning elections

    The voter's side: a granted vote is saved before it is sent.  The
    candidate's side: [campaigns] describes every transition of the handlers
    that can start or win an election. *)

From S2P Require Import Prelude Types RaftLog Quorum Sessions RaftGroup Timers Replicate.
From S2P Require Import Membership Apply Election Leader Follower Snapshots NodeCore Frames Votes.

Section campaign.
Context `{!Env}.

(** *** Granting a vote *)

Lemma grant_vote_run c w :
  exists w', grant_vote c w = Done (negb env_persister || env_save_ok (CurrentPersistentState
      ((group_ w) <| voted_for_ := c |>))) w' /\
    server_id_ (group_ w') = server_id_ (group_ w) /\
    vote_of w' = (current_term_ (group_ w), c) /\
    role_ (group_ w') = role_ (group_ w) /\
    votes_received_ (group_ w') = votes_received_ (group_ w) /\
    cluster_config_ (group_ w') = cluster_config_ (group_ w) /\
    disk_vote w' = if env_persister &&
                      (env_save_ok (CurrentPersistentState ((group_ w) <| voted_for_ := c |>)) ||
                       env_save_left (CurrentPersistentState ((group_ w) <| voted_for_ := c |>)))
                   then Some (current_term_ (group_ w), c) else disk_vote w.
Proof.
  unfold grant_vote, ResetElectionTimerLocked, CancelElectionTimerLocked, SaveStateM, getg, putg,
    emit. run. proj_simp.
  destruct env_persister; simpl; run; [|eexists; split; [done|]; done].
  match goal with |- context [env_save_ok ?s] =>
    change s with (CurrentPersistentState ((group_ w) <| voted_for_ := c |>)) end.
  destruct (env_save_ok _), (env_save_left _); run; (eexists; split; [done|]); done.
Qed.

(** What a completed step down leaves behind. *)
Lemma BecomeFollower_done t p w a w' :
  BecomeFollowerLockedImpl t p w = Done a w' ->
  current_term_ (group_ w') = t /\
  voted_for_ (group_ w') = (if decide (current_term_ (group_ w) < t) then -1
                            else voted_for_ (group_ w)) /\
  role_ (group_ w') = FOLLOWER /\
  cluster_config_ (group_ w') = cluster_config_ (group_ w).
Proof.
  unfold BecomeFollowerLockedImpl, getg at 1. rewrite run_bind, run_gets. cbv beta iota.
  rewrite run_bind. destruct (enter_follower t w) as [? w1|] eqn:E; [|done]. intros Hrest.
  match type of Hrest with ?m w1 = _ => assert (keeps silent m) as Hs by keeps_solve end.
  specialize (Hs w1). rewrite Hrest in Hs. destruct Hs as [(_&Hv&Hr&_) Hc].
  simpl in *. injection Hv as -> ->. rewrite Hr, Hc. clear Hrest Hr Hc.
  revert E. unfold enter_follower, getg, putg. run. proj_simp.
  case_bool_decide; simpl; run; intros [= <- <-]; proj_simp; case_decide; done.
Qed.


(** The step down at the start of [HandleRequestVote]. *)
Lemma step_down_run t w :
  let m := when (bool_decide (current_term_ (group_ w) < t)) (BecomeFollowerLocked t) in
  evolves w (final (m w)) /\
  forall a w', m w = Done a w' ->
    t <= current_term_ (group_ w') /\
    cluster_config_ (group_ w') = cluster_config_ (group_ w).
Proof.
  cbv zeta. case_bool_decide; simpl when.
  - split; [apply evolves_BecomeFollower; lia|]. intros a w' E.
    apply BecomeFollower_done in E as (->&_&_&->). done.
  - split; [reflexivity|]. intros a w' [= <- <-]. split; [lia|done].
Qed.

Lemma evolves_grant c w :
  voted_for_ (group_ w) = -1 \/ voted_for_ (group_ w) = c -> evolves w (final (grant_vote c w)).
Proof.
  intros Hv. destruct (grant_vote_run c w) as (w'&->&Hi&Hm&Hr&Hvs&_&Hd). simpl.
  assert (vote_le (vote_of w) (vote_of w')) by (rewrite Hm; right; done).
  split_and!; [done|done| |].
  - destruct (_ && _); rewrite Hd; [right|by left]. eexists. split; [done|].
    rewrite <- Hm. split; [done|reflexivity].
  - right. split_and!; [done| |done]. by injection Hm.
Qed.

(** A vote is granted in the request's own term, to its candidate, and is on
    disk when the answer leaves. *)
Lemma HandleRequestVote_run req w :
  evolves w (final (HandleRequestVote req w)) /\
  forall resp w', HandleRequestVote req w = Done resp w' ->
    cluster_config_ (group_ w') = cluster_config_ (group_ w) /\
    (rvr_vote_granted resp = true ->
     vote_of w' = (rv_term req, rv_candidate_id req) /\
     rvr_term resp = rv_term req /\
     IsVoter (cluster_config_ (group_ w')) (rv_candidate_id req) = true /\
     (env_persister = true -> disk_vote w' = Some (vote_of w'))).
Proof.
  unfold HandleRequestVote, getg. rewrite run_bind, run_gets. cbv beta iota. rewrite run_bind.
  destruct (step_down_run (rv_term req) w) as [Hev Hdone]. simpl in Hev, Hdone.
  destruct (when _ _ w) as [u w1|w1]; [|done]. simpl in Hev.
  destruct (Hdone u w1 eq_refl) as [Hle Hc]. clear Hdone.
  rewrite run_bind, run_gets. cbv beta iota zeta. unfold id.
  destruct (decide (rv_term req < current_term_ (group_ w1))); [by split; [|intros ? ? [= <- <-]]|].
  destruct (IsVoter _ _) eqn:Hvoter; simpl; [|by split; [|intros ? ? [= <- <-]]].
  destruct (up_to_date _ _ _); simpl; [|by split; [|intros ? ? [= <- <-]]].
  destruct (sticky _); [by split; [|intros ? ? [= <- <-]]|].
  destruct (decide (voted_for_ (group_ w1) = -1 \/ _)) as [Hv|]; [|by split; [|intros ? ? [= <- <-]]].
  apply evolves_grant in Hv.
  destruct (grant_vote_run (rv_candidate_id req) w1) as (w2&E&_&Hm&_&_&Hc2&Hd).
  rewrite run_bind, E in *. simpl in *. split; [by transitivity w1|].
  intros resp w' [= <- <-]. simpl. rewrite Hc2, Hm. split; [done|]. intros Hg.
  replace (current_term_ (group_ w1)) with (rv_term req) in * by lia.
  split_and!; [done..|]. intros Hp. rewrite Hd, Hp in *. simpl in *. by rewrite Hg.
Qed.
(** ** Candidates *)

(** What holds of every run of a handler, completed or aborted. *)
Definition moves (w w' : Node) : Prop :=
  server_id_ (group_ w') = server_id_ (group_ w) /\
  vote_le (vote_of w) (vote_of w') /\
  disk_step (vote_of w) (vote_of w') (disk_vote w) (disk_vote w').

#[global] Instance moves_preorder : PreOrder moves.
Proof.
  split.
  - intros w. split_and!; [done|reflexivity|by left].
  - intros w1 w2 w3 (Hi&Hv&Hd) (Hi'&Hv'&Hd'). split_and!; [congruence|by transitivity (vote_of w2)|].
    by eapply disk_step_trans.
Qed.

Lemma evolves_moves w w' : evolves w w' -> moves w w'.
Proof. intros (?&?&?&_). done. Qed.

(** The votes collected in [w'] are a quorum of the membership of [w]. *)
Definition elected (w w' : Node) : Prop :=
  QuorumSatisfied (cluster_config_ (group_ w)) (votes_received_ (group_ w')) = true.

(** How a completed run changes role and votes.  A new candidacy has the
    node's own vote, saved; a new leader has a quorum of votes. *)
Inductive role_step (w w' : Node) : Prop :=
| step_down : role_ (group_ w') = FOLLOWER -> role_step w w'
| stay :
    role_ (group_ w') = role_ (group_ w) ->
    current_term_ (group_ w') = current_term_ (group_ w) ->
    votes_received_ (group_ w') = votes_received_ (group_ w) -> role_step w w'
| win :
    role_ (group_ w) = CANDIDATE -> role_ (group_ w') = LEADER ->
    current_term_ (group_ w') = current_term_ (group_ w) ->
    votes_received_ (group_ w') = votes_received_ (group_ w) ->
    elected w w' -> role_step w w'
| run_for :
    current_term_ (group_ w) < current_term_ (group_ w') ->
    role_ (group_ w') <> FOLLOWER ->
    votes_received_ (group_ w') = {[server_id_ (group_ w')]} ->
    voted_for_ (group_ w') = server_id_ (group_ w') ->
    disk_vote w' = Some (vote_of w') ->
    (role_ (group_ w') = LEADER -> elected w w') -> role_step w w'.

Lemma silent_moves w w' : silent w w' -> moves w w'.
Proof. intros [Hq _]. by apply evolves_moves, quiet_evolves. Qed.

Lemma silent_disk w w' :
  silent w w' -> disk_vote w = Some (vote_of w) -> disk_vote w' = Some (vote_of w').
Proof. intros [(_&Hv&_&_&[Hd|Hd]) _] ?; congruence. Qed.

(** [BecomeLeaderLocked] changes the role; the rest of it is silent. *)
Lemma BecomeLeader_run w :
  silent (w <| group_ ::= fun g => g <| role_ := LEADER |> |>) (final (BecomeLeaderLocked w)).
Proof.
  unfold BecomeLeaderLocked. rewrite run_bind, run_getg, run_bind, run_putg.
  match goal with |- silent _ (final (?m _)) => enough (keeps silent m) as Hm by apply Hm end.
  keeps_solve.
Qed.

Lemma persist_done w a w' :
  env_persister = true -> persist_or_abort w = Done a w' ->
  silent w w' /\ disk_vote w' = Some (vote_of w').
Proof.
  intros Hp. pose proof (silent_persist_or_abort w) as Hs. revert Hs.
  unfold persist_or_abort, SaveStateM, getg, emit. rewrite Hp. simpl. run.
  destruct (env_save_ok _); [|destruct (env_save_left _)]; run; intros Hs; try done. by intros [= <- <-].
Qed.
Lemma enter_candidate_run w :
  exists w', enter_candidate w = Done tt w' /\
    server_id_ (group_ w') = server_id_ (group_ w) /\
    cluster_config_ (group_ w') = cluster_config_ (group_ w) /\
    vote_of w' = (u32 (current_term_ (group_ w) + 1), server_id_ (group_ w)) /\
    votes_received_ (group_ w') = {[server_id_ (group_ w)]} /\
    role_ (group_ w') = CANDIDATE /\
    disk_vote w' = disk_vote w.
Proof. eexists. split; [done|]. done. Qed.

(** A step that follows a change of role and is [evolves] itself. *)
Lemma role_step_evolves w w1 w2 :
  server_id_ (group_ w) <> -1 ->
  moves w w1 -> role_step w w1 -> evolves w1 w2 -> role_step w w2.
Proof.
  intros Hid (Hi1&_&_) Hs (Hi&Hv&Hd&[Hf|(Hr&Ht&Hvs)]); [by apply step_down|].
  destruct Hs as [Hf|Hr1 Ht1 Hvs1|Hc Hl Ht1 Hvs1 He|Ht1 Hr1 Hvs1 Hself Hdisk He].
  - apply step_down. congruence.
  - apply stay; congruence.
  - unfold elected in He. apply win; unfold elected; congruence.
  - assert (vote_of w2 = vote_of w1) as Hm.
    { unfold vote_le, vote_of in *. simpl in *. destruct Hv as [|[_ [Hv|Hv]]]; [lia|congruence|].
      congruence. }
    apply run_for; try congruence.
    + unfold vote_of in Hm. congruence.
    + destruct Hd as [->|(v&->&Hv1&Hv2)]; [congruence|]. f_equal. rewrite Hm in *.
      unfold vote_le, vote_of in *. destruct v as [t v]. simpl in *.
      f_equal; [lia|]. rewrite Hself in *. lia.
    + intros Hl. unfold elected in *. rewrite Hvs. apply He. congruence.
Qed.

(** What is promised of a run that may campaign. *)
Definition campaigns {A} (w : Node) (o : Outcome Node A) : Prop :=
  moves w (final o) /\ forall a w', o = Done a w' -> role_step w w'.

Lemma evolves_campaigns {A} w (o : Outcome Node A) : evolves w (final o) -> campaigns w o.
Proof.
  intros Hev. split; [by apply evolves_moves|]. intros a w' ->. simpl in Hev.
  destruct Hev as (_&_&_&[?|(?&?&?)]); [by apply step_down | by apply stay].
Qed.

Lemma campaigns_bind {A B} w (m : M A) (k : A -> M B) :
  server_id_ (group_ w) <> -1 ->
  campaigns w (m w) -> (forall a, keeps evolves (k a)) -> campaigns w ((m ≫= k) w).
Proof.
  intros Hid [Hm Hr] Hk. rewrite run_bind. destruct (m w) as [a w1|w1]; [|by split].
  specialize (Hr a w1 eq_refl). simpl in Hm. pose proof (Hk a w1) as He. split.
  - transitivity w1; [done|]. by apply evolves_moves.
  - intros b w2 E. rewrite E in He. by eapply role_step_evolves.
Qed.
Lemma campaigns_after {A} w w1 (o : Outcome Node A) :
  silent w w1 -> campaigns w1 o -> campaigns w o.
Proof.
  intros Hs [Hm Hr]. split; [transitivity w1; [by apply silent_moves|done]|].
  intros a w' E. specialize (Hr a w' E). destruct Hs as [(_&Hv&Hrl&Hvs&_) Hc].
  injection Hv as Ht _.
  destruct Hr as [?|???|?????|??????]; [apply step_down|apply stay|apply win|apply run_for];
    unfold elected in *; first [congruence | lia | rewrite <- Hc; done].
Qed.

Lemma campaigns_silent_bind {A B} w (m : M A) (k : A -> M B) :
  keeps silent m -> (forall a w1, silent w w1 -> campaigns w1 (k a w1)) ->
  campaigns w ((m ≫= k) w).
Proof.
  intros Hm Hk. specialize (Hm w). rewrite run_bind. destruct (m w) as [a w1|w1].
  - apply (campaigns_after w w1); [done|]. by apply Hk.
  - split; [by apply silent_moves|done].
Qed.

Lemma silent_vote w w' : silent w w' -> vote_of w' = vote_of w.
Proof. by intros [(_&?&_) _]. Qed.

Lemma silent_term w w' :
  silent w w' -> current_term_ (group_ w') = current_term_ (group_ w).
Proof. intros Hs%silent_vote. by injection Hs. Qed.

(** A saved candidacy for a new term. *)
Record candidacy (w w1 : Node) : Prop := mkCandidacy {
  ca_moves : moves w w1;
  ca_config : cluster_config_ (group_ w1) = cluster_config_ (group_ w);
  ca_term : current_term_ (group_ w) < current_term_ (group_ w1);
  ca_role : role_ (group_ w1) = CANDIDATE;
  ca_votes : votes_received_ (group_ w1) = {[server_id_ (group_ w1)]};
  ca_self : voted_for_ (group_ w1) = server_id_ (group_ w1);
  ca_disk : disk_vote w1 = Some (vote_of w1)
}.

Lemma candidacy_silent w w1 w2 : candidacy w w1 -> silent w1 w2 -> candidacy w w2.
Proof.
  intros [? ? ? ? ? ? Hd] Hs. pose proof (silent_disk _ _ Hs Hd).
  pose proof (silent_moves _ _ Hs). destruct Hs as [(?&Hm&?&?&_) ?]. injection Hm as ??.
  split; try congruence; by transitivity w1.
Qed.

Lemma candidacy_step w w1 : candidacy w w1 -> role_step w w1.
Proof. intros [? ? ? Hr ? ? ?]. apply run_for; congruence. Qed.

Lemma candidacy_wins w w1 w2 :
  candidacy w w1 -> elected w w1 -> silent (w1 <| group_ ::= fun g => g <| role_ := LEADER |> |>) w2 ->
  moves w w2 /\ role_step w w2.
Proof.
  intros [Hmv ? ? ? ? ? Hd] He Hs. pose proof (silent_disk _ _ Hs Hd).
  split; [transitivity w1; [done|exact (silent_moves _ _ Hs)]|].
  destruct Hs as [(?&Hm&?&?&_) ?]. injection Hm as ??. unfold elected in *.
  apply run_for; simpl in *; unfold elected; congruence.
Qed.

(** The end of [BecomeCandidateLocked]: win at once or ask for votes. *)
Lemma candidacy_rest w w1 (old_role : RaftNodeRole) :
  candidacy w w1 ->
  campaigns w ((publish_role old_role ;; call_role old_role ;;
    votes ← getg votes_received_;
    quorum ← ElectionQuorumSatisfiedLocked votes;
    if (quorum : bool) then BecomeLeaderLocked
    else BroadcastRequestVoteLocked ;; ResetElectionTimerLocked) w1).
Proof.
  intros Hca. pose proof (silent_publish_role old_role w1) as Hs. rewrite run_bind.
  destruct (publish_role _ w1) as [? w2|?]; simpl in Hs; apply (candidacy_silent _ _ _ Hca) in Hs;
    [clear w1 Hca|split; [apply Hs|done]].
  pose proof (silent_call_role old_role w2) as Hs'. rewrite run_bind.
  destruct (call_role _ w2) as [? w3|?]; simpl in Hs'; apply (candidacy_silent _ _ _ Hs) in Hs';
    [clear w2 Hs|split; [apply Hs'|done]].
  unfold ElectionQuorumSatisfiedLocked. rewrite run_bind, run_getg, run_bind, run_getg.
  destruct (QuorumSatisfied _ _) eqn:Hq.
  - pose proof (BecomeLeader_run w3) as Hl. apply (candidacy_wins w) in Hl as [Hm Hr]; [|done|].
    + split; [done|]. intros ? w' E. by rewrite E in Hr.
    + unfold elected. by rewrite <- (ca_config _ _ Hs').
  - match goal with |- campaigns _ (?m _) => assert (keeps silent m) as Hk by keeps_solve end.
    specialize (Hk w3). apply (candidacy_silent _ _ _ Hs') in Hk. split; [apply Hk|].
    intros ? w' E. rewrite E in Hk. by apply candidacy_step.
Qed.

Lemma BecomeCandidate_campaigns w :
  env_persister = true -> 0 <= current_term_ (group_ w) < UINT32_MAX ->
  campaigns w (BecomeCandidateLocked w).
Proof.
  intros Hp Ht. unfold BecomeCandidateLocked. rewrite run_bind, run_getg, run_bind.
  destruct (enter_candidate_run w) as (w1&->&Hi&Hc&Hm&Hvs&Hr&Hd).
  rewrite u32_small in Hm by (unfold UINT32_MAX in *; lia).
  assert (moves w w1) as Hmv.
  { split_and!; [done| |by left]. left. rewrite Hm. simpl. lia. }
  pose proof (silent_persist_or_abort w1) as Hs1. rewrite run_bind.
  destruct (persist_or_abort w1) as [u w2|w2] eqn:E2; simpl in Hs1;
    [|split; [transitivity w1; [done|by apply silent_moves]|done]].
  destruct (persist_done _ _ _ Hp E2) as [_ Hd2]. apply candidacy_rest.
  pose proof (silent_moves _ _ Hs1). destruct Hs1 as [(?&Hm2&?&?&_) ?].
  rewrite Hm in Hm2. injection Hm2 as ??. split; try congruence; [by transitivity w1|lia].
Qed.

(** ** The handlers that campaign *)

(** Past one silent step, keeping a fact [Ht] about the current term. *)
Ltac campaign_step Ht :=
  match goal with
  | |- campaigns ?w _ =>
      apply campaigns_silent_bind; [keeps_solve|];
      let w1 := fresh "w" in let Hs := fresh in
      intros ? w1 Hs; rewrite <- (silent_term _ _ Hs) in Ht; clear Hs
  end.

Lemma start_election_campaigns w :
  env_persister = true -> 0 <= current_term_ (group_ w) < UINT32_MAX ->
  campaigns w (start_election w).
Proof.
  intros Hp Ht. unfold start_election. rewrite run_bind, run_getg.
  destruct (negb _); [by apply BecomeCandidate_campaigns|]. unfold start_pre_vote.
  do 5 campaign_step Ht.
  destruct a3.
  - campaign_step Ht. by apply BecomeCandidate_campaigns.
  - apply evolves_campaigns.
    match goal with |- evolves _ (final (?m _)) => enough (keeps evolves m) as Hm by apply Hm end.
    keeps_solve.
Qed.

Lemma OnElectionTimeout_campaigns w :
  env_persister = true -> 0 <= current_term_ (group_ w) < UINT32_MAX ->
  campaigns w (OnElectionTimeoutLocked w).
Proof.
  intros Hp Ht. unfold OnElectionTimeoutLocked.
  do 2 campaign_step Ht.
  destruct (negb _); [by apply evolves_campaigns|].
  destruct (decide _); [by apply evolves_campaigns|].
  campaign_step Ht.
  match goal with q : bool |- context [if ?b then _ else _] => destruct b end; [|by apply start_election_campaigns].
  do 3 campaign_step Ht.
  destruct (decide _).
  - campaign_step Ht. by apply start_election_campaigns.
  - apply evolves_campaigns, quiet_evolves. apply silent_ResetElectionTimer.
Qed.

Lemma HandlePreVoteResponse_campaigns from resp t w :
  env_persister = true -> 0 <= current_term_ (group_ w) < UINT32_MAX ->
  campaigns w (HandlePreVoteResponse from resp t w).
Proof.
  intros Hp Ht. unfold HandlePreVoteResponse. campaign_step Ht. rewrite run_bind, run_getg.
  unfold id. destruct (negb a); [by apply evolves_campaigns|].
  destruct (negb _); [by apply evolves_campaigns|].
  destruct (decide _); [by apply evolves_campaigns|].
  destruct (decide _); [by apply evolves_campaigns|].
  destruct (decide _) as [Hlt|].
  { do 2 campaign_step Hlt. apply evolves_campaigns, evolves_BecomeFollower. lia. }
  destruct (pvr_vote_granted resp); [|by apply evolves_campaigns].
  do 4 campaign_step Ht. destruct a3; simpl when; [|by apply evolves_campaigns].
  do 3 campaign_step Ht. by apply BecomeCandidate_campaigns.
Qed.

Lemma OnStoreTick_campaigns w :
  env_persister = true -> 0 <= current_term_ (group_ w) < UINT32_MAX ->
  server_id_ (group_ w) <> -1 ->
  campaigns w (OnStoreTick w).
Proof.
  intros Hp Ht Hid. unfold OnStoreTick. rewrite run_bind. unfold IsRunning. rewrite run_gets.
  destruct (negb _); [by apply evolves_campaigns|]. rewrite run_bind, run_getg.
  apply campaigns_bind; [done| |].
  - destruct (_ && _); simpl when; [by apply OnElectionTimeout_campaigns|by apply evolves_campaigns].
  - intros _. pose proof evolves_CheckHeartbeatTimeout. pose proof evolves_CheckSnapshotTimeout.
    keeps_solve.
Qed.

(** A vote response is ignored, makes the node step down, or adds the voter
    to the votes of the term it was asked in. *)
Lemma HandleRequestVoteResponse_run from resp t w :
  let o := HandleRequestVoteResponse from resp t w in
  evolves w (final o) \/
  (rvr_vote_granted resp = true /\ role_ (group_ w) = CANDIDATE /\
   t = current_term_ (group_ w) /\
   moves w (final o) /\
   current_term_ (group_ (final o)) = current_term_ (group_ w) /\
   votes_received_ (group_ (final o)) = {[from]} ∪ votes_received_ (group_ w) /\
   (role_ (group_ (final o)) = CANDIDATE \/
    role_ (group_ (final o)) = LEADER /\ elected w (final o))).
Proof.
  cbv zeta. unfold HandleRequestVoteResponse, IsRunning.
  rewrite run_bind, run_gets, run_bind, run_getg. unfold id.
  destruct (negb _); [by left|].
  destruct (decide _) as [|Hr]; [by left|].
  destruct (decide _) as [|Hle]; [left; apply evolves_BecomeFollower; lia|].
  destruct (decide _) as [|Ht]; [by left|]. destruct (decide _); [by left|].
  destruct (rvr_vote_granted resp); [|by left]. right.
  unfold ElectionQuorumSatisfiedLocked. run. proj_simp.
  match goal with |- context [when _ _ ?s] => set (w1 := s) end.
  assert (role_ (group_ w) = CANDIDATE) as Hc by exact (dec_stable Hr).
  apply dec_stable in Ht.
  destruct (QuorumSatisfied _ _) eqn:Hq; simpl when.
  - pose proof (BecomeLeader_run w1) as Hl. pose proof (silent_moves _ _ Hl) as Hm.
    destruct Hl as [(_&Hv&Hr2&Hvs&_) _]. injection Hv as Ht2 _.
    split_and!; [done|done|done|exact Hm|exact Ht2|exact Hvs|]. right. split; [exact Hr2|].
    unfold elected. by rewrite Hvs.
  - split_and!; [done|done|done| |done|done|by left].
    split_and!; [done|reflexivity|by left].
Qed.

End campaign.
