(* ===== verification/Cluster.v ===== *)
(** * A cluster of nodes: at most one leader per term

    The composition of the handlers into a distributed system.  Processes run
    one handler at a time, in any order; a process that aborts or crashes keeps
    only what its persister saved and starts again with [Start]; requests are
    arbitrary, vote responses are those that some process gave, and may be
    delayed, duplicated or lost.  The membership is a fixed configuration [C],
    which nodes may list in different orders (steps that change it are outside
    the relation), and every node has a
    persister.  Terms stay below the largest [uint32_t]. *)

From S2P Require Import Prelude Types RaftLog Quorum Sessions RaftGroup Timers Replicate.
From S2P Require Import Membership Apply Election Leader Follower Snapshots NodeCore Frames Votes.
From S2P Require Import Campaign.

(** ** Events *)

(** What can happen at a running node, the two sides of RequestVote apart. *)
Inductive Event :=
| EvTick
| EvElectionTimeout
| EvPreVoteTimeout
| EvPreVote (req : PreVoteRequest)
| EvPreVoteResponse (from : NodeId) (resp : PreVoteResponse) (t : Term)
| EvAppend1 (req : AppendEntriesRequest)
| EvAppend2 (req : AppendEntriesRequest) (t : Term)
| EvAppendResponse (from : NodeId) (resp : AppendEntriesResponse)
| EvHeartbeatResponse (from : NodeId) (resp : AppendEntriesResponse)
| EvAppendFailed (peer : NodeId) (is_heartbeat : bool)
| EvRetryAppend (peer : NodeId)
| EvInstall1 (req : InstallSnapshotRequest)
| EvInstall2 (req : InstallSnapshotRequest)
| EvInstallDone (path : string) (index : Index) (term : Term)
| EvInstallResponse (from : NodeId) (resp : InstallSnapshotResponse) (ok : bool)
| EvPrepareSnapshot (peer : NodeId)
| EvRetryChunk (peer : NodeId)
| EvTriggerSnapshot
| EvReadIndexRequest
| EvReadIndexResponse (from read_id : Z) (resp : AppendEntriesResponse)
| EvApply
| EvPersisted (index : Index) (status : Status)
| EvPropose (command : string) (cb : Callback) (session_id seq : Z)
| EvProposeBatch (commands : list string) (cb : nat -> Z)
| EvReadIndex (cb : Callback) (resp : string + bool * Index * Term)
| EvClientBegin (req : ClientRequest) (cb : Z) (resp : string + bool * Index * Term)
| EvClientReadEnd (query_result : option ApplyResult)
| EvClientWaited (index : Index) (result : option ApplyResult)
| EvClientEnd (req : ClientRequest) (result : ApplyResult)
| EvAddNode (id : NodeId) (addr : NodeAddr)
| EvRemoveNode (id : NodeId)
| EvAddLearner (id : NodeId) (addr : NodeAddr)
| EvPromoteLearner (id : NodeId)
| EvTransfer (id : NodeId)
| EvStop.

Definition ignore {A} (m : M A) : M unit := m ;; mret tt.

Definition run_event `{!Env} (e : Event) : M unit :=
  match e with
  | EvTick => OnStoreTick
  | EvElectionTimeout => OnElectionTimeoutLocked
  | EvPreVoteTimeout => OnPreVoteTimeout
  | EvPreVote req => ignore (HandlePreVote req)
  | EvPreVoteResponse from resp t => HandlePreVoteResponse from resp t
  | EvAppend1 req => ignore (append_phase1 req)
  | EvAppend2 req t => ignore (append_phase2 req t)
  | EvAppendResponse from resp => HandleAppendEntriesResponse from resp
  | EvHeartbeatResponse from resp => HandleHeartbeatResponse from resp
  | EvAppendFailed peer hb => ScheduleAppendEntriesRetry peer hb
  | EvRetryAppend peer => OnRetryAppendEntries peer
  | EvInstall1 req => ignore (install_phase1 req)
  | EvInstall2 req => ignore (install_phase2 req)
  | EvInstallDone path index term => install_done path index term
  | EvInstallResponse from resp ok => HandleInstallSnapshotResponse from resp ok
  | EvPrepareSnapshot peer => PrepareSnapshotForPeer peer
  | EvRetryChunk peer => OnRetrySnapshotChunk peer
  | EvTriggerSnapshot => ignore TriggerSnapshot
  | EvReadIndexRequest => ignore HandleReadIndexRequest
  | EvReadIndexResponse from read_id resp => OnReadIndexResponse from read_id resp
  | EvApply => ignore ApplyLoop
  | EvPersisted index status => OnLogEntryPersisted index status
  | EvPropose command cb sid seq => ignore (Propose command cb sid seq)
  | EvProposeBatch commands cb => ignore (ProposeBatch commands cb)
  | EvReadIndex cb resp => ignore (ReadIndex cb resp)
  | EvClientBegin req cb resp => ignore (client_request_begin req cb resp)
  | EvClientReadEnd r => ignore (client_read_end r)
  | EvClientWaited index result => ignore (propose_waited index result)
  | EvClientEnd req result => ignore (client_request_end req result)
  | EvAddNode id addr => ignore (AddNode id addr)
  | EvRemoveNode id => ignore (RemoveNode id)
  | EvAddLearner id addr => ignore (AddLearner id addr)
  | EvPromoteLearner id => ignore (PromoteLearner id)
  | EvTransfer id => ignore (TransferLeadershipTo id)
  | EvStop => ignore Stop
  end.

(** ** The cluster *)

Inductive Proc :=
| Up (w : Node)
| Down (disk : option PersistentState).

Record VoteAnswer := mkVoteAnswer {
  va_voter : NodeId;
  va_candidate : NodeId;
  va_term : Term;
  va_resp : RequestVoteResponse
}.

(** [votes] and [leaders] are history: every vote given, a candidate's own
    included, and every (term, node) that was seen leading. *)
Record Cluster := mkCluster {
  procs : gmap Z Proc;
  answers : list VoteAnswer;
  votes : gset (Z * Z * Z);
  leaders : gset (Z * Z)
}.

Definition proc_disk (p : Proc) : option PersistentState :=
  match p with Up w => disk_ w | Down d => d end.

Definition proc_vote (p : Proc) : option (Term * NodeId) := saved_vote <$> proc_disk p.

Definition after {A} (o : Outcome Node A) : Proc :=
  match o with Done _ w => Up w | Aborted w => Down (disk_ w) end.

Definition after_start (o : Outcome Node Status) : Proc :=
  match o with
  | Done StOK w => Up w
  | Done _ w => Down (disk_ w)
  | Aborted w => Down (disk_ w)
  end.

(** What a process shows of its candidacy and of its leadership. *)
Definition own_vote (i : Z) (p : Proc) : gset (Z * Z * Z) :=
  match p with
  | Up w => if decide (role_ (group_ w) = FOLLOWER) then ∅ else {[(i, current_term_ (group_ w), i)]}
  | Down _ => ∅
  end.

Definition own_lead (i : Z) (p : Proc) : gset (Z * Z) :=
  match p with
  | Up w => if decide (role_ (group_ w) = LEADER) then {[(current_term_ (group_ w), i)]} else ∅
  | Down _ => ∅
  end.

Definition granted_vote (a : VoteAnswer) : gset (Z * Z * Z) :=
  if rvr_vote_granted (va_resp a) then {[(va_voter a, va_term a, va_candidate a)]} else ∅.

(** Process [i] is now [p] and has given the answers [new]. *)
Definition advance (s : Cluster) (i : Z) (p : Proc) (new : list VoteAnswer) : Cluster :=
  mkCluster (<[i := p]> (procs s)) (answers s ++ new)
    (votes s ∪ own_vote i p ∪ ⋃ (granted_vote <$> new))
    (leaders s ∪ own_lead i p).

Definition config_is (C : ClusterConfig) (p : Proc) : Prop :=
  match p with Up w => same_members (cluster_config_ (group_ w)) C | Down _ => True end.

Definition answer_of (i : Z) (req : RequestVoteRequest) (o : Outcome Node RequestVoteResponse)
    : list VoteAnswer :=
  match o with
  | Done resp _ => [mkVoteAnswer i (rv_candidate_id req) (rv_term req) resp]
  | Aborted _ => []
  end.

Definition fresh (i : Z) (d : option PersistentState) (w : Node) : Prop :=
  server_id_ (group_ w) = i /\ vote_of w = (0, -1) /\ role_ (group_ w) = FOLLOWER /\
  state_ w = kInitialized /\ disk_ w = d.

Definition term_small (w : Node) : Prop := 0 <= current_term_ (group_ w) < UINT32_MAX.

Inductive step (C : ClusterConfig) (s : Cluster) : Cluster -> Prop :=
| step_event (E : Env) i w e :
    procs s !! i = Some (Up w) -> env_persister = true -> term_small w ->
    config_is C (after (run_event e w)) ->
    step C s (advance s i (after (run_event e w)) [])
| step_vote (E : Env) i w req :
    procs s !! i = Some (Up w) -> env_persister = true ->
    config_is C (after (HandleRequestVote req w)) ->
    step C s (advance s i (after (HandleRequestVote req w))
                (answer_of i req (HandleRequestVote req w)))
| step_answer (E : Env) i w a :
    procs s !! i = Some (Up w) -> env_persister = true ->
    a ∈ answers s -> va_candidate a = i ->
    config_is C (after (HandleRequestVoteResponse (va_voter a) (va_resp a) (va_term a) w)) ->
    step C s (advance s i
                (after (HandleRequestVoteResponse (va_voter a) (va_resp a) (va_term a) w)) [])
| step_crash i w :
    procs s !! i = Some (Up w) ->
    step C s (advance s i (Down (disk_ w)) [])
| step_start (E : Env) i d w sa :
    procs s !! i = Some (Down d) -> env_persister = true -> fresh i d w ->
    sa_load sa = d ->
    config_is C (after_start (Start sa w)) ->
    step C s (advance s i (after_start (Start sa w)) []).

(** At first every node of the list is down and has saved nothing. *)
Definition cluster_init (ids : list Z) : Cluster :=
  mkCluster (list_to_map ((fun i => (i, Down None)) <$> ids)) [] ∅ ∅.

Inductive reachable (C : ClusterConfig) (ids : list Z) : Cluster -> Prop :=
| reach_init : reachable C ids (cluster_init ids)
| reach_step s s' : reachable C ids s -> step C s s' -> reachable C ids s'.

(** ** Every event is [campaigns] *)

Section events.
Context `{!Env}.

Lemma evolves_ignore {A} (m : M A) : keeps evolves m -> keeps evolves (ignore m).
Proof. intros ?. unfold ignore. keeps_solve. Qed.

#[local] Hint Resolve evolves_HandlePreVote evolves_append_phase1 evolves_append_phase2
  evolves_HandleAppendEntriesResponse evolves_HandleHeartbeatResponse evolves_OnRetryAppendEntries
  evolves_install_phase1 evolves_install_phase2 evolves_install_done
  evolves_HandleInstallSnapshotResponse evolves_PrepareSnapshotForPeer
  evolves_OnRetrySnapshotChunk evolves_TriggerSnapshot evolves_HandleReadIndexRequest
  evolves_OnLogEntryPersisted evolves_Propose evolves_ProposeBatch evolves_ReadIndex
  evolves_client_request_begin evolves_client_read_end evolves_propose_waited evolves_client_request_end evolves_AddNode
  evolves_RemoveNode evolves_AddLearner evolves_PromoteLearner evolves_TransferLeadershipTo
  evolves_Stop evolves_ignore : keeps.

Lemma run_event_campaigns e w :
  env_persister = true -> term_small w -> server_id_ (group_ w) <> -1 ->
  campaigns w (run_event e w).
Proof.
  intros Hp Ht Hid. unfold term_small in Ht.
  assert (forall m : M unit, keeps evolves m -> campaigns w (m w)) as Hev.
  { intros m Hm. by apply evolves_campaigns. }
  destruct e; simpl;
    [by apply OnStoreTick_campaigns|by apply OnElectionTimeout_campaigns|
     |
     |by apply HandlePreVoteResponse_campaigns|..]; apply Hev; auto with keeps.
Qed.

(** *** Starting *)

Lemma vote_le_antisym a b : vote_le a b -> vote_le b a -> a = b.
Proof. destruct a, b. unfold vote_le. simpl. intros. f_equal; lia. Qed.

(** [w1] is what a start from [w] may have reached: the saved vote is taken
    up, and nothing else was saved. *)
Definition booting (w w1 : Node) : Prop :=
  let v := default (vote_of w) (disk_vote w) in
  server_id_ (group_ w1) = server_id_ (group_ w) /\ vote_of w1 = v /\
  (disk_vote w1 = disk_vote w \/ disk_vote w1 = Some v).

Lemma booting_quiet w w1 w2 : booting w w1 -> quiet w1 w2 -> booting w w2.
Proof.
  intros (Hi&Hv&Hd) (Hi'&Hv'&_&_&Hd'). unfold booting. split_and!; [congruence..|].
  destruct Hd' as [->| ->]; [done|]. right. congruence.
Qed.

(** [LoadState] reads what is saved. *)
Lemma restore_state_run sa w :
  sa_load sa = disk_ w -> exists w1, restore_state sa w = Done tt w1 /\ booting w w1.
Proof.
  intros Hl. unfold restore_state, booting, disk_vote. rewrite Hl.
  destruct (disk_ w) as [d|] eqn:E; run; eexists; (split; [done|]); proj_simp; rewrite E; simpl;
    split_and!; auto.
Qed.

Lemma quiet_restore_snapshot sa : keeps quiet (restore_snapshot sa).
Proof. unfold restore_snapshot. keeps_solve. Qed.

Lemma quiet_restore_entries sa : keeps quiet (restore_entries sa).
Proof. unfold restore_entries. keeps_solve. Qed.

Lemma quiet_start_failed st : keeps quiet (start_failed st).
Proof. unfold start_failed. keeps_solve. Qed.

(** The disk of a start that stopped on the way, and the state of one that
    went through. *)
Definition started (w : Node) (o : Outcome Node Status) : Prop :=
  let v := default (vote_of w) (disk_vote w) in
  (disk_vote (final o) = disk_vote w \/ disk_vote (final o) = Some v) /\
  forall w', o = Done StOK w' -> booting w w' /\ role_ (group_ w') = FOLLOWER.

Lemma start_failed_started w w1 c msg :
  booting w w1 \/ disk_vote w1 = disk_vote w -> started w (start_failed (StErr c msg) w1).
Proof.
  intros Hb. split; [|by intros w' [=]]. simpl.
  change (disk_vote w1 = disk_vote w \/ disk_vote w1 = Some (default (vote_of w) (disk_vote w))).
  destruct Hb as [(_&_&?)|?]; auto.
Qed.

Lemma enter_follower_same w :
  exists w1, enter_follower (current_term_ (group_ w)) w = Done tt w1 /\ vote_of w1 = vote_of w.
Proof.
  unfold enter_follower. run. proj_simp. rewrite bool_decide_false by lia. simpl when. run.
  by eexists.
Qed.

Lemma BecomeFollower_same_term p w :
  let w' := final (BecomeFollowerLockedImpl (current_term_ (group_ w)) p w) in
  vote_of w' = vote_of w /\ (disk_vote w' = disk_vote w \/ disk_vote w' = Some (vote_of w)).
Proof.
  cbv zeta. pose proof (evolves_BecomeFollower w (current_term_ (group_ w)) p ltac:(lia)) as Hev.
  assert (vote_of (final (BecomeFollowerLockedImpl (current_term_ (group_ w)) p w)) = vote_of w)
    as Hv.
  { unfold BecomeFollowerLockedImpl. rewrite run_bind, run_getg, run_bind.
    destruct (enter_follower_same w) as (w1&->&<-).
    match goal with |- vote_of (final (?m _)) = _ =>
      assert (keeps silent m) as Hs by keeps_solve; specialize (Hs w1) end.
    exact (silent_vote _ _ Hs). }
  split; [done|]. destruct Hev as (_&_&Hd&_). rewrite Hv in Hd.
  destruct Hd as [?|(d&?&?&?)]; [by left|]. right. rewrite (vote_le_antisym (vote_of w) d); done.
Qed.

Lemma start_services_started sa w w1 : booting w w1 -> started w (start_services sa w1).
Proof.
  intros Hb. unfold start_services, remove_received_files. rewrite run_bind, run_modify.
  match goal with |- started w (_ ?x) => assert (booting w x) as Hb1 by exact Hb; clear Hb;
    set (w1' := x) in *; clearbody w1'; rename Hb1 into Hb; clear w1; rename w1' into w1 end.
  destruct (sa_network sa); [|apply start_failed_started; by left].
  rewrite run_bind, run_getg, run_bind.
  pose proof (evolves_BecomeFollower w1 (current_term_ (group_ w1)) true ltac:(lia)) as (Hi&_).
  destruct (BecomeFollower_same_term true w1) as [Hv Hd].
  unfold BecomeFollowerLocked.
  destruct (BecomeFollowerLockedImpl _ _ w1) as [[] w2|w2] eqn:E; simpl in Hv, Hd, Hi.
  - destruct (BecomeFollower_done _ _ _ _ _ E) as (_&_&Hr&_).
    assert (booting w w2) as Hb2.
    { destruct Hb as (?&?&?). split_and!; [congruence..|]. destruct Hd as [Hd|Hd]; [by rewrite Hd|right; congruence]. }
    split; [apply Hb2|]. intros w' [= <-]. split; [exact Hb2|exact Hr].
  - split; [|done]. destruct Hb as (_&?&?). simpl. destruct Hd as [Hd|Hd]; [by rewrite Hd|right; congruence].
Qed.

(** A node that starts takes up the vote it had saved. *)
Lemma Start_started sa w : env_persister = true -> sa_load sa = disk_ w -> started w (Start sa w).
Proof.
  intros Hp Hload. unfold Start. rewrite run_bind, run_gets. destruct (decide _).
  { split; [by left|done]. }
  rewrite run_bind, run_modify, Hp. cbv [negb].
  set (w0 := w <| state_ := kRunning |>).
  assert (forall o, started w0 o -> started w o) as Hw by done. apply Hw. clear Hw.
  destruct (sa_open sa); [|apply start_failed_started; by right].
  destruct (restore_state_run sa w0 Hload) as (w1&E&Hb). rewrite run_bind, E. clear E.
  pose proof (quiet_restore_snapshot sa w1) as Hq. rewrite run_bind.
  destruct (restore_snapshot sa w1) as [[err|] w2|w2] eqn:E2; simpl in Hq.
  - apply (booting_quiet _ _ _ Hb) in Hq. assert (exists c m, err = StErr c m) as (c&m&->).
    { revert E2. unfold restore_snapshot. repeat case_match; run; try done; intros [= <- _];
        unfold Error1, mkStatus; eauto. }
    apply start_failed_started. by left.
  - apply (booting_quiet _ _ _ Hb) in Hq. rewrite run_bind.
    pose proof (quiet_restore_entries sa w2) as Hq3.
    destruct (restore_entries sa w2) as [? w3|w3] eqn:E3; [|done]. simpl in Hq3.
    apply start_services_started. by eapply booting_quiet.
  - apply (booting_quiet _ _ _ Hb) in Hq. split; [apply Hq|done].
Qed.

End events.

(** ** The invariant *)

Record node_ok (C : ClusterConfig) (V : gset (Z * Z * Z)) (i : Z) (w : Node) : Prop := mkNodeOk {
  no_id : server_id_ (group_ w) = i;
  no_config : same_members (cluster_config_ (group_ w)) C;
  no_disk : forall d, disk_vote w = Some d -> vote_le d (vote_of w);
  no_self : role_ (group_ w) <> FOLLOWER -> voted_for_ (group_ w) = i;
  no_own : role_ (group_ w) <> FOLLOWER -> (i, current_term_ (group_ w), i) ∈ V;
  no_votes : role_ (group_ w) <> FOLLOWER ->
    forall v, v ∈ votes_received_ (group_ w) -> (v, current_term_ (group_ w), i) ∈ V;
  no_quorum : role_ (group_ w) = LEADER ->
    QuorumSatisfied C (votes_received_ (group_ w)) = true
}.

Definition proc_ok (C : ClusterConfig) (V : gset (Z * Z * Z)) (i : Z) (p : Proc) : Prop :=
  match p with Up w => node_ok C V i w | Down _ => True end.

(** A vote that was given binds its voter: the saved pair is that vote or of a
    later term, and there is no other vote of the same term. *)
Record inv (C : ClusterConfig) (s : Cluster) : Prop := mkInv {
  inv_bound : forall v t c, (v, t, c) ∈ votes s ->
    c <> -1 /\ exists p d, procs s !! v = Some p /\ proc_vote p = Some d /\ (t < d.1 \/ d = (t, c));
  inv_unique : forall v t c c', (v, t, c) ∈ votes s -> (v, t, c') ∈ votes s -> c = c';
  inv_procs : forall i p, procs s !! i = Some p -> i <> -1 /\ proc_ok C (votes s) i p;
  inv_leaders : forall t i, (t, i) ∈ leaders s ->
    exists V, QuorumSatisfied C V = true /\ forall v, v ∈ V -> (v, t, i) ∈ votes s;
  inv_answers : forall a, a ∈ answers s -> rvr_vote_granted (va_resp a) = true ->
    (va_voter a, va_term a, va_candidate a) ∈ votes s
}.

Section invariant.
Context (C : ClusterConfig).

Lemma node_ok_mono V V' i w : V ⊆ V' -> node_ok C V i w -> node_ok C V' i w.
Proof. intros HV []. split; auto. Qed.

Lemma inv_init ids : Forall (fun i => i <> -1) ids -> inv C (cluster_init ids).
Proof.
  intros Hids. split; simpl; try set_solver.
  intros i p Hp. apply elem_of_list_to_map_2, list_elem_of_fmap in Hp as (j&[= -> ->]&Hj).
  split; [|done]. rewrite list.Forall_forall in Hids. by apply Hids.
Qed.

Section advance.
Context (s : Cluster) (Hinv : inv C s) (i : Z) (p p' : Proc) (new : list VoteAnswer).
Context (Hp : procs s !! i = Some p).
Context (Hdisk : forall d, proc_vote p = Some d -> exists d', proc_vote p' = Some d' /\ vote_le d d').
Context (Hnew : forall x, x ∈ own_vote i p' ∪ ⋃ (granted_vote <$> new) ->
  x ∈ votes s \/ exists t c, x = (i, t, c) /\ c <> -1 /\ proc_vote p' = Some (t, c)).

Let s' := advance s i p' new.

Lemma advance_votes x :
  x ∈ votes s' -> x ∈ votes s \/ exists t c, x = (i, t, c) /\ c <> -1 /\ proc_vote p' = Some (t, c).
Proof.
  simpl. rewrite <- (assoc_L (∪)), elem_of_union. intros [?|Hx]; [by left|by apply Hnew].
Qed.

(** A vote of process [i] that was given before still binds it. *)
Lemma advance_old t c :
  (i, t, c) ∈ votes s -> c <> -1 /\ exists d, proc_vote p' = Some d /\ (t < d.1 \/ d = (t, c)).
Proof.
  intros Hv. destruct (inv_bound _ _ Hinv _ _ _ Hv) as (Hc&q&d&Hq&Hd&Hb). simplify_eq.
  split; [done|]. destruct (Hdisk d Hd) as ([t' c']&Hd'&Hle). exists (t', c'). split; [done|].
  unfold vote_le in Hle. destruct Hb as [Hb|Hb]; [left; simpl in *; lia|].
  rewrite Hb in Hle. simpl in *. destruct Hle as [?|[-> [?| ->]]]; [by left|done|by right].
Qed.

Lemma advance_inv : proc_ok C (votes s') i p' -> inv C s'.
Proof.
  intros Hok. assert (votes s ⊆ votes s') as Hsub by (simpl; set_solver).
  split.
  - intros v t c Hx. apply advance_votes in Hx as [Hx|(t'&c'&[= -> -> ->]&Hc&Hd)].
    + destruct (decide (v = i)) as [->|Hne].
      * destruct (advance_old _ _ Hx) as (?&d&?&?). split; [done|]. exists p', d. simpl.
        by rewrite lookup_insert_eq.
      * destruct (inv_bound _ _ Hinv _ _ _ Hx) as (?&q&d&?&?&?). split; [done|]. exists q, d. simpl.
        by rewrite lookup_insert_ne.
    + split; [done|]. exists p', (t', c'). simpl. rewrite lookup_insert_eq. auto.
  - assert (forall t c c', (i, t, c) ∈ votes s -> proc_vote p' = Some (t, c') -> c = c') as Hclash.
    { intros t c c' Hx Hd. destruct (advance_old _ _ Hx) as (_&d&Hd'&Hb). simplify_eq.
      simpl in Hb. destruct Hb; [lia|congruence]. }
    intros v t c c' Hx Hx'. apply advance_votes in Hx as [Hx|(t1&c1&[= -> -> ->]&_&Hd)],
      Hx' as [Hx'|(t2&c2&Heq&_&Hd')].
    + by eapply inv_unique.
    + injection Heq as -> -> ->. by eapply Hclash.
    + symmetry. by eapply Hclash.
    + injection Heq as <- <-. congruence.
  - intros j q. simpl. intros [[<- <-]|[Hne Hq]]%lookup_insert_Some.
    + split; [apply (inv_procs _ _ Hinv _ _ Hp)|done].
    + destruct (inv_procs _ _ Hinv _ _ Hq) as [? Hok']. split; [done|].
      destruct q; [|done]. by eapply node_ok_mono.
  - intros t j. simpl. intros [Hl|Hl]%elem_of_union.
    + destruct (inv_leaders _ _ Hinv _ _ Hl) as (V&?&HV). exists V. split; [done|]. auto.
    + destruct p' as [w|]; simpl in Hl; [|set_solver]. case_decide as Hr; [|set_solver].
      apply elem_of_singleton in Hl as [= -> ->]. exists (votes_received_ (group_ w)).
      split; [by apply (no_quorum _ _ _ _ Hok)|]. apply (no_votes _ _ _ _ Hok). congruence.
  - intros a [Ha|Ha]%elem_of_app Hg; [by apply Hsub, (inv_answers _ _ Hinv)|].
    simpl. apply elem_of_union. right. apply elem_of_union_list. exists (granted_vote a).
    split; [by apply list_elem_of_fmap_2|]. unfold granted_vote. rewrite Hg. set_solver.
Qed.

End advance.

(** ** Steps *)

Lemma proc_vote_after {A} (o : Outcome Node A) : proc_vote (after o) = disk_vote (final o).
Proof. by destruct o. Qed.

Lemma moves_disk w w' :
  (forall d, disk_vote w = Some d -> vote_le d (vote_of w)) -> moves w w' ->
  (forall d, disk_vote w = Some d -> exists d', disk_vote w' = Some d' /\ vote_le d d') /\
  (forall d, disk_vote w' = Some d -> vote_le d (vote_of w')).
Proof.
  intros Hd (_&Hv&[->|(v&->&?&?)]); split.
  - intros d ?. exists d. split; [done|reflexivity].
  - intros d ?. transitivity (vote_of w); auto.
  - intros d ?. exists v. split; [done|]. transitivity (vote_of w); auto.
  - intros d [= <-]. done.
Qed.

(** A node in office that keeps term and office keeps its vote for itself. *)
Lemma vote_kept i w w' :
  i <> -1 -> moves w w' -> voted_for_ (group_ w) = i ->
  current_term_ (group_ w') = current_term_ (group_ w) -> voted_for_ (group_ w') = i.
Proof.
  intros Hi (_&Hv&_) Hself Ht. unfold vote_le, vote_of in Hv. simpl in Hv.
  destruct Hv as [|[_ [|]]]; [lia|congruence|congruence].
Qed.

Lemma own_vote_up i w x :
  x ∈ own_vote i (Up w) <->
  role_ (group_ w) <> FOLLOWER /\ x = (i, current_term_ (group_ w), i).
Proof. simpl. case_decide; set_solver. Qed.

(** What a process in office must show after a step from [s]. *)
Definition office_ok (s : Cluster) (i : Z) (w' : Node) : Prop :=
  voted_for_ (group_ w') = i /\
  ((i, current_term_ (group_ w'), i) ∈ votes s \/ disk_vote w' = Some (vote_of w')) /\
  (forall v, v ∈ votes_received_ (group_ w') ->
     v = i \/ (v, current_term_ (group_ w'), i) ∈ votes s) /\
  (role_ (group_ w') = LEADER -> QuorumSatisfied C (votes_received_ (group_ w')) = true).

(** Process [i] runs from [w] to [o] and gives the answers [new]. *)
Lemma run_inv {A} s i w (o : Outcome Node A) new :
  inv C s -> procs s !! i = Some (Up w) -> moves w (final o) -> config_is C (after o) ->
  (forall a w', o = Done a w' -> role_ (group_ w') <> FOLLOWER -> office_ok s i w') ->
  (forall x, x ∈ ⋃ (granted_vote <$> new) ->
     exists t c, x = (i, t, c) /\ c <> -1 /\ disk_vote (final o) = Some (t, c)) ->
  inv C (advance s i (after o) new).
Proof.
  intros Hinv Hp Hm Hc Hown Hgr. destruct (inv_procs _ _ Hinv _ _ Hp) as [Hi Hok].
  simpl in Hok. destruct (moves_disk w (final o) (no_disk _ _ _ _ Hok) Hm) as [Hd Hd'].
  assert (Hdisk : forall d, proc_vote (Up w) = Some d ->
    exists d', proc_vote (after o) = Some d' /\ vote_le d d').
  { intros d Hw. rewrite proc_vote_after. by apply Hd. }
  rewrite <- proc_vote_after in Hgr.
  destruct o as [a w'|w']; simpl in *; [specialize (Hown a w' eq_refl)|].
  2:{ eapply advance_inv; [done..| |done]. simpl. intros x Hx. right. apply Hgr. set_solver. }
  eapply advance_inv; [done..| |].
  - intros x [[Hnf ->]%own_vote_up|Hx]%elem_of_union; [|right; by apply Hgr].
    destruct (Hown Hnf) as (Hv&[?|Hdv]&_); [by left|]. right. eexists _, _. split; [done|].
    split; [done|]. unfold proc_vote. simpl. unfold disk_vote in Hdv. rewrite Hdv. unfold vote_of.
    by rewrite Hv.
  - assert (forall V, role_ (group_ w') <> FOLLOWER ->
      (i, current_term_ (group_ w'), i) ∈ votes s ∪ own_vote i (Up w') ∪ V) as Hin.
    { intros V Hnf. apply elem_of_union. left. apply elem_of_union. right. by apply own_vote_up. }
    split; simpl.
    + destruct Hm as (->&_). apply Hok.
    + done.
    + done.
    + intros Hnf. by apply Hown.
    + intros Hnf. by apply Hin.
    + intros Hnf v Hv. destruct (Hown Hnf) as (_&_&Hvs&_).
      destruct (Hvs v Hv) as [->|?]; [by apply Hin|set_solver].
    + intros Hl. apply Hown; congruence.
Qed.

Lemma role_step_office s i w w' :
  i <> -1 -> node_ok C (votes s) i w -> moves w w' -> role_step w w' ->
  role_ (group_ w') <> FOLLOWER -> office_ok s i w'.
Proof.
  intros Hi [Hid Hcw _ Hself Hvown Hvs Hq] Hm Hr Hnf.
  destruct Hr as [?|Hr Ht Hvr|Hr Hl Ht Hvr He|Ht _ Hvr Hv Hdv He]; [done| | |]; unfold office_ok.
  - rewrite Hr in *. split; [by eapply vote_kept; eauto|]. rewrite Ht, Hvr. auto.
  - assert (role_ (group_ w) <> FOLLOWER) as Hnf' by congruence.
    split; [by eapply vote_kept; eauto|]. unfold elected in He. rewrite Hcw in He.
    rewrite Ht. rewrite Hvr in *. auto.
  - destruct Hm as (Hid'&_). unfold elected in He. rewrite Hcw in He.
    rewrite Hvr, Hid', Hid in *. split_and!; [congruence|by right| |done].
    intros v ->%elem_of_singleton. by left.
Qed.

Lemma campaigns_inv {A} s i w (o : Outcome Node A) new :
  inv C s -> procs s !! i = Some (Up w) -> campaigns w o -> config_is C (after o) ->
  (forall x, x ∈ ⋃ (granted_vote <$> new) ->
     exists t c, x = (i, t, c) /\ c <> -1 /\ disk_vote (final o) = Some (t, c)) ->
  inv C (advance s i (after o) new).
Proof.
  intros Hinv Hp [Hm Hr] Hc. eapply run_inv; [done..|].
  intros a w' -> Hnf. destruct (inv_procs _ _ Hinv _ _ Hp) as [Hi Hok].
  eapply role_step_office; [done..|by eapply Hr|done].
Qed.

Lemma no_answers (Q : Z * Z * Z -> Prop) x : x ∈ ⋃ (granted_vote <$> []) -> Q x.
Proof. simpl. set_solver. Qed.

Context (HC : forall c, IsVoter C c = true -> c <> -1).

Lemma vote_inv `{!Env} s i w req :
  inv C s -> procs s !! i = Some (Up w) -> env_persister = true ->
  config_is C (after (HandleRequestVote req w)) ->
  inv C (advance s i (after (HandleRequestVote req w)) (answer_of i req (HandleRequestVote req w))).
Proof.
  intros Hinv Hp He Hc. destruct (HandleRequestVote_run req w) as [Hev Hgr].
  eapply campaigns_inv; [done..|by apply evolves_campaigns|done|].
  destruct (HandleRequestVote req w) as [resp w'|w'] eqn:E; simpl; [|set_solver].
  destruct (Hgr resp w' eq_refl) as [_ Hg]. unfold granted_vote. simpl.
  destruct (rvr_vote_granted resp); [|set_solver].
  destruct (Hg eq_refl) as (Hv&_&Hvoter&Hd). simpl in Hc. rewrite Hc in Hvoter.
  intros x Hx. exists (rv_term req), (rv_candidate_id req).
  split_and!; [set_solver|by apply HC|]. rewrite Hd by done. by rewrite Hv.
Qed.

Lemma answer_inv `{!Env} s i w a :
  inv C s -> procs s !! i = Some (Up w) -> env_persister = true ->
  a ∈ answers s -> va_candidate a = i ->
  config_is C (after (HandleRequestVoteResponse (va_voter a) (va_resp a) (va_term a) w)) ->
  inv C (advance s i
           (after (HandleRequestVoteResponse (va_voter a) (va_resp a) (va_term a) w)) []).
Proof.
  intros Hinv Hp He Ha Hcand Hc. destruct (inv_procs _ _ Hinv _ _ Hp) as [Hi Hok].
  destruct (HandleRequestVoteResponse_run (va_voter a) (va_resp a) (va_term a) w)
    as [Hev|(Hg&Hr&Ht&Hm&Ht'&Hvs&Hr')].
  { eapply campaigns_inv; [done..|by apply evolves_campaigns|done|apply no_answers]. }
  eapply run_inv; [done..| |apply no_answers]. intros u w' E Hnf. rewrite E in *. simpl in *.
  assert (role_ (group_ w) <> FOLLOWER) as Hnf' by congruence.
  destruct Hok as [Hid Hcw _ Hself Hvown Hvr Hq]. split_and!.
  - by eapply vote_kept; eauto.
  - left. rewrite Ht'. auto.
  - intros v. rewrite Hvs, Ht'. intros [->%elem_of_singleton|?]%elem_of_union; right; [|auto].
    rewrite <- Ht, <- Hcand. by apply (inv_answers _ _ Hinv).
  - intros Hl. destruct Hr' as [|[_ Hel]]; [congruence|]. unfold elected in Hel.
    by rewrite Hcw in Hel.
Qed.

Lemma crash_inv s i w :
  inv C s -> procs s !! i = Some (Up w) -> inv C (advance s i (Down (disk_ w)) []).
Proof.
  intros Hinv Hp. eapply advance_inv; [done..| | |done].
  - intros d Hd. exists d. split; [done|reflexivity].
  - simpl. set_solver.
Qed.

Lemma start_inv `{!Env} s i d w sa :
  inv C s -> procs s !! i = Some (Down d) -> env_persister = true -> fresh i d w ->
  sa_load sa = d ->
  config_is C (after_start (Start sa w)) ->
  inv C (advance s i (after_start (Start sa w)) []).
Proof.
  intros Hinv Hp He (Hid&Hv&Hr&_&Hd) Hload Hc.
  destruct (Start_started sa w He ltac:(congruence)) as [Hdisk Hok].
  set (v := default (vote_of w) (disk_vote w)) in *.
  assert (proc_vote (after_start (Start sa w)) = disk_vote (final (Start sa w))) as Hpv.
  { destruct (Start sa w) as [[]|]; done. }
  eapply advance_inv; [done..| | |].
  - intros d0 Hd0. rewrite Hpv. exists d0. split; [|reflexivity].
    assert (disk_vote w = Some d0) as Hw by (unfold disk_vote; rewrite Hd; exact Hd0).
    unfold v in Hdisk. rewrite Hw in Hdisk. by destruct Hdisk.
  - assert (own_vote i (after_start (Start sa w)) = ∅) as ->.
    { destruct (Start sa w) as [[|??] w'|w']; [|done|done]. destruct (Hok w' eq_refl) as [_ Hf].
      unfold own_vote, after_start. by rewrite decide_True. }
    intros x [Hx|Hx]%elem_of_union; [by apply elem_of_empty in Hx|].
    exact (no_answers (fun _ => _) _ Hx).
  - destruct (Start sa w) as [[|] w'|]; try done. destruct (Hok w' eq_refl) as [(Hi&Hv'&_) Hf].
    split; [by rewrite Hi|done| |congruence..]. simpl in *.
    intros d' Hd'. rewrite Hv', Hd' in *. destruct Hdisk as [Hw|[= ->]]; [|reflexivity].
    unfold v. rewrite <- Hw. reflexivity.
Qed.

Lemma step_inv s s' : inv C s -> step C s s' -> inv C s'.
Proof.
  intros Hinv Hs. destruct Hs as [E i w e Hp He Ht Hc|E i w req Hp He Hc|E i w a Hp He Ha Hi Hc
    |i w Hp|E i d w sa Hp He Hf Hload Hc].
  - eapply campaigns_inv; [done..| |done|apply no_answers].
    destruct (inv_procs _ _ Hinv _ _ Hp) as [Hi Hok].
    apply run_event_campaigns; [done..|]. by rewrite (no_id _ _ _ _ Hok).
  - by apply vote_inv with (w := w).
  - by apply answer_inv with (w := w).
  - by apply crash_inv.
  - by eapply start_inv.
Qed.

Lemma reachable_inv ids s :
  Forall (fun i => i <> -1) ids -> reachable C ids s -> inv C s.
Proof.
  intros Hids Hr. induction Hr; [by apply inv_init|]. by eapply step_inv.
Qed.

(** Quorums of votes for one term share a voter, who votes once. *)
Lemma leader_unique s t i j :
  config_small C -> inv C s -> (t, i) ∈ leaders s -> (t, j) ∈ leaders s -> i = j.
Proof.
  intros Hsmall Hinv Hi Hj. destruct (inv_leaders _ _ Hinv _ _ Hi) as (V&HV&Hiv).
  destruct (inv_leaders _ _ Hinv _ _ Hj) as (W&HW&Hjv).
  destruct (quorums_share C V W Hsmall HV HW) as (v&Hv&Hw&_).
  by eapply (inv_unique _ _ Hinv v t); auto.
Qed.

End invariant.

(** ** Properties *)

(** C1. Election safety: in every run of a cluster with a fixed membership, in
    which nodes crash and restart, messages are delayed, repeated or lost and
    saves may fail, at most one node ever leads in a given term. *)
Theorem election_safety (C : ClusterConfig) (ids : list Z) (s : Cluster) (t i j : Z)
    (Hsmall : config_small C)
    (Hvoters : forall c, IsVoter C c = true -> c <> -1)
    (Hids : Forall (fun i => i <> -1) ids)
    (Hs : reachable C ids s)
    (Hi : (t, i) ∈ leaders s) (Hj : (t, j) ∈ leaders s) :
  i = j.
Proof.
  apply (leader_unique C s t i j Hsmall); [|done|done]. by apply (reachable_inv C Hvoters ids).
Qed.

(** A run of three nodes: 1 and 2 start, 1 times out, 2 votes, 1 leads. *)
Definition demo_ids : list Z := [1; 2; 3].
Definition demo_config : ClusterConfig := mkClusterConfig demo_ids [] [] 1 false.
Definition demo_answers : StartAnswers := mkStartAnswers StOK None None true [] StOK.
Definition demo_node (i : Z) : Node :=
  mkNode (sample_group i (vec_remove i demo_ids) false false) kInitialized false None ∅ [].
#[local] Instance demo_env : Env := sample_env true true 0.

Definition demo_up (s : Cluster) (i : Z) : Node :=
  match procs s !! i with Some (Up w) => w | _ => demo_node i end.
Definition demo_start (s : Cluster) (i : Z) : Cluster :=
  advance s i (after_start (Start demo_answers (demo_node i))) [].
Definition demo_1 : Cluster := demo_start (demo_start (cluster_init demo_ids) 1) 2.
Definition demo_2 : Cluster :=
  advance demo_1 1 (after (run_event EvElectionTimeout (demo_up demo_1 1))) [].
Definition demo_vote := HandleRequestVote (mkRequestVoteRequest 1 1 0 0) (demo_up demo_2 2).
Definition demo_3 : Cluster :=
  advance demo_2 2 (after demo_vote) (answer_of 2 (mkRequestVoteRequest 1 1 0 0) demo_vote).
Definition demo_answer : VoteAnswer := mkVoteAnswer 2 1 1 (mkRequestVoteResponse 1 true).
Definition demo_4 : Cluster :=
  advance demo_3 1 (after (HandleRequestVoteResponse 2 (mkRequestVoteResponse 1 true) 1
                             (demo_up demo_3 1))) [].

(** Goals on concrete states are decided by evaluation. *)
Ltac demo_eval :=
  first [ vm_compute; reflexivity
        | vm_compute; split_and!; first [reflexivity | solve_Permutation | discriminate] ].

Lemma demo_reachable : reachable demo_config demo_ids demo_4.
Proof.
  apply (reach_step _ _ demo_3); [|
    apply (step_answer _ _ demo_env 1 (demo_up demo_3 1) demo_answer);
      [demo_eval..|apply list_elem_of_In; vm_compute; auto|demo_eval|demo_eval]].
  apply (reach_step _ _ demo_2); [|
    apply (step_vote _ _ demo_env 2 (demo_up demo_2 2) (mkRequestVoteRequest 1 1 0 0)); demo_eval].
  apply (reach_step _ _ demo_1); [|
    apply (step_event _ _ demo_env 1 (demo_up demo_1 1) EvElectionTimeout); demo_eval].
  apply (reach_step _ _ (demo_start (cluster_init demo_ids) 1)); [|
    apply (step_start _ _ demo_env 2 None (demo_node 2) demo_answers); demo_eval].
  apply (reach_step _ _ (cluster_init demo_ids)); [apply reach_init|].
  apply (step_start _ _ demo_env 1 None (demo_node 1) demo_answers); demo_eval.
Defined.

Lemma election_safety_witness :
  (1, 1) ∈ leaders demo_4 /\ forall j, (1, j) ∈ leaders demo_4 -> 1 = j.
Proof.
  assert ((1, 1) ∈ leaders demo_4) as H1.
  { apply (bool_decide_eq_true_1 ((1, 1) ∈ leaders demo_4)). vm_compute. reflexivity. }
  split; [exact H1|]. intros j Hj.
  apply (election_safety demo_config demo_ids demo_4 1 1 j); [| | |exact demo_reachable|exact H1|exact Hj].
  - split; vm_compute; reflexivity.
  - intros c. rewrite IsVoter_spec. intros [Hc|[[=] _]]. unfold demo_config, demo_ids in Hc.
    simpl in Hc. rewrite !elem_of_cons, elem_of_nil in Hc. lia.
  - repeat constructor; discriminate.
Defined.
