(* ===== verification/Ballots.v ===== *)
(** * What one node promises about its vote

    The guarantees of a single node that elections rest on: its vote only moves
    forward, a granted vote is on disk before it is answered, a restart takes it
    up again, and a pre-vote foretells the vote. *)

From S2P Require Import Prelude Types RaftLog Quorum Sessions RaftGroup Timers Replicate.
From S2P Require Import Membership Apply Election Leader Follower Snapshots NodeCore Frames Votes.
From S2P Require Import Campaign Cluster.

(** ** What a vote is judged by *)

(** The fields that [HandleRequestVote] looks at besides term and vote. *)
Definition same_judgement (w w' : Node) : Prop :=
  log_ (group_ w') = log_ (group_ w) /\
  cluster_config_ (group_ w') = cluster_config_ (group_ w) /\
  check_quorum_enabled_ (group_ w') = check_quorum_enabled_ (group_ w) /\
  has_leader_contact_ (group_ w') = has_leader_contact_ (group_ w) /\
  last_leader_contact_ (group_ w') = last_leader_contact_ (group_ w) /\
  runtime_config_ (group_ w') = runtime_config_ (group_ w).

#[global] Instance same_judgement_preorder : PreOrder same_judgement.
Proof.
  split; [by intros w|].
  intros w1 w2 w3 (?&?&?&?&?&?) (?&?&?&?&?&?). split_and!; congruence.
Qed.

(** ** Runs that complete, wherever they lead *)

Definition anywhere (w w' : Node) : Prop := True.

#[global] Instance anywhere_preorder : PreOrder anywhere.
Proof. by split. Qed.

Ltac anywhere_leaf := first [apply runs_modify; by intros ? | eapply runs_gets; apply _].
#[export] Hint Extern 1 (runs anywhere (putg _)) => anywhere_leaf : keeps.
#[export] Hint Extern 1 (runs anywhere (emit _)) => anywhere_leaf : keeps.
#[export] Hint Extern 1 (runs anywhere (getg _)) => anywhere_leaf : keeps.

Section ballots.
Context `{!Env}.

Ltac judgement_leaf :=
  first [apply keeps_modify | apply runs_modify]; intros ?; unfold same_judgement;
  split_and!; reflexivity.
#[local] Hint Extern 1 (keeps same_judgement (putg _)) => judgement_leaf : keeps.
#[local] Hint Extern 1 (keeps same_judgement (emit _)) => judgement_leaf : keeps.
#[local] Hint Extern 1 (keeps same_judgement (modify _)) => judgement_leaf : keeps.
#[local] Hint Extern 1 (keeps same_judgement (getg _)) => (eapply keeps_gets; apply _) : keeps.

Lemma judgement_BecomeFollower t p : keeps same_judgement (BecomeFollowerLockedImpl t p).
Proof.
  unfold BecomeFollowerLockedImpl, enter_follower, StopHeartbeatTimerLocked,
    StopSnapshotCheckTimerLocked, ResetElectionTimerLocked, CancelElectionTimerLocked,
    persist_or_abort, publish_role, call_role, SaveStateM. keeps_solve.
Qed.

(** Stepping down completes when the state can be saved. *)
Lemma BecomeFollower_completes t p w :
  (forall s, env_save_ok s = true) -> exists w', BecomeFollowerLockedImpl t p w = Done tt w'.
Proof.
  intros Hsave. assert (runs anywhere persist_or_abort).
  { intros w0. unfold persist_or_abort, SaveStateM. destruct env_persister; simpl; [|by eexists _, _].
    run. rewrite Hsave. simpl when. run. by eexists _, _. }
  assert (runs anywhere (BecomeFollowerLockedImpl t p)) as Hr.
  { unfold BecomeFollowerLockedImpl, enter_follower, StopHeartbeatTimerLocked,
      StopSnapshotCheckTimerLocked, ResetElectionTimerLocked, CancelElectionTimerLocked,
      publish_role, call_role. runs_solve. }
  destruct (Hr w) as ([]&w'&->&_). by exists w'.
Qed.

Lemma up_to_date_same w w' i t :
  same_judgement w w' -> up_to_date (group_ w') i t = up_to_date (group_ w) i t.
Proof. intros (Hl&_). unfold up_to_date. by rewrite Hl. Qed.

Lemma sticky_same w w' : same_judgement w w' -> sticky (group_ w') = sticky (group_ w).
Proof. intros (_&_&Hq&Hc&Ht&Hr). unfold sticky. by rewrite Hq, Hc, Ht, Hr. Qed.

(** A granted vote, with everything it says about voter and candidate. *)
Lemma granted_run req w resp w' :
  env_persister = true -> HandleRequestVote req w = Done resp w' -> rvr_vote_granted resp = true ->
  vote_of w' = (rv_term req, rv_candidate_id req) /\
  disk_vote w' = Some (vote_of w') /\ vote_le (vote_of w) (vote_of w') /\
  IsVoter (cluster_config_ (group_ w)) (rv_candidate_id req) = true /\
  up_to_date (group_ w) (rv_last_log_index req) (rv_last_log_term req) = true /\
  sticky (group_ w) = false.
Proof.
  intros Hp E Hg. destruct (HandleRequestVote_run req w) as [Hev Hdone].
  destruct (Hdone resp w' E) as [Hc Hgr]. destruct (Hgr Hg) as (Hv&_&Hvoter&Hd).
  rewrite E in Hev. destruct Hev as (_&Hle&_). rewrite Hc in Hvoter.
  assert (up_to_date (group_ w) (rv_last_log_index req) (rv_last_log_term req) = true /\
    sticky (group_ w) = false) as [? ?]; [|split_and!; try done; by apply Hd].
  revert E Hg. unfold HandleRequestVote. rewrite run_bind, run_getg, run_bind.
  match goal with |- context [when ?b ?m w] =>
    assert (keeps same_judgement (when b m)) as Hj by
      (apply keeps_when; [apply _|apply judgement_BecomeFollower]);
    specialize (Hj w); destruct (when b m w) as [[] w1|w1]; [|done] end.
  simpl in Hj. rewrite run_bind, run_getg. unfold id.
  case_decide; [by intros [= <- <-]|].
  destruct (IsVoter (cluster_config_ (group_ w1)) _); cbn [negb]; [|by intros [= <- <-]].
   rewrite (up_to_date_same _ _ _ _ Hj), (sticky_same _ _ Hj).
  destruct (up_to_date _ _ _); cbn [negb]; [|by intros [= <- <-]].
  by destruct (sticky _); [intros [= <- <-]|].
Qed.

(** A pre-vote that is granted is followed by the vote. *)
Lemma pre_vote_run t c i lt w :
  (forall s, env_save_ok s = true) -> current_term_ (group_ w) < t ->
  IsVoter (cluster_config_ (group_ w)) c = true -> up_to_date (group_ w) i lt = true ->
  sticky (group_ w) = false ->
  exists w', HandleRequestVote (mkRequestVoteRequest t c i lt) w =
    Done (mkRequestVoteResponse t true) w'.
Proof.
  intros Hsave Ht Hv Hu Hs. unfold HandleRequestVote. cbn [rv_term rv_candidate_id rv_last_log_index rv_last_log_term].
  rewrite run_bind, run_getg, bool_decide_true by done. simpl when. rewrite run_bind.
  unfold BecomeFollowerLocked.
  pose proof (judgement_BecomeFollower t true w) as Hj.
  destruct (BecomeFollower_completes t true w Hsave) as [w1 E]. rewrite E in *. simpl in Hj.
  destruct (BecomeFollower_done _ _ _ _ _ E) as (Ht1&Hv1&_&_). rewrite decide_True in Hv1 by done.
  rewrite run_bind, run_getg. unfold id. rewrite (decide_False (P := t < _)) by lia.
  rewrite (up_to_date_same _ _ _ _ Hj), (sticky_same _ _ Hj).
  destruct Hj as (_&->&_). rewrite Hv, Hs, Hu. cbn [negb]. rewrite decide_True by auto.
  destruct (grant_vote_run c w1) as (w2&E2&_). rewrite run_bind, E2, run_ret, Hsave, Ht1.
  rewrite orb_true_r. by exists w2.
Qed.

End ballots.

(** ** Properties *)

(** Everything that runs at a node: the vote requests, the answers to its own,
    and all else. *)
Inductive BallotEvent :=
| BallotRequest (req : RequestVoteRequest)
| BallotResponse (from : NodeId) (resp : RequestVoteResponse) (term : Term)
| BallotOther (e : Event).

Definition run_ballot `{!Env} (e : BallotEvent) : M unit :=
  match e with
  | BallotRequest req => ignore (HandleRequestVote req)
  | BallotResponse from resp term => HandleRequestVoteResponse from resp term
  | BallotOther e => run_event e
  end.

(** C13. A vote only moves forward.  At a node with a persister and a term below
    the largest 32-bit one, whatever it handles (vote requests, the answers to
    its own, timeouts, replication, snapshots, clients, membership, stopping),
    whether saves succeed or fail and whether the handler completes or aborts,
    its term never decreases, the vote of a term is never changed once given,
    and whatever the persister saves on the way lies between the old vote and
    the new one. *)
Theorem vote_moves_forward `{!Env} (e : BallotEvent) (w : Node)
    (Hp : env_persister = true) (Ht : term_small w) (Hid : server_id_ (group_ w) <> -1) :
  let w' := final (run_ballot e w) in
  vote_le (vote_of w) (vote_of w') /\
  disk_step (vote_of w) (vote_of w') (disk_vote w) (disk_vote w').
Proof.
  destruct e as [req|from resp t|e]; simpl.
  - assert (evolves w (final (ignore (HandleRequestVote req) w))) as (_&?&?&_); [|done].
    unfold ignore. rewrite run_bind. destruct (HandleRequestVote_run req w) as [Hev _].
    by destruct (HandleRequestVote req w).
  - destruct (HandleRequestVoteResponse_run from resp t w) as [(_&?&?&_)|(_&_&_&(_&?&?)&_)]; done.
  - destruct (run_event_campaigns e w Hp Ht Hid) as ((_&Hv&Hd)&_). by split.
Qed.

Lemma vote_moves_forward_witness :
  vote_le (0, -1) (vote_of (final (@run_ballot demo_env (BallotRequest (mkRequestVoteRequest 1 1 0 0))
    (demo_up demo_2 2)))).
Proof.
  destruct (@vote_moves_forward demo_env (BallotRequest (mkRequestVoteRequest 1 1 0 0)) (demo_up demo_2 2) eq_refl
    ltac:(vm_compute; split; [discriminate|reflexivity]) ltac:(vm_compute; discriminate)) as [H _].
  exact H.
Defined.

(** Term and index of the last thing a node holds, its snapshot included. *)
Definition history_end (g : RaftGroup) : Term * Index :=
  match list.last (entries_ (log_ g)) with
  | Some e => (term_ e, index_ e)
  | None => (last_snapshot_term_ g, last_snapshot_index_ g)
  end.

Lemma up_to_date_history g index term :
  entries_ (log_ g) <> [] \/ history_end g = (0, 0) -> up_to_date g index term = true ->
  (history_end g).1 < term \/ (history_end g).1 = term /\ (history_end g).2 <= index.
Proof.
  unfold up_to_date, GetLastLogInfo, history_end. destruct (list.last (entries_ (log_ g))) as [e|] eqn:E.
  - intros _. rewrite orb_true_iff, andb_true_iff, !bool_decide_eq_true. simpl. intuition.
  - apply last_None in E. intros [?|E0]; [done|]. rewrite E0.
    rewrite orb_true_iff, andb_true_iff, !bool_decide_eq_true. simpl. intuition.
Qed.

(** C14. A granted vote is durable and justified.  When [HandleRequestVote] of a
    node with a persister grants, the vote is on disk before the answer leaves,
    it is the first of its term or repeats it, the candidate is a voter of the
    configuration, no leader was heard from within the election timeout (with
    quorum checks on), and the candidate's last term and index are not behind
    the last entry of the voter's log.  The last point is for a voter whose log
    has entries or that has no snapshot: with an empty log after a snapshot the
    code compares with (0, 0) ([Limits.compacted_voter_accepts_all]). *)
Theorem granted_vote_durable `{!Env} (req : RequestVoteRequest) (w w' : Node)
    (resp : RequestVoteResponse)
    (Hp : env_persister = true)
    (Hlog : entries_ (log_ (group_ w)) <> [] \/ history_end (group_ w) = (0, 0))
    (E : HandleRequestVote req w = Done resp w')
    (Hg : rvr_vote_granted resp = true) :
  let g := group_ w in
  let c := cluster_config_ g in
  let last := history_end g in
  let elapsed := elapsed_ms env_now (last_leader_contact_ g) in
  vote_of w' = (rv_term req, rv_candidate_id req) /\
  disk_vote w' = Some (rv_term req, rv_candidate_id req) /\
  vote_le (vote_of w) (rv_term req, rv_candidate_id req) /\
  (rv_candidate_id req ∈ nodes c \/ is_joint c = true /\ rv_candidate_id req ∈ old_nodes c) /\
  (last.1 < rv_last_log_term req \/ last.1 = rv_last_log_term req /\ last.2 <= rv_last_log_index req) /\
  ~ (check_quorum_enabled_ g = true /\ has_leader_contact_ g = true /\
     0 <= elapsed /\ u32 elapsed < election_timeout_ms (runtime_config_ g)).
Proof.
  destruct (granted_run req w resp w' Hp E Hg) as (Hv&Hd&Hle&Hvoter&Hup&Hst). rewrite <- Hv. cbv zeta.
  split_and!; try done; [by apply IsVoter_spec|by apply up_to_date_history|].
  unfold sticky in Hst. intros (Hq&Hc&H0&Hlt). rewrite Hq, Hc in Hst. simpl in Hst.
  by rewrite !bool_decide_true in Hst.
Qed.

Lemma granted_vote_durable_witness :
  disk_vote (demo_up demo_3 2) = Some (1, 1).
Proof.
  set (o := @HandleRequestVote demo_env (mkRequestVoteRequest 1 1 0 0) (demo_up demo_2 2)).
  assert (match o with Done resp _ => rvr_vote_granted resp | Aborted _ => false end = true) as Hok
    by (vm_compute; reflexivity).
  change (demo_up demo_3 2) with (match procs demo_3 !! 2 with Some (Up w) => w | _ => demo_node 2 end).
  assert (procs demo_3 !! 2 = Some (after o)) as -> by apply lookup_insert_eq.
  destruct o as [resp w'|w'] eqn:E; [|discriminate Hok].
  destruct (@granted_vote_durable demo_env (mkRequestVoteRequest 1 1 0 0) (demo_up demo_2 2) w' resp
    eq_refl (or_intror eq_refl) E Hok) as (_&H&_). exact H.
Defined.

(** C15. A restart takes up the saved vote, with a persister whose [LoadState]
    reads what is saved.  However [Start] ends, it leaves on disk the vote it
    found there or writes the one it starts with; when it succeeds the node is a
    follower whose term and vote are those saved. *)
Theorem restart_restores_vote `{!Env} (sa : StartAnswers) (w : Node) (Hp : env_persister = true)
    (Hload : sa_load sa = disk_ w) :
  let saved := default (vote_of w) (disk_vote w) in
  (disk_vote (final (Start sa w)) = disk_vote w \/ disk_vote (final (Start sa w)) = Some saved) /\
  forall w', Start sa w = Done StOK w' -> vote_of w' = saved /\ role_ (group_ w') = FOLLOWER.
Proof.
  destruct (Start_started sa w Hp Hload) as [Hd Hok]. split; [done|].
  intros w' E. destruct (Hok w' E) as [(_&Hv&_) Hr]. done.
Qed.

Definition demo_saved : Node :=
  (demo_node 2) <| disk_ := Some (CurrentPersistentState (group_ (demo_up demo_3 2))) |>.

Definition demo_load (load : option PersistentState) : StartAnswers :=
  mkStartAnswers StOK load None true [] StOK.

Lemma restart_restores_vote_witness :
  exists w', @Start demo_env (demo_load (disk_ demo_saved)) demo_saved = Done StOK w' /\ vote_of w' = (1, 1).
Proof.
  destruct (@restart_restores_vote demo_env (demo_load (disk_ demo_saved)) demo_saved eq_refl eq_refl) as [_ H].
  set (o := @Start demo_env (demo_load (disk_ demo_saved)) demo_saved) in *.
  assert (match o with Done StOK _ => true | _ => false end = true) as Hok
    by (vm_compute; reflexivity).
  clearbody o. destruct o as [[]|]; try discriminate Hok.
  eexists. split; [reflexivity|]. destruct (H _ eq_refl) as [-> _]. vm_compute. reflexivity.
Defined.

(** [Start] goes on when [LoadState] fails: the node that had voted for node 1
    in term 1 runs with term 0 and no vote, and has overwritten what was
    saved. *)
Lemma failed_load_forgets_vote :
  let o := @Start demo_env (demo_load None) demo_saved in
  disk_vote demo_saved = Some (1, 1) /\ value o = Some StOK /\ vote_of (final o) = (0, -1) /\
  disk_vote (final o) = Some (0, -1).
Proof. vm_compute. split_and!; reflexivity. Qed.

(** A pre-vote foretells the vote.  [HandlePreVote] changes nothing; and a
    node that grants a pre-vote would, in the same state and when its state can
    be saved, grant the vote itself. *)
Theorem pre_vote_foretells `{!Env} (t : Term) (c : NodeId) (i : Index) (lt : Term) (w : Node)
    (Hsave : forall s, env_save_ok s = true) :
  exists granted,
    HandlePreVote (mkPreVoteRequest t c i lt) w =
      Done (mkPreVoteResponse (current_term_ (group_ w)) granted) w /\
    (granted = true ->
     exists w', HandleRequestVote (mkRequestVoteRequest t c i lt) w =
       Done (mkRequestVoteResponse t true) w').
Proof.
  eexists. split; [reflexivity|]. cbn [pv_term pv_candidate_id pv_last_log_index pv_last_log_term].
  case_decide as Ht; [done|]. destruct (IsVoter _ _) eqn:Hv; [|done]. cbn [negb].
  destruct (up_to_date _ _ _) eqn:Hu; [|done]. cbn [negb]. intros Hs.
  apply negb_true_iff in Hs. apply pre_vote_run; try done. unfold id in Ht. lia.
Qed.

Lemma pre_vote_foretells_witness :
  exists w', @HandleRequestVote demo_env (mkRequestVoteRequest 1 1 0 0) (demo_up demo_2 2) =
    Done (mkRequestVoteResponse 1 true) w'.
Proof.
  destruct (@pre_vote_foretells demo_env 1 1 0 0 (demo_up demo_2 2) ltac:(reflexivity)) as (b&E&H).
  apply H. injection E as E. rewrite <- E. vm_compute. reflexivity.
Defined.
