(* ===== verification/Replication.v ===== *)
(** * AppendEntries: what the follower's log becomes

    [append_phase2] ([HandleAppendEntries], [src/rpc_handlers.cpp]) refines the
    merge of two lists of entries: keep everything up to the first entry whose
    term differs, replace the rest.  On top of the refinement: the Log Matching
    property between a leader's and a follower's log is kept, and a success
    means the two agree up to the last entry of the request. *)

From S2P Require Import Prelude Types RaftLog Quorum Sessions RaftGroup Timers Replicate.
From S2P Require Import Membership Apply Election Leader Follower.

(** ** The merge *)

(** What the log keeps of a request's entry. *)
Definition stored (i : Index) (e : RaftLogEntry) : RaftLogEntry := mkEntry i (term_ e) (data_ e) "" 0.

Fixpoint store (i : Index) (es : list RaftLogEntry) : list RaftLogEntry :=
  match es with
  | [] => []
  | e :: es' => stored i e :: store (i + 1) es'
  end.

(** [L] holds the entries from index [s] on, [es] those from position [k]. *)
Fixpoint merge (s : Index) (L : list RaftLogEntry) (k : nat) (es : list RaftLogEntry)
  : list RaftLogEntry :=
  match es with
  | [] => L
  | e :: es' =>
      match L !! k with
      | Some x => if decide (term_ x = term_ e) then merge s L (S k) es'
                  else take k L ++ store (s + Z.of_nat k) es
      | None => L ++ store (s + Z.of_nat k) es
      end
  end.

(** Entries with consecutive indices from [a]. *)
Definition contiguous (a : Index) (es : list RaftLogEntry) : Prop :=
  forall k e, es !! k = Some e -> index_ e = a + Z.of_nat k.

Definition positive_terms (es : list RaftLogEntry) : Prop := Forall (fun e => 0 < term_ e) es.

(** The two loops of the handler on lists. *)
Fixpoint cut (L : list RaftLogEntry) (k : nat) (es : list RaftLogEntry) : list RaftLogEntry :=
  match es with
  | [] => L
  | e :: es' =>
      match L !! k with
      | Some x => if decide (term_ x = term_ e) then cut L (S k) es' else take k L
      | None => L
      end
  end.

Fixpoint extend (s : Index) (L : list RaftLogEntry) (k : nat) (es : list RaftLogEntry)
  : list RaftLogEntry :=
  match es with
  | [] => L
  | e :: es' =>
      match L !! k with
      | Some x => extend s L (S k) es'
      | None => extend s (L ++ [stored (s + Z.of_nat k) e]) (S k) es'
      end
  end.

Lemma extend_end s L es :
  extend s L (length L) es = L ++ store (s + Z.of_nat (length L)) es.
Proof.
  revert L. induction es as [|e es IH]; intros L; simpl; [by rewrite app_nil_r|].
  rewrite lookup_ge_None_2 by lia.
  replace (S (length L)) with (length (L ++ [stored (s + Z.of_nat (length L)) e])) by len.
  rewrite IH. rewrite <- (assoc_L (++)). simpl. do 3 f_equal. len.
Qed.

Lemma cut_lookup L es k j : (j < k)%nat -> cut L k es !! j = L !! j.
Proof.
  revert k. induction es as [|e es IH]; intros k Hj; simpl; [done|].
  case_match; [|done]. case_decide; [apply IH; lia|]. by rewrite lookup_take_lt by lia.
Qed.

(** Cutting and then extending is the merge. *)
Lemma extend_cut s L k es :
  (k <= length L)%nat -> extend s (cut L k es) k es = merge s L k es.
Proof.
  revert k. induction es as [|e es IH]; intros k Hk; [done|].
  assert (forall L', length L' = k -> extend s L' k (e :: es) = L' ++ store (s + Z.of_nat k) (e :: es))
    as Hend by (intros L' <-; apply extend_end).
  simpl cut. simpl merge. destruct (L !! k) as [x|] eqn:E.
  - apply lookup_lt_Some in E as Hlt. case_decide as Ht.
    + simpl. rewrite cut_lookup, E by lia. apply IH. lia.
    + apply Hend. rewrite length_take. lia.
  - apply Hend. apply lookup_ge_None in E. lia.
Qed.

(** ** The handler's loops *)

Definition relog (l : RaftLog) (g : RaftGroup) : RaftGroup := g <| log_ := l |>.

Lemma relog_id g : relog (log_ g) g = g.
Proof. by destruct g. Qed.

(** A group whose log starts right of the snapshot boundary. *)
Record group_wf (g : RaftGroup) : Prop := mkGroupWf {
  gw_log : log_wf (log_ g);
  gw_terms : positive_terms (entries_ (log_ g));
  gw_boundary : last_snapshot_index_ g < start_index_ (log_ g)
}.

Lemma log_term_at g k :
  group_wf g ->
  log_term g (start_index_ (log_ g) + Z.of_nat k) =
    match entries_ (log_ g) !! k with Some x => term_ x | None => 0 end.
Proof.
  intros [W _ B]. pose proof (wf_start _ W). unfold log_term.
  rewrite decide_False, decide_False by lia. rewrite GetLogTerm_at by done. unfold log_at.
  rewrite decide_True by lia. by replace (Z.to_nat _) with k by lia.
Qed.

Lemma lookup_positive es k x : positive_terms es -> es !! k = Some x -> 0 < term_ x.
Proof. intros Hp Hk. by eapply Forall_lookup_1 in Hp. Qed.

Lemma contiguous_cons a e es :
  contiguous a (e :: es) -> index_ e = a /\ contiguous (a + 1) es.
Proof.
  intros Hc. split; [rewrite (Hc 0%nat e eq_refl); lia|].
  intros k x Hk. rewrite (Hc (S k) x Hk). lia.
Qed.

Section loops.
Context `{!Env}.

Lemma truncate_conflicts_run es k w :
  let g := group_ w in
  group_wf g -> contiguous (start_index_ (log_ g) + Z.of_nat k) es ->
  (k + length es + Z.to_nat (start_index_ (log_ g)) <= Z.to_nat UINT32_MAX)%nat ->
  exists l w', truncate_conflicts es w = Done tt w' /\ group_ w' = relog l g /\
    log_wf l /\ start_index_ l = start_index_ (log_ g) /\
    entries_ l = cut (entries_ (log_ g)) k es.
Proof.
  cbv zeta. intros Hg. revert k. induction es as [|e es IH]; intros k Hc Hb; simpl.
  { exists (log_ (group_ w)), w. split_and!; [done|by rewrite relog_id|apply Hg|done|done]. }
  apply contiguous_cons in Hc as [He Hc]. unfold GetLogTermLocked.
  rewrite run_bind, run_getg, He, log_term_at by done.
  replace (start_index_ (log_ (group_ w)) + Z.of_nat k + 1)
    with (start_index_ (log_ (group_ w)) + Z.of_nat (S k)) in Hc by lia.
  destruct (entries_ (log_ (group_ w)) !! k) as [x|] eqn:E.
  - pose proof (lookup_positive _ _ _ (gw_terms _ Hg) E).
    destruct (decide (term_ x = term_ e)) as [Ht|Ht].
    + rewrite decide_False by tauto. apply IH; [done|simpl in Hb; lia].
    + rewrite decide_True by (split; [lia|done]).
      pose proof (wf_start _ (gw_log _ Hg)).
      set (i := start_index_ (log_ (group_ w)) + Z.of_nat k) in *.
      assert (0 <= i <= UINT32_MAX) as Hi by (simpl in Hb; unfold i; lia).
      destruct (TruncateSuffix_run i _ (gw_log _ Hg) Hi) as (l&Hl&Hs&Hes&_).
      pose proof (TruncateSuffix_wf i _ (gw_log _ Hg) Hi) as Hwf. rewrite Hl in Hwf.
      rewrite run_bind, run_putg. exists l.
      assert (entries_ l = take k (entries_ (log_ (group_ w)))) as Hk.
      { rewrite Hes. f_equal. unfold i. lia. }
      destruct env_log_persister; simpl when; rewrite ?run_emit;
        (eexists; split_and!; [done| |done|done|done]); proj_simp; unfold relog; by rewrite <- Hl.
  - rewrite decide_False by tauto. destruct (IH (S k) Hc) as (l&w'&?&?&?&?&Hl); [simpl in Hb; lia|].
    exists l, w'. split_and!; try done. rewrite Hl.
    assert (forall j, (k <= j)%nat -> cut (entries_ (log_ (group_ w))) j es = entries_ (log_ (group_ w)))
      as Hcut; [|apply Hcut; lia].
    intros j Hj. destruct es; [done|]. simpl. rewrite lookup_ge_None_2; [done|].
    apply lookup_ge_None in E. lia.
Qed.

(** [L] agrees with the request wherever both have an entry. *)
Fixpoint agrees (L : list RaftLogEntry) (k : nat) (es : list RaftLogEntry) : Prop :=
  match es with
  | [] => True
  | e :: es' =>
      match L !! k with Some x => term_ x = term_ e /\ agrees L (S k) es' | None => True end
  end.

Lemma agrees_cut L k es : agrees (cut L k es) k es.
Proof.
  revert k. induction es as [|e es IH]; intros k; simpl; [done|].
  destruct (L !! k) as [x|] eqn:E; [|by rewrite E].
  case_decide as Ht; [|by rewrite lookup_take_ge by lia].
  rewrite cut_lookup, E by lia. split; [done|]. apply IH.
Qed.

Lemma cut_length L k es : (k <= length L)%nat -> (k <= length (cut L k es) <= length L)%nat.
Proof.
  revert k. induction es as [|e es IH]; intros k Hk; simpl; [lia|].
  destruct (L !! k) as [x|] eqn:E; [|lia]. apply lookup_lt_Some in E.
  case_decide; [|rewrite length_take; lia]. pose proof (IH (S k)). lia.
Qed.

Lemma cut_positive L k es : positive_terms L -> positive_terms (cut L k es).
Proof.
  intros HL. revert k. induction es as [|e es IH]; intros k; simpl; [done|].
  case_match; [|done]. case_decide; [apply IH|]. by apply Forall_take.
Qed.

Lemma expected_index_wf l : log_wf l -> expected_index l = next_free l.
Proof.
  intros W. pose proof (wf_start _ W). pose proof (wf_bound _ W). unfold expected_index, GetFirstIndex.
  destruct (GetLastLogInfo_cases l W) as [[E ->]|(e&_&->&?)]; simpl.
  - unfold next_free, log_size. rewrite E. simpl. lia.
  - rewrite decide_False by lia. rewrite u32_small by (unfold next_free in *; lia). lia.
Qed.

Lemma push_group_wf g e :
  group_wf g -> 0 < term_ e -> index_ e = next_free (log_ g) -> next_free (log_ g) < UINT32_MAX ->
  group_wf (relog (push_entry (log_ g) e) g).
Proof.
  intros [W P B] ? ? ?. split; [by apply push_entry_wf| |done].
  apply list.Forall_app. split; [done|]. by apply list.Forall_singleton.
Qed.

Lemma append_new_run es : forall k w,
  let g := group_ w in
  group_wf g -> positive_terms es -> contiguous (start_index_ (log_ g) + Z.of_nat k) es ->
  (k <= length (entries_ (log_ g)))%nat ->
  agrees (entries_ (log_ g)) k es ->
  start_index_ (log_ g) + Z.of_nat (length (entries_ (log_ g)) + length es) <= UINT32_MAX ->
  exists l w', append_new es w = Done None w' /\ group_ w' = relog l g /\
    log_wf l /\ start_index_ l = start_index_ (log_ g) /\
    entries_ l = extend (start_index_ (log_ g)) (entries_ (log_ g)) k es.
Proof.
  induction es as [|e es IH]; intros k w g Hg Hpos Hc Hk Ha Hb; cbn [append_new extend].
  { exists (log_ g), w. split_and!; [done|by rewrite relog_id|apply Hg|done|done]. }
  apply contiguous_cons in Hc as [He Hc]. apply list.Forall_cons in Hpos as [Hpe Hpos].
  replace (start_index_ (log_ g) + Z.of_nat k + 1)
    with (start_index_ (log_ g) + Z.of_nat (S k)) in Hc by lia.
  rewrite run_bind, run_getg. fold g. unfold GetFirstIndex. rewrite decide_False by lia.
  unfold GetLogTermLocked. rewrite run_bind, run_getg. fold g. rewrite He, log_term_at by done.
  simpl in Ha, Hb. destruct (entries_ (log_ g) !! k) as [x|] eqn:E.
  - pose proof (lookup_positive _ _ _ (gw_terms _ Hg) E). destruct Ha as [Ht Ha].
    rewrite decide_True by (split; [lia|done]). apply lookup_lt_Some in E.
    apply IH; try done; fold g; lia.
  - apply lookup_ge_None in E. assert (k = length (entries_ (log_ g))) as -> by lia.
    rewrite decide_False by tauto.
    assert (next_free (log_ g) = start_index_ (log_ g) + Z.of_nat (length (entries_ (log_ g)))) as Hn
      by done.
    rewrite expected_index_wf by apply Hg. rewrite decide_False by (rewrite Hn; tauto).
    rewrite run_bind, run_putg, Append_run by (apply Hg || lia). simpl snd.
    set (l1 := push_entry (log_ g) _). set (w1 := w <| group_ ::= _ |>).
    assert (exists w2, when env_log_persister (emit (LogAppend e None)) w1 = Done tt w2 /\
              group_ w2 = relog l1 g) as (w2&Hw&Hg2).
    { destruct env_log_persister; simpl when; [rewrite run_emit|]; by eexists. }
    rewrite run_bind, Hw.
    pose proof (push_group_wf g (stored (next_free (log_ g)) e) Hg Hpe eq_refl ltac:(lia)) as Hg'.
    destruct (IH (S (length (entries_ (log_ g)))) w2) as (l&w'&?&Hgw&?&Hs&Hes); rewrite ?Hg2; simpl;
      try done; try (unfold l1; simpl; len).
    { destruct es; [done|]. simpl. rewrite lookup_ge_None_2; [done|]. len. }
    rewrite Hg2 in Hgw, Hs, Hes. exists l, w'. split_and!; try done.
Qed.

(** Both loops together: the log becomes the merge. *)
Lemma merge_run {A} (m : option Index -> M A) es k w :
  let g := group_ w in
  group_wf g -> positive_terms es -> contiguous (start_index_ (log_ g) + Z.of_nat k) es ->
  (k <= length (entries_ (log_ g)))%nat ->
  start_index_ (log_ g) + Z.of_nat (length (entries_ (log_ g)) + length es) <= UINT32_MAX ->
  exists l w', (truncate_conflicts es ;; gap ← append_new es; m gap) w = m None w' /\
    group_ w' = relog l g /\ log_wf l /\ start_index_ l = start_index_ (log_ g) /\
    entries_ l = merge (start_index_ (log_ g)) (entries_ (log_ g)) k es.
Proof.
  intros g Hg Hpos Hc Hk Hb. pose proof (wf_start _ (gw_log _ Hg)).
  destruct (truncate_conflicts_run es k w) as (l1&w1&E1&Hg1&Hw1&Hs1&He1); fold g; [done..|lia|].
  rewrite run_bind, E1. fold g in Hg1, Hs1, He1.
  assert (log_ (group_ w1) = l1) as Hl1 by by rewrite Hg1.
  pose proof (cut_length (entries_ (log_ g)) k es Hk) as Hcl.
  destruct (append_new_run es k w1) as (l2&w2&E2&Hg2&Hw2&Hs2&He2); rewrite ?Hl1, ?Hs1, ?He1.
  - split; rewrite ?Hl1; [done| |].
    + rewrite He1. apply cut_positive, Hg.
    + rewrite Hs1, Hg1. apply Hg.
  - done.
  - done.
  - lia.
  - apply agrees_cut.
  - lia.
  - rewrite run_bind, E2. exists l2, w2. rewrite Hl1, Hs1, He1 in *. split_and!; try done.
    + by rewrite Hg2, Hg1.
    + rewrite He2. by apply extend_cut.
Qed.

(** ** Committing does not touch the log of a node that is not the leader *)

Definition keeps_log (w w' : Node) : Prop :=
  role_ (group_ w) <> LEADER ->
  role_ (group_ w') = role_ (group_ w) /\ log_ (group_ w') = log_ (group_ w).

#[local] Instance keeps_log_preorder : PreOrder keeps_log.
Proof.
  split; [intros w _; done|]. intros w1 w2 w3 H12 H23 Hr. destruct (H12 Hr) as [Hr2 Hl2].
  rewrite <- Hr2 in Hr. destruct (H23 Hr). split; congruence.
Qed.

#[local] Hint Extern 1 (keeps keeps_log (modify _)) =>
  (apply keeps_modify; intros ? _; split; reflexivity) : keeps.
#[local] Hint Extern 1 (keeps keeps_log (putg _)) =>
  (apply keeps_modify; intros ? _; split; reflexivity) : keeps.
#[local] Hint Extern 1 (keeps keeps_log (emit _)) =>
  (apply keeps_modify; intros ? _; split; reflexivity) : keeps.
#[local] Hint Extern 1 (keeps keeps_log (getg _)) => (eapply keeps_gets; apply _) : keeps.

Lemma keeps_log_leader_only m :
  keeps keeps_log (role ← getg role_; if decide (role = LEADER) then m else mret tt).
Proof. intros w Hr. rewrite run_bind, run_getg, decide_False by done. done. Qed.

Lemma keeps_log_ApplyConfigChange cmd : keeps keeps_log (ApplyConfigChangeLocked cmd).
Proof.
  pose proof keeps_log_leader_only.
  unfold ApplyConfigChangeLocked, apply_joint, apply_finalize, apply_add_learner, apply_promote,
    apply_add, apply_remove, learn_peer, upd_config, PersistClusterConfigLocked, SaveStateM,
    set_next_index, set_match_index.
  repeat (cbv beta zeta; first [ apply keeps_log_leader_only | keeps_step | solve [eauto with keeps] ]).
Qed.

Lemma keeps_log_ApplyCommitted : keeps keeps_log ApplyCommittedLocked.
Proof.
  pose proof keeps_log_ApplyConfigChange.
  assert (forall n, keeps keeps_log (apply_committed_loop n)) as Hl.
  { induction n; simpl; unfold apply_one, complete_config_proposal, push_task; keeps_solve. }
  unfold ApplyCommittedLocked. keeps_solve.
Qed.

Lemma keeps_log_follow_commit i : keeps keeps_log (follow_commit i).
Proof. pose proof keeps_log_ApplyCommitted. unfold follow_commit. keeps_solve. Qed.

End loops.

(** ** What the merge contains *)

Lemma merge_cases s L k es :
  (k <= length L)%nat ->
  (merge s L k es = L /\
   forall m e, es !! m = Some e -> exists x, L !! (k + m)%nat = Some x /\ term_ x = term_ e) \/
  (exists n, (n < length es)%nat /\ (k + n <= length L)%nat /\
     merge s L k es = take (k + n) L ++ store (s + Z.of_nat (k + n)) (drop n es) /\
     forall m e, (m < n)%nat -> es !! m = Some e ->
       exists x, L !! (k + m)%nat = Some x /\ term_ x = term_ e).
Proof.
  revert k. induction es as [|e es IH]; intros k Hk; simpl.
  { left. split; [done|]. intros m e. by rewrite lookup_nil. }
  destruct (L !! k) as [x|] eqn:E; [case_decide as Ht|].
  - apply lookup_lt_Some in E as Hlt. destruct (IH (S k)) as [[Hm Ha]|(n&Hn&Hl&Hm&Ha)]; [lia| |].
    + left. split; [done|]. intros [|m] e' Hm'; simpl in Hm'.
      * simplify_eq. exists x. by rewrite Nat.add_0_r.
      * destruct (Ha m e' Hm') as (y&?&?). exists y. by rewrite <- plus_n_Sm.
    + right. exists (S n). split_and!; [lia|lia| |].
      * simpl. rewrite Hm. by rewrite <- plus_n_Sm.
      * intros [|m] e' Hlt' Hm'; simpl in Hm'.
        -- simplify_eq. exists x. by rewrite Nat.add_0_r.
        -- destruct (Ha m e') as (y&?&?); [lia|done|]. exists y. by rewrite <- plus_n_Sm.
  - right. exists 0%nat. rewrite Nat.add_0_r. split_and!; [lia|lia|done|]. intros; lia.
  - right. exists 0%nat. rewrite Nat.add_0_r. apply lookup_ge_None in E.
    split_and!; [lia|lia| |intros; lia]. by rewrite take_ge by lia.
Qed.

Lemma store_lookup s es m : store s es !! m = stored (s + Z.of_nat m) <$> es !! m.
Proof.
  revert s m. induction es as [|e es IH]; intros s [|m]; simpl; try done.
  - do 2 f_equal. lia.
  - rewrite IH. f_equal. f_equal. lia.
Qed.

Lemma store_length s es : length (store s es) = length es.
Proof. revert s. induction es; intros s; simpl; auto. Qed.

(** The merge reaches at least to the end of the request. *)
Lemma merge_length s L k es : (k <= length L)%nat -> (k + length es <= length (merge s L k es))%nat.
Proof.
  intros Hk. destruct (merge_cases s L k es Hk) as [[-> Ha]|(n&Hn&Hl&->&_)].
  - destruct (decide (length es = 0)%nat); [lia|].
    destruct (lookup_lt_is_Some_2 es (length es - 1)) as [e He]; [lia|].
    destruct (Ha _ _ He) as (x&Hx&_). apply lookup_lt_Some in Hx. lia.
  - rewrite length_app, length_take, store_length, length_drop. lia.
Qed.

(** Left of the request nothing changes; at a request's entry the log has its
    term, and its data too unless the entry was there before; right of it the
    log is what it was, and only if there was no conflict. *)
Lemma merge_lookup s L k es j x :
  (k <= length L)%nat -> merge s L k es !! j = Some x ->
  (j < k /\ L !! j = Some x)%nat \/
  (exists m e, j = (k + m)%nat /\ es !! m = Some e /\ term_ x = term_ e /\
     (L !! j = Some x \/ x = stored (s + Z.of_nat j) e)) \/
  (k + length es <= j /\ merge s L k es = L /\ L !! j = Some x)%nat.
Proof.
  intros Hk Hx. destruct (decide (j < k)%nat) as [Hj|Hj].
  { left. split; [done|]. destruct (merge_cases s L k es Hk) as [[Hm _]|(n&_&Hl&Hm&_)];
      rewrite Hm in Hx; [done|]. rewrite lookup_app_l in Hx by (rewrite length_take; lia).
    by rewrite lookup_take_lt in Hx by lia. }
  right. assert (exists m, j = (k + m)%nat) as [m ->] by (exists (j - k)%nat; lia).
  destruct (merge_cases s L k es Hk) as [[Hm Ha]|(n&Hn&Hl&Hm&Ha)].
  - destruct (es !! m) as [e|] eqn:Ee.
    + left. exists m, e. destruct (Ha m e Ee) as (y&Hy&?). rewrite Hm in Hx. simplify_eq. auto.
    + right. apply lookup_ge_None in Ee. rewrite Hm in Hx. split_and!; [lia|done|done].
  - left. rewrite Hm in Hx. destruct (decide (m < n)%nat) as [Hmn|Hmn].
    + rewrite lookup_app_l in Hx by (rewrite length_take; lia).
      rewrite lookup_take_lt in Hx by lia.
      destruct (lookup_lt_is_Some_2 es m) as [e Ee]; [lia|].
      destruct (Ha m e Hmn Ee) as (y&?&?). exists m, e. simplify_eq. auto.
    + rewrite lookup_app_r in Hx by (rewrite length_take; lia).
      rewrite length_take, store_lookup, lookup_drop in Hx.
      apply fmap_Some in Hx as (e&Ee&->).
      replace (n + (k + m - (k + n) `min` length L))%nat with m in Ee by lia.
      exists m, e. split_and!; [done..|]. right. f_equal. lia.
Qed.

(** ** Log matching *)

Definition same_content (x y : RaftLogEntry) : Prop := term_ x = term_ y /\ data_ x = data_ y.

(** The logs agree on every index up to [i] that both hold. *)
Definition agree_upto (l l' : RaftLog) (i : Index) : Prop :=
  forall j x y, j <= i -> log_at l j = Some x -> log_at l' j = Some y -> same_content x y.

(** Every entry of [l'] up to [i], from the first index of [l] on, is in [l]. *)
Definition replicated (l l' : RaftLog) (i : Index) : Prop :=
  forall j y, start_index_ l <= j <= i -> log_at l' j = Some y ->
    exists x, log_at l j = Some x /\ same_content x y.

(** Log Matching: entries with the same index and term have the same history. *)
Definition log_matching (l l' : RaftLog) : Prop :=
  forall i x y, log_at l i = Some x -> log_at l' i = Some y -> term_ x = term_ y ->
    agree_upto l l' i.

Lemma log_at_entries l k : log_at l (start_index_ l + Z.of_nat k) = entries_ l !! k.
Proof. unfold log_at. rewrite decide_True by lia. f_equal. lia. Qed.

Lemma log_at_inv l i x :
  log_at l i = Some x -> exists k, i = start_index_ l + Z.of_nat k /\ entries_ l !! k = Some x.
Proof.
  intros [? Hk]%log_at_Some. exists (Z.to_nat (i - start_index_ l)). split; [lia|done].
Qed.

Section matching.
Context (l l' ll : RaftLog) (prev stop : Index).
Context (Hwf : log_wf ll) (Hm : log_matching l ll).
Context (Hprev : start_index_ l <= prev + 1 <= next_free l) (Hll : start_index_ ll <= prev + 1).

Let es := GetEntries ll (prev + 1) stop.
Let k := Z.to_nat (prev + 1 - start_index_ l).

Context (Hstart : start_index_ l' = start_index_ l).
Context (Hes : entries_ l' = merge (start_index_ l) (entries_ l) k es).
(** The previous entry matches, or lies left of one of the logs. *)
Context (Hmatch : prev + 1 = start_index_ l \/ prev + 1 = start_index_ ll \/
  exists x y, log_at l prev = Some x /\ log_at ll prev = Some y /\ term_ x = term_ y).

Lemma es_lookup m e : es !! m = Some e -> log_at ll (prev + 1 + Z.of_nat m) = Some e.
Proof.
  unfold es. pose proof (wf_start _ Hwf). rewrite lookup_GetEntries by (done || lia).
  rewrite Z.max_l by lia. by case_decide.
Qed.

Lemma k_bound : (k <= length (entries_ l))%nat.
Proof. unfold k, next_free, log_size in *. lia. Qed.

Lemma merged_agree : agree_upto l' ll (prev + Z.of_nat (length es)).
Proof.
  intros j x y Hj Hx Hy. apply log_at_inv in Hx as (p&->&Hx). rewrite Hstart in *.
  rewrite Hes in Hx. apply merge_lookup in Hx as [[Hp Hx]|[(m&e&->&He&Ht&Hx)|(Hge&_&Hx)]];
    [| | |exact k_bound].
  - destruct Hmatch as [Hb|[Hb|(x0&y0&Hx0&Hy0&Ht)]];
      [unfold k in Hp; lia|apply log_at_lt in Hy; unfold k in Hp; lia|].
    apply (Hm prev x0 y0 Hx0 Hy0 Ht (start_index_ l + Z.of_nat p)); [unfold k in Hp; lia| |done].
    by rewrite log_at_entries.
  - apply es_lookup in He as Hle.
    replace (start_index_ l + Z.of_nat (k + m)) with (prev + 1 + Z.of_nat m) in *
      by (unfold k; lia).
    simplify_eq. destruct Hx as [Hx| ->]; [|done].
    assert (log_at l (prev + 1 + Z.of_nat m) = Some x) as Hlx.
    { rewrite <- Hx, <- log_at_entries. f_equal. unfold k. lia. }
    by apply (Hm _ _ _ Hlx Hy Ht (prev + 1 + Z.of_nat m)).
  - unfold k in Hge. lia.
Qed.

Lemma merged_replicated : replicated l' ll (prev + Z.of_nat (length es)).
Proof.
  intros j y Hj Hy. rewrite Hstart in Hj.
  pose proof (merge_length (start_index_ l) (entries_ l) k es k_bound) as Hlen. rewrite <- Hes in Hlen.
  destruct (lookup_lt_is_Some_2 (entries_ l') (Z.to_nat (j - start_index_ l))) as [x Hx]; [unfold k in Hlen; lia|].
  rewrite <- log_at_entries, Hstart in Hx.
  replace (start_index_ l + Z.of_nat (Z.to_nat (j - start_index_ l))) with j in Hx by lia.
  exists x. split; [done|]. apply (merged_agree j); [lia|done..].
Qed.

Lemma merged_matching : log_matching l' ll.
Proof.
  intros i x y Hx Hy Ht. destruct (decide (i <= prev + Z.of_nat (length es))) as [Hi|Hi].
  { intros j x' y' Hj. apply merged_agree. lia. }
  assert (entries_ l' = entries_ l) as He.
  { apply log_at_inv in Hx as (p&->&Hx). rewrite Hstart in *. rewrite Hes in *.
    apply merge_lookup in Hx as [[Hp _]|[(m&e&->&He&_)|(_&Hm'&_)]]; [| |done|exact k_bound].
    - unfold k in Hp. lia.
    - apply lookup_lt_Some in He. unfold k in Hi. lia. }
  assert (forall j, log_at l' j = log_at l j) as Hat by (intros j; unfold log_at; by rewrite Hstart, He).
  intros j x' y' Hj Hx' Hy'. rewrite Hat in *. by apply (Hm i x y Hx Hy Ht j).
Qed.

End matching.

(** ** The whole handler *)

Lemma append_phase2_run `{!Env} (w : Node) (req : AppendEntriesRequest) (t : Term)
    (Hg : group_wf (group_ w)) (Hrole : role_ (group_ w) <> LEADER)
    (Hes : positive_terms (ae_entries req))
    (Hc : contiguous (ae_prev_log_index req + 1) (ae_entries req))
    (Hprev : start_index_ (log_ (group_ w)) <= ae_prev_log_index req + 1
             <= next_free (log_ (group_ w)))
    (Hb : next_free (log_ (group_ w)) + Z.of_nat (length (ae_entries req)) <= UINT32_MAX) :
  let g := group_ w in
  let o := append_phase2 req t w in
  let prev := ae_prev_log_index req in
  if decide (0 < prev /\ log_term g prev <> ae_prev_log_term req)
  then o = Done (mkAppendEntriesResponse t false prev 0) w
  else
    log_wf (log_ (group_ (final o))) /\
    start_index_ (log_ (group_ (final o))) = start_index_ (log_ g) /\
    entries_ (log_ (group_ (final o))) =
      merge (start_index_ (log_ g)) (entries_ (log_ g))
        (Z.to_nat (prev + 1 - start_index_ (log_ g))) (ae_entries req) /\
    forall resp w', o = Done resp w' ->
      resp = mkAppendEntriesResponse t true 0 (Z.of_nat (length (ae_entries req))).
Proof.
  cbv zeta. pose proof (wf_start _ (gw_log _ Hg)). pose proof (wf_bound _ (gw_log _ Hg)).
  unfold append_phase2. rewrite run_bind, run_getg. unfold id, GetFirstIndex. cbv zeta.
  rewrite (decide_False (P := 0 < _ /\ u32 _ < _))
    by (unfold next_free in *; rewrite u32_small by lia; lia).
  case_decide; [done|].
  edestruct (merge_run (fun gap => match gap with
      | Some expected => mret (mkAppendEntriesResponse t false expected 0)
      | None => follow_commit (ae_leader_commit req) ;;
          mret (mkAppendEntriesResponse t true 0 (u32 (Z.of_nat (length (ae_entries req))))) end)
    (ae_entries req) (Z.to_nat (ae_prev_log_index req + 1 - start_index_ (log_ (group_ w)))) w)
    as (l&w1&->&Hg1&Hl&Hs&Hm); [done|done| | | |].
  - by replace (_ + Z.of_nat _) with (ae_prev_log_index req + 1) by lia.
  - unfold next_free, log_size in *. lia.
  - unfold next_free, log_size in *. lia.
  - pose proof (keeps_log_follow_commit (ae_leader_commit req) w1) as Hk. rewrite run_bind.
    unfold keeps_log in Hk. rewrite Hg1 in Hk. destruct (follow_commit _ w1) as [u w2|w2]; simpl in *;
      destruct (Hk Hrole) as [_ ->]; split_and!; try done.
    intros resp w' [= <- <-]. f_equal. apply u32_small. unfold next_free in *.
    pose proof (log_size_nonneg (log_ (group_ w))). lia.
Qed.

Lemma GetEntries_contiguous l a b :
  log_wf l -> start_index_ l <= a -> contiguous a (GetEntries l a b).
Proof.
  intros W Ha k e. pose proof (wf_start _ W). rewrite lookup_GetEntries by (done || lia).
  rewrite Z.max_l by lia. case_decide; [|done]. by apply log_at_index.
Qed.

Lemma GetEntries_positive l a b :
  log_wf l -> positive_terms (entries_ l) -> 0 <= a -> positive_terms (GetEntries l a b).
Proof. intros W Hp Ha. rewrite GetEntries_wf by done. by apply Forall_take, Forall_drop. Qed.

(** An accepted previous entry is one both logs hold, or lies left of one. *)
Lemma prev_matches g lg prev :
  group_wf g -> group_wf lg ->
  start_index_ (log_ g) <= prev + 1 <= next_free (log_ g) -> start_index_ (log_ lg) <= prev + 1 ->
  (0 < prev -> log_term g prev = log_term lg prev) ->
  prev + 1 = start_index_ (log_ g) \/ prev + 1 = start_index_ (log_ lg) \/
  exists x y, log_at (log_ g) prev = Some x /\ log_at (log_ lg) prev = Some y /\ term_ x = term_ y.
Proof.
  intros Hg Hlg Hp Hlp Ht. destruct (decide (prev + 1 = start_index_ (log_ g))); [by left|right].
  destruct (decide (prev + 1 = start_index_ (log_ lg))); [by left|right].
  pose proof (wf_start _ (gw_log _ Hg)).
  destruct (log_at_is_Some (log_ g) prev ltac:(lia)) as [x Hx].
  specialize (Ht ltac:(lia)).
  assert (forall g', group_wf g' -> start_index_ (log_ g') <= prev ->
    log_term g' prev = match log_at (log_ g') prev with Some e => term_ e | None => 0 end) as Hlt.
  { intros g' Hg' Hs. replace prev with (start_index_ (log_ g') +
      Z.of_nat (Z.to_nat (prev - start_index_ (log_ g')))) by lia.
    rewrite log_term_at by done. by rewrite log_at_entries. }
  rewrite !Hlt, Hx in Ht by (done || lia).
  assert (0 < term_ x). { apply log_at_inv in Hx as (?&_&Hx). by eapply lookup_positive, Hx; apply Hg. }
  destruct (log_at (log_ lg) prev) as [y|]; [by exists x, y|lia].
Qed.

(** ** Sample states *)

Definition build_log (ents : list (Term * string)) : RaftLog :=
  foldl (fun l p => (Append p.1 p.2 l).2) RaftLog_init ents.

Definition sample_follower : Node :=
  node_init (relog (build_log [(1, "a"); (1, "b"); (1, "x")]) (sample_group 2 [1; 3] false false)).
Definition sample_leader : RaftGroup :=
  relog (build_log [(1, "a"); (1, "b"); (2, "c"); (2, "d")]) (sample_group 1 [2; 3] false false).
Definition sample_request : AppendEntriesRequest :=
  mkAppendEntriesRequest 2 1 2 1 (GetEntries (log_ sample_leader) 3 5) 3.

Lemma group_wf_check g :
  log_wfb (log_ g) = true -> forallb (fun e => 0 <? term_ e) (entries_ (log_ g)) = true ->
  last_snapshot_index_ g <? start_index_ (log_ g) = true -> group_wf g.
Proof.
  intros W P B. split; [by apply log_wfb_sound| |lia]. apply Forall_forall. intros e He.
  rewrite forallb_forall in P. apply P in He. lia.
Qed.

Lemma sample_follower_wf : group_wf (group_ sample_follower).
Proof. by apply group_wf_check. Qed.
Lemma sample_leader_wf : group_wf sample_leader.
Proof. by apply group_wf_check. Qed.

Lemma sample_matching : log_matching (log_ (group_ sample_follower)) (log_ sample_leader).
Proof.
  intros i x y Hx Hy Ht j x' y' Hj Hx' Hy'.
  apply log_at_inv in Hx as (k&Hk&Hx), Hx' as (k'&Hk'&Hx'), Hy as (q&Hq&Hy), Hy' as (q'&Hq'&Hy').
  change (start_index_ _) with 1 in *. assert (q = k) as -> by lia. assert (q' = k') as -> by lia.
  assert (k' <= k)%nat by lia. clear Hk Hk' Hq Hq' Hj.
  destruct k as [|[|[|k]]]; [| | |by apply lookup_lt_Some in Hx; simpl in Hx; lia];
    vm_compute in Hx, Hy; injection Hx as <-; injection Hy as <-; try discriminate Ht;
    (destruct k' as [|[|k']]; [| |lia]); vm_compute in Hx', Hy'; by simplify_eq.
Qed.

Lemma append_phase2_matching `{!Env} (w : Node) (lg : RaftGroup) (t prev stop commit : Z)
    (leader : NodeId)
    (Hg : group_wf (group_ w)) (Hrole : role_ (group_ w) <> LEADER) (Hlg : group_wf lg)
    (Hm : log_matching (log_ (group_ w)) (log_ lg))
    (Hprev : start_index_ (log_ (group_ w)) <= prev + 1 <= next_free (log_ (group_ w)))
    (Hlprev : start_index_ (log_ lg) <= prev + 1)
    (Hb : next_free (log_ (group_ w)) + log_size (log_ lg) <= UINT32_MAX) :
  let es := GetEntries (log_ lg) (prev + 1) stop in
  let req := mkAppendEntriesRequest t leader prev (log_term lg prev) es commit in
  let o := append_phase2 req t w in
  log_matching (log_ (group_ (final o))) (log_ lg) /\
  forall resp w', o = Done resp w' -> aer_success resp = true ->
    start_index_ (log_ (group_ w')) = start_index_ (log_ (group_ w)) /\
    replicated (log_ (group_ w')) (log_ lg) (prev + Z.of_nat (length es)).
Proof.
  cbv zeta. set (es := GetEntries (log_ lg) (prev + 1) stop).
  pose proof (wf_start _ (gw_log _ Hlg)). pose proof (wf_start _ (gw_log _ Hg)).
  assert (Z.of_nat (length es) <= log_size (log_ lg)) as Hlen.
  { unfold es, log_size. rewrite GetEntries_wf by (apply Hlg || lia). rewrite length_take, length_drop.
    lia. }
  pose proof (append_phase2_run w
    (mkAppendEntriesRequest t leader prev (log_term lg prev) es commit) t Hg Hrole) as Hrun.
  simpl in Hrun.
  assert (positive_terms es) as Hpos by (apply GetEntries_positive; [apply Hlg..|lia]).
  assert (contiguous (prev + 1) es) as Hc by (apply GetEntries_contiguous; [apply Hlg|lia]).
  specialize (Hrun Hpos Hc Hprev ltac:(lia)).
  revert Hrun. case_decide as Hd.
  - intros ->. simpl. split; [done|]. by intros ? ? [= <- <-].
  - intros (_&Hs&He&_).
    assert (prev + 1 = start_index_ (log_ (group_ w)) \/ prev + 1 = start_index_ (log_ lg) \/
      exists x y, log_at (log_ (group_ w)) prev = Some x /\ log_at (log_ lg) prev = Some y /\
        term_ x = term_ y) as Hmatch.
    { apply prev_matches; try done. intros Hp. destruct (decide (log_term (group_ w) prev = log_term lg prev)); tauto. }
    split.
    + by eapply merged_matching; [apply Hlg|..].
    + intros resp w' E _. rewrite E in Hs, He. split; [done|]. by eapply merged_replicated; [apply Hlg|..].
Qed.

(** ** Properties *)

(** C3. AppendEntries refines the merge of two logs.  For a request whose
    previous entry matches and whose entries are consecutive, the handler of a
    node that is not the leader leaves exactly the merge of its log with the
    request, well-formed, whatever is committed or applied on the way, and a
    completed run answers success with the number of entries; a request whose
    previous entry does not match changes nothing and is rejected with a
    conflict hint. *)
Theorem append_entries_refines `{!Env} (w : Node) (req : AppendEntriesRequest) (t : Term)
    (Hg : group_wf (group_ w)) (Hrole : role_ (group_ w) <> LEADER)
    (Hes : positive_terms (ae_entries req))
    (Hc : contiguous (ae_prev_log_index req + 1) (ae_entries req))
    (Hprev : start_index_ (log_ (group_ w)) <= ae_prev_log_index req + 1
             <= next_free (log_ (group_ w)))
    (Hb : next_free (log_ (group_ w)) + Z.of_nat (length (ae_entries req)) <= UINT32_MAX) :
  let g := group_ w in
  let o := append_phase2 req t w in
  let prev := ae_prev_log_index req in
  if decide (0 < prev /\ log_term g prev <> ae_prev_log_term req)
  then o = Done (mkAppendEntriesResponse t false prev 0) w
  else
    log_wf (log_ (group_ (final o))) /\
    start_index_ (log_ (group_ (final o))) = start_index_ (log_ g) /\
    entries_ (log_ (group_ (final o))) =
      merge (start_index_ (log_ g)) (entries_ (log_ g))
        (Z.to_nat (prev + 1 - start_index_ (log_ g))) (ae_entries req) /\
    forall resp w', o = Done resp w' ->
      resp = mkAppendEntriesResponse t true 0 (Z.of_nat (length (ae_entries req))).
Proof. by apply append_phase2_run. Qed.

Lemma append_entries_refines_witness :
  let o := @append_phase2 (sample_env true true 0) sample_request 2 sample_follower in
  data_ <$> entries_ (log_ (group_ (final o))) = ["a"; "b"; "c"; "d"].
Proof.
  pose proof (@append_entries_refines (sample_env true true 0) sample_follower sample_request 2
    sample_follower_wf ltac:(done) ltac:(repeat constructor)
    ltac:(intros [|[|k]] e He; [injection He as <-; reflexivity..|by destruct k])
    ltac:(vm_compute; split; discriminate) ltac:(vm_compute; discriminate)) as H.
  cbv zeta in *. rewrite decide_False in H by (vm_compute; tauto).
  destruct H as (_&_&->&_). reflexivity.
Defined.

(** Log Matching is kept, and success means agreement.  When a follower's
    log matches the leader's (entries with the same index and term have the
    same history) and it handles a request cut from the leader's log, then the
    logs still match, and after a success the follower holds, with term and
    data, every entry of the leader's log up to the last one of the request. *)
Theorem append_entries_log_matching `{!Env} (w : Node) (lg : RaftGroup) (t prev stop commit : Z)
    (leader : NodeId)
    (Hg : group_wf (group_ w)) (Hrole : role_ (group_ w) <> LEADER) (Hlg : group_wf lg)
    (Hm : log_matching (log_ (group_ w)) (log_ lg))
    (Hprev : start_index_ (log_ (group_ w)) <= prev + 1 <= next_free (log_ (group_ w)))
    (Hlprev : start_index_ (log_ lg) <= prev + 1)
    (Hb : next_free (log_ (group_ w)) + log_size (log_ lg) <= UINT32_MAX) :
  let es := GetEntries (log_ lg) (prev + 1) stop in
  let req := mkAppendEntriesRequest t leader prev (log_term lg prev) es commit in
  let o := append_phase2 req t w in
  log_matching (log_ (group_ (final o))) (log_ lg) /\
  forall resp w', o = Done resp w' -> aer_success resp = true ->
    start_index_ (log_ (group_ w')) = start_index_ (log_ (group_ w)) /\
    replicated (log_ (group_ w')) (log_ lg) (prev + Z.of_nat (length es)).
Proof. by apply append_phase2_matching. Qed.

Lemma append_entries_log_matching_witness :
  let o := @append_phase2 (sample_env true true 0) sample_request 2 sample_follower in
  exists resp w', o = Done resp w' /\ aer_success resp = true /\
    replicated (log_ (group_ w')) (log_ sample_leader) 4.
Proof.
  cbv zeta. pose proof (@append_entries_log_matching (sample_env true true 0)
    sample_follower sample_leader 2 2 5 3 1 sample_follower_wf ltac:(done) sample_leader_wf
    sample_matching ltac:(vm_compute; split; discriminate) ltac:(vm_compute; discriminate)
    ltac:(vm_compute; discriminate)) as [_ H].
  change (mkAppendEntriesRequest 2 1 2 (log_term sample_leader 2)
    (GetEntries (log_ sample_leader) (2 + 1) 5) 3) with sample_request in H.
  set (o := @append_phase2 _ _ _ _) in *.
  assert (match o with Done resp _ => aer_success resp | Aborted _ => false end = true) as Hok
    by (vm_compute; reflexivity).
  clearbody o. destruct o as [resp w'|w']; [|discriminate Hok].
  exists resp, w'. split; [reflexivity|]. split; [exact Hok|]. exact (proj2 (H resp w' eq_refl Hok)).
Defined.
