(* ===== verification/Commit.v ===== *)
(** * Committing and applying

    [TryCommitLocked] commits the highest index of the current term that a
    majority holds; [ApplyCommittedLocked] hands every committed entry to the
    apply queue, in order and once; [ApplyLoop] applies them. *)

From Stdlib Require Import Sorted.
From S2P Require Import Prelude Types RaftLog Quorum Sessions RaftGroup Timers Replicate.
From S2P Require Import Membership Apply Election Leader Follower Replication.

(** ** What applying a configuration change leaves alone *)

(** The fields that committing works on. *)
Definition same_progress (w w' : Node) : Prop :=
  commit_index_ (group_ w') = commit_index_ (group_ w) /\
  last_enqueued_ (group_ w') = last_enqueued_ (group_ w) /\
  apply_queue_ (group_ w') = apply_queue_ (group_ w) /\
  last_applied_ (group_ w') = last_applied_ (group_ w).

Definition same_log (w w' : Node) : Prop :=
  same_progress w w' /\ log_ (group_ w') = log_ (group_ w).

#[global] Instance same_log_preorder : PreOrder same_log.
Proof.
  split; [by intros w|]. intros w1 w2 w3 [(?&?&?&?) ?] [(?&?&?&?) ?].
  split; [split_and!|]; congruence.
Qed.

(** Nothing but, possibly, one more entry at the end of the log. *)
Definition one_append (w w' : Node) : Prop :=
  same_progress w w' /\
  (log_ (group_ w') = log_ (group_ w) \/
   exists t c, log_ (group_ w') = (Append t c (log_ (group_ w))).2).

Ltac same_leaf :=
  apply runs_modify; intros ?; unfold same_log, same_progress; split_and!; reflexivity.
#[export] Hint Extern 1 (runs same_log (modify _)) => same_leaf : keeps.
#[export] Hint Extern 1 (runs same_log (putg _)) => same_leaf : keeps.
#[export] Hint Extern 1 (runs same_log (emit _)) => same_leaf : keeps.
#[export] Hint Extern 1 (runs same_log (getg _)) => (eapply runs_gets; apply _) : keeps.

Lemma runs_same_one {A} (m : M A) : runs same_log m -> runs one_append m.
Proof.
  intros Hm w. destruct (Hm w) as (a&w'&E&?&Hl). exists a, w'. split; [done|]. split; [done|by left].
Qed.

Lemma runs_one_after {A B} (m : M A) (k : A -> M B) :
  runs same_log m -> (forall a, runs one_append (k a)) -> runs one_append (m ≫= k).
Proof.
  intros Hm Hk w. destruct (Hm w) as (a&w1&E1&(?&?&?&?)&Hl). destruct (Hk a w1) as (b&w2&E2&(?&?&?&?)&Hl2).
  exists b, w2. rewrite run_bind, E1. split; [done|]. split; [split_and!; congruence|].
  by rewrite Hl in Hl2.
Qed.

Lemma runs_one_before {A B} (m : M A) (k : A -> M B) :
  runs one_append m -> (forall a, runs same_log (k a)) -> runs one_append (m ≫= k).
Proof.
  intros Hm Hk w. destruct (Hm w) as (a&w1&E1&(?&?&?&?)&Hl). destruct (Hk a w1) as (b&w2&E2&(?&?&?&?)&Hl2).
  exists b, w2. rewrite run_bind, E1. split; [done|]. split; [split_and!; congruence|].
  by rewrite Hl2.
Qed.

Section config.
Context `{!Env}.

Lemma runs_SendAppendEntries p : runs same_log (SendAppendEntriesToPeerLocked p).
Proof.
  unfold SendAppendEntriesToPeerLocked, SendInstallSnapshotToPeerLocked,
    SendNextSnapshotChunkLocked, set_send, set_next_index, GetLogTermLocked. runs_solve.
Qed.

Lemma runs_broadcast_loop n p : runs same_log (broadcast_loop n p).
Proof.
  pose proof runs_SendAppendEntries. induction n; simpl; unfold next_index_at; runs_solve.
Qed.

Lemma runs_Broadcast : runs same_log BroadcastAppendEntriesLocked.
Proof. pose proof runs_broadcast_loop. unfold BroadcastAppendEntriesLocked. runs_solve. Qed.

Lemma runs_PersistClusterConfig : runs same_log PersistClusterConfigLocked.
Proof. unfold PersistClusterConfigLocked, SaveStateM. runs_solve. Qed.
Hint Resolve runs_Broadcast runs_PersistClusterConfig : keeps.

Lemma runs_append_and_persist cmd : runs one_append (append_and_persist cmd).
Proof.
  intros w. unfold append_and_persist. rewrite run_bind, run_getg, run_bind, run_getg.
  destruct (Append _ _ _) as [idx l] eqn:E. rewrite run_bind, run_putg.
  set (w1 := w <| group_ ::= _ |>).
  assert (one_append w w1) as Hw.
  { split; [done|]. right. eexists _, _. unfold w1. proj_simp. by rewrite E. }
  match goal with |- context [?m w1] => assert (runs same_log m) as Hm by runs_solve end.
  destruct (Hm w1) as (a&w2&E2&(?&?&?&?)&Hl). exists a, w2. split; [done|].
  destruct Hw as [(?&?&?&?) Hl1]. split; [split_and!; congruence|]. by rewrite Hl.
Qed.

Lemma runs_apply_joint cmd : runs one_append (apply_joint cmd).
Proof.
  unfold apply_joint, upd_config.
  repeat first [ progress cbv beta zeta
    | apply runs_one_after; [solve [runs_solve]|intros ?]
    | apply runs_one_before; [apply runs_append_and_persist|intros ?; runs_solve]
    | apply runs_same_one; solve [runs_solve]
    | case_match ].
Qed.

Lemma runs_ApplyConfigChange cmd : runs one_append (ApplyConfigChangeLocked cmd).
Proof.
  unfold ApplyConfigChangeLocked. apply runs_one_before; [|intros ?; runs_solve].
  destruct (starts_with _ _); [apply runs_apply_joint|]. apply runs_same_one.
  unfold apply_finalize, apply_add_learner, apply_promote, apply_add, apply_remove, learn_peer,
    upd_config, set_next_index, set_match_index. runs_solve.
Qed.

End config.

(** ** Enqueueing *)

(** The task that index [i] of log [l] is handed over as. *)
Definition task_for (l : RaftLog) (i : Index) (t : ApplyTask) : Prop :=
  at_index t = i /\
  exists e, log_at l i = Some e /\
    at_is_config_change t = is_config_command (data_ e) /\
    at_data t = if is_config_command (data_ e) then "" else data_ e.

(** [l'] is [l] with more entries at the end. *)
Definition extends (l l' : RaftLog) : Prop :=
  start_index_ l' = start_index_ l /\ exists es, entries_ l' = entries_ l ++ es.

#[global] Instance extends_preorder : PreOrder extends.
Proof.
  split.
  - intros l. split; [done|]. exists []. by rewrite app_nil_r.
  - intros l1 l2 l3 [? [es1 E1]] [? [es2 E2]]. split; [congruence|]. exists (es1 ++ es2).
    by rewrite E2, E1, (assoc_L (++)).
Qed.

Lemma extends_at l l' i e : extends l l' -> log_at l i = Some e -> log_at l' i = Some e.
Proof.
  intros [Hs [es E]]. rewrite !log_at_Some, Hs, E. intros [? Hl]. split; [done|].
  by apply lookup_app_l_Some.
Qed.

Lemma extends_next_free l l' : extends l l' -> next_free l <= next_free l'.
Proof. intros [Hs [es E]]. unfold next_free, log_size. rewrite Hs, E. len. Qed.

(** A log after at most one append. *)
Lemma one_append_log l l' :
  log_wf l -> next_free l < UINT32_MAX ->
  l' = l \/ (exists t c, l' = (Append t c l).2) ->
  log_wf l' /\ extends l l' /\ next_free l' <= next_free l + 1.
Proof.
  intros W Hb [->|(t&c&->)]; [split_and!; [done|reflexivity|lia]|].
  rewrite Append_run by done. simpl. split_and!.
  - by apply push_entry_wf.
  - split; [done|]. by eexists.
  - unfold next_free, log_size. simpl. len.
Qed.

Section enqueue.
Context `{!Env}.

Lemma apply_one_run w :
  let g := group_ w in
  log_wf (log_ g) -> next_free (log_ g) < UINT32_MAX ->
  0 <= last_enqueued_ g -> start_index_ (log_ g) <= last_enqueued_ g + 1 < next_free (log_ g) ->
  exists w' t, apply_one w = Done tt w' /\
    commit_index_ (group_ w') = commit_index_ g /\
    last_applied_ (group_ w') = last_applied_ g /\
    last_enqueued_ (group_ w') = last_enqueued_ g + 1 /\
    apply_queue_ (group_ w') = apply_queue_ g ++ [t] /\
    task_for (log_ g) (last_enqueued_ g + 1) t /\
    log_wf (log_ (group_ w')) /\ extends (log_ g) (log_ (group_ w')) /\
    next_free (log_ (group_ w')) <= next_free (log_ g) + 1.
Proof.
  intros g W Hb H0 Hr. unfold apply_one. rewrite run_bind, run_putg, run_bind, run_getg.
  rewrite run_bind, run_getg. proj_simp. fold g.
  rewrite u32_small by lia. rewrite GetEntry_at by done.
  destruct (log_at_is_Some (log_ g) (last_enqueued_ g + 1) Hr) as [e He]. rewrite He.
  set (w1 := w <| group_ ::= _ |>).
  assert (last_enqueued_ (group_ w1) = last_enqueued_ g + 1) as Hq1
    by (unfold w1; proj_simp; fold g; by rewrite u32_small by lia).
  destruct (is_config_command (data_ e)) eqn:Hcfg.
  - destruct (runs_ApplyConfigChange (data_ e) w1) as ([]&w2&E2&(?&?&?&?)&Hl2).
    rewrite run_bind, E2, run_bind.
    assert (runs same_log (complete_config_proposal (last_enqueued_ g + 1))) as Hcc
      by (unfold complete_config_proposal; runs_solve).
    destruct (Hcc w2) as ([]&w3&E3&(?&?&?&?)&Hl3). rewrite E3. unfold push_task. rewrite run_putg.
    rewrite <- Hl3 in Hl2. apply one_append_log in Hl2 as (?&?&?); [|done..].
    assert (commit_index_ (group_ w1) = commit_index_ g /\
      last_applied_ (group_ w1) = last_applied_ g /\
      apply_queue_ (group_ w1) = apply_queue_ g) as (?&?&?) by done.
    eexists _, _. split; [done|]. proj_simp. split_and!; try congruence; try done.
    { by replace (apply_queue_ (group_ w3)) with (apply_queue_ g) by congruence. }
    split; [done|]. exists e. by rewrite Hcfg.
  - rewrite run_bind, run_getg, run_bind, run_getg.
    destruct (default _ _) as [sid seq]. rewrite run_bind, run_putg, run_bind, run_putg.
    unfold push_task. rewrite run_putg. eexists _, _. split; [done|]. proj_simp. fold g.
    assert (log_ (group_ w1) = log_ g) as -> by done.
    assert (task_for (log_ g) (last_enqueued_ g + 1)
      (mkApplyTask (last_enqueued_ g + 1) (data_ e) (p ← pending_proposals_ (group_ w1) !! (last_enqueued_ g + 1); pp_callback p)
        false (pp_propose_time <$> pending_proposals_ (group_ w1) !! (last_enqueued_ g + 1)) sid seq))
      by (split; [done|]; exists e; by rewrite Hcfg).
    split_and!; try done; lia.
Qed.

Lemma task_for_extends l l' i t :
  extends l l' -> start_index_ l <= i < next_free l -> task_for l' i t -> task_for l i t.
Proof.
  intros Hext Hr (?&e'&He'&?). split; [done|].
  destruct (log_at_is_Some l i Hr) as [e He]. exists e. split; [done|].
  rewrite (extends_at _ _ _ _ Hext He) in He'. by injection He' as ->.
Qed.

Lemma apply_committed_loop_run l n : forall w,
  let g := group_ w in
  log_wf (log_ g) -> extends l (log_ g) ->
  next_free (log_ g) + Z.of_nat n <= UINT32_MAX ->
  0 <= last_enqueued_ g -> commit_index_ g = last_enqueued_ g + Z.of_nat n ->
  start_index_ l <= last_enqueued_ g + 1 -> last_enqueued_ g + Z.of_nat n < next_free l ->
  exists w' ts, apply_committed_loop n w = Done tt w' /\
    commit_index_ (group_ w') = commit_index_ g /\
    last_applied_ (group_ w') = last_applied_ g /\
    last_enqueued_ (group_ w') = commit_index_ g /\
    apply_queue_ (group_ w') = apply_queue_ g ++ ts /\
    Forall2 (task_for l) (seqZ (last_enqueued_ g + 1) (Z.of_nat n)) ts /\
    log_wf (log_ (group_ w')) /\ extends l (log_ (group_ w')).
Proof.
  induction n as [|n IH]; intros w g W Hx Hb H0 Hc Hs Hl; cbn [apply_committed_loop].
  { exists w, []. rewrite app_nil_r. split_and!; try done; fold g; lia. }
  rewrite run_bind, run_getg, run_bind, run_getg. fold g. rewrite decide_True by lia.
  pose proof (extends_next_free _ _ Hx). pose proof (proj1 Hx) as Hst.
  destruct (apply_one_run w) as (w1&t&E1&Hc1&Ha1&Hq1&Ht1&Htask&W1&Hx1&Hn1); fold g; [done|lia..|].
  fold g in Hc1, Ha1, Hq1, Ht1, Htask, Hx1, Hn1.
  destruct (IH w1) as (w2&ts&E2&Hc2&Ha2&Hq2&Ht2&Hts&W2&Hx2);
    [done|by transitivity (log_ g)|lia..|].
  exists w2, (t :: ts). rewrite run_bind, E1, E2, Hc2, Hc1, Ha2, Ha1, Hq2, Ht2, Ht1, <- (assoc_L (++)).
  rewrite seqZ_cons by lia.
  replace (Z.pred (Z.of_nat (S n))) with (Z.of_nat n) by lia.
  replace (Z.succ (last_enqueued_ g + 1)) with (last_enqueued_ (group_ w1) + 1) by lia.
  split_and!; try done. constructor; [|done]. eapply task_for_extends; [exact Hx|lia|exact Htask].
Qed.

Lemma ApplyCommitted_run w :
  let g := group_ w in
  log_wf (log_ g) -> 0 <= last_enqueued_ g <= commit_index_ g ->
  start_index_ (log_ g) <= last_enqueued_ g + 1 -> commit_index_ g < next_free (log_ g) ->
  next_free (log_ g) + (commit_index_ g - last_enqueued_ g) <= UINT32_MAX ->
  exists w' ts, ApplyCommittedLocked w = Done tt w' /\
    commit_index_ (group_ w') = commit_index_ g /\
    last_applied_ (group_ w') = last_applied_ g /\
    last_enqueued_ (group_ w') = commit_index_ g /\
    apply_queue_ (group_ w') = apply_queue_ g ++ ts /\
    Forall2 (task_for (log_ g)) (seqZ (last_enqueued_ g + 1) (commit_index_ g - last_enqueued_ g)) ts /\
    log_wf (log_ (group_ w')) /\ extends (log_ g) (log_ (group_ w')).
Proof.
  intros g W ? ? ? ?. unfold ApplyCommittedLocked. rewrite run_bind, run_getg. fold g.
  pose proof (apply_committed_loop_run (log_ g) (Z.to_nat (commit_index_ g - last_enqueued_ g)) w) as H'.
  cbv zeta in H'. fold g in H'. rewrite !Z2Nat.id in H' by lia.
  apply H'; try done; lia.
Qed.

(** ** The commit index *)

(** The loop of [TryCommitLocked] changes nothing until it has found its
    index. *)
Lemma try_commit_loop_run n : forall i w, let g := group_ w in
  i <= commit_index_ g + Z.of_nat n ->
  (try_commit_loop n i w = Done tt w /\
   forall j, commit_index_ g < j <= i -> (forall k, j <= k <= i -> log_term g k = current_term_ g) ->
     can_commit g j = false) \/
  exists j, commit_index_ g < j <= i /\ can_commit g j = true /\
    (forall k, j <= k <= i -> log_term g k = current_term_ g) /\
    (forall k, j < k <= i -> can_commit g k = false) /\
    try_commit_loop n i w =
      ApplyCommittedLocked (w <| group_ ::= fun g => g <| commit_index_ := j |> |>).
Proof.
  induction n as [|n IH]; intros i w g Hi; cbn [try_commit_loop].
  { left. split; [done|]. lia. }
  rewrite run_bind, run_getg. fold g. unfold id.
  case_decide as Hc; [|left; split; [done|lia]].
  case_decide as Ht.
  { left. split; [done|]. intros j Hj Hk. destruct Ht. apply Hk. lia. }
  destruct (can_commit g i) eqn:Hcan.
  - right. exists i. split; [lia|]. split; [done|]. split; [|split; [intros; lia|done]].
    intros k ?. by replace k with i by lia.
  - pose proof (IH (i - 1) w) as Hrun. cbv zeta in Hrun. fold g in Hrun.
    destruct Hrun as [[E Hno]|(j&Hj&Hcj&Hterm&Hmax&E)]; [lia|left|right].
    + split; [done|]. intros j Hj Hk. destruct (decide (j = i)) as [->|]; [done|].
      apply Hno; [lia|]. intros k ?. apply Hk. lia.
    + exists j. split; [lia|]. split; [done|]. split; [|split; [|done]].
      * intros k ?. destruct (decide (k = i)) as [->|]; [done|]. apply Hterm. lia.
      * intros k ?. destruct (decide (k = i)) as [->|]; [done|]. apply Hmax. lia.
Qed.

End enqueue.

(** The servers that hold an index: the leader and the peers whose match index
    has reached it. *)
Definition holders (g : RaftGroup) (i : Index) : gset Z :=
  {[server_id_ g]} ∪ dom (filter (fun p => i <= p.2) (match_index_ g)).

Lemma in_old_simple c id : is_joint c = false -> in_old c id = false.
Proof. unfold in_old. by intros ->. Qed.

Lemma IsVoter_simple c id : is_joint c = false -> IsVoter c id = IsMember id (nodes c).
Proof. unfold IsVoter. intros ->. by destruct (IsMember _ _). Qed.

Definition holder_list (g : RaftGroup) (i : Index) : list NodeId :=
  server_id_ g :: (filter (fun p => i <= p.2) (map_to_list (match_index_ g))).*1.

Lemma holder_list_elements g i :
  match_index_ g !! server_id_ g = None -> holder_list g i ≡ₚ elements (holders g i).
Proof.
  intros Hself. apply NoDup_Permutation.
  - apply list.NoDup_cons. split.
    + intros Hin. apply list_elem_of_fmap in Hin as ([k v]&Hk&Hin). simpl in Hk. subst k.
      apply list_elem_of_filter in Hin as [_ Hin]. apply elem_of_map_to_list in Hin. congruence.
    + eapply sublist_NoDup; [apply (NoDup_fst_map_to_list (match_index_ g))|].
      apply fmap_sublist, sublist_filter.
  - apply NoDup_elements.
  - intros x. unfold holder_list, holders.
    rewrite elem_of_elements, elem_of_union, elem_of_singleton, elem_of_dom, elem_of_cons.
    apply or_iff_compat_l. rewrite list_elem_of_fmap. split.
    + intros ([k v]&->&Hin). apply list_elem_of_filter in Hin as [Hv Hin].
      apply elem_of_map_to_list in Hin. exists v. by apply map_lookup_filter_Some.
    + intros [v Hv]. apply map_lookup_filter_Some in Hv as [Hv ?]. exists (x, v).
      split; [done|]. apply list_elem_of_filter. by rewrite elem_of_map_to_list.
Qed.

Lemma can_commit_quorum g i :
  is_joint (cluster_config_ g) = false -> match_index_ g !! server_id_ g = None ->
  can_commit g i = QuorumSatisfied (cluster_config_ g) (holders g i).
Proof.
  intros Hj Hself. unfold can_commit, commit_counts, QuorumSatisfied, JointMajoritySatisfied.
  rewrite Hj. simpl. fold (holder_list g i). unfold count_in.
  rewrite (list_filter_iff _ (fun v => v ∈ nodes (cluster_config_ g)))
    by (intros x; by rewrite IsVoter_simple, IsMember_spec).
  by rewrite (Permutation_length (filter_Permutation _ _ _ (holder_list_elements g i Hself))).
Qed.

(** *** The commit rule in terms of the voters *)

(** [v] has stored the log up to [i]: the leader itself, or a peer whose match
    index has reached it. *)
Definition stored_on (g : RaftGroup) (i : Index) (v : NodeId) : Prop :=
  v = server_id_ g \/ exists m, match_index_ g !! v = Some m /\ i <= m.

(** More than half of the voters have. *)
Definition majority_stores (g : RaftGroup) (i : Index) : Prop :=
  exists V : gset Z,
    (forall v, v ∈ V -> v ∈ nodes (cluster_config_ g) /\ stored_on g i v) /\
    (length (nodes (cluster_config_ g)) < 2 * size V)%nat.

Definition committable (g : RaftGroup) (i : Index) : Prop :=
  (exists e, log_at (log_ g) i = Some e /\ term_ e = current_term_ g) /\
  i <= flushed_index_ g /\ majority_stores g i.

Definition terms_ordered (g : RaftGroup) : Prop :=
  forall i j x y, i <= j -> log_at (log_ g) i = Some x -> log_at (log_ g) j = Some y ->
    term_ x <= term_ y <= current_term_ g.

Lemma elem_of_holders g i v : v ∈ holders g i <-> stored_on g i v.
Proof.
  unfold holders, stored_on. rewrite elem_of_union, elem_of_singleton, elem_of_dom.
  apply or_iff_compat_l. split.
  - intros [m Hm]. apply map_lookup_filter_Some in Hm as [Hm ?]. by exists m.
  - intros (m&Hm&?). exists m. by apply map_lookup_filter_Some.
Qed.

Lemma can_commit_majority g i :
  config_small (cluster_config_ g) -> is_joint (cluster_config_ g) = false ->
  match_index_ g !! server_id_ g = None ->
  can_commit g i = true <-> majority_stores g i.
Proof.
  intros Hsmall Hj Hself. rewrite can_commit_quorum, QuorumSatisfied_spec, count_in_size by done.
  pose proof (Z.div_mod (Z.of_nat (length (nodes (cluster_config_ g)))) 2 ltac:(lia)) as Hd.
  pose proof (Z.mod_pos_bound (Z.of_nat (length (nodes (cluster_config_ g)))) 2 ltac:(lia)) as Hm. split.
  - intros [Hc _]. exists (holders g i ∩ list_to_set (nodes (cluster_config_ g))). split; [|lia].
    intros v [Hv Hn]%elem_of_intersection. apply elem_of_list_to_set in Hn. split; [done|]. by apply elem_of_holders.
  - intros (U&HU&Hlen). split; [|by rewrite Hj].
    assert (size U <= size (holders g i ∩ list_to_set (nodes (cluster_config_ g))))%nat; [|lia].
    apply subseteq_size. intros v Hv. destruct (HU v Hv) as [Hn Hst].
    apply elem_of_intersection. split; [by apply elem_of_holders|by apply elem_of_list_to_set].
Qed.

Lemma log_term_entry g i e : group_wf g -> log_at (log_ g) i = Some e -> log_term g i = term_ e.
Proof. intros W (k&->&Hk)%log_at_inv. rewrite log_term_at by done. by rewrite Hk. Qed.

Lemma commit_ceiling_le g i :
  group_wf g -> start_index_ (log_ g) <= i ->
  i <= commit_ceiling g <-> i < next_free (log_ g) /\ i <= flushed_index_ g.
Proof.
  intros W Hi. pose proof (wf_start _ (gw_log _ W)). unfold commit_ceiling.
  destruct (GetLastLogInfo_cases _ (gw_log _ W)) as [[E ->]|(e&_&->&_)]; simpl; [|lia].
  unfold next_free, log_size. rewrite E. simpl. lia.
Qed.

Lemma committable_iff g i :
  group_wf g -> start_index_ (log_ g) <= i ->
  committable g i <-> i <= commit_ceiling g /\ log_term g i = current_term_ g /\ majority_stores g i.
Proof.
  intros W Hi. rewrite commit_ceiling_le by done. split.
  - intros ((e&He&Ht)&Hf&Hm). rewrite (log_term_entry g i e) by done. apply log_at_lt in He. split_and!; try done; lia.
  - intros ([Hn Hf]&Ht&Hm). split_and!; try done. destruct (log_at_is_Some (log_ g) i) as [e He]; [done|].
    exists e. split; [done|]. by rewrite <- (log_term_entry g i e).
Qed.

(** Above an entry of the current term all entries have it. *)
Lemma committable_above g j k :
  group_wf g -> terms_ordered g -> start_index_ (log_ g) <= j -> committable g j ->
  j <= k <= commit_ceiling g -> log_term g k = current_term_ g.
Proof.
  intros W Ht Hs ((e&He&Hte)&_) Hk. pose proof (proj1 (commit_ceiling_le g k W ltac:(lia)) ltac:(lia)) as [Hn _].
  destruct (log_at_is_Some (log_ g) k) as [x Hx]; [lia|]. rewrite (log_term_entry g k x) by done.
  pose proof (Ht j k e x ltac:(lia) He Hx). lia.
Qed.

Section commit.
Context `{!Env}.

Lemma TryCommit_run w :
  let g := group_ w in
  log_wf (log_ g) -> 0 <= last_enqueued_ g <= commit_index_ g ->
  start_index_ (log_ g) <= last_enqueued_ g + 1 ->
  next_free (log_ g) + (next_free (log_ g) - last_enqueued_ g) <= UINT32_MAX ->
  exists w', TryCommitLocked w = Done tt w' /\
    let c := commit_index_ (group_ w') in
    (c = commit_index_ g /\ w' = w \/
     commit_index_ g < c <= commit_ceiling g /\ can_commit g c = true /\
     (forall k, c <= k <= commit_ceiling g -> log_term g k = current_term_ g) /\
     last_enqueued_ (group_ w') = c /\
     exists ts, apply_queue_ (group_ w') = apply_queue_ g ++ ts /\
       Forall2 (task_for (log_ g)) (seqZ (last_enqueued_ g + 1) (c - last_enqueued_ g)) ts) /\
    forall j, c < j <= commit_ceiling g ->
      (forall k, j <= k <= commit_ceiling g -> log_term g k = current_term_ g) ->
      can_commit g j = false.
Proof.
  intros g W He Hs Hb. unfold TryCommitLocked. rewrite run_bind, run_getg, run_bind, run_getg. fold g.
  assert (commit_ceiling g < next_free (log_ g)) as Hceil.
  { unfold commit_ceiling. pose proof (wf_start _ W).
    destruct (GetLastLogInfo_cases _ W) as [[E ->]|(e&_&->&_)]; simpl; [|lia].
    unfold next_free, log_size. lia. }
  pose proof (try_commit_loop_run (Z.to_nat (commit_ceiling g - commit_index_ g))
    (commit_ceiling g) w ltac:(cbv zeta; fold g; lia)) as Hrun.
  cbv zeta in Hrun. fold g in Hrun. destruct Hrun as [[E Hno]|(j&Hj&Hcj&Hterm&Hmax&E)].
  - exists w. split; [done|]. cbv zeta. fold g. split; [by left|done].
  - pose proof (ApplyCommitted_run (w <| group_ ::= fun g => g <| commit_index_ := j |> |>)) as Hap.
    cbv zeta in Hap. simpl in Hap. fold g in Hap.
    destruct Hap as (w'&ts&Ew&Hc&_&Hq&Ht&Hts&_&_); [done|lia..|].
    exists w'. rewrite E, Ew, Hc, Hq. split; [done|]. cbv zeta. split.
    + right. split_and!; try done; [lia..|]. by exists ts.
    + intros k Hk _. by apply Hmax.
Qed.

End commit.

(** ** Applying *)

(** The calls of the state machine recorded in a trace. *)
Definition sm_call (e : Effect) : option (string * Index) :=
  match e with SmApply d i => Some (d, i) | _ => None end.
Definition sm_calls (w : Node) : list (string * Index) := omap sm_call (trace_ w).

(** The tasks of a batch that are ahead of what has been applied before them. *)
Fixpoint ahead (last : Index) (ts : list ApplyTask) : list ApplyTask :=
  match ts with
  | [] => []
  | t :: ts' => if decide (at_index t <= last) then ahead last ts' else t :: ahead (at_index t) ts'
  end.

Fixpoint ahead_last (last : Index) (ts : list ApplyTask) : Index :=
  match ts with
  | [] => last
  | t :: ts' => ahead_last (Z.max last (at_index t)) ts'
  end.

Definition commands (ts : list ApplyTask) : list (string * Index) :=
  (fun t => (at_data t, at_index t)) <$> filter (fun t => at_is_config_change t = false) ts.

Definition same_applied (w w' : Node) : Prop :=
  sm_calls w' = sm_calls w /\
  apply_queue_ (group_ w') = apply_queue_ (group_ w) /\
  last_applied_ (group_ w') = last_applied_ (group_ w).

#[global] Instance same_applied_preorder : PreOrder same_applied.
Proof. split; [by intros w|]. intros w1 w2 w3 (?&?&?) (?&?&?). split_and!; congruence. Qed.

Section applying.
Context `{!Env}.

Ltac applied_leaf :=
  apply keeps_modify; intros ?; unfold same_applied, sm_calls;
  simpl; rewrite ?omap_app; simpl; rewrite ?app_nil_r; split_and!; reflexivity.
#[local] Hint Extern 1 (keeps same_applied (putg _)) => applied_leaf : keeps.
#[local] Hint Extern 1 (keeps same_applied (emit _)) => applied_leaf : keeps.
#[local] Hint Extern 1 (keeps same_applied (getg _)) => (eapply keeps_gets; apply _) : keeps.

Lemma applied_reads : keeps same_applied ProcessPendingReadsLocked.
Proof. unfold ProcessPendingReadsLocked, complete_read. keeps_solve. Qed.

Lemma apply_task_run last t w :
  exists w', apply_task last t w = Done (Z.max last (at_index t)) w' /\
    sm_calls w' = sm_calls w ++ commands (ahead last [t]) /\
    apply_queue_ (group_ w') = apply_queue_ (group_ w).
Proof.
  unfold apply_task, commands, call_proposal. simpl. case_decide as Hi.
  - replace (Z.max last (at_index t)) with last by lia.
    destruct (at_callback t); run; eexists; (split; [done|]); unfold sm_calls; simpl;
      rewrite ?omap_app; simpl; by rewrite ?app_nil_r.
  - replace (Z.max last (at_index t)) with (at_index t) by lia.
    destruct (at_is_config_change t) eqn:Hcfg.
    + eexists. split; [done|]. rewrite filter_cons_False by (by rewrite Hcfg).
      by rewrite app_nil_r.
    + rewrite filter_cons_True by done.
      destruct (at_callback t), (bool_decide (at_session_id t ≠ 0)); run; eexists; (split; [done|]);
      unfold sm_calls; simpl; rewrite ?omap_app; simpl; by rewrite ?app_nil_r.
Qed.

Lemma commands_app ts ts' : commands (ts ++ ts') = commands ts ++ commands ts'.
Proof. unfold commands. by rewrite list.filter_app, fmap_app. Qed.

Lemma ahead_cons last t ts :
  ahead last (t :: ts) = ahead last [t] ++ ahead (Z.max last (at_index t)) ts.
Proof.
  simpl. case_decide; simpl; [by rewrite Z.max_l by lia|by rewrite Z.max_r by lia].
Qed.

Lemma apply_tasks_run ts : forall last w,
  exists w', apply_tasks last ts w = Done (ahead_last last ts) w' /\
    sm_calls w' = sm_calls w ++ commands (ahead last ts) /\
    apply_queue_ (group_ w') = apply_queue_ (group_ w).
Proof.
  induction ts as [|t ts IH]; intros last w.
  { exists w. unfold commands. simpl. by rewrite app_nil_r. }
  cbn [apply_tasks ahead_last]. rewrite run_bind, ahead_cons, commands_app.
  destruct (apply_task_run last t w) as (w1&->&Hs1&Hq1).
  destruct (IH (Z.max last (at_index t)) w1) as (w2&->&Hs2&Hq2). exists w2.
  rewrite Hs2, Hs1, <- (assoc_L (++)). split_and!; [done..|congruence].
Qed.

(** One iteration of the apply thread on a non-empty queue. *)
Lemma ApplyLoop_run w (g := group_ w) (batch := take kBatchSize (apply_queue_ g)) :
  apply_running_ g = true -> apply_queue_ g <> [] ->
  let w' := final (ApplyLoop w) in
  sm_calls w' = sm_calls w ++ commands (ahead (last_applied_ g) batch) /\
  apply_queue_ (group_ w') = drop kBatchSize (apply_queue_ g) /\
  last_applied_ (group_ w') = ahead_last (last_applied_ g) batch.
Proof.
  intros Hrun Hne. unfold ApplyLoop. rewrite run_bind, run_getg. fold g. rewrite Hrun.
  cbn [negb]. rewrite run_bind, run_getg. fold g. rewrite decide_False by done.
  rewrite run_bind, run_putg, run_bind, run_getg. proj_simp. fold g. fold batch. rewrite run_bind.
  match goal with |- context [apply_tasks _ _ ?w0] => set (w1 := w0) end.
  destruct (apply_tasks_run batch (last_applied_ g) w1) as (w2&->&Hs2&Hq2).
  rewrite run_bind, run_putg, run_bind.
  match goal with |- context [ProcessPendingReadsLocked ?w0] =>
    pose proof (applied_reads w0) as Hr; destruct (ProcessPendingReadsLocked w0) as [? w4|w4] end;
  destruct Hr as (Hs&Hq&Hl); simpl final in *; rewrite Hs, Hq, Hl;
  (split_and!; [exact Hs2|exact Hq2|done]).
Qed.

End applying.

(** Facts about [ahead]. *)

Lemma ahead_sorted ts : forall last, StronglySorted Z.lt (last :: (at_index <$> ahead last ts)).
Proof.
  induction ts as [|t ts IH]; intros last; simpl; [by repeat constructor|].
  case_decide; [done|]. constructor; [apply IH|]. constructor; [lia|].
  specialize (IH (at_index t)). apply StronglySorted_inv in IH as [_ Hall].
  eapply list.Forall_impl; [exact Hall|]. simpl. lia.
Qed.

Lemma ahead_consecutive ts : forall last,
  at_index <$> ts = seqZ (last + 1) (Z.of_nat (length ts)) ->
  ahead last ts = ts /\ ahead_last last ts = last + Z.of_nat (length ts).
Proof.
  induction ts as [|t ts IH]; intros last; [simpl; split; [done|lia]|].
  cbn [length ahead ahead_last]. rewrite fmap_cons, seqZ_cons by lia. intros [= Ht Hts].
  rewrite decide_False by lia.
  destruct (IH (at_index t)) as [-> _].
  { rewrite Hts. f_equal; lia. }
  rewrite Z.max_r by lia. destruct (IH (at_index t)) as [_ ->]; [|split; [done|lia]].
  rewrite Hts. f_equal; lia.
Qed.

Lemma take_consecutive n ts last :
  at_index <$> ts = seqZ (last + 1) (Z.of_nat (length ts)) ->
  at_index <$> take n ts = seqZ (last + 1) (Z.of_nat (length (take n ts))).
Proof.
  intros H. rewrite fmap_take, H, length_take. apply list_eq. intros k.
  destruct (decide (k < n `min` length ts)%nat).
  - rewrite lookup_take_lt by lia. rewrite !lookup_seqZ_lt by lia. done.
  - rewrite (lookup_seqZ_ge _ (Z.of_nat (n `min` length ts))) by lia.
    apply lookup_ge_None. rewrite length_take, length_seqZ. lia.
Qed.

Lemma drop_consecutive n ts last :
  at_index <$> ts = seqZ (last + 1) (Z.of_nat (length ts)) ->
  at_index <$> drop n ts =
    seqZ (last + Z.of_nat (length (take n ts)) + 1) (Z.of_nat (length (drop n ts))).
Proof.
  intros H. rewrite fmap_drop, H, length_take, length_drop. apply list_eq. intros k.
  rewrite lookup_drop. destruct (decide (n + k < length ts)%nat).
  - rewrite !lookup_seqZ_lt by lia. f_equal. lia.
  - rewrite !lookup_seqZ_ge by lia. done.
Qed.

(** ** Samples *)

(** A leader of term 2 with three entries, two of them replicated to node 2. *)
Definition sample_committer : Node :=
  node_init ((relog (build_log [(1, "a"); (2, "b"); (2, "c")]) (sample_group 1 [2; 3] false false))
    <| role_ := LEADER |> <| current_term_ := 2 |> <| flushed_index_ := 3 |>
    <| match_index_ := {[2 := 2; 3 := 1]} |> <| apply_running_ := true |>).

Lemma sample_committer_wf : log_wf (log_ (group_ sample_committer)).
Proof. by apply log_wfb_sound. Qed.

Definition sample_enqueuer : Node :=
  node_init ((group_ sample_committer) <| commit_index_ := 2 |>).

Lemma sample_enqueuer_wf : log_wf (log_ (group_ sample_enqueuer)).
Proof. by apply log_wfb_sound. Qed.

Definition sample_applier : Node :=
  node_init ((group_ sample_committer)
    <| apply_queue_ := [mkApplyTask 1 "a" None false None 0 0; mkApplyTask 2 "b" None false None 0 0] |>).

(** ** Properties *)

(** C11. Committed entries reach the apply queue once each, in order.  From a
    state whose log holds the entries between [last_enqueued_] and
    [commit_index_], [ApplyCommittedLocked] completes, and appends to the apply
    queue exactly one task for each of those indices, in increasing order, with
    the data of its entry; configuration changes applied on the way only ever
    add entries at the end of the log. *)
Theorem apply_committed_enqueues `{!Env} (w : Node)
    (W : log_wf (log_ (group_ w)))
    (He : 0 <= last_enqueued_ (group_ w) <= commit_index_ (group_ w))
    (Hs : start_index_ (log_ (group_ w)) <= last_enqueued_ (group_ w) + 1)
    (Hc : commit_index_ (group_ w) < next_free (log_ (group_ w)))
    (Hb : next_free (log_ (group_ w)) + (commit_index_ (group_ w) - last_enqueued_ (group_ w))
          <= UINT32_MAX) :
  let g := group_ w in
  exists w' ts, ApplyCommittedLocked w = Done tt w' /\
    commit_index_ (group_ w') = commit_index_ g /\
    last_applied_ (group_ w') = last_applied_ g /\
    last_enqueued_ (group_ w') = commit_index_ g /\
    apply_queue_ (group_ w') = apply_queue_ g ++ ts /\
    Forall2 (task_for (log_ g)) (seqZ (last_enqueued_ g + 1) (commit_index_ g - last_enqueued_ g)) ts /\
    log_wf (log_ (group_ w')) /\ extends (log_ g) (log_ (group_ w')).
Proof. by apply ApplyCommitted_run. Qed.

Lemma apply_committed_enqueues_witness :
  exists w', @ApplyCommittedLocked (sample_env true true 0) sample_enqueuer = Done tt w' /\
    last_enqueued_ (group_ w') = 2.
Proof.
  pose proof (@apply_committed_enqueues (sample_env true true 0) sample_enqueuer sample_enqueuer_wf)
    as H.
  destruct H as (w'&ts&E&_&_&H&_).
  - vm_compute. split; discriminate.
  - vm_compute. discriminate.
  - vm_compute. reflexivity.
  - vm_compute. discriminate.
  - exists w'. split; [exact E|]. rewrite H. reflexivity.
Defined.

(** C10. The commit rule, outside a joint configuration and for a leader that is
    not in its own match table and whose log's terms are ordered and at most its
    own.  An index is committable when the log has an entry of the current term
    there, it is flushed on the leader, and more than half of the voters store
    it, the leader itself or a peer whose match index has reached it.
    [TryCommitLocked] completes and either moves [commit_index_] up to a
    committable index, enqueuing exactly the newly committed entries, or changes
    nothing; in both cases no higher index is committable. *)
Theorem try_commit_spec `{!Env} (w : Node)
    (W : group_wf (group_ w))
    (Hsmall : config_small (cluster_config_ (group_ w)))
    (Hjoint : is_joint (cluster_config_ (group_ w)) = false)
    (Hself : match_index_ (group_ w) !! server_id_ (group_ w) = None)
    (Hterms : terms_ordered (group_ w))
    (He : 0 <= last_enqueued_ (group_ w) <= commit_index_ (group_ w))
    (Hs : start_index_ (log_ (group_ w)) <= last_enqueued_ (group_ w) + 1)
    (Hb : next_free (log_ (group_ w)) + (next_free (log_ (group_ w)) - last_enqueued_ (group_ w))
          <= UINT32_MAX) :
  let g := group_ w in
  exists w', TryCommitLocked w = Done tt w' /\
    let c := commit_index_ (group_ w') in
    (c = commit_index_ g /\ w' = w \/
     commit_index_ g < c /\ committable g c /\ last_enqueued_ (group_ w') = c /\
     exists ts, apply_queue_ (group_ w') = apply_queue_ g ++ ts /\
       Forall2 (task_for (log_ g)) (seqZ (last_enqueued_ g + 1) (c - last_enqueued_ g)) ts) /\
    forall j, c < j -> ~ committable g j.
Proof.
  cbv zeta. destruct (TryCommit_run w (gw_log _ W) He Hs Hb) as (w'&E&Hc&Hmax). cbv zeta in Hc, Hmax.
  exists w'. split; [done|]. split.
  - destruct Hc as [?|(Hr&Hcan&Hk&Hq&Hts)]; [by left|right]. split_and!; try done; [lia|].
    apply committable_iff; try done; [lia|]. split_and!; [lia|apply Hk; lia|by apply can_commit_majority].
  - intros j Hj Hcom. assert (commit_index_ (group_ w) <= commit_index_ (group_ w')).
    { destruct Hc as [[? _]|[? _]]; lia. }
    pose proof Hcom as (Hle&_&Hm)%committable_iff; [|done|lia]. apply can_commit_majority in Hm; [|done..].
    rewrite Hmax in Hm; [done|lia|]. intros k Hk. eapply (committable_above _ j); [done|done|lia|done|lia].
Qed.

Lemma sample_committer_group_wf : group_wf (group_ sample_committer).
Proof. by apply group_wf_check. Qed.

Lemma sample_committer_terms : terms_ordered (group_ sample_committer).
Proof.
  intros i j x y Hij Hx Hy. apply log_at_inv in Hx as (k&->&Hx), Hy as (m&->&Hy).
  destruct k as [|[|[|k]]], m as [|[|[|m]]]; try lia; vm_compute in Hx, Hy; simplify_eq; vm_compute; split; discriminate.
Qed.

Lemma try_commit_spec_witness :
  exists w', @TryCommitLocked (sample_env true true 0) sample_committer = Done tt w' /\
    committable (group_ sample_committer) 2 /\ commit_index_ (group_ w') = 2.
Proof.
  destruct (@try_commit_spec (sample_env true true 0) sample_committer sample_committer_group_wf
    ltac:(split; vm_compute; reflexivity) eq_refl ltac:(vm_compute; reflexivity) sample_committer_terms
    ltac:(split; vm_compute; discriminate) ltac:(vm_compute; discriminate)
    ltac:(vm_compute; discriminate)) as (w'&E&Hc&Hmax).
  exists w'. split; [exact E|]. cbv zeta in Hmax.
  assert (committable (group_ sample_committer) 2) as H2.
  { split; [exists (mkEntry 2 2 "b" "" 0); split; vm_compute; reflexivity|]. split; [vm_compute; discriminate|].
    exists {[1; 2]}. split; [|vm_compute; lia]. intros v Hv.
    apply elem_of_union in Hv as [->%elem_of_singleton| ->%elem_of_singleton].
    - split; [apply list_elem_of_In; vm_compute; tauto|by left].
    - split; [apply list_elem_of_In; vm_compute; tauto|]. right. exists 2. split; [vm_compute; reflexivity|lia]. }
  split; [exact H2|].
  assert (2 <= commit_index_ (group_ w')) as Hge.
  { destruct (decide (commit_index_ (group_ w') < 2)) as [Hlt|]; [|lia]. destruct (Hmax 2 Hlt H2). }
  assert (value (@TryCommitLocked (sample_env true true 0) sample_committer) = Some tt /\
    commit_index_ (group_ (final (@TryCommitLocked (sample_env true true 0) sample_committer))) = 2)
    as [_ Hv] by (split; vm_compute; reflexivity).
  rewrite E in Hv. exact Hv.
Defined.

(** The commit count is the quorum test.  Outside a joint configuration,
    and with the leader absent from its own match table, the counting loop of
    [TryCommitLocked] accepts an index exactly when the servers holding it, the
    leader and the peers whose match index has reached it, form a quorum of the
    cluster configuration. *)
Theorem can_commit_is_quorum (g : RaftGroup) (i : Index)
    (Hj : is_joint (cluster_config_ g) = false)
    (Hself : match_index_ g !! server_id_ g = None) :
  can_commit g i = QuorumSatisfied (cluster_config_ g) (holders g i).
Proof. by apply can_commit_quorum. Qed.

Lemma can_commit_is_quorum_witness :
  QuorumSatisfied (cluster_config_ (group_ sample_committer)) (holders (group_ sample_committer) 2)
    = true.
Proof.
  rewrite <- (can_commit_is_quorum (group_ sample_committer) 2 eq_refl eq_refl). reflexivity.
Defined.

(** C12. The apply thread applies in order and never twice.  Whatever the queue
    holds, one iteration of [ApplyLoop] calls the state machine with indices
    that increase strictly from [last_applied_]; and when the queue is the
    consecutive run that [ApplyCommittedLocked] builds, it applies every
    non-configuration task of the batch, moves [last_applied_] by the length of
    the batch and leaves the rest of the queue consecutive. *)
Theorem apply_loop_in_order `{!Env} (w : Node)
    (Hrun : apply_running_ (group_ w) = true) (Hne : apply_queue_ (group_ w) <> []) :
  let g := group_ w in
  let w' := final (ApplyLoop w) in
  exists done,
    sm_calls w' = sm_calls w ++ commands done /\
    StronglySorted Z.lt (last_applied_ g :: (at_index <$> done)) /\
    (at_index <$> apply_queue_ g = seqZ (last_applied_ g + 1) (Z.of_nat (length (apply_queue_ g))) ->
     done = take kBatchSize (apply_queue_ g) /\
     last_applied_ (group_ w') = last_applied_ g + Z.of_nat (length done) /\
     at_index <$> apply_queue_ (group_ w') =
       seqZ (last_applied_ (group_ w') + 1) (Z.of_nat (length (apply_queue_ (group_ w'))))).
Proof.
  cbv zeta. destruct (ApplyLoop_run w Hrun Hne) as (Hs&Hq&Hl).
  exists (ahead (last_applied_ (group_ w)) (take kBatchSize (apply_queue_ (group_ w)))).
  split; [exact Hs|]. split; [apply ahead_sorted|]. intros Hseq. rewrite Hl, Hq.
  destruct (ahead_consecutive (take kBatchSize (apply_queue_ (group_ w))) (last_applied_ (group_ w)))
    as [-> ->]; [|split_and!; [done..|]].
  - by apply take_consecutive.
  - by apply drop_consecutive.
Qed.

Lemma apply_loop_in_order_witness :
  sm_calls (final (@ApplyLoop (sample_env true true 0) sample_applier)) = [("a", 1); ("b", 2)] /\
  last_applied_ (group_ (final (@ApplyLoop (sample_env true true 0) sample_applier))) = 2.
Proof.
  destruct (@apply_loop_in_order (sample_env true true 0) sample_applier eq_refl
    ltac:(discriminate)) as (d&->&_&H).
  destruct (H eq_refl) as (->&->&_). split; reflexivity.
Defined.
