(* ===== verification/Transfer.v ===== *)
(** * Moving a snapshot

    Reading a snapshot to its end ([CreateAndPersistSnapshot]), re-reading a
    received file ([RestoreFromSnapshotFile], [PersistSnapshotFile]) and the
    chunk protocol between leader and follower: what arrives is what was
    sent. *)

From S2P Require Import Prelude Types RaftLog Quorum Sessions RaftGroup Timers Replicate.
From S2P Require Import Membership Text Apply Election Follower Snapshots Commit.

(** ** Re-reading a received file *)

Lemma file_chunks_concat fuel : forall s, (String.length s <= fuel)%nat ->
  String.concat "" (file_chunks fuel s) = s.
Proof.
  induction fuel as [|fuel IH]; intros s Hs; [by destruct s; [|simpl in Hs; lia]|].
  cbn [file_chunks]. case_decide as He; [by rewrite He|].
  rewrite concat_empty_cons, IH; [apply cut_app|].
  rewrite substr_from_length. assert (0 < kChunkSize)%nat by (unfold kChunkSize; lia). lia.
Qed.

Lemma stream_file_content s : stream_file s = s.
Proof. by apply file_chunks_concat. Qed.

(** ** Reading a snapshot handle *)

(** [Read(offset, length)] returns the bytes of [content] at that place, fewer
    at its end. *)
Definition reads (snap : Snapshot) (content : string) : Prop :=
  forall off len, 0 <= off -> 0 <= len ->
    sn_read snap off len = String.substring (Z.to_nat off) (Z.to_nat len) content.

Definition slen (s : string) : Z := Z.of_nat (String.length s).

Section reading.
Context (snap : Snapshot) (content : string) (Hreads : reads snap content)
  (Hlen : slen content < 2 ^ 63).

Lemma read_length off : 0 <= off <= slen content ->
  slen (sn_read snap off kReadChunkSize) = Z.min kReadChunkSize (slen content - off).
Proof using Hreads.
  intros Ho. unfold kReadChunkSize, slen in *. rewrite Hreads by lia. rewrite substring_length. lia.
Qed.

Lemma stream_snapshot_content : stream_snapshot snap = inr content.
Proof using All.
  unfold stream_snapshot.
  destruct (loop_exits (stream_step snap)
    (fun st => 0 <= st.1 <= slen content /\ st.2 = String.substring 0 (Z.to_nat st.1) content)
    (eq content) fst) with (n := 64%nat) (s := (0, "")) as (b&->&<-); [| | | |done].
  - intros [o acc] s' [Ho Hacc]. simpl in Ho, Hacc. unfold stream_step.
    case_decide as Hc; [done|]. intros [= <-]. simpl.
    pose proof (read_length o Ho) as Hrl. unfold slen in *.
    assert (0 < String.length (sn_read snap o kReadChunkSize))%nat
      by (destruct (sn_read _ _ _); [done|simpl; lia]).
    rewrite u64_small by (unfold UINT64_MAX; lia). split; [split; [lia|]|lia].
    rewrite Hacc. rewrite Hreads at 1 by (unfold kReadChunkSize; lia).
    rewrite Z2Nat.inj_add, Nat2Z.id by lia. rewrite substring_split. f_equal.
    rewrite Hreads by (unfold kReadChunkSize; lia).
    by rewrite substring_length, substring_min.
  - intros [o acc] b [Ho Hacc]. simpl in Ho, Hacc. unfold stream_step.
    case_decide as Hc; [|done]. intros [= <-]. rewrite Hacc.
    pose proof (read_length o Ho) as Hrl. rewrite Hc in Hrl. unfold kReadChunkSize, slen in *. simpl in Hrl.
    symmetry. apply substring_all. lia.
  - split; [unfold slen; simpl; lia|]. by destruct content.
  - intros [o acc] [Ho _]. simpl in *. change (2 ^ Z.of_nat 64) with (2 * 2 ^ 63). lia.
Qed.

(** The size check reads no further than the limit. *)
Lemma scan_snapshot_size max : 0 <= max ->
  exists total, scan_snapshot snap max = inr (bool_decide (slen content <= max), total) /\
    (slen content <= max -> total = slen content).
Proof using All.
  intros Hmax. unfold scan_snapshot.
  destruct (loop_exits (scan_step snap max)
    (fun st => 0 <= st.1 <= slen content /\ st.2 = st.1 /\ st.1 <= max)
    (fun b => b.1 = bool_decide (slen content <= max) /\ (slen content <= max -> b.2 = slen content))
    fst) with (n := 64%nat) (s := (0, 0)) as ([b t]&->&Hb&Ht).
  - intros [o t] s' (Ho&Ht&Hm). simpl in Ho, Ht, Hm. subst t. unfold scan_step.
    pose proof (read_length o Ho) as Hrl. fold (slen (sn_read snap o kReadChunkSize)).
    case_decide; [done|]. rewrite u64_small by (unfold UINT64_MAX, kReadChunkSize in *; lia).
    case_decide; [done|]. intros [= <-]. simpl. unfold kReadChunkSize in *. lia.
  - intros [o t] b (Ho&Ht&Hm). simpl in Ho, Ht, Hm. subst t. unfold scan_step.
    pose proof (read_length o Ho) as Hrl. fold (slen (sn_read snap o kReadChunkSize)).
    unfold kReadChunkSize in *. case_decide.
    { intros [= <-]. simpl. rewrite bool_decide_true by lia. split; [done|lia]. }
    rewrite u64_small by (unfold UINT64_MAX; lia).
    case_decide; [|done]. intros [= <-]. simpl. rewrite bool_decide_false by lia. split; [done|lia].
  - unfold slen. simpl. lia.
  - intros [o t] [Ho _]. simpl in *. change (2 ^ Z.of_nat 64) with (2 * 2 ^ 63). lia.
  - simpl in Hb, Ht. subst b. by exists t.
Qed.

End reading.

(** ** The chunk protocol *)

(** The contents restored into the state machine, and those saved. *)
Definition restores (tr : list Effect) : list string :=
  omap (fun e => match e with SmRestore s => Some s | _ => None end) tr.
Definition snapshot_saves (tr : list Effect) : list (string * Index * Term) :=
  omap (fun e => match e with SaveSnapshot s i t => Some (s, i, t) | _ => None end) tr.

(** What taking in a chunk leaves alone. *)
Record Basis := mkBasis {
  ba_config : RaftNodeConfig; ba_server : NodeId; ba_group : Z; ba_cluster : ClusterConfig; ba_term : Term;
  ba_snapshot : Index; ba_commit : Index; ba_restores : list string; ba_saves : list (string * Index * Term)
}.
Definition basis (w : Node) : Basis :=
  let g := group_ w in
  mkBasis (config_ g) (server_id_ g) (group_id_ g) (cluster_config_ g) (current_term_ g) (last_snapshot_index_ g)
    (commit_index_ g) (restores (trace_ w)) (snapshot_saves (trace_ w)).

Lemma basis_path w w' index sterm :
  basis w' = basis w -> snapshot_path (group_ w') index sterm = snapshot_path (group_ w) index sterm.
Proof. intros H. injection H as Hc Hs Hg _. unfold snapshot_path. by rewrite Hc, Hs, Hg. Qed.

Section protocol.
Context (content : string) (term index sterm : Z) (leader : NodeId) (b : Basis).

(** The chunk at an offset, and the request that carries it. *)
Definition chunk (off : Z) : string :=
  String.substring (Z.to_nat off) (Z.to_nat kSnapshotChunkSize) content.

Definition chunk_request (off : Z) : InstallSnapshotRequest :=
  mkInstallSnapshotRequest term leader index sterm off (chunk off)
    (bool_decide (slen (chunk off) < kSnapshotChunkSize)).

Lemma chunk_length off : 0 <= off <= slen content ->
  slen (chunk off) = Z.min kSnapshotChunkSize (slen content - off).
Proof.
  intros Ho. unfold chunk, slen in *. rewrite substring_length. unfold kSnapshotChunkSize. lia.
Qed.

Lemma chunk_prefix off : 0 <= off <= slen content ->
  String.substring 0 (Z.to_nat off) content +:+ chunk off =
  String.substring 0 (Z.to_nat (off + slen (chunk off))) content.
Proof.
  intros Ho. unfold slen. rewrite Z2Nat.inj_add, Nat2Z.id, substring_split by lia. f_equal.
  unfold chunk. by rewrite substring_length, substring_min.
Qed.

(** A receiver that has got everything before an offset. *)
Definition received (off : Z) (path : string) (w : Node) : Prop :=
  snapshot_temp_path_ (group_ w) = path /\ path <> "" /\
  snapshot_recv_index_ (group_ w) = index /\ snapshot_recv_term_ (group_ w) = sterm /\
  snapshot_recv_expected_offset_ (group_ w) = off /\
  snapshot_restore_in_progress_ (group_ w) = false /\
  files_ w !! path = Some (String.substring 0 (Z.to_nat off) content) /\ basis w = b.

Lemma snapshot_path_nonempty g : snapshot_path g index sterm <> "".
Proof.
  intros H. apply (f_equal String.length) in H. unfold snapshot_path in H.
  rewrite !length_str_app in H. simpl in H. lia.
Qed.

Section receiver.
Context `{!Env} (Hfile : forall op p, env_file_ok op p = true)
  (Hwrite : forall p d, env_write_fails p d = None).

Lemma write_chunk_run off path w :
  0 <= off <= slen content -> slen content < 2 ^ 32 -> received off path w ->
  exists w', write_chunk (chunk off) w = Done true w' /\
    received (off + slen (chunk off)) path w'.
Proof using Hfile Hwrite.
  intros Ho Hl (Hp&Hne&Hi&Ht&Hx&Hr&Hf&Hb). unfold write_chunk.
  rewrite run_bind, run_getg, Hp, Hfile. cbn [negb]. unfold file_content.
  rewrite run_bind, run_bind, run_gets, run_ret, Hf, Hwrite. cbn [default].
  rewrite run_bind, run_modify, run_bind, run_putg, run_ret. eexists. split; [done|].
  pose proof (chunk_length off Ho). unfold slen in *.
  unfold received. proj_simp. split_and!; try done.
  - rewrite Hx, u64_small; [done|]. unfold UINT64_MAX, kSnapshotChunkSize in *. lia.
  - rewrite lookup_insert_eq. f_equal. rewrite <- chunk_prefix by (unfold slen; lia). done.
Qed.

(** The last chunk hands the path over; every other one asks for more. *)
Definition received_chunk (off : Z) (path : string) (o : Outcome Node (option string)) : Prop :=
  if bool_decide (slen (chunk off) < kSnapshotChunkSize) then
    exists w', o = Done (Some path) w' /\ files_ w' !! path = Some content /\ basis w' = b
  else exists w', o = Done None w' /\ received (off + kSnapshotChunkSize) path w'.

Lemma finish_chunk off path (w : Node) :
  0 <= off <= slen content -> slen content < 2 ^ 32 -> received off path w ->
  received_chunk off path
    ((written ← write_chunk (chunk off);
      if negb written then mret None
      else if bool_decide (slen (chunk off) < kSnapshotChunkSize) then
        path ← getg snapshot_temp_path_;
        reset_receive ;;
        snapshot_temp_path_ <~ "" ;;
        snapshot_restore_in_progress_ <~ true ;;
        mret (Some path)
      else mret None) w).
Proof using Hfile Hwrite.
  intros Ho Hl Hrec. destruct (write_chunk_run off path w Ho Hl Hrec) as (w2&E&Hrec').
  rewrite run_bind, E. cbn [negb]. unfold received_chunk. pose proof (chunk_length off Ho) as Hlen.
  case_bool_decide as Hlast.
  - destruct Hrec' as (Hp&Hne&Hi&Ht&Hx&Hr&Hf&Hb).
    rewrite run_bind, run_getg, run_bind. unfold reset_receive.
    rewrite run_putg, run_bind, run_putg, run_bind, run_putg, run_ret, Hp. eexists. split; [done|].
    split; [|exact Hb]. proj_simp. rewrite Hf. f_equal. apply substring_all. unfold slen in *. lia.
  - rewrite run_ret. exists w2. split; [done|].
    by replace kSnapshotChunkSize with (slen (chunk off)) by lia.
Qed.

Lemma receive_next off path w :
  0 < off <= slen content -> slen content < 2 ^ 32 -> received off path w ->
  received_chunk off path (install_phase2 (chunk_request off) w).
Proof using Hfile Hwrite.
  intros Ho Hl Hrec. unfold install_phase2. cbn [is_offset is_data is_done chunk_request].
  rewrite run_bind, run_getg. rewrite bool_decide_false by lia. cbn [andb].
  rewrite (decide_False (P := off = 0)) by lia. rewrite run_bind.
  pose proof Hrec as (Hp&Hne&Hi&Ht&Hx&Hr&Hf&_).
  unfold continue_transfer. rewrite run_bind, run_getg. unfold id.
  cbn [is_last_included_index is_last_included_term is_offset chunk_request].
  rewrite decide_False by naive_solver. rewrite run_ret. cbn [negb].
  apply finish_chunk; [lia|done..].
Qed.

Lemma receive_first w :
  slen content < 2 ^ 32 -> snapshot_restore_in_progress_ (group_ w) = false -> basis w = b ->
  received_chunk 0 (snapshot_path (group_ w) index sterm) (install_phase2 (chunk_request 0) w).
Proof using Hfile Hwrite.
  intros Hl Hr Hb. unfold install_phase2. cbn [is_offset is_data is_done chunk_request].
  rewrite run_bind, run_getg, Hr. rewrite bool_decide_true by done. cbn [andb].
  rewrite (decide_True (P := 0 = 0)) by done. rewrite run_bind.
  unfold begin_transfer. rewrite run_bind, run_getg, run_bind, run_putg.
  cbn [is_last_included_index is_last_included_term chunk_request]. rewrite Hfile.
  rewrite run_bind, run_modify, run_ret. cbn [negb].
  apply finish_chunk; [unfold slen; lia|done|].
  unfold received. proj_simp. rewrite lookup_insert_eq.
  split_and!; try done; [apply snapshot_path_nonempty|]. by destruct content.
Qed.

(** *** The follower's whole handler *)

(** A follower in the leader's term that knows the leader as a voter. *)
Definition knows_leader : Prop := ba_term b = term /\ IsVoter (ba_cluster b) leader = true.

Lemma install_phase1_run off w :
  knows_leader -> basis w = b ->
  exists w', install_phase1 (chunk_request off) w = Done (true, mkInstallSnapshotResponse term) w' /\
    basis w' = b /\ snapshot_restore_in_progress_ (group_ w') = snapshot_restore_in_progress_ (group_ w) /\
    forall path, received off path w -> received off path w'.
Proof using.
  intros [Ht Hv] Hb. assert (current_term_ (group_ w) = term /\ cluster_config_ (group_ w) = ba_cluster b) as [Et Ec].
  { rewrite <- Hb in Ht |- *. done. }
  unfold install_phase1. rewrite run_bind, run_getg. unfold id. cbn [is_leader_id is_term chunk_request].
  rewrite Ec, Hv, Et. cbn [negb]. rewrite decide_False by lia. rewrite bool_decide_false by lia. simpl when.
  rewrite run_bind, run_ret, run_bind, run_getg, Et. unfold learn_leader, ResetElectionTimerLocked, CancelElectionTimerLocked.
  rewrite run_bind, run_bind, run_putg, run_bind, run_getg. proj_simp.
  destruct (peer_map_ (group_ w) !! leader) as [addr|]; run; (eexists; split; [done|]); by split_and!.
Qed.

(** Moving to the snapshot, unless the node is ahead of it. *)
Lemma install_apply_moves w :
  exists w', install_apply index sterm w = Done tt w' /\
    files_ w' = files_ w /\ restores (trace_ w') = restores (trace_ w) /\
    snapshot_saves (trace_ w') = snapshot_saves (trace_ w) /\
    (last_snapshot_index_ (group_ w) < index -> commit_index_ (group_ w) <= index ->
     last_snapshot_index_ (group_ w') = index /\ last_snapshot_term_ (group_ w') = sterm /\
     commit_index_ (group_ w') = index /\ last_applied_ (group_ w') = index /\
     start_index_ (log_ (group_ w')) = u32 (index + 1)).
Proof using.
  unfold install_apply. rewrite run_bind, run_getg. unfold id.
  case_decide; [exists w; split_and!; try done; intros; lia|].
  case_decide; [exists w; split_and!; try done; intros; lia|].
  rewrite run_bind, run_putg, run_bind. destruct env_log_persister; simpl when.
  - rewrite run_emit, run_putg. eexists. split; [done|]. split_and!; [done| | |done];
      unfold restores, snapshot_saves; simpl; rewrite omap_app; simpl; by rewrite app_nil_r.
  - rewrite run_ret, run_putg. eexists. split; [done|]. by split_and!.
Qed.

Lemma persist_file_run path w :
  files_ w !! path = Some content ->
  exists w', PersistSnapshotFile path index sterm w = Done tt w' /\ group_ w' = group_ w /\ files_ w' = files_ w /\
    restores (trace_ w') = restores (trace_ w) /\
    (env_persister = true -> snapshot_saves (trace_ w') = snapshot_saves (trace_ w) ++ [(content, index, sterm)]).
Proof using.
  intros Hf. unfold PersistSnapshotFile, file_content. destruct env_persister; simpl when; [|by exists w].
  rewrite run_bind, run_bind, run_gets, run_ret, run_emit, Hf. cbn [default]. rewrite stream_file_content.
  eexists. split; [done|]. split_and!; [done|done| |]; unfold restores, snapshot_saves; simpl; rewrite omap_app; simpl.
  - by rewrite app_nil_r.
  - done.
Qed.

(** The last chunk: the state machine gets the content, and the node moves to
    the snapshot unless it is ahead of it. *)
Definition taken_over (path : string) (w' : Node) : Prop :=
  snapshot_restore_in_progress_ (group_ w') = false /\ files_ w' !! path = None /\
  restores (trace_ w') = ba_restores b ++ [content] /\
  (env_restore_ok content = true -> ba_snapshot b < index -> ba_commit b <= index ->
   last_snapshot_index_ (group_ w') = index /\ last_snapshot_term_ (group_ w') = sterm /\
   commit_index_ (group_ w') = index /\ last_applied_ (group_ w') = index /\
   start_index_ (log_ (group_ w')) = u32 (index + 1) /\
   (env_persister = true -> snapshot_saves (trace_ w') = ba_saves b ++ [(content, index, sterm)])).

Lemma finish_install path w :
  files_ w !! path = Some content -> (remove_file path ;; snapshot_restore_in_progress_ <~ false) w =
  Done tt (w <| files_ ::= delete path |> <| group_ ::= fun g => g <| snapshot_restore_in_progress_ := false |> |>).
Proof using Hfile. intros Hf. unfold remove_file. rewrite Hfile. simpl when. by rewrite run_bind, run_modify, run_putg. Qed.

Lemma install_done_run path w :
  files_ w !! path = Some content -> basis w = b ->
  exists w', install_done path index sterm w = Done tt w' /\ taken_over path w'.
Proof using Hfile.
  intros Hf Hb. assert (last_snapshot_index_ (group_ w) = ba_snapshot b /\ commit_index_ (group_ w) = ba_commit b /\
    restores (trace_ w) = ba_restores b /\ snapshot_saves (trace_ w) = ba_saves b) as (Es&Ec&Er&Ev) by by rewrite <- Hb.
  unfold install_done, RestoreFromSnapshotFile. unfold file_content at 1.
  rewrite run_bind, run_bind, run_bind, run_gets, run_ret, Hf.
  cbn [default]. unfold id. rewrite !stream_file_content, run_bind, run_emit, run_ret.
  set (w1 := w <| trace_ ::= fun t => t ++ [SmRestore content] |>).
  assert (files_ w1 !! path = Some content /\ group_ w1 = group_ w /\ restores (trace_ w1) = ba_restores b ++ [content] /\
    snapshot_saves (trace_ w1) = ba_saves b) as (Hf1&Hg1&Hr1&Hs1).
  { split_and!; [done|done| |]; unfold w1; simpl; unfold restores, snapshot_saves in *; rewrite omap_app; simpl;
      [by rewrite Er|by rewrite Ev, app_nil_r]. }
  clearbody w1. destruct (env_restore_ok content) eqn:Hro; cbn [negb].
  2:{ rewrite finish_install by done. eexists. split; [done|].
      split_and!; [done|apply lookup_delete_eq|exact Hr1|by rewrite Hro]. }
  assert (exists w2, (last ← getg last_snapshot_index_;
      when (bool_decide (last < index)) (PersistSnapshotFile path index sterm)) w1 = Done tt w2 /\
    group_ w2 = group_ w1 /\ files_ w2 = files_ w1 /\ restores (trace_ w2) = restores (trace_ w1) /\
    (ba_snapshot b < index -> env_persister = true -> snapshot_saves (trace_ w2) = ba_saves b ++ [(content, index, sterm)]))
    as (w2&E2&Hg2&Hf2&Hr2&Hs2).
  { rewrite run_bind, run_getg, Hg1, Es. case_bool_decide; simpl when; [|exists w1; split_and!; try done; intros; lia].
    destruct (persist_file_run path w1 Hf1) as (w2&->&?&?&?&Hsv). exists w2. split_and!; try congruence. intros _ HP.
    by rewrite Hsv, Hs1. }
  destruct (install_apply_moves w2) as (w3&E3&Hf3&Hr3&Hs3&Hm).
  revert E2. rewrite !run_bind, run_getg. rewrite run_bind. destruct (when _ _ w1) as [[] w2'|]; [|done]. intros [= ->].
  rewrite run_bind, E3. rewrite <- run_bind. rewrite finish_install by congruence. eexists. split; [done|].
  split_and!; [done|apply lookup_delete_eq|simpl; congruence|]. intros _ Hlt Hle.
  destruct Hm as (?&?&?&?&?); [congruence..|]. split_and!; try done. intros HP. simpl. rewrite Hs3. by apply Hs2.
Qed.

(** A receiver that waits for the chunk at an offset. *)
Definition ready (off : Z) (path : string) (w : Node) : Prop :=
  basis w = b /\
  (off = 0 /\ snapshot_restore_in_progress_ (group_ w) = false /\ path = snapshot_path (group_ w) index sterm \/
   0 < off /\ received off path w).

(** The handler on the chunk it waits for. *)
Definition handled (off : Z) (path : string) (o : Outcome Node InstallSnapshotResponse) : Prop :=
  exists w', o = Done (mkInstallSnapshotResponse term) w' /\
    if bool_decide (slen (chunk off) < kSnapshotChunkSize) then taken_over path w'
    else received (off + kSnapshotChunkSize) path w'.

Lemma handle_chunk off path w :
  knows_leader -> 0 <= off <= slen content -> slen content < 2 ^ 32 -> ready off path w ->
  handled off path (HandleInstallSnapshot (chunk_request off) w).
Proof using Hfile Hwrite.
  intros Hk Ho Hl [Hb Hready]. unfold HandleInstallSnapshot. rewrite run_bind.
  destruct (install_phase1_run off w Hk Hb) as (w1&->&Hb1&Hr1&Hrec1). cbn [negb]. rewrite run_bind.
  assert (received_chunk off path (install_phase2 (chunk_request off) w1)) as Hc.
  { destruct Hready as [(->&Hr&->)|[Hpos Hrec]]; [|apply receive_next; [lia|done|auto]].
    rewrite <- (basis_path w w1) by congruence. apply receive_first; [done|congruence|done]. }
  unfold received_chunk in Hc. unfold handled. case_bool_decide.
  - destruct Hc as (w2&->&Hf&Hb2). destruct (install_done_run path w2 Hf Hb2) as (w3&E3&Ht).
    exists w3. cbn [is_last_included_index is_last_included_term chunk_request]. by rewrite run_bind, E3, run_ret.
  - destruct Hc as (w2&->&Hrec). exists w2. by rewrite run_bind, run_ret, run_ret.
Qed.

End receiver.

Section sender.
Context `{!Env} (Hser : forall off, env_serialize_ok (InstallSnapshotRpc (chunk_request off)) = true).
Context (snap : Snapshot) (Hreads : reads snap content) (peer : NodeId) (addr : NodeAddr).

(** A leader whose last message is the chunk at an offset. *)
Definition addressed (w : Node) : Prop :=
  state_ w = kRunning /\ role_ (group_ w) = LEADER /\
  current_term_ (group_ w) = term /\ server_id_ (group_ w) = leader /\
  peer_map_ (group_ w) !! peer = Some addr.

Definition sending (off : Z) (w : Node) : Prop :=
  addressed w /\
  snapshot_sends_ (group_ w) !! peer =
    Some (mkSnapshotSendState (Some snap) off index sterm true (slen (chunk off))) /\
  list.last (trace_ w) =
    Some (SendRpc peer addr (InstallSnapshotRpc (chunk_request off)) CbInstallSnapshot).

Lemma send_chunk_run off size w :
  0 <= off < 2 ^ 32 -> addressed w ->
  snapshot_sends_ (group_ w) !! peer = Some (mkSnapshotSendState (Some snap) off index sterm true size) ->
  exists w', SendNextSnapshotChunkLocked peer w = Done tt w' /\ sending off w'.
Proof using Hser Hreads.
  intros Ho (Hst&Hro&Ht&Hi&Hp) Hs. unfold SendNextSnapshotChunkLocked. rewrite run_bind, run_getg, Hs.
  cbn [ss_snapshot ss_in_progress ss_offset]. unfold set_send.
  assert (sn_read snap off kSnapshotChunkSize = chunk off) as Er
    by (unfold chunk; apply Hreads; unfold kSnapshotChunkSize; lia).
  rewrite run_bind, run_putg, run_bind, run_getg, run_bind, run_getg. proj_simp.
  match goal with |- context [u32 ?x] => change x with off end.
  rewrite Er, Ht, Hi, (u32_small off) by (unfold UINT32_MAX; lia).
  match goal with |- context [InstallSnapshotRpc ?r] => change r with (chunk_request off) end.
  rewrite Hser. cbn [negb]. rewrite run_bind, run_getg. proj_simp. rewrite Hp, run_emit. eexists. split; [done|].
  unfold sending, addressed. proj_simp. rewrite lookup_insert_eq, last_snoc. by split_and!.
Qed.

(** An acknowledged chunk is followed by the next one. *)
Lemma acknowledged_next off w :
  0 <= off -> off + kSnapshotChunkSize < 2 ^ 32 -> slen (chunk off) = kSnapshotChunkSize ->
  sending off w ->
  exists w', snapshot_response_phase2 peer true w = Done tt w' /\
    sending (off + kSnapshotChunkSize) w'.
Proof using Hser Hreads.
  intros Ho Hlt Hlen ((Hst&Hro&Ht&Hi&Hp)&Hs&_). unfold snapshot_response_phase2.
  rewrite run_bind, run_getg, Hs. unfold set_send. rewrite run_bind, run_putg. cbn [negb].
  rewrite decide_False by (cbn [ss_last_chunk_size]; lia). rewrite run_bind, run_putg.
  eapply (send_chunk_run _ (slen (chunk off))); [unfold kSnapshotChunkSize in *; lia|..].
  - unfold addressed. by proj_simp.
  - proj_simp. rewrite lookup_insert_eq. cbn [ss_offset ss_last_chunk_size]. proj_simp. rewrite Hlen.
    rewrite u64_small by (unfold UINT64_MAX, kSnapshotChunkSize in *; lia). done.
Qed.

(** The acknowledged last chunk moves the peer's indices to the snapshot. *)
Lemma acknowledged_last off w :
  slen (chunk off) < kSnapshotChunkSize -> sending off w ->
  exists w1, snapshot_response_phase2 peer true w = TryCommitLocked w1 /\
    match_index_ (group_ w1) !! peer = Some index /\
    next_index_ (group_ w1) !! peer = Some (u32 (index + 1)) /\
    snapshot_sends_ (group_ w1) !! peer = None.
Proof.
  intros Hlen (_&Hs&_). unfold snapshot_response_phase2, set_send, set_match_index, set_next_index.
  rewrite run_bind, run_getg, Hs, run_bind, run_putg. cbn [negb].
  rewrite decide_True by (cbn [ss_last_chunk_size]; lia).
  rewrite run_bind, run_putg, run_bind, run_putg, run_bind, run_putg.
  eexists. split; [done|]. proj_simp.
  by rewrite !lookup_insert_eq, lookup_delete_eq.
Qed.

End sender.
End protocol.

(** The request a node sent last. *)
Definition sent_chunk (w : Node) : option InstallSnapshotRequest :=
  match list.last (trace_ w) with
  | Some (SendRpc _ _ (InstallSnapshotRpc req) _) => Some req
  | _ => None
  end.

(** Leader and follower taking turns: the follower handles the last chunk sent,
    and the leader its answer, which makes it send the next one, until the
    follower has handled the last.  The answer to that one is left to the
    leader. *)
Fixpoint exchange (EL EF : Env) (n : nat) (peer : NodeId) (lw fw : Node)
    : option (Node * InstallSnapshotResponse * Node) :=
  match n with
  | O => None
  | S n' =>
      match sent_chunk lw with
      | None => None
      | Some req =>
          match @HandleInstallSnapshot EF req fw with
          | Done resp fw' =>
              if is_done req then Some (lw, resp, fw')
              else
                match @HandleInstallSnapshotResponse EL peer resp true lw with
                | Done _ lw' => exchange EL EF n' peer lw' fw'
                | Aborted _ => None
                end
          | Aborted _ => None
          end
      end
  end.

(** Every byte of the text is a character of its own. *)
Definition ascii_text (s : string) : bool :=
  forallb (fun c => (Ascii.nat_of_ascii c <? 128)%nat) (String.list_ascii_of_string s).

Lemma ascii_substring n m s : ascii_text s = true -> ascii_text (String.substring n m s) = true.
Proof.
  unfold ascii_text. revert n m. induction s as [|c s IH]; intros [|n] [|m]; simpl; try done;
    rewrite andb_true_iff; intros [Hc Hs]; auto.
  rewrite Hc. by apply IH.
Qed.

Section exchange.
Context (EL EF : Env) (content : string) (term index sterm : Z) (leader peer : NodeId)
  (addr : NodeAddr) (snap : Snapshot) (b : Basis).
Context (Hser : forall off, @env_serialize_ok EL (InstallSnapshotRpc (chunk_request content term index sterm leader off)) = true)
  (Hfile : forall op p, @env_file_ok EF op p = true)
  (Hwrite : forall p d, @env_write_fails EF p d = None)
  (Hreads : reads snap content) (Hlen : slen content < 2 ^ 32) (Hknows : knows_leader term leader b).

Abbreviation sending := (sending content term index sterm leader snap peer addr).

Lemma response_run lw off :
  sending off lw ->
  @HandleInstallSnapshotResponse EL peer (mkInstallSnapshotResponse term) true lw = @snapshot_response_phase2 EL peer true lw.
Proof using.
  intros ((Hst&Hro&Ht&_)&_). unfold HandleInstallSnapshotResponse, snapshot_response_phase1, IsRunning.
  rewrite run_bind, run_bind, run_gets, run_bind, run_getg. unfold id. rewrite Hst, Hro, Ht.
  rewrite bool_decide_true by done. cbn [negb isr_term]. rewrite decide_False by tauto. rewrite decide_False by lia.
  by rewrite run_ret.
Qed.

Definition delivered (path : string) (r : option (Node * InstallSnapshotResponse * Node)) : Prop :=
  exists lw' fw' off, r = Some (lw', mkInstallSnapshotResponse term, fw') /\
    @taken_over content index sterm b EF path fw' /\
    sending off lw' /\ slen (chunk content off) < kSnapshotChunkSize.

Lemma exchange_run n path : forall off lw fw,
  0 <= off <= slen content -> slen content - off < Z.of_nat n * kSnapshotChunkSize ->
  sending off lw -> ready content index sterm b off path fw ->
  delivered path (exchange EL EF n peer lw fw).
Proof using All.
  induction n as [|n IH]; intros off lw fw Ho Hn Hs Hr; [lia|]. cbn [exchange]. unfold sent_chunk.
  pose proof Hs as (_&_&->).
  destruct (@handle_chunk content term index sterm leader b EF Hfile Hwrite off path fw Hknows Ho Hlen Hr)
    as (fw'&->&Hc). cbn [is_done chunk_request]. pose proof (chunk_length content off Ho) as Hcl.
  case_bool_decide; [by exists lw, fw', off|]. rewrite (response_run lw off Hs).
  destruct (@acknowledged_next content term index sterm leader EL Hser snap Hreads peer addr off lw)
    as (lw'&->&Hs'); [lia|lia|lia|done|].
  apply (IH (off + kSnapshotChunkSize)); [unfold kSnapshotChunkSize in *; lia|lia|done|].
  split; [apply Hc|]. right. split; [unfold kSnapshotChunkSize; lia|done].
Qed.

End exchange.

(** Persisting a fresh snapshot. *)
Lemma CreateAndPersist_run `{!Env} snap content w :
  env_create_snapshot = Some snap -> env_persister = true -> reads snap content ->
  0 < slen content < 2 ^ 63 -> 0 <= max_snapshot_size_bytes (runtime_config_ (group_ w)) ->
  let index := u32 (sn_last_included_index snap) in
  let term := u32 (sn_last_included_term snap) in
  CreateAndPersistSnapshot w =
    if decide (max_snapshot_size (runtime_config_ (group_ w)) < slen content)
    then Done (inl (Error1 "Snapshot exceeds max size")) w
    else if decide (index <= last_snapshot_index_ (group_ w))
    then Done (inl (Error1 "Snapshot superseded while creating")) w
    else Done (match env_save_snapshot index term with StOK => inr (index, term) | err => inl err end)
           (w <| trace_ ::= fun t => t ++ [SaveSnapshot content index term] |>).
Proof.
  intros Hc Hp Hr Hl Hm. cbv zeta. unfold CreateAndPersistSnapshot. rewrite Hc, run_bind, run_getg.
  destruct (scan_snapshot_size snap content Hr ltac:(lia)
    (max_snapshot_size (runtime_config_ (group_ w)))) as (total&->&Ht).
  { unfold max_snapshot_size. case_decide; lia. }
  case_decide; [by rewrite bool_decide_false by lia|]. rewrite bool_decide_true by lia.
  rewrite Ht, Hp by lia. rewrite (bool_decide_true (0 < slen content)) by lia. cbn [andb].
  rewrite run_bind, run_getg. case_decide; [done|].
  rewrite (stream_snapshot_content snap content Hr) by lia. rewrite run_bind, run_emit.
  by destruct (env_save_snapshot _ _).
Qed.

(** ** Samples *)

Definition sample_sender : Node :=
  node_init ((sample_group 1 [2; 3] false false)
    <| role_ := LEADER |> <| current_term_ := 2 |>
    <| snapshot_sends_ := {[2 := mkSnapshotSendState (Some (string_snapshot 5 1 "state")) 0 5 1 true 0]} |>).
Definition sample_receiver : Node := node_init ((sample_group 2 [1; 3] false false) <| current_term_ := 2 |>).

Lemma string_snapshot_reads i t s : reads (string_snapshot i t s) s.
Proof. by intros off len _ _. Qed.

(** ** Properties *)

(** C19. A snapshot transfer delivers the snapshot.  The leader starts sending a
    snapshot of less than 4 GiB of ASCII text (the transport's JSON refuses bytes
    that are not UTF-8, [Protocol.binary_chunk_not_sent]); the follower is in the
    leader's term, has the leader among its voters, is not restoring another
    snapshot, and its files can be opened, written and removed.  Then leader and
    follower, running their whole handlers on each other's messages without loss,
    are done after one round per 64 KiB: the follower's state machine was restored
    exactly once, from the snapshot's content; when that succeeded and the node
    was not ahead of the snapshot, log, commit and applied index are at the
    snapshot, and with a persister the content is saved under its index and term;
    and the answer to the last chunk moves the leader's indices of the peer to the
    snapshot. *)
Theorem snapshot_transfer_complete (EL EF : Env) (lw fw : Node) (snap : Snapshot) (content : string)
    (peer : NodeId) (addr : NodeAddr) (index sterm size : Z)
    (Hser : forall req, ascii_text (is_data req) = true -> @env_serialize_ok EL (InstallSnapshotRpc req) = true)
    (Hascii : ascii_text content = true)
    (Hfile : forall op p, @env_file_ok EF op p = true)
    (Hwrite : forall p d, @env_write_fails EF p d = None)
    (Hreads : reads snap content) (Hlen : slen content < 2 ^ 32)
    (Hrunning : state_ lw = kRunning) (Hleads : role_ (group_ lw) = LEADER)
    (Hpeer : peer_map_ (group_ lw) !! peer = Some addr)
    (Hstart : snapshot_sends_ (group_ lw) !! peer =
                Some (mkSnapshotSendState (Some snap) 0 index sterm true size))
    (Hterm : current_term_ (group_ fw) = current_term_ (group_ lw))
    (Hvoter : IsVoter (cluster_config_ (group_ fw)) (server_id_ (group_ lw)) = true)
    (Hidle : snapshot_restore_in_progress_ (group_ fw) = false) :
  let rounds := S (Z.to_nat (slen content / kSnapshotChunkSize)) in
  exists lw0 lw' resp fw' lw'',
    @SendNextSnapshotChunkLocked EL peer lw = Done tt lw0 /\
    exchange EL EF rounds peer lw0 fw = Some (lw', resp, fw') /\
    snapshot_restore_in_progress_ (group_ fw') = false /\
    restores (trace_ fw') = restores (trace_ fw) ++ [content] /\
    (@env_restore_ok EF content = true ->
     last_snapshot_index_ (group_ fw) < index -> commit_index_ (group_ fw) <= index ->
     last_snapshot_index_ (group_ fw') = index /\ last_snapshot_term_ (group_ fw') = sterm /\
     commit_index_ (group_ fw') = index /\ last_applied_ (group_ fw') = index /\
     start_index_ (log_ (group_ fw')) = u32 (index + 1) /\
     (@env_persister EF = true ->
      snapshot_saves (trace_ fw') = snapshot_saves (trace_ fw) ++ [(content, index, sterm)])) /\
    @HandleInstallSnapshotResponse EL peer resp true lw' = @TryCommitLocked EL lw'' /\
    match_index_ (group_ lw'') !! peer = Some index /\
    next_index_ (group_ lw'') !! peer = Some (u32 (index + 1)).
Proof.
  cbv zeta. set (path := snapshot_path (group_ fw) index sterm). set (term := current_term_ (group_ lw)).
  assert (forall off, @env_serialize_ok EL
    (InstallSnapshotRpc (chunk_request content term index sterm (server_id_ (group_ lw)) off)) = true) as Hser'.
  { intros off. apply Hser. simpl. by apply ascii_substring. }
  destruct (@send_chunk_run content term index sterm (server_id_ (group_ lw))
    EL Hser' snap Hreads peer addr 0 size lw ltac:(lia) ltac:(done) Hstart) as (lw0&E0&Hs0).
  exists lw0.
  destruct (exchange_run EL EF content term index sterm (server_id_ (group_ lw)) peer addr snap (basis fw)
    Hser' Hfile Hwrite Hreads Hlen ltac:(done) (S (Z.to_nat (slen content / kSnapshotChunkSize))) path 0 lw0 fw)
    as (lw'&fw'&off&Ex&Ht&Hs'&Hlast).
  - unfold slen. lia.
  - rewrite Nat2Z.inj_succ, Z2Nat.id by (apply Z.div_pos; unfold slen, kSnapshotChunkSize; lia).
    pose proof (Z.mod_pos_bound (slen content) kSnapshotChunkSize ltac:(unfold kSnapshotChunkSize; lia)).
    pose proof (Z.div_mod (slen content) kSnapshotChunkSize ltac:(unfold kSnapshotChunkSize; lia)). lia.
  - done.
  - split; [done|]. by left.
  - destruct (@acknowledged_last _ _ _ _ _ EL _ _ _ _ _ Hlast Hs') as (w1&Ew&Hm&Hn&_).
    destruct Ht as (Hr1&_&Hr2&Hr3). exists lw', (mkInstallSnapshotResponse term), fw', w1.
    rewrite (response_run EL content term index sterm (server_id_ (group_ lw)) peer addr snap lw' off Hs').
    by split_and!.
Qed.

Lemma snapshot_transfer_complete_witness :
  exists lw' resp fw', exchange (sample_env true true 0) (sample_env true true 0) 1 2
      (final (@SendNextSnapshotChunkLocked (sample_env true true 0) 2 sample_sender)) sample_receiver
    = Some (lw', resp, fw') /\ restores (trace_ fw') = ["state"].
Proof.
  destruct (snapshot_transfer_complete (sample_env true true 0) (sample_env true true 0)
    sample_sender sample_receiver (string_snapshot 5 1 "state") "state" 2 "host:2" 5 1 0
    ltac:(done) eq_refl ltac:(done) ltac:(done) (string_snapshot_reads 5 1 "state")
    ltac:(vm_compute; reflexivity) eq_refl eq_refl ltac:(vm_compute; reflexivity) ltac:(vm_compute; reflexivity)
    eq_refl ltac:(vm_compute; reflexivity) eq_refl) as (lw0&lw'&resp&fw'&_&E0&Ex&_&Hr&_).
  exists lw', resp, fw'. rewrite E0. split; [exact Ex|exact Hr].
Defined.

(** What is persisted is the whole snapshot or nothing.  When the state
    machine's snapshot reads as some non-empty content, creating it ends: it is
    refused without a trace when it is larger than the limit or not newer than
    the last one, and otherwise the persister is handed the content, complete
    and in order, under the snapshot's index and term. *)
Theorem snapshot_persisted_whole `{!Env} (snap : Snapshot) (content : string) (w : Node)
    (Hc : env_create_snapshot = Some snap) (Hp : env_persister = true) (Hr : reads snap content)
    (Hl : 0 < slen content < 2 ^ 63)
    (Hm : 0 <= max_snapshot_size_bytes (runtime_config_ (group_ w))) :
  let index := u32 (sn_last_included_index snap) in
  let term := u32 (sn_last_included_term snap) in
  CreateAndPersistSnapshot w =
    if decide (max_snapshot_size (runtime_config_ (group_ w)) < slen content)
    then Done (inl (Error1 "Snapshot exceeds max size")) w
    else if decide (index <= last_snapshot_index_ (group_ w))
    then Done (inl (Error1 "Snapshot superseded while creating")) w
    else Done (match env_save_snapshot index term with StOK => inr (index, term) | err => inl err end)
           (w <| trace_ ::= fun t => t ++ [SaveSnapshot content index term] |>).
Proof. by apply CreateAndPersist_run. Qed.

Lemma snapshot_persisted_whole_witness :
  exists w', @CreateAndPersistSnapshot (sample_env true true 0) sample_receiver = Done (inr (2, 1)) w'.
Proof.
  eexists. rewrite (@snapshot_persisted_whole (sample_env true true 0) (string_snapshot 2 1 "state")
    "state" sample_receiver eq_refl eq_refl (string_snapshot_reads 2 1 "state")
    ltac:(vm_compute; split; reflexivity) ltac:(vm_compute; discriminate)).
  rewrite decide_False by (vm_compute; discriminate).
  rewrite decide_False by (intros H; vm_compute in H; by apply H). reflexivity.
Defined.
