(* ===== verification/Pipeline.v ===== *)
(** * The leader's send pipeline

    What [SendAppendEntriesToPeerLocked] puts into a request, the window of
    batches in flight, and the loop of [BroadcastAppendEntriesLocked]. *)

From S2P Require Import Prelude Types RaftLog Quorum Sessions RaftGroup Timers Replicate.
From S2P Require Import Membership Apply Election Leader Follower Replication Commit.

Lemma length_GetEntries l a b :
  log_wf l -> start_index_ l <= a ->
  Z.of_nat (length (GetEntries l a b)) <= Z.max 0 (next_free l - a).
Proof.
  intros W Ha. pose proof (wf_start _ W). rewrite GetEntries_wf by (done || lia).
  rewrite length_take, length_drop. unfold next_free, log_size. lia.
Qed.

(** The request that carries the entries of a leader's log from [n] on. *)
Definition slice_request (g : RaftGroup) (n stop : Z) : AppendEntriesRequest :=
  mkAppendEntriesRequest (current_term_ g) (server_id_ g) (n - 1) (log_term g (n - 1))
    (GetEntries (log_ g) n stop) (commit_index_ g).

(** The batches in flight to a peer. *)
Definition in_flight (g : RaftGroup) (p : NodeId) : list InflightEntry := default [] (inflight_ g !! p).

(** One request was sent to [p], whose next index was [n]. *)
Definition sent_slice (p : NodeId) (n : Z) (w w' : Node) : Prop :=
  exists stop addr, let g := group_ w in
    let es := GetEntries (log_ g) n stop in
    trace_ w' = trace_ w ++
      [SendRpc p addr (AppendEntriesRpc (slice_request g n stop)) (CbAppendEntries (bool_decide (es = [])))] /\
    next_index_ (group_ w') !! p = Some (n + Z.of_nat (length es)) /\
    if decide (es = []) then in_flight (group_ w') p = in_flight g p
    else inflight_count (in_flight g p) < max_pipeline_window (runtime_config_ g) /\
         in_flight (group_ w') p = in_flight g p ++ [mkInflightEntry n (Z.of_nat (length es))].

Section pipeline.
Context `{!Env}.

Lemma send_slice_run p w n :
  next_index_ (group_ w) !! p = Some n -> log_wf (log_ (group_ w)) ->
  start_index_ (log_ (group_ w)) <= n <= UINT32_MAX ->
  exists w', SendAppendEntriesToPeerLocked p w = Done tt w' /\
    log_ (group_ w') = log_ (group_ w) /\ (w' = w \/ sent_slice p n w w').
Proof.
  intros Hn W Hr. set (g := group_ w) in *. pose proof (wf_start _ W).
  unfold SendAppendEntriesToPeerLocked. rewrite run_bind, run_getg. fold g. rewrite Hn.
  rewrite run_bind, run_getg. fold g. rewrite decide_False by (unfold GetFirstIndex; lia).
  unfold GetLogTermLocked.
  do 6 (rewrite run_bind, run_getg; fold g). rewrite (u32_small (n - 1)) by (unfold UINT32_MAX in *; lia).
  set (stop := if decide (n <= (GetLastLogInfo (log_ g)).1)
    then Z.min (u32 (n + max_entries_per_append (runtime_config_ g))) (u32 ((GetLastLogInfo (log_ g)).1 + 1))
    else n).
  assert ((if decide (n <= (GetLastLogInfo (log_ g)).1) then GetEntries (log_ g) n
    (Z.min (u32 (n + max_entries_per_append (runtime_config_ g))) (u32 ((GetLastLogInfo (log_ g)).1 + 1)))
    else []) = GetEntries (log_ g) n stop) as ->.
  { unfold stop. case_decide; [done|]. rewrite GetEntries_wf by (done || lia).
    by replace (Z.to_nat _) with 0%nat by lia. }
  fold (slice_request g n stop). set (es := GetEntries (log_ g) n stop).
  rewrite run_bind, run_getg. fold g. fold (in_flight g p).
  destruct (negb (bool_decide (es = [])) && _) eqn:Hfull; [exists w; auto|].
  destruct (negb (env_serialize_ok _)); [exists w; auto|].
  rewrite run_bind, run_getg. fold g. destruct (peer_map_ g !! p) as [addr|]; [|exists w; auto].
  pose proof (length_GetEntries (log_ g) n stop W ltac:(lia)). fold es in H1.
  pose proof (wf_bound _ W). unfold set_next_index.
  case_bool_decide as He.
  - rewrite run_bind, run_putg, run_emit. eexists. split; [done|]. split; [done|]. right.
    exists stop, addr. cbv zeta. fold g. fold es. proj_simp. rewrite bool_decide_true, decide_True by done.
    split; [done|]. split; [|done]. rewrite He. simpl. by rewrite Z.add_0_r.
  - rewrite run_bind, run_bind, run_putg, run_putg, run_emit. eexists. split; [done|]. split; [done|].
    right. exists stop, addr. cbv zeta. fold g. fold es. proj_simp. rewrite bool_decide_false, decide_False by done.
    unfold in_flight. proj_simp. rewrite !lookup_insert_eq. cbn [default].
    rewrite u32_small by (unfold next_free, UINT32_MAX in *; lia).
    split; [done|]. split; [done|]. split; [|done].
    simpl in Hfull. case_bool_decide; [done|]. unfold in_flight in *. lia.
Qed.

(** Sending a snapshot does not move the next index. *)
Definition same_next (w w' : Node) : Prop :=
  log_ (group_ w') = log_ (group_ w) /\ next_index_ (group_ w') = next_index_ (group_ w).

#[local] Instance same_next_preorder : PreOrder same_next.
Proof. split; [by intros w|]. intros w1 w2 w3 [??] [??]. split; congruence. Qed.

Ltac same_next_leaf :=
  first [apply runs_modify; intros ?; split; reflexivity | eapply runs_gets; apply _].
#[local] Hint Extern 1 (runs same_next (putg _)) => same_next_leaf : keeps.
#[local] Hint Extern 1 (runs same_next (modify _)) => same_next_leaf : keeps.
#[local] Hint Extern 1 (runs same_next (emit _)) => same_next_leaf : keeps.
#[local] Hint Extern 1 (runs same_next (getg _)) => same_next_leaf : keeps.

Lemma same_next_snapshot p : runs same_next (SendInstallSnapshotToPeerLocked p).
Proof. unfold SendInstallSnapshotToPeerLocked, SendNextSnapshotChunkLocked, set_send. runs_solve. Qed.

Lemma send_behind_run p w n :
  next_index_ (group_ w) !! p = Some n -> n < start_index_ (log_ (group_ w)) ->
  exists w', SendAppendEntriesToPeerLocked p w = Done tt w' /\ same_next w w'.
Proof.
  intros Hn Hlt. unfold SendAppendEntriesToPeerLocked. rewrite run_bind, run_getg, Hn.
  rewrite run_bind, run_getg, decide_True by done.
  destruct (same_next_snapshot p w) as ([]&w'&E&H'). by exists w'.
Qed.

(** One round of the loop: it stops, or has sent something of the log. *)
Lemma send_round_run p w n :
  next_index_ (group_ w) !! p = Some n -> log_wf (log_ (group_ w)) -> 0 <= n <= UINT32_MAX ->
  exists w' n', SendAppendEntriesToPeerLocked p w = Done tt w' /\
    log_ (group_ w') = log_ (group_ w) /\ next_index_ (group_ w') !! p = Some n' /\
    n <= n' <= Z.max n (next_free (log_ (group_ w))) /\
    (n' <> n -> start_index_ (log_ (group_ w)) <= n).
Proof.
  intros Hn W Hr. destruct (decide (n < start_index_ (log_ (group_ w)))) as [Hlt|Hge].
  - destruct (send_behind_run p w n Hn Hlt) as (w'&E&Hl&Hx). exists w', n.
    split_and!; [done..| |lia|lia|done]. by rewrite Hx.
  - destruct (send_slice_run p w n Hn W ltac:(lia)) as (w'&E&Hl&[->|(stop&addr&_&Hx&_)]).
    + exists w, n. split_and!; try done; lia.
    + pose proof (length_GetEntries (log_ (group_ w)) n stop W ltac:(lia)).
      eexists w', _. split_and!; [done..| | |]; lia.
Qed.

Lemma run_next_index p w n :
  next_index_ (group_ w) !! p = Some n -> next_index_at p w = Done n w.
Proof. intros Hn. unfold next_index_at. by rewrite run_bind, run_getg, Hn. Qed.

Lemma broadcast_loop_run p : forall fuel w n,
  next_index_ (group_ w) !! p = Some n -> log_wf (log_ (group_ w)) -> 0 <= n <= UINT32_MAX ->
  Z.max 0 (next_free (log_ (group_ w)) - Z.max n (start_index_ (log_ (group_ w)))) < Z.of_nat fuel ->
  exists w' n', broadcast_loop fuel p w = Done true w' /\
    next_index_ (group_ w') !! p = Some n' /\ n <= n' <= Z.max n (next_free (log_ (group_ w))).
Proof.
  induction fuel as [|fuel IH]; intros w n Hn W Hr Hf; [lia|]. cbn [broadcast_loop].
  rewrite run_bind, (run_next_index p w n Hn), run_bind.
  destruct (send_round_run p w n Hn W Hr) as (w1&n1&->&Hl&Hn1&Hr1&Hs).
  rewrite run_bind, (run_next_index p w1 n1 Hn1).
  case_decide as Heq.
  - exists w1, n1. done.
  - pose proof (wf_bound _ W). unfold next_free, log_size in *.
    destruct (IH w1 n1 Hn1) as (w2&n2&E2&Hn2&Hr2); rewrite ?Hl; [done|lia..|].
    exists w2, n2. rewrite Hl in Hr2. split_and!; try done; lia.
Qed.

(** More fuel changes nothing once the loop has stopped. *)
Lemma broadcast_loop_mono p extra : forall fuel w w',
  broadcast_loop fuel p w = Done true w' -> broadcast_loop (fuel + extra) p w = Done true w'.
Proof.
  induction fuel as [|fuel IH]; intros w w'; [by intros [=]|]. cbn [Nat.add broadcast_loop].
  rewrite !(run_bind (next_index_at p)). destruct (next_index_at p w) as [before w1|]; [|done].
  rewrite !run_bind. destruct (SendAppendEntriesToPeerLocked p w1) as [? w2|]; [|done].
  rewrite !run_bind. destruct (next_index_at p w2) as [after w3|]; [|done].
  destruct (decide _); [done|]. apply IH.
Qed.

Lemma broadcast_exits p w :
  log_wf (log_ (group_ w)) ->
  (forall n, next_index_ (group_ w) !! p = Some n -> 0 <= n <= UINT32_MAX) ->
  let n := default 0 (next_index_ (group_ w) !! p) in
  exists w' n', broadcast_loop (broadcast_fuel (group_ w)) p w = Done true w' /\
    next_index_ (group_ w') !! p = Some n' /\ n <= n' <= Z.max n (next_free (log_ (group_ w))).
Proof.
  intros W Hr. cbv zeta.
  assert (Z.max 0 (next_free (log_ (group_ w)) - start_index_ (log_ (group_ w)))
    < Z.of_nat (broadcast_fuel (group_ w))) by (unfold broadcast_fuel, next_free, log_size; lia).
  destruct (next_index_ (group_ w) !! p) as [n|] eqn:Hn; cbn [default].
  - apply broadcast_loop_run; try done; [by apply Hr|lia].
  - set (w0 := w <| group_ ::= fun g => g <| next_index_ := <[p := 0]> (next_index_ (group_ w)) |> |>).
    assert (next_index_ (group_ w0) !! p = Some 0) as Hz by (unfold w0; proj_simp; apply lookup_insert_eq).
    assert (broadcast_loop (broadcast_fuel (group_ w)) p w = broadcast_loop (broadcast_fuel (group_ w)) p w0)
      as ->.
    { unfold broadcast_fuel. cbn [broadcast_loop].
      rewrite !(run_bind (next_index_at p)), (run_next_index p w0 0 Hz).
      unfold next_index_at at 1. by rewrite run_bind, run_getg, Hn. }
    apply (broadcast_loop_run p _ w0 0 Hz W); [unfold UINT32_MAX; lia|].
    change (log_ (group_ w0)) with (log_ (group_ w)). lia.
Qed.

End pipeline.

(** ** Samples *)

(** The leader of the log samples, about to send entries 3 and 4 to node 2. *)
Definition sample_pipeline : Node :=
  node_init (sample_leader <| role_ := LEADER |> <| current_term_ := 2 |> <| commit_index_ := 3 |>
    <| next_index_ := {[2 := 3]} |>).

Lemma sample_pipeline_wf : group_wf (group_ sample_pipeline).
Proof. by apply group_wf_check. Qed.

(** ** Properties *)

(** Requests are slices of the leader's log.  For a peer whose next index
    [n] is in the log, [SendAppendEntriesToPeerLocked] either does nothing or
    sends one request: it names index and term of the entry before [n], carries
    the log's entries from [n] on, moves the next index past them, and, unless
    it is a heartbeat, is sent only while the pipeline window is open and is
    recorded as the last batch in flight. *)
Theorem append_request_is_slice `{!Env} (p : NodeId) (w : Node) (n : Z)
    (Hn : next_index_ (group_ w) !! p = Some n) (W : log_wf (log_ (group_ w)))
    (Hr : start_index_ (log_ (group_ w)) <= n <= UINT32_MAX) :
  exists w', SendAppendEntriesToPeerLocked p w = Done tt w' /\
    log_ (group_ w') = log_ (group_ w) /\ (w' = w \/ sent_slice p n w w').
Proof. by apply send_slice_run. Qed.

Lemma append_request_is_slice_witness :
  exists w', @SendAppendEntriesToPeerLocked (sample_env true true 0) 2 sample_pipeline = Done tt w' /\
    (w' = sample_pipeline \/ sent_slice 2 3 sample_pipeline w').
Proof.
  destruct (@append_request_is_slice (sample_env true true 0) 2 sample_pipeline 3
    ltac:(vm_compute; reflexivity) (gw_log _ sample_pipeline_wf)
    ltac:(vm_compute; split; discriminate)) as (w'&E&_&H).
  exists w'. split; [exact E|exact H].
Defined.

(** C37. Broadcasting terminates.  On a well-formed log the unbounded send loop
    of one peer stops after at most one round more than the log has entries,
    however many rounds it would be given and whatever is or is not recorded
    about the peer; it never moves the peer's next index back, and forward at
    most to the index after the log's last entry (an index that already lies
    further out stays). *)
Theorem broadcast_terminates `{!Env} (p : NodeId) (w : Node)
    (W : log_wf (log_ (group_ w)))
    (Hr : forall n, next_index_ (group_ w) !! p = Some n -> 0 <= n <= UINT32_MAX) :
  let n := default 0 (next_index_ (group_ w) !! p) in
  exists w' n',
    (forall extra, broadcast_loop (S (length (entries_ (log_ (group_ w)))) + extra) p w = Done true w') /\
    next_index_ (group_ w') !! p = Some n' /\ n <= n' <= Z.max n (next_free (log_ (group_ w))).
Proof.
  destruct (broadcast_exits p w W Hr) as (w'&n'&E&?&?). exists w', n'. split; [|done].
  intros extra. by apply broadcast_loop_mono.
Qed.

Lemma broadcast_terminates_witness :
  exists w', @broadcast_loop (sample_env true true 0) 5 2 sample_pipeline = Done true w'.
Proof.
  destruct (@broadcast_terminates (sample_env true true 0) 2 sample_pipeline
    (gw_log _ sample_pipeline_wf)) as (w'&n'&E&_).
  - intros n Hn. vm_compute in Hn. injection Hn as <-. vm_compute. split; discriminate.
  - exists w'. exact (E 0%nat).
Defined.

(** C4. A round of replication brings the logs together.  When a leader sends a
    batch to a follower whose log matches its own, the follower's handling of
    that very request keeps the logs matching; and if it answers success the
    follower holds, with the same term and data, every entry of the leader's log
    from the follower's first index to the leader's new next index for that
    peer, and so the whole batch. *)
Theorem replication_round (EL EF : Env) (p : NodeId) (n : Z) (lw lw' fw : Node)
    (Hlw : group_wf (group_ lw)) (Hfw : group_wf (group_ fw))
    (Hrole : role_ (group_ fw) <> LEADER)
    (Hm : log_matching (log_ (group_ fw)) (log_ (group_ lw)))
    (Hn : next_index_ (group_ lw) !! p = Some n)
    (Hr : start_index_ (log_ (group_ lw)) <= n <= UINT32_MAX)
    (Hf : start_index_ (log_ (group_ fw)) <= n <= next_free (log_ (group_ fw)))
    (Hb : next_free (log_ (group_ fw)) + log_size (log_ (group_ lw)) <= UINT32_MAX)
    (Es : @SendAppendEntriesToPeerLocked EL p lw = Done tt lw') (Hsent : trace_ lw' <> trace_ lw) :
  exists addr req cb n',
    list.last (trace_ lw') = Some (SendRpc p addr (AppendEntriesRpc req) cb) /\
    next_index_ (group_ lw') !! p = Some n' /\ n' = n + Z.of_nat (length (ae_entries req)) /\
    let o := @append_phase2 EF req (current_term_ (group_ lw)) fw in
    log_matching (log_ (group_ (final o))) (log_ (group_ lw')) /\
    forall resp fw', o = Done resp fw' -> aer_success resp = true ->
      replicated (log_ (group_ fw')) (log_ (group_ lw')) (n' - 1) /\
      forall k e, ae_entries req !! k = Some e ->
        exists x, log_at (log_ (group_ fw')) (n + Z.of_nat k) = Some x /\ same_content x e.
Proof.
  destruct (@send_slice_run EL p lw n Hn (gw_log _ Hlw) Hr) as (lw1&E&Hl&Hs).
  rewrite Es in E. injection E as <-. destruct Hs as [->|(stop&addr&Ht&Hx&_)]; [done|].
  exists addr, (slice_request (group_ lw) n stop).
  eexists _, _. rewrite Ht, last_snoc. split; [done|]. split; [exact Hx|]. split; [done|].
  rewrite Hl. cbv zeta. unfold slice_request.
  pose proof (@append_phase2_matching EF fw (group_ lw) (current_term_ (group_ lw)) (n - 1) stop (commit_index_ (group_ lw))
    (server_id_ (group_ lw)) Hfw Hrole Hlw Hm) as H.
  rewrite Z.sub_add in H. specialize (H Hf (proj1 Hr) Hb). cbv zeta in H.
  set (es := GetEntries (log_ (group_ lw)) n stop) in *. destruct H as [Hmatch H]. split; [exact Hmatch|].
  intros resp fw' Eo Hok. destruct (H resp fw' Eo Hok) as [Hs Hrep].
  replace (n - 1 + Z.of_nat (length es)) with (n + Z.of_nat (length es) - 1) in Hrep by lia.
  split; [exact Hrep|]. simpl. intros k e Hk. apply lookup_lt_Some in Hk as Hlt. apply Hrep; [lia|].
  unfold es in Hk. rewrite lookup_GetEntries in Hk by (apply Hlw || (pose proof (wf_start _ (gw_log _ Hlw)); lia)).
  rewrite Z.max_l in Hk by (pose proof (wf_start _ (gw_log _ Hlw)); lia). by case_decide.
Qed.

Lemma sample_pipeline_matching :
  log_matching (log_ (group_ sample_follower)) (log_ (group_ sample_pipeline)).
Proof. exact sample_matching. Qed.

Lemma replication_round_witness :
  exists req fw' resp, @append_phase2 (sample_env true true 0) req 2 sample_follower = Done resp fw' /\
    aer_success resp = true /\ replicated (log_ (group_ fw')) (log_ (group_ sample_pipeline)) 4.
Proof.
  set (o := @SendAppendEntriesToPeerLocked (sample_env true true 0) 2 sample_pipeline).
  set (req0 := slice_request (group_ sample_pipeline) 3 5).
  assert (match o with Done _ w =>
      next_index_ (group_ w) !! 2 = Some 5 /\ log_ (group_ w) = log_ (group_ sample_pipeline) /\
      length (trace_ w) = 1%nat /\
      list.last (trace_ w) = Some (SendRpc 2 "host:2" (AppendEntriesRpc req0) (CbAppendEntries false))
    | Aborted _ => False end) as Hok by (vm_compute; split_and!; reflexivity).
  assert (match @append_phase2 (sample_env true true 0) req0 2 sample_follower with
    | Done resp _ => aer_success resp | Aborted _ => false end = true) as Hrun
    by (vm_compute; reflexivity).
  clearbody req0. destruct o as [[] lw'|lw'] eqn:E; [|destruct Hok].
  destruct Hok as (Hn'&Hlog&Hlen&Hlast).
  destruct (replication_round (sample_env true true 0) (sample_env true true 0) 2 3 sample_pipeline lw'
    sample_follower sample_pipeline_wf sample_follower_wf ltac:(discriminate) sample_pipeline_matching
    ltac:(vm_compute; reflexivity) ltac:(vm_compute; split; discriminate)
    ltac:(vm_compute; split; discriminate) ltac:(vm_compute; discriminate) E) as (a&req&cb&n'&Hl&Hx&_&H).
  { intros Heq. rewrite Heq in Hlen. discriminate Hlen. }
  rewrite Hlast in Hl. injection Hl as <- <- <-. rewrite Hn' in Hx. injection Hx as <-.
  rewrite Hlog in H. cbv zeta in H. change (current_term_ (group_ sample_pipeline)) with 2 in H.
  exists req0. destruct (@append_phase2 (sample_env true true 0) req0 2 sample_follower) as [resp fw'|];
    [|discriminate Hrun].
  exists fw', resp. split; [reflexivity|]. split; [exact Hrun|]. exact (proj1 (proj2 H resp fw' eq_refl Hrun)).
Defined.
