(* ===== verification/Changes.v ===== *)
(** * Membership changes end to end

    The commands that [AddNode], [RemoveNode] and a joint leader propose, and
    what [ApplyConfigChangeLocked] makes of them when they commit.  The JSON
    library is a parameter; what is assumed of it is that an array of numbers
    is parsed back from its dump, and that the dump has no colon. *)

From S2P Require Import Prelude Types RaftLog Quorum Sessions RaftGroup Timers Replicate.
From S2P Require Import Membership Text Apply Election Leader Follower Snapshots NodeCore Frames.
From S2P Require Import Replication Commit.

Lemma elem_of_dropped c id :
  id ∈ learners (drop_voters_from_learners c) <-> id ∈ learners c /\ id ∉ nodes c.
Proof.
  unfold drop_voters_from_learners. proj_simp. generalize (learners c).
  induction (nodes c) as [|x l IH]; intros ls; simpl; [set_solver|].
  rewrite IH, elem_of_vec_remove. set_solver.
Qed.

Section changes.
Context `{!Env}.
Context (old_ new_ : list NodeId).
Context (Hold : env_json_parse (env_json_dump old_) = Some old_)
  (Hnew : env_json_parse (env_json_dump new_) = Some new_)
  (Hcolon : String.index 0 ":" (env_json_dump old_) = None).

Definition finalize_command (l : list NodeId) : string := PREFIX_FINALIZE +:+ env_json_dump l.

(** The same configuration, role and term; the log may have grown. *)
Lemma Broadcast_silent w :
  exists w', BroadcastAppendEntriesLocked w = Done tt w' /\
    cluster_config_ (group_ w') = cluster_config_ (group_ w) /\
    log_ (group_ w') = log_ (group_ w).
Proof.
  destruct (runs_Broadcast w) as ([]&w'&E&_&Hl).
  pose proof (silent_BroadcastAppendEntries w) as Hs. rewrite E in Hs. destruct Hs as [_ Hc].
  by exists w'.
Qed.

Lemma PersistClusterConfig_same w :
  exists w', PersistClusterConfigLocked w = Done tt w' /\ group_ w' = group_ w.
Proof.
  unfold PersistClusterConfigLocked, SaveStateM. destruct env_persister; simpl; [|by eexists].
  run. destruct (env_save_ok _); [|destruct (env_save_left _)]; simpl; run; by eexists.
Qed.

Lemma append_and_persist_run cmd w :
  exists i w', append_and_persist cmd w = Done i w' /\
    cluster_config_ (group_ w') = cluster_config_ (group_ w) /\
    log_ (group_ w') = (Append (current_term_ (group_ w)) cmd (log_ (group_ w))).2.
Proof.
  unfold append_and_persist. rewrite run_bind, run_getg, run_bind, run_getg.
  destruct (Append _ _ _) as [i l]. rewrite run_bind, run_putg, run_bind.
  destruct env_log_persister; [|rewrite run_putg, run_ret; by eexists _, _].
  destruct (GetEntry l i); rewrite ?run_emit, ?run_ret; by eexists _, _.
Qed.

(** What a JOINT command does to a node. *)
Definition joint_applied (w w' : Node) : Prop :=
  let c := cluster_config_ (group_ w) in
  let c' := cluster_config_ (group_ w') in
  nodes c' = new_ /\ old_nodes c' = old_ /\ is_joint c' = true /\
  version c' = u64 (version c + 1) /\
  (forall id, id ∈ learners c' <-> id ∈ learners c /\ id ∉ new_) /\
  log_ (group_ w') =
    (if decide (role_ (group_ w) = LEADER)
     then (Append (current_term_ (group_ w)) (finalize_command new_) (log_ (group_ w))).2
     else log_ (group_ w)) /\
  pending_config_change_ (group_ w') = false.

Lemma apply_joint_run w :
  exists w', ApplyConfigChangeLocked (joint_command old_ new_) w = Done tt w' /\
    joint_applied w w'.
Proof using Hold Hnew Hcolon.
  unfold ApplyConfigChangeLocked, joint_command, starts_with. rewrite prefix_app.
  rewrite run_bind. unfold apply_joint. rewrite split_colon_app by done. rewrite Hold, Hnew.
  unfold upd_config. rewrite run_bind, run_putg, run_bind, run_putg, run_bind.
  match goal with |- context [PersistClusterConfigLocked ?x] => set (w1 := x) end.
  destruct (PersistClusterConfig_same w1) as (w2&->&Hg). rewrite run_bind, run_getg, Hg.
  change (role_ (group_ w1)) with (role_ (group_ w)).
  assert (forall w3, cluster_config_ (group_ w3) = cluster_config_ (group_ w1) ->
    log_ (group_ w3) = (if decide (role_ (group_ w) = LEADER)
     then (Append (current_term_ (group_ w)) (finalize_command new_) (log_ (group_ w))).2
     else log_ (group_ w)) ->
    joint_applied w (w3 <| group_ ::= fun g => g <| pending_config_change_ := false |> |>))
    as Hj.
  { intros w3 Hc Hl. unfold joint_applied. proj_simp. rewrite Hc, Hl. unfold w1. proj_simp.
    split_and!; try done. intros id. rewrite elem_of_dropped. done. }
  case_decide as Hrole.
  - rewrite run_bind, run_getg, Hg, run_bind. fold (finalize_command (nodes (cluster_config_ (group_ w1)))).
    destruct (append_and_persist_run (finalize_command (nodes (cluster_config_ (group_ w1)))) w2)
      as (i&w3&->&Hc3&Hl3). destruct (Broadcast_silent w3) as (w4&->&Hc4&Hl4).
    rewrite run_putg. eexists. split; [done|]. apply Hj; [congruence|].
    by rewrite Hl4, Hl3, Hg.
  - rewrite run_ret, run_putg. eexists. split; [done|]. apply Hj; [by rewrite Hg|].
    by rewrite Hg.
Qed.

(** What FINALIZE does. *)
Lemma apply_finalize_run w :
  exists w', ApplyConfigChangeLocked (finalize_command new_) w = Done tt w' /\
    let c := cluster_config_ (group_ w') in
    nodes c = new_ /\ old_nodes c = [] /\ is_joint c = false /\
    version c = u64 (version (cluster_config_ (group_ w)) + 1) /\
    (forall id, id ∈ learners c <-> id ∈ learners (cluster_config_ (group_ w)) /\ id ∉ new_) /\
    log_ (group_ w') = log_ (group_ w) /\ pending_config_change_ (group_ w') = false.
Proof using Hnew.
  unfold ApplyConfigChangeLocked, finalize_command, starts_with. rewrite prefix_app.
  change (String.prefix PREFIX_JOINT (PREFIX_FINALIZE +:+ env_json_dump new_)) with false.
  cbv iota. rewrite run_bind. unfold apply_finalize. rewrite substr_from_app, Hnew.
  unfold upd_config. rewrite run_bind, run_putg.
  match goal with |- context [PersistClusterConfigLocked ?x] => set (w1 := x) end.
  destruct (PersistClusterConfig_same w1) as (w2&->&Hg). rewrite run_putg.
  eexists. split; [done|]. cbv zeta. proj_simp. rewrite Hg. unfold w1. proj_simp.
  split_and!; try done. intros id. rewrite elem_of_dropped. done.
Qed.

End changes.

(** ** Samples *)

(** A leader of a three-node cluster with node 4 as a learner. *)
Definition sample_changer : Node :=
  node_init ((sample_group 1 [2; 3] false false) <| role_ := LEADER |> <| current_term_ := 1 |>
    <| cluster_config_ := mkClusterConfig [1; 2; 3] [] [4] 1 false |>
    <| pending_config_change_ := true |>).

(** ** Properties *)

(** C18. A membership change goes through joint consensus.  Applying the JOINT
    command of [AddNode] or [RemoveNode] completes and leaves a joint
    configuration of exactly the two voter sets, in which a quorum is a majority
    of both; a leader has then appended the FINALIZE command of the new set,
    whose application leaves exactly the new voters, none of them a learner. *)
Theorem joint_consensus_change `{!Env} (old_ new_ : list NodeId) (w : Node)
    (Hold : env_json_parse (env_json_dump old_) = Some old_)
    (Hnew : env_json_parse (env_json_dump new_) = Some new_)
    (Hcolon : String.index 0 ":" (env_json_dump old_) = None)
    (Hsmall : Z.of_nat (length new_) < 2147483648 /\ Z.of_nat (length old_) < 2147483648) :
  exists w1 w2,
    ApplyConfigChangeLocked (joint_command old_ new_) w = Done tt w1 /\
    joint_applied old_ new_ w w1 /\
    (forall V, QuorumSatisfied (cluster_config_ (group_ w1)) V = true <->
       Z.of_nat (length new_) / 2 + 1 <= count_in new_ V /\
       Z.of_nat (length old_) / 2 + 1 <= count_in old_ V) /\
    ApplyConfigChangeLocked (finalize_command new_) w1 = Done tt w2 /\
    nodes (cluster_config_ (group_ w2)) = new_ /\ old_nodes (cluster_config_ (group_ w2)) = [] /\
    is_joint (cluster_config_ (group_ w2)) = false /\
    (forall id, id ∈ learners (cluster_config_ (group_ w2)) <->
       id ∈ learners (cluster_config_ (group_ w)) /\ id ∉ new_).
Proof.
  destruct (apply_joint_run old_ new_ Hold Hnew Hcolon w) as (w1&E1&Hj).
  destruct (apply_finalize_run new_ Hnew w1) as (w2&E2&Hn2&Ho2&Hj2&_&Hl2&_).
  exists w1, w2. split_and!; try done.
  - intros V. destruct Hj as (Hn&Ho&Hjt&_). rewrite QuorumSatisfied_spec, Hn, Ho, Hjt.
    + naive_solver.
    + split; rewrite ?Hn, ?Ho; tauto.
  - intros id. rewrite Hl2. destruct Hj as (_&_&_&_&Hl&_). rewrite Hl. tauto.
Qed.

Lemma joint_consensus_change_witness :
  exists w1 w2,
    @ApplyConfigChangeLocked (sample_env true true 0)
      (@joint_command (sample_env true true 0) [1; 2; 3] [1; 2; 3; 4]) sample_changer = Done tt w1 /\
    is_joint (cluster_config_ (group_ w1)) = true /\
    @ApplyConfigChangeLocked (sample_env true true 0)
      (@finalize_command (sample_env true true 0) [1; 2; 3; 4]) w1 = Done tt w2 /\
    nodes (cluster_config_ (group_ w2)) = [1; 2; 3; 4].
Proof.
  destruct (@joint_consensus_change (sample_env true true 0) [1; 2; 3] [1; 2; 3; 4] sample_changer)
    as (w1&w2&E1&Hj&_&E2&Hn&_); [vm_compute; reflexivity..|split; vm_compute; reflexivity|].
  exists w1, w2. split; [exact E1|]. split; [apply Hj|]. split; [exact E2|exact Hn].
Defined.
