(* ===== verification/Reads.v ===== *)
(** * Linearizable reads

    A read registered by [ReadIndex] is answered when a quorum has acknowledged
    the leader since, and the state machine has reached the commit index of that
    moment. *)

From S2P Require Import Prelude Types RaftLog Quorum Sessions RaftGroup Timers Replicate.
From S2P Require Import Membership Apply Election Leader Follower.

(** The callbacks of reads, in the order of the list of ids. *)
Definition read_callbacks (reads : gmap Z PendingReadIndex) (ids : list Z) : list Z :=
  omap (fun i => r ← reads !! i; pr_callback r) ids.

Definition callable (reads : gmap Z PendingReadIndex) : Prop :=
  map_Forall (fun _ r => is_Some (pr_callback r)) reads.

Section reads.
Context `{!Env}.

Lemma complete_read_run i r cb w :
  pending_reads_ (group_ w) !! i = Some r -> pr_callback r = Some cb ->
  complete_read i w = Done tt
    (w <| group_ ::= fun g => g <| pending_reads_ := delete i (pending_reads_ (group_ w)) |> |>
       <| trace_ ::= fun t => t ++ [CallRead cb] |>).
Proof.
  intros Hr Hcb. unfold complete_read. rewrite run_bind, run_getg, Hr, run_bind, run_putg, Hcb.
  by rewrite run_emit.
Qed.

Lemma complete_reads_run ids : forall w,
  NoDup ids -> (forall i, i ∈ ids -> is_Some (pending_reads_ (group_ w) !! i)) ->
  callable (pending_reads_ (group_ w)) ->
  exists w', forM ids complete_read w = Done tt w' /\
    trace_ w' = trace_ w ++ (CallRead <$> read_callbacks (pending_reads_ (group_ w)) ids) /\
    group_ w' = (group_ w) <| pending_reads_ := foldl (fun m i => delete i m) (pending_reads_ (group_ w)) ids |>.
Proof.
  induction ids as [|i ids IH]; intros w Hnd Hin Hcall.
  { exists w. simpl. rewrite app_nil_r. split_and!; [done..|]. by destruct w as [[]]. }
  apply list.NoDup_cons in Hnd as [Hi Hnd].
  destruct (Hin i) as [r Hr]; [by left|]. destruct (Hcall i r Hr) as [cb Hcb].
  simpl. rewrite run_bind, (complete_read_run i r cb w Hr Hcb).
  match goal with |- context [forM ids complete_read ?x] => set (w1 := x) end.
  assert (pending_reads_ (group_ w1) = delete i (pending_reads_ (group_ w))) as Hp by done.
  destruct (IH w1) as (w2&->&Ht&Hg); [done|..].
  - intros j Hj. rewrite Hp, lookup_delete_ne by (by intros ->). apply Hin. by right.
  - rewrite Hp. by apply map_Forall_delete.
  - exists w2. split; [done|]. split.
    + rewrite Ht. unfold w1. proj_simp. rewrite <- (assoc_L (++)). f_equal. rewrite Hr. simpl.
      rewrite Hcb. simpl. f_equal. f_equal. unfold read_callbacks. apply list_omap_ext.
      apply Forall_Forall2_diag, list.Forall_forall. intros j Hj.
      by rewrite lookup_delete_ne by (by intros ->).
    + rewrite Hg, Hp. done.
Qed.

End reads.

Lemma lookup_foldl_delete (ids : list Z) : forall (m : gmap Z PendingReadIndex) j,
  foldl (fun m i => delete i m) m ids !! j = if decide (j ∈ ids) then None else m !! j.
Proof.
  induction ids as [|i ids IH]; intros m j; cbn [foldl].
  { rewrite decide_False; [done|]. by apply not_elem_of_nil. }
  rewrite IH. destruct (decide (j = i)) as [->|Hne].
  - rewrite lookup_delete_eq. rewrite (decide_True (P := i ∈ i :: ids)) by (by left). by case_decide.
  - rewrite lookup_delete_ne by done.
    destruct (decide (j ∈ ids)); [rewrite decide_True; [done|by right]|].
    rewrite decide_False; [done|]. by apply not_elem_of_cons.
Qed.

(** The ids of the reads that can be answered. *)
Definition ready_ids (g : RaftGroup) : list Z :=
  (filter (fun p => read_ready g p.2 = true) (map_to_list (pending_reads_ g))).*1.

Lemma elem_of_ready_ids g i :
  i ∈ ready_ids g <-> exists r, pending_reads_ g !! i = Some r /\ read_ready g r = true.
Proof.
  unfold ready_ids. rewrite list_elem_of_fmap. split.
  - intros ([k r]&->&Hin). apply list_elem_of_filter in Hin as [Hr Hin].
    apply elem_of_map_to_list in Hin. by exists r.
  - intros (r&Hi&Hr). exists (i, r). split; [done|]. apply list_elem_of_filter.
    by rewrite elem_of_map_to_list.
Qed.

Lemma NoDup_ready_ids g : NoDup (ready_ids g).
Proof.
  eapply sublist_NoDup; [apply (NoDup_fst_map_to_list (pending_reads_ g))|].
  apply fmap_sublist, sublist_filter.
Qed.

Lemma ready_reads_deleted g :
  foldl (fun m i => delete i m) (pending_reads_ g) (ready_ids g) =
  filter (fun p => read_ready g p.2 = false) (pending_reads_ g).
Proof.
  apply map_eq. intros j. rewrite lookup_foldl_delete, map_lookup_filter.
  destruct (pending_reads_ g !! j) as [r|] eqn:Hj; simpl; [|by case_decide].
  destruct (read_ready g r) eqn:Hr.
  - rewrite decide_True by (apply elem_of_ready_ids; by exists r). by rewrite option_guard_False.
  - rewrite decide_False; [by rewrite option_guard_True|].
    intros Hin. apply elem_of_ready_ids in Hin as (r'&?&?). congruence.
Qed.

(** ** Properties *)

(** Reads are answered when, and only when, they are safe.  With a callback
    on every pending read, [ProcessPendingReadsLocked] completes, answers exactly
    the reads whose index has been applied and, if heartbeats were sent for them,
    whose acknowledgements form a quorum, and keeps exactly the others. *)
Theorem ready_reads_complete (w : Node)
    (Hcall : callable (pending_reads_ (group_ w))) :
  let g := group_ w in
  exists w' cbs, ProcessPendingReadsLocked w = Done tt w' /\
    pending_reads_ (group_ w') = filter (fun p => read_ready g p.2 = false) (pending_reads_ g) /\
    trace_ w' = trace_ w ++ (CallRead <$> cbs) /\
    forall cb, cb ∈ cbs <-> exists i r, pending_reads_ g !! i = Some r /\ pr_callback r = Some cb /\
      pr_read_index r <= last_applied_ g /\
      (pr_heartbeats_sent r = true -> QuorumSatisfied (cluster_config_ g) (pr_acks r) = true).
Proof.
  cbv zeta. unfold ProcessPendingReadsLocked. rewrite run_bind, run_getg. unfold id.
  fold (ready_ids (group_ w)).
  destruct (complete_reads_run (ready_ids (group_ w)) w (NoDup_ready_ids _)) as (w'&E&Ht&Hg); [|done|].
  { intros i Hi. apply elem_of_ready_ids in Hi as (r&Hr&_). by exists r. }
  exists w', (read_callbacks (pending_reads_ (group_ w)) (ready_ids (group_ w))).
  split_and!; [exact E| |exact Ht|].
  - rewrite Hg. proj_simp. apply ready_reads_deleted.
  - intros cb. unfold read_callbacks. rewrite list_elem_of_omap. split.
    + intros (i&Hi&Hcb). apply elem_of_ready_ids in Hi as (r&Hr&Hready). exists i, r.
      rewrite Hr in Hcb. unfold read_ready in Hready. apply andb_true_iff in Hready as [Hq Ha].
      apply bool_decide_eq_true in Ha. split_and!; try done. intros Hs. by rewrite Hs in Hq.
    + intros (i&r&Hr&Hcb&Ha&Hq). exists i. rewrite elem_of_ready_ids, Hr. split; [|done].
      exists r. split; [done|]. unfold read_ready. rewrite (bool_decide_true _ Ha), andb_true_r.
      destruct (pr_heartbeats_sent r); [by apply Hq|done].
Qed.

(** Two reads at index 0, the second one still waiting for a quorum. *)
Definition sample_reader : Node :=
  node_init ((sample_group 1 [2; 3] false false) <| role_ := LEADER |>
    <| pending_reads_ := {[1 := mkPendingReadIndex 0 (Some 11) 0 {[1; 2]} true;
                           2 := mkPendingReadIndex 0 (Some 12) 0 {[1]} true]} |>).

Lemma ready_reads_complete_witness :
  exists w' cbs, ProcessPendingReadsLocked sample_reader = Done tt w' /\
    trace_ w' = CallRead <$> cbs /\ 11 ∈ cbs.
Proof.
  destruct (ready_reads_complete sample_reader) as (w'&cbs&E&_&Ht&Hcbs).
  - intros i r Hi. simpl in Hi. apply lookup_insert_Some in Hi as [[_ <-]|[_ Hi]]; [by eexists|].
    apply lookup_singleton_Some in Hi as [_ <-]. by eexists.
  - exists w', cbs. split; [exact E|]. split; [exact Ht|]. apply Hcbs.
    exists 1, (mkPendingReadIndex 0 (Some 11) 0 {[1; 2]} true). split_and!; reflexivity || discriminate.
Defined.
