(* ===== verification/Limits.v ===== *)
(** * Where the code falls short of the protocol

    Theorems about situations in which the handlers do not do what Raft, or a
    comment next to them, asks for.  Each one is about the definitions of the
    component files, for every state of the situation it describes. *)

From S2P Require Import Prelude Types RaftLog Quorum Sessions RaftGroup Timers Replicate.
From S2P Require Import Membership Apply Election Leader Follower Snapshots NodeCore Replication Frames.
From S2P Require Import Commit.

(** ** After a snapshot the log looks empty *)

Section compacted.
Context `{!Env}.

(** The state after [install_apply] has taken a snapshot over. *)
Lemma install_apply_run index term w :
  last_snapshot_index_ (group_ w) < index -> commit_index_ (group_ w) <= index ->
  exists w', install_apply index term w = Done tt w' /\
    log_ (group_ w') = mkRaftLog [] (u32 (index + 1)) 0 /\
    commit_index_ (group_ w') = index /\ last_enqueued_ (group_ w') = index /\
    last_applied_ (group_ w') = index.
Proof.
  intros Hs Hc. unfold install_apply. rewrite run_bind, run_getg. unfold id.
  rewrite decide_False by lia. rewrite decide_False by lia.
  rewrite run_bind, run_putg, run_bind.
  destruct env_log_persister; simpl when; rewrite ?run_emit, ?run_ret, run_putg; by eexists.
Qed.

Lemma follow_commit_empty lc w :
  entries_ (log_ (group_ w)) = [] -> 0 <= commit_index_ (group_ w) < lc ->
  0 <= last_enqueued_ (group_ w) ->
  follow_commit lc w = Done tt (w <| group_ ::= fun g => g <| commit_index_ := 0 |> |>).
Proof.
  intros He Hc Hq. unfold follow_commit. rewrite run_bind, run_getg. unfold id.
  rewrite bool_decide_true by lia. simpl when. rewrite run_bind, run_putg.
  assert (GetLastLogInfo (log_ (group_ w)) = (0, 0)) as ->
    by (unfold GetLastLogInfo; by rewrite He).
  cbn [fst]. rewrite Z.min_r by lia. unfold ApplyCommittedLocked. rewrite run_bind, run_getg.
  proj_simp. by replace (Z.to_nat _) with 0%nat by lia.
Qed.

End compacted.

(** ** Snapshot transfers that stop *)

(** A stream that is not in progress sends nothing. *)
Lemma SendNext_idle `{!Env} p w st :
  snapshot_sends_ (group_ w) !! p = Some st -> ss_in_progress st = false ->
  SendNextSnapshotChunkLocked p w = Done tt w.
Proof.
  intros Hs Hi. unfold SendNextSnapshotChunkLocked. rewrite run_bind, run_getg, Hs, Hi.
  by destruct (ss_snapshot st).
Qed.

(** ** Serving clients *)

(** What [RecordActivityLocked] leaves alone. *)
Definition same_service (w w' : Node) : Prop :=
  role_ (group_ w') = role_ (group_ w) /\ client_sessions_ (group_ w') = client_sessions_ (group_ w) /\
  log_ (group_ w') = log_ (group_ w) /\ server_id_ (group_ w') = server_id_ (group_ w) /\
  config_ (group_ w') = config_ (group_ w) /\
  pending_proposals_ (group_ w') = pending_proposals_ (group_ w).

#[global] Instance same_service_preorder : PreOrder same_service.
Proof. split; [by intros w|]. intros w1 w2 w3 (?&?&?&?&?&?) (?&?&?&?&?&?). split_and!; congruence. Qed.

Ltac service_leaf :=
  first [ apply runs_modify; intros ?; unfold same_service; split_and!; reflexivity
        | eapply runs_gets; apply _ ].
#[local] Hint Extern 1 (runs same_service (putg _)) => service_leaf : keeps.
#[local] Hint Extern 1 (runs same_service (getg _)) => service_leaf : keeps.

Lemma RecordActivity_service `{!Env} : runs same_service RecordActivityLocked.
Proof.
  unfold RecordActivityLocked, ExitQuiescedLocked, StopHeartbeatTimerLocked, StartHeartbeatTimerLocked.
  runs_solve.
Qed.

(** ** Samples *)

(** A joint configuration leaving node 3 out; the leader is alone with it. *)
Definition sample_joint : RaftGroup :=
  (sample_group 1 [2; 3] false false)
    <| cluster_config_ := mkClusterConfig [1; 2] [1; 2; 3] [] 2 true |>
    <| match_index_ := {[2 := 0; 3 := 5]} |>.

(** ** Properties *)

(** A compacted voter has no log to compare.  Right after a follower has
    installed a snapshot its log is empty, [GetLastLogInfo] answers (0, 0), and
    its up-to-date check accepts every candidate, an empty log included,
    although the voter holds committed entries up to the snapshot's index. *)
Theorem compacted_voter_accepts_all `{!Env} (index term : Z) (w : Node) (i t : Z)
    (Hs : last_snapshot_index_ (group_ w) < index) (Hc : commit_index_ (group_ w) <= index)
    (Hi : 0 <= i) (Ht : 0 <= t) :
  exists w', install_apply index term w = Done tt w' /\ commit_index_ (group_ w') = index /\
    up_to_date (group_ w') i t = true.
Proof.
  destruct (install_apply_run index term w Hs Hc) as (w'&E&Hl&Hci&_). exists w'.
  split_and!; [done..|]. unfold up_to_date. rewrite Hl. cbn.
  destruct (decide (t = 0)) as [->|]; [|by rewrite (bool_decide_true (0 < t)) by lia].
  by rewrite (bool_decide_true (0 <= i)) by lia.
Qed.

Definition sample_empty : Node := node_init (sample_group 2 [1; 3] false false).

Lemma compacted_voter_accepts_all_witness :
  exists w', @install_apply (sample_env true true 0) 100 7 sample_empty = Done tt w' /\
    commit_index_ (group_ w') = 100 /\ up_to_date (group_ w') 0 0 = true.
Proof.
  apply (@compacted_voter_accepts_all (sample_env true true 0) 100 7 sample_empty 0 0);
    vm_compute; (reflexivity || discriminate).
Defined.

(** After a snapshot the commit index falls back to zero.  The first request
    whose leader commit is above the snapshot makes a follower with an empty log
    set [commit_index_] to the smaller of the leader's and its last index, which
    is 0; the index that had been committed is forgotten. *)
Theorem commit_index_regresses `{!Env} (index term lc : Z) (w : Node)
    (Hs : last_snapshot_index_ (group_ w) < index) (Hc : commit_index_ (group_ w) <= index)
    (Hi : 0 <= index) (Hlc : index < lc) :
  exists w1 w2, install_apply index term w = Done tt w1 /\ commit_index_ (group_ w1) = index /\
    follow_commit lc w1 = Done tt w2 /\ commit_index_ (group_ w2) = 0.
Proof.
  destruct (install_apply_run index term w Hs Hc) as (w1&E&Hl&Hci&Hq&_).
  eexists w1, _. split_and!; [exact E|exact Hci|apply follow_commit_empty|done].
  - by rewrite Hl.
  - lia.
  - lia.
Qed.

Lemma commit_index_regresses_witness :
  exists w1 w2, @install_apply (sample_env true true 0) 100 7 sample_empty = Done tt w1 /\
    commit_index_ (group_ w1) = 100 /\
    @follow_commit (sample_env true true 0) 101 w1 = Done tt w2 /\ commit_index_ (group_ w2) = 0.
Proof.
  apply (@commit_index_regresses (sample_env true true 0) 100 7 101 sample_empty);
    vm_compute; (reflexivity || discriminate).
Defined.

(** A joint commit can lack a majority of the new configuration.  In a joint
    configuration [IsVoter] also holds for the voters that are leaving, so they
    are counted towards the new majority: here the leader and the node that is
    being removed commit an index that the other member of the new
    configuration does not hold. *)
Theorem joint_commit_without_new_majority :
  can_commit sample_joint 5 = true /\
  holders sample_joint 5 = {[1; 3]} /\
  nodes (cluster_config_ sample_joint) = [1; 2] /\
  QuorumSatisfied (cluster_config_ sample_joint) (holders sample_joint 5) = false.
Proof. split_and!; vm_compute; reflexivity. Qed.

(** A candidate never retries under pre-vote.  With pre-vote enabled, a
    candidate whose election has timed out starts a pre-vote round as a
    candidate; it stays candidate of the same term, and every pre-vote response,
    granted or not and at whatever term, is ignored. *)
Theorem candidate_ignores_pre_votes `{!Env} (w : Node)
    (Hrole : role_ (group_ w) = CANDIDATE) (Hpre : pre_vote_enabled_ (group_ w) = true)
    (Hq : quiesced_ (group_ w) = false)
    (Hsolo : QuorumSatisfied (cluster_config_ (group_ w)) {[server_id_ (group_ w)]} = false) :
  let w' := final (OnElectionTimeoutLocked w) in
  role_ (group_ w') = CANDIDATE /\ current_term_ (group_ w') = current_term_ (group_ w) /\
  forall from resp t, HandlePreVoteResponse from resp t w' = Done tt w'.
Proof.
  cbv zeta.
  assert (role_ (group_ (final (OnElectionTimeoutLocked w))) = CANDIDATE /\
    current_term_ (group_ (final (OnElectionTimeoutLocked w))) = current_term_ (group_ w)) as [Hr Ht].
  { unfold OnElectionTimeoutLocked, IsRunning. rewrite run_bind, run_gets, run_bind, run_getg.
    destruct (negb _); [done|]. rewrite Hrole. rewrite decide_False by done.
    rewrite run_bind, run_getg, Hq. unfold start_election. rewrite run_bind, run_getg, Hpre.
    cbn [negb]. unfold start_pre_vote, ElectionQuorumSatisfiedLocked.
    rewrite run_bind, run_putg, run_bind, run_putg, run_bind, run_putg, run_bind, run_getg.
    rewrite run_bind, run_getg. proj_simp. rewrite Hsolo.
    match goal with |- context [final (?m ?x)] =>
      assert (keeps silent m) as Hs by keeps_solve; specialize (Hs x) end.
    destruct Hs as [(_&Hv&Hr&_) _]. rewrite Hr. split; [exact Hrole|].
    by injection Hv. }
  split_and!; [done..|]. intros from resp t. unfold HandlePreVoteResponse, IsRunning.
  rewrite run_bind, run_gets, run_bind, run_getg. unfold id.
  destruct (negb _); [done|]. destruct (negb _); [done|]. by rewrite decide_True by auto.
Qed.

Definition sample_candidate : Node :=
  node_init ((sample_group 1 [2; 3] true false) <| role_ := CANDIDATE |> <| current_term_ := 4 |>).

Lemma candidate_ignores_pre_votes_witness :
  let w' := final (@OnElectionTimeoutLocked (sample_env true true 0) sample_candidate) in
  @HandlePreVoteResponse (sample_env true true 0) 2 (mkPreVoteResponse 4 true) 5 w' = Done tt w'.
Proof.
  apply (@candidate_ignores_pre_votes (sample_env true true 0) sample_candidate);
    vm_compute; reflexivity.
Defined.

(** A failed chunk ends a snapshot transfer.  When the RPC of a chunk fails,
    the handler marks the transfer as not in progress and arms a retry; the
    retry finds it not in progress and sends nothing. *)
Theorem failed_chunk_is_not_retried `{!Env} (p : NodeId) (w : Node) (st : SnapshotSendState)
    (Hs : snapshot_sends_ (group_ w) !! p = Some st) :
  exists w', snapshot_response_phase2 p false w = Done tt w' /\
    list.last (trace_ w') = Some (SetTimeout 100 (TaRetrySnapshotChunk p)) /\
    OnRetrySnapshotChunk p w' = Done tt w'.
Proof.
  unfold snapshot_response_phase2. rewrite run_bind, run_getg, Hs. unfold set_send.
  rewrite run_bind, run_putg. cbn [negb]. rewrite run_emit. eexists. split; [done|].
  proj_simp. rewrite last_snoc. split; [done|].
  unfold OnRetrySnapshotChunk. rewrite run_bind, run_getg. destruct (bool_decide _); [|done].
  simpl when. eapply SendNext_idle; [proj_simp; apply lookup_insert_eq|done].
Qed.

Definition sample_transfer : Node :=
  node_init ((sample_group 1 [2; 3] false false) <| role_ := LEADER |>
    <| snapshot_sends_ := {[2 := mkSnapshotSendState (Some (string_snapshot 5 1 "state")) 0 5 1 true 5]} |>).

Lemma failed_chunk_is_not_retried_witness :
  exists w', @snapshot_response_phase2 (sample_env true true 0) 2 false sample_transfer = Done tt w' /\
    @OnRetrySnapshotChunk (sample_env true true 0) 2 w' = Done tt w'.
Proof.
  destruct (@failed_chunk_is_not_retried (sample_env true true 0) 2 sample_transfer
    (mkSnapshotSendState (Some (string_snapshot 5 1 "state")) 0 5 1 true 5)
    ltac:(vm_compute; reflexivity)) as (w'&E&_&H).
  exists w'. split; [exact E|exact H].
Defined.

(** A client's first write is not executed.  Sequence numbers of a client
    start at 0, and so does the last sequence number of a session that has just
    been created: the leader takes the request for a duplicate and answers
    success, with an empty result, without proposing anything. *)
Theorem first_request_not_executed `{!Env} (req : ClientRequest) (cb : Z) resp (w : Node)
    (Hrole : role_ (group_ w) = LEADER) (Hwrite : cr_read_only req = false) (Hseq : cr_seq req = 0)
    (Hnew : client_sessions_ (group_ w) !! cr_client_id req = None) :
  exists w', client_request_begin req cb resp w =
      Done (Answered (mkClientResponse true "" "" "" 0 (server_id_ (group_ w))
                   (listen_addr (config_ (group_ w))))) w' /\
    log_ (group_ w') = log_ (group_ w) /\
    pending_proposals_ (group_ w') = pending_proposals_ (group_ w).
Proof.
  unfold client_request_begin. rewrite run_bind.
  destruct (RecordActivity_service w) as ([]&w1&->&Hr&Hs&Hl&Hi&Hc&Hp).
  rewrite run_bind, run_getg. unfold id. rewrite decide_False by (rewrite Hr, Hrole; auto).
  rewrite Hwrite, Hs, Hnew. cbn [default cs_last_seq cs_last_response cs_last_index cs_last_term default_session].
  rewrite run_bind, run_putg, decide_True by (rewrite Hseq; done). rewrite run_ret, Hi, Hc.
  eexists. split; [done|]. by proj_simp.
Qed.

Lemma first_request_not_executed_witness :
  exists w', @client_request_begin (sample_env true true 0) (mkClientRequest "set x 1" 7 0 false) 1
      (inl "") sample_committer =
    Done (Answered (mkClientResponse true "" "" "" 0 1 (listen_addr default_node_config))) w'.
Proof.
  destruct (@first_request_not_executed (sample_env true true 0) (mkClientRequest "set x 1" 7 0 false) 1
    (inl "") sample_committer
    ltac:(reflexivity) ltac:(reflexivity) ltac:(reflexivity) ltac:(vm_compute; reflexivity)) as (w'&E&_).
  exists w'. exact E.
Defined.

(** The term of a response that is not newer is not looked at.  Responses
    that differ only in a term up to the leader's own are handled alike: one
    from an earlier term of the same leader is taken for the answer to the
    oldest batch now in flight, and moves the match index. *)
Theorem response_term_ignored `{!Env} (from : NodeId) (t t' conflict count : Z) (ok : bool) (w : Node)
    (Ht : t <= current_term_ (group_ w)) (Ht' : t' <= current_term_ (group_ w)) :
  HandleAppendEntriesResponse from (mkAppendEntriesResponse t ok conflict count) w =
  HandleAppendEntriesResponse from (mkAppendEntriesResponse t' ok conflict count) w.
Proof.
  unfold HandleAppendEntriesResponse, IsRunning. rewrite !run_bind, !run_gets, !run_bind, !run_getg.
  unfold id. cbn [aer_term aer_success].
  destruct (negb _); [done|]. destruct (decide (role_ _ <> LEADER)); [done|].
  rewrite !(decide_False (P := current_term_ (group_ w) < _)) by lia. done.
Qed.

Lemma response_term_ignored_witness :
  @HandleAppendEntriesResponse (sample_env true true 0) 2 (mkAppendEntriesResponse 1 true 0 1)
    sample_committer =
  @HandleAppendEntriesResponse (sample_env true true 0) 2 (mkAppendEntriesResponse 2 true 0 1)
    sample_committer.
Proof.
  apply (@response_term_ignored (sample_env true true 0) 2 1 2 0 1 true sample_committer);
    vm_compute; discriminate.
Defined.

(** A stale snapshot still rolls the state machine back.  A completed
    transfer restores the state machine before anything is compared: with an
    index that is not newer than the last snapshot the restore goes through,
    while [last_applied_], [commit_index_] and the log stay where they were. *)
Theorem stale_snapshot_restored `{!Env} (path content : string) (index term : Z) (w : Node)
    (Hf : files_ w !! path = Some content) (Hok : env_restore_ok (stream_file content) = true)
    (Hold : index <= last_snapshot_index_ (group_ w)) :
  exists w', install_done path index term w = Done tt w' /\
    trace_ w' = trace_ w ++ [SmRestore (stream_file content)] /\
    last_applied_ (group_ w') = last_applied_ (group_ w) /\
    commit_index_ (group_ w') = commit_index_ (group_ w) /\ log_ (group_ w') = log_ (group_ w).
Proof.
  unfold install_done, RestoreFromSnapshotFile, file_content.
  rewrite run_bind, run_bind, run_bind, run_gets, run_ret, Hf. cbn [default Datatypes.id].
  rewrite run_bind, run_emit, run_ret. rewrite Hok. cbn [negb].
  rewrite run_bind, run_bind, run_getg. proj_simp.
  rewrite bool_decide_false by lia. simpl when. rewrite run_bind, run_ret.
  unfold install_apply. rewrite run_bind, run_bind, run_getg. unfold id. proj_simp.
  rewrite decide_True by lia. rewrite run_ret. unfold remove_file.
  destruct (env_file_ok RemoveFile path); simpl when; rewrite ?run_modify, ?run_ret, run_putg;
    eexists; (split; [done|]); by proj_simp.
Qed.

Definition sample_stale : Node :=
  (node_init ((sample_group 2 [1; 3] false false) <| last_snapshot_index_ := 9 |>))
    <| files_ := {["snap" := "old"]} |>.

Lemma stale_snapshot_restored_witness :
  exists w', @install_done (sample_env true true 0) "snap" 4 1 sample_stale = Done tt w' /\
    trace_ w' = [SmRestore "old"].
Proof.
  destruct (@stale_snapshot_restored (sample_env true true 0) "snap" "old" 4 1 sample_stale
    ltac:(vm_compute; reflexivity) ltac:(reflexivity) ltac:(vm_compute; discriminate)) as (w'&E&Ht&_).
  exists w'. split; [exact E|exact Ht].
Defined.

(** A session remembers a request only once it has succeeded.  When the wait for
    a write times out and the client sends it again, as its retry policy does
    for a timeout, the leader appends the command a second time. *)
Definition retried_write (req : ClientRequest) (w : Node) : option (list string) :=
  let env := sample_env true true 0 in
  match @client_request_begin env req 1 (inl "") w with
  | Done (Proposed (inr index)) w1 =>
      match (r ← propose_waited index None; client_request_end req r) w1 with
      | Done _ w2 =>
          match @client_request_begin env req 2 (inl "") w2 with
          | Done _ w3 => Some (drop (length (entries_ (log_ (group_ w)))) (data_ <$> entries_ (log_ (group_ w3))))
          | _ => None
          end
      | _ => None
      end
  | _ => None
  end.

Theorem retried_write_appended_twice :
  retried_write (mkClientRequest "set x 1" 7 1 false) sample_committer = Some ["set x 1"; "set x 1"].
Proof. by vm_compute. Qed.
