(* ===== verification/Bytes.v ===== *)
(** * Bytes: machine words in memory order, Base64 and CRC32

    The byte-level helpers of [src/wal_persister.cpp]: integers copied in and
    out of buffers with [memcpy] on a little-endian machine, the Base64 coder
    of the old payload format, and the table-driven CRC32. *)

From S2P Require Import Prelude.
From Stdlib Require Strings.Byte.

Abbreviation bytes := (list Byte.byte) (only parsing).

#[global] Instance byte_eq_dec : EqDecision Byte.byte := Byte.byte_eq_dec.

(** A byte as an [unsigned char], and the low byte of an integer. *)
Definition byte_val (b : Byte.byte) : Z := Z.of_N (Byte.to_N b).
Definition byte_of (z : Z) : Byte.byte :=
  default Byte.x00 (Byte.of_N (Z.to_N (z mod 256))).

(** ** Integers in memory order *)

(** [memcpy] of an [n]-byte unsigned integer into a buffer, and back. *)
Fixpoint le (n : nat) (z : Z) : bytes :=
  match n with
  | O => []
  | S n' => byte_of z :: le n' (z / 256)
  end.

Fixpoint le_val (bs : bytes) : Z :=
  match bs with
  | [] => 0
  | b :: bs' => byte_val b + 256 * le_val bs'
  end.

(** ** Base64 *)

Definition kBase64Chars : bytes :=
  String.list_byte_of_string "ABCDEFGHIJKLMNOPQRSTUVWXYZabcdefghijklmnopqrstuvwxyz0123456789+/".

Definition base64_char (v : Z) : Byte.byte := nth (Z.to_nat v) kBase64Chars Byte.x00.

(** [array4]: the four six-bit groups of [array3]. *)
Definition array4_of (a b c : Byte.byte) : list Z :=
  let a := byte_val a in let b := byte_val b in let c := byte_val c in
  [ Z.shiftr (Z.land a 0xfc) 2;
    Z.shiftl (Z.land a 0x03) 4 + Z.shiftr (Z.land b 0xf0) 4;
    Z.shiftl (Z.land b 0x0f) 2 + Z.shiftr (Z.land c 0xc0) 6;
    Z.land c 0x3f ].

(** What follows the loop: the [i] bytes left in [array3] are filled up with
    zeros, [i + 1] characters are kept and padding completes the group. *)
Definition base64_encode_end (array3 : bytes) : bytes :=
  match array3 with
  | [a] => map base64_char (take 2 (array4_of a Byte.x00 Byte.x00)) ++ [Byte.x3d; Byte.x3d]
  | [a; b] => map base64_char (take 3 (array4_of a b Byte.x00)) ++ [Byte.x3d]
  | _ => []
  end.

(** The loop over the input; [array3] holds the bytes of the open group. *)
Fixpoint base64_encode_loop (array3 input : bytes) : bytes :=
  match input with
  | [] => base64_encode_end array3
  | c :: rest =>
      match array3 with
      | [a; b] => map base64_char (array4_of a b c) ++ base64_encode_loop [] rest
      | _ => base64_encode_loop (array3 ++ [c]) rest
      end
  end.

Definition Base64Encode (input : bytes) : bytes := base64_encode_loop [] input.

(** The lambda [lookup] of the decoder; [None] is its [-1]. *)
Definition base64_lookup (ch : Byte.byte) : option Z :=
  let c := byte_val ch in
  if decide (65 <= c <= 90) then Some (c - 65)
  else if decide (97 <= c <= 122) then Some (c - 97 + 26)
  else if decide (48 <= c <= 57) then Some (c - 48 + 52)
  else if decide (c = 43) then Some 62
  else if decide (c = 47) then Some 63
  else None.

(** [array3]: three bytes of four six-bit values, each a [uint8_t]. *)
Definition array3_of (a b c d : Z) : bytes :=
  [ byte_of (Z.shiftl a 2 + Z.shiftr (Z.land b 0x30) 4);
    byte_of (Z.shiftl (Z.land b 0x0f) 4 + Z.shiftr (Z.land c 0x3c) 2);
    byte_of (Z.shiftl (Z.land c 0x03) 6 + d) ].

(** What follows the loop: of [i] values left in [array4], filled up with
    zeros, [i - 1] bytes are kept. *)
Definition base64_decode_end (array4 : list Z) : bytes :=
  match array4 with
  | [a; b] => take 1 (array3_of a b 0 0)
  | [a; b; c] => take 2 (array3_of a b c 0)
  | _ => []
  end.

(** The loop stops at the first padding character and skips characters outside
    the alphabet. *)
Fixpoint base64_decode_loop (array4 : list Z) (encoded : bytes) : bytes :=
  match encoded with
  | [] => base64_decode_end array4
  | ch :: rest =>
      if decide (ch = Byte.x3d) then base64_decode_end array4
      else
        match base64_lookup ch with
        | None => base64_decode_loop array4 rest
        | Some v =>
            match array4 with
            | [a; b; c] => array3_of a b c v ++ base64_decode_loop [] rest
            | _ => base64_decode_loop (array4 ++ [v]) rest
            end
        end
  end.

Definition Base64Decode (encoded : bytes) : bytes := base64_decode_loop [] encoded.

(** ** CRC32 *)

Definition kCRC32Table : list Z :=
  [0x00000000; 0x77073096; 0xee0e612c; 0x990951ba; 0x076dc419; 0x706af48f; 0xe963a535; 0x9e6495a3;
   0x0edb8832; 0x79dcb8a4; 0xe0d5e91e; 0x97d2d988; 0x09b64c2b; 0x7eb17cbd; 0xe7b82d07; 0x90bf1d91;
   0x1db71064; 0x6ab020f2; 0xf3b97148; 0x84be41de; 0x1adad47d; 0x6ddde4eb; 0xf4d4b551; 0x83d385c7;
   0x136c9856; 0x646ba8c0; 0xfd62f97a; 0x8a65c9ec; 0x14015c4f; 0x63066cd9; 0xfa0f3d63; 0x8d080df5;
   0x3b6e20c8; 0x4c69105e; 0xd56041e4; 0xa2677172; 0x3c03e4d1; 0x4b04d447; 0xd20d85fd; 0xa50ab56b;
   0x35b5a8fa; 0x42b2986c; 0xdbbbc9d6; 0xacbcf940; 0x32d86ce3; 0x45df5c75; 0xdcd60dcf; 0xabd13d59;
   0x26d930ac; 0x51de003a; 0xc8d75180; 0xbfd06116; 0x21b4f4b5; 0x56b3c423; 0xcfba9599; 0xb8bda50f;
   0x2802b89e; 0x5f058808; 0xc60cd9b2; 0xb10be924; 0x2f6f7c87; 0x58684c11; 0xc1611dab; 0xb6662d3d;
   0x76dc4190; 0x01db7106; 0x98d220bc; 0xefd5102a; 0x71b18589; 0x06b6b51f; 0x9fbfe4a5; 0xe8b8d433;
   0x7807c9a2; 0x0f00f934; 0x9609a88e; 0xe10e9818; 0x7f6a0dbb; 0x086d3d2d; 0x91646c97; 0xe6635c01;
   0x6b6b51f4; 0x1c6c6162; 0x856530d8; 0xf262004e; 0x6c0695ed; 0x1b01a57b; 0x8208f4c1; 0xf50fc457;
   0x65b0d9c6; 0x12b7e950; 0x8bbeb8ea; 0xfcb9887c; 0x62dd1ddf; 0x15da2d49; 0x8cd37cf3; 0xfbd44c65;
   0x4db26158; 0x3ab551ce; 0xa3bc0074; 0xd4bb30e2; 0x4adfa541; 0x3dd895d7; 0xa4d1c46d; 0xd3d6f4fb;
   0x4369e96a; 0x346ed9fc; 0xad678846; 0xda60b8d0; 0x44042d73; 0x33031de5; 0xaa0a4c5f; 0xdd0d7cc9;
   0x5005713c; 0x270241aa; 0xbe0b1010; 0xc90c2086; 0x5768b525; 0x206f85b3; 0xb966d409; 0xce61e49f;
   0x5edef90e; 0x29d9c998; 0xb0d09822; 0xc7d7a8b4; 0x59b33d17; 0x2eb40d81; 0xb7bd5c3b; 0xc0ba6cad;
   0xedb88320; 0x9abfb3b6; 0x03b6e20c; 0x74b1d29a; 0xead54739; 0x9dd277af; 0x04db2615; 0x73dc1683;
   0xe3630b12; 0x94643b84; 0x0d6d6a3e; 0x7a6a5aa8; 0xe40ecf0b; 0x9309ff9d; 0x0a00ae27; 0x7d079eb1;
   0xf00f9344; 0x8708a3d2; 0x1e01f268; 0x6906c2fe; 0xf762575d; 0x806567cb; 0x196c3671; 0x6e6b06e7;
   0xfed41b76; 0x89d32be0; 0x10da7a5a; 0x67dd4acc; 0xf9b9df6f; 0x8ebeeff9; 0x17b7be43; 0x60b08ed5;
   0xd6d6a3e8; 0xa1d1937e; 0x38d8c2c4; 0x4fdff252; 0xd1bb67f1; 0xa6bc5767; 0x3fb506dd; 0x48b2364b;
   0xd80d2bda; 0xaf0a1b4c; 0x36034af6; 0x41047a60; 0xdf60efc3; 0xa867df55; 0x316e8eef; 0x4669be79;
   0xcb61b38c; 0xbc66831a; 0x256fd2a0; 0x5268e236; 0xcc0c7795; 0xbb0b4703; 0x220216b9; 0x5505262f;
   0xc5ba3bbe; 0xb2bd0b28; 0x2bb45a92; 0x5cb36a04; 0xc2d7ffa7; 0xb5d0cf31; 0x2cd99e8b; 0x5bdeae1d;
   0x9b64c2b0; 0xec63f226; 0x756aa39c; 0x026d930a; 0x9c0906a9; 0xeb0e363f; 0x72076785; 0x05005713;
   0x95bf4a82; 0xe2b87a14; 0x7bb12bae; 0x0cb61b38; 0x92d28e9b; 0xe5d5be0d; 0x7cdcefb7; 0x0bdbdf21;
   0x86d3d2d4; 0xf1d4e242; 0x68ddb3f8; 0x1fda836e; 0x81be16cd; 0xf6b9265b; 0x6fb077e1; 0x18b74777;
   0x88085ae6; 0xff0f6a70; 0x66063bca; 0x11010b5c; 0x8f659eff; 0xf862ae69; 0x616bffd3; 0x166ccf45;
   0xa00ae278; 0xd70dd2ee; 0x4e048354; 0x3903b3c2; 0xa7672661; 0xd06016f7; 0x4969474d; 0x3e6e77db;
   0xaed16a4a; 0xd9d65adc; 0x40df0b66; 0x37d83bf0; 0xa9bcae53; 0xdebb9ec5; 0x47b2cf7f; 0x30b5ffe9;
   0xbdbdf21c; 0xcabac28a; 0x53b39330; 0x24b4a3a6; 0xbad03605; 0xcdd70693; 0x54de5729; 0x23d967bf;
   0xb3667a2e; 0xc4614ab8; 0x5d681b02; 0x2a6f2b94; 0xb40bbe37; 0xc30c8ea1; 0x5a05df1b; 0x2d02ef8d].

Definition crc_step (crc : Z) (c : Byte.byte) : Z :=
  Z.lxor (Z.shiftr crc 8)
    (nth (Z.to_nat (Z.land (Z.lxor crc (byte_val c)) 0xFF)) kCRC32Table 0).

Definition ComputeCRC32 (data : bytes) : Z :=
  Z.lxor (foldl crc_step 0xFFFFFFFF data) 0xFFFFFFFF.

(** ** Facts on bytes and words *)

Lemma byte_val_range b : 0 <= byte_val b < 256.
Proof. unfold byte_val. pose proof (Byte.to_N_bounded b). lia. Qed.

Lemma byte_of_val b : byte_of (byte_val b) = b.
Proof.
  unfold byte_of. rewrite Z.mod_small by apply byte_val_range.
  unfold byte_val. by rewrite N2Z.id, Byte.of_to_N.
Qed.

Lemma byte_val_of z : byte_val (byte_of z) = z mod 256.
Proof.
  unfold byte_of, byte_val. pose proof (Z.mod_pos_bound z 256 ltac:(lia)).
  destruct (Byte.of_N (Z.to_N (z mod 256))) as [b|] eqn:E; simpl.
  - apply Byte.to_of_N in E. rewrite E. lia.
  - apply Byte.of_N_None_iff in E. lia.
Qed.

Lemma byte_val_inj b b' : byte_val b = byte_val b' -> b = b'.
Proof. intros H. rewrite <- (byte_of_val b), <- (byte_of_val b'). congruence. Qed.

Lemma length_le n z : length (le n z) = n.
Proof. revert z. induction n; intros z; simpl; congruence. Qed.

Lemma le_val_le n z : le_val (le n z) = z mod 256 ^ Z.of_nat n.
Proof.
  revert z. induction n as [|n IH]; intros z; simpl; [by rewrite Z.mod_1_r|].
  rewrite IH, byte_val_of, Nat2Z.inj_succ, Z.pow_succ_r by lia.
  rewrite Z.rem_mul_r by (try apply Z.pow_pos_nonneg; lia). done.
Qed.

Lemma le_val_range bs : 0 <= le_val bs < 256 ^ Z.of_nat (length bs).
Proof.
  induction bs as [|b bs IH]; cbn [le_val length]; [simpl; lia|].
  pose proof (byte_val_range b). rewrite Nat2Z.inj_succ, Z.pow_succ_r by lia. lia.
Qed.

Lemma le_of_val bs : le (length bs) (le_val bs) = bs.
Proof.
  induction bs as [|b bs IH]; simpl; [done|]. pose proof (byte_val_range b).
  f_equal.
  - apply byte_val_inj. rewrite byte_val_of.
    rewrite Z.mul_comm, Z_mod_plus_full. by apply Z.mod_small.
  - rewrite Z.mul_comm, Z_div_plus_full, Z.div_small by lia. exact IH.
Qed.

Lemma le32 z : is_u32 z -> le_val (le 4 z) = z.
Proof. intros [??]. rewrite le_val_le. apply Z.mod_small. unfold UINT32_MAX in *. simpl. lia. Qed.

Lemma le64 z : is_u64 z -> le_val (le 8 z) = z.
Proof. intros [??]. rewrite le_val_le. apply Z.mod_small. unfold UINT64_MAX in *. simpl. lia. Qed.

Lemma le16 z : 0 <= z < 65536 -> le_val (le 2 z) = z.
Proof. intros. rewrite le_val_le. apply Z.mod_small. simpl. lia. Qed.

(** ** Base64 decodes what it encoded *)

Lemma base64_char_spec v :
  0 <= v < 64 -> base64_lookup (base64_char v) = Some v /\ base64_char v <> Byte.x3d.
Proof.
  intros Hv.
  assert (forallb (fun v => bool_decide (base64_lookup (base64_char v) = Some v) &&
                            bool_decide (base64_char v <> Byte.x3d)) (seqZ 0 64) = true) as H
    by by vm_compute.
  rewrite forallb_forall in H. specialize (H v).
  rewrite <- list_elem_of_In, elem_of_seqZ, andb_true_iff, !bool_decide_eq_true in H.
  apply H. lia.
Qed.

(** The masks and shifts as division and remainder. *)
Ltac small_pows :=
  change (2 ^ 2) with 4; change (2 ^ 4) with 16; change (2 ^ 6) with 64.

Ltac div_lia := Z.to_euclidean_division_equations; lia.

Lemma land_low a n : 0 <= n -> Z.land a (Z.ones n) = a mod 2 ^ n.
Proof. intros. by rewrite Z.land_ones. Qed.

Lemma array4_arith a b c :
  array4_of a b c =
    [byte_val a / 4; (byte_val a mod 4) * 16 + byte_val b / 16;
     (byte_val b mod 16) * 4 + byte_val c / 64; byte_val c mod 64].
Proof.
  pose proof (byte_val_range a). pose proof (byte_val_range b). pose proof (byte_val_range c).
  unfold array4_of.
  change 0xfc with (Z.shiftl (Z.ones 6) 2). change 0xf0 with (Z.shiftl (Z.ones 4) 4).
  change 0xc0 with (Z.shiftl (Z.ones 2) 6). change 0x03 with (Z.ones 2).
  change 0x0f with (Z.ones 4). change 0x3f with (Z.ones 6).
  rewrite !Z.shiftr_land, !Z.shiftr_shiftl_l, !Z.shiftl_0_r by lia.
  rewrite !land_low, !Z.shiftr_div_pow2, !Z.shiftl_mul_pow2 by lia. small_pows.
  repeat (apply (f_equal2 cons); [div_lia|]). done.
Qed.

Lemma array3_arith a b c d :
  0 <= a < 64 -> 0 <= b < 64 -> 0 <= c < 64 -> 0 <= d < 64 ->
  array3_of a b c d =
    [byte_of (a * 4 + b / 16); byte_of ((b mod 16) * 16 + c / 4); byte_of ((c mod 4) * 64 + d)].
Proof.
  intros. unfold array3_of.
  change 0x30 with (Z.shiftl (Z.ones 2) 4). change 0x3c with (Z.shiftl (Z.ones 4) 2).
  change 0x03 with (Z.ones 2). change 0x0f with (Z.ones 4).
  rewrite !Z.shiftr_land, !Z.shiftr_shiftl_l, !Z.shiftl_0_r by lia.
  rewrite !land_low, !Z.shiftr_div_pow2, !Z.shiftl_mul_pow2 by lia. small_pows.
  repeat (apply (f_equal2 cons); [f_equal; div_lia|]). done.
Qed.

(** A list of computed bytes is the expected one, byte by byte. *)
Ltac decode_bytes :=
  change (byte_val Byte.x00) with 0;
  repeat (apply (f_equal2 cons); [apply byte_val_inj; rewrite byte_val_of; div_lia|]); done.

Lemma array3_array4 a b c :
  match array4_of a b c with
  | [w; x; y; z] => array3_of w x y z = [a; b; c] /\ Forall (fun v => 0 <= v < 64) [w; x; y; z]
  | _ => False
  end.
Proof.
  rewrite array4_arith.
  pose proof (byte_val_range a). pose proof (byte_val_range b). pose proof (byte_val_range c).
  split.
  - rewrite array3_arith by div_lia.
    decode_bytes.
  - repeat constructor; div_lia.
Qed.

(** One character of the alphabet is one step of the decoder. *)
Lemma decode_char acc v rest :
  0 <= v < 64 ->
  base64_decode_loop acc (base64_char v :: rest) =
    match acc with
    | [a; b; c] => array3_of a b c v ++ base64_decode_loop [] rest
    | _ => base64_decode_loop (acc ++ [v]) rest
    end.
Proof.
  intros Hv. destruct (base64_char_spec v Hv) as [Hl Hne]. simpl.
  rewrite decide_False, Hl by done. done.
Qed.

Lemma decode_group a b c rest :
  base64_decode_loop [] (map base64_char (array4_of a b c) ++ rest) =
    [a; b; c] ++ base64_decode_loop [] rest.
Proof.
  pose proof (array3_array4 a b c) as H.
  destruct (array4_of a b c) as [|w [|x [|y [|z [|]]]]]; try done.
  destruct H as [H3 H]. rewrite !list.Forall_cons in H. destruct H as (?&?&?&?&_).
  cbn [map app]. rewrite !decode_char by done. cbn [app]. by rewrite H3.
Qed.

Lemma decode_encode_end acc :
  (length acc <= 2)%nat -> base64_decode_loop [] (base64_encode_end acc) = acc.
Proof.
  intros Hl. destruct acc as [|a [|b [|]]]; simpl in Hl; try lia; [done| |].
  - pose proof (array3_array4 a Byte.x00 Byte.x00) as H. pose proof (byte_val_range a). unfold base64_encode_end.
    rewrite array4_arith in *. destruct H as [H3 H].
    rewrite !list.Forall_cons in H. destruct H as (?&?&_).
    cbn [take map app]. rewrite !decode_char by done. cbn [app base64_decode_loop].
    rewrite decide_True by done. cbn [base64_decode_end].
    rewrite array3_arith by (done || lia). cbn [take]. decode_bytes.
  - pose proof (array3_array4 a b Byte.x00) as H.
    pose proof (byte_val_range a). pose proof (byte_val_range b). unfold base64_encode_end.
    rewrite array4_arith in *. destruct H as [H3 H].
    rewrite !list.Forall_cons in H. destruct H as (?&?&?&_).
    cbn [take map app]. rewrite !decode_char by done. cbn [app base64_decode_loop].
    rewrite decide_True by done. cbn [base64_decode_end].
    rewrite array3_arith by (done || lia). cbn [take]. decode_bytes.
Qed.

Lemma decode_encode_loop input acc :
  (length acc <= 2)%nat ->
  base64_decode_loop [] (base64_encode_loop acc input) = acc ++ input.
Proof.
  revert acc. induction input as [|c input IH]; intros acc Hl; cbn [base64_encode_loop].
  { rewrite decode_encode_end by done. by rewrite app_nil_r. }
  destruct acc as [|a [|b [|]]]; simpl in Hl; try lia.
  - rewrite IH by (simpl; lia). done.
  - rewrite IH by (simpl; lia). done.
  - rewrite decode_group, IH by (simpl; lia). done.
Qed.

Lemma base64_roundtrip input : Base64Decode (Base64Encode input) = input.
Proof. unfold Base64Decode, Base64Encode. by rewrite decode_encode_loop by (simpl; lia). Qed.

(** ** CRC32: the table and the polynomial *)

(** One bit of the reflected CRC-32 division. *)
Definition crc_bit (crc : Z) : Z :=
  if Z.testbit crc 0 then Z.lxor (Z.shiftr crc 1) 0xEDB88320 else Z.shiftr crc 1.

(** The textbook CRC-32: every byte is eight divisions by the polynomial. *)
Definition crc_ref_step (crc : Z) (c : Byte.byte) : Z :=
  Nat.iter 8 crc_bit (Z.lxor crc (byte_val c)).
Definition crc_ref (data : bytes) : Z :=
  Z.lxor (foldl crc_ref_step 0xFFFFFFFF data) 0xFFFFFFFF.

Lemma crc_bit_lxor x y : crc_bit (Z.lxor x y) = Z.lxor (crc_bit x) (crc_bit y).
Proof.
  unfold crc_bit. rewrite Z.lxor_spec, Z.shiftr_lxor.
  destruct (Z.testbit x 0), (Z.testbit y 0); simpl; apply Z.bits_inj'; intros n Hn;
    rewrite ?Z.lxor_spec; by repeat destruct (Z.testbit _ n).
Qed.

Lemma iter_crc_bit_lxor n x y :
  Nat.iter n crc_bit (Z.lxor x y) = Z.lxor (Nat.iter n crc_bit x) (Nat.iter n crc_bit y).
Proof. induction n as [|n IH]; simpl; [done|]. by rewrite IH, crc_bit_lxor. Qed.

(** Low zero bits are shifted out without a division. *)
Lemma crc_bit_shiftl x n : 0 <= n -> crc_bit (Z.shiftl x (Z.succ n)) = Z.shiftl x n.
Proof.
  intros Hn. unfold crc_bit. rewrite Z.shiftl_spec_low by lia.
  rewrite Z.shiftr_shiftl_l by lia. f_equal. lia.
Qed.

Lemma iter_crc_bit_shiftl n x : Nat.iter n crc_bit (Z.shiftl x (Z.of_nat n)) = x.
Proof.
  revert x. induction n as [|n IH]; intros x; [by rewrite Z.shiftl_0_r|].
  rewrite Nat.iter_succ_r, Nat2Z.inj_succ, crc_bit_shiftl by lia. apply IH.
Qed.

Lemma split_low_byte x : Z.lxor (Z.land x 0xFF) (Z.shiftl (Z.shiftr x 8) 8) = x.
Proof.
  apply Z.bits_inj'. intros n Hn. change 0xFF with (Z.ones 8).
  rewrite Z.lxor_spec, Z.land_spec, Z.shiftl_spec by lia.
  destruct (decide (n < 8)).
  - rewrite Z.ones_spec_low, (Z.testbit_neg_r _ (n - 8)) by lia.
    by rewrite andb_true_r, xorb_false_r.
  - rewrite Z.ones_spec_high, Z.shiftr_spec, andb_false_r by lia.
    by replace (n - 8 + 8) with n by lia.
Qed.

(** Each entry of the table is the division of its index. *)
Lemma table_spec i :
  0 <= i < 256 -> nth (Z.to_nat i) kCRC32Table 0 = Nat.iter 8 crc_bit i.
Proof.
  intros Hi.
  assert (forallb (fun i => bool_decide (nth (Z.to_nat i) kCRC32Table 0 = Nat.iter 8 crc_bit i))
            (seqZ 0 256) = true) as H by by vm_compute.
  rewrite forallb_forall in H. specialize (H i).
  rewrite <- list_elem_of_In, elem_of_seqZ, bool_decide_eq_true in H. apply H. lia.
Qed.

Lemma land_byte_range x : 0 <= Z.land x 0xFF < 256.
Proof. change 0xFF with (Z.ones 8). rewrite Z.land_ones by lia. apply Z.mod_pos_bound. lia. Qed.

Lemma crc_step_ref crc c : crc_step crc c = crc_ref_step crc c.
Proof.
  unfold crc_step, crc_ref_step.
  rewrite table_spec by apply land_byte_range.
  rewrite <- (split_low_byte (Z.lxor crc (byte_val c))) at 2.
  rewrite iter_crc_bit_lxor, (iter_crc_bit_shiftl 8), Z.lxor_comm. f_equal.
  rewrite Z.shiftr_lxor. rewrite (Z.shiftr_div_pow2 (byte_val c)) by lia.
  pose proof (byte_val_range c). change (2 ^ 8) with 256.
  by rewrite (Z.div_small (byte_val c)), Z.lxor_0_r by lia.
Qed.

(** ** CRC32 detects a damaged byte *)

Lemma u32_bits x : is_u32 x <-> 0 <= x /\ forall n, 32 <= n -> Z.testbit x n = false.
Proof.
  unfold is_u32, UINT32_MAX. split.
  - intros [Hx Hm]. split; [done|]. apply Z.bounded_iff_bits_nonneg; simpl; lia.
  - intros [Hx Hb]. split; [done|].
    apply (proj2 (Z.bounded_iff_bits_nonneg 32 x ltac:(lia) Hx)) in Hb. lia.
Qed.

Lemma u32_lxor x y : is_u32 x -> is_u32 y -> is_u32 (Z.lxor x y).
Proof.
  rewrite !u32_bits. intros [Hx Bx] [Hy By]. split; [by apply Z.lxor_nonneg|].
  intros n Hn. by rewrite Z.lxor_spec, Bx, By by done.
Qed.

Lemma u32_shiftr x n : 0 <= n -> is_u32 x -> is_u32 (Z.shiftr x n).
Proof.
  rewrite !u32_bits. intros Hn [Hx Bx]. split; [by apply Z.shiftr_nonneg|].
  intros m Hm. rewrite Z.shiftr_spec by lia. apply Bx. lia.
Qed.

Lemma u32_byte c : is_u32 (byte_val c).
Proof. pose proof (byte_val_range c). unfold is_u32, UINT32_MAX. lia. Qed.

Lemma u32_crc_bit x : is_u32 x -> is_u32 (crc_bit x).
Proof.
  intros Hx. unfold crc_bit. destruct (Z.testbit x 0); [apply u32_lxor|];
    try (by apply u32_shiftr). by unfold is_u32, UINT32_MAX.
Qed.

(** The top bit of the quotient tells whether the polynomial was used. *)
Lemma crc_bit_top x : is_u32 x -> Z.testbit (crc_bit x) 31 = Z.testbit x 0.
Proof.
  rewrite u32_bits. intros [_ Bx]. unfold crc_bit.
  destruct (Z.testbit x 0) eqn:E; rewrite ?Z.lxor_spec, Z.shiftr_spec, (Bx (31 + 1)) by lia; done.
Qed.

Lemma crc_bit_inj x y : is_u32 x -> is_u32 y -> crc_bit x = crc_bit y -> x = y.
Proof.
  intros Hx Hy H. assert (E : Z.testbit x 0 = Z.testbit y 0).
  { rewrite <- (crc_bit_top x), <- (crc_bit_top y) by done. by rewrite H. }
  assert (Hs : Z.shiftr x 1 = Z.shiftr y 1).
  { unfold crc_bit in H. rewrite E in H. destruct (Z.testbit y 0); [|done].
    apply (f_equal (fun z => Z.lxor z 0xEDB88320)) in H.
    by rewrite !Z.lxor_assoc, Z.lxor_nilpotent, !Z.lxor_0_r in H. }
  apply Z.bits_inj'. intros n Hn. destruct (decide (n = 0)) as [->|]; [done|].
  replace n with (n - 1 + 1) by lia. rewrite <- !Z.shiftr_spec by lia. by rewrite Hs.
Qed.

Lemma u32_iter n x : is_u32 x -> is_u32 (Nat.iter n crc_bit x).
Proof. intros Hx. induction n; simpl; [done|]. by apply u32_crc_bit. Qed.

Lemma iter_crc_bit_inj n x y :
  is_u32 x -> is_u32 y -> Nat.iter n crc_bit x = Nat.iter n crc_bit y -> x = y.
Proof.
  intros Hx Hy. induction n as [|n IH]; simpl; [done|].
  intros H. apply IH. apply crc_bit_inj in H; [done|by apply u32_iter..].
Qed.

Lemma lxor_cancel x y z : Z.lxor x y = Z.lxor x z -> y = z.
Proof.
  intros H. apply (f_equal (Z.lxor x)) in H.
  by rewrite <- !Z.lxor_assoc, Z.lxor_nilpotent, !Z.lxor_0_l in H.
Qed.

Lemma u32_crc_step crc c : is_u32 crc -> is_u32 (crc_step crc c).
Proof. intros. rewrite crc_step_ref. by apply u32_iter, u32_lxor; [|apply u32_byte]. Qed.

Lemma crc_step_inj x y c : is_u32 x -> is_u32 y -> crc_step x c = crc_step y c -> x = y.
Proof.
  rewrite !crc_step_ref. intros Hx Hy H. pose proof (u32_byte c).
  apply iter_crc_bit_inj in H; [|by apply u32_lxor..].
  rewrite !(Z.lxor_comm _ (byte_val c)) in H. by apply lxor_cancel in H.
Qed.

Lemma crc_step_byte_inj x c c' : is_u32 x -> crc_step x c = crc_step x c' -> c = c'.
Proof.
  rewrite !crc_step_ref. intros Hx H.
  apply iter_crc_bit_inj in H; [|apply u32_lxor; [done|apply u32_byte]..].
  by apply lxor_cancel, byte_val_inj in H.
Qed.

Lemma u32_crc_fold crc data : is_u32 crc -> is_u32 (foldl crc_step crc data).
Proof. revert crc. induction data; intros crc H; simpl; [done|]. by apply IHdata, u32_crc_step. Qed.

Lemma crc_fold_inj x y data :
  is_u32 x -> is_u32 y -> foldl crc_step x data = foldl crc_step y data -> x = y.
Proof.
  revert x y. induction data as [|c data IH]; intros x y Hx Hy H; simpl in H; [done|].
  apply IH in H; [|by apply u32_crc_step..]. by apply crc_step_inj in H.
Qed.

Lemma u32_start : is_u32 0xFFFFFFFF.
Proof. by unfold is_u32, UINT32_MAX. Qed.

Lemma u32_ComputeCRC32 data : is_u32 (ComputeCRC32 data).
Proof. apply u32_lxor; [apply u32_crc_fold|]; apply u32_start. Qed.

Lemma ComputeCRC32_one_byte pre c c' post :
  ComputeCRC32 (pre ++ c :: post) = ComputeCRC32 (pre ++ c' :: post) -> c = c'.
Proof.
  unfold ComputeCRC32. rewrite !foldl_app. simpl.
  rewrite !(Z.lxor_comm _ 0xFFFFFFFF). intros H%lxor_cancel.
  pose proof (u32_crc_fold 0xFFFFFFFF pre u32_start).
  apply crc_fold_inj in H; [|by apply u32_crc_step..]. by apply crc_step_byte_inj in H.
Qed.

Lemma ComputeCRC32_ref data : ComputeCRC32 data = crc_ref data.
Proof.
  unfold ComputeCRC32, crc_ref. f_equal. generalize 0xFFFFFFFF.
  induction data as [|c data IH]; intros z; simpl; [done|]. by rewrite IH, crc_step_ref.
Qed.

(** [ComputeCRC32], which looks bytes up in a table, is the CRC-32 that
    divides bit by bit by the polynomial; its value is of 32 bits; and it tells
    two inputs of one length that differ in a single byte apart. *)
Theorem crc32_is_division data :
  ComputeCRC32 data = crc_ref data /\ is_u32 (ComputeCRC32 data) /\
  forall pre c c' post, ComputeCRC32 (pre ++ c :: post) = ComputeCRC32 (pre ++ c' :: post) <-> c = c'.
Proof.
  split; [apply ComputeCRC32_ref|]. split; [apply u32_ComputeCRC32|].
  intros pre c c' post. split; [apply ComputeCRC32_one_byte|by intros ->].
Qed.

(** Every byte string comes back from Base64. *)
Theorem base64_decodes_encoded input : Base64Decode (Base64Encode input) = input.
Proof. apply base64_roundtrip. Qed.
