(* ===== verification/DenseIndex.v ===== *)
(** * The index of the write-ahead log: [WALPersister::DenseIndex]

    A flat vector of file positions, addressed by the distance of a log index
    from the first one; slots without an entry carry segment id 0.  The
    operations refine a finite map from log indices to positions. *)

From S2P Require Import Prelude.

Record WALIndexEntry := mkWALIndexEntry {
  wi_segment_id : Z;
  wi_file_offset : Z;
  wi_length : Z
}.

#[global] Instance WALIndexEntry_eq_dec : EqDecision WALIndexEntry.
Proof. solve_decision. Defined.

(** [WALIndexEntry{}], the placeholder of a gap. *)
Definition gap : WALIndexEntry := mkWALIndexEntry 0 0 0.

Record DenseIndex := mkDenseIndex {
  di_first : Z;
  di_entries : list WALIndexEntry
}.

Module DenseIndexOps.

Definition Empty (ix : DenseIndex) : bool := bool_decide (di_entries ix = []).
Definition Size (ix : DenseIndex) : Z := Z.of_nat (length (di_entries ix)).
Definition FirstIndex (ix : DenseIndex) : Z := di_first ix.
Definition LastIndex (ix : DenseIndex) : Z :=
  if Empty ix then 0 else u64 (di_first ix + Size ix - 1).

Definition Get (index : Z) (ix : DenseIndex) : option WALIndexEntry :=
  if decide (Empty ix = true \/ index < di_first ix \/ LastIndex ix < index) then None
  else
    e ← di_entries ix !! Z.to_nat (index - di_first ix);
    if decide (wi_segment_id e = 0) then None else Some e.

Definition IndexClear : DenseIndex := mkDenseIndex 0 [].

Definition Put (index : Z) (entry : WALIndexEntry) (ix : DenseIndex) : DenseIndex :=
  if Empty ix then mkDenseIndex index [entry]
  else
    let ix :=
      if decide (index < di_first ix) then
        mkDenseIndex index (replicate (Z.to_nat (di_first ix - index)) gap ++ di_entries ix)
      else ix in
    let last := LastIndex ix in
    let es :=
      if decide (last < index) then
        di_entries ix ++ replicate (Z.to_nat (index - last)) gap
      else di_entries ix in
    mkDenseIndex (di_first ix) (<[Z.to_nat (index - di_first ix) := entry]> es).

Definition IndexTruncatePrefix (before_index : Z) (ix : DenseIndex) : DenseIndex :=
  if decide (Empty ix = true \/ before_index <= di_first ix) then ix
  else if decide (u64 (LastIndex ix + 1) < before_index) then IndexClear
  else
    let remove := before_index - di_first ix in
    if decide (Size ix <= remove) then IndexClear
    else mkDenseIndex (u64 (di_first ix + remove)) (drop (Z.to_nat remove) (di_entries ix)).

Definition IndexTruncateSuffix (from_index : Z) (ix : DenseIndex) : DenseIndex :=
  if decide (Empty ix = true \/ u64 (LastIndex ix + 1) < from_index) then ix
  else if decide (from_index <= di_first ix) then IndexClear
  else
    let keep := Z.to_nat (from_index - di_first ix) in
    mkDenseIndex (di_first ix)
      (take keep (di_entries ix) ++ replicate (keep - length (di_entries ix)) gap).

End DenseIndexOps.
Import DenseIndexOps.

(** ** Lookups *)

(** No index of the vector wraps around. *)
Definition index_wf (ix : DenseIndex) : Prop :=
  0 <= di_first ix /\ di_first ix + Size ix <= UINT64_MAX.

(** The slot of a log index, with gaps removed. *)
Definition slot (es : list WALIndexEntry) (i : Z) : option WALIndexEntry :=
  if decide (i < 0) then None
  else e ← es !! Z.to_nat i; if decide (wi_segment_id e = 0) then None else Some e.

Lemma LastIndex_eq ix :
  index_wf ix -> di_entries ix <> [] -> LastIndex ix = di_first ix + Size ix - 1.
Proof.
  intros [H1 H2] Hne. unfold LastIndex, Empty. rewrite bool_decide_false by done.
  apply u64_small. unfold is_u64, Size in *. destruct (di_entries ix); simpl in *; [done|lia].
Qed.

Lemma Get_slot ix i : index_wf ix -> Get i ix = slot (di_entries ix) (i - di_first ix).
Proof.
  intros W. unfold Get, slot. destruct (decide (di_entries ix = [])) as [E|E].
  { rewrite decide_True by (left; by apply bool_decide_eq_true). rewrite E. by case_decide. }
  rewrite (LastIndex_eq ix W E). unfold Empty. rewrite bool_decide_false by done.
  destruct (decide (i - di_first ix < 0)).
  { by rewrite decide_True by lia. }
  case_decide as H; [|done]. rewrite lookup_ge_None_2; [done|]. unfold Size in H.
  destruct H as [H|H]; [done|lia].
Qed.

Lemma slot_app es es' i :
  slot (es ++ es') i =
    if decide (i < Z.of_nat (length es)) then slot es i else slot es' (i - Z.of_nat (length es)).
Proof.
  unfold slot. repeat case_decide; try lia; try done.
  - by rewrite lookup_app_l by lia.
  - rewrite lookup_app_r by lia. do 2 f_equal. lia.
Qed.

Lemma slot_gaps n i : slot (replicate n gap) i = None.
Proof.
  unfold slot. case_decide; [done|]. destruct (_ !! _) as [e|] eqn:E; [|done].
  apply lookup_replicate in E as [-> _]. done.
Qed.

Lemma slot_past es i : Z.of_nat (length es) <= i -> slot es i = None.
Proof. intros. unfold slot. case_decide; [done|]. by rewrite lookup_ge_None_2 by lia. Qed.

Lemma slot_past_nil i : slot [] i = None.
Proof. unfold slot. by case_decide. Qed.

Lemma slot_neg es i : i < 0 -> slot es i = None.
Proof. intros. unfold slot. by rewrite decide_True. Qed.

Lemma slot_insert es n e i :
  (n < length es)%nat -> wi_segment_id e <> 0 ->
  slot (<[n := e]> es) i = if decide (i = Z.of_nat n) then Some e else slot es i.
Proof.
  intros Hn He. unfold slot. destruct (decide (i = Z.of_nat n)) as [->|Hne].
  - rewrite decide_False, Nat2Z.id, list_lookup_insert_eq by lia. simpl. by rewrite decide_False.
  - case_decide; [done|]. rewrite list_lookup_insert_ne by lia. done.
Qed.

Lemma slot_drop es n i : 0 <= i -> slot (drop n es) i = slot es (i + Z.of_nat n).
Proof.
  intros Hi. unfold slot. rewrite !decide_False, lookup_drop by lia. do 2 f_equal. lia.
Qed.

Lemma slot_take es n i :
  slot (take n es) i = if decide (i < Z.of_nat n) then slot es i else None.
Proof.
  unfold slot. case_decide; [by case_decide|]. case_decide.
  - by rewrite lookup_take_lt by lia.
  - by rewrite lookup_take_ge by lia.
Qed.

(** ** The operations on lookups *)

Lemma Size_length ix : Size ix = Z.of_nat (length (di_entries ix)).
Proof. done. Qed.

Lemma Clear_wf : index_wf IndexClear.
Proof. by unfold index_wf, Size, UINT64_MAX. Qed.

Lemma Get_Clear i : Get i IndexClear = None.
Proof. done. Qed.

Section put.
Context (i : Z) (e : WALIndexEntry) (ix : DenseIndex).
Hypothesis Hi : 0 <= i < UINT64_MAX.
Hypothesis He : wi_segment_id e <> 0.
Hypothesis W : index_wf ix.

(** The vector extended so that [i] has a slot. *)
Lemma Put_slots :
  exists es first, Put i e ix = mkDenseIndex first (<[Z.to_nat (i - first) := e]> es) /\
    0 <= first <= i /\ i < first + Z.of_nat (length es) /\
    first + Z.of_nat (length es) <= Z.max (di_first ix + Size ix) (i + 1) /\
    (forall P : WALIndexEntry -> Prop, P gap -> Forall P (di_entries ix) -> Forall P es) /\
    forall j, slot es (j - first) = slot (di_entries ix) (j - di_first ix).
Proof.
  unfold Put. destruct (decide (di_entries ix = [])) as [E|E].
  { unfold Empty. rewrite bool_decide_true by done. exists [gap], i.
    rewrite Z.sub_diag. simpl. split_and!; try lia; try done.
    - intros P Hg _. by constructor.
    - intros j. rewrite E. unfold slot. repeat case_decide; try done;
        (destruct (Z.to_nat (j - i)) as [|[|n]]; done). }
  unfold Empty. rewrite bool_decide_false by done. destruct W as [W1 W2].
  destruct (decide (i < di_first ix)).
  - set (ix' := mkDenseIndex i _).
    assert (Hs : Size ix' = di_first ix - i + Size ix).
    { unfold Size, ix'. simpl. rewrite length_app, length_replicate. lia. }
    rewrite LastIndex_eq, decide_False; unfold index_wf; rewrite ?Hs; simpl; try lia;
      [|unfold Size in *; destruct (di_entries ix); simpl in *; [done|lia]
       |destruct (replicate _ _); simpl; [done|by destruct (di_entries ix)]].
    exists (di_entries ix'), i. split; [done|].
    change (Z.of_nat (length (di_entries ix'))) with (Size ix'). rewrite Hs.
    split_and!; try lia; [unfold Size; destruct (di_entries ix); simpl in *; [done|lia]| |].
    + intros P Hg HP. apply Forall_app. split; [by apply Forall_replicate|done].
    + intros j. unfold ix'. simpl. rewrite slot_app, length_replicate.
      case_decide; [rewrite slot_gaps, slot_neg by lia; done|]. f_equal. lia.
  - rewrite LastIndex_eq by done.
    eexists _, (di_first ix). split; [done|]. unfold Size in *.
    case_decide.
    + rewrite length_app, length_replicate. split_and!; try lia.
      * intros P Hg HP. apply Forall_app. split; [done|by apply Forall_replicate].
      * intros j. rewrite slot_app. case_decide; [done|]. rewrite slot_gaps, slot_past by lia. done.
    + split_and!; lia || done.
Qed.

Lemma Put_wf : index_wf (Put i e ix).
Proof.
  destruct Put_slots as (es & first & -> & H1 & H2 & H3 & _). destruct W.
  unfold index_wf, Size. simpl. rewrite length_insert. lia.
Qed.

Lemma Get_Put j : Get j (Put i e ix) = if decide (j = i) then Some e else Get j ix.
Proof.
  rewrite Get_slot by apply Put_wf.
  destruct Put_slots as (es & first & -> & H1 & H2 & _ & _ & Hs). simpl.
  rewrite slot_insert, Hs, Get_slot by (done || lia). by repeat case_decide; try lia.
Qed.

Lemma Put_end :
  di_first (Put i e ix) + Size (Put i e ix) <= Z.max (di_first ix + Size ix) (i + 1).
Proof.
  destruct Put_slots as (es & first & -> & H1 & H2 & H3 & _).
  unfold Size at 1. simpl. by rewrite length_insert.
Qed.

Lemma Put_Forall (P : WALIndexEntry -> Prop) :
  P gap -> P e -> Forall P (di_entries ix) -> Forall P (di_entries (Put i e ix)).
Proof.
  intros Hg Hp HP. destruct Put_slots as (es & first & -> & _ & _ & _ & HF & _). simpl.
  apply Forall_insert; auto.
Qed.

End put.

Lemma IndexTruncatePrefix_wf b ix : index_wf ix -> index_wf (IndexTruncatePrefix b ix).
Proof.
  intros [W1 W2]. unfold IndexTruncatePrefix. repeat case_decide; try done; try apply Clear_wf.
  unfold index_wf, Size in *. simpl. rewrite length_drop, u64_small; unfold is_u64; lia.
Qed.

Lemma Get_TruncatePrefix b ix j :
  index_wf ix -> Get j (IndexTruncatePrefix b ix) = if decide (b <= j) then Get j ix else None.
Proof.
  intros W. rewrite !Get_slot by (done || by apply IndexTruncatePrefix_wf).
  unfold IndexTruncatePrefix. destruct (decide (di_entries ix = [])) as [E|E].
  { rewrite decide_True by (left; by apply bool_decide_eq_true). rewrite E.
    rewrite !slot_past_nil. by case_decide. }
  unfold Empty. rewrite (bool_decide_false (di_entries ix = [])) by done.
  rewrite (LastIndex_eq ix W E). destruct W as [W1 W2]. unfold Size in *.
  assert (length (di_entries ix) <> 0%nat) by (by destruct (di_entries ix)).
  destruct (decide (b <= di_first ix)).
  { rewrite decide_True by tauto. case_decide; [done|]. by rewrite slot_neg by lia. }
  rewrite decide_False by (intros [|]; done). rewrite u64_small by (unfold is_u64; lia).
  repeat case_decide; simpl; rewrite ?slot_past_nil; try (rewrite slot_past by lia); try done;
    try lia.
  - rewrite u64_small, slot_drop by (unfold is_u64; lia). f_equal. lia.
  - rewrite u64_small, slot_neg by (unfold is_u64; lia). done.
Qed.

Lemma IndexTruncateSuffix_wf f ix : 0 <= f -> index_wf ix -> index_wf (IndexTruncateSuffix f ix).
Proof.
  intros Hf W. unfold IndexTruncateSuffix. destruct (decide (di_entries ix = [])) as [E|E].
  { by rewrite decide_True by (left; by apply bool_decide_eq_true). }
  case_decide as H; [done|]. case_decide; [apply Clear_wf|].
  rewrite (LastIndex_eq ix W E) in H. destruct W as [W1 W2]. unfold index_wf, Size in *. simpl.
  rewrite length_app, length_take, length_replicate.
  rewrite u64_small in H by (unfold is_u64; lia). lia.
Qed.

Lemma Get_TruncateSuffix f ix j :
  0 <= f -> index_wf ix ->
  Get j (IndexTruncateSuffix f ix) = if decide (j < f) then Get j ix else None.
Proof.
  intros Hf W. rewrite !Get_slot by (done || by apply IndexTruncateSuffix_wf).
  unfold IndexTruncateSuffix. destruct (decide (di_entries ix = [])) as [E|E].
  { rewrite decide_True by (left; by apply bool_decide_eq_true). rewrite E.
    rewrite !slot_past_nil. by case_decide. }
  unfold Empty. rewrite (bool_decide_false (di_entries ix = [])) by done.
  rewrite (LastIndex_eq ix W E). destruct W as [W1 W2]. unfold Size in *.
  rewrite u64_small by (unfold is_u64; lia).
  case_decide as H.
  { case_decide; [done|]. destruct H as [H|H]; [done|]. by rewrite slot_past by lia. }
  case_decide; simpl.
  - rewrite slot_past_nil. case_decide; [by rewrite slot_neg by lia|done].
  - rewrite slot_app, slot_gaps, slot_take, length_take.
    repeat case_decide; done || lia.
Qed.

#[export] Hint Resolve Clear_wf IndexTruncatePrefix_wf IndexTruncateSuffix_wf Put_wf : core.

(** ** Refinement of a finite map *)

(** The three changes of a map from log indices. *)
Inductive MapOp (A : Type) :=
| IPut (index : Z) (entry : A)
| IPrefix (before_index : Z)
| ISuffix (from_index : Z).
Arguments IPut {A} index entry.
Arguments IPrefix {A} before_index.
Arguments ISuffix {A} from_index.

Abbreviation IndexOp := (MapOp WALIndexEntry) (only parsing).

Definition index_op (ix : DenseIndex) (op : IndexOp) : DenseIndex :=
  match op with
  | IPut i e => Put i e ix
  | IPrefix b => IndexTruncatePrefix b ix
  | ISuffix f => IndexTruncateSuffix f ix
  end.

Definition map_op {A} (m : gmap Z A) (op : MapOp A) : gmap Z A :=
  match op with
  | IPut i e => <[i := e]> m
  | IPrefix b => filter (fun p => b <= p.1) m
  | ISuffix f => filter (fun p => p.1 < f) m
  end.

(** Arguments the vector can represent. *)
Definition op_ok (op : IndexOp) : Prop :=
  match op with
  | IPut i e => 0 <= i < UINT64_MAX /\ wi_segment_id e <> 0
  | IPrefix b => 0 <= b
  | ISuffix f => 0 <= f
  end.

Record index_refines (ix : DenseIndex) (m : gmap Z WALIndexEntry) : Prop := {
  ir_wf : index_wf ix;
  ir_get : forall j, Get j ix = m !! j
}.

Lemma lookup_map_op {A} (m : gmap Z A) op j :
  map_op m op !! j =
    match op with
    | IPut i e => if decide (j = i) then Some e else m !! j
    | IPrefix b => if decide (b <= j) then m !! j else None
    | ISuffix f => if decide (j < f) then m !! j else None
    end.
Proof.
  destruct op; simpl; [rewrite lookup_insert; by repeat case_decide; subst| |];
    apply option_eq; intros x; rewrite map_lookup_filter_Some; simpl;
    (case_decide; [tauto|split; [tauto|done]]).
Qed.

Lemma index_op_refines ix m op :
  op_ok op -> index_refines ix m -> index_refines (index_op ix op) (map_op m op).
Proof.
  intros Hok [W H]. split.
  - destruct op; simpl in *; destruct_and?; auto.
  - intros j. rewrite lookup_map_op, <- H. destruct op; simpl in *; destruct_and?.
    + by rewrite Get_Put.
    + by rewrite Get_TruncatePrefix.
    + by rewrite Get_TruncateSuffix.
Qed.

Lemma index_ops_refine ops ix m :
  Forall op_ok ops -> index_refines ix m ->
  index_refines (foldl index_op ix ops) (foldl map_op m ops).
Proof.
  intros Hok. revert ix m. induction Hok as [|op ops H _ IH]; intros ix m Hr; simpl; [done|].
  by apply IH, index_op_refines.
Qed.

Lemma Clear_refines : index_refines IndexClear ∅.
Proof. split; [apply Clear_wf|]. intros j. by rewrite lookup_empty. Qed.

(** ** Replaying operations *)

(** What a sequence of operations does to one log index: nothing, or set its
    final value. *)
Definition op_effect {A} (j : Z) (op : MapOp A) : option (option A) :=
  match op with
  | IPut i e => if decide (j = i) then Some (Some e) else None
  | IPrefix b => if decide (b <= j) then None else Some None
  | ISuffix f => if decide (j < f) then None else Some None
  end.

Fixpoint ops_effect {A} (j : Z) (ops : list (MapOp A)) : option (option A) :=
  match ops with
  | [] => None
  | op :: ops' =>
      match ops_effect j ops' with
      | Some r => Some r
      | None => op_effect j op
      end
  end.

Lemma lookup_map_ops {A} (ops : list (MapOp A)) m j :
  foldl map_op m ops !! j = default (m !! j) (ops_effect j ops).
Proof.
  revert m. induction ops as [|op ops IH]; intros m; simpl; [done|].
  rewrite IH, lookup_map_op. destruct (ops_effect j ops); simpl; [done|].
  destruct op; simpl; by case_decide.
Qed.

Lemma ops_effect_app {A} j (ops ops' : list (MapOp A)) :
  ops_effect j (ops ++ ops') =
    match ops_effect j ops' with Some r => Some r | None => ops_effect j ops end.
Proof. induction ops as [|op ops IH]; simpl; [by destruct (ops_effect j ops')|].
  rewrite IH. by destruct (ops_effect j ops'). Qed.

(** Replaying the operations that led to a state, and then more, is the same
    as going on from the state. *)
Lemma map_ops_replay {A} (p q : list (MapOp A)) m :
  foldl map_op (foldl map_op m p) (p ++ q) = foldl map_op m (p ++ q).
Proof.
  apply map_eq. intros j. rewrite !lookup_map_ops, ops_effect_app.
  by destruct (ops_effect j q), (ops_effect j p).
Qed.

(** ** Sizes *)

(** Log indices of 32 bits and positions of 64 bits. *)
Definition ie_ok (e : WALIndexEntry) : Prop :=
  is_u64 (wi_segment_id e) /\ is_u64 (wi_file_offset e) /\ is_u64 (wi_length e).

Definition op_tidy (op : IndexOp) : Prop :=
  match op with IPut i e => is_u32 i /\ ie_ok e | _ => True end.

Definition index_tidy (ix : DenseIndex) : Prop :=
  di_first ix + Size ix <= 4294967296 /\ Forall ie_ok (di_entries ix).

Lemma gap_ok : ie_ok gap.
Proof. by unfold ie_ok, is_u64, UINT64_MAX. Qed.

Lemma Clear_tidy : index_tidy IndexClear.
Proof. split; [by unfold Size|constructor]. Qed.

Lemma index_op_tidy ix op :
  op_ok op -> op_tidy op -> index_wf ix -> index_tidy ix -> index_tidy (index_op ix op).
Proof.
  intros Hok Ht W [Hs HF]. destruct op as [i e|b|f]; simpl in *.
  - destruct Hok as [Hi He], Ht as [Hu Hp]. split.
    + pose proof (Put_end i e ix Hi W). unfold is_u32, UINT32_MAX in Hu. lia.
    + apply Put_Forall; auto using gap_ok.
  - unfold IndexTruncatePrefix. repeat case_decide; try done; try apply Clear_tidy.
    destruct W as [W1 W2]. split; simpl; [|by apply Forall_drop].
    unfold Size in *. simpl. rewrite length_drop, u64_small; unfold is_u64; lia.
  - unfold IndexTruncateSuffix. destruct (decide (di_entries ix = [])) as [E|E].
    { by rewrite decide_True by (left; by apply bool_decide_eq_true). }
    case_decide as H1; [done|]. case_decide; [apply Clear_tidy|].
    rewrite (LastIndex_eq ix W E) in H1. destruct W as [W1 W2].
    rewrite u64_small in H1 by (unfold is_u64, Size in *; lia).
    split; simpl.
    + unfold Size in *. simpl. rewrite length_app, length_take, length_replicate. lia.
    + apply Forall_app. split; [by apply Forall_take|apply Forall_replicate, gap_ok].
Qed.

(** An index that refines a map and fits its file format. *)
Record index_ok (ix : DenseIndex) (ops : list IndexOp) : Prop := {
  io_refines : index_refines ix (foldl map_op ∅ ops);
  io_tidy : index_tidy ix
}.

Lemma index_ok_nil : index_ok IndexClear [].
Proof. split; [apply Clear_refines|apply Clear_tidy]. Qed.

Lemma index_tidy_ops ops ix m :
  Forall op_ok ops -> Forall op_tidy ops -> index_refines ix m -> index_tidy ix ->
  index_tidy (foldl index_op ix ops).
Proof.
  intros Hok. revert ix m. induction Hok as [|op ops H _ IH]; intros ix m Ht Hr Hti; simpl; [done|].
  apply Forall_cons_1 in Ht as [Ht1 Ht]. apply (IH _ (map_op m op)); [done| |].
  - by apply index_op_refines.
  - apply index_op_tidy; try done. apply Hr.
Qed.

(** Going on from an index. *)
Lemma index_ok_app ix ops ops' :
  Forall op_ok ops' -> Forall op_tidy ops' -> index_ok ix ops ->
  index_ok (foldl index_op ix ops') (ops ++ ops').
Proof.
  intros Hok Ht [Hr Hti]. split.
  - rewrite foldl_app. by apply index_ops_refine.
  - by eapply index_tidy_ops.
Qed.

(** Going on from an index, over operations it has already seen. *)
Lemma index_ok_replay ix base p q :
  Forall op_ok (p ++ q) -> Forall op_tidy (p ++ q) -> index_ok ix (base ++ p) ->
  index_ok (foldl index_op ix (p ++ q)) (base ++ p ++ q).
Proof.
  intros Hok Ht [Hr Hti]. rewrite foldl_app in Hr. split.
  - rewrite (foldl_app map_op base (p ++ q)), <- (map_ops_replay p q). by apply index_ops_refine.
  - by eapply index_tidy_ops.
Qed.

(** The vector with gaps implements a map from log indexes to positions:
    after any sequence of [Put], [IndexTruncatePrefix] and [IndexTruncateSuffix] within 64
    bits, in any order, looking an index up gives the position put there last
    unless a truncation removed it since, and neither end of the vector ever
    passes the largest index. *)
Theorem dense_index_refines_map ops :
  Forall op_ok ops ->
  index_wf (foldl index_op IndexClear ops) /\
  forall j, Get j (foldl index_op IndexClear ops) = foldl map_op ∅ ops !! j.
Proof. intros Hok. by destruct (index_ops_refine ops IndexClear ∅ Hok Clear_refines) as [Hw Hg]. Qed.

Lemma dense_index_refines_map_witness :
  let ops := [IPut 5 (mkWALIndexEntry 1 16 20); IPut 3 (mkWALIndexEntry 1 36 20);
              IPut 9 (mkWALIndexEntry 2 16 20); ISuffix 9; IPrefix 4] in
  index_wf (foldl index_op IndexClear ops) /\
  forall j, Get j (foldl index_op IndexClear ops) = foldl map_op ∅ ops !! j.
Proof. apply dense_index_refines_map. by repeat constructor. Defined.
