(* ===== verification/Disk.v ===== *)
(** * A directory of files and the system calls on it

    The part of POSIX that the write-ahead log uses: named files of bytes,
    [open], [read], [write], [ftruncate], [fdatasync], [rename], [unlink] and
    [readdir], each of which may fail.  A descriptor stands for the file it was
    opened on, and reads and writes carry their position. *)

From S2P Require Import Prelude Bytes.

(** What a file holds, and what of it a crash of the machine leaves: the
    contents at the last [fdatasync]. *)
Record File := mkFile {
  f_data : bytes;
  f_synced : option bytes
}.
#[global] Instance File_eta : Eta File := fun r => mkFile (f_data r) (f_synced r).

(** The outcome of one system call.  [FShort n] is a [write] that took [n]
    bytes, [FIntr] an interruption by a signal. *)
Inductive Fault :=
| FOk
| FErr
| FIntr
| FShort (n : nat).

#[global] Instance Fault_eq_dec : EqDecision Fault.
Proof. solve_decision. Defined.

(** The path of a directory: nothing, a directory or something else. *)
Inductive PathKind := Absent | IsDir | NotDir.

Record Disk := mkDisk {
  d_kind : PathKind;
  d_files : gmap string File;
  (** the outcomes of the system calls to come; every call after the last one
      succeeds *)
  d_tape : list Fault
}.
#[global] Instance Disk_eta : Eta Disk := fun r => mkDisk (d_kind r) (d_files r) (d_tape r).

(** ** State passing *)

Definition State (S A : Type) : Type := S -> A * S.

#[global] Instance State_ret S : MRet (State S) := fun A a s => (a, s).
#[global] Instance State_bind S : MBind (State S) := fun A B k m s =>
  let '(a, s') := m s in k a s'.

Section state.
Context {S : Type}.
Definition reads {A} (f : S -> A) : State S A := fun s => (f s, s).
Definition updates (f : S -> S) : State S unit := fun s => (tt, f s).
Definition whenS (b : bool) (m : State S unit) : State S unit := if b then m else mret tt.
Fixpoint forS {A} (l : list A) (f : A -> State S unit) : State S unit :=
  match l with
  | [] => mret tt
  | x :: l' => f x ;; forS l' f
  end.
End state.

Lemma st_bind {S A B} (m : State S A) (k : A -> State S B) s :
  (m ≫= k) s = k (m s).1 (m s).2.
Proof. unfold mbind, State_bind. by destruct (m s). Qed.

Lemma st_ret {S A} (a : A) (s : S) : (mret a : State S A) s = (a, s).
Proof. done. Qed.

Lemma st_reads {S A} (f : S -> A) s : reads f s = (f s, s).
Proof. done. Qed.

Lemma st_updates {S} (f : S -> S) s : updates f s = (tt, f s).
Proof. done. Qed.

Create Rewrite HintDb st.
#[export] Hint Rewrite @st_bind @st_ret @st_reads @st_updates : st.
Ltac st := repeat (progress (autorewrite with st; cbn [fst snd])).
Ltac st_in H := repeat (progress (autorewrite with st in H; cbn [fst snd] in H)).

(** ** System calls *)

(** A state with a disk in it. *)
Class HasDisk (S : Type) := {
  disk_of : S -> Disk;
  with_disk : (Disk -> Disk) -> S -> S
}.

Section calls.
Context {S : Type} `{!HasDisk S}.
Notation io := (State S).

Definition sys : io Fault := fun s =>
  match d_tape (disk_of s) with
  | [] => (FOk, s)
  | f :: t => (f, with_disk (fun d => d <| d_tape := t |>) s)
  end.

(** A call that either works or fails. *)
Definition sys_ok : io bool := f ← sys; mret (bool_decide (f = FOk)).

Definition exists_file (name : string) : io bool :=
  reads (fun s => bool_decide (is_Some (d_files (disk_of s) !! name))).

Definition contents (name : string) (s : S) : bytes :=
  default [] (f_data <$> d_files (disk_of s) !! name).

Definition put_contents (name : string) (bs : bytes) : io unit :=
  updates (with_disk (fun d => d <| d_files ::= partial_alter
    (fun f => Some (mkFile bs (f ≫= f_synced))) name |>)).

(** [open] of an existing file. *)
Definition open_file (name : string) : io bool :=
  ok ← sys_ok;
  ex ← exists_file name;
  mret (ok && ex).

(** [open] with [O_CREAT | O_TRUNC]. *)
Definition create_file (name : string) : io bool :=
  ok ← sys_ok;
  whenS ok (put_contents name []) ;;
  mret ok.

(** [read] of [n] bytes at [off]; a short read is a failure of the caller's
    comparison. *)
Definition read_at (name : string) (off : Z) (n : nat) : io (option bytes) :=
  ok ← sys_ok;
  bs ← reads (contents name);
  mret (if ok && bool_decide (off + Z.of_nat n <= Z.of_nat (length bs))
        then Some (take n (drop (Z.to_nat off) bs)) else None).

(** The contents after writing [data] at [off]; a hole reads as zeros. *)
Definition overwrite (bs : bytes) (off : nat) (data : bytes) : bytes :=
  take off bs ++ replicate (off - length bs) Byte.x00 ++ data ++ drop (off + length data) bs.

Definition write_at (name : string) (off : Z) (data : bytes) : io unit :=
  bs ← reads (contents name);
  put_contents name (overwrite bs (Z.to_nat off) data).

(** One [write] whose result is compared with the size of [data]. *)
Definition write_once (name : string) (off : Z) (data : bytes) : io bool :=
  f ← sys;
  match f with
  | FOk => write_at name off data ;; mret true
  | FShort n => write_at name off (take n data) ;; mret (bool_decide (length data <= n)%nat)
  | FErr | FIntr => mret false
  end.

(** The loop that writes until nothing remains: interrupted calls are
    repeated, a short write goes on behind the bytes taken.  Every round but
    the last uses up an outcome of [tape]. *)
Fixpoint write_all (tape : list Fault) (name : string) (off : Z) (data : bytes) : io bool :=
  match data, tape with
  | [], _ => mret true
  | _, [] => write_at name off data ;; mret true
  | _, f :: tape' =>
      updates (with_disk (fun d => d <| d_tape := tape' |>)) ;;
      match f with
      | FOk => write_at name off data ;; mret true
      | FIntr => write_all tape' name off data
      | FErr => mret false
      | FShort n =>
          write_at name off (take n data) ;;
          write_all tape' name (off + Z.of_nat n) (drop n data)
      end
  end.

Definition write_loop (name : string) (off : Z) (data : bytes) : io bool :=
  tape ← reads (fun s => d_tape (disk_of s));
  write_all tape name off data.

(** [fdatasync] makes the contents survive a crash. *)
Definition fdatasync (name : string) : io bool :=
  ok ← sys_ok;
  whenS ok (updates (with_disk (fun d => d <| d_files ::=
    alter (fun f => f <| f_synced := Some (f_data f) |>) name |>))) ;;
  mret ok.

Definition ftruncate (name : string) (len : Z) : io bool :=
  ok ← sys_ok;
  bs ← reads (contents name);
  whenS ok (put_contents name
    (take (Z.to_nat len) bs ++ replicate (Z.to_nat len - length bs) Byte.x00)) ;;
  mret ok.

Definition unlink (name : string) : io unit :=
  ok ← sys_ok;
  whenS ok (updates (with_disk (fun d => d <| d_files ::= delete name |>))).

Definition rename (old new : string) : io bool :=
  ok ← sys_ok;
  fs ← reads (fun s => d_files (disk_of s));
  match fs !! old with
  | Some f =>
      whenS ok (updates (with_disk (fun d => d <| d_files ::=
        fun m => <[new := f]> (delete old m) |>))) ;;
      mret ok
  | None => mret false
  end.

(** The names of a directory; [None] when it cannot be opened. *)
Definition list_dir : io (option (list string)) :=
  ok ← sys_ok;
  names ← reads (fun s => elements (dom (d_files (disk_of s))));
  mret (if ok : bool then Some names else None).

End calls.
