(* ===== verification/Wal.v ===== *)
(** * The write-ahead log: [src/wal_persister.cpp], [wal_persister.h]

    Segmented log files of checked records with a trailer that holds the end
    of the data, an in-memory index, checkpoints of the index, recovery and
    garbage collection.  Protocol buffers and the JSON library are the
    parameter [WalLib]; the disk is [Disk.v]. *)

From Stdlib Require Import Ascii.
From stdpp Require Import sorting.
From S2P Require Import Prelude Types Bytes DenseIndex Disk RaftLog Quorum RaftGroup Timers Replicate Membership.
Import DenseIndexOps.

Definition Corruption (msg : string) : Status := mkStatus kCorruption msg "".

(** ** Libraries *)

(** [RaftLogEntryProto] of [proto/raft_log_entry.proto]. *)
Record RaftLogEntryProto := mkProto {
  pb_index : Z;
  pb_term : Z;
  pb_data : string;
  pb_command : string;
  pb_checksum : Z
}.

(** The object [ParseJsonPayload] reads, before Base64 decoding. *)
Record JsonLogEntry := mkJsonLogEntry {
  je_index : Z;
  je_term : Z;
  je_data : bytes;
  je_command : bytes;
  je_checksum : Z
}.

Class WalLib := mkWalLib {
  (** [SerializeToString], [None] when it returns false, and [ParseFromString] *)
  pb_serialize : RaftLogEntryProto -> option bytes;
  pb_parse : bytes -> option RaftLogEntryProto;
  (** [dump] of an object with one integer member *)
  json_dump_u64 : string -> Z -> bytes;
  (** [json::parse(payload)[key].get<uint64_t>()]; [inl] is an exception's text *)
  json_get_u64 : bytes -> string -> string + Z;
  json_log_entry : bytes -> string + JsonLogEntry;
  (** [dump(2)] of the meta object, and the exception of parsing a meta file *)
  json_dump_meta : Z -> Z -> Z -> bytes;
  json_meta_error : bytes -> option string
}.

(** ** Constants *)

Definition kMagic : Z := 0x57414C30.
Definition kVersion : Z := 1.
Definition kHeaderSize : Z := 16.
Definition kTrailerSize : Z := 8.
Definition kMaxRecordSize : Z := 16 * 1024 * 1024.
Definition kFormatVersionJson : Z := 1.
Definition kFormatVersionProtobuf : Z := 2.
Definition kMaxSegmentEntries : Z := 10000.
Definition kMaxSegmentSize : Z := 64 * 1024 * 1024.
Definition kWriteBufferSize : Z := 1024 * 1024.
Definition kCheckpointSegmentInterval : Z := 5.
Definition kCheckpointEntryInterval : Z := 50000.
Definition kCheckpointMagic : Z := 0x57494458.
Definition kCheckpointVersion : Z := 1.
Definition kCheckpointHeaderSize : Z := 40.
Definition kCheckpointIndexEntrySize : Z := 24.
Definition kCheckpointFooterSize : Z := 4.
Definition kCheckpointPrefix : string := "checkpoint.".
Definition kCheckpointSuffix : string := ".idx".
Definition kCheckpointTempSuffix : string := ".tmp".

(** The record types; a record read from disk may carry another value. *)
Definition kLogEntry : Z := 1.
Definition kTruncatePrefix : Z := 3.
Definition kTruncateSuffix : Z := 4.

Record WALRecord := mkWALRecord {
  wr_type : Z;
  wr_payload : bytes
}.

(** ** State *)

Record Segment := mkSegment {
  sg_id : Z;
  (** whether [fd] is a descriptor *)
  sg_open : bool;
  sg_end_offset : Z;
  sg_entry_count : Z;
  sg_format_version : Z
}.
#[global] Instance Segment_eta : Eta Segment := fun r =>
  mkSegment (sg_id r) (sg_open r) (sg_end_offset r) (sg_entry_count r) (sg_format_version r).

Definition Segment_new : Segment := mkSegment 0 false 0 0 kFormatVersionProtobuf.

Record Wal := mkWal {
  wal_disk : Disk;
  wal_dir_ : string;
  active_segment_ : Segment;
  wal_index_ : DenseIndex;
  segment_format_versions_ : gmap Z Z;
  (** [cached_segment_id_] when [cached_fd_] is a descriptor *)
  cached_segment_ : option Z;
  write_buf_ : bytes
}.
#[global] Instance Wal_eta : Eta Wal := fun r =>
  mkWal (wal_disk r) (wal_dir_ r) (active_segment_ r) (wal_index_ r)
    (segment_format_versions_ r) (cached_segment_ r) (write_buf_ r).

#[global] Instance Wal_disk : HasDisk Wal := {|
  disk_of := wal_disk;
  with_disk f w := w <| wal_disk ::= f |>
|}.

(** A new persister on a disk. *)
Definition Wal_new (d : Disk) : Wal := mkWal d "" Segment_new IndexClear ∅ None [].

Notation W := (State Wal).

(** [auto status = m; if (!status.ok()) return status; k] *)
Definition ensure (m k : W Status) : W Status :=
  status ← m;
  if status_ok status then k else mret status.
Notation "m ;? k" := (ensure m k) (at level 100, k at level 200, right associativity).

Definition setw {T} (f : Wal -> T) `{!Setter f} (g : T -> T) : W unit :=
  updates (fun w => w <| f ::= g |>).

(** ** File names *)

Definition segment_name (id : Z) : string := pretty id +:+ ".wal".
Definition segment_path (dir : string) (id : Z) : string := dir +:+ "/" +:+ segment_name id.
Definition meta_name : string := "meta.json".

(** [std::stoull]: a sign is accepted, a negative number wraps around. *)
Definition stoull (s : string) : option Z :=
  let in_range v := if decide (v <= UINT64_MAX) then Some v else None in
  match skip_space s with
  | String "-"%char s' => v ← read_digits 0 false s'; u64 ∘ Z.opp <$> in_range v
  | String "+"%char s' => v ← read_digits 0 false s'; in_range v
  | s' => v ← read_digits 0 false s'; in_range v
  end.

(** [name.substr(name.size() - suffix.size()) == suffix] for a longer name. *)
Definition ends_with (suffix name : string) : bool :=
  bool_decide (substr_from (String.length name - String.length suffix) name = suffix).

Definition segment_of_name (name : string) : option Z :=
  if bool_decide (4 < String.length name)%nat && ends_with ".wal" name
  then stoull (String.substring 0 (String.length name - 4) name) else None.

Definition is_checkpoint_name (name : string) : bool :=
  bool_decide (String.length kCheckpointPrefix + String.length kCheckpointSuffix
               < String.length name)%nat &&
  String.prefix kCheckpointPrefix name && ends_with kCheckpointSuffix name.

Definition checkpoint_name (segment_id : Z) : string :=
  kCheckpointPrefix +:+ pretty segment_id +:+ kCheckpointSuffix.

(** The number between prefix and suffix. *)
Definition checkpoint_of_name (name : string) : option Z :=
  let start := String.length kCheckpointPrefix in
  stoull (String.substring start
    (String.length name - String.length kCheckpointSuffix - start) name).

(** [CheckpointPathFor], [ListCheckpointFilesLocked] *)
Definition ListCheckpointFilesLocked : W (list string) :=
  names ← list_dir;
  mret (filter (fun n => is_checkpoint_name n = true) (default [] names)).

(** The loop over [readdir] that collects the segment ids of the directory. *)
Definition list_segments : W (list Z) :=
  names ← list_dir;
  mret (omap segment_of_name (default [] names)).

(** [std::sort] *)
Definition sort_ids (ids : list Z) : list Z := merge_sort Z.le ids.

(** ** Segments *)

Section wal.
Context `{!WalLib}.

(** [OpenSegment]: the header is validated and the format version recorded.
    The result tells whether the descriptor is left open. *)
Definition OpenSegment (segment_id : Z) : W Status :=
  dir ← reads wal_dir_;
  let name := segment_name segment_id in
  let path := segment_path dir segment_id in
  ok ← open_file name;
  if negb ok then mret (Error1 ("Failed to open segment: " +:+ path))
  else
    header ← read_at name 0 16;
    match header with
    | None => mret (Error1 ("Failed to read segment header: " +:+ path))
    | Some h =>
        let magic := le_val (take 4 h) in
        let version := le_val (take 2 (drop 4 h)) in
        let format_version := le_val (take 2 (drop 6 h)) in
        let stored_segment_id := le_val (take 8 (drop 8 h)) in
        if decide (magic <> kMagic) then
          mret (Corruption ("Invalid magic in segment: " +:+ path))
        else if decide (version <> kVersion) then
          mret (Corruption ("Unsupported version in segment: " +:+ path))
        else if decide (stored_segment_id <> segment_id) then
          mret (Corruption ("Segment id mismatch: " +:+ path))
        else
          setw segment_format_versions_
            <[segment_id := if decide (format_version = 0) then kFormatVersionJson
                            else format_version]> ;;
          mret StOK
    end.

Definition segment_header (segment_id format_version : Z) : bytes :=
  le 4 kMagic ++ le 2 kVersion ++ le 2 format_version ++ le 8 segment_id.

Definition WriteSegmentHeader (name : string) (segment_id format_version : Z) : W Status :=
  ok ← write_once name 0 (segment_header segment_id format_version);
  mret (if ok : bool then StOK else Error1 "Failed to write segment header").

Definition WriteTrailer (name : string) (at_offset end_offset : Z) : W Status :=
  ok ← write_once name at_offset (le 8 end_offset);
  mret (if ok : bool then StOK else Error1 "Failed to write trailer").

(** [ReadTrailer]: the last eight bytes of the file. *)
Definition ReadTrailer (segment_id : Z) : W (Status + Z) :=
  let name := segment_name segment_id in
  size ← reads (fun w => Z.of_nat (length (contents name w)));
  if decide (size < kHeaderSize + kTrailerSize) then
    mret (inl (Corruption "Segment too small for trailer"))
  else
    t ← read_at name (size - kTrailerSize) 8;
    match t with
    | None => mret (inl (Error1 "Failed to read trailer"))
    | Some t =>
        if decide (size - kTrailerSize < le_val t) then
          mret (inl (Corruption "Invalid trailer end_offset"))
        else mret (inr (le_val t))
    end.

(** [SaveMeta] replaces the meta file; failures of the stream after the open
    go unnoticed. *)
Definition SaveMeta : W Status :=
  id ← reads (fun w => sg_id (active_segment_ w));
  ix ← reads wal_index_;
  ok ← create_file meta_name;
  if negb ok then mret (Error1 "Failed to create meta file")
  else
    write_once meta_name 0 (json_dump_meta id (FirstIndex ix) (LastIndex ix)) ;;
    mret StOK.

Definition LoadMeta : W Status :=
  ok ← open_file meta_name;
  if negb ok then mret (Error1 "Failed to open meta file")
  else
    bs ← reads (contents meta_name);
    mret (match json_meta_error bs with
          | Some what => Corruption ("Failed to parse meta file: " +:+ what)
          | None => StOK
          end).

Definition CreateSegment (segment_id : Z) : W Status :=
  dir ← reads wal_dir_;
  let name := segment_name segment_id in
  ok ← create_file name;
  if negb ok then mret (Error1 ("Failed to create segment: " +:+ segment_path dir segment_id))
  else
    status ← WriteSegmentHeader name segment_id kFormatVersionProtobuf;
    if negb (status_ok status) then unlink name ;; mret status
    else
      setw active_segment_ (fun _ =>
        mkSegment segment_id true kHeaderSize 0 kFormatVersionProtobuf) ;;
      setw segment_format_versions_ <[segment_id := kFormatVersionProtobuf]> ;;
      SaveMeta.

(** ** Writing *)

(** [FlushWriteBufferLocked]: the buffer goes to the end of the data, over the
    old trailer, and a new trailer behind it. *)
Definition FlushWriteBufferLocked : W Status :=
  w ← reads id;
  let seg := active_segment_ w in
  let name := segment_name (sg_id seg) in
  if decide (write_buf_ w = []) then mret StOK
  else if negb (sg_open seg) then mret (Error1 "No active segment")
  else
    ok ← write_loop name (sg_end_offset seg) (write_buf_ w);
    if negb ok then mret (Error1 "Failed to write WAL buffer")
    else
      let end_offset := sg_end_offset seg + Z.of_nat (length (write_buf_ w)) in
      setw active_segment_ (fun s => s <| sg_end_offset := end_offset |>) ;;
      setw write_buf_ (fun _ => []) ;;
      WriteTrailer name end_offset end_offset.

Definition EnsureBufferFlushedForReadLocked : W Status := FlushWriteBufferLocked.

Definition RotateSegmentIfNeeded : W Status :=
  w ← reads id;
  let seg := active_segment_ w in
  if decide (kMaxSegmentEntries <= sg_entry_count seg \/
             kMaxSegmentSize <= sg_end_offset seg + Z.of_nat (length (write_buf_ w))) then
    FlushWriteBufferLocked ;?
    (setw active_segment_ (fun s => s <| sg_open := false |>) ;;
     CreateSegment (u64 (sg_id seg + 1)))
  else mret StOK.

(** A record: checksum, length, type and payload. *)
Definition crc_data (type : Z) (payload : bytes) : bytes :=
  le 4 (u32 (Z.of_nat (length payload))) ++ le 2 type ++ payload.

Definition encode_record (r : WALRecord) : bytes :=
  le 4 (ComputeCRC32 (crc_data (wr_type r) (wr_payload r))) ++
  crc_data (wr_type r) (wr_payload r).

(** [AppendRecordToBufferLocked]: the position and length of the record are
    the output arguments. *)
Definition AppendRecordToBufferLocked (type : Z) (payload : bytes) : W (Status * (Z * Z)) :=
  if decide (kMaxRecordSize < Z.of_nat (length payload)) then
    mret (Error1 "Payload too large", (0, 0))
  else
    w ← reads id;
    let out_offset := sg_end_offset (active_segment_ w) + Z.of_nat (length (write_buf_ w)) in
    let record := encode_record (mkWALRecord type payload) in
    let out := (out_offset, Z.of_nat (length record)) in
    setw write_buf_ (fun buf => buf ++ record) ;;
    buf ← reads write_buf_;
    if decide (kWriteBufferSize <= Z.of_nat (length buf)) then
      status ← FlushWriteBufferLocked;
      mret (status, out)
    else mret (StOK, out).

Definition proto_of (e : RaftLogEntry) : RaftLogEntryProto :=
  mkProto (index_ e) (term_ e) (data_ e) (command_ e) (checksum_ e).

(** The member function of the write-ahead log; the in-memory log has one of
    the same name. *)
Definition WalAppendLogEntry (entry : RaftLogEntry) : W Status :=
  match pb_serialize (proto_of entry) with
  | None => mret (Error1 "Failed to serialize log entry to protobuf")
  | Some payload =>
      RotateSegmentIfNeeded ;?
      (r ← AppendRecordToBufferLocked kLogEntry payload;
       let '(status, (offset, record_len)) := r in
       if negb (status_ok status) then mret status
       else
         id ← reads (fun w => sg_id (active_segment_ w));
         setw wal_index_ (Put (index_ entry) (mkWALIndexEntry id offset record_len)) ;;
         setw active_segment_ (fun s => s <| sg_entry_count ::= Z.add 1 |>) ;;
         mret StOK)
  end.

Definition AppendTruncatePrefix (before_index : Z) : W Status :=
  RotateSegmentIfNeeded ;?
  (r ← AppendRecordToBufferLocked kTruncatePrefix (json_dump_u64 "before_index" before_index);
   if negb (status_ok r.1) then mret r.1
   else setw wal_index_ (IndexTruncatePrefix before_index) ;; mret StOK).

Definition AppendTruncateSuffix (from_index : Z) : W Status :=
  RotateSegmentIfNeeded ;?
  (r ← AppendRecordToBufferLocked kTruncateSuffix (json_dump_u64 "from_index" from_index);
   if negb (status_ok r.1) then mret r.1
   else setw wal_index_ (IndexTruncateSuffix from_index) ;; mret StOK).

Definition SyncActiveSegmentLocked : W Status :=
  FlushWriteBufferLocked ;?
  (seg ← reads active_segment_;
   if negb (sg_open seg) then mret (Error1 "No active segment")
   else
     ok ← fdatasync (segment_name (sg_id seg));
     mret (if ok : bool then StOK else Error1 "fdatasync failed")).

(** ** Checkpoints *)

Definition encode_index_entry (e : WALIndexEntry) : bytes :=
  le 8 (wi_segment_id e) ++ le 8 (wi_file_offset e) ++ le 8 (wi_length e).

(** Header and body of a checkpoint, without the checksum. *)
Definition checkpoint_body (ix : DenseIndex) (last_covered_segment_id : Z) : bytes :=
  (le 4 kCheckpointMagic ++ le 2 kCheckpointVersion ++ le 2 0 ++
   le 8 (FirstIndex ix) ++ le 8 (LastIndex ix) ++ le 8 (Size ix) ++
   le 8 last_covered_segment_id) ++
  concat (map encode_index_entry (di_entries ix)).

(** The failed paths remove the temporary file. *)
Definition SaveCheckpointLocked : W Status :=
  w ← reads id;
  let ix := wal_index_ w in
  let last_covered_segment_id := sg_id (active_segment_ w) in
  let name := checkpoint_name last_covered_segment_id in
  let temp := name +:+ kCheckpointTempSuffix in
  if Empty ix then mret StOK
  else
    ok ← create_file temp;
    if negb ok then mret (Error1 "Failed to create checkpoint temp file")
    else
      let body := checkpoint_body ix last_covered_segment_id in
      ok ← write_loop temp 0 (body ++ le 4 (ComputeCRC32 body));
      if negb ok then unlink temp ;; mret (Error1 "Failed to write checkpoint")
      else
        ok ← fdatasync temp;
        if negb ok then unlink temp ;; mret (Error1 "Failed to fdatasync checkpoint")
        else
          ok ← rename temp name;
          if negb ok then unlink temp ;; mret (Error1 "Failed to rename checkpoint")
          else mret StOK.

(** The largest id of a checkpoint whose segment file exists, with its file;
    an earlier file wins a tie. *)
Fixpoint best_checkpoint (files : list string) (best : option (string * Z))
  : W (option (string * Z)) :=
  match files with
  | [] => mret best
  | name :: rest =>
      match checkpoint_of_name name with
      | None => best_checkpoint rest best
      | Some seg_id =>
          ex ← exists_file (segment_name seg_id);
          if bool_decide (default 0 (snd <$> best) < seg_id) && ex
          then best_checkpoint rest (Some (name, seg_id))
          else best_checkpoint rest best
      end
  end.

Definition decode_index_entry (b : bytes) : WALIndexEntry :=
  mkWALIndexEntry (le_val (take 8 b)) (le_val (take 8 (drop 8 b))) (le_val (take 8 (drop 16 b))).

(** The loop that fills the index: [entry_count] entries from [i] on. *)
Fixpoint load_entries (n : nat) (first_index i : Z) (body : bytes) (ix : DenseIndex)
  : DenseIndex :=
  match n with
  | O => ix
  | S n' =>
      load_entries n' first_index (i + 1) (drop 24 body)
        (Put (u64 (first_index + i)) (decode_index_entry body) ix)
  end.

(** The checks on the bytes of a checkpoint, the index in it and the segment
    it covers. *)
Definition parse_checkpoint (buf : bytes) : Status + (DenseIndex * Z) :=
  let file_size := Z.of_nat (length buf) in
  let magic := le_val (take 4 buf) in
  let version := le_val (take 2 (drop 4 buf)) in
  let first_index := le_val (take 8 (drop 8 buf)) in
  let entry_count := le_val (take 8 (drop 24 buf)) in
  let last_covered_segment_id := le_val (take 8 (drop 32 buf)) in
  if decide (magic <> kCheckpointMagic) then inl (Corruption "Invalid checkpoint magic")
  else if decide (version <> kCheckpointVersion) then
    inl (Corruption "Unsupported checkpoint version")
  else if decide (file_size <> u64 (kCheckpointHeaderSize +
                   entry_count * kCheckpointIndexEntrySize + kCheckpointFooterSize)) then
    inl (Corruption "Checkpoint size mismatch")
  else
    let split := (length buf - 4)%nat in
    let stored_crc := le_val (take 4 (drop split buf)) in
    if decide (ComputeCRC32 (take split buf) <> stored_crc) then
      inl (Corruption "Checkpoint CRC mismatch")
    else
      inr (load_entries (Z.to_nat entry_count) first_index 0 (drop 40 buf) IndexClear,
           last_covered_segment_id).

Definition LoadLatestCheckpointLocked : W (Status + Z) :=
  files ← ListCheckpointFilesLocked;
  best ← best_checkpoint files None;
  match best with
  | None => mret (inr 0)
  | Some (name, _) =>
      dir ← reads wal_dir_;
      ok ← open_file name;
      if negb ok then mret (inl (Error1 ("Failed to open checkpoint: " +:+ dir +:+ "/" +:+ name)))
      else
        ok ← sys_ok;
        if negb ok then
          mret (inl (Error1 ("Failed to stat checkpoint: " +:+ dir +:+ "/" +:+ name)))
        else
          size ← reads (fun w => Z.of_nat (length (contents name w)));
          if decide (size < kCheckpointHeaderSize + kCheckpointFooterSize) then
            mret (inl (Corruption "Checkpoint file too small"))
          else
            buf ← read_at name 0 (Z.to_nat size);
            match buf with
            | None => mret (inl (Error1 "Failed to read checkpoint"))
            | Some buf =>
                match parse_checkpoint buf with
                | inl status => mret (inl status)
                | inr (ix, covered) => setw wal_index_ (fun _ => ix) ;; mret (inr covered)
                end
            end
  end.

(** The number of entries at the end of the index written after [last]. *)
Fixpoint entries_after (last : Z) (rev_entries : list WALIndexEntry) : Z :=
  match rev_entries with
  | [] => 0
  | e :: rest => if decide (wi_segment_id e <= last) then 0 else 1 + entries_after last rest
  end.

Definition ShouldCreateCheckpointLocked : W bool :=
  w ← reads id;
  let ix := wal_index_ w in
  if Empty ix then mret false
  else
    files ← ListCheckpointFilesLocked;
    let last := foldr Z.max 0 (omap checkpoint_of_name files) in
    mret (if decide (kCheckpointSegmentInterval <= u64 (sg_id (active_segment_ w) - last)) then true
          else if decide (last = 0) then bool_decide (kCheckpointEntryInterval <= Size ix)
          else bool_decide (kCheckpointEntryInterval <=
                            entries_after last (reverse (di_entries ix)))).

Definition RemoveOldCheckpointsLocked (first_retained_segment_id : Z) : W unit :=
  files ← ListCheckpointFilesLocked;
  forS files (fun name =>
    match checkpoint_of_name name with
    | Some seg_id => whenS (bool_decide (seg_id < first_retained_segment_id)) (unlink name)
    | None => mret tt
    end).

Definition WalSync : W Status :=
  SyncActiveSegmentLocked ;?
  (should ← ShouldCreateCheckpointLocked;
   whenS should (SaveCheckpointLocked ;; mret tt) ;;
   mret StOK).

(** ** Reading *)

(** [GetCachedSegmentFd], [InvalidateSegmentFdCache] *)
Definition GetCachedSegmentFd (segment_id : Z) : W Status :=
  cached ← reads cached_segment_;
  if decide (cached = Some segment_id) then mret StOK
  else
    setw cached_segment_ (fun _ => None) ;;
    OpenSegment segment_id ;?
    (setw cached_segment_ (fun _ => Some segment_id) ;; mret StOK).

Definition InvalidateSegmentFdCache : W unit := setw cached_segment_ (fun _ => None).

Definition segment_format (segment_id : Z) (w : Wal) : Z :=
  default kFormatVersionJson (segment_format_versions_ w !! segment_id).

Definition ExtractLogIndexFromPayload (payload : bytes) (format_version : Z) : Status + Z :=
  let from_json :=
    match json_get_u64 payload "index" with
    | inl what => inl (Corruption ("Failed to parse log entry: " +:+ what))
    | inr i => inr i
    end in
  if decide (format_version = kFormatVersionProtobuf) then
    match pb_parse payload with
    | Some p => inr (pb_index p)
    | None => from_json
    end
  else from_json.

Definition ParseJsonPayload (payload : bytes) (fallback_checksum : Z) : Status + RaftLogEntry :=
  match json_log_entry payload with
  | inl what => inl (Corruption ("Failed to parse log entry: " +:+ what))
  | inr j =>
      let checksum := u32 (je_checksum j) in
      inr (mkEntry (u32 (je_index j)) (u32 (je_term j))
             (String.string_of_list_byte (Base64Decode (je_data j)))
             (String.string_of_list_byte (Base64Decode (je_command j)))
             (if decide (checksum = 0) then fallback_checksum else checksum))
  end.

Definition ParseProtobufPayload (payload : bytes) (fallback_checksum : Z)
  : Status + RaftLogEntry :=
  match pb_parse payload with
  | None => inl (Corruption "Failed to parse protobuf log entry")
  | Some p =>
      let checksum := u32 (pb_checksum p) in
      inr (mkEntry (u32 (pb_index p)) (u32 (pb_term p)) (pb_data p) (pb_command p)
             (if decide (checksum = 0) then fallback_checksum else checksum))
  end.

Definition crc_mismatch (segment_id : Z) : Status :=
  Corruption ("CRC mismatch in segment " +:+ pretty segment_id).

Definition ReadLogEntryAt (segment_id file_offset : Z) : W (Status + RaftLogEntry) :=
  status ← GetCachedSegmentFd segment_id;
  if negb (status_ok status) then mret (inl status)
  else
    let name := segment_name segment_id in
    crc ← read_at name file_offset 4;
    match crc with
    | None => mret (inl (Error1 "Failed to read CRC"))
    | Some crc =>
    len ← read_at name (file_offset + 4) 4;
    match len with
    | None => mret (inl (Error1 "Failed to read length"))
    | Some len =>
    ty ← read_at name (file_offset + 8) 2;
    match ty with
    | None => mret (inl (Error1 "Failed to read type"))
    | Some ty =>
        let length := le_val len in
        if decide (kMaxRecordSize < length) then mret (inl (Corruption "Record too large"))
        else
          payload ← (if decide (0 < length) then read_at name (file_offset + 10) (Z.to_nat length)
                     else mret (Some []));
          match payload with
          | None => mret (inl (Corruption "Failed to read payload"))
          | Some payload =>
              let computed_crc := ComputeCRC32 (len ++ ty ++ payload) in
              if decide (computed_crc <> le_val crc) then mret (inl (crc_mismatch segment_id))
              else if decide (le_val ty <> kLogEntry) then
                mret (inl (Error1 "Not a log entry record"))
              else
                format_version ← reads (segment_format segment_id);
                mret (match (if decide (format_version = kFormatVersionProtobuf)
                             then ParseProtobufPayload payload computed_crc
                             else inl StOK) with
                      | inr e => inr e
                      | inl _ => ParseJsonPayload payload computed_crc
                      end)
          end
    end end end.

(** One record of [ScanSegment] at [current_offset]: the record and its total
    length, or the error after which the segment is cut there. *)
Definition scan_record (segment_id current_offset end_offset : Z)
  : W (Status + (WALRecord * Z)) :=
  let name := segment_name segment_id in
  crc ← read_at name current_offset 4;
  match crc with
  | None => mret (inl (Corruption "Failed to read CRC (truncated tail)"))
  | Some crc =>
  len ← read_at name (current_offset + 4) 4;
  match len with
  | None => mret (inl (Corruption "Failed to read length (truncated tail)"))
  | Some len =>
  ty ← read_at name (current_offset + 8) 2;
  match ty with
  | None => mret (inl (Corruption "Failed to read type (truncated tail)"))
  | Some ty =>
      let length := le_val len in
      if decide (end_offset < current_offset + (10 + length)) then
        mret (inl (Corruption "Record extends beyond segment end"))
      else if decide (kMaxRecordSize < length) then mret (inl (Corruption "Record too large"))
      else
        payload ← (if decide (0 < length) then read_at name (current_offset + 10) (Z.to_nat length)
                   else mret (Some []));
        match payload with
        | None => mret (inl (Corruption "Failed to read payload"))
        | Some payload =>
            if decide (ComputeCRC32 (len ++ ty ++ payload) <> le_val crc) then
              mret (inl (crc_mismatch segment_id))
            else mret (inr (mkWALRecord (le_val ty) payload, 10 + length))
        end
  end end end.

(** The effect of a record on the index; [inl] when its payload is unreadable. *)
Definition record_op (segment_id format_version offset : Z) (r : WALRecord)
  : Status + option IndexOp :=
  if decide (wr_type r = kLogEntry) then
    match ExtractLogIndexFromPayload (wr_payload r) format_version with
    | inl status => inl status
    | inr log_index =>
        inr (Some (IPut log_index
          (mkWALIndexEntry segment_id offset (10 + Z.of_nat (length (wr_payload r))))))
    end
  else if decide (wr_type r = kTruncatePrefix) then
    match json_get_u64 (wr_payload r) "before_index" with
    | inl what => inl (Corruption ("Failed to parse truncate prefix: " +:+ what))
    | inr b => inr (Some (IPrefix b))
    end
  else if decide (wr_type r = kTruncateSuffix) then
    match json_get_u64 (wr_payload r) "from_index" with
    | inl what => inl (Corruption ("Failed to parse truncate suffix: " +:+ what))
    | inr f => inr (Some (ISuffix f))
    end
  else inr None.

(** A callback answers each record, knowing those it was given before. *)
Definition Callback : Type := list WALRecord -> WALRecord -> bool.

(** The result of a scan: the status, [*out_truncate_offset] and the records
    given to the callback. *)
Record ScanResult := mkScanResult {
  sc_status : Status;
  sc_truncate : option Z;
  sc_seen : list WALRecord
}.

(** The loop of [ScanSegment].  Every round moves [current_offset] on by ten
    bytes or more, so the file's length bounds the rounds. *)
Fixpoint scan_loop (fuel : nat) (segment_id format_version current_offset end_offset : Z)
    (callback : option Callback) (seen : list WALRecord) : W ScanResult :=
  match fuel with
  | O => mret (mkScanResult StOK None seen)
  | S fuel' =>
      if decide (end_offset <= current_offset) then mret (mkScanResult StOK None seen)
      else
        r ← scan_record segment_id current_offset end_offset;
        match r with
        | inl status => mret (mkScanResult status (Some current_offset) seen)
        | inr (record, total) =>
            match record_op segment_id format_version current_offset record with
            | inl status => mret (mkScanResult status None seen)
            | inr op =>
                setw wal_index_ (fun ix => from_option (index_op ix) ix op) ;;
                match callback with
                | Some cb =>
                    if cb seen record then
                      scan_loop fuel' segment_id format_version (current_offset + total)
                        end_offset callback (seen ++ [record])
                    else mret (mkScanResult StOK None (seen ++ [record]))
                | None =>
                    scan_loop fuel' segment_id format_version (current_offset + total)
                      end_offset callback seen
                end
            end
        end
  end.

Definition ScanSegment (segment_id : Z) (callback : option Callback) (seen : list WALRecord)
  : W ScanResult :=
  status ← GetCachedSegmentFd segment_id;
  if negb (status_ok status) then mret (mkScanResult status None seen)
  else
    trailer ← ReadTrailer segment_id;
    size ← reads (fun w => Z.of_nat (length (contents (segment_name segment_id) w)));
    match trailer with
    | inl _ =>
        if decide (size <= kHeaderSize) then mret (mkScanResult StOK None seen)
        else
          fmt ← reads (segment_format segment_id);
          scan_loop (S (Z.to_nat size)) segment_id fmt kHeaderSize size callback seen
    | inr end_offset =>
        fmt ← reads (segment_format segment_id);
        scan_loop (S (Z.to_nat size)) segment_id fmt kHeaderSize end_offset callback seen
    end.

(** ** Recovery *)

Definition TruncateSegmentFile (segment_id truncate_offset : Z) : W Status :=
  dir ← reads wal_dir_;
  let name := segment_name segment_id in
  let path := segment_path dir segment_id in
  ok ← open_file name;
  if negb ok then mret (Error1 ("Failed to open segment for truncation: " +:+ path))
  else
    ok ← ftruncate name truncate_offset;
    if negb ok then mret (Error1 ("Failed to truncate segment: " +:+ path))
    else
      ok ← sys_ok;
      if negb ok then mret (Error1 ("Failed to seek in segment for truncation: " +:+ path))
      else WriteTrailer name truncate_offset truncate_offset.

(** The loop of [Open] over the segments: those before the covered one are
    only validated, the others scanned; a bad tail is cut off. *)
Definition open_one (covered seg_id : Z) : W Status :=
  if decide (seg_id < covered) then OpenSegment seg_id
  else
    OpenSegment seg_id ;?
    (r ← ScanSegment seg_id None [];
     if status_ok (sc_status r) then mret StOK
     else
       match sc_truncate r with
       | Some off => if decide (0 < off) then TruncateSegmentFile seg_id off else mret (sc_status r)
       | None => mret (sc_status r)
       end).

Fixpoint open_segments (covered : Z) (ids : list Z) : W Status :=
  match ids with
  | [] => mret StOK
  | seg_id :: rest => open_one covered seg_id ;? open_segments covered rest
  end.

(** The last segment becomes the active one. *)
Definition open_active (active_id : Z) : W Status :=
  OpenSegment active_id ;?
  (fmt ← reads (segment_format active_id);
   setw active_segment_ (fun s =>
     s <| sg_id := active_id |> <| sg_open := true |> <| sg_format_version := fmt |>) ;;
   trailer ← ReadTrailer active_id;
   size ← reads (fun w => Z.of_nat (length (contents (segment_name active_id) w)));
   match (match trailer with
          | inr end_offset => inr end_offset
          | inl status => if decide (size = kHeaderSize) then inr kHeaderSize else inl status
          end) with
   | inl status => setw active_segment_ (fun _ => Segment_new) ;; mret status
   | inr end_offset =>
       ix ← reads wal_index_;
       setw active_segment_ (fun s =>
         s <| sg_end_offset := end_offset |>
           <| sg_entry_count :=
                Z.of_nat (length (filter (fun e => wi_segment_id e = active_id) (di_entries ix))) |>) ;;
       mret StOK
   end).

(** Creating the directory, and the meta file's check. *)
Definition open_dir (dir : string) : W Status :=
  kind ← reads (fun w => d_kind (wal_disk w));
  match kind with
  | NotDir => mret (Error1 ("WAL path is not a directory: " +:+ dir))
  | Absent =>
      ok ← sys_ok;
      if negb ok then mret (Error1 ("Failed to create WAL directory: " +:+ dir))
      else setw wal_disk (fun d => d <| d_kind := IsDir |>) ;; mret StOK
  | IsDir => mret StOK
  end.

Definition open_meta : W Status :=
  ex ← exists_file meta_name;
  if ex : bool then LoadMeta else mret StOK.

Definition Open (dir : string) : W Status :=
  setw wal_dir_ (fun _ => dir) ;;
  open_dir dir ;?
  open_meta ;?
  (ids ← list_segments;
   let segment_ids := sort_ids ids in
   match list.last segment_ids with
   | None => CreateSegment 1
   | Some active_id =>
       ckpt ← LoadLatestCheckpointLocked;
       covered ← (match ckpt with
                  | inr covered => mret covered
                  | inl _ => setw wal_index_ (fun _ => IndexClear) ;; mret 0
                  end);
       open_segments covered segment_ids ;?
       open_active active_id
   end).

Definition WalClose : W unit :=
  seg ← reads active_segment_;
  (if sg_open seg then
     FlushWriteBufferLocked ;;
     should ← ShouldCreateCheckpointLocked;
     whenS should (SaveCheckpointLocked ;; mret tt) ;;
     setw active_segment_ (fun _ => Segment_new)
   else mret tt) ;;
  InvalidateSegmentFdCache ;;
  setw wal_dir_ (fun _ => "") ;;
  setw wal_index_ (fun _ => IndexClear) ;;
  setw segment_format_versions_ (fun _ => ∅) ;;
  setw write_buf_ (fun _ => []).

(** ** Reading the log, replay and garbage collection *)

Definition GetLogRange : W (Z * Z) :=
  reads (fun w => (FirstIndex (wal_index_ w), LastIndex (wal_index_ w))).

Definition WalGetEntry (index : Z) : W (Status + RaftLogEntry) :=
  status ← EnsureBufferFlushedForReadLocked;
  if negb (status_ok status) then mret (inl status)
  else
    ix ← reads wal_index_;
    match Get index ix with
    | None => mret (inl (Error1 "Entry not found"))
    | Some e => ReadLogEntryAt (wi_segment_id e) (wi_file_offset e)
    end.

(** The slots read one after the other; the entries before a failure stay in
    the output. *)
Fixpoint read_slots (slots : list WALIndexEntry) (out : list RaftLogEntry)
  : W (Status * list RaftLogEntry) :=
  match slots with
  | [] => mret (StOK, out)
  | e :: rest =>
      if decide (wi_segment_id e = 0) then read_slots rest out
      else
        r ← ReadLogEntryAt (wi_segment_id e) (wi_file_offset e);
        match r with
        | inl status => mret (status, out)
        | inr entry => read_slots rest (out ++ [entry])
        end
  end.

Definition WalGetEntries (start end_ : Z) : W (Status * list RaftLogEntry) :=
  if decide (end_ <= start) then mret (StOK, [])
  else
    status ← EnsureBufferFlushedForReadLocked;
    if negb (status_ok status) then mret (status, [])
    else
      ix ← reads wal_index_;
      let first := FirstIndex ix in
      let last := LastIndex ix in
      if Empty ix || bool_decide (last < start) || bool_decide (end_ <= first) then
        mret (StOK, [])
      else
        let from := Z.max start first in
        let to := Z.min end_ (u64 (last + 1)) in
        read_slots (take (Z.to_nat (to - from)) (drop (Z.to_nat (from - first)) (di_entries ix))) [].

(** The segments the index refers to, in its order, without repetitions of
    neighbours. *)
Fixpoint index_segments (prev : Z) (es : list WALIndexEntry) : list Z :=
  match es with
  | [] => []
  | e :: rest =>
      if decide (wi_segment_id e = 0 \/ wi_segment_id e = prev) then index_segments prev rest
      else wi_segment_id e :: index_segments (wi_segment_id e) rest
  end.

Fixpoint replay_segments (ids : list Z) (callback : Callback) (seen : list WALRecord)
  : W (Status * list WALRecord) :=
  match ids with
  | [] => mret (StOK, seen)
  | seg_id :: rest =>
      r ← ScanSegment seg_id (Some callback) seen;
      if status_ok (sc_status r) then replay_segments rest callback (sc_seen r)
      else mret (sc_status r, sc_seen r)
  end.

Definition Replay (callback : Callback) : W (Status * list WALRecord) :=
  status ← FlushWriteBufferLocked;
  if negb (status_ok status) then mret (status, [])
  else
    ix ← reads wal_index_;
    let ids := index_segments 0 (di_entries ix) in
    ids ← (if decide (ids = []) then l ← list_segments; mret (sort_ids l) else mret ids);
    replay_segments ids callback [].

(** The smallest segment of an entry at or after [before]; [None] without one. *)
Fixpoint first_needed (before i : Z) (es : list WALIndexEntry) : option Z :=
  match es with
  | [] => None
  | e :: rest =>
      let r := first_needed before (i + 1) rest in
      if decide (wi_segment_id e <> 0 /\ before <= i) then
        Some (from_option (Z.min (wi_segment_id e)) (wi_segment_id e) r)
      else r
  end.

(** The log index of the first slot at or after segment [keep]. *)
Fixpoint first_kept (keep i : Z) (es : list WALIndexEntry) : option Z :=
  match es with
  | [] => None
  | e :: rest => if decide (keep <= wi_segment_id e) then Some i else first_kept keep (i + 1) rest
  end.

Definition GarbageCollect (before_log_index : Z) : W Status :=
  w ← reads id;
  let ix := wal_index_ w in
  let keep := default (sg_id (active_segment_ w))
                (first_needed before_log_index (FirstIndex ix) (di_entries ix)) in
  ids ← list_segments;
  let to_delete := filter (fun id => id < keep) ids in
  whenS (bool_decide (to_delete <> [])) InvalidateSegmentFdCache ;;
  forS to_delete (fun id => unlink (segment_name id)) ;;
  setw wal_index_ (fun ix =>
    match first_kept keep (FirstIndex ix) (di_entries ix) with
    | Some i => IndexTruncatePrefix i ix
    | None => IndexClear
    end) ;;
  ix' ← reads wal_index_;
  (if negb (Empty ix') then
     SaveCheckpointLocked ;;
     RemoveOldCheckpointsLocked (sg_id (active_segment_ w))
   else RemoveOldCheckpointsLocked keep) ;;
  mret StOK.

End wal.
