(* ===== verification/WalScan.v ===== *)
(** * File names and segments of the write-ahead log

    The names of segments and checkpoints are read back as the numbers they were
    printed from, and the three kinds of names are told apart.  The system calls
    on a disk without failures, the format of records and trailers, and the scan
    of a segment. *)

From Stdlib Require Import Ascii.
From S2P Require Import Prelude Types RaftLog Quorum RaftGroup Timers Replicate Membership Text Bytes.
From S2P Require Import DenseIndex Disk Wal.

(** ** Decimal numbers *)

Lemma digit_of_char d : (d < 10)%N -> digit_of (pretty_N_char d) = Some (Z.of_N d).
Proof.
  intros Hd.
  assert (d = 0 ∨ d = 1 ∨ d = 2 ∨ d = 3 ∨ d = 4 ∨ d = 5 ∨ d = 6 ∨ d = 7 ∨ d = 8 ∨ d = 9)%N
    as Hc by lia.
  by repeat destruct Hc as [->|Hc]; [..|subst].
Qed.

Lemma read_digits_go x :
  (0 < x)%N -> forall s b, read_digits 0 b (pretty_N_go x s) = read_digits (Z.of_N x) true s.
Proof.
  induction (N.lt_wf_0 x) as [x _ IH]. intros Hx s b.
  rewrite pretty_N_go_step by done.
  pose proof (N.div_mod x 10 ltac:(lia)). pose proof (N.mod_lt x 10 ltac:(lia)) as Hm.
  destruct (decide (x / 10 = 0)%N) as [E|E].
  - rewrite E, pretty_N_go_0. simpl. rewrite digit_of_char by done. f_equal. lia.
  - rewrite IH by (try apply N.div_lt; lia). simpl. rewrite digit_of_char by done. f_equal. lia.
Qed.

(** A number starts with a digit. *)
Lemma pretty_go_head x s :
  (0 < x)%N -> exists a s', pretty_N_go x s = String a s' /\ is_Some (digit_of a).
Proof.
  revert s. induction (N.lt_wf_0 x) as [x _ IH]. intros s Hx.
  rewrite pretty_N_go_step by done. pose proof (N.mod_lt x 10 ltac:(lia)) as Hm.
  destruct (decide (x / 10 = 0)%N) as [E|E].
  - rewrite E, pretty_N_go_0. eexists _, _. split; [done|]. by rewrite digit_of_char.
  - apply IH; [by apply N.div_lt|by apply N.neq_0_lt_0].
Qed.

Lemma pretty_Z_N z : 0 <= z -> pretty z = pretty (Z.to_N z).
Proof. intros Hz. destruct z; [done..|lia]. Qed.

Lemma pretty_head z :
  0 <= z -> exists a s, pretty z = String a s /\ is_Some (digit_of a).
Proof.
  intros Hz. rewrite pretty_Z_N by done. unfold pretty, pretty_N.
  case_decide; [by eexists _, _|]. apply pretty_go_head. lia.
Qed.

Lemma read_digits_pretty z :
  0 <= z -> read_digits 0 false (pretty z) = Some z.
Proof.
  intros Hz. rewrite pretty_Z_N by done. unfold pretty, pretty_N. case_decide as E.
  - by replace z with 0 by lia.
  - rewrite read_digits_go by lia. simpl. by rewrite Z2N.id.
Qed.

Lemma digit_not_special a :
  is_Some (digit_of a) ->
  is_space a = false /\ a <> "-"%char /\ a <> "+"%char /\ a <> "c"%char.
Proof.
  unfold digit_of, is_space. case_decide as H; [|by intros []]. intros _.
  split.
  - apply orb_false_iff. split; [|apply andb_false_iff; right]; apply bool_decide_eq_false; lia.
  - split_and!; intros ->; cbv in H; lia.
Qed.

Lemma stoull_pretty z : is_u64 z -> stoull (pretty z) = Some z.
Proof.
  intros [Hz Hm]. pose proof (read_digits_pretty z Hz) as Hr.
  destruct (pretty_head z Hz) as (a & s & E & Ha). rewrite E in *.
  destruct (digit_not_special a Ha) as (Hsp & Hm1 & Hm2 & _).
  unfold stoull. simpl skip_space. rewrite Hsp.
  assert ((match String a s with
           | String "-" s' => v ← read_digits 0 false s';
               u64 ∘ Z.opp <$> (if decide (v <= UINT64_MAX) then Some v else None)
           | String "+" s' => v ← read_digits 0 false s';
               (if decide (v <= UINT64_MAX) then Some v else None)
           | s' => v ← read_digits 0 false s'; (if decide (v <= UINT64_MAX) then Some v else None)
           end) = v ← read_digits 0 false (String a s);
                  (if decide (v <= UINT64_MAX) then Some v else None)) as ->.
  { destruct a as [[] [] [] [] [] [] [] []]; done. }
  rewrite Hr. simpl. by rewrite decide_True.
Qed.

(** ** Names *)

Lemma ends_with_app s t : ends_with t (s +:+ t) = true.
Proof.
  unfold ends_with. apply bool_decide_eq_true. rewrite length_str_app, Nat.add_sub.
  apply substr_from_app.
Qed.

(** Names that end in different ways are different. *)
Lemma ends_with_other s t t' :
  String.length t = String.length t' -> t <> t' -> ends_with t (s +:+ t') = false.
Proof.
  intros Hl Hne. unfold ends_with. apply bool_decide_eq_false. rewrite Hl, length_str_app, Nat.add_sub.
  rewrite substr_from_app. congruence.
Qed.

Lemma length_pretty_pos z : 0 <= z -> (0 < String.length (pretty z))%nat.
Proof. intros Hz. destruct (pretty_head z Hz) as (a & s & -> & _). simpl. lia. Qed.

Lemma segment_of_segment_name id : is_u64 id -> segment_of_name (segment_name id) = Some id.
Proof.
  intros Hid. unfold segment_of_name, segment_name. rewrite ends_with_app, length_str_app.
  pose proof (length_pretty_pos id (proj1 Hid)). simpl (String.length ".wal").
  rewrite bool_decide_true by lia. simpl (_ && _).
  rewrite Nat.add_sub, substring_app. by apply stoull_pretty.
Qed.

Lemma checkpoint_name_split id :
  checkpoint_name id = (kCheckpointPrefix +:+ pretty id) +:+ kCheckpointSuffix.
Proof. unfold checkpoint_name. by rewrite str_app_assoc. Qed.

Lemma segment_of_checkpoint_name id : segment_of_name (checkpoint_name id) = None.
Proof.
  unfold segment_of_name. rewrite checkpoint_name_split.
  rewrite (ends_with_other _ ".wal" kCheckpointSuffix) by done. by rewrite andb_false_r.
Qed.

Lemma segment_of_meta_name : segment_of_name meta_name = None.
Proof. done. Qed.

Lemma is_checkpoint_checkpoint_name id : 0 <= id -> is_checkpoint_name (checkpoint_name id) = true.
Proof.
  intros Hid. unfold is_checkpoint_name.
  rewrite checkpoint_name_split, ends_with_app, <- checkpoint_name_split.
  unfold checkpoint_name. rewrite prefix_app, !length_str_app.
  pose proof (length_pretty_pos id Hid). by rewrite bool_decide_true by lia.
Qed.

Lemma checkpoint_of_checkpoint_name id :
  is_u64 id -> checkpoint_of_name (checkpoint_name id) = Some id.
Proof.
  intros Hid. unfold checkpoint_of_name, checkpoint_name. rewrite !length_str_app, substring_after.
  replace (_ + (_ + _) - _ - _)%nat with (String.length (pretty id)) by lia.
  rewrite substring_app. by apply stoull_pretty.
Qed.

Lemma is_checkpoint_segment_name id : 0 <= id -> is_checkpoint_name (segment_name id) = false.
Proof.
  intros Hid. unfold is_checkpoint_name, segment_name.
  rewrite (ends_with_other _ kCheckpointSuffix ".wal") by done. apply andb_false_r.
Qed.

Lemma is_checkpoint_meta_name : is_checkpoint_name meta_name = false.
Proof. done. Qed.

Lemma segment_name_inj id id' :
  is_u64 id -> is_u64 id' -> segment_name id = segment_name id' -> id = id'.
Proof.
  intros H H' E. apply (f_equal segment_of_name) in E.
  rewrite !segment_of_segment_name in E by done. congruence.
Qed.

Lemma checkpoint_name_inj id id' :
  is_u64 id -> is_u64 id' -> checkpoint_name id = checkpoint_name id' -> id = id'.
Proof.
  intros H H' E. apply (f_equal checkpoint_of_name) in E.
  rewrite !checkpoint_of_checkpoint_name in E by done. congruence.
Qed.

Lemma segment_not_checkpoint id id' : is_u64 id -> segment_name id <> checkpoint_name id'.
Proof.
  intros H E. apply (f_equal segment_of_name) in E.
  by rewrite segment_of_segment_name, segment_of_checkpoint_name in E by done.
Qed.

Lemma segment_not_meta id : is_u64 id -> segment_name id <> meta_name.
Proof.
  intros H E. apply (f_equal segment_of_name) in E.
  by rewrite segment_of_segment_name in E by done.
Qed.

Lemma checkpoint_not_meta id : 0 <= id -> checkpoint_name id <> meta_name.
Proof.
  intros H E. apply (f_equal is_checkpoint_name) in E.
  by rewrite is_checkpoint_checkpoint_name in E by done.
Qed.

(** The temporary name of a checkpoint is none of them. *)
Definition temp_name (id : Z) : string := checkpoint_name id +:+ kCheckpointTempSuffix.

Lemma temp_name_other id :
  segment_of_name (temp_name id) = None /\ is_checkpoint_name (temp_name id) = false.
Proof.
  unfold temp_name, segment_of_name, is_checkpoint_name.
  rewrite (ends_with_other _ ".wal"), (ends_with_other _ kCheckpointSuffix) by done.
  by rewrite !andb_false_r.
Qed.

(** ** Reading back what was written to a segment *)

Import DenseIndexOps.

#[global] Arguments encode_record : simpl never.
#[global] Arguments le : simpl never.
#[global] Arguments ComputeCRC32 : simpl never.

(** ** System calls that succeed *)

Definition no_faults (w : Wal) : Prop := d_tape (wal_disk w) = [].
Definition wfiles (w : Wal) : gmap string File := d_files (wal_disk w).

(** The state with one file replaced. *)
Definition set_file (name : string) (bs : bytes) (w : Wal) : Wal :=
  w <| wal_disk ::= fun d => d <| d_files ::= partial_alter
    (fun f => Some (mkFile bs (f ≫= f_synced))) name |> |>.

Section calls.
Context (w : Wal) (Hnf : no_faults w).

Lemma run_sys_ok : sys_ok w = (true, w).
Proof. unfold sys_ok, sys. st. unfold disk_of. simpl. by rewrite Hnf. Qed.

Lemma run_open_file name : open_file name w = (bool_decide (is_Some (wfiles w !! name)), w).
Proof. unfold open_file, exists_file. st. rewrite run_sys_ok. by st. Qed.

Lemma run_create_file name : create_file name w = (true, set_file name [] w).
Proof. unfold create_file, put_contents. st. rewrite run_sys_ok. by st. Qed.

Lemma run_read_at name off n :
  read_at name off n w =
    (if bool_decide (off + Z.of_nat n <= Z.of_nat (length (contents name w)))
     then Some (take n (drop (Z.to_nat off) (contents name w))) else None, w).
Proof. unfold read_at. st. rewrite run_sys_ok. by st. Qed.

Lemma run_write_at name off data :
  write_at name off data w =
    (tt, set_file name (overwrite (contents name w) (Z.to_nat off) data) w).
Proof. unfold write_at, put_contents. by st. Qed.

Lemma run_write_once name off data :
  write_once name off data w =
    (true, set_file name (overwrite (contents name w) (Z.to_nat off) data) w).
Proof.
  unfold write_once. st. unfold sys. unfold disk_of. simpl. rewrite Hnf. simpl. st.
  by rewrite run_write_at.
Qed.

Lemma run_write_loop name off data :
  write_loop name off data w =
    (true, match data with
           | [] => w
           | _ => set_file name (overwrite (contents name w) (Z.to_nat off) data) w
           end).
Proof.
  unfold write_loop. st. unfold disk_of. simpl. rewrite Hnf. simpl.
  destruct data as [|b data]; [done|]. st. by rewrite run_write_at.
Qed.

Lemma run_write_loop_some name off data :
  data <> [] ->
  write_loop name off data w =
    (true, set_file name (overwrite (contents name w) (Z.to_nat off) data) w).
Proof. rewrite run_write_loop. by destruct data. Qed.

Lemma run_list_dir : list_dir w = (Some (elements (dom (wfiles w))), w).
Proof. unfold list_dir. st. rewrite run_sys_ok. by st. Qed.

End calls.

Lemma st_setw {T} (f : Wal -> T) `{!Setter f} g w : setw f g w = (tt, w <| f ::= g |>).
Proof. done. Qed.

#[export] Hint Rewrite @st_setw : st.
Ltac wst := repeat (progress (autorewrite with st; cbn [fst snd status_ok negb])).
#[export] Hint Rewrite run_sys_ok run_open_file run_create_file run_write_once
  run_write_loop run_list_dir using done : st.

(** ** The disk after a write *)

Lemma set_file_faults name bs w : no_faults w -> no_faults (set_file name bs w).
Proof. done. Qed.
#[export] Hint Resolve set_file_faults : core.

Lemma wfiles_set_file name bs w :
  wfiles (set_file name bs w) = <[name := mkFile bs (wfiles w !! name ≫= f_synced)]> (wfiles w).
Proof.
  unfold wfiles, set_file. proj_simp. apply map_eq. intros n.
  destruct (decide (n = name)) as [->|Hne].
  - by rewrite lookup_partial_alter_eq, lookup_insert_eq.
  - by rewrite lookup_partial_alter_ne, lookup_insert_ne.
Qed.

Lemma contents_wfiles name w : contents name w = default [] (f_data <$> wfiles w !! name).
Proof. done. Qed.

Lemma contents_set_file name bs w : contents name (set_file name bs w) = bs.
Proof. rewrite contents_wfiles, wfiles_set_file. by rewrite lookup_insert_eq. Qed.

Lemma contents_set_file_ne name name' bs w :
  name <> name' -> contents name (set_file name' bs w) = contents name w.
Proof. intros H. rewrite !contents_wfiles, wfiles_set_file. by rewrite lookup_insert_ne. Qed.

(** Bytes in the middle of a file. *)
Lemma read_piece name off n w A B C :
  no_faults w -> contents name w = A ++ B ++ C -> off = Z.of_nat (length A) -> n = length B ->
  read_at name off n w = (Some B, w).
Proof.
  intros Hnf Hc -> ->. rewrite run_read_at, Hc, !length_app, bool_decide_true by (done || lia).
  by rewrite Nat2Z.id, drop_app_length, take_app_length.
Qed.

Lemma read_past name off n w :
  no_faults w -> Z.of_nat (length (contents name w)) < off + Z.of_nat n ->
  read_at name off n w = (None, w).
Proof. intros Hnf H. by rewrite run_read_at, bool_decide_false by (done || lia). Qed.

(** Writing at the end of the data replaces what is behind it. *)
Lemma overwrite_app A B data :
  (length B <= length data)%nat -> overwrite (A ++ B) (length A) data = A ++ data.
Proof.
  intros H. unfold overwrite. rewrite take_app_length, length_app.
  replace (length A - (length A + length B))%nat with 0%nat by lia. simpl.
  by rewrite (drop_ge (A ++ B)), app_nil_r by (rewrite length_app; lia).
Qed.

Lemma overwrite_end A data : overwrite A (length A) data = A ++ data.
Proof.
  pose proof (overwrite_app A [] data) as H. rewrite app_nil_r in H. apply H. simpl. lia.
Qed.

(** ** Records *)

Definition record_ok (r : WALRecord) : Prop :=
  0 <= wr_type r < 65536 /\ Z.of_nat (length (wr_payload r)) <= kMaxRecordSize.

Definition rec_len (r : WALRecord) : Z := 10 + Z.of_nat (length (wr_payload r)).

Lemma length_encode_record r : Z.of_nat (length (encode_record r)) = rec_len r.
Proof.
  unfold encode_record, crc_data, rec_len. rewrite !length_app, !length_le. lia.
Qed.

Lemma payload_u32 r : record_ok r -> u32 (Z.of_nat (length (wr_payload r))) = Z.of_nat (length (wr_payload r)).
Proof. intros [_ H]. unfold u32. apply Z.mod_small. unfold kMaxRecordSize in H. lia. Qed.

(** A record in the middle of a segment is read back. *)
Lemma scan_record_ok id w A r C end_ :
  no_faults w -> record_ok r ->
  contents (segment_name id) w = A ++ encode_record r ++ C ->
  Z.of_nat (length A) + rec_len r <= end_ ->
  scan_record id (Z.of_nat (length A)) end_ w = (inr (r, rec_len r), w).
Proof.
  intros Hnf Hok Hc He. pose proof (payload_u32 r Hok) as Hu. destruct Hok as [Ht Hl].
  unfold encode_record, crc_data in Hc. rewrite Hu in Hc.
  set (crc := le 4 (ComputeCRC32 _)) in Hc. set (len := le 4 (Z.of_nat _)) in Hc.
  set (ty := le 2 (wr_type r)) in Hc.
  assert (length crc = 4%nat /\ length len = 4%nat /\ length ty = 2%nat) as (L1 & L2 & L3)
    by (by split_and!; apply length_le).
  assert (Vl : le_val len = Z.of_nat (length (wr_payload r))).
  { apply le32. unfold is_u32, UINT32_MAX, kMaxRecordSize in *. lia. }
  assert (Vt : le_val ty = wr_type r) by by apply le16.
  rewrite <- !app_assoc in Hc.
  unfold scan_record. st.
  rewrite (read_piece _ _ _ _ A crc (len ++ ty ++ wr_payload r ++ C)) by done. st.
  rewrite (read_piece _ _ _ _ (A ++ crc) len (ty ++ wr_payload r ++ C))
    by (rewrite ?Hc, <- ?app_assoc, ?length_app; done || lia). st.
  rewrite (read_piece _ _ _ _ (A ++ crc ++ len) ty (wr_payload r ++ C))
    by (rewrite ?Hc, <- ?app_assoc, ?length_app; done || lia). st.
  rewrite Vl. unfold rec_len in *. rewrite !decide_False by lia. st.
  assert ((if decide (0 < Z.of_nat (length (wr_payload r)))
           then read_at (segment_name id) (Z.of_nat (length A) + 10)
                  (Z.to_nat (Z.of_nat (length (wr_payload r))))
           else mret (Some [])) w = (Some (wr_payload r), w)) as ->.
  { case_decide.
    - rewrite Nat2Z.id. apply (read_piece _ _ _ _ (A ++ crc ++ len ++ ty) _ C);
        rewrite ?Hc, <- ?app_assoc, ?length_app; done || lia.
    - destruct (wr_payload r) eqn:E; [done|]. simpl in *. lia. }
  st. rewrite Vt.
  rewrite decide_False by (intros Hn; apply Hn; symmetry; apply le32, u32_ComputeCRC32).
  by destruct r.
Qed.

(** ** Commands and their records *)

(** What the documentation of the libraries promises: a serialized message is
    parsed back, a dumped integer is read back, a dumped object is a valid
    document. *)
Class WalLaws `{!WalLib} : Prop := {
  pb_roundtrip p bs :
    is_u64 (pb_index p) -> is_u64 (pb_term p) -> is_u64 (pb_checksum p) ->
    pb_serialize p = Some bs -> pb_parse bs = Some p;
  json_u64_roundtrip key n : is_u64 n -> json_get_u64 (json_dump_u64 key n) key = inr n;
  json_meta_valid a b c : json_meta_error (json_dump_meta a b c) = None
}.

(** A call that appends to the log. *)
Inductive Cmd :=
| CEntry (e : RaftLogEntry)
| CPrefix (before_index : Z)
| CSuffix (from_index : Z).

Section commands.
Context `{!WalLib}.

Definition cmd_payload (c : Cmd) : bytes :=
  match c with
  | CEntry e => default [] (pb_serialize (proto_of e))
  | CPrefix b => json_dump_u64 "before_index" b
  | CSuffix f => json_dump_u64 "from_index" f
  end.

Definition cmd_record (c : Cmd) : WALRecord :=
  mkWALRecord
    match c with CEntry _ => kLogEntry | CPrefix _ => kTruncatePrefix | CSuffix _ => kTruncateSuffix end
    (cmd_payload c).

Definition entry_ok (e : RaftLogEntry) : Prop :=
  is_u32 (index_ e) /\ is_u32 (term_ e) /\ is_u32 (checksum_ e).

(** Machine-width arguments and a payload that fits a record. *)
Definition cmd_ok (c : Cmd) : Prop :=
  match c with
  | CEntry e => entry_ok e /\ is_Some (pb_serialize (proto_of e))
  | CPrefix b => is_u64 b
  | CSuffix f => is_u64 f
  end /\ Z.of_nat (length (cmd_payload c)) <= kMaxRecordSize.

(** The effect on the index of a command whose record is at [off]. *)
Definition cmd_op (id off : Z) (c : Cmd) : IndexOp :=
  match c with
  | CEntry e => IPut (index_ e) (mkWALIndexEntry id off (rec_len (cmd_record c)))
  | CPrefix b => IPrefix b
  | CSuffix f => ISuffix f
  end.

(** The positions of the records of a segment whose first one is at [off]. *)
Fixpoint seg_ops (id off : Z) (cs : list Cmd) : list IndexOp :=
  match cs with
  | [] => []
  | c :: cs' => cmd_op id off c :: seg_ops id (off + rec_len (cmd_record c)) cs'
  end.

Definition enc (cs : list Cmd) : bytes := concat (map (fun c => encode_record (cmd_record c)) cs).
Definition enc_len (cs : list Cmd) : Z := Z.of_nat (length (enc cs)).

Lemma enc_app cs cs' : enc (cs ++ cs') = enc cs ++ enc cs'.
Proof. unfold enc. by rewrite map_app, concat_app. Qed.

Lemma enc_len_app cs cs' : enc_len (cs ++ cs') = enc_len cs + enc_len cs'.
Proof. unfold enc_len. rewrite enc_app, length_app. lia. Qed.

Lemma enc_len_one c : enc_len [c] = rec_len (cmd_record c).
Proof. unfold enc_len, enc. cbn [map concat]. by rewrite app_nil_r, length_encode_record. Qed.

Lemma rec_len_pos r : 10 <= rec_len r.
Proof. unfold rec_len. lia. Qed.

Lemma enc_len_nonneg cs : 10 * Z.of_nat (length cs) <= enc_len cs.
Proof.
  induction cs as [|c cs IH]; [done|]. change (c :: cs) with ([c] ++ cs).
  rewrite enc_len_app, enc_len_one, length_app. pose proof (rec_len_pos (cmd_record c)). simpl. lia.
Qed.

Lemma seg_ops_app id off cs cs' :
  seg_ops id off (cs ++ cs') = seg_ops id off cs ++ seg_ops id (off + enc_len cs) cs'.
Proof.
  revert off. induction cs as [|c cs IH]; intros off; simpl; [f_equal; unfold enc_len; simpl; lia|].
  rewrite IH. do 2 f_equal. change (c :: cs) with ([c] ++ cs).
  rewrite enc_len_app, enc_len_one. f_equal. lia.
Qed.

Lemma cmd_record_ok c : cmd_ok c -> record_ok (cmd_record c).
Proof. intros [_ Hl]. split; [|done]. by destruct c. Qed.

Lemma cmd_op_ok id off c : id <> 0 -> cmd_ok c -> op_ok (cmd_op id off c).
Proof.
  intros Hid [Hok _]. destruct c; simpl; [|apply Hok..].
  destruct Hok as [[[??] _] _]. unfold UINT32_MAX, UINT64_MAX in *. split; [lia|done].
Qed.

Lemma seg_ops_ok id off cs : id <> 0 -> Forall cmd_ok cs -> Forall op_ok (seg_ops id off cs).
Proof.
  intros Hid Hok. revert off. induction Hok; intros off; simpl; constructor; auto.
  by apply cmd_op_ok.
Qed.

Lemma u32_u64 z : is_u32 z -> is_u64 z.
Proof. unfold is_u32, is_u64, UINT32_MAX, UINT64_MAX. lia. Qed.

Context `{!WalLaws}.

Lemma record_op_cmd id off c :
  cmd_ok c -> record_op id kFormatVersionProtobuf off (cmd_record c) = inr (Some (cmd_op id off c)).
Proof.
  intros [Hok _]. destruct c as [e|b|f]; unfold record_op, cmd_record; simpl wr_type; simpl wr_payload.
  - destruct Hok as [(Hi & Ht & Hc) [bs Hs]]. simpl. unfold ExtractLogIndexFromPayload.
    rewrite Hs. simpl. rewrite (pb_roundtrip (proto_of e) bs) by (try apply u32_u64; done).
    unfold cmd_op, cmd_record, cmd_payload. by rewrite Hs.
  - simpl. rewrite json_u64_roundtrip by done. done.
  - simpl. rewrite json_u64_roundtrip by done. done.
Qed.

(** ** Scanning a whole segment *)

(** The loop reads the records [cs] and goes on behind them. *)
Lemma scan_loop_prefix id w A cs C fuel end_ :
  no_faults w -> Forall cmd_ok cs ->
  contents (segment_name id) w = A ++ enc cs ++ C ->
  Z.of_nat (length A) + enc_len cs <= end_ ->
  scan_loop (length cs + fuel) id kFormatVersionProtobuf (Z.of_nat (length A)) end_ None [] w =
    scan_loop fuel id kFormatVersionProtobuf (Z.of_nat (length A) + enc_len cs) end_ None []
     (w <| wal_index_ ::= fun ix => foldl index_op ix (seg_ops id (Z.of_nat (length A)) cs) |>).
Proof.
  intros Hnf Hok. revert A w Hnf. induction Hok as [|c cs Hc Hok IH]; intros A w Hnf Hcont He.
  { cbn [length Nat.add seg_ops foldl]. unfold enc_len. cbn. rewrite Z.add_0_r. by destruct w. }
  cbn [length Nat.add scan_loop].
  pose proof (rec_len_pos (cmd_record c)). pose proof (enc_len_nonneg cs).
  change (c :: cs) with ([c] ++ cs) in He |- *. rewrite enc_len_app, enc_len_one in He |- *.
  rewrite decide_False by lia. rewrite st_bind.
  change (enc (c :: cs)) with (encode_record (cmd_record c) ++ enc cs) in Hcont.
  rewrite <- app_assoc in Hcont.
  rewrite (scan_record_ok id w A (cmd_record c) (enc cs ++ C))
    by (try apply cmd_record_ok; done || lia).
  cbn [fst snd]. rewrite record_op_cmd by done. rewrite st_bind, st_setw. cbn [fst snd].
  replace (Z.of_nat (length A) + rec_len (cmd_record c))
    with (Z.of_nat (length (A ++ encode_record (cmd_record c))))
    by (rewrite length_app, Nat2Z.inj_add, length_encode_record; done).
  rewrite IH; [| done | by rewrite <- app_assoc |
    rewrite length_app, Nat2Z.inj_add, length_encode_record; lia].
  rewrite length_app, Nat2Z.inj_add, length_encode_record, Z.add_assoc. done.
Qed.

Lemma scan_loop_ok id w A cs C fuel :
  no_faults w -> Forall cmd_ok cs ->
  contents (segment_name id) w = A ++ enc cs ++ C ->
  (length cs < fuel)%nat ->
  scan_loop fuel id kFormatVersionProtobuf (Z.of_nat (length A))
      (Z.of_nat (length A) + enc_len cs) None [] w =
    (mkScanResult StOK None [],
     w <| wal_index_ ::= fun ix => foldl index_op ix (seg_ops id (Z.of_nat (length A)) cs) |>).
Proof.
  intros Hnf Hok Hcont Hf. replace fuel with (length cs + S (fuel - S (length cs)))%nat by lia.
  rewrite (scan_loop_prefix id w A cs C) by (done || lia). cbn [scan_loop].
  by rewrite decide_True by lia.
Qed.

End commands.
