(* ===== verification/WalInv.v ===== *)
(** * The invariant of the write-ahead log

    The disk holds, for the commands appended so far, one file per segment and
    checkpoints of earlier indices; memory holds the index, and the records
    that are not yet in the active file. *)

From Stdlib Require Import Ascii.
From stdpp Require Import sorting.
From S2P Require Import Prelude Types Bytes DenseIndex Disk RaftLog Quorum RaftGroup Timers Replicate Membership Text Wal WalScan.
Import DenseIndexOps.

Section inv.
Context {LIB : WalLib}.

(** ** Files *)

Definition seg_file (id : Z) (cs : list Cmd) : bytes :=
  segment_header id kFormatVersionProtobuf ++ enc cs ++
  match cs with [] => [] | _ => le 8 (16 + enc_len cs) end.

Definition checkpoint_bytes (ix : DenseIndex) (id : Z) : bytes :=
  checkpoint_body ix id ++ le 4 (ComputeCRC32 (checkpoint_body ix id)).

(** The operations recorded in segments [id], [id + 1], ... *)
Fixpoint log_ops (id : Z) (segs : list (list Cmd)) : list IndexOp :=
  match segs with
  | [] => []
  | cs :: rest => seg_ops id kHeaderSize cs ++ log_ops (id + 1) rest
  end.

(** A segment is closed when its size reaches the limit. *)
Definition seg_size_ok (cs : list Cmd) : Prop :=
  16 + enc_len cs <= kMaxSegmentSize + kMaxRecordSize + 10.

(** A directory whose segments hold the commands [segs], each file in the way
    [file] says. *)
Record disk_files (file : nat -> list Cmd -> bytes -> Prop) (d : Disk) (segs : list (list Cmd))
  : Prop := {
  dv_tape : d_tape d = [];
  dv_kind : d_kind d = IsDir;
  dv_count : Z.of_nat (length segs) <= UINT64_MAX;
  dv_cmds : Forall (fun cs => Forall cmd_ok cs /\ seg_size_ok cs) segs;
  dv_segs : forall k cs, segs !! k = Some cs ->
    exists f, d_files d !! segment_name (Z.of_nat k + 1) = Some f /\
      file k cs (f_data f);
  dv_names : forall name, is_Some (d_files d !! name) -> name = meta_name \/
    exists k, (k < length segs)%nat /\
      (name = segment_name (Z.of_nat k + 1) \/ name = checkpoint_name (Z.of_nat k + 1));
  dv_meta : forall f, d_files d !! meta_name = Some f -> json_meta_error (f_data f) = None;
  dv_ckpt : forall k f, (k < length segs)%nat ->
    d_files d !! checkpoint_name (Z.of_nat k + 1) = Some f ->
    exists p q ix, segs !! k = Some (p ++ q) /\
      f_data f = checkpoint_bytes ix (Z.of_nat k + 1) /\ di_entries ix <> [] /\
      index_ok ix (log_ops 1 (take k segs) ++ seg_ops (Z.of_nat k + 1) kHeaderSize p)
}.

#[global] Arguments dv_tape {file} d segs _.
#[global] Arguments dv_kind {file} d segs _.
#[global] Arguments dv_count {file} d segs _.
#[global] Arguments dv_cmds {file} d segs _.
#[global] Arguments dv_segs {file} d segs _.
#[global] Arguments dv_names {file} d segs _.
#[global] Arguments dv_meta {file} d segs _.
#[global] Arguments dv_ckpt {file} d segs _.

(** After a flush every file is complete. *)
Definition exact_file (k : nat) (cs : list Cmd) (data : bytes) : Prop :=
  data = seg_file (Z.of_nat k + 1) cs.
Notation disk_inv := (disk_files exact_file).

(** Memory and disk, without the index: [closed] are the commands of the full
    segments, [fl] those in the file of the active one, [bf] those in the
    write buffer. *)
Record wal_inv (w : Wal) (closed : list (list Cmd)) (fl bf : list Cmd) : Prop := {
  wv_disk : disk_inv (wal_disk w) (closed ++ [fl]);
  wv_open : sg_open (active_segment_ w) = true;
  wv_id : sg_id (active_segment_ w) = Z.of_nat (length closed) + 1;
  wv_end : sg_end_offset (active_segment_ w) = 16 + enc_len fl;
  wv_buf : write_buf_ w = enc bf;
  wv_bf : Forall cmd_ok bf;
  wv_size : seg_size_ok (fl ++ bf);
  wv_formats : forall k, (k <= length closed)%nat ->
    segment_format_versions_ w !! (Z.of_nat k + 1) = Some kFormatVersionProtobuf;
  wv_cached : forall id, cached_segment_ w = Some id ->
    exists k, (k <= length closed)%nat /\ id = Z.of_nat k + 1
}.

Definition wal_ok (w : Wal) (closed : list (list Cmd)) (fl bf : list Cmd) : Prop :=
  wal_inv w closed fl bf /\ index_ok (wal_index_ w) (log_ops 1 (closed ++ [fl ++ bf])).

(** ** Pieces *)

Lemma length_segment_header id fmt : length (segment_header id fmt) = 16%nat.
Proof. unfold segment_header. by rewrite !length_app, !length_le. Qed.

Lemma log_ops_app id segs segs' :
  log_ops id (segs ++ segs') = log_ops id segs ++ log_ops (id + Z.of_nat (length segs)) segs'.
Proof.
  revert id. induction segs as [|cs segs IH]; intros id; simpl; [f_equal; lia|].
  rewrite IH, <- app_assoc. do 3 f_equal. lia.
Qed.

Lemma cmd_op_tidy id off c :
  is_u64 id -> is_u64 off -> cmd_ok c -> op_tidy (cmd_op id off c).
Proof.
  intros Hid Hoff [Hok Hl]. destruct c as [e| |]; simpl; [|done..].
  destruct Hok as [(?&?&?) _]. split; [done|]. split_and!; [done..|].
  unfold rec_len, is_u64, UINT64_MAX, kMaxRecordSize in *. simpl. simpl in Hl. lia.
Qed.

Lemma seg_ops_tidy id off cs :
  is_u64 id -> 0 <= off -> off + enc_len cs <= UINT64_MAX -> Forall cmd_ok cs ->
  Forall op_tidy (seg_ops id off cs).
Proof.
  intros Hid H0 Hlen Hok. revert off H0 Hlen. induction Hok as [|c cs Hc Hok IH];
    intros off H0 Hlen; simpl; constructor.
  - apply cmd_op_tidy; [done| |done]. pose proof (enc_len_nonneg (c :: cs)). split; [done|].
    simpl in *. lia.
  - change (c :: cs) with ([c] ++ cs) in Hlen. rewrite enc_len_app, enc_len_one in Hlen.
    pose proof (rec_len_pos (cmd_record c)). apply IH; lia.
Qed.

Lemma seg_size_u64 cs : seg_size_ok cs -> is_u64 (16 + enc_len cs).
Proof.
  unfold seg_size_ok, is_u64, UINT64_MAX, kMaxSegmentSize, kMaxRecordSize.
  pose proof (enc_len_nonneg cs). lia.
Qed.

Lemma log_ops_ok id segs :
  0 < id -> id + Z.of_nat (length segs) <= UINT64_MAX + 1 ->
  Forall (fun cs => Forall cmd_ok cs /\ seg_size_ok cs) segs ->
  Forall op_ok (log_ops id segs) /\ Forall op_tidy (log_ops id segs).
Proof.
  intros Hid Hl Hok. revert id Hid Hl. induction Hok as [|cs segs [Hc Hs] _ IH];
    intros id Hid Hl; simpl in *; [done|].
  destruct (IH (id + 1)) as [H1 H2]; [lia..|]. rewrite !Forall_app.
  pose proof (seg_size_u64 cs Hs) as [??].
  split; split; try done.
  - apply seg_ops_ok; [lia|done].
  - unfold kHeaderSize. apply seg_ops_tidy; [split|..]; try lia; done.
Qed.

(** ** Opening a segment *)

(** The file of segment [id] starts with its header. *)
Definition has_header (w : Wal) (id : Z) : Prop :=
  is_Some (wfiles w !! segment_name id) /\
  exists rest, contents (segment_name id) w = segment_header id kFormatVersionProtobuf ++ rest.

Lemma OpenSegment_ok w id :
  no_faults w -> is_u64 id -> has_header w id ->
  OpenSegment id w = (StOK, w <| segment_format_versions_ ::= <[id := kFormatVersionProtobuf]> |>).
Proof.
  intros Hnf Hid [Hex [rest Hc]]. unfold OpenSegment.
  rewrite st_bind, st_reads. cbn [fst snd]. rewrite st_bind, run_open_file by done. cbn [fst snd].
  rewrite bool_decide_true by done. cbn [negb].
  rewrite st_bind, (read_piece _ _ _ _ [] (segment_header id kFormatVersionProtobuf) rest) by done.
  cbn [fst snd].
  assert (Hm : le_val (take 4 (segment_header id kFormatVersionProtobuf)) = kMagic) by done.
  assert (Hv : le_val (take 2 (drop 4 (segment_header id kFormatVersionProtobuf))) = kVersion) by done.
  assert (Hf : le_val (take 2 (drop 6 (segment_header id kFormatVersionProtobuf)))
               = kFormatVersionProtobuf) by done.
  assert (Hi : le_val (take 8 (drop 8 (segment_header id kFormatVersionProtobuf))) = id).
  { change (drop 8 _) with (le 8 id). rewrite take_ge by (rewrite length_le; lia). by apply le64. }
  rewrite Hm, Hv, Hf, Hi. rewrite !decide_False by (intros Hn; by apply Hn). by st.
Qed.

Lemma GetCachedSegmentFd_ok w id :
  no_faults w -> is_u64 id -> has_header w id ->
  segment_format_versions_ w !! id = Some kFormatVersionProtobuf ->
  GetCachedSegmentFd id w = (StOK, w <| cached_segment_ := Some id |>).
Proof.
  intros Hnf Hid Hh Hf. unfold GetCachedSegmentFd. st. case_decide as Hc.
  { rewrite <- Hc. by destruct w. }
  st. unfold ensure. st.
  rewrite OpenSegment_ok by done. st. f_equal. destruct w; simpl in *.
  unfold set; simpl. by rewrite insert_id.
Qed.

(** ** Trailers *)

Lemma ReadTrailer_ok w id A n :
  no_faults w -> contents (segment_name id) w = A ++ le 8 n -> is_u64 n ->
  (16 <= length A)%nat -> n <= Z.of_nat (length A) ->
  ReadTrailer id w = (inr n, w).
Proof.
  intros Hnf Hc Hn HA Hle. unfold ReadTrailer. st.
  rewrite Hc, length_app, length_le. unfold kHeaderSize, kTrailerSize.
  rewrite decide_False by lia. st.
  rewrite (read_piece _ _ _ _ A (le 8 n) []) by (rewrite ?app_nil_r; done || lia). st.
  rewrite le64, decide_False by (done || lia). done.
Qed.

Lemma ReadTrailer_short w id :
  Z.of_nat (length (contents (segment_name id) w)) < 24 ->
  exists s, ReadTrailer id w = (inl s, w).
Proof.
  intros H1. unfold ReadTrailer. st. unfold kHeaderSize, kTrailerSize.
  rewrite decide_True by lia. by eexists.
Qed.

Lemma ReadTrailer_seg_file w id cs :
  no_faults w -> contents (segment_name id) w = seg_file id cs -> seg_size_ok cs ->
  match cs with
  | [] => exists s, ReadTrailer id w = (inl s, w)
  | _ => ReadTrailer id w = (inr (16 + enc_len cs), w)
  end.
Proof.
  intros Hnf Hc Hs. destruct cs as [|c cs].
  - apply ReadTrailer_short. rewrite Hc. unfold seg_file.
    rewrite !length_app, length_segment_header. simpl. lia.
  - apply (ReadTrailer_ok w id (segment_header id kFormatVersionProtobuf ++ enc (c :: cs))).
    + done.
    + rewrite Hc. unfold seg_file. by rewrite <- app_assoc.
    + by apply seg_size_u64.
    + rewrite length_app, length_segment_header. lia.
    + rewrite length_app, length_segment_header. unfold enc_len. lia.
Qed.

Lemma seg_file_header w id cs :
  is_Some (wfiles w !! segment_name id) ->
  contents (segment_name id) w = seg_file id cs -> has_header w id.
Proof. intros Hex Hc. split; [done|]. rewrite Hc. by eexists. Qed.

Context {LAWS : WalLaws}.

Lemma ScanSegment_ok w id cs :
  no_faults w -> is_u64 id -> is_Some (wfiles w !! segment_name id) ->
  contents (segment_name id) w = seg_file id cs ->
  Forall cmd_ok cs -> seg_size_ok cs ->
  segment_format_versions_ w !! id = Some kFormatVersionProtobuf ->
  ScanSegment id None [] w =
    (mkScanResult StOK None [],
     w <| cached_segment_ := Some id |>
       <| wal_index_ ::= fun ix => foldl index_op ix (seg_ops id kHeaderSize cs) |>).
Proof.
  intros Hnf Hid Hex Hc Hok Hs Hf. unfold ScanSegment.
  rewrite st_bind, GetCachedSegmentFd_ok by (eauto using seg_file_header). cbn [fst snd status_ok negb].
  set (w1 := w <| cached_segment_ := Some id |>).
  assert (Hc1 : contents (segment_name id) w1 = seg_file id cs) by done.
  pose proof (ReadTrailer_seg_file w1 id cs Hnf Hc1 Hs) as Ht.
  assert (Hfmt : segment_format id w1 = kFormatVersionProtobuf)
    by (unfold segment_format, w1; proj_simp; by rewrite Hf).
  destruct cs as [|c cs].
  - destruct Ht as [s Ht]. rewrite st_bind, Ht. cbn [fst snd]. st. rewrite Hc1.
    unfold seg_file. rewrite !length_app, length_segment_header. simpl.
    by unfold kHeaderSize.
  - rewrite st_bind, Ht. cbn [fst snd]. st. rewrite Hfmt, Hc1.
    apply (scan_loop_ok id w1 (segment_header id kFormatVersionProtobuf) (c :: cs)
             (le 8 (16 + enc_len (c :: cs)))); try done.
    pose proof (enc_len_nonneg (c :: cs)). unfold enc_len in *.
    unfold seg_file. rewrite !length_app, length_segment_header. simpl in *. lia.
Qed.

(** ** Opening all segments *)

(** The operations of the segments that are scanned. *)
Fixpoint scan_ops (covered id : Z) (segs : list (list Cmd)) : list IndexOp :=
  match segs with
  | [] => []
  | cs :: rest =>
      (if decide (id < covered) then [] else seg_ops id kHeaderSize cs) ++
      scan_ops covered (id + 1) rest
  end.

Lemma scan_ops_all covered id segs : covered <= id -> scan_ops covered id segs = log_ops id segs.
Proof.
  revert id. induction segs as [|cs segs IH]; intros id Hid; simpl; [done|].
  rewrite decide_False, IH by lia. done.
Qed.

Lemma scan_ops_drop k id segs :
  (k <= length segs)%nat ->
  scan_ops (id + Z.of_nat k) id segs = log_ops (id + Z.of_nat k) (drop k segs).
Proof.
  revert k id. induction segs as [|cs segs IH]; intros k id Hk; [by destruct k|].
  destruct k as [|k].
  - rewrite Z.add_0_r, scan_ops_all by lia. done.
  - simpl in *. rewrite decide_True by lia. simpl.
    replace (id + Z.of_nat (S k)) with (id + 1 + Z.of_nat k) by lia. apply IH. lia.
Qed.

Record opened (w w' : Wal) (ids : list Z) : Prop := {
  op_disk : wal_disk w' = wal_disk w;
  op_dir : wal_dir_ w' = wal_dir_ w;
  op_active : active_segment_ w' = active_segment_ w;
  op_buf : write_buf_ w' = write_buf_ w;
  op_new : forall id, id ∈ ids -> segment_format_versions_ w' !! id = Some kFormatVersionProtobuf;
  op_old : forall id, segment_format_versions_ w !! id = Some kFormatVersionProtobuf ->
    segment_format_versions_ w' !! id = Some kFormatVersionProtobuf;
  op_cached : cached_segment_ w' = cached_segment_ w \/
    exists id, id ∈ ids /\ cached_segment_ w' = Some id
}.

Lemma opened_refl w : opened w w [].
Proof. split; try done; [by intros id ?%elem_of_nil|by left]. Qed.

Lemma opened_cons w w1 w2 id ids : opened w w1 [id] -> opened w1 w2 ids -> opened w w2 (id :: ids).
Proof.
  intros [a1 b1 c1 d1 e1 f1 g1] [a2 b2 c2 d2 e2 f2 g2]. split; try congruence.
  - intros i [->|Hi]%elem_of_cons; [|auto]. apply f2, e1. by left.
  - auto.
  - destruct g2 as [g2|(i & Hi & g2)]; [|right; exists i; split; [by right|done]].
    rewrite g2. destruct g1 as [g1|(i & Hi & g1)]; [by left|].
    right. exists i. split; [set_solver|done].
Qed.

Lemma open_one_ok w covered id cs :
  no_faults w -> is_u64 id -> is_Some (wfiles w !! segment_name id) ->
  contents (segment_name id) w = seg_file id cs ->
  Forall cmd_ok cs -> seg_size_ok cs ->
  exists w', open_one covered id w = (StOK, w') /\ opened w w' [id] /\
    wal_index_ w' = foldl index_op (wal_index_ w)
      (if decide (id < covered) then [] else seg_ops id kHeaderSize cs).
Proof.
  intros Hnf Hid Hex Hc Hok Hs. pose proof (seg_file_header w id cs Hex Hc) as Hh.
  unfold open_one. case_decide.
  - rewrite OpenSegment_ok by done. eexists. split; [done|]. split; [|done].
    split; try done; proj_simp.
    + intros i ->%list_elem_of_singleton. by rewrite lookup_insert_eq.
    + intros i Hi. rewrite lookup_insert. by case_decide.
    + by left.
  - unfold ensure. rewrite st_bind, OpenSegment_ok by done. cbn [fst snd status_ok].
    rewrite st_bind, (ScanSegment_ok _ id cs)
      by (try done; proj_simp; by rewrite lookup_insert_eq).
    cbn [fst snd sc_status status_ok]. rewrite st_ret. eexists. split; [done|]. split; [|done].
    split; try done; proj_simp.
    + intros i ->%list_elem_of_singleton. by rewrite lookup_insert_eq.
    + intros i Hi. rewrite lookup_insert. by case_decide.
    + right. exists id. split; [by left|done].
Qed.

Lemma open_segments_ok w covered id segs :
  no_faults w -> 0 < id -> id + Z.of_nat (length segs) <= UINT64_MAX + 1 ->
  Forall (fun cs => Forall cmd_ok cs /\ seg_size_ok cs) segs ->
  (forall k cs, segs !! k = Some cs ->
    is_Some (wfiles w !! segment_name (id + Z.of_nat k)) /\
    contents (segment_name (id + Z.of_nat k)) w = seg_file (id + Z.of_nat k) cs) ->
  exists w', open_segments covered (seqZ id (Z.of_nat (length segs))) w = (StOK, w') /\
    opened w w' (seqZ id (Z.of_nat (length segs))) /\
    wal_index_ w' = foldl index_op (wal_index_ w) (scan_ops covered id segs).
Proof.
  intros Hnf Hid Hl Hok Hf. revert w id Hnf Hid Hl Hf.
  induction Hok as [|cs segs [Hc Hs] _ IH]; intros w id Hnf Hid Hl Hf.
  { exists w. split; [done|]. split; [apply opened_refl|done]. }
  cbn [length] in *. rewrite seqZ_cons by lia. rewrite Nat2Z.inj_succ, Z.pred_succ.
  destruct (Hf 0%nat cs eq_refl) as [Hex Hcont]. rewrite Z.add_0_r in Hex, Hcont.
  destruct (open_one_ok w covered id cs) as (w1 & R1 & O1 & I1); try done; [split; lia|].
  pose proof (op_disk _ _ _ O1) as D1.
  destruct (IH w1 (Z.succ id)) as (w2 & R2 & O2 & I2); [by unfold no_faults; rewrite D1|lia..| |].
  { intros k cs' Hk. destruct (Hf (S k) cs' Hk) as [Hex' Hc'].
    replace (id + Z.of_nat (S k)) with (Z.succ id + Z.of_nat k) in Hex', Hc' by lia.
    unfold wfiles, contents, disk_of in *. simpl in *. by rewrite D1. }
  exists w2. split_and!.
  - cbn [open_segments]. unfold ensure. rewrite st_bind, R1. cbn [fst snd status_ok]. apply R2.
  - by eapply opened_cons.
  - rewrite I2, I1. cbn [scan_ops]. by rewrite foldl_app.
Qed.

(** ** Checkpoints are read back *)

Lemma length_index_entry e : length (encode_index_entry e) = 24%nat.
Proof. unfold encode_index_entry. by rewrite !length_app, !length_le. Qed.

Lemma decode_encode_index_entry e rest :
  ie_ok e -> decode_index_entry (encode_index_entry e ++ rest) = e.
Proof.
  intros (H1 & H2 & H3). unfold decode_index_entry, encode_index_entry. rewrite <- !app_assoc.
  rewrite (take_app_length' (le 8 _)), (drop_app_length' (le 8 (wi_segment_id e)) _ 8),
    (take_app_length' (le 8 _)) by (by rewrite length_le).
  change 16%nat with (8 + 8)%nat. rewrite <- drop_drop.
  rewrite (drop_app_length' (le 8 (wi_segment_id e)) _ 8),
    (drop_app_length' (le 8 (wi_file_offset e)) _ 8),
    (take_app_length' (le 8 _)) by (by rewrite length_le).
  rewrite !le64 by done. by destruct e.
Qed.

(** Appending behind the last slot. *)
Lemma Put_next first es e :
  es <> [] -> 0 <= first -> first + Z.of_nat (length es) < UINT64_MAX ->
  Put (first + Z.of_nat (length es)) e (mkDenseIndex first es) = mkDenseIndex first (es ++ [e]).
Proof.
  intros Hne H0 Hl. unfold Put, Empty. simpl. rewrite bool_decide_false by done.
  rewrite decide_False by lia. simpl.
  rewrite LastIndex_eq by (done || split; unfold Size; simpl; lia).
  unfold Size. simpl. rewrite decide_True by lia. f_equal.
  replace (first + Z.of_nat (length es) - (first + Z.of_nat (length es) - 1)) with 1 by lia.
  replace (Z.to_nat (first + Z.of_nat (length es) - first)) with (length es) by lia. simpl.
  change (length es) with (0 + length es)%nat at 1. rewrite Nat.add_comm. by rewrite insert_app_r.
Qed.

Lemma load_entries_ok todo es first i rest :
  es <> [] -> 0 <= first -> i = Z.of_nat (length es) ->
  first + Z.of_nat (length es) + Z.of_nat (length todo) <= 4294967296 ->
  Forall ie_ok todo ->
  load_entries (length todo) first i (concat (map encode_index_entry todo) ++ rest)
      (mkDenseIndex first es) = mkDenseIndex first (es ++ todo).
Proof.
  intros Hne H0 -> Hl Hok. revert es Hne Hl. induction Hok as [|e todo He Hok IH]; intros es Hne Hl.
  { simpl. by rewrite app_nil_r. }
  cbn [length map concat load_entries] in *. rewrite <- app_assoc.
  rewrite decode_encode_index_entry, (drop_app_length' (encode_index_entry e) _ 24)
    by (done || by rewrite length_index_entry).
  rewrite u64_small by (unfold is_u64, UINT64_MAX; lia).
  rewrite Put_next by (done || unfold UINT64_MAX; lia).
  replace (Z.of_nat (length es) + 1) with (Z.of_nat (length (es ++ [e])))
    by (rewrite length_app; simpl; lia).
  rewrite IH; [by rewrite <- app_assoc|by destruct es|rewrite length_app; simpl; lia].
Qed.

Lemma load_entries_all ix rest :
  di_entries ix <> [] -> 0 <= di_first ix -> index_tidy ix ->
  load_entries (length (di_entries ix)) (di_first ix) 0
    (concat (map encode_index_entry (di_entries ix)) ++ rest) IndexClear = ix.
Proof.
  destruct ix as [first [|e es]]; [done|]. intros _ H0 [Hs Hok]. unfold Size in Hs.
  cbn [length map concat load_entries di_first di_entries] in *.
  apply Forall_cons_1 in Hok as [He Hok]. rewrite <- app_assoc.
  rewrite decode_encode_index_entry, (drop_app_length' (encode_index_entry e) _ 24)
    by (done || by rewrite length_index_entry).
  rewrite Z.add_0_r, u64_small by (unfold is_u64, UINT64_MAX; lia).
  change (Put first e IndexClear) with (mkDenseIndex first [e]).
  rewrite load_entries_ok; try done. simpl. lia.
Qed.

Lemma length_concat_index es :
  length (concat (map encode_index_entry es)) = (24 * length es)%nat.
Proof. induction es; cbn [map concat]; rewrite ?length_app, ?length_index_entry; simpl; lia. Qed.

Lemma parse_checkpoint_ok ix id :
  di_entries ix <> [] -> 0 <= di_first ix -> index_tidy ix -> is_u64 id ->
  parse_checkpoint (checkpoint_bytes ix id) = inr (ix, id).
Proof.
  intros Hne H0 Ht Hid. unfold checkpoint_bytes, checkpoint_body. destruct Ht as [Hs Hok].
  set (H1 := le 4 kCheckpointMagic ++ le 2 kCheckpointVersion ++ le 2 0).
  set (F := le 8 (FirstIndex ix)). set (L := le 8 (LastIndex ix)). set (N := le 8 (Size ix)).
  set (I := le 8 id). set (B := concat (map encode_index_entry (di_entries ix))).
  set (body := (le 4 kCheckpointMagic ++ _) ++ B). set (crc := le 4 (ComputeCRC32 body)).
  assert (LB : length body = (40 + 24 * length (di_entries ix))%nat).
  { unfold body, F, L, N, I, B. rewrite !length_app, !length_le, length_concat_index. lia. }
  assert (Lc : length crc = 4%nat) by apply length_le.
  assert (HF : take 8 (drop 8 (body ++ crc)) = F).
  { unfold body. rewrite <- !app_assoc. apply (take_app_length' F). unfold F. by rewrite length_le. }
  assert (HN : take 8 (drop 24 (body ++ crc)) = N).
  { unfold body. rewrite <- !app_assoc. apply (take_app_length' N). unfold N. by rewrite length_le. }
  assert (HI : take 8 (drop 32 (body ++ crc)) = I).
  { unfold body. rewrite <- !app_assoc. apply (take_app_length' I). unfold I. by rewrite length_le. }
  assert (HB : drop 40 (body ++ crc) = B ++ crc).
  { unfold body. rewrite <- !app_assoc. done. }
  unfold parse_checkpoint. rewrite HF, HN, HI, HB.
  change (le_val (take 4 (body ++ crc))) with kCheckpointMagic.
  change (le_val (take 2 (drop 4 (body ++ crc)))) with kCheckpointVersion.
  unfold N. rewrite (le64 (Size ix)) by (unfold is_u64, UINT64_MAX, Size in *; lia).
  rewrite length_app, LB, Lc. unfold Size in *.
  unfold kCheckpointHeaderSize, kCheckpointIndexEntrySize, kCheckpointFooterSize.
  rewrite u64_small by (unfold is_u64, UINT64_MAX; lia).
  rewrite !decide_False by (intros Hn; apply Hn; done || lia).
  replace (_ - 4)%nat with (length body) by lia.
  rewrite take_app_length, drop_app_length, take_ge by lia.
  unfold crc. rewrite le32 by apply u32_ComputeCRC32.
  rewrite decide_False by (intros Hn; by apply Hn).
  rewrite Nat2Z.id. unfold F, FirstIndex, I. rewrite !le64 by (done || unfold is_u64, UINT64_MAX; lia).
  unfold B. by rewrite load_entries_all.
Qed.

End inv.

Notation disk_inv := (disk_files exact_file).
