(* ===== verification/WalOpen.v ===== *)
(** * Recovery of the write-ahead log

    [Open] on a disk that satisfies the invariant rebuilds the index of all
    commands on it, from the segments alone or from any checkpoint and the
    segments behind it. *)

From Stdlib Require Import Ascii.
From stdpp Require Import sorting.
From S2P Require Import Prelude Types Bytes DenseIndex Disk RaftLog Quorum RaftGroup Timers Replicate Membership Text Wal WalScan WalInv.
Import DenseIndexOps.

(** ** Sorted ranges *)

Lemma StronglySorted_seqZ a n : StronglySorted Z.le (seqZ a n).
Proof.
  destruct (decide (0 <= n)) as [Hn|Hn]; [|rewrite seqZ_nil by lia; constructor].
  revert a. pattern n. apply natlike_ind; [|intros m Hm IH|done]; intros a; [constructor|].
  rewrite seqZ_cons by lia. rewrite Z.pred_succ. constructor; [apply IH|].
  apply list.Forall_forall. intros x Hx%elem_of_seqZ. lia.
Qed.

Lemma sort_ids_seqZ l a n : l ≡ₚ seqZ a n -> sort_ids l = seqZ a n.
Proof.
  intros Hp. apply (Sorted_unique Z.le).
  - apply Sorted_merge_sort. intros x y. lia.
  - apply StronglySorted_Sorted, StronglySorted_seqZ.
  - unfold sort_ids. by rewrite merge_sort_Permutation.
Qed.

Lemma NoDup_omap_inj {A B} (f : A -> option B) l :
  NoDup l -> (forall x y z, x ∈ l -> y ∈ l -> f x = Some z -> f y = Some z -> x = y) ->
  NoDup (omap f l).
Proof.
  induction 1 as [|x l Hx Hl IH]; intros Hi; simpl; [constructor|].
  assert (NoDup (omap f l)) by (apply IH; intros; eapply Hi; eauto; by right).
  destruct (f x) as [z|] eqn:E; [|done]. constructor; [|done].
  intros (y & Hy & Hf)%list_elem_of_omap. assert (x = y) as -> by (eapply Hi; eauto; by constructor).
  done.
Qed.

Section open.
Context {LIB : WalLib} {LAWS : WalLaws}.

Section disk.
Context {file : nat -> list Cmd -> bytes -> Prop} (w : Wal) (segs : list (list Cmd)).
Context (D : disk_files file (wal_disk w) segs).

Lemma disk_no_faults : no_faults w.
Proof. apply D. Qed.

Lemma seg_id_u64 k : (k < length segs)%nat -> is_u64 (Z.of_nat k + 1).
Proof. intros Hk. pose proof (dv_count _ _ D). split; lia. Qed.

(** ** The segments of the directory *)

Lemma segment_of_disk_name name id :
  is_Some (wfiles w !! name) -> segment_of_name name = Some id ->
  name = segment_name id /\ 1 <= id < 1 + Z.of_nat (length segs).
Proof.
  intros Hex Hs. destruct (dv_names _ _ D name Hex) as [->|(k & Hk & [->| ->])].
  - done.
  - rewrite segment_of_segment_name in Hs by by apply seg_id_u64. simplify_eq. split; [done|lia].
  - by rewrite segment_of_checkpoint_name in Hs.
Qed.

Lemma list_segments_ok :
  exists l, list_segments w = (l, w) /\ sort_ids l = seqZ 1 (Z.of_nat (length segs)).
Proof.
  pose proof disk_no_faults as Hnf. unfold list_segments. st. simpl.
  eexists. split; [done|]. apply sort_ids_seqZ.
  apply NoDup_Permutation; [|apply NoDup_seqZ|].
  - apply NoDup_omap_inj; [apply NoDup_elements|].
    intros x y z Hx Hy Hfx Hfy. rewrite elem_of_elements, elem_of_dom in Hx, Hy.
    apply segment_of_disk_name in Hfx as [-> _]; [|done].
    by apply segment_of_disk_name in Hfy as [-> _].
  - intros id. rewrite list_elem_of_omap, elem_of_seqZ. split.
    + intros (name & Hn & Hs). rewrite elem_of_elements, elem_of_dom in Hn.
      by apply segment_of_disk_name in Hs as [_ ?].
    + intros Hid. set (k := Z.to_nat (id - 1)). assert (Hk : (k < length segs)%nat) by lia.
      destruct (lookup_lt_is_Some_2 segs k Hk) as [cs Hcs].
      destruct (dv_segs _ _ D k cs Hcs) as (f & Hf & _).
      exists (segment_name (Z.of_nat k + 1)). rewrite elem_of_elements, elem_of_dom.
      split; [by eexists|]. rewrite segment_of_segment_name by by apply seg_id_u64.
      f_equal. lia.
Qed.

(** ** The checkpoint that is loaded *)

Lemma best_checkpoint_ok files best :
  Forall (fun name => is_checkpoint_name name = true /\ is_Some (wfiles w !! name)) files ->
  (forall name id, best = Some (name, id) -> exists k, (k < length segs)%nat /\
     name = checkpoint_name (Z.of_nat k + 1) /\ is_Some (wfiles w !! name)) ->
  exists best', best_checkpoint files best w = (best', w) /\
    forall name id, best' = Some (name, id) -> exists k, (k < length segs)%nat /\
     name = checkpoint_name (Z.of_nat k + 1) /\ is_Some (wfiles w !! name).
Proof.
  intros HF. revert best. induction HF as [|name files [Hn Hex] HF IH]; intros best Hb; [by eexists|].
  simpl. destruct (checkpoint_of_name name) as [id|] eqn:E; [|by apply IH].
  unfold exists_file. st. destruct (_ && _); [|by apply IH]. apply IH.
  intros ? ? [= <- <-]. destruct (dv_names _ _ D name Hex) as [->|(k & Hk & [->| ->])].
  - done.
  - by rewrite is_checkpoint_segment_name in Hn by lia.
  - by exists k.
Qed.

(** The index after loading is that of the commands before some point, and
    the scan starts at or before the segment of that point. *)
Lemma LoadLatestCheckpoint_ok :
  wal_index_ w = IndexClear ->
  exists r w', LoadLatestCheckpointLocked w = (r, w') /\
    w' = w <| wal_index_ := wal_index_ w' |> /\
    ((r = inr 0 /\ wal_index_ w' = IndexClear) \/
     exists k p q, (k < length segs)%nat /\ r = inr (Z.of_nat k + 1) /\ segs !! k = Some (p ++ q) /\
       index_ok (wal_index_ w') (log_ops 1 (take k segs) ++ seg_ops (Z.of_nat k + 1) kHeaderSize p)).
Proof.
  intros Hix. pose proof disk_no_faults as Hnf.
  unfold LoadLatestCheckpointLocked, ListCheckpointFilesLocked. st. cbn [default from_option id].
  destruct (best_checkpoint_ok
    (filter (fun n => is_checkpoint_name n = true) (elements (dom (wfiles w)))) None)
    as (best & -> & Hb); [|done|].
  { apply list.Forall_forall. intros n [Hn Hd]%list_elem_of_filter.
    by rewrite elem_of_elements, elem_of_dom in Hd. }
  cbn [fst snd]. destruct best as [[name id]|].
  2:{ eexists _, w. split; [done|]. split; [by destruct w|]. by left. }
  destruct (Hb name id eq_refl) as (k & Hk & -> & f & Hf).
  destruct (dv_ckpt _ _ D k f Hk Hf) as (p & q & ix & Hseg & Hdata & Hne & Hok).
  assert (Hc : contents (checkpoint_name (Z.of_nat k + 1)) w = checkpoint_bytes ix (Z.of_nat k + 1)).
  { rewrite contents_wfiles, Hf. simpl. done. }
  assert (Hlen : (44 <= length (checkpoint_bytes ix (Z.of_nat k + 1)))%nat).
  { unfold checkpoint_bytes, checkpoint_body. rewrite !length_app, !length_le. lia. }
  st. rewrite bool_decide_true by (by eexists). cbn [negb]. st. cbn [negb]. st. rewrite Hc.
  unfold kCheckpointHeaderSize, kCheckpointFooterSize. rewrite decide_False by lia. st.
  rewrite (read_piece _ _ _ _ [] (checkpoint_bytes ix (Z.of_nat k + 1)) [])
    by (rewrite ?app_nil_r, ?Hc; done || lia). st.
  rewrite parse_checkpoint_ok; [|done| | |by apply seg_id_u64].
  - st. eexists _, _. split; [done|]. split; [by destruct w|]. right.
    exists k, p, q. by proj_simp.
  - apply Hok.
  - apply Hok.
Qed.

End disk.

(** ** Open *)

Definition fresh_memory (w : Wal) : Prop :=
  wal_index_ w = IndexClear /\ cached_segment_ w = None /\ write_buf_ w = [].

(** Loading a checkpoint and scanning from it, or scanning everything, gives
    the index of all commands. *)
Lemma recovered_index segs ix covered :
  Z.of_nat (length segs) <= UINT64_MAX ->
  Forall (fun cs => Forall cmd_ok cs /\ seg_size_ok cs) segs ->
  ((covered = 0 /\ ix = IndexClear) \/
   exists k p q, (k < length segs)%nat /\ covered = Z.of_nat k + 1 /\ segs !! k = Some (p ++ q) /\
     index_ok ix (log_ops 1 (take k segs) ++ seg_ops (Z.of_nat k + 1) kHeaderSize p)) ->
  index_ok (foldl index_op ix (scan_ops covered 1 segs)) (log_ops 1 segs).
Proof.
  intros Hl Hok [[-> ->]|(k & p & q & Hk & -> & Hseg & Hix)].
  - rewrite scan_ops_all by lia. destruct (log_ops_ok 1 segs) as [H1 H2]; [lia..|done|].
    by apply (index_ok_app IndexClear []), index_ok_nil.
  - rewrite Z.add_comm, scan_ops_drop by lia.
    rewrite (drop_S segs (p ++ q) k Hseg). cbn [log_ops].
    rewrite seg_ops_app, <- app_assoc, (Z.add_comm 1).
    rewrite <- (take_drop k segs) at 2. rewrite log_ops_app, length_take, Nat.min_l by lia.
    rewrite (drop_S segs (p ++ q) k Hseg). cbn [log_ops].
    rewrite seg_ops_app, <- app_assoc, (Z.add_comm 1).
    assert (Hd : Forall (fun cs => Forall cmd_ok cs /\ seg_size_ok cs) (drop k segs))
      by by apply Forall_drop.
    destruct (log_ops_ok (Z.of_nat k + 1) (drop k segs)) as [H1 H2];
      [lia|rewrite length_drop; lia|done|].
    rewrite (drop_S segs (p ++ q) k Hseg) in H1, H2. cbn [log_ops] in H1, H2.
    rewrite seg_ops_app, <- app_assoc in H1, H2.
    by apply index_ok_replay.
Qed.

Lemma contents_disk w w' name : wal_disk w' = wal_disk w -> contents name w' = contents name w.
Proof. intros H. unfold contents, disk_of. simpl. by rewrite H. Qed.

Lemma seg_contents w segs k cs :
  disk_inv (wal_disk w) segs -> segs !! k = Some cs ->
  is_Some (wfiles w !! segment_name (Z.of_nat k + 1)) /\
  contents (segment_name (Z.of_nat k + 1)) w = seg_file (Z.of_nat k + 1) cs.
Proof.
  intros D Hk. destruct (dv_segs _ _ D k cs Hk) as (f & Hf & Hd).
  split; [by eexists|]. rewrite contents_wfiles. unfold wfiles. by rewrite Hf.
Qed.

Lemma open_active_ok w closed fl :
  disk_inv (wal_disk w) (closed ++ [fl]) ->
  (forall k, (k <= length closed)%nat ->
    segment_format_versions_ w !! (Z.of_nat k + 1) = Some kFormatVersionProtobuf) ->
  (forall id, cached_segment_ w = Some id -> exists k, (k <= length closed)%nat /\ id = Z.of_nat k + 1) ->
  write_buf_ w = [] ->
  exists w', open_active (Z.of_nat (length closed) + 1) w = (StOK, w') /\
    wal_disk w' = wal_disk w /\ wal_index_ w' = wal_index_ w /\ wal_inv w' closed fl [].
Proof.
  intros D Hfmt Hcache Hbuf. set (n := length closed) in *. set (id := Z.of_nat n + 1).
  assert (Hk : (closed ++ [fl]) !! n = Some fl) by by rewrite list_lookup_middle.
  assert (Hid : is_u64 id).
  { apply (seg_id_u64 w _ D). rewrite length_app. simpl. lia. }
  destruct (seg_contents w _ n fl D Hk) as [Hex Hc]. fold id in Hex, Hc.
  pose proof (dv_tape _ _ D) as Hnf.
  pose proof (dv_cmds _ _ D) as Hcs. rewrite list.Forall_forall in Hcs.
  destruct (Hcs fl) as [Hok Hsize]; [by apply list_elem_of_lookup_2 in Hk|].
  pose proof (seg_file_header w id fl Hex Hc) as Hh.
  unfold open_active. unfold ensure. wst. rewrite OpenSegment_ok by done. wst.
  set (w1 := w <| segment_format_versions_ ::= _ |>).
  set (w2 := w1 <| active_segment_ ::= _ |>).
  assert (Hf2 : segment_format id w1 = kFormatVersionProtobuf)
    by (unfold segment_format, w1; proj_simp; by rewrite lookup_insert_eq).
  assert (Ht : match ReadTrailer id w2 with
               | (inr e, w') => e = 16 + enc_len fl /\ w' = w2
               | (inl s, w') => fl = [] /\ w' = w2 end).
  { pose proof (ReadTrailer_seg_file w2 id fl Hnf Hc Hsize) as Ht.
    destruct fl; [by destruct Ht as [s ->]|by rewrite Ht]. }
  destruct (ReadTrailer id w2) as [[s|e] w3]; destruct Ht as [He ->]; cbn [fst snd].
  - change (contents (segment_name id) w2) with (contents (segment_name id) w).
    subst fl. rewrite Hc. change (length (seg_file id [])) with 16%nat.
    rewrite decide_True by done. st.
    eexists. split; [done|]. split; [done|]. split; [done|].
    split; try done; proj_simp; rewrite ?app_nil_r; try done.
    intros k' Hk'. unfold w2, w1. proj_simp.
    rewrite lookup_insert. case_decide; [done|]. by apply Hfmt.
  - st. eexists. split; [done|]. split; [done|]. split; [done|]. subst e.
    split; try done; proj_simp; rewrite ?app_nil_r; try done.
    intros k' Hk'. unfold w2, w1. proj_simp.
    rewrite lookup_insert. case_decide; [done|]. by apply Hfmt.
Qed.

Lemma open_meta_ok {file} w segs : disk_files file (wal_disk w) segs -> open_meta w = (StOK, w).
Proof.
  intros D. pose proof (dv_tape _ _ D) as Hnf. unfold open_meta, exists_file. wst.
  case_bool_decide as Hex; [|done]. unfold LoadMeta. wst.
  rewrite bool_decide_true by done. wst. destruct Hex as [f Hf].
  rewrite contents_wfiles. unfold wfiles. simpl in Hf. rewrite Hf. simpl.
  by rewrite (dv_meta _ _ D f Hf).
Qed.

Lemma open_dir_ok {file} w dir segs : disk_files file (wal_disk w) segs -> open_dir dir w = (StOK, w).
Proof. intros D. unfold open_dir. wst. by rewrite (dv_kind _ _ D). Qed.

(** The checkpoint that covers the segments before [covered], or none. *)
Definition covers (segs : list (list Cmd)) (covered : Z) (ix : DenseIndex) : Prop :=
  (covered = 0 /\ ix = IndexClear) \/
  exists k p q, (k < length segs)%nat /\ covered = Z.of_nat k + 1 /\ segs !! k = Some (p ++ q) /\
    index_ok ix (log_ops 1 (take k segs) ++ seg_ops (Z.of_nat k + 1) kHeaderSize p).

(** Up to the loop over the segments. *)
Lemma Open_start {file} w dir closed fl :
  disk_files file (wal_disk w) (closed ++ [fl]) -> fresh_memory w ->
  exists covered w1, covers (closed ++ [fl]) covered (wal_index_ w1) /\
    w1 = w <| wal_dir_ := dir |> <| wal_index_ := wal_index_ w1 |> /\
    Open dir w = (open_segments covered (seqZ 1 (Z.of_nat (S (length closed)))) ;?
                  open_active (Z.of_nat (length closed) + 1)) w1.
Proof.
  intros D (Hix & Hca & Hbuf). set (segs := closed ++ [fl]) in *.
  assert (Hlen : length segs = S (length closed)) by (unfold segs; rewrite length_app; simpl; lia).
  set (w0 := w <| wal_dir_ := dir |>). assert (D0 : disk_files file (wal_disk w0) segs) by done.
  unfold Open, ensure. rewrite st_bind, st_setw. cbn [fst snd]. fold w0.
  rewrite st_bind, (open_dir_ok w0 dir segs D0). wst.
  rewrite (open_meta_ok w0 segs D0). wst.
  destruct (list_segments_ok w0 segs D0) as (l & -> & Hsort). cbn [fst snd]. rewrite Hsort.
  assert (Hlast : list.last (seqZ 1 (Z.of_nat (length segs))) = Some (Z.of_nat (length closed) + 1)).
  { rewrite Hlen, seqZ_S. rewrite last_snoc. f_equal. lia. }
  rewrite Hlast. wst.
  destruct (LoadLatestCheckpoint_ok w0 segs D0 Hix) as (r & w1 & -> & E1 & Hr). cbn [fst snd].
  rewrite <- Hlen.
  destruct Hr as [[-> Hi]|(k & p & q & Hk & -> & Hr)]; eexists _, w1; (split; [|split; [done|by wst]]).
  - by left.
  - right. by exists k, p, q.
Qed.

Lemma Open_ok w dir closed fl :
  disk_inv (wal_disk w) (closed ++ [fl]) -> fresh_memory w ->
  exists w', Open dir w = (StOK, w') /\ wal_disk w' = wal_disk w /\ wal_ok w' closed fl [].
Proof.
  intros D F. destruct (Open_start w dir closed fl D F) as (covered & w1 & Hcov & E1 & ->).
  destruct F as (Hix & Hca & Hbuf). set (segs := closed ++ [fl]) in *.
  assert (Hlen : length segs = S (length closed)) by (unfold segs; rewrite length_app; simpl; lia).
  assert (Ed : wal_disk w1 = wal_disk w) by (by rewrite E1).
  assert (D1 : disk_inv (wal_disk w1) segs) by by rewrite Ed.
  unfold ensure. rewrite st_bind, <- Hlen.
  destruct (open_segments_ok w1 covered 1 segs) as (w2 & -> & O2 & I2).
  { apply D1. } { lia. } { pose proof (dv_count _ _ D1). lia. } { apply (dv_cmds _ _ D1). }
  { intros k cs Hk. rewrite Z.add_comm. by apply (seg_contents w1 segs). }
  cbn [fst snd status_ok].
  assert (D2 : disk_inv (wal_disk w2) segs) by (by rewrite (op_disk _ _ _ O2)).
  destruct (open_active_ok w2 closed fl D2) as (w3 & -> & Ed3 & I3 & V3).
  - intros k Hk. apply (op_new _ _ _ O2). rewrite elem_of_seqZ, Hlen. lia.
  - intros id Hid. destruct (op_cached _ _ _ O2) as [Hc|(id' & Hin & Hc)].
    + rewrite Hc, E1 in Hid. change (cached_segment_ w = Some id) in Hid. congruence.
    + rewrite Hc in Hid. simplify_eq. rewrite elem_of_seqZ, Hlen in Hin.
      exists (Z.to_nat (id - 1)). lia.
  - by rewrite (op_buf _ _ _ O2), E1.
  - exists w3. split; [done|]. split; [by rewrite Ed3, (op_disk _ _ _ O2)|]. split; [done|].
    rewrite I3, I2, app_nil_r. apply recovered_index; [apply (dv_count _ _ D)|apply (dv_cmds _ _ D)|done].
Qed.

End open.
