(* ===== verification/WalOps.v ===== *)
(** * The operations of the write-ahead log keep its invariant

    Flushing, rotation, appending, truncation, synchronisation, checkpoints
    and closing, on a disk without failures. *)

From Stdlib Require Import Ascii.
From stdpp Require Import sorting.
From S2P Require Import Prelude Types Bytes DenseIndex Disk RaftLog Quorum RaftGroup Timers Replicate Membership Text Wal WalScan WalInv WalOpen.
Import DenseIndexOps.

(** Writing a file leaves memory alone. *)
Ltac mem_simp := repeat
  match goal with
  | |- context [?p (set_file ?n ?b ?w)] => progress change (p (set_file n b w)) with (p w)
  | |- _ => progress proj_simp
  end.

Section ops.
Context {LIB : WalLib} {LAWS : WalLaws}.

(** ** Changes of the disk *)

Definition disk_put (name : string) (f : File) (d : Disk) : Disk :=
  d <| d_files ::= <[name := f]> |>.

Lemma set_file_put name bs w :
  wal_disk (set_file name bs w) =
    disk_put name (mkFile bs (wfiles w !! name ≫= f_synced)) (wal_disk w).
Proof.
  pose proof (wfiles_set_file name bs w) as E. destruct w as [[k fs t] ? ? ? ? ? ?].
  exact (f_equal (fun m => mkDisk k m t) E).
Qed.

Lemma last_seg {A} (closed : list A) x k cs :
  (closed ++ [x]) !! k = Some cs ->
  (closed !! k = Some cs /\ (k < length closed)%nat) \/ (k = length closed /\ cs = x).
Proof.
  intros Hk. destruct (decide (k < length closed)%nat).
  - left. by rewrite lookup_app_l in Hk.
  - right. apply lookup_lt_Some in Hk as Hl. rewrite length_app in Hl. simpl in Hl.
    assert (k = length closed) as -> by lia. rewrite list_lookup_middle in Hk by done.
    by simplify_eq.
Qed.

Lemma take_last {A} (closed : list A) x k :
  (k <= length closed)%nat -> take k (closed ++ [x]) = take k closed.
Proof. intros Hk. by rewrite take_app_le. Qed.

Lemma length_snoc {A} (l : list A) x : length (l ++ [x]) = S (length l).
Proof. rewrite length_app. simpl. lia. Qed.

(** The active file, whatever it was, becomes the one with [bf] appended. *)
Lemma disk_files_grow {file} d closed fl bf f :
  disk_files file d (closed ++ [fl]) ->
  (forall k cs data, (k < length closed)%nat -> file k cs data -> exact_file k cs data) ->
  f_data f = seg_file (Z.of_nat (length closed) + 1) (fl ++ bf) ->
  Forall cmd_ok bf -> seg_size_ok (fl ++ bf) ->
  disk_inv (disk_put (segment_name (Z.of_nat (length closed) + 1)) f d) (closed ++ [fl ++ bf]).
Proof.
  intros D Hfile Hf Hbf Hs. set (n := length closed) in *.
  assert (Hu : forall k, (k <= n)%nat -> is_u64 (Z.of_nat k + 1)).
  { intros k Hk. pose proof (dv_count _ _ D) as Hc. rewrite length_snoc in Hc. split; lia. }
  split; unfold disk_put; proj_simp.
  - apply D.
  - apply D.
  - pose proof (dv_count _ _ D) as Hc. by rewrite length_snoc in Hc |- *.
  - pose proof (dv_cmds _ _ D) as Hc. apply Forall_app in Hc as [Hc1 Hc2]. apply Forall_app.
    split; [done|]. apply Forall_cons_1 in Hc2 as [[Hc2 _] _]. constructor; [|done].
    split; [by apply Forall_app|done].
  - intros k cs Hk. apply last_seg in Hk as [[Hk Hlt]|[-> ->]].
    + destruct (dv_segs _ _ D k cs) as (f' & Hf' & Hd); [by rewrite lookup_app_l|].
      exists f'. rewrite lookup_insert_ne; [by auto|]. intros E%segment_name_inj; [lia|apply Hu; lia..].
    + exists f. by rewrite lookup_insert_eq.
  - intros name Hn. rewrite length_snoc. destruct (decide (name = segment_name (Z.of_nat n + 1))) as [->|Hne].
    + right. exists n. split; [lia|by left].
    + rewrite lookup_insert_ne in Hn by done. destruct (dv_names _ _ D name Hn) as [?|(k & Hk & ?)];
        [by left|]. right. exists k. by rewrite length_snoc in Hk.
  - intros f'. rewrite lookup_insert_ne by (apply segment_not_meta, Hu; lia). apply (dv_meta _ _ D).
  - intros k f' Hk. rewrite length_snoc in Hk.
    rewrite lookup_insert_ne by (apply segment_not_checkpoint, Hu; lia). intros Hf'.
    destruct (dv_ckpt _ _ D k f') as (p & q & ix & Hseg & ? & ? & Hix); [by rewrite length_snoc|done|].
    rewrite take_last in Hix |- * by lia. apply last_seg in Hseg as [[Hseg Hlt]|[-> <-]].
    + exists p, q, ix. by rewrite lookup_app_l.
    + exists p, (q ++ bf), ix. rewrite list_lookup_middle, <- app_assoc by done. done.
Qed.

Lemma disk_inv_grow d closed fl bf f :
  disk_inv d (closed ++ [fl]) -> f_data f = seg_file (Z.of_nat (length closed) + 1) (fl ++ bf) ->
  Forall cmd_ok bf -> seg_size_ok (fl ++ bf) ->
  disk_inv (disk_put (segment_name (Z.of_nat (length closed) + 1)) f d) (closed ++ [fl ++ bf]).
Proof. intros D. by apply (disk_files_grow d closed fl bf f D). Qed.

(** A new empty segment. *)
Lemma disk_inv_new d segs f :
  disk_inv d segs -> f_data f = seg_file (Z.of_nat (length segs) + 1) [] ->
  Z.of_nat (length segs) + 1 <= UINT64_MAX ->
  disk_inv (disk_put (segment_name (Z.of_nat (length segs) + 1)) f d) (segs ++ [[]]).
Proof.
  intros D Hf Hcount. set (n := length segs) in *.
  assert (Hu : forall k, (k <= n)%nat -> is_u64 (Z.of_nat k + 1)) by (intros k Hk; split; lia).
  split; unfold disk_put; proj_simp.
  - apply D.
  - apply D.
  - rewrite length_snoc. lia.
  - apply Forall_app. split; [apply D|]. constructor; [|done]. split; [done|].
    unfold seg_size_ok, enc_len. by vm_compute.
  - intros k cs Hk. apply last_seg in Hk as [[Hk Hlt]|[-> ->]].
    + destruct (dv_segs _ _ D k cs Hk) as (f' & Hf' & Hd). exists f'.
      rewrite lookup_insert_ne; [done|]. intros E%segment_name_inj; [lia|apply Hu; lia..].
    + exists f. by rewrite lookup_insert_eq.
  - intros name Hn. rewrite length_snoc. destruct (decide (name = segment_name (Z.of_nat n + 1))) as [->|Hne].
    + right. exists n. split; [lia|by left].
    + rewrite lookup_insert_ne in Hn by done. destruct (dv_names _ _ D name Hn) as [?|(k & Hk & ?)];
        [by left|]. right. exists k. split; [lia|done].
  - intros f'. rewrite lookup_insert_ne by (apply segment_not_meta, Hu; lia). apply (dv_meta _ _ D).
  - intros k f' Hk. rewrite length_snoc in Hk.
    rewrite lookup_insert_ne by (apply segment_not_checkpoint, Hu; lia). intros Hf'.
    destruct (decide (k < n)%nat) as [Hlt|Hge].
    + destruct (dv_ckpt _ _ D k f' Hlt Hf') as (p & q & ix & Hseg & ? & ? & Hix).
      exists p, q, ix. rewrite lookup_app_l, take_last by (done || lia). done.
    + assert (k = n) as -> by lia.
      destruct (dv_names _ _ D (checkpoint_name (Z.of_nat n + 1))) as [E|(k & Hk' & [E|E])].
      * by eexists.
      * by apply checkpoint_not_meta in E; [|lia].
      * symmetry in E. by apply segment_not_checkpoint in E; [|apply Hu; lia].
      * apply checkpoint_name_inj in E; [lia|apply Hu; lia..].
Qed.

Lemma disk_inv_meta d segs f :
  disk_inv d segs -> json_meta_error (f_data f) = None -> disk_inv (disk_put meta_name f d) segs.
Proof.
  intros D Hf. assert (Hu : forall k, (k < length segs)%nat -> is_u64 (Z.of_nat k + 1)).
  { intros k Hk. pose proof (dv_count _ _ D). split; lia. }
  split; unfold disk_put; proj_simp; try apply D.
  - intros k cs Hk. destruct (dv_segs _ _ D k cs Hk) as (f' & Hf' & Hd). exists f'.
    rewrite lookup_insert_ne; [done|]. apply lookup_lt_Some in Hk.
    intros E. symmetry in E. by apply segment_not_meta in E; [|apply Hu].
  - intros name Hn. destruct (decide (name = meta_name)); [by left|].
    rewrite lookup_insert_ne in Hn by done. by apply (dv_names _ _ D).
  - intros f'. rewrite lookup_insert_eq. by intros [= <-].
  - intros k f' Hk. rewrite lookup_insert_ne by (intros E; symmetry in E;
      by apply checkpoint_not_meta in E; [|lia]). by apply (dv_ckpt _ _ D).
Qed.

(** A checkpoint of the active segment. *)
Lemma disk_inv_checkpoint d closed fl f ix :
  disk_inv d (closed ++ [fl]) -> di_entries ix <> [] ->
  f_data f = checkpoint_bytes ix (Z.of_nat (length closed) + 1) ->
  index_ok ix (log_ops 1 (closed ++ [fl])) ->
  disk_inv (disk_put (checkpoint_name (Z.of_nat (length closed) + 1)) f d) (closed ++ [fl]).
Proof.
  intros D Hne Hf Hix. set (n := length closed) in *.
  assert (Hu : forall k, (k <= n)%nat -> is_u64 (Z.of_nat k + 1)).
  { intros k Hk. pose proof (dv_count _ _ D) as Hc. rewrite length_snoc in Hc. split; lia. }
  split; unfold disk_put; proj_simp; try apply D.
  - intros k cs Hk. destruct (dv_segs _ _ D k cs Hk) as (f' & Hf' & Hd). exists f'.
    apply lookup_lt_Some in Hk. rewrite length_snoc in Hk.
    rewrite lookup_insert_ne; [done|]. intros E. symmetry in E.
    by apply segment_not_checkpoint in E; [|apply Hu; lia].
  - intros name Hn. destruct (decide (name = checkpoint_name (Z.of_nat n + 1))) as [->|Hne'].
    + right. exists n. rewrite length_snoc. split; [lia|by right].
    + rewrite lookup_insert_ne in Hn by done. by apply (dv_names _ _ D).
  - intros f'. rewrite lookup_insert_ne by (apply checkpoint_not_meta; lia). apply (dv_meta _ _ D).
  - intros k f' Hk. destruct (decide (k = n)) as [->|Hkn].
    + rewrite lookup_insert_eq. intros [= <-]. exists fl, [], ix.
      rewrite list_lookup_middle, app_nil_r, take_last, take_ge by done.
      split_and!; [done..|]. rewrite log_ops_app in Hix. cbn [log_ops] in Hix.
      by rewrite app_nil_r, Z.add_comm in Hix.
    + rewrite length_snoc in Hk. rewrite lookup_insert_ne.
      * apply (dv_ckpt _ _ D). by rewrite length_snoc.
      * intros E%checkpoint_name_inj; [lia|apply Hu; lia..].
Qed.

(** ** Saving a checkpoint *)

Lemma overwrite_nil data : overwrite [] 0 data = data.
Proof. unfold overwrite. simpl. by rewrite drop_nil, app_nil_r. Qed.

Lemma run_fdatasync w name :
  no_faults w ->
  fdatasync name w = (true, w <| wal_disk ::= fun d => d <| d_files ::=
    alter (fun f => f <| f_synced := Some (f_data f) |>) name |> |>).
Proof. intros Hnf. unfold fdatasync. by st. Qed.

(** A file replaced by way of a temporary one. *)
Lemma replace_file w name temp data :
  no_faults w -> name <> temp -> wfiles w !! temp = None ->
  let w1 := set_file temp data (set_file temp [] w) in
  let w2 := w1 <| wal_disk ::= fun d => d <| d_files ::=
    alter (fun f => f <| f_synced := Some (f_data f) |>) temp |> |> in
  rename temp name w2 = (true, w <| wal_disk ::= disk_put name (mkFile data (Some data)) |>).
Proof.
  intros Hnf Hne Ht. cbv zeta. set (w1 := set_file temp data _). set (w2 := w1 <| wal_disk ::= _ |>).
  assert (E1 : wfiles w1 = <[temp := mkFile data None]> (wfiles w)).
  { unfold w1. rewrite !wfiles_set_file, lookup_insert_eq. simpl. rewrite Ht. simpl.
    by rewrite insert_insert_eq. }
  assert (E2 : wfiles w2 = <[temp := mkFile data (Some data)]> (wfiles w)).
  { unfold w2. unfold wfiles at 1. proj_simp. fold (wfiles w1). rewrite E1. by rewrite alter_insert_eq. }
  assert (Hnf2 : no_faults w2) by done.
  unfold rename. rewrite st_bind, run_sys_ok by done. cbn [fst snd]. rewrite st_bind, st_reads.
  cbn [fst snd]. change (d_files (disk_of w2)) with (wfiles w2). rewrite E2, lookup_insert_eq.
  unfold whenS. wst. f_equal.
  assert (Ed : <[name := mkFile data (Some data)]> (delete temp (wfiles w2))
               = <[name := mkFile data (Some data)]> (wfiles w)).
  { rewrite E2, delete_insert_eq. f_equal. by apply delete_id. }
  destruct w as [[k fs t] ? ? ? ? ? ?].
  exact (f_equal (fun m => mkWal (mkDisk k m t) _ _ _ _ _ _) Ed).
Qed.

Lemma temp_not_on_disk w closed fl id :
  disk_inv (wal_disk w) (closed ++ [fl]) -> wfiles w !! (checkpoint_name id +:+ kCheckpointTempSuffix) = None.
Proof.
  intros D. destruct (wfiles w !! _) as [f|] eqn:E; [|done].
  destruct (temp_name_other id) as [T1 T2]. unfold temp_name in *.
  destruct (dv_names _ _ D _ (mk_is_Some _ _ E)) as [Hn|(k & Hk & [Hn|Hn])]; rewrite Hn in T1, T2.
  - done.
  - rewrite segment_of_segment_name in T1; [done|]. by apply (seg_id_u64 w _ D).
  - by rewrite is_checkpoint_checkpoint_name in T2 by lia.
Qed.

Lemma checkpoint_bytes_nonempty ix id : checkpoint_bytes ix id <> [].
Proof. done. Qed.

Lemma SaveCheckpoint_ok w closed fl :
  disk_inv (wal_disk w) (closed ++ [fl]) -> di_entries (wal_index_ w) <> [] ->
  let id := sg_id (active_segment_ w) in
  let data := checkpoint_bytes (wal_index_ w) id in
  SaveCheckpointLocked w =
    (StOK, w <| wal_disk ::= disk_put (checkpoint_name id) (mkFile data (Some data)) |>).
Proof.
  intros D Hne id data. pose proof (dv_tape _ _ D) as Hnf. fold (no_faults w) in Hnf.
  unfold SaveCheckpointLocked. rewrite st_bind, st_reads. cbn [fst snd id].
  unfold Empty. rewrite bool_decide_false by done. fold id.
  set (name := checkpoint_name id). set (temp := name +:+ kCheckpointTempSuffix).
  rewrite st_bind, run_create_file by done. cbn [fst snd negb].
  fold (checkpoint_bytes (wal_index_ w) id). fold data.
  rewrite st_bind, run_write_loop_some by (done || apply checkpoint_bytes_nonempty).
  rewrite (contents_set_file temp), overwrite_nil. cbn [fst snd negb]. rewrite st_bind, run_fdatasync by done. cbn [fst snd negb].
  rewrite st_bind, replace_file.
  - cbn [fst snd negb]. done.
  - done.
  - unfold temp. intros E. apply (f_equal String.length) in E.
    rewrite length_str_app in E. simpl in E. lia.
  - by eapply temp_not_on_disk.
Qed.

Lemma ShouldCreateCheckpoint_ok w :
  no_faults w -> exists b, ShouldCreateCheckpointLocked w = (b, w) /\
    (b = true -> di_entries (wal_index_ w) <> []).
Proof.
  intros Hnf. unfold ShouldCreateCheckpointLocked, ListCheckpointFilesLocked. st. cbn [id].
  unfold Empty. case_bool_decide as He; [by eexists|]. st. by eexists.
Qed.

(** A checkpoint, when one is due. *)
Lemma maybe_checkpoint w closed fl :
  wal_ok w closed fl [] ->
  let m := should ← ShouldCreateCheckpointLocked;
           whenS should (SaveCheckpointLocked ;; mret tt) in
  exists w', m w = (tt, w') /\ wal_ok w' closed fl [] /\ wal_dir_ w' = wal_dir_ w /\
    w' = w <| wal_disk := wal_disk w' |>.
Proof.
  intros [V Hix]. cbv zeta. pose proof (wv_disk _ _ _ _ V) as D.
  pose proof (dv_tape _ _ D) as Hnf.
  destruct (ShouldCreateCheckpoint_ok w Hnf) as (b & Hb & Hne). rewrite st_bind, Hb. cbn [fst snd].
  destruct b; [|exists w; split; [done|]; split; [done|]; split; [done|by destruct w]].
  unfold whenS. rewrite st_bind, (SaveCheckpoint_ok w closed fl) by auto. cbn [fst snd].
  eexists. split; [done|]. split; [|split; [done|by destruct w]]. split; [|done].
  split; proj_simp; try apply V. rewrite (wv_id _ _ _ _ V).
  apply (disk_inv_checkpoint _ closed fl _ (wal_index_ w)); [done|auto|done|].
  by rewrite app_nil_r in Hix.
Qed.

(** ** Flushing the buffer *)

Lemma disk_put_put name f f' d : disk_put name f (disk_put name f' d) = disk_put name f d.
Proof.
  unfold disk_put. destruct d as [k fs t]. unfold set. simpl. by rewrite insert_insert_eq.
Qed.

Lemma length_enc_cons c cs : (10 <= length (enc (c :: cs)))%nat.
Proof.
  pose proof (enc_len_nonneg (c :: cs)). unfold enc_len in *. cbn [length] in *. lia.
Qed.

Lemma active_contents w closed fl bf :
  wal_inv w closed fl bf ->
  contents (segment_name (sg_id (active_segment_ w))) w =
    seg_file (Z.of_nat (length closed) + 1) fl.
Proof.
  intros V. rewrite (wv_id _ _ _ _ V).
  apply (seg_contents w (closed ++ [fl])); [apply V|by rewrite list_lookup_middle].
Qed.

Lemma seg_file_cons id fl c bf :
  seg_file id (fl ++ c :: bf) =
    ((segment_header id kFormatVersionProtobuf ++ enc fl) ++ enc (c :: bf)) ++
    le 8 (16 + enc_len (fl ++ c :: bf)).
Proof.
  unfold seg_file. rewrite enc_app, <- !app_assoc. do 3 f_equal. by destruct fl.
Qed.

Lemma length_data id fl : Z.of_nat (length (segment_header id kFormatVersionProtobuf ++ enc fl)) = 16 + enc_len fl.
Proof. rewrite length_app, length_segment_header. unfold enc_len. lia. Qed.

Lemma to_nat_data id fl : Z.to_nat (16 + enc_len fl) = length (segment_header id kFormatVersionProtobuf ++ enc fl).
Proof. rewrite <- (length_data id fl). apply Nat2Z.id. Qed.

Lemma Flush_ok w closed fl bf :
  wal_inv w closed fl bf ->
  exists w', FlushWriteBufferLocked w = (StOK, w') /\ wal_inv w' closed (fl ++ bf) [] /\
    wal_index_ w' = wal_index_ w /\ wal_dir_ w' = wal_dir_ w.
Proof.
  intros V. unfold FlushWriteBufferLocked. wst. cbn [id]. rewrite (wv_buf _ _ _ _ V).
  destruct bf as [|c bf].
  { exists w. rewrite decide_True by done. by rewrite app_nil_r. }
  pose proof (length_enc_cons c bf) as Hlen.
  assert (Hne : enc (c :: bf) <> []) by (intros E; rewrite E in Hlen; simpl in Hlen; lia).
  rewrite decide_False, (wv_open _ _ _ _ V) by done. cbn [negb].
  pose proof (dv_tape _ _ (wv_disk _ _ _ _ V)) as Hnf. fold (no_faults w) in Hnf.
  set (id := Z.of_nat (length closed) + 1).
  set (name := segment_name (sg_id (active_segment_ w))).
  set (A := segment_header id kFormatVersionProtobuf ++ enc fl).
  set (w1 := set_file name (A ++ enc (c :: bf)) w).
  assert (R1 : write_loop name (sg_end_offset (active_segment_ w)) (enc (c :: bf)) w = (true, w1)).
  { rewrite run_write_loop_some by done. unfold name. rewrite (active_contents w closed fl _ V).
    rewrite (wv_end _ _ _ _ V), (to_nat_data id). fold id A. unfold seg_file. rewrite app_assoc. fold A.
    rewrite overwrite_app; [done|]. destruct fl; rewrite ?length_le; simpl; lia. }
  rewrite st_bind, R1. cbn [fst snd negb]. wst.
  set (e := sg_end_offset (active_segment_ w) + Z.of_nat (length (enc (c :: bf)))).
  set (w2 := w1 <| active_segment_ ::= _ |> <| write_buf_ ::= _ |>).
  assert (He : e = 16 + enc_len (fl ++ c :: bf)).
  { unfold e. rewrite (wv_end _ _ _ _ V), enc_len_app. unfold enc_len. lia. }
  unfold WriteTrailer. wst.
  change (contents name w2) with (contents name w1). unfold w1 at 1. rewrite contents_set_file.
  assert (HA : Z.to_nat e = length (A ++ enc (c :: bf))).
  { rewrite He, length_app. rewrite enc_len_app. pose proof (length_data id fl). fold A in H.
    unfold enc_len in *. lia. }
  rewrite HA, overwrite_end.
  eexists. split; [done|]. split; [|done].
  split; proj_simp; try apply V.
  - rewrite set_file_put. change (wal_disk w2) with (wal_disk w1). unfold w1. rewrite set_file_put, disk_put_put.
    unfold name. rewrite (wv_id _ _ _ _ V).
    apply disk_inv_grow; [apply V| |apply V|apply V]. simpl. rewrite seg_file_cons. fold id A.
    by rewrite He.
  - done.
  - done.
  - constructor.
  - rewrite app_nil_r. apply V.
Qed.

(** ** New segments *)

Lemma CreateSegment_ok w segs :
  disk_inv (wal_disk w) segs -> Z.of_nat (length segs) + 1 <= UINT64_MAX ->
  write_buf_ w = [] ->
  (forall k, (k < length segs)%nat ->
    segment_format_versions_ w !! (Z.of_nat k + 1) = Some kFormatVersionProtobuf) ->
  (forall id, cached_segment_ w = Some id -> exists k, (k < length segs)%nat /\ id = Z.of_nat k + 1) ->
  exists w', CreateSegment (Z.of_nat (length segs) + 1) w = (StOK, w') /\
    wal_inv w' segs [] [] /\ wal_index_ w' = wal_index_ w /\ wal_dir_ w' = wal_dir_ w.
Proof.
  intros D Hcount Hbuf Hfmt Hca. pose proof (dv_tape _ _ D) as Hnf. fold (no_faults w) in Hnf.
  set (id := Z.of_nat (length segs) + 1). set (name := segment_name id).
  set (w1 := set_file name [] w).
  set (w2 := set_file name (segment_header id kFormatVersionProtobuf) w1).
  assert (R : WriteSegmentHeader name id kFormatVersionProtobuf w1 = (StOK, w2)).
  { unfold WriteSegmentHeader. wst. unfold w2. change (Z.to_nat 0) with 0%nat.
    unfold w1. by rewrite contents_set_file, overwrite_nil. }
  unfold CreateSegment. rewrite st_bind, st_reads. cbn [fst snd]. fold name.
  rewrite st_bind, run_create_file by done. cbn [fst snd negb]. fold w1.
  rewrite st_bind, R. cbn [fst snd negb status_ok]. wst.
  unfold SaveMeta. wst.
  eexists. split; [done|]. split; [|done].
  split; mem_simp; unfold w2, w1; mem_simp; try done.
  - rewrite !set_file_put. proj_simp. rewrite disk_put_put. apply disk_inv_meta.
    + rewrite !set_file_put, disk_put_put.
      apply disk_inv_new; [done| |done]. simpl. unfold seg_file. by rewrite app_nil_r.
    + simpl. change (Z.to_nat 0) with 0%nat. rewrite contents_set_file, overwrite_nil.
      apply json_meta_valid.
  - intros k Hk. rewrite lookup_insert. case_decide; [done|]. apply Hfmt.
    unfold id in *. lia.
  - intros i Hi. destruct (Hca i Hi) as (k & Hk & ->). exists k. split; [lia|done].
Qed.

Lemma Rotate_ok w closed fl bf :
  wal_inv w closed fl bf -> Z.of_nat (length closed) + 2 <= UINT64_MAX ->
  exists w' closed' fl' bf', RotateSegmentIfNeeded w = (StOK, w') /\ wal_inv w' closed' fl' bf' /\
    wal_index_ w' = wal_index_ w /\ wal_dir_ w' = wal_dir_ w /\
    16 + enc_len (fl' ++ bf') < kMaxSegmentSize /\
    ((closed' = closed /\ fl' = fl /\ bf' = bf) \/
     (closed' = closed ++ [fl ++ bf] /\ fl' = [] /\ bf' = [])).
Proof.
  intros V Hcount. unfold RotateSegmentIfNeeded. rewrite st_bind, st_reads. cbn [fst snd id].
  case_decide as Hd.
  - destruct (Flush_ok w closed fl bf V) as (w1 & R1 & V1 & I1 & Dir1).
    unfold ensure. rewrite st_bind, R1. cbn [fst snd status_ok]. rewrite st_bind, st_setw. cbn [fst snd].
    set (w2 := w1 <| active_segment_ ::= _ |>).
    replace (u64 (sg_id (active_segment_ w) + 1))
      with (Z.of_nat (length (closed ++ [fl ++ bf])) + 1).
    2:{ rewrite (wv_id _ _ _ _ V), length_snoc. rewrite u64_small; unfold is_u64; lia. }
    destruct (CreateSegment_ok w2 (closed ++ [fl ++ bf])) as (w3 & R3 & V3 & I3 & Dir3).
    + apply V1.
    + rewrite length_snoc. lia.
    + apply V1.
    + intros k Hk. rewrite length_snoc in Hk. apply (wv_formats _ _ _ _ V1). lia.
    + intros i Hi. destruct (wv_cached _ _ _ _ V1 i Hi) as (k & Hk & ->).
      exists k. rewrite length_snoc. split; [lia|done].
    + exists w3, (closed ++ [fl ++ bf]), [], []. split_and!; try done;
        [by rewrite I3|by rewrite Dir3|by right].
  - exists w, closed, fl, bf. split_and!; try done; [|by left].
    rewrite (wv_end _ _ _ _ V), (wv_buf _ _ _ _ V) in Hd.
    rewrite enc_len_app. unfold enc_len in *. lia.
Qed.

(** ** Appending a command *)

Definition run_cmd (c : Cmd) : W Status :=
  match c with
  | CEntry e => WalAppendLogEntry e
  | CPrefix b => AppendTruncatePrefix b
  | CSuffix f => AppendTruncateSuffix f
  end.

Lemma AppendRecord_ok w closed fl bf c :
  wal_inv w closed fl bf -> cmd_ok c -> 16 + enc_len (fl ++ bf) < kMaxSegmentSize ->
  let r := cmd_record c in
  exists w' fl' bf',
    AppendRecordToBufferLocked (wr_type r) (wr_payload r) w =
      ((StOK, (16 + enc_len (fl ++ bf), rec_len r)), w') /\
    wal_inv w' closed fl' bf' /\ fl' ++ bf' = (fl ++ bf) ++ [c] /\
    wal_index_ w' = wal_index_ w /\ wal_dir_ w' = wal_dir_ w /\ fl `prefix_of` fl'.
Proof.
  intros V Hc Hsz r. unfold AppendRecordToBufferLocked.
  destruct Hc as [Hc1 Hc2]. rewrite decide_False by (unfold r; simpl; lia).
  rewrite st_bind, st_reads. cbn [fst snd id]. rewrite st_bind, st_setw. cbn [fst snd].
  rewrite st_bind, st_reads. cbn [fst snd]. set (w1 := w <| write_buf_ ::= _ |>).
  rewrite length_encode_record.
  replace (sg_end_offset (active_segment_ w) + Z.of_nat (length (write_buf_ w)))
    with (16 + enc_len (fl ++ bf))
    by (rewrite (wv_end _ _ _ _ V), (wv_buf _ _ _ _ V), enc_len_app; unfold enc_len; lia).
  assert (Eb : write_buf_ w1 = enc (bf ++ [c])).
  { unfold w1. proj_simp. rewrite (wv_buf _ _ _ _ V), enc_app. f_equal.
    unfold enc. cbn [map concat]. by rewrite app_nil_r. }
  assert (V1 : wal_inv w1 closed fl (bf ++ [c])).
  { split; try apply V; [done|apply Forall_app; split; [apply V|by repeat constructor]|].
    rewrite app_assoc. unfold seg_size_ok. rewrite enc_len_app, enc_len_one.
    unfold rec_len. simpl. unfold kMaxSegmentSize, kMaxRecordSize in *. lia. }
  case_decide.
  - destruct (Flush_ok w1 closed fl (bf ++ [c]) V1) as (w2 & R2 & V2 & I2 & Dir2).
    rewrite st_bind, R2. cbn [fst snd]. exists w2, (fl ++ bf ++ [c]), []. split_and!; try done.
    + by rewrite app_nil_r, app_assoc.
    + by eexists.
  - exists w1, fl, (bf ++ [c]). split_and!; try done. by rewrite app_assoc.
Qed.

Lemma log_ops_snoc closed fl bf c :
  log_ops 1 (closed ++ [(fl ++ bf) ++ [c]]) =
  log_ops 1 (closed ++ [fl ++ bf]) ++
    [cmd_op (Z.of_nat (length closed) + 1) (16 + enc_len (fl ++ bf)) c].
Proof.
  rewrite !log_ops_app. cbn [log_ops]. rewrite !app_nil_r, (seg_ops_app _ _ (fl ++ bf)), app_assoc.
  f_equal. cbn [seg_ops]. rewrite (Z.add_comm 1). done.
Qed.

Lemma wal_inv_index w closed fl bf f :
  wal_inv w closed fl bf -> wal_inv (w <| wal_index_ ::= f |>) closed fl bf.
Proof. intros V. split; apply V. Qed.

Lemma wal_inv_count w closed fl bf f :
  wal_inv w closed fl bf ->
  wal_inv (w <| active_segment_ ::= fun s => s <| sg_entry_count ::= f |> |>) closed fl bf.
Proof. intros V. split; proj_simp; apply V. Qed.

Lemma index_step w1 w2 closed fl bf fl' bf' c :
  wal_inv w2 closed fl' bf' -> fl' ++ bf' = (fl ++ bf) ++ [c] -> cmd_ok c ->
  index_ok (wal_index_ w1) (log_ops 1 (closed ++ [fl ++ bf])) -> seg_size_ok (fl ++ bf) ->
  wal_index_ w2 =
    index_op (wal_index_ w1) (cmd_op (Z.of_nat (length closed) + 1) (16 + enc_len (fl ++ bf)) c) ->
  wal_ok w2 closed fl' bf'.
Proof.
  intros V E Hc Hix Hs Hw. split; [done|]. rewrite Hw, E, log_ops_snoc.
  set (op := cmd_op _ _ c). change (index_op (wal_index_ w1) op) with (foldl index_op (wal_index_ w1) [op]).
  assert (is_u64 (Z.of_nat (length closed) + 1)) as Hid.
  { pose proof (dv_count _ _ (wv_disk _ _ _ _ V)) as Hn. rewrite length_snoc in Hn. split; lia. }
  apply index_ok_app; [| |done]; constructor; try constructor.
  - apply cmd_op_ok; [lia|done].
  - apply cmd_op_tidy; [done|by apply seg_size_u64|done].
Qed.

Lemma concat_snoc {A} (l : list (list A)) x : concat (l ++ [x]) = concat l ++ x.
Proof. rewrite concat_app. simpl. by rewrite app_nil_r. Qed.

Lemma run_cmd_ok w closed fl bf c :
  wal_ok w closed fl bf -> cmd_ok c -> Z.of_nat (length closed) + 2 <= UINT64_MAX ->
  exists w' closed' fl' bf', run_cmd c w = (StOK, w') /\ wal_ok w' closed' fl' bf' /\
    concat closed' ++ fl' ++ bf' = (concat closed ++ fl ++ bf) ++ [c] /\
    (length closed <= length closed' <= S (length closed))%nat /\ wal_dir_ w' = wal_dir_ w /\
    concat closed ++ fl `prefix_of` concat closed' ++ fl'.
Proof.
  intros [V Hix] Hc Hcount.
  destruct (Rotate_ok w closed fl bf V Hcount) as (w1 & cl1 & fl1 & bf1 & R1 & V1 & I1 & Dir1 & S1 & H1).
  assert (Hix1 : index_ok (wal_index_ w1) (log_ops 1 (cl1 ++ [fl1 ++ bf1]))).
  { rewrite I1. destruct H1 as [(-> & -> & ->)|(-> & -> & ->)]; [done|].
    rewrite log_ops_app. cbn [log_ops app seg_ops]. by rewrite !app_nil_r. }
  assert (Hcat : concat cl1 ++ fl1 ++ bf1 = concat closed ++ fl ++ bf).
  { destruct H1 as [(-> & -> & ->)|(-> & -> & ->)]; [done|].
    rewrite concat_snoc. by rewrite !app_nil_r. }
  assert (Hlen : (length closed <= length cl1 <= S (length closed))%nat).
  { destruct H1 as [(-> & -> & ->)|(-> & -> & ->)]; rewrite ?length_snoc; lia. }
  destruct (AppendRecord_ok w1 cl1 fl1 bf1 c V1 Hc S1) as (w2 & fl2 & bf2 & R2 & V2 & E2 & I2 & Dir2 & Hp).
  assert (Hcat2 : concat cl1 ++ fl2 ++ bf2 = (concat closed ++ fl ++ bf) ++ [c]).
  { rewrite E2, app_assoc. by rewrite <- Hcat. }
  assert (Hs : seg_size_ok (fl1 ++ bf1)) by apply V1.
  assert (Hpre : concat closed ++ fl `prefix_of` concat cl1 ++ fl2).
  { destruct H1 as [(-> & -> & ->)|(-> & -> & ->)]; [by apply list.prefix_app|].
    rewrite concat_snoc, <- !app_assoc. apply list.prefix_app. by eexists. }
  destruct c as [e|b|f].
  - pose proof Hc as Hc'. destruct Hc' as [[Hok [bs Hbs]] Hl]. unfold run_cmd, WalAppendLogEntry. rewrite Hbs.
    unfold ensure. rewrite st_bind, R1. cbn [fst snd status_ok].
    assert (Ep : wr_payload (cmd_record (CEntry e)) = bs) by (simpl; by rewrite Hbs).
    rewrite Ep in R2. rewrite st_bind. change kLogEntry with (wr_type (cmd_record (CEntry e))).
    rewrite R2. cbn [fst snd status_ok negb]. wst.
    eexists _, cl1, fl2, bf2. split; [done|]. split_and!; [|done|lia|lia| |done].
    + apply (index_step w1 _ cl1 fl1 bf1 fl2 bf2 (CEntry e)); try done.
      * by apply wal_inv_count, wal_inv_index.
      * proj_simp. rewrite I2, (wv_id _ _ _ _ V2). done.
    + proj_simp. congruence.
  - unfold run_cmd, AppendTruncatePrefix, ensure. rewrite st_bind, R1. cbn [fst snd status_ok].
    rewrite st_bind. change (json_dump_u64 "before_index" b) with (wr_payload (cmd_record (CPrefix b))).
    change kTruncatePrefix with (wr_type (cmd_record (CPrefix b))). rewrite R2.
    cbn [fst snd status_ok negb]. wst.
    eexists _, cl1, fl2, bf2. split; [done|]. split_and!; [|done|lia|lia|proj_simp; congruence|done].
    apply (index_step w1 _ cl1 fl1 bf1 fl2 bf2 (CPrefix b)); try done; [by apply wal_inv_index|].
    proj_simp. by rewrite I2.
  - unfold run_cmd, AppendTruncateSuffix, ensure. rewrite st_bind, R1. cbn [fst snd status_ok].
    rewrite st_bind. change (json_dump_u64 "from_index" f) with (wr_payload (cmd_record (CSuffix f))).
    change kTruncateSuffix with (wr_type (cmd_record (CSuffix f))). rewrite R2.
    cbn [fst snd status_ok negb]. wst.
    eexists _, cl1, fl2, bf2. split; [done|]. split_and!; [|done|lia|lia|proj_simp; congruence|done].
    apply (index_step w1 _ cl1 fl1 bf1 fl2 bf2 (CSuffix f)); try done; [by apply wal_inv_index|].
    proj_simp. by rewrite I2.
Qed.

(** ** Synchronising, closing, opening *)

Lemma fdatasync_inv w closed fl bf :
  wal_inv w closed fl bf ->
  exists w', fdatasync (segment_name (sg_id (active_segment_ w))) w = (true, w') /\
    wal_inv w' closed fl bf /\ w' = w <| wal_disk := wal_disk w' |>.
Proof.
  intros V. pose proof (wv_disk _ _ _ _ V) as D. rewrite run_fdatasync by apply D.
  eexists. split; [done|]. split; [|by destruct w].
  split; proj_simp; try apply V. rewrite (wv_id _ _ _ _ V).
  destruct (dv_segs _ _ D (length closed) fl) as (f & Hf & Hd); [by rewrite list_lookup_middle|].
  assert (E : forall d, d_files d !! segment_name (Z.of_nat (length closed) + 1) = Some f ->
    d <| d_files ::= alter (fun f => f <| f_synced := Some (f_data f) |>)
           (segment_name (Z.of_nat (length closed) + 1)) |> =
    disk_put (segment_name (Z.of_nat (length closed) + 1)) (f <| f_synced := Some (f_data f) |>) d).
  { intros [k fs t] Hl. unfold disk_put, set. simpl in *. f_equal. apply map_eq. intros n.
    destruct (decide (n = segment_name (Z.of_nat (length closed) + 1))) as [->|Hn].
    - rewrite lookup_alter_eq, lookup_insert_eq, Hl. done.
    - by rewrite lookup_alter_ne, lookup_insert_ne. }
  rewrite E by done.
  replace (closed ++ [fl]) with (closed ++ [fl ++ []]) by (by rewrite app_nil_r).
  apply disk_inv_grow; [done|by rewrite app_nil_r|done|].
  rewrite app_nil_r. pose proof (dv_cmds _ _ D) as Hc. apply Forall_app in Hc as [_ Hc].
  by apply Forall_cons_1 in Hc as [[_ ?] _].
Qed.

Lemma WalSync_ok w closed fl bf :
  wal_ok w closed fl bf ->
  exists w', WalSync w = (StOK, w') /\ wal_ok w' closed (fl ++ bf) [] /\ wal_dir_ w' = wal_dir_ w.
Proof.
  intros [V Hix]. destruct (Flush_ok w closed fl bf V) as (w1 & R1 & V1 & I1 & Dir1).
  destruct (fdatasync_inv w1 closed (fl ++ bf) [] V1) as (w2 & R2 & V2 & E2).
  unfold WalSync, SyncActiveSegmentLocked, ensure. rewrite !st_bind, R1. cbn [fst snd status_ok].
  rewrite st_bind, st_reads. cbn [fst snd]. rewrite (wv_open _ _ _ _ V1). cbn [negb].
  rewrite st_bind, R2. cbn [fst snd]. rewrite st_ret. cbn [fst snd status_ok].
  assert (W2 : wal_ok w2 closed (fl ++ bf) []).
  { split; [done|]. rewrite app_nil_r, E2. proj_simp. by rewrite I1. }
  destruct (maybe_checkpoint w2 closed (fl ++ bf) W2) as (w3 & R3 & W3 & Dir3 & _).
  rewrite st_bind in R3. rewrite !st_bind, R3. cbn [fst snd].
  exists w3. split; [done|]. split; [done|]. rewrite Dir3, E2. by proj_simp.
Qed.

Lemma WalClose_ok w closed fl bf :
  wal_ok w closed fl bf ->
  exists w', WalClose w = (tt, w') /\ disk_inv (wal_disk w') (closed ++ [fl ++ bf]) /\ fresh_memory w'.
Proof.
  intros [V Hix]. destruct (Flush_ok w closed fl bf V) as (w1 & R1 & V1 & I1 & Dir1).
  assert (W1 : wal_ok w1 closed (fl ++ bf) []).
  { split; [done|]. by rewrite app_nil_r, I1. }
  destruct (maybe_checkpoint w1 closed (fl ++ bf) W1) as (w2 & R2 & [V2 _] & _).
  rewrite st_bind in R2.
  unfold WalClose. rewrite st_bind, st_reads. cbn [fst snd]. rewrite (wv_open _ _ _ _ V).
  unfold InvalidateSegmentFdCache.
  rewrite st_bind. rewrite (st_bind FlushWriteBufferLocked), R1. cbn [fst snd].
  rewrite (st_bind ShouldCreateCheckpointLocked). cbv beta.
  rewrite (st_bind (whenS _ _)), R2. cbn [fst snd]. wst.
  eexists. split; [done|]. split; [apply V2|done].
Qed.

(** The first use of a directory. *)
Lemma Open_new dir d :
  d_tape d = [] -> d_kind d <> NotDir -> d_files d = ∅ ->
  exists w, Open dir (Wal_new d) = (StOK, w) /\ wal_ok w [] [] [] /\ wal_dir_ w = dir.
Proof.
  intros Ht Hk Hf. set (w0 := (Wal_new d) <| wal_dir_ := dir |>).
  set (w1 := w0 <| wal_disk ::= fun d => d <| d_kind := IsDir |> |>).
  assert (R1 : open_dir dir w0 = (StOK, w1)).
  { unfold open_dir. wst. unfold w1. change (d_kind (wal_disk w0)) with (d_kind d).
    destruct (d_kind d) eqn:E; [| |done].
    - rewrite st_bind, run_sys_ok by done. cbn [fst snd negb]. by wst.
    - rewrite st_ret. f_equal. unfold w0. destruct d. simpl in *. by subst. }
  assert (Hw1 : wfiles w1 = ∅) by (change (d_files d = ∅); done).
  assert (Hnf : no_faults w1) by done.
  assert (D1 : disk_inv (wal_disk w1) []).
  { assert (forall n, d_files (wal_disk w1) !! n = None) as Hn
      by (intros n; fold (wfiles w1); by rewrite Hw1, lookup_empty).
    split; try done.
    - intros n [f E]. by rewrite Hn in E.
    - intros f E. by rewrite Hn in E.
    - intros k f Hlt. simpl in Hlt. lia. }
  destruct (CreateSegment_ok w1 []) as (w2 & R2 & V2 & I2 & Dir2); try done;
    [intros k Hlt; simpl in Hlt; lia|].
  unfold Open, ensure. rewrite st_bind, st_setw. cbn [fst snd]. fold w0.
  rewrite st_bind, R1. cbn [fst snd status_ok].
  rewrite st_bind, (open_meta_ok w1 [] D1). cbn [fst snd status_ok].
  unfold list_segments. rewrite st_bind, st_bind, run_list_dir by done. cbn [fst snd].
  rewrite Hw1, dom_empty_L, elements_empty. cbn [default from_option id omap list_omap fst snd].
  rewrite st_ret. cbn [fst snd]. change (list.last (sort_ids [])) with (@None Z).
  exists w2. split; [exact R2|]. split; [|by rewrite Dir2]. split; [done|].
  rewrite I2. apply index_ok_nil.
Qed.

Definition reopen (dir : string) : W Status := WalClose ;; Open dir.

Lemma reopen_ok w dir closed fl bf :
  wal_ok w closed fl bf ->
  exists w', reopen dir w = (StOK, w') /\ wal_ok w' closed (fl ++ bf) [].
Proof.
  intros W. destruct (WalClose_ok w closed fl bf W) as (w1 & R1 & D1 & F1).
  destruct (Open_ok w1 dir closed (fl ++ bf) D1 F1) as (w2 & R2 & _ & W2).
  exists w2. unfold reopen. rewrite st_bind, R1. by split.
Qed.

End ops.
