(* ===== verification/WalLog.v ===== *)
(** * The write-ahead log is a durable log

    Reading entries back, and the refinement: whatever sequence of appends,
    truncations, synchronisations, reads and restarts is run, the entries read
    are those of the abstract log. *)

From Stdlib Require Import Ascii.
From stdpp Require Import sorting.
From S2P Require Import Prelude Types Bytes DenseIndex Disk RaftLog Quorum RaftGroup Timers Replicate Membership Text Wal WalScan WalInv WalOpen WalOps.
Import DenseIndexOps.

Section log.
Context {LIB : WalLib}.

(** ** Where an entry is *)

(** [ie] is the position of the record of [e] in the segments. *)
Definition located (segs : list (list Cmd)) (ie : WALIndexEntry) (e : RaftLogEntry) : Prop :=
  exists k pre post, segs !! k = Some (pre ++ CEntry e :: post) /\
    wi_segment_id ie = Z.of_nat k + 1 /\ wi_file_offset ie = kHeaderSize + enc_len pre.

(** The change of the abstract log by a command. *)
Definition log_op (c : Cmd) : MapOp RaftLogEntry :=
  match c with
  | CEntry e => IPut (index_ e) e
  | CPrefix b => IPrefix b
  | CSuffix f => ISuffix f
  end.

Definition log_of (cs : list Cmd) : gmap Z RaftLogEntry := foldl map_op ∅ (map log_op cs).

(** The same effect on an index position and on an entry. *)
Definition agree (segs : list (list Cmd)) (r : option (option WALIndexEntry))
    (s : option (option RaftLogEntry)) : Prop :=
  match r, s with
  | None, None => True
  | Some None, Some None => True
  | Some (Some ie), Some (Some e) => located segs ie e
  | _, _ => False
  end.

Lemma located_new segs cs ie e : located segs ie e -> located (segs ++ [cs]) ie e.
Proof.
  intros (k & pre & post & Hk & ? & ?). exists k, pre, post.
  split; [|done]. rewrite lookup_app_l; [done|]. by apply lookup_lt_Some in Hk.
Qed.

Lemma located_grow closed cs c ie e :
  located (closed ++ [cs]) ie e -> located (closed ++ [cs ++ [c]]) ie e.
Proof.
  intros (k & pre & post & Hk & ? & ?). apply last_seg in Hk as [[Hk Hlt]|[-> <-]].
  - exists k, pre, post. by rewrite lookup_app_l.
  - exists (length closed), pre, (post ++ [c]). rewrite list_lookup_middle by done.
    by rewrite <- app_assoc.
Qed.

Lemma agree_mono segs segs' r s :
  (forall ie e, located segs ie e -> located segs' ie e) -> agree segs r s -> agree segs' r s.
Proof. intros H. destruct r as [[|]|], s as [[|]|]; simpl; auto. Qed.

Lemma agree_last j closed cs c r s :
  agree (closed ++ [cs]) r s ->
  agree (closed ++ [cs ++ [c]])
    (match op_effect j (cmd_op (Z.of_nat (length closed) + 1) (kHeaderSize + enc_len cs) c) with
     | Some x => Some x | None => r end)
    (match op_effect j (log_op c) with Some x => Some x | None => s end).
Proof.
  intros H. apply (agree_mono _ (closed ++ [cs ++ [c]])) in H; [|intros; by apply located_grow].
  destruct c as [e|b|f]; simpl; case_decide; try done. simpl.
  exists (length closed), cs, []. by rewrite list_lookup_middle.
Qed.

Definition effects_ok (j : Z) (segs : list (list Cmd)) : Prop :=
  agree segs (ops_effect j (log_ops 1 segs)) (ops_effect j (map log_op (concat segs))).

Lemma effects_grow j closed cs : effects_ok j (closed ++ [[]]) -> effects_ok j (closed ++ [cs]).
Proof.
  intros H0. induction cs as [|c cs IH] using rev_ind; [done|]. unfold effects_ok in *.
  pose proof (log_ops_snoc closed cs [] c) as E. rewrite !app_nil_r in E. rewrite E.
  rewrite (concat_snoc closed (cs ++ [c])), app_assoc, <- (concat_snoc closed cs).
  rewrite map_app, !ops_effect_app. by apply (agree_last j closed cs c).
Qed.

(** Index and abstract log agree at every log index. *)
Lemma effects_agree j closed cs : effects_ok j (closed ++ [cs]).
Proof.
  revert cs. induction closed as [|c0 closed IH] using rev_ind; intros cs; apply effects_grow; [done|].
  specialize (IH c0). unfold effects_ok in *.
  rewrite log_ops_app. cbn [log_ops seg_ops app]. rewrite app_nil_r, concat_snoc, app_nil_r.
  eapply agree_mono; [|exact IH]. intros; by apply located_new.
Qed.

(** What the index says about a log index. *)
Lemma index_lookup ix closed cs j :
  index_ok ix (log_ops 1 (closed ++ [cs])) ->
  match Get j ix, log_of (concat (closed ++ [cs])) !! j with
  | None, None => True
  | Some ie, Some e => located (closed ++ [cs]) ie e
  | _, _ => False
  end.
Proof.
  intros [[_ Hget] _]. pose proof (effects_agree j closed cs) as H. unfold effects_ok in H.
  rewrite Hget. unfold log_of. rewrite !lookup_map_ops, !lookup_empty.
  destruct (ops_effect j (log_ops 1 _)) as [[ie|]|], (ops_effect j (map _ _)) as [[e|]|]; done.
Qed.

(** ** Reading a record *)

(** An entry without a checksum comes back with that of its record. *)
Definition stored_entry (e : RaftLogEntry) : RaftLogEntry :=
  e <| checksum_ := if decide (checksum_ e = 0)
                    then ComputeCRC32 (crc_data kLogEntry (cmd_payload (CEntry e)))
                    else checksum_ e |>.

Context {LAWS : WalLaws}.

Lemma ParseProtobuf_ok e :
  cmd_ok (CEntry e) ->
  ParseProtobufPayload (cmd_payload (CEntry e))
    (ComputeCRC32 (crc_data kLogEntry (cmd_payload (CEntry e)))) = inr (stored_entry e).
Proof.
  intros [[(Hi & Ht & Hc) [bs Hs]] _]. unfold ParseProtobufPayload, stored_entry, cmd_payload.
  rewrite Hs. simpl. rewrite (pb_roundtrip (proto_of e) bs) by (try apply u32_u64; done).
  unfold proto_of. simpl. rewrite !u32_small by done. by destruct e.
Qed.

Lemma ReadLogEntryAt_ok w id A C e :
  no_faults w -> is_u64 id -> has_header w id ->
  segment_format_versions_ w !! id = Some kFormatVersionProtobuf -> cmd_ok (CEntry e) ->
  contents (segment_name id) w = A ++ encode_record (cmd_record (CEntry e)) ++ C ->
  ReadLogEntryAt id (Z.of_nat (length A)) w =
    (inr (stored_entry e), w <| cached_segment_ := Some id |>).
Proof.
  intros Hnf Hid Hh Hf Hok Hc. set (r := cmd_record (CEntry e)) in *.
  pose proof (cmd_record_ok _ Hok) as Hr. fold r in Hr. pose proof (payload_u32 r Hr) as Hu.
  destruct Hr as [Ht Hl].
  unfold ReadLogEntryAt. rewrite st_bind, GetCachedSegmentFd_ok by done. cbn [fst snd status_ok negb].
  set (w1 := w <| cached_segment_ := Some id |>).
  assert (Hc1 : contents (segment_name id) w1 = A ++ encode_record r ++ C) by done. clear Hc.
  unfold encode_record, crc_data in Hc1. rewrite Hu in Hc1.
  set (crc := le 4 (ComputeCRC32 _)) in Hc1. set (len := le 4 (Z.of_nat _)) in Hc1.
  set (ty := le 2 (wr_type r)) in Hc1.
  assert (length crc = 4%nat /\ length len = 4%nat /\ length ty = 2%nat) as (L1 & L2 & L3)
    by (by split_and!; apply length_le).
  assert (Vl : le_val len = Z.of_nat (length (wr_payload r))).
  { apply le32. unfold is_u32, UINT32_MAX, kMaxRecordSize in *. lia. }
  assert (Vt : le_val ty = kLogEntry) by done.
  rewrite <- !app_assoc in Hc1.
  rewrite st_bind, (read_piece _ _ _ _ A crc (len ++ ty ++ wr_payload r ++ C)) by done. cbn [fst snd].
  rewrite st_bind, (read_piece _ _ _ _ (A ++ crc) len (ty ++ wr_payload r ++ C))
    by (rewrite ?Hc1, <- ?app_assoc, ?length_app; done || lia). cbn [fst snd].
  rewrite st_bind, (read_piece _ _ _ _ (A ++ crc ++ len) ty (wr_payload r ++ C))
    by (rewrite ?Hc1, <- ?app_assoc, ?length_app; done || lia). cbn [fst snd].
  rewrite Vl, decide_False by lia. rewrite st_bind.
  assert ((if decide (0 < Z.of_nat (length (wr_payload r)))
           then read_at (segment_name id) (Z.of_nat (length A) + 10)
                  (Z.to_nat (Z.of_nat (length (wr_payload r))))
           else mret (Some [])) w1 = (Some (wr_payload r), w1)) as ->.
  { case_decide.
    - rewrite Nat2Z.id. apply (read_piece _ _ _ _ (A ++ crc ++ len ++ ty) _ C);
        rewrite ?Hc1, <- ?app_assoc, ?length_app; done || lia.
    - destruct (wr_payload r) eqn:E; [done|]. simpl in *. lia. }
  cbn [fst snd].
  assert (Ec : len ++ ty ++ wr_payload r = crc_data kLogEntry (cmd_payload (CEntry e))).
  { unfold crc_data, len. rewrite <- Hu. done. }
  assert (Vc : le_val crc = ComputeCRC32 (len ++ ty ++ wr_payload r))
    by apply le32, u32_ComputeCRC32.
  rewrite Vc, decide_False by (intros Hn; by apply Hn).
  rewrite Vt, decide_False by (intros Hn; by apply Hn).
  rewrite st_bind, st_reads. cbn [fst snd].
  assert (Hfmt : segment_format id w1 = kFormatVersionProtobuf)
    by (unfold segment_format, w1; proj_simp; by rewrite Hf).
  rewrite Hfmt, decide_True, Ec by done.
  change (wr_payload r) with (cmd_payload (CEntry e)). by rewrite ParseProtobuf_ok.
Qed.

Lemma located_contents w closed fl ie e :
  disk_inv (wal_disk w) (closed ++ [fl]) -> located (closed ++ [fl]) ie e ->
  exists A C k, contents (segment_name (wi_segment_id ie)) w =
      A ++ encode_record (cmd_record (CEntry e)) ++ C /\
    wi_file_offset ie = Z.of_nat (length A) /\ (k <= length closed)%nat /\
    wi_segment_id ie = Z.of_nat k + 1 /\ has_header w (wi_segment_id ie) /\ cmd_ok (CEntry e).
Proof.
  intros D (k & pre & post & Hk & Hs & Ho).
  destruct (dv_segs _ _ D k _ Hk) as (f & Hf & Hd).
  assert (Hc : contents (segment_name (wi_segment_id ie)) w =
               seg_file (wi_segment_id ie) (pre ++ CEntry e :: post)).
  { unfold contents. rewrite Hs. fold (wfiles w) in Hf.
    unfold wfiles in Hf. simpl. by rewrite Hf. }
  pose proof (dv_cmds _ _ D) as Hall. rewrite list.Forall_forall in Hall.
  destruct (Hall _ (list_elem_of_lookup_2 _ _ _ Hk)) as [Hcs _].
  apply Forall_app in Hcs as [_ Hcs]. apply Forall_cons_1 in Hcs as [He _].
  eexists (segment_header (wi_segment_id ie) kFormatVersionProtobuf ++ enc pre), _, k.
  rewrite Hc. split_and!; try done.
  - unfold seg_file. rewrite enc_app. change (CEntry e :: post) with ([CEntry e] ++ post).
    rewrite enc_app. replace (enc [CEntry e]) with (encode_record (cmd_record (CEntry e)))
      by (unfold enc; cbn [map concat]; by rewrite app_nil_r).
    rewrite <- !app_assoc. done.
  - rewrite length_data. done.
  - apply lookup_lt_Some in Hk. rewrite length_snoc in Hk. lia.
  - apply (seg_file_header _ _ (pre ++ CEntry e :: post)); [by exists f; rewrite Hs|done].
Qed.

Lemma read_located w closed fl ie e :
  wal_ok w closed fl [] -> located (closed ++ [fl]) ie e ->
  exists w', ReadLogEntryAt (wi_segment_id ie) (wi_file_offset ie) w = (inr (stored_entry e), w') /\
    wal_ok w' closed fl [] /\ wal_dir_ w' = wal_dir_ w.
Proof.
  intros [V Hix] Hl. pose proof (wv_disk _ _ _ _ V) as D.
  destruct (located_contents w _ _ ie e D Hl) as (A & C & k & Hc & Ho & Hk & Hs & Hh & Hok).
  pose proof (dv_count _ _ D) as Hn. rewrite length_snoc in Hn.
  rewrite Ho, (ReadLogEntryAt_ok w _ A C e); try done.
  2: apply D. 2: unfold is_u64; lia. 2: rewrite Hs; by apply V.
  eexists. split; [done|]. split; [|done]. split; [|done].
  split; try apply V. proj_simp. intros id [= <-]. eauto.
Qed.

(** ** The refinement *)

(** What the abstract log answers to [GetEntry] and [GetEntries]. *)
Definition log_get (i : Z) (m : gmap Z RaftLogEntry) : Status + RaftLogEntry :=
  match m !! i with
  | Some e => inr (stored_entry e)
  | None => inl (Error1 "Entry not found")
  end.

Definition log_range (start end_ : Z) (m : gmap Z RaftLogEntry) : list RaftLogEntry :=
  omap (fun i => stored_entry <$> m !! i) (seqZ start (end_ - start)).

Lemma concat_wal (closed : list (list Cmd)) fl bf :
  concat (closed ++ [fl ++ bf]) = concat closed ++ fl ++ bf.
Proof. apply concat_snoc. Qed.

Lemma flush_for_read w closed fl bf :
  wal_ok w closed fl bf ->
  exists w', EnsureBufferFlushedForReadLocked w = (StOK, w') /\ wal_ok w' closed (fl ++ bf) [] /\
    wal_index_ w' = wal_index_ w /\ wal_dir_ w' = wal_dir_ w.
Proof.
  intros [V Hix]. destruct (Flush_ok w closed fl bf V) as (w1 & R1 & V1 & I1 & Dir1).
  exists w1. split; [done|]. split; [|done]. split; [done|]. by rewrite app_nil_r, I1.
Qed.

Lemma WalGetEntry_ok w closed fl bf i :
  wal_ok w closed fl bf ->
  exists w', WalGetEntry i w = (log_get i (log_of (concat closed ++ fl ++ bf)), w') /\
    wal_ok w' closed (fl ++ bf) [] /\ wal_dir_ w' = wal_dir_ w.
Proof.
  intros W. destruct (flush_for_read w closed fl bf W) as (w1 & R1 & W1 & I1 & Dir1).
  destruct W as [V Hix].
  unfold WalGetEntry. rewrite st_bind, R1.
  cbn [fst snd status_ok negb]. rewrite st_bind, st_reads. cbn [fst snd]. rewrite I1.
  pose proof (index_lookup _ _ _ i Hix) as Hi. unfold log_get.
  rewrite <- concat_wal. destruct (Get i _) as [ie|], (log_of _ !! i) as [e|]; try done.
  2:{ exists w1. by rewrite st_ret. }
  destruct (read_located w1 _ _ ie e W1 Hi) as (w2 & R2 & W2 & Dir2).
  exists w2. rewrite R2. split_and!; [done|done|congruence].
Qed.

Lemma slot_cons ie es k : slot (ie :: es) (Z.of_nat (S k)) = slot es (Z.of_nat k).
Proof. unfold slot. rewrite !decide_False by lia. by rewrite !Nat2Z.id. Qed.

Lemma slot_head ie es :
  slot (ie :: es) (Z.of_nat 0) = if decide (wi_segment_id ie = 0) then None else Some ie.
Proof. done. Qed.

(** The slots of a range of the index are the entries of a range of the log. *)
Lemma read_slots_ok closed fl (m : gmap Z RaftLogEntry) : forall es w i out,
  wal_ok w closed fl [] ->
  (forall k, match slot es (Z.of_nat k), m !! (i + Z.of_nat k) with
             | None, None => True | Some ie, Some e => located (closed ++ [fl]) ie e
             | _, _ => (length es <= k)%nat end) ->
  exists w', read_slots es out w =
      ((StOK, out ++ omap (fun i => stored_entry <$> m !! i) (seqZ i (Z.of_nat (length es)))), w') /\
    wal_ok w' closed fl [] /\ wal_dir_ w' = wal_dir_ w.
Proof.
  induction es as [|ie es IH]; intros w i out W Hm.
  { exists w. cbn. by rewrite app_nil_r. }
  assert (Hrest : forall k, match slot es (Z.of_nat k), m !! (i + 1 + Z.of_nat k) with
      | None, None => True | Some ie, Some e => located (closed ++ [fl]) ie e
      | _, _ => (length es <= k)%nat end).
  { intros k. specialize (Hm (S k)). replace (i + 1 + Z.of_nat k) with (i + Z.of_nat (S k)) by lia.
    rewrite slot_cons in Hm. cbn [length] in Hm.
    destruct (slot _ _), (m !! _); try done; lia. }
  specialize (Hm 0%nat). rewrite slot_head, Z.add_0_r in Hm.
  rewrite seqZ_cons by (simpl; lia). replace (Z.succ i) with (i + 1) by lia.
  replace (Z.pred (Z.of_nat (length (ie :: es)))) with (Z.of_nat (length es)) by (simpl; lia).
  cbn [read_slots omap list_omap]. destruct (decide (wi_segment_id ie = 0)).
  - destruct (m !! i); [simpl in Hm; lia|]. cbn [fmap option_fmap option_map]. by apply IH.
  - destruct (m !! i) as [e|]; [|simpl in Hm; lia]. cbn [fmap option_fmap option_map].
    destruct (read_located w _ _ ie e W Hm) as (w1 & R1 & W1 & D1).
    rewrite st_bind, R1. cbn [fst snd].
    destruct (IH w1 (i + 1) (out ++ [stored_entry e]) W1 Hrest) as (w2 & R2 & W2 & D2).
    exists w2. rewrite R2, <- app_assoc. split_and!; [done|done|congruence].
Qed.

Lemma log_range_none (m : gmap Z RaftLogEntry) start end_ :
  (forall i, start <= i < end_ -> m !! i = None) -> log_range start end_ m = [].
Proof.
  intros H. unfold log_range. apply elem_of_nil_inv. intros e He.
  apply list_elem_of_omap in He as (i & Hi & E). apply elem_of_seqZ in Hi.
  by rewrite H in E by lia.
Qed.

Lemma log_range_split (m : gmap Z RaftLogEntry) start mid end_ :
  start <= mid <= end_ -> log_range start end_ m = log_range start mid m ++ log_range mid end_ m.
Proof.
  intros H. unfold log_range. rewrite <- omap_app. f_equal.
  replace (end_ - start) with ((mid - start) + (end_ - mid)) by lia.
  rewrite seqZ_app by lia. do 2 f_equal. lia.
Qed.

(** Entries outside the part of the index that is read do not exist. *)
Lemma log_range_shrink (m : gmap Z RaftLogEntry) start from to end_ :
  start <= from <= to -> to <= end_ ->
  (forall i, start <= i < from \/ to <= i < end_ -> m !! i = None) ->
  log_range start end_ m = log_range from to m.
Proof.
  intros H1 H2 H. rewrite (log_range_split m start from end_), (log_range_split m from to end_) by lia.
  rewrite (log_range_none m start from), (log_range_none m to end_) by (intros; apply H; lia).
  by rewrite app_nil_r.
Qed.

Lemma slot_range es a n k :
  (k < n)%nat -> slot (take n (drop a es)) (Z.of_nat k) = slot es (Z.of_nat a + Z.of_nat k).
Proof.
  intros H. unfold slot. rewrite !decide_False by lia.
  rewrite lookup_take_lt by lia. rewrite lookup_drop.
  by replace (Z.to_nat (Z.of_nat a + Z.of_nat k)) with (a + Z.to_nat (Z.of_nat k))%nat by lia.
Qed.

Lemma index_entry_range ix closed cs i e :
  index_ok ix (log_ops 1 (closed ++ [cs])) -> log_of (concat (closed ++ [cs])) !! i = Some e ->
  di_entries ix <> [] /\ di_first ix <= i < di_first ix + Size ix.
Proof.
  intros Hix He. pose proof (index_lookup _ _ _ i Hix) as H. rewrite He in H.
  destruct Hix as [[Hwf _] _]. rewrite (Get_slot _ _ Hwf) in H.
  destruct (slot _ _) eqn:Es; [|done].
  destruct (decide (i - di_first ix < 0)); [by rewrite slot_neg in Es|].
  destruct (decide (Size ix <= i - di_first ix)); [by rewrite slot_past in Es|].
  split; [|lia]. intros E. by rewrite E, slot_past_nil in Es.
Qed.

Lemma WalGetEntries_ok w closed fl bf start end_ :
  wal_ok w closed fl bf -> is_u64 start -> is_u64 end_ ->
  exists w' fl' bf',
    WalGetEntries start end_ w =
      ((StOK, log_range start end_ (log_of (concat closed ++ fl ++ bf))), w') /\
    wal_ok w' closed fl' bf' /\ fl' ++ bf' = fl ++ bf /\ wal_dir_ w' = wal_dir_ w /\
    fl `prefix_of` fl'.
Proof.
  intros W Hs He. unfold WalGetEntries. case_decide as Hse.
  { exists w, fl, bf. rewrite log_range_none by lia. by rewrite st_ret. }
  destruct (flush_for_read w closed fl bf W) as (w1 & R1 & W1 & I1 & Dir1).
  destruct W as [V Hix].
  rewrite st_bind, R1. cbn [fst snd status_ok negb]. rewrite st_bind, st_reads. cbn [fst snd].
  rewrite I1. clear R1. rewrite <- concat_wal. set (m := log_of _). set (ix := wal_index_ w) in *.
  assert (Hr : forall i e, m !! i = Some e -> di_entries ix <> [] /\
                 di_first ix <= i < di_first ix + Size ix)
    by (intros; by eapply index_entry_range).
  assert (Hwf : index_wf ix) by (by destruct Hix as [[Hwf _] _]).
  unfold FirstIndex, Empty. destruct (decide (di_entries ix = [])) as [En|Hne].
  { rewrite bool_decide_true by done. cbn [orb]. exists w1, (fl ++ bf), [].
    rewrite st_ret, log_range_none, app_nil_r; [split_and!; [done..|by eexists]|]. intros i _.
    destruct (m !! i) eqn:E; [by apply Hr in E as [? _]|done]. }
  rewrite (bool_decide_false (di_entries ix = [])), (LastIndex_eq ix Hwf Hne) by done. cbn [orb].
  assert (Hnone : forall i, i < di_first ix \/ di_first ix + Size ix <= i -> m !! i = None).
  { intros i Hi. destruct (m !! i) eqn:E; [apply Hr in E; lia|done]. }
  destruct (_ || _) eqn:Eout.
  { exists w1, (fl ++ bf), [].
    rewrite st_ret, log_range_none, app_nil_r; [split_and!; [done..|by eexists]|]. intros i Hi.
    apply Hnone. apply orb_prop in Eout as [Eo|Eo]; apply bool_decide_eq_true in Eo; lia. }
  apply orb_false_elim in Eout as [E1%bool_decide_eq_false E2%bool_decide_eq_false].
  pose proof Hwf as [Hf0 Hf1].
  rewrite (u64_small (_ + 1)) by (unfold is_u64, Size in *; lia).
  set (from := Z.max start (di_first ix)). set (to := Z.min end_ (di_first ix + Size ix - 1 + 1)).
  set (es := take _ _).
  assert (Hlen : Z.of_nat (length es) = to - from).
  { unfold es. rewrite length_take, length_drop. unfold Size in *. lia. }
  rewrite (log_range_shrink m start from to end_) by (try lia; intros; apply Hnone; lia).
  destruct (read_slots_ok closed (fl ++ bf) m es w1 from [] W1) as (w2 & R2 & W2 & D2).
  { intros k. destruct (decide (k < length es)%nat).
    - pose proof (index_lookup _ _ _ (from + Z.of_nat k) Hix) as H.
      unfold es. rewrite slot_range by lia. rewrite Get_slot in H by done. fold m in H.
      replace (Z.of_nat (Z.to_nat (from - di_first ix)) + Z.of_nat k)
        with (from + Z.of_nat k - di_first ix) by lia.
      destruct (slot _ _), (m !! _); done.
    - rewrite slot_past by lia. destruct (m !! _); [lia|done]. }
  exists w2, (fl ++ bf), []. rewrite R2, Hlen, app_nil_r. split_and!; [done..|congruence|by eexists].
Qed.

End log.
