(* ===== verification/WalRefine.v ===== *)
(** * The write-ahead log refines a map from indexes to entries

    The specification is a finite map with the operations of the persister;
    the refinement runs any sequence of calls and restarts on both and compares
    every answer. At the end, concrete serialization functions that satisfy
    what is assumed of the libraries. *)

From Stdlib Require Import Ascii.
From Stdlib Require Strings.Byte.
From stdpp Require Import sorting.
From S2P Require Import Prelude Types Bytes DenseIndex Disk RaftLog Quorum RaftGroup Timers Replicate Membership Text Wal WalScan WalInv WalOpen WalOps WalLog.
Import DenseIndexOps.

(** ** Calls *)

Inductive WalCall :=
| WCmd (c : Cmd)
| WSync
| WGet (i : Z)
| WGetRange (start end_ : Z)
| WReopen.

#[global] Instance WalCall_sync_dec (c : WalCall) : Decision (c = WSync).
Proof. destruct c; (by left) || (by right). Defined.

Inductive Answer :=
| AStatus (s : Status)
| AEntry (r : Status + RaftLogEntry)
| AEntries (r : Status * list RaftLogEntry).

Section runs.
Context {T : Type} (call : WalCall -> State T Answer).

Fixpoint run_calls (cs : list WalCall) : State T (list Answer) :=
  match cs with
  | [] => mret []
  | c :: rest => a ← call c; answers ← run_calls rest; mret (a :: answers)
  end.
End runs.

Section refinement.
Context {LIB : WalLib}.

(** The persister. *)
Definition wal_call (c : WalCall) : W Answer :=
  match c with
  | WCmd c => s ← run_cmd c; mret (AStatus s)
  | WSync => s ← WalSync; mret (AStatus s)
  | WGet i => r ← WalGetEntry i; mret (AEntry r)
  | WGetRange start end_ => r ← WalGetEntries start end_; mret (AEntries r)
  | WReopen => dir ← reads wal_dir_; s ← reopen dir; mret (AStatus s)
  end.

(** The specification: a map, and no error. *)
Definition spec_call (c : WalCall) : State (gmap Z RaftLogEntry) Answer := fun m =>
  match c with
  | WCmd c => (AStatus StOK, map_op m (log_op c))
  | WSync | WReopen => (AStatus StOK, m)
  | WGet i => (AEntry (log_get i m), m)
  | WGetRange start end_ => (AEntries (StOK, log_range start end_ m), m)
  end.

(** Arguments of machine width, and records that fit. *)
Definition call_ok (c : WalCall) : Prop :=
  match c with
  | WCmd c => cmd_ok c
  | WGetRange start end_ => is_u64 start /\ is_u64 end_
  | _ => True
  end.

(** The commands of a call. *)
Definition call_cmds (c : WalCall) : list Cmd := match c with WCmd c => [c] | _ => [] end.

(** The persister holds the commands [cs], and those of [fl] are in its files. *)
Definition wal_holds (w : Wal) (cs flushed : list Cmd) (n : nat) : Prop :=
  exists closed fl bf, wal_ok w closed fl bf /\ cs = concat closed ++ fl ++ bf /\
    flushed `prefix_of` concat closed ++ fl /\ (length closed <= n)%nat.

Context {LAWS : WalLaws}.

Lemma log_of_snoc cs c : log_of (cs ++ [c]) = map_op (log_of cs) (log_op c).
Proof. unfold log_of. by rewrite map_app, foldl_app. Qed.

Lemma wal_holds_flushed w cs flushed closed fl bf n :
  wal_ok w closed (fl ++ bf) [] -> cs = concat closed ++ fl ++ bf ->
  flushed `prefix_of` concat closed ++ fl -> (length closed <= n)%nat -> wal_holds w cs cs (S n).
Proof. intros W -> Hp Hn. exists closed, (fl ++ bf), []. rewrite app_nil_r. split_and!; [done..|lia]. Qed.

Lemma wal_holds_weaken w cs flushed flushed' n :
  wal_holds w cs flushed n -> flushed' `prefix_of` flushed -> wal_holds w cs flushed' n.
Proof. intros (closed & fl & bf & ? & ? & ? & ?) Hp. exists closed, fl, bf. split_and!; try done. by etrans. Qed.

(** A call answers like the specification and holds its commands. *)
Lemma wal_call_refines w cs flushed n c :
  wal_holds w cs flushed n -> call_ok c -> Z.of_nat n + 2 <= UINT64_MAX ->
  (wal_call c w).1 = (spec_call c (log_of cs)).1 /\
  (spec_call c (log_of cs)).2 = log_of (cs ++ call_cmds c) /\
  wal_holds (wal_call c w).2 (cs ++ call_cmds c)
    (if decide (c = WSync) then cs else flushed) (S n).
Proof.
  intros (closed & fl & bf & W & -> & Hp & Hn) Hok Hmax. set (cs := concat closed ++ fl ++ bf).
  assert (Hcs : flushed `prefix_of` cs) by (etrans; [exact Hp|]; exists bf; by rewrite <- app_assoc).
  destruct c as [c| |i|a b|]; cbn [wal_call call_cmds]; rewrite ?app_nil_r.
  - destruct (run_cmd_ok w closed fl bf c W Hok) as (w' & cl & fl' & bf' & R & W' & E & L & _ & Hp'); [lia|].
    rewrite st_bind, R. split; [done|]. split; [by rewrite log_of_snoc|]. rewrite decide_False by done.
    exists cl, fl', bf'. split; [done|]. split_and!; [done|etrans; [exact Hp|exact Hp']|lia].
  - destruct (WalSync_ok w closed fl bf W) as (w' & R & W' & _).
    rewrite st_bind, R. split; [done|]. split; [done|]. rewrite decide_True by done.
    by eapply wal_holds_flushed.
  - destruct (WalGetEntry_ok w closed fl bf i W) as (w' & R & W' & _).
    rewrite st_bind, R. split; [done|]. split; [done|]. rewrite decide_False by done.
    eapply wal_holds_weaken; [by eapply wal_holds_flushed|done].
  - destruct Hok as [Ha Hb].
    destruct (WalGetEntries_ok w closed fl bf a b W Ha Hb) as (w' & fl' & bf' & R & W' & E & _ & Hf).
    rewrite st_bind, R. split; [done|]. split; [done|]. rewrite decide_False by done.
    exists closed, fl', bf'. split; [done|]. split_and!; [unfold cs; congruence| |lia].
    etrans; [exact Hp|]. by apply list.prefix_app.
  - rewrite st_bind, st_reads. cbn [fst snd].
    destruct (reopen_ok w (wal_dir_ w) closed fl bf W) as (w' & R & W').
    rewrite st_bind, R. split; [done|]. split; [done|]. rewrite decide_False by done.
    eapply wal_holds_weaken; [by eapply wal_holds_flushed|done].
Qed.

Lemma run_calls_refine calls : forall w cs flushed n,
  wal_holds w cs flushed n -> Forall call_ok calls -> Z.of_nat (n + length calls) + 2 <= UINT64_MAX ->
  (run_calls wal_call calls w).1 = (run_calls spec_call calls (log_of cs)).1 /\
  wal_holds (run_calls wal_call calls w).2 (cs ++ (calls ≫= call_cmds)) flushed (n + length calls).
Proof.
  induction calls as [|c calls IH]; intros w cs flushed n R Hok Hn;
    cbn [run_calls length mbind list_bind] in *.
  { rewrite Nat.add_0_r, app_nil_r. done. }
  apply Forall_cons_1 in Hok as [Hc Hok].
  destruct (wal_call_refines w cs flushed n c R Hc) as (E1 & M1 & R1); [lia|].
  destruct (IH _ _ _ _ R1 Hok) as [E2 R2]; [lia|].
  rewrite !st_bind. cbn [fst snd]. rewrite E1, E2, M1. split; [done|].
  rewrite Nat.add_succ_r, app_assoc. eapply wal_holds_weaken; [exact R2|].
  case_decide; [|done]. destruct R as (closed & fl & bf & _ & -> & [k E] & _).
  exists (k ++ bf). by rewrite !app_assoc, E.
Qed.

(** C5. Whatever sequence of appends, truncations, synchronisations, reads and
    restarts is run on the persister from an empty directory, [Open] succeeds
    and every call answers as a finite map from indexes to entries does: no
    call fails, an entry is read back as it was appended until it is truncated,
    and a restart loses nothing. *)
Theorem wal_refines_map dir d cs :
  d_tape d = [] -> d_kind d <> NotDir -> d_files d = ∅ ->
  Forall call_ok cs -> Z.of_nat (length cs) + 2 <= UINT64_MAX ->
  (Open dir (Wal_new d)).1 = StOK /\
  (run_calls wal_call cs (Open dir (Wal_new d)).2).1 = (run_calls spec_call cs ∅).1.
Proof.
  intros Ht Hk Hf Hok Hn. destruct (Open_new dir d Ht Hk Hf) as (w & R & W & _). rewrite R.
  split; [done|]. apply (run_calls_refine cs w [] [] 0); [|done|lia].
  by exists [], [], [].
Qed.

End refinement.

(** ** Concrete libraries

    A length-prefixed encoding in place of protobuf, and eight bytes in place of
    a JSON number: they show that what is assumed of the libraries can hold. *)
Module PlainLib.

Definition str_bytes (s : string) : bytes := String.list_byte_of_string s.

Definition serialize (p : RaftLogEntryProto) : option bytes :=
  if decide (Z.of_nat (String.length (pb_data p)) <= UINT64_MAX) then
    Some (le 8 (pb_index p) ++ le 8 (pb_term p) ++ le 8 (pb_checksum p) ++
          le 8 (Z.of_nat (length (str_bytes (pb_data p)))) ++
          str_bytes (pb_data p) ++ str_bytes (pb_command p))
  else None.

Definition parse (bs : bytes) : option RaftLogEntryProto :=
  let field k := le_val (take 8 (drop (8 * k) bs)) in
  let n := Z.to_nat (field 3%nat) in
  Some (mkProto (field 0%nat) (field 1%nat) (String.string_of_list_byte (take n (drop 32 bs)))
          (String.string_of_list_byte (drop n (drop 32 bs))) (field 2%nat)).

#[export] Instance lib : WalLib := {
  pb_serialize := serialize;
  pb_parse := parse;
  json_dump_u64 _ n := le 8 n;
  json_get_u64 bs _ := inr (le_val bs);
  json_log_entry _ := inl "not JSON";
  json_dump_meta _ _ _ := str_bytes "{}";
  json_meta_error bs := if decide (bs = []) then Some "empty document" else None
}.

Lemma length_str_bytes s : length (str_bytes s) = String.length s.
Proof.
  unfold str_bytes, String.list_byte_of_string. rewrite length_map.
  induction s as [|c s IH]; simpl; [done|]. by rewrite IH.
Qed.

#[export] Instance laws : WalLaws.
Proof.
  split; [|intros; by apply (f_equal inr), le64|done].
  intros [i t d c k] bs Hi Ht Hk. cbn [pb_serialize lib pb_index pb_term pb_checksum] in *.
  unfold serialize. cbn [pb_data pb_command pb_index pb_term pb_checksum].
  case_decide as Hd; [|done]. intros <-%(inj Some). cbn [pb_parse lib]. unfold parse. cbv beta zeta.
  set (D := str_bytes d). set (C := str_bytes c).
  assert (HD : is_u64 (Z.of_nat (length D))) by (unfold D; rewrite length_str_bytes; split; [lia|done]).
  assert (Ht8 : forall x rest, take 8 (le 8 x ++ rest) = le 8 x)
    by (intros; apply take_app_length'; by rewrite length_le).
  assert (Hd8 : forall x rest n, drop (8 + n) (le 8 x ++ rest) = drop n rest).
  { intros. rewrite <- drop_drop. by rewrite drop_app_length' by (by rewrite length_le). }
  change (8 * 0)%nat with 0%nat. change (8 * 1)%nat with (8 + 0)%nat.
  change (8 * 2)%nat with (8 + (8 + 0))%nat. change (8 * 3)%nat with (8 + (8 + (8 + 0)))%nat.
  change 32%nat with (8 + (8 + (8 + (8 + 0))))%nat. rewrite !Hd8, !drop_0, !Ht8, !le64 by done.
  rewrite Nat2Z.id, take_app_length, drop_app_length.
  unfold D, C, str_bytes. by rewrite !String.string_of_list_byte_of_string.
Qed.

End PlainLib.
Import PlainLib.

(** ** A run *)

Definition sample_entry (i : Z) (data : string) : RaftLogEntry := mkEntry i 7 data "set" 0.

Definition sample_calls : list WalCall :=
  [WCmd (CEntry (sample_entry 1 "a")); WCmd (CEntry (sample_entry 2 "bb")); WReopen;
   WCmd (CSuffix 2); WGet 2; WCmd (CEntry (sample_entry 2 "cc")); WGet 2; WSync;
   WCmd (CPrefix 2); WReopen; WGetRange 0 10].

Definition empty_disk : Disk := mkDisk Absent ∅ [].

(** A command of a concrete run is well formed. *)
Ltac cmd_ok_tac :=
  split; [try (split; [split_and!|eexists; vm_compute; reflexivity]) |]; by vm_compute.

Lemma sample_calls_ok : Forall (call_ok (LIB := PlainLib.lib)) sample_calls.
Proof. unfold sample_calls. repeat constructor; unfold call_ok; done || cmd_ok_tac. Qed.

Lemma wal_refines_map_witness :
  (Open "wal" (Wal_new empty_disk)).1 = StOK /\
  (run_calls wal_call sample_calls (Open "wal" (Wal_new empty_disk)).2).1 =
    (run_calls spec_call sample_calls ∅).1.
Proof.
  apply (wal_refines_map "wal" empty_disk sample_calls);
    [done|done|done|apply sample_calls_ok|by vm_compute].
Defined.
