(* ===== verification/WalCrash.v ===== *)
(** * The write-ahead log after a crash

    What [Open] makes of the files a crash leaves: of a process that dies with
    records in its buffer, and of a write that was cut short. *)

From Stdlib Require Import Ascii.
From Stdlib Require Strings.Byte.
From stdpp Require Import sorting.
From S2P Require Import Prelude Types Bytes DenseIndex Disk RaftLog Quorum RaftGroup Timers Replicate Membership Text Wal WalScan WalInv WalOpen WalOps WalLog WalRefine.
Import DenseIndexOps.

Section crash.
Context {LIB : WalLib}.

(** ** A write that was cut short *)

(** Part of a record, as an interrupted [write] leaves it. *)
Definition torn_record (junk : bytes) : Prop :=
  exists c rest, cmd_ok c /\ encode_record (cmd_record c) = junk ++ rest /\ junk <> [] /\ rest <> [].

(** The last eight bytes do not look like the offset of a trailer. *)
Definition no_trailer (data : bytes) : Prop :=
  Z.of_nat (length data) - kTrailerSize < le_val (drop (length data - 8) data).

(** The files when the last segment, number [n], ends in the middle of a record. *)
Definition torn_file (n : nat) (junk : bytes) (k : nat) (cs : list Cmd) (data : bytes) : Prop :=
  if decide (k = n) then
    data = segment_header (Z.of_nat k + 1) kFormatVersionProtobuf ++ enc cs ++ junk /\
    no_trailer data
  else exact_file k cs data.

Lemma scan_record_torn id w A junk :
  no_faults w -> torn_record junk -> contents (segment_name id) w = A ++ junk ->
  exists s, status_ok s = false /\
    scan_record id (Z.of_nat (length A)) (Z.of_nat (length (A ++ junk))) w = (inl s, w).
Proof.
  intros Hnf (c & rest & Hok & E & Hj & Hr) Hc. set (r := cmd_record c) in *.
  pose proof (cmd_record_ok _ Hok) as Hrec. fold r in Hrec.
  pose proof (payload_u32 r Hrec) as Hu. destruct Hrec as [Ht Hl].
  assert (Hsz : (length junk < 10 + length (wr_payload r))%nat).
  { apply (f_equal length) in E. rewrite length_app in E.
    assert (length (encode_record r) = (10 + length (wr_payload r))%nat).
    { pose proof (length_encode_record r) as L. unfold rec_len in L. lia. }
    destruct rest; [done|]. simpl in *. lia. }
  unfold scan_record. rewrite st_bind.
  destruct (decide (length junk < 4)%nat) as [?|H4].
  { rewrite read_past by (try done; rewrite Hc, length_app; lia). eexists; split; [|reflexivity]; done. }
  assert (exists x y z, junk = x ++ y ++ z /\ length x = 4%nat /\
            (length y = 4%nat \/ (length y < 4)%nat /\ z = [])) as (x & y & z & -> & Lx & Hy).
  { exists (take 4 junk), (take 4 (drop 4 junk)), (drop 4 (drop 4 junk)).
    rewrite !take_drop. rewrite !length_take, length_drop. split; [done|]. split; [lia|].
    destruct (decide (8 <= length junk)%nat); [left; lia|right].
    rewrite !drop_drop. rewrite drop_ge by lia. split; [lia|done]. }
  rewrite (read_piece _ _ _ _ A x (y ++ z)) by done. cbn [fst snd]. rewrite st_bind.
  rewrite !length_app in *. destruct Hy as [Ly|[Ly ->]].
  2:{ rewrite read_past by (try done; rewrite Hc, !length_app; simpl in *; lia). eexists; split; [|reflexivity]; done. }
  rewrite (read_piece _ _ _ _ (A ++ x) y z)
    by (try done; rewrite ?Hc, <- ?app_assoc, ?length_app; done || lia). cbn [fst snd]. rewrite st_bind.
  destruct (decide (length z < 2)%nat) as [?|H2].
  { rewrite read_past by (try done; rewrite Hc, !length_app; simpl in *; lia). eexists; split; [|reflexivity]; done. }
  rewrite (read_piece _ _ _ _ (A ++ x ++ y) (take 2 z) (drop 2 z))
    by (try done; rewrite ?Hc, <- ?app_assoc, ?take_drop, ?length_app, ?length_take; done || lia).
  cbn [fst snd].
  assert (y = le 4 (Z.of_nat (length (wr_payload r)))) as ->.
  { unfold encode_record, crc_data in E. rewrite Hu in E. rewrite <- !app_assoc in E.
    apply app_inj_1 in E as [_ E]; [|by rewrite length_le].
    apply app_inj_1 in E as [E _]; [done|by rewrite length_le]. }
  rewrite le32 by (unfold is_u32, UINT32_MAX, kMaxRecordSize in *; lia).
  rewrite decide_True by lia. eexists; split; [|reflexivity]; done.
Qed.

Lemma ReadTrailer_torn w id :
  no_faults w -> no_trailer (contents (segment_name id) w) ->
  exists s, ReadTrailer id w = (inl s, w).
Proof.
  intros Hnf Hn. unfold ReadTrailer. st. case_decide as Hs; [by eexists|].
  unfold kHeaderSize, kTrailerSize in *. rewrite st_bind, run_read_at by done.
  rewrite bool_decide_true by lia. cbn [fst snd].
  unfold no_trailer, kTrailerSize in Hn.
  replace (Z.to_nat (Z.of_nat (length (contents (segment_name id) w)) - 8))
    with (length (contents (segment_name id) w) - 8)%nat by lia.
  rewrite take_ge by (rewrite length_drop; lia). rewrite decide_True by done. by eexists.
Qed.

Context {LAWS : WalLaws}.

Lemma ScanSegment_torn w id cs junk :
  no_faults w -> is_u64 id -> is_Some (wfiles w !! segment_name id) ->
  contents (segment_name id) w = segment_header id kFormatVersionProtobuf ++ enc cs ++ junk ->
  no_trailer (contents (segment_name id) w) -> torn_record junk ->
  Forall cmd_ok cs ->
  segment_format_versions_ w !! id = Some kFormatVersionProtobuf ->
  exists s, status_ok s = false /\
  ScanSegment id None [] w =
    (mkScanResult s (Some (16 + enc_len cs)) [],
     w <| cached_segment_ := Some id |>
       <| wal_index_ ::= fun ix => foldl index_op ix (seg_ops id kHeaderSize cs) |>).
Proof.
  intros Hnf Hid Hex Hc Hn Ht Hok Hf. unfold ScanSegment.
  assert (Hh : has_header w id) by (split; [done|by eexists]).
  rewrite st_bind, GetCachedSegmentFd_ok by done.
  cbn [fst snd status_ok negb]. set (w1 := w <| cached_segment_ := Some id |>).
  destruct (ReadTrailer_torn w1 id Hnf Hn) as [s0 Hr]. rewrite st_bind, Hr. cbn [fst snd]. st.
  assert (Hfmt : segment_format id w1 = kFormatVersionProtobuf)
    by (unfold segment_format, w1; proj_simp; by rewrite Hf).
  set (hd := segment_header id kFormatVersionProtobuf) in *.
  assert (Lhd : length hd = 16%nat) by apply length_segment_header.
  assert (Hj : (0 < length junk)%nat).
  { destruct Ht as (? & ? & _ & _ & ? & _). destruct junk; [done|simpl; lia]. }
  pose proof (enc_len_nonneg cs) as Hlen. unfold enc_len in Hlen.
  change (contents (segment_name id) w1) with (contents (segment_name id) w).
  rewrite Hc. unfold kHeaderSize. rewrite decide_False by (rewrite !length_app; lia). st.
  set (size := length (hd ++ enc cs ++ junk)).
  replace (S (Z.to_nat (Z.of_nat size))) with (length cs + S (size - length cs))%nat
    by (unfold size; rewrite !length_app; lia).
  rewrite Hfmt. replace 16 with (Z.of_nat (length hd)) by lia.
  rewrite (scan_loop_prefix id w1 hd cs junk)
    by (try done; unfold size, enc_len; rewrite !length_app; lia).
  cbn [scan_loop]. rewrite decide_False by (unfold size, enc_len; rewrite !length_app; lia).
  set (w2 := w1 <| wal_index_ ::= _ |>).
  destruct (scan_record_torn id w2 (hd ++ enc cs) junk Hnf Ht) as (s & Hs & R).
  { by rewrite <- app_assoc. }
  rewrite <- app_assoc in R. fold size in R. rewrite length_app, Nat2Z.inj_add in R.
  fold (enc_len cs) in R. exists s. split; [done|].
  rewrite st_bind, R. done.
Qed.

Lemma run_ftruncate w name n :
  no_faults w -> (n <= length (contents name w))%nat ->
  ftruncate name (Z.of_nat n) w = (true, set_file name (take n (contents name w)) w).
Proof.
  intros Hnf Hn. unfold ftruncate. rewrite st_bind, run_sys_ok by done. cbn [fst snd whenS].
  rewrite st_bind, st_reads. cbn [fst snd]. rewrite Nat2Z.id.
  replace (n - length (contents name w))%nat with 0%nat by lia. cbn [replicate].
  rewrite app_nil_r. done.
Qed.

Lemma set_file_twice name bs bs' w :
  set_file name bs (set_file name bs' w) =
    w <| wal_disk ::= disk_put name (mkFile bs (wfiles w !! name ≫= f_synced)) |>.
Proof.
  assert (wal_disk (set_file name bs (set_file name bs' w)) =
          disk_put name (mkFile bs (wfiles w !! name ≫= f_synced)) (wal_disk w)) as E.
  { rewrite !set_file_put, disk_put_put, wfiles_set_file. by rewrite lookup_insert_eq. }
  destruct w. unfold set_file, set in *. simpl in *. by rewrite E.
Qed.

(** The tail is cut off and a trailer written. *)
Lemma TruncateSegmentFile_ok w id cs junk :
  no_faults w -> is_Some (wfiles w !! segment_name id) -> cs <> [] ->
  contents (segment_name id) w = segment_header id kFormatVersionProtobuf ++ enc cs ++ junk ->
  exists f, f_data f = seg_file id cs /\
    TruncateSegmentFile id (16 + enc_len cs) w =
      (StOK, w <| wal_disk ::= disk_put (segment_name id) f |>).
Proof.
  intros Hnf Hex Hcs Hc. set (data := segment_header id kFormatVersionProtobuf ++ enc cs) in *.
  assert (Hd : 16 + enc_len cs = Z.of_nat (length data)) by (symmetry; apply length_data).
  assert (Ht : take (length data) (contents (segment_name id) w) = data)
    by (rewrite Hc, app_assoc; apply take_app_length).
  unfold TruncateSegmentFile. rewrite st_bind, st_reads. cbn [fst snd].
  rewrite st_bind, run_open_file, bool_decide_true by done. cbn [fst snd negb].
  rewrite Hd, st_bind, run_ftruncate
    by (done || (rewrite Hc; unfold data; rewrite !length_app; lia)). cbn [fst snd negb].
  rewrite Ht. rewrite st_bind, run_sys_ok by auto. cbn [fst snd negb].
  unfold WriteTrailer. rewrite st_bind, run_write_once by auto. cbn [fst snd].
  rewrite contents_set_file, Nat2Z.id, overwrite_end.
  eexists (mkFile _ _). split; cycle 1.
  - rewrite st_ret, set_file_twice. done.
  - cbn [f_data]. rewrite <- Hd. unfold seg_file, data. rewrite <- app_assoc. by destruct cs.
Qed.

Lemma open_one_torn w covered id cs junk :
  no_faults w -> is_u64 id -> is_Some (wfiles w !! segment_name id) -> covered <= id ->
  contents (segment_name id) w = segment_header id kFormatVersionProtobuf ++ enc cs ++ junk ->
  no_trailer (contents (segment_name id) w) -> torn_record junk -> Forall cmd_ok cs -> cs <> [] ->
  exists w' f, open_one covered id w = (StOK, w') /\ f_data f = seg_file id cs /\
    w' = w <| wal_disk ::= disk_put (segment_name id) f |>
           <| segment_format_versions_ ::= <[id := kFormatVersionProtobuf]> |>
           <| cached_segment_ := Some id |>
           <| wal_index_ ::= fun ix => foldl index_op ix (seg_ops id kHeaderSize cs) |>.
Proof.
  intros Hnf Hid Hex Hcov Hc Hn Ht Hok Hne. unfold open_one. rewrite decide_False by lia.
  assert (Hh : has_header w id) by (split; [done|by eexists]).
  unfold ensure. rewrite st_bind, OpenSegment_ok by done. cbn [fst snd status_ok].
  set (w1 := w <| segment_format_versions_ ::= _ |>).
  destruct (ScanSegment_torn w1 id cs junk) as (s & Hs & R); try done.
  { unfold w1. proj_simp. by rewrite lookup_insert_eq. }
  rewrite st_bind, R. cbn [fst snd sc_status sc_truncate]. rewrite Hs.
  pose proof (enc_len_nonneg cs). rewrite decide_True by lia.
  set (w2 := w1 <| cached_segment_ := _ |> <| wal_index_ ::= _ |>).
  destruct (TruncateSegmentFile_ok w2 id cs junk) as (f & Hf & ->); try done.
  eexists _, f. split; [done|]. split; [done|]. done.
Qed.

Lemma open_segments_app covered a b w w' :
  open_segments covered a w = (StOK, w') ->
  open_segments covered (a ++ b) w = open_segments covered b w'.
Proof.
  revert w. induction a as [|id a IH]; intros w; cbn [open_segments app]; [by intros [= ->]|].
  unfold ensure. rewrite !st_bind. destruct (open_one covered id w) as [s w1]. cbn [fst snd].
  destruct (status_ok s) eqn:E; [apply IH|]. rewrite st_ret. intros [= -> ->]. done.
Qed.

Lemma scan_ops_app covered id segs segs' :
  scan_ops covered id (segs ++ segs') =
    scan_ops covered id segs ++ scan_ops covered (id + Z.of_nat (length segs)) segs'.
Proof.
  revert id. induction segs as [|cs segs IH]; intros id; cbn [scan_ops app length].
  - by rewrite Z.add_0_r.
  - rewrite IH, <- app_assoc. do 3 f_equal. lia.
Qed.

(** [Open] cuts the torn record off and keeps everything before it. *)
Lemma Open_torn w dir closed fl junk :
  disk_files (torn_file (length closed) junk) (wal_disk w) (closed ++ [fl]) ->
  torn_record junk -> fl <> [] -> fresh_memory w ->
  exists w', Open dir w = (StOK, w') /\ wal_ok w' closed fl [].
Proof.
  intros D Hj Hne F. destruct (Open_start w dir closed fl D F) as (covered & w1 & Hcov & E1 & ->).
  destruct F as (Hix & Hca & Hbuf). set (n := length closed) in *.
  assert (Ed : wal_disk w1 = wal_disk w) by (by rewrite E1).
  pose proof (dv_count _ _ D) as Hcount. rewrite length_snoc in Hcount. fold n in Hcount.
  pose proof (dv_cmds _ _ D) as Hcmds. pose proof Hcmds as Hcmds'.
  apply Forall_app in Hcmds' as [Hcl Hfl]. apply Forall_cons_1 in Hfl as [[Hfl Hsz] _].
  unfold ensure. rewrite st_bind, seqZ_S.
  destruct (open_segments_ok w1 covered 1 closed) as (w2 & R2 & O2 & I2); try done.
  { unfold no_faults. rewrite Ed. apply D. } { fold n. lia. }
  { intros k cs Hk. pose proof (lookup_lt_Some _ _ _ Hk) as Hlt. fold n in Hlt.
    destruct (dv_segs _ _ D k cs) as (f & Hf & Hd); [by rewrite lookup_app_l|].
    unfold torn_file in Hd. rewrite decide_False in Hd by lia.
    rewrite Z.add_comm, contents_wfiles. unfold wfiles. rewrite Ed, Hf. by split. }
  fold n in R2, O2. rewrite (open_segments_app _ _ _ _ _ R2). clear R2.
  pose proof (op_disk _ _ _ O2) as Ed2. rewrite Ed in Ed2.
  set (id := Z.of_nat n + 1). replace (1 + Z.of_nat n) with id by lia.
  destruct (dv_segs _ _ D n fl) as (f & Hf & Hd); [by rewrite list_lookup_middle|].
  unfold torn_file in Hd. rewrite decide_True in Hd by done. destruct Hd as [Hd Hnt]. fold id in Hf, Hd.
  assert (Hc2 : contents (segment_name id) w2 = f_data f)
    by (rewrite contents_wfiles; unfold wfiles; by rewrite Ed2, Hf).
  assert (Hcovid : covered <= id).
  { destruct Hcov as [[-> _]|(k & p & q & Hk & -> & _)]; [lia|]. rewrite length_snoc in Hk. lia. }
  destruct (open_one_torn w2 covered id fl junk) as (w3 & f3 & R3 & Hf3 & E3); try done.
  { unfold no_faults. rewrite Ed2. apply D. } { split; lia. }
  { unfold wfiles. rewrite Ed2, Hf. done. } { by rewrite Hc2. } { by rewrite Hc2. }
  cbn [open_segments]. unfold ensure. rewrite st_bind, R3. cbn [fst snd status_ok].
  assert (D3 : disk_inv (wal_disk w3) (closed ++ [fl])).
  { rewrite E3. proj_simp. rewrite Ed2. pose proof (disk_files_grow (wal_disk w) closed fl [] f3 D) as G.
    rewrite app_nil_r in G. apply G; [|done..]. intros k cs data Hlt. unfold torn_file.
    by rewrite decide_False by lia. }
  assert (Hid' : forall id, id ∈ seqZ 1 (Z.of_nat n) -> exists k, (k <= n)%nat /\ id = Z.of_nat k + 1).
  { intros i Hi%elem_of_seqZ. exists (Z.to_nat (i - 1)). lia. }
  destruct (open_active_ok w3 closed fl D3) as (w4 & R4 & Ed4 & I4 & V4).
  - intros k Hk. rewrite E3. proj_simp. rewrite lookup_insert. case_decide; [done|].
    apply (op_new _ _ _ O2). rewrite elem_of_seqZ. lia.
  - intros i. rewrite E3. proj_simp. intros [= <-]. exists n. done.
  - rewrite E3. proj_simp. by rewrite (op_buf _ _ _ O2), E1.
  - fold n id in R4. rewrite st_ret. cbn [fst snd status_ok].
    exists w4. split; [exact R4|]. split; [done|]. rewrite I4, app_nil_r, E3. proj_simp.
    rewrite I2, <- foldl_app.
    assert (scan_ops covered 1 closed ++ seg_ops id kHeaderSize fl =
            scan_ops covered 1 (closed ++ [fl])) as ->.
    { rewrite scan_ops_app. cbn [scan_ops]. fold n. replace (1 + Z.of_nat n) with id by lia.
      rewrite decide_False by lia. by rewrite app_nil_r. }
    apply recovered_index; [by rewrite length_snoc|done|done].
Qed.

(** C7. A record that was cut short is cut off.  When the last segment consists of
    its header, one or more whole records and a proper, non-empty part of another,
    its last eight bytes are no offset that could be a trailer's, the other
    segments and files are whole and system calls work, then [Open] succeeds, cuts
    the torn record off, keeps every command before it, and the log works on from
    there.  The conditions matter: zeros at the end pass for a trailer
    ([zero_tail_drops_segment]), and a segment that ends behind a whole record
    without a trailer is refused ([missing_trailer_blocks_open]). *)
Theorem torn_write_is_cut_off w dir closed fl junk calls :
  disk_files (torn_file (length closed) junk) (wal_disk w) (closed ++ [fl]) ->
  torn_record junk -> fl <> [] -> fresh_memory w ->
  Forall call_ok calls -> Z.of_nat (length closed + length calls) + 2 <= UINT64_MAX ->
  (Open dir w).1 = StOK /\
  (run_calls wal_call calls (Open dir w).2).1 =
    (run_calls spec_call calls (log_of (concat closed ++ fl))).1.
Proof.
  intros D Hj Hne F Hok Hn. destruct (Open_torn w dir closed fl junk D Hj Hne F) as (w' & -> & W).
  split; [done|]. apply (run_calls_refine calls w' _ [] (length closed)); [|done|done].
  exists closed, fl, []. rewrite app_nil_r. split; [done|]. split; [done|]. split; [|done].
  apply prefix_nil.
Qed.

(** ** The death of the process *)

(** The memory is lost, the files stay as they are. *)
Definition killed (w : Wal) : Wal := Wal_new (wal_disk w).

Lemma run_calls_app {T} (call : WalCall -> State T Answer) a b s :
  (run_calls call (a ++ b) s).2 = (run_calls call b (run_calls call a s).2).2.
Proof.
  revert s. induction a as [|c a IH]; intros s; cbn [run_calls app]; [done|].
  rewrite !st_bind. cbn [fst snd]. by rewrite IH.
Qed.

Lemma wal_holds_killed w dir cs flushed n :
  wal_holds w cs flushed n ->
  exists w' q, Open dir (killed w) = (StOK, w') /\ flushed ++ q `prefix_of` cs /\
    wal_holds w' (flushed ++ q) [] n.
Proof.
  intros (closed & fl & bf & [V _] & -> & [q Hq] & Hn).
  destruct (Open_ok (killed w) dir closed fl) as (w' & R & _ & W'); [apply V|done|].
  exists w', q. split; [done|]. rewrite <- Hq. split; [exists bf; by rewrite app_assoc|].
  exists closed, fl, []. rewrite app_nil_r. split; [done|]. split; [done|]. split; [|done].
  apply prefix_nil.
Qed.

End crash.

(** ** Runs *)
Import PlainLib.

Definition torn_junk : bytes := take 12 (encode_record (cmd_record (CEntry (sample_entry 2 "bb")))).
Definition torn_data : bytes :=
  segment_header 1 kFormatVersionProtobuf ++ enc [CEntry (sample_entry 1 "a")] ++ torn_junk.
Definition torn_disk : Disk := mkDisk IsDir {[segment_name 1 := mkFile torn_data None]} [].

Lemma sample_entry_ok : cmd_ok (CEntry (sample_entry 1 "a")) /\ cmd_ok (CEntry (sample_entry 2 "bb")).
Proof. split; cmd_ok_tac. Qed.

Lemma torn_junk_ok : torn_record torn_junk.
Proof.
  exists (CEntry (sample_entry 2 "bb")), (drop 12 (encode_record (cmd_record (CEntry (sample_entry 2 "bb"))))).
  split; [apply sample_entry_ok|]. split; [symmetry; apply take_drop|]. by vm_compute.
Qed.

Lemma torn_disk_file name f :
  d_files torn_disk !! name = Some f -> segment_name 1 = name /\ mkFile torn_data None = f.
Proof. exact (proj1 (lookup_singleton_Some _ _ _ _)). Qed.

Lemma torn_disk_ok : disk_files (torn_file 0 torn_junk) torn_disk [[CEntry (sample_entry 1 "a")]].
Proof.
  split; try done.
  - constructor; [|done]. split; [constructor; [apply sample_entry_ok|done]|by vm_compute].
  - intros [|k] cs Hk; [|by destruct k]. injection Hk as <-. eexists.
    split; [apply lookup_singleton_eq|]. unfold torn_file. rewrite decide_True by done.
    split; [done|by vm_compute].
  - intros name [f Hf]. apply torn_disk_file in Hf as [<- _]. right. exists 0%nat. split; [simpl; lia|by left].
Qed.

Lemma torn_write_is_cut_off_witness :
  (Open "wal" (Wal_new torn_disk)).1 = StOK /\
  (run_calls wal_call [WGetRange 0 10] (Open "wal" (Wal_new torn_disk)).2).1 =
    (run_calls spec_call [WGetRange 0 10] (log_of [CEntry (sample_entry 1 "a")])).1.
Proof.
  apply (torn_write_is_cut_off (Wal_new torn_disk) "wal" [] [CEntry (sample_entry 1 "a")] torn_junk);
    [apply torn_disk_ok|apply torn_junk_ok|done|done|by repeat constructor|by vm_compute].
Defined.
