(* ===== verification/WalLimits.v ===== *)
(** * Crashes of the machine, and limits of the write-ahead log

    What [Sync] makes durable, what appending, rotation and [Sync] leave
    unsynchronised, and files on which recovery fails or loses entries. *)

From Stdlib Require Import Ascii.
From Stdlib Require Strings.Byte.
From stdpp Require Import sorting.
From S2P Require Import Prelude Types Bytes DenseIndex Disk RaftLog Quorum RaftGroup Timers Replicate Membership Text Wal WalScan WalInv WalOpen WalOps WalLog WalRefine WalCrash.
Import DenseIndexOps.

(** ** What a crash of the machine leaves *)

(** The contents of a file at its last [fdatasync]. *)
Definition durable (name : string) (w : Wal) : option bytes :=
  d_files (wal_disk w) !! name ≫= f_synced.

(** An action that does not change what a crash leaves of a file. *)
Definition KeepsDurable {A} (name : string) (m : W A) : Prop :=
  forall w, durable name (m w).2 = durable name w.

Create HintDb durable.

Section keeps_durable.
Context (name : string).

Lemma durable_bind {A B} (m : W A) (k : A -> W B) :
  KeepsDurable name m -> (forall a, KeepsDurable name (k a)) -> KeepsDurable name (m ≫= k).
Proof. intros Hm Hk w. by rewrite st_bind, Hk, Hm. Qed.

Lemma durable_ret {A} (a : A) : KeepsDurable name (mret a).
Proof. done. Qed.

Lemma durable_reads {A} (f : Wal -> A) : KeepsDurable name (reads f).
Proof. done. Qed.

Lemma durable_when b (m : W unit) : KeepsDurable name m -> KeepsDurable name (whenS b m).
Proof. by destruct b. Qed.

Lemma durable_for {A} (l : list A) (f : A -> W unit) :
  (forall x, x ∈ l -> KeepsDurable name (f x)) -> KeepsDurable name (forS l f).
Proof.
  induction l as [|x l IH]; intros H; cbn [forS]; [done|].
  apply durable_bind; [apply H; by left|]. intros _. apply IH. intros y Hy. apply H. by right.
Qed.

Lemma durable_ensure (m k : W Status) : KeepsDurable name m -> KeepsDurable name k -> KeepsDurable name (m ;? k).
Proof. intros Hm Hk. apply durable_bind; [done|]. intros s. by destruct (status_ok s). Qed.

(** A change of the disk. *)
Lemma durable_disk (f : Disk -> Disk) :
  (forall d, d_files (f d) !! name ≫= f_synced = d_files d !! name ≫= f_synced) ->
  KeepsDurable name (updates (with_disk f)).
Proof. intros H w. unfold durable. apply H. Qed.

Lemma durable_sys : KeepsDurable name sys.
Proof. intros w. unfold sys. by destruct (d_tape _). Qed.

Lemma durable_put n bs : KeepsDurable name (put_contents n bs).
Proof.
  apply durable_disk. intros d. proj_simp. destruct (decide (n = name)) as [->|Hn].
  - by rewrite lookup_partial_alter_eq.
  - by rewrite lookup_partial_alter_ne.
Qed.

Lemma durable_delete n : n <> name -> KeepsDurable name (updates (with_disk (fun d => d <| d_files ::= delete n |>))).
Proof. intros Hn. apply durable_disk. intros d. proj_simp. by rewrite lookup_delete_ne. Qed.

Lemma durable_fdatasync n : n <> name -> KeepsDurable name (fdatasync n).
Proof.
  intros Hn. unfold fdatasync, sys_ok. repeat first [apply durable_bind | intros ? | apply durable_when
    | apply durable_ret | apply durable_sys].
  apply durable_disk. intros d. proj_simp. by rewrite lookup_alter_ne.
Qed.

Lemma durable_rename a b : a <> name -> b <> name -> KeepsDurable name (rename a b).
Proof.
  intros Ha Hb. unfold rename, sys_ok. apply durable_bind; [apply durable_bind; [apply durable_sys|done]|].
  intros ok. apply durable_bind; [done|]. intros fs. destruct (fs !! a) as [f|]; [|done].
  apply durable_bind; [|done]. apply durable_when, durable_disk. intros d. proj_simp.
  by rewrite lookup_insert_ne, lookup_delete_ne.
Qed.
End keeps_durable.

#[export] Hint Resolve durable_ret durable_reads durable_sys durable_put durable_delete durable_fdatasync
  durable_rename : durable.

(** Splits a program into its calls. *)
Ltac keeps_durable :=
  repeat first
    [ lazymatch goal with
      | |- forall _, _ => intro
      | |- KeepsDurable _ (ensure _ _) => apply durable_ensure
      | |- KeepsDurable _ (mbind _ _) => apply durable_bind
      | |- KeepsDurable _ (whenS _ _) => apply durable_when
      | |- KeepsDurable _ (let _ := _ in _) => cbv zeta
      | |- KeepsDurable _ (setw _ _) => intros ?; reflexivity
      | |- KeepsDurable _ (match _ with _ => _ end) => case_match
      end
    | solve [auto with durable] ].

Lemma durable_sys_ok name : KeepsDurable name sys_ok.
Proof. unfold sys_ok. keeps_durable. Qed.
#[export] Hint Resolve durable_sys_ok : durable.

Lemma durable_create name n : KeepsDurable name (create_file n).
Proof. unfold create_file. keeps_durable. Qed.

Lemma durable_write_at name n off data : KeepsDurable name (write_at n off data).
Proof. unfold write_at. keeps_durable. Qed.
#[export] Hint Resolve durable_create durable_write_at : durable.

Lemma durable_write_once name n off data : KeepsDurable name (write_once n off data).
Proof. unfold write_once. keeps_durable. Qed.

Lemma durable_write_all name tape n : forall off data, KeepsDurable name (write_all tape n off data).
Proof.
  induction tape as [|f tape IH]; intros off data; destruct data; cbn [write_all]; keeps_durable;
    by apply durable_disk.
Qed.

Lemma durable_write_loop name n off data : KeepsDurable name (write_loop n off data).
Proof. unfold write_loop. keeps_durable. apply durable_write_all. Qed.

Lemma durable_unlink name n : n <> name -> KeepsDurable name (unlink n).
Proof. unfold unlink. keeps_durable. Qed.

Lemma durable_list_dir name : KeepsDurable name list_dir.
Proof. unfold list_dir. keeps_durable. Qed.
#[export] Hint Resolve durable_write_once durable_write_all durable_write_loop durable_unlink durable_list_dir : durable.

Section limits.
Context {LIB : WalLib} (name : string).

Lemma durable_flush : KeepsDurable name FlushWriteBufferLocked.
Proof. unfold FlushWriteBufferLocked, WriteTrailer. keeps_durable. Qed.

#[local] Hint Resolve durable_flush : durable.

Lemma durable_create_segment id : segment_name id <> name -> KeepsDurable name (CreateSegment id).
Proof. unfold CreateSegment, WriteSegmentHeader, SaveMeta. keeps_durable. Qed.

Lemma durable_append type payload : KeepsDurable name (AppendRecordToBufferLocked type payload).
Proof. unfold AppendRecordToBufferLocked. keeps_durable. Qed.

Lemma durable_rotate w :
  segment_name (u64 (sg_id (active_segment_ w) + 1)) <> name ->
  durable name (RotateSegmentIfNeeded w).2 = durable name w.
Proof.
  intros Hn. unfold RotateSegmentIfNeeded. rewrite st_bind, st_reads. cbn [fst snd id].
  case_decide; [|done].
  refine (durable_ensure name _ _ durable_flush (durable_bind name _ _ _ (fun _ => _)) w).
  - by intros ?.
  - by apply durable_create_segment.
Qed.

(** Appending never calls [fdatasync]: whatever fails, it leaves the durable
    contents of every file but the new segment's as they were. *)
Lemma run_cmd_keeps c w :
  segment_name (u64 (sg_id (active_segment_ w) + 1)) <> name ->
  durable name (run_cmd c w).2 = durable name w.
Proof.
  intros Hn. pose proof (durable_rotate w Hn) as Hr.
  assert (Hk : forall k, KeepsDurable name k -> durable name ((RotateSegmentIfNeeded ;? k) w).2 = durable name w).
  { intros k Hk. unfold ensure. rewrite st_bind. destruct (status_ok _); [by rewrite Hk|done]. }
  destruct c; cbn [run_cmd].
  - unfold WalAppendLogEntry. destruct (pb_serialize _); [|done]. apply Hk.
    apply durable_bind; [apply durable_append|]. keeps_durable.
  - unfold AppendTruncatePrefix. apply Hk. apply durable_bind; [apply durable_append|]. keeps_durable.
  - unfold AppendTruncateSuffix. apply Hk. apply durable_bind; [apply durable_append|]. keeps_durable.
Qed.

End limits.

Section rotation.
Context {LIB : WalLib}.

Lemma durable_checkpoint id :
  is_u64 id -> KeepsDurable (segment_name id) SaveCheckpointLocked.
Proof.
  intros Hid. assert (Ht : forall i, temp_name i <> segment_name id).
  { intros i E. destruct (temp_name_other i) as [Ht _]. by rewrite E, segment_of_segment_name in Ht. }
  assert (Hc : forall i, checkpoint_name i <> segment_name id)
    by (intros i E; by apply (segment_not_checkpoint id i)).
  unfold SaveCheckpointLocked. keeps_durable; unfold temp_name in Ht; try apply durable_rename;
    try apply durable_unlink; try apply durable_fdatasync; auto.
Qed.

(** System calls change only the disk. *)
Lemma write_at_active n off data w : active_segment_ (write_at n off data w).2 = active_segment_ w.
Proof. done. Qed.

Lemma write_all_active tape n : forall off data w,
  active_segment_ (write_all tape n off data w).2 = active_segment_ w.
Proof.
  induction tape as [|f tape IH]; intros off data w; destruct data as [|b data]; cbn [write_all]; [done..|].
  rewrite st_bind. destruct f; [done|done|by rewrite IH|]. rewrite st_bind, IH. done.
Qed.

Lemma sys_active w : active_segment_ (sys w).2 = active_segment_ w.
Proof. unfold sys. by destruct (d_tape _). Qed.

Lemma write_once_active n off data w : active_segment_ (write_once n off data w).2 = active_segment_ w.
Proof.
  unfold write_once. rewrite st_bind. destruct (sys w).1; apply sys_active.
Qed.

Lemma flush_active w : sg_id (active_segment_ (FlushWriteBufferLocked w).2) = sg_id (active_segment_ w).
Proof.
  unfold FlushWriteBufferLocked. rewrite st_bind, st_reads. cbn [fst snd id].
  case_decide; [done|]. destruct (negb _); [done|].
  unfold write_loop. rewrite st_bind, st_bind, st_reads. cbn [fst snd].
  set (r := write_all _ _ _ _ w).
  assert (Hr : active_segment_ r.2 = active_segment_ w) by apply write_all_active.
  destruct (negb r.1); [rewrite st_ret; cbn [snd]; congruence|].
  unfold WriteTrailer. rewrite !st_bind, st_ret. cbn [snd]. rewrite write_once_active.
  rewrite !st_setw. cbn [fst snd]. proj_simp. by rewrite Hr.
Qed.

(** [Sync] makes only the active segment durable. *)
Lemma WalSync_keeps id w :
  is_u64 id -> segment_name (sg_id (active_segment_ w)) <> segment_name id ->
  durable (segment_name id) (WalSync w).2 = durable (segment_name id) w.
Proof.
  intros Hid Hn. unfold WalSync, ensure. rewrite st_bind.
  assert (Hs : durable (segment_name id) (SyncActiveSegmentLocked w).2 = durable (segment_name id) w).
  { unfold SyncActiveSegmentLocked, ensure. rewrite st_bind.
    assert (Hf : durable (segment_name id) (FlushWriteBufferLocked w).2 = durable (segment_name id) w)
      by apply durable_flush.
    destruct (status_ok _); [|done]. rewrite st_bind, st_reads. cbn [fst snd].
    destruct (negb _); [done|]. rewrite st_bind, st_ret. cbn [snd].
    rewrite durable_fdatasync; [done|]. by rewrite flush_active. }
  destruct (status_ok _); [|done]. rewrite <- Hs. generalize (SyncActiveSegmentLocked w).2.
  change (KeepsDurable (segment_name id)
    (should ← ShouldCreateCheckpointLocked; whenS should (SaveCheckpointLocked ;; mret tt) ;; mret StOK)).
  unfold ShouldCreateCheckpointLocked, ListCheckpointFilesLocked. keeps_durable; by apply durable_checkpoint.
Qed.

(** The segment that was active before a rotation is synchronised neither by
    the rotation nor by the next [Sync], which reports success. *)
Theorem rotated_segment_not_synced c w :
  let id := sg_id (active_segment_ w) in
  let w1 := (run_cmd c w).2 in
  is_u64 id -> segment_name (sg_id (active_segment_ w1)) <> segment_name id ->
  durable (segment_name id) (WalSync w1).2 = durable (segment_name id) w.
Proof.
  intros id w1 Hid Hrot. rewrite WalSync_keeps by done. apply run_cmd_keeps.
  intros E%segment_name_inj; [|unfold is_u64, u64, UINT64_MAX; div_lia|done].
  unfold u64 in E. fold id in E. unfold is_u64, UINT64_MAX in *. div_lia.
Qed.

End rotation.

(** ** What [Sync] makes durable *)

(** An action that leaves a file as it is. *)
Definition KeepsFile {A} (name : string) (m : W A) : Prop :=
  forall w, wfiles (m w).2 !! name = wfiles w !! name.

Create HintDb same_file.

Section keeps_file.
Context (name : string).

Lemma file_bind {A B} (m : W A) (k : A -> W B) :
  KeepsFile name m -> (forall a, KeepsFile name (k a)) -> KeepsFile name (m ≫= k).
Proof. intros Hm Hk w. by rewrite st_bind, Hk, Hm. Qed.

Lemma file_ret {A} (a : A) : KeepsFile name (mret a).
Proof. done. Qed.

Lemma file_reads {A} (f : Wal -> A) : KeepsFile name (reads f).
Proof. done. Qed.

Lemma file_when b (m : W unit) : KeepsFile name m -> KeepsFile name (whenS b m).
Proof. by destruct b. Qed.

Lemma file_ensure (m k : W Status) : KeepsFile name m -> KeepsFile name k -> KeepsFile name (m ;? k).
Proof. intros Hm Hk. apply file_bind; [done|]. intros s. by destruct (status_ok s). Qed.

Lemma file_sys : KeepsFile name sys.
Proof. intros w. unfold sys. by destruct (d_tape _). Qed.

Lemma file_put n bs : n <> name -> KeepsFile name (put_contents n bs).
Proof. intros Hn w. unfold wfiles, put_contents. st. simpl. by rewrite lookup_partial_alter_ne. Qed.

Lemma file_unlink_put n : n <> name -> KeepsFile name (updates (with_disk (fun d => d <| d_files ::= delete n |>))).
Proof. intros Hn w. unfold wfiles. st. simpl. by rewrite lookup_delete_ne. Qed.

Lemma file_tape (f : list Fault -> list Fault) : KeepsFile name (updates (with_disk (fun d => d <| d_tape ::= f |>))).
Proof. done. Qed.
End keeps_file.

#[export] Hint Resolve file_ret file_reads file_sys file_put file_unlink_put file_tape : same_file.

Ltac keeps_file :=
  repeat first
    [ lazymatch goal with
      | |- forall _, _ => intro
      | |- KeepsFile _ (ensure _ _) => apply file_ensure
      | |- KeepsFile _ (mbind _ _) => apply file_bind
      | |- KeepsFile _ (whenS _ _) => apply file_when
      | |- KeepsFile _ (let _ := _ in _) => cbv zeta
      | |- KeepsFile _ (setw _ _) => intros ?; reflexivity
      | |- KeepsFile _ (match _ with _ => _ end) => case_match
      end
    | solve [auto with same_file] ].

Lemma file_write_all name tape n : n <> name -> forall off data, KeepsFile name (write_all tape n off data).
Proof.
  intros Hn. induction tape as [|f tape IH]; intros off data; destruct data; cbn [write_all]; unfold write_at; keeps_file;
    by intros ?.
Qed.
#[export] Hint Resolve file_write_all : same_file.

(** Checkpoints are neither segments nor the meta file. *)
Lemma segment_never_checkpoint id i : segment_name id <> checkpoint_name i.
Proof.
  intros E. apply (f_equal (ends_with ".wal")) in E. unfold segment_name, checkpoint_name in E.
  rewrite <- str_app_assoc in E. rewrite (ends_with_other _ ".wal" kCheckpointSuffix) in E by done.
  unfold ends_with in E. apply bool_decide_eq_false in E. apply E.
  rewrite length_str_app, Nat.add_sub. apply substr_from_app.
Qed.

Lemma meta_not_checkpoint i : meta_name <> checkpoint_name i.
Proof. by unfold meta_name, checkpoint_name. Qed.

Section durable_sync.
Context {LIB : WalLib} {LAWS : WalLaws}.

Lemma file_run_cmd i c : KeepsFile (checkpoint_name i) (run_cmd c).
Proof.
  pose proof segment_never_checkpoint as Hs. pose proof (meta_not_checkpoint i) as Hm.
  assert (KeepsFile (checkpoint_name i) FlushWriteBufferLocked) as Hf.
  { unfold FlushWriteBufferLocked, WriteTrailer, write_loop, write_once, write_at. keeps_file. }
  assert (KeepsFile (checkpoint_name i) RotateSegmentIfNeeded) as Hr.
  { unfold RotateSegmentIfNeeded, CreateSegment, WriteSegmentHeader, SaveMeta, create_file, unlink, write_once, write_at, sys_ok.
    keeps_file. }
  assert (forall t p, KeepsFile (checkpoint_name i) (AppendRecordToBufferLocked t p)) as Ha.
  { unfold AppendRecordToBufferLocked. keeps_file. }
  destruct c; cbn [run_cmd]; unfold WalAppendLogEntry, AppendTruncatePrefix, AppendTruncateSuffix; keeps_file.
Qed.

(** [Sync] writes the buffered records and synchronises the active segment. *)
Lemma WalSync_durable w closed fl bf :
  wal_ok w closed fl bf ->
  let id := Z.of_nat (length closed) + 1 in
  durable (segment_name id) (WalSync w).2 = Some (seg_file id (fl ++ bf)).
Proof.
  intros [V Hix] id. destruct (Flush_ok w closed fl bf V) as (w1 & R1 & V1 & _).
  pose proof (wv_disk _ _ _ _ V1) as D. pose proof (dv_count _ _ D) as Hcount. rewrite length_snoc in Hcount.
  assert (is_u64 id) as Hid by (unfold is_u64, id; lia).
  destruct (dv_segs _ _ D (length closed) (fl ++ bf)) as (f & Hf & Hd); [by rewrite list_lookup_middle|]. fold id in Hf.
  unfold WalSync, SyncActiveSegmentLocked, ensure. rewrite !st_bind, R1. cbn [fst snd status_ok].
  rewrite st_bind, st_reads. cbn [fst snd]. rewrite (wv_open _ _ _ _ V1). cbn [negb].
  rewrite st_bind, (wv_id _ _ _ _ V1), run_fdatasync by apply D. cbn [fst snd]. rewrite st_ret. cbn [fst snd status_ok].
  match goal with |- durable _ ((mbind _ _) ?w2).2 = _ => transitivity (durable (segment_name id) w2) end.
  - match goal with |- durable ?n (?m ?w2).2 = _ => assert (KeepsDurable n m) as Hk end.
    { unfold ShouldCreateCheckpointLocked, ListCheckpointFilesLocked. keeps_durable; by apply durable_checkpoint. }
    apply Hk.
  - unfold durable. proj_simp. fold id. rewrite lookup_alter_eq, Hf. simpl. f_equal. exact Hd.
Qed.

Lemma run_calls_cmd c cmds w :
  (run_calls wal_call (WCmd c :: cmds) w).2 = (run_calls wal_call cmds (run_cmd c w).2).2.
Proof. cbn [run_calls wal_call]. repeat rewrite st_bind; cbn [fst snd]. by rewrite ?st_ret. Qed.

(** Appending commands within the first segment changes neither what a crash of
    the machine leaves of it nor its checkpoint. *)
Lemma run_cmds_first_segment cmds : forall w closed fl bf,
  wal_ok w closed fl bf -> Forall cmd_ok cmds -> Z.of_nat (length closed + length cmds) + 2 <= UINT64_MAX ->
  let w' := (run_calls wal_call (WCmd <$> cmds) w).2 in
  exists closed' fl' bf', wal_ok w' closed' fl' bf' /\ (length closed <= length closed')%nat /\
    (closed' = [] -> durable (segment_name 1) w' = durable (segment_name 1) w /\
       wfiles w' !! checkpoint_name 1 = wfiles w !! checkpoint_name 1).
Proof.
  induction cmds as [|c cmds IH]; intros w closed fl bf W Hok Hn; cbn [fmap list_fmap].
  { exists closed, fl, bf. done. }
  apply Forall_cons_1 in Hok as [Hc Hok]. cbn [length] in Hn.
  destruct (run_cmd_ok w closed fl bf c W Hc) as (w1 & cl & fl1 & bf1 & R & W1 & _ & L & _); [lia|].
  rewrite run_calls_cmd, R. cbn [snd].
  destruct (IH w1 cl fl1 bf1 W1 Hok) as (cl' & fl' & bf' & W' & L' & Hsame); [lia|].
  exists cl', fl', bf'. split; [done|]. split; [lia|]. intros ->. simpl in L'.
  destruct (Hsame eq_refl) as [-> ->]. replace w1 with (run_cmd c w).2 by by rewrite R.
  rewrite file_run_cmd. split; [|done]. apply run_cmd_keeps.
  destruct W as [V _]. rewrite (wv_id _ _ _ _ V). replace (length closed) with 0%nat by lia.
  intros E%segment_name_inj; done.
Qed.

(** The machine loses its power: every segment falls back to its contents at the
    last [fdatasync]; the other files stay. *)
Definition power_off (d : Disk) : Disk :=
  d <| d_files ::= map_imap (fun name f => Some
    (if segment_of_name name then mkFile (default [] (f_synced f)) (f_synced f) else f)) |>.
Definition powered_off (w : Wal) : Wal := Wal_new (power_off (wal_disk w)).

Lemma power_off_lookup d name :
  d_files (power_off d) !! name =
    (fun f => if segment_of_name name then mkFile (default [] (f_synced f)) (f_synced f) else f) <$> d_files d !! name.
Proof. unfold power_off. simpl. rewrite map_lookup_imap. by destruct (d_files d !! name). Qed.

Lemma power_off_inv w fl w2 cs :
  disk_inv (wal_disk w) [fl] -> disk_inv (wal_disk w2) [cs] ->
  durable (segment_name 1) w = Some (seg_file 1 cs) ->
  wfiles w !! checkpoint_name 1 = wfiles w2 !! checkpoint_name 1 ->
  disk_inv (power_off (wal_disk w)) [cs].
Proof.
  intros D D2 Hdur Hck. split; try apply D; try apply D2.
  - intros [|k] cs' Hk; [|by destruct k]. injection Hk as <-. change (Z.of_nat 0 + 1) with 1.
    rewrite power_off_lookup, segment_of_segment_name by done. unfold durable in Hdur.
    destruct (d_files (wal_disk w) !! segment_name 1) as [f|]; [|done]. simpl in *. eexists. split; [done|].
    simpl. by rewrite Hdur.
  - intros name [f Hf]. rewrite power_off_lookup in Hf. apply fmap_Some in Hf as (f0&Hf0&_).
    exact (dv_names _ _ D name (mk_is_Some _ _ Hf0)).
  - intros f. rewrite power_off_lookup, segment_of_meta_name. intros (f0&Hf0&->)%fmap_Some. exact (dv_meta _ _ D f0 Hf0).
  - intros k f Hk. simpl in Hk. assert (k = 0%nat) as -> by lia. change (Z.of_nat 0 + 1) with 1.
    rewrite power_off_lookup, segment_of_checkpoint_name. intros (f0&Hf0&->)%fmap_Some.
    apply (dv_ckpt _ _ D2 0%nat f0); [simpl; lia|]. change (wfiles w2 !! checkpoint_name 1 = Some f0). by rewrite <- Hck.
Qed.

(** C8. What was synchronised survives.  From an empty directory and with system
    calls that work, after any calls, a [Sync], and any more calls:
    - when the process dies, opening the files it left succeeds, and the log holds
      all commands issued before the [Sync] and a prefix of those after it;
    - when the machine loses its power, after commands that leave the log in its
      first segment, and every segment falls back to its contents at the last
      [fdatasync] (the meta file and the checkpoint being found as they were),
      opening succeeds and the log holds the commands issued before the [Sync].
    Both are between calls: a crash between the two writes of a flush is
    [missing_trailer_blocks_open], a lost meta file [empty_meta_blocks_open], and
    a log that has rotated [rotated_segment_not_synced]. *)
Theorem synced_commands_survive dir d calls1 calls2 calls :
  d_tape d = [] -> d_kind d <> NotDir -> d_files d = ∅ ->
  Forall call_ok calls1 -> Forall call_ok calls2 -> Forall call_ok calls ->
  Z.of_nat (length calls1 + length calls2 + length calls) + 3 <= UINT64_MAX ->
  let w := (run_calls wal_call (calls1 ++ WSync :: calls2) (Open dir (Wal_new d)).2).2 in
  (exists q, q `prefix_of` (calls2 ≫= call_cmds) /\
    (Open dir (killed w)).1 = StOK /\
    (run_calls wal_call calls (Open dir (killed w)).2).1 =
      (run_calls spec_call calls (log_of ((calls1 ≫= call_cmds) ++ q))).1) /\
  (forall cmds, calls2 = WCmd <$> cmds -> sg_id (active_segment_ w) = 1 ->
    (Open dir (powered_off w)).1 = StOK /\
    (run_calls wal_call calls (Open dir (powered_off w)).2).1 =
      (run_calls spec_call calls (log_of (calls1 ≫= call_cmds))).1).
Proof.
  intros Ht Hk Hf Hok1 Hok2 Hok Hn. destruct (Open_new dir d Ht Hk Hf) as (w0 & -> & W0 & _).
  cbn [snd]. rewrite run_calls_app. cbn [run_calls]. rewrite st_bind. cbn [fst snd].
  destruct (run_calls_refine calls1 w0 [] [] 0) as [_ H1]; [|done|lia|].
  { by exists [], [], []. }
  set (w1 := (run_calls wal_call calls1 w0).2) in *. cbn [app] in H1.
  destruct (wal_call_refines w1 _ _ _ WSync H1) as (_ & _ & H2); [done|lia|].
  rewrite decide_True, app_nil_r in H2 by done. set (w2 := (wal_call WSync w1).2) in *.
  destruct (run_calls_refine calls2 w2 _ _ _ H2) as [_ H3]; [done|lia|].
  rewrite st_bind. cbn [fst snd]. rewrite st_ret. cbn [fst snd].
  set (w3 := (run_calls wal_call calls2 w2).2) in *. split.
  - destruct (wal_holds_killed w3 dir _ _ _ H3) as (w4 & q & -> & Hq & H4).
    exists q. split; [by apply prefix_app_inv in Hq|]. split; [done|].
    eapply run_calls_refine; [exact H4|done|lia].
  - intros cmds -> Hseg. destruct H1 as (closed & fl & bf & W1 & E1 & _ & Hc1).
    destruct (WalSync_ok w1 closed fl bf W1) as (w2' & R2 & W2 & _).
    pose proof (WalSync_durable w1 closed fl bf W1) as Hdur. cbv zeta in Hdur.
    assert (w2 = w2') as E2 by (unfold w2; cbn [wal_call]; by rewrite st_bind, R2). rewrite R2 in Hdur. cbn [snd] in Hdur.
    rewrite <- E2 in *.
    assert (Forall cmd_ok cmds) as Hcmds by (rewrite Forall_fmap in Hok2; exact Hok2).
    rewrite length_fmap in Hn.
    destruct (run_cmds_first_segment cmds w2 closed (fl ++ bf) [] W2 Hcmds) as (cl & fl' & bf' & W3 & L3 & Hsame); [lia|].
    fold w3 in W3, Hsame. pose proof (wv_id _ _ _ _ (proj1 W3)) as Hid. rewrite Hseg in Hid.
    assert (cl = []) as -> by (destruct cl; [done|simpl in Hid; lia]). simpl in L3.
    assert (closed = []) as -> by (destruct closed; [done|simpl in L3; lia]).
    destruct (Hsame eq_refl) as [Hd3 Hk3].
    assert (disk_inv (wal_disk (powered_off w3)) ([] ++ [fl ++ bf])) as Dp.
    { apply (power_off_inv w3 fl' w2 (fl ++ bf)); [apply W3|apply W2| |exact Hk3]. rewrite Hd3. exact Hdur. }
    destruct (Open_ok (powered_off w3) dir [] (fl ++ bf) Dp) as (w' & R & _ & W'); [done|].
    rewrite R. split; [done|]. cbn [snd].
    apply (run_calls_refine calls w' (calls1 ≫= call_cmds) [] 0); [|done|lia].
    exists [], (fl ++ bf), []. split; [done|]. split_and!; [by rewrite E1, app_nil_r|apply prefix_nil|done].
Qed.

End durable_sync.

(** ** Files on which recovery fails *)
Import PlainLib.

Definition disk_of_files (fs : list (string * bytes)) : Disk :=
  mkDisk IsDir (list_to_map (map (fun p => (p.1, mkFile p.2 (Some p.2))) fs)) [].

Definition two_entries : list Cmd := [CEntry (sample_entry 1 "a"); CEntry (sample_entry 2 "bb")].

(** Opens the files and asks for the entries below ten. *)
Definition open_and_read (d : Disk) : Status * Answer :=
  let '(s, w) := Open "wal" (Wal_new d) in (s, (wal_call (WGetRange 0 10) w).1).

(** The trailer of a file whose last block was never written, and reads as
    zeros, passes: [Open] succeeds and the whole segment is gone. *)
Theorem zero_tail_drops_segment :
  open_and_read (disk_of_files [(segment_name 1, seg_file 1 two_entries)]) =
    (StOK, AEntries (StOK, map stored_entry [sample_entry 1 "a"; sample_entry 2 "bb"])) /\
  open_and_read (disk_of_files
      [(segment_name 1, seg_file 1 two_entries ++ replicate 8 Byte.x00)]) =
    (StOK, AEntries (StOK, [])).
Proof. by vm_compute. Qed.

(** Records without the trailer behind them, as a crash between the two writes
    of a flush leaves them, make [Open] fail. *)
Theorem missing_trailer_blocks_open :
  (open_and_read (disk_of_files
      [(segment_name 1, segment_header 1 kFormatVersionProtobuf ++ enc two_entries)])).1 =
    Corruption "Invalid trailer end_offset".
Proof. by vm_compute. Qed.

(** An empty meta file, whose contents nothing uses, makes [Open] fail. *)
Theorem empty_meta_blocks_open :
  (open_and_read (disk_of_files
      [(segment_name 1, seg_file 1 two_entries); (meta_name, [])])).1 =
    Corruption "Failed to parse meta file: empty document".
Proof. by vm_compute. Qed.

(** A read error during [Open] is taken for a torn record: the segment is cut
    in the file, for good. *)
Theorem read_error_truncates_segment :
  let d := disk_of_files [(segment_name 1, seg_file 1 two_entries)] in
  let faulty := d <| d_tape := replicate 8 FOk ++ [FErr] |> in
  let w := (Open "wal" (Wal_new faulty)).2 in
  (Open "wal" (Wal_new faulty)).1 = StOK /\
  (open_and_read (wal_disk w)).2 = AEntries (StOK, []).
Proof. by vm_compute. Qed.

(** A truncation record in a segment without live entries is not replayed, so
    that [Replay] brings truncated entries back. *)
Theorem replay_resurrects :
  let d := disk_of_files [(segment_name 1, seg_file 1 two_entries);
                          (segment_name 2, seg_file 2 [CSuffix 2])] in
  let w := (Open "wal" (Wal_new d)).2 in
  let w' := (Replay (fun _ _ => true) w).2 in
  (wal_call (WGet 2) w).1 = AEntry (inl (Error1 "Entry not found")) /\
  (wal_call (WGet 2) w').1 = AEntry (inr (stored_entry (sample_entry 2 "bb"))).
Proof. by vm_compute. Qed.

(** Garbage collection that empties the index keeps the checkpoint of the
    active segment: after a restart the index lists entries of a deleted file. *)
Theorem collected_entries_return :
  let files := [(segment_name 1, seg_file 1 two_entries); (segment_name 2, seg_file 2 [])] in
  let ix := wal_index_ (Open "wal" (Wal_new (disk_of_files files))).2 in
  let d := disk_of_files ((checkpoint_name 2, checkpoint_bytes ix 2) :: files) in
  let w := (GarbageCollect 3 (Open "wal" (Wal_new d)).2).2 in
  let w' := (reopen "wal" w).2 in
  (GetLogRange w).1 = (0, 0) /\ (reopen "wal" w).1 = StOK /\ (GetLogRange w').1 = (1, 2) /\
  (wal_call (WGet 1) w').1 = AEntry (inl (Error1 "Failed to open segment: wal/1.wal")).
Proof. by vm_compute. Qed.

Lemma synced_commands_survive_witness :
  let w := (run_calls wal_call (sample_calls ++ WSync :: [WCmd (CEntry (sample_entry 1 "a"))])
              (Open "wal" (Wal_new empty_disk)).2).2 in
  (exists q, q `prefix_of` ([WCmd (CEntry (sample_entry 1 "a"))] ≫= call_cmds) /\
    (Open "wal" (killed w)).1 = StOK /\
    (run_calls wal_call [WGetRange 0 10] (Open "wal" (killed w)).2).1 =
      (run_calls spec_call [WGetRange 0 10] (log_of ((sample_calls ≫= call_cmds) ++ q))).1) /\
  (Open "wal" (powered_off w)).1 = StOK.
Proof.
  destruct (synced_commands_survive "wal" empty_disk sample_calls
           [WCmd (CEntry (sample_entry 1 "a"))] [WGetRange 0 10]) as [H1 H2];
    [done|done|done|apply sample_calls_ok|constructor; [apply sample_entry_ok|done]
    |by repeat constructor|by vm_compute|].
  split; [exact H1|]. destruct (H2 [CEntry (sample_entry 1 "a")] eq_refl) as [H3 _]; [|exact H3].
  vm_compute. reflexivity.
Defined.
