(* ===== verification/GroupCommit.v ===== *)
(** * The group commit controller

    [GroupCommitController]: every flushed batch gets an epoch and waits with
    its callbacks until a sync that began after it has finished.  Time points
    are arguments; a callback is a token, [None] for an empty one.  The metrics
    are not modelled. *)

From S2P Require Import Prelude Types.

Inductive SyncPolicy := kSyncEveryWrite | kSyncByInterval | kSyncByBatchSize | kSyncAdaptive.

#[global] Instance SyncPolicy_eq_dec : EqDecision SyncPolicy.
Proof. solve_decision. Defined.

(** The executors of [LogPersistenceConfig] decide on which thread a callback
    runs; they are left out. *)
Record LogPersistenceConfig := mkLogPersistenceConfig {
  batch_size : Z;
  batch_interval_ms : Z;
  sync_on_critical : bool;
  sync_policy : SyncPolicy;
  group_commit_interval_ms : Z;
  group_commit_max_entries : Z;
  group_commit_max_bytes : Z;
  sync_timeout : Z;
  min_disk_space_bytes : Z;
  data_dir : string
}.

Definition LogPersistenceConfig_default : LogPersistenceConfig :=
  mkLogPersistenceConfig 100 10 true kSyncAdaptive 50 1000 (4 * 1024 * 1024) 5000
    (100 * 1024 * 1024) "".

Definition DurableCallback : Type := option nat.

Record PendingEpoch := mkPendingEpoch {
  pe_epoch : Z;
  pe_entry_count : Z;
  pe_byte_size : Z;
  pe_flush_time : Z;
  pe_callbacks : list DurableCallback
}.

Record GroupCommitController := mkGroupCommitController {
  gc_config_ : LogPersistenceConfig;
  next_epoch_ : Z;
  durable_epoch_ : Z;
  sync_in_progress_end_ : Z;
  pending_ : list PendingEpoch;
  gc_healthy_ : bool;
  sync_requested_ : bool;
  gc_last_error_ : Status;
  last_sync_time_ : Z
}.
#[global] Instance GroupCommitController_eta : Eta GroupCommitController := fun r =>
  mkGroupCommitController (gc_config_ r) (next_epoch_ r) (durable_epoch_ r)
    (sync_in_progress_end_ r) (pending_ r) (gc_healthy_ r) (sync_requested_ r)
    (gc_last_error_ r) (last_sync_time_ r).

Definition GroupCommitController_new (config : LogPersistenceConfig) (now : Z)
  : GroupCommitController :=
  mkGroupCommitController config 1 0 0 [] true false StOK now.

(** ** Operations *)

(** The epoch, or the error of an unhealthy controller, which leaves the
    callbacks with the caller. *)
Definition RegisterFlushedBatch (now entry_count byte_size : Z) (callbacks : list DurableCallback)
    (c : GroupCommitController) : (Status + Z) * GroupCommitController :=
  if negb (gc_healthy_ c) then
    (inl (if status_ok (gc_last_error_ c) then Error1 "Group commit controller is unhealthy"
          else gc_last_error_ c), c)
  else
    let epoch := next_epoch_ c in
    (inr epoch,
     c <| next_epoch_ := u64 (epoch + 1) |>
       <| pending_ ::= fun ps => ps ++ [mkPendingEpoch epoch entry_count byte_size now callbacks] |>).

Definition AcquireSyncRange (c : GroupCommitController)
  : option (Z * Z) * GroupCommitController :=
  if negb (gc_healthy_ c) then (None, c)
  else if decide (sync_in_progress_end_ c <> 0) then (None, c)
  else
    match list.last (pending_ c) with
    | None => (None, c)
    | Some back =>
        (Some (u64 (durable_epoch_ c + 1), pe_epoch back),
         c <| sync_in_progress_end_ := pe_epoch back |>)
    end.

(** The loop of [OnSyncSuccess]: the callbacks to fire, the new durable epoch
    and the epochs that stay. *)
Fixpoint pop_synced (end_epoch durable : Z) (ps : list PendingEpoch)
  : list (list DurableCallback * Status) * Z * list PendingEpoch :=
  match ps with
  | [] => ([], durable, [])
  | front :: rest =>
      if decide (pe_epoch front <= end_epoch) then
        let '(fire, d, rest') := pop_synced end_epoch (pe_epoch front) rest in
        ((pe_callbacks front, StOK) :: fire, d, rest')
      else ([], durable, ps)
  end.

(** The calls of [for (auto& cb : callbacks) if (cb) cb(status)], in order. *)
Definition fire_all (to_fire : list (list DurableCallback * Status)) : list (nat * Status) :=
  to_fire ≫= fun p => omap (fun cb : DurableCallback => (fun k => (k, p.2)) <$> cb) p.1.

Definition OnSyncSuccess (now end_epoch : Z) (c : GroupCommitController)
  : list (nat * Status) * GroupCommitController :=
  if decide (sync_in_progress_end_ c = 0 \/ end_epoch <> sync_in_progress_end_ c) then ([], c)
  else
    let '(to_fire, durable, rest) := pop_synced end_epoch (durable_epoch_ c) (pending_ c) in
    (fire_all to_fire,
     c <| last_sync_time_ := now |> <| sync_in_progress_end_ := 0 |> <| sync_requested_ := false |>
       <| durable_epoch_ := durable |> <| pending_ := rest |>).

Definition OnSyncFailure (end_epoch : Z) (error : Status) (c : GroupCommitController)
  : list (nat * Status) * GroupCommitController :=
  if decide (sync_in_progress_end_ c = 0 \/ end_epoch <> sync_in_progress_end_ c) then ([], c)
  else
    (fire_all (map (fun p => (pe_callbacks p, error)) (pending_ c)),
     c <| gc_healthy_ := false |> <| gc_last_error_ := error |> <| sync_in_progress_end_ := 0 |>
       <| sync_requested_ := false |> <| pending_ := [] |>).

Definition IsSyncPolicyEnabled (c : GroupCommitController) : bool :=
  bool_decide (sync_policy (gc_config_ c) <> kSyncEveryWrite).

Definition UnsyncedEntryCountLocked (c : GroupCommitController) : Z :=
  foldl (fun total p => u64 (total + pe_entry_count p)) 0 (pending_ c).

Definition UnsyncedByteCountLocked (c : GroupCommitController) : Z :=
  foldl (fun total p => u64 (total + pe_byte_size p)) 0 (pending_ c).

Definition ShouldSyncNow (now : Z) (c : GroupCommitController) : bool :=
  let policy := sync_policy (gc_config_ c) in
  if negb (gc_healthy_ c) || bool_decide (pending_ c = []) ||
     bool_decide (sync_in_progress_end_ c <> 0) then false
  else if negb (IsSyncPolicyEnabled c) then false
  else if sync_requested_ c then true
  else if bool_decide (policy = kSyncByInterval \/ policy = kSyncAdaptive) &&
          bool_decide (group_commit_interval_ms (gc_config_ c) <= elapsed_ms now (last_sync_time_ c))
  then true
  else if bool_decide (policy = kSyncByBatchSize \/ policy = kSyncAdaptive) &&
          (bool_decide (group_commit_max_entries (gc_config_ c) <= UnsyncedEntryCountLocked c) ||
           bool_decide (group_commit_max_bytes (gc_config_ c) <= UnsyncedByteCountLocked c))
  then true
  else false.

(** In milliseconds. *)
Definition NextSyncDelay (now : Z) (c : GroupCommitController) : Z :=
  if negb (IsSyncPolicyEnabled c) || bool_decide (pending_ c = []) then
    group_commit_interval_ms (gc_config_ c)
  else if decide (sync_policy (gc_config_ c) = kSyncByBatchSize) then 1
  else
    let remaining :=
      group_commit_interval_ms (gc_config_ c) - elapsed_ms now (last_sync_time_ c) in
    if decide (remaining <= 0) then 0 else remaining.

Record GroupCommitStats := mkGroupCommitStats {
  st_pending_epochs : Z;
  st_unsynced_entries : Z;
  st_unsynced_bytes : Z;
  st_durable_epoch : Z;
  st_next_epoch : Z;
  st_sync_in_progress_end : Z;
  st_healthy : bool
}.

Definition GetStats (c : GroupCommitController) : GroupCommitStats :=
  mkGroupCommitStats (Z.of_nat (length (pending_ c))) (UnsyncedEntryCountLocked c)
    (UnsyncedByteCountLocked c) (durable_epoch_ c) (next_epoch_ c) (sync_in_progress_end_ c)
    (gc_healthy_ c).

Definition RequestSync (c : GroupCommitController) : GroupCommitController :=
  c <| sync_requested_ := true |>.

(** ** Epochs *)

(** A healthy controller holds the epochs after the durable one, without a
    hole, and the sync in flight ends at one of them. *)
Record controller_ok (c : GroupCommitController) : Prop := {
  co_durable : 0 <= durable_epoch_ c < next_epoch_ c;
  co_next : next_epoch_ c <= UINT64_MAX;
  co_pending : gc_healthy_ c = true ->
    map pe_epoch (pending_ c) =
      seqZ (durable_epoch_ c + 1) (next_epoch_ c - durable_epoch_ c - 1);
  co_failed : gc_healthy_ c = false -> pending_ c = [] /\ sync_in_progress_end_ c = 0;
  co_sync : sync_in_progress_end_ c = 0 \/
    durable_epoch_ c < sync_in_progress_end_ c < next_epoch_ c
}.

Lemma seqZ_one a : seqZ a 1 = [a].
Proof. done. Qed.

Lemma controller_new_ok config now : controller_ok (GroupCommitController_new config now).
Proof. by split; [| | | |left]. Qed.

Lemma pop_synced_spec end_epoch n : forall durable ps fire d rest,
  map pe_epoch ps = seqZ (durable + 1) n -> durable <= end_epoch ->
  pop_synced end_epoch durable ps = (fire, d, rest) ->
  d = Z.min end_epoch (durable + Z.max n 0) /\
  map pe_epoch rest = seqZ (d + 1) (n - (d - durable)) /\
  exists front, ps = front ++ rest /\ fire = map (fun p => (pe_callbacks p, StOK)) front /\
    Forall (fun p => pe_epoch p <= end_epoch) front /\
    Forall (fun p => end_epoch < pe_epoch p) rest.
Proof.
  intros durable ps. revert n durable.
  induction ps as [|p ps IH]; intros n durable fire d rest Hm Hle; cbn [pop_synced].
  - intros [= <- <- <-]. assert (n <= 0).
    { destruct (decide (0 < n)); [|lia]. rewrite seqZ_cons in Hm by lia. done. }
    split; [lia|]. split; [|by exists []]. rewrite seqZ_nil by lia. done.
  - assert (0 < n). { destruct (decide (0 < n)); [done|]. by rewrite seqZ_nil in Hm by lia. }
    rewrite seqZ_cons in Hm by lia. cbn [map] in Hm. injection Hm as Hp Hm.
    replace (Z.succ (durable + 1)) with (pe_epoch p + 1) in Hm by lia.
    case_decide.
    + destruct (pop_synced _ _ ps) as [[fire' d'] rest'] eqn:E. intros [= <- <- <-].
      destruct (IH (Z.pred n) (pe_epoch p) fire' d' rest') as (Hd & Hr & front & -> & -> & F1 & F2);
        [done|done|done|].
      split; [lia|]. split; [rewrite Hr; f_equal; lia|].
      exists (p :: front). split_and!; [done|done|by constructor|done].
    + intros [= <- <- <-]. split; [lia|].
      split; [cbn [map]; rewrite (seqZ_cons _ (n - _)) by lia; f_equal; [lia|rewrite Hm; f_equal; lia]|].
      exists []. split_and!; [done|done|done|]. apply list.Forall_forall. intros q Hq.
      assert (pe_epoch q ∈ map pe_epoch (p :: ps)) as Hin by by apply list_elem_of_fmap_2.
      cbn [map] in Hin. rewrite Hm, Hp in Hin. apply elem_of_cons in Hin as [->|Hin]; [lia|].
      apply elem_of_seqZ in Hin. lia.
Qed.

Lemma register_ok now n b cbs c :
  controller_ok c -> next_epoch_ c < UINT64_MAX -> controller_ok (RegisterFlushedBatch now n b cbs c).2.
Proof.
  intros C Hn. unfold RegisterFlushedBatch. destruct (gc_healthy_ c) eqn:E; cbn [negb snd]; [|done].
  pose proof (co_durable _ C) as Hd. rewrite (u64_small (_ + 1)) by lia.
  split; proj_simp; [lia|lia| |intros ?; congruence|].
  - intros _. rewrite map_app, (co_pending _ C E). cbn [map pe_epoch].
    replace (next_epoch_ c + 1 - durable_epoch_ c - 1)
      with (next_epoch_ c - durable_epoch_ c - 1 + 1) by lia.
    rewrite (seqZ_app _ (next_epoch_ c - durable_epoch_ c - 1) 1) by lia.
    rewrite (seqZ_one (_ + _)). do 2 f_equal. lia.
  - destruct (co_sync _ C); [by left|right; lia].
Qed.

Lemma last_epoch c back :
  controller_ok c -> gc_healthy_ c = true -> list.last (pending_ c) = Some back ->
  pe_epoch back = next_epoch_ c - 1 /\ durable_epoch_ c < pe_epoch back.
Proof.
  intros C E Hl. apply last_Some in Hl as [front Hp]. pose proof (co_pending _ C E) as Hm.
  pose proof (co_durable _ C) as Hd. rewrite Hp, map_app in Hm. cbn [map] in Hm.
  set (n := next_epoch_ c - durable_epoch_ c - 1) in *.
  assert (Hn : 0 < n).
  { destruct (decide (0 < n)); [done|]. rewrite seqZ_nil in Hm by lia. by destruct (map _ front). }
  replace n with (n - 1 + 1) in Hm by lia. rewrite (seqZ_app _ (n - 1) 1) in Hm by lia.
  rewrite seqZ_one in Hm. apply app_inj_2 in Hm as [_ Hm]; [|done]. injection Hm as Hm. lia.
Qed.

Lemma acquire_ok c : controller_ok c -> controller_ok (AcquireSyncRange c).2.
Proof.
  intros C. unfold AcquireSyncRange. destruct (gc_healthy_ c) eqn:E; cbn [negb]; [|done].
  case_decide; [done|]. destruct (list.last (pending_ c)) as [back|] eqn:El; [|done].
  destruct (last_epoch c back C E El). cbn [snd]. split; proj_simp; try apply C; [intros ?; congruence|right; lia].
Qed.

Lemma in_progress_healthy c : controller_ok c -> sync_in_progress_end_ c <> 0 -> gc_healthy_ c = true.
Proof. intros C Hs. destruct (gc_healthy_ c) eqn:E; [done|]. by destruct (co_failed _ C E). Qed.

Lemma success_ok now e c : controller_ok c -> controller_ok (OnSyncSuccess now e c).2.
Proof.
  intros C. unfold OnSyncSuccess. case_decide as Hd; [done|].
  assert (Hs : sync_in_progress_end_ c <> 0) by tauto.
  assert (He : e = sync_in_progress_end_ c) by (destruct (decide (e = sync_in_progress_end_ c)); tauto).
  pose proof (in_progress_healthy c C Hs) as E. pose proof (co_durable _ C).
  destruct (co_sync _ C) as [|Hr]; [done|]. assert (Hle : durable_epoch_ c <= e) by lia.
  destruct (pop_synced _ _ _) as [[fire d] rest] eqn:Ep. cbn [snd].
  destruct (pop_synced_spec _ _ _ _ _ _ _ (co_pending _ C E) Hle Ep) as (Hde & Hre & _).
  assert (d = e) as -> by lia.
  split; proj_simp; [lia|by apply C| |intros ?; congruence|by left].
  intros _. rewrite Hre. f_equal. lia.
Qed.

Lemma failure_ok e err c : controller_ok c -> controller_ok (OnSyncFailure e err c).2.
Proof.
  intros C. unfold OnSyncFailure. case_decide; [done|]. cbn [snd].
  split; proj_simp; try apply C; [intros ?; congruence|done|by left].
Qed.

(** ** Sequences of calls *)

Inductive GcCall :=
| GRegister (now entry_count byte_size : Z) (callbacks : list DurableCallback)
| GAcquire
| GSuccess (now end_epoch : Z)
| GFailure (end_epoch : Z) (error : Status)
| GRequest.

(** A call: the callbacks it fires and the new controller. *)
Definition gc_call (c : GroupCommitController) (o : GcCall)
  : list (nat * Status) * GroupCommitController :=
  match o with
  | GRegister now n b cbs => ([], (RegisterFlushedBatch now n b cbs c).2)
  | GAcquire => ([], (AcquireSyncRange c).2)
  | GSuccess now e => OnSyncSuccess now e c
  | GFailure e err => OnSyncFailure e err c
  | GRequest => ([], RequestSync c)
  end.

Definition gc_run (c : GroupCommitController) (ops : list GcCall) : GroupCommitController :=
  foldl (fun c o => (gc_call c o).2) c ops.

Lemma gc_call_next c o : next_epoch_ c <= UINT64_MAX - 1 -> 0 < next_epoch_ c ->
  next_epoch_ c <= next_epoch_ (gc_call c o).2 <= next_epoch_ c + 1.
Proof.
  intros Hn Hp. destruct o; cbn [gc_call snd].
  - unfold RegisterFlushedBatch. destruct (gc_healthy_ c); cbn [negb snd]; [|lia].
    proj_simp. rewrite u64_small by lia. lia.
  - unfold AcquireSyncRange. destruct (gc_healthy_ c); cbn [negb snd]; [|lia].
    case_decide; [cbn [snd]; lia|]. destruct (list.last _); cbn [snd]; proj_simp; lia.
  - unfold OnSyncSuccess. case_decide; [cbn [snd]; lia|]. destruct (pop_synced _ _ _) as [[? ?] ?]. cbn [snd]. proj_simp. lia.
  - unfold OnSyncFailure. case_decide; cbn [snd]; proj_simp; lia.
  - unfold RequestSync. proj_simp. lia.
Qed.

Lemma gc_call_ok c o : controller_ok c -> next_epoch_ c < UINT64_MAX -> controller_ok (gc_call c o).2.
Proof.
  intros C Hn. destruct o; cbn [gc_call snd];
    [by apply register_ok|by apply acquire_ok|by apply success_ok|by apply failure_ok|].
  split; apply C.
Qed.

Lemma gc_run_ok ops : forall c,
  controller_ok c -> next_epoch_ c + Z.of_nat (length ops) <= UINT64_MAX -> controller_ok (gc_run c ops).
Proof.
  induction ops as [|o ops IH]; intros c C Hn; [done|]. cbn [gc_run foldl length] in *.
  pose proof (co_durable _ C). pose proof (gc_call_next c o ltac:(lia) ltac:(lia)).
  apply IH; [apply gc_call_ok; [done|lia]|lia].
Qed.

(** C36. The state of the controller is well formed after any sequence of calls,
    in any order and with any arguments: the pending epochs are exactly those
    after the durable one, without a hole; the range handed out for a sync
    starts there and ends at the newest; and after a failure nothing is pending
    or in flight. *)
Theorem epochs_are_contiguous config now ops :
  Z.of_nat (length ops) < UINT64_MAX ->
  let c := gc_run (GroupCommitController_new config now) ops in
  controller_ok c /\
  forall range, (AcquireSyncRange c).1 = Some range ->
    map pe_epoch (pending_ c) = seqZ range.1 (range.2 - range.1 + 1) /\
    range.1 = durable_epoch_ c + 1 /\ range.2 = next_epoch_ c - 1.
Proof.
  intros Hn c. assert (C : controller_ok c) by (apply gc_run_ok; [apply controller_new_ok|cbn; lia]).
  split; [done|]. intros range. unfold AcquireSyncRange.
  destruct (gc_healthy_ c) eqn:E; cbn [negb fst]; [|done]. case_decide; [done|].
  destruct (list.last (pending_ c)) as [back|] eqn:El; [|done]. intros [= <-]. cbn [fst snd].
  destruct (last_epoch c back C E El). pose proof (co_durable _ C). pose proof (co_next _ C).
  rewrite u64_small by lia. split; [|lia]. rewrite (co_pending _ C E). f_equal. lia.
Qed.

Lemma epochs_are_contiguous_witness :
  let c := gc_run (GroupCommitController_new LogPersistenceConfig_default 0)
             [GRegister 1 2 64 [Some 0%nat; None]; GAcquire; GRegister 2 1 32 [Some 1%nat];
              GSuccess 3 1; GRegister 4 1 32 [None]] in
  controller_ok c /\
  forall range, (AcquireSyncRange c).1 = Some range ->
    map pe_epoch (pending_ c) = seqZ range.1 (range.2 - range.1 + 1) /\
    range.1 = durable_epoch_ c + 1 /\ range.2 = next_epoch_ c - 1.
Proof. apply epochs_are_contiguous. by vm_compute. Defined.

(** The sync worker never sleeps longer than the commit interval, and when
    it is time for an interval sync the delay is zero. *)
Theorem sync_delay_bounds now c :
  1 <= group_commit_interval_ms (gc_config_ c) -> last_sync_time_ c <= now ->
  0 <= NextSyncDelay now c <= group_commit_interval_ms (gc_config_ c) /\
  (ShouldSyncNow now c = true -> sync_requested_ c = false ->
   sync_policy (gc_config_ c) = kSyncByInterval -> NextSyncDelay now c = 0).
Proof.
  intros Hi Ht. unfold NextSyncDelay, ShouldSyncNow.
  assert (0 <= elapsed_ms now (last_sync_time_ c)) by (unfold elapsed_ms; apply Z.quot_pos; lia).
  split.
  - repeat case_match; repeat case_decide; lia.
  - intros Hs Hr Hp. unfold IsSyncPolicyEnabled in *. rewrite Hp, Hr in *.
    destruct (gc_healthy_ c), (decide (pending_ c = [])) as [Hn|Hn];
      rewrite ?(bool_decide_true (pending_ c = [])), ?(bool_decide_false (pending_ c = [])) in * by done;
      try done.
    cbn [negb orb] in *. destruct (bool_decide (sync_in_progress_end_ c <> 0)); [done|].
    rewrite (bool_decide_true (kSyncByInterval = kSyncByInterval \/ _)) in Hs by by left.
    rewrite (bool_decide_false (kSyncByInterval = kSyncByBatchSize \/ _)) in Hs by (intros [?|?]; done).
    rewrite bool_decide_true in Hs |- * by done. cbn [negb andb orb] in Hs |- *.
    rewrite decide_False by done. case_bool_decide; [|done]. by rewrite decide_True by lia.
Qed.

Lemma sync_delay_bounds_witness :
  let c := gc_run (GroupCommitController_new
             (mkLogPersistenceConfig 100 10 true kSyncByInterval 50 1000 4096 5000 0 "") 0)
             [GRegister 1 2 64 [None]] in
  0 <= NextSyncDelay (ms 60) c <= group_commit_interval_ms (gc_config_ c) /\
  (ShouldSyncNow (ms 60) c = true -> sync_requested_ c = false ->
   sync_policy (gc_config_ c) = kSyncByInterval -> NextSyncDelay (ms 60) c = 0).
Proof. apply sync_delay_bounds; by vm_compute. Defined.
