(* ===== verification/LogPersister.v ===== *)
(** * The batching log persister

    [LogPersister]: entries are buffered by [Append], written by the flush
    thread and made durable by the sync thread or inline.  The threads take
    turns between the points where the code holds no lock: the batch of a flush
    and the range of a sync are part of the state, and a step of the system is a
    step of one thread.  A callback is a token; the calls made are recorded in
    [lp_fired].  Condition variables only decide when a thread takes its next
    step, which is left to the schedule; the metrics are left out.

    Before it, what it expects of a persister: the log operations of the interface
    [Persister] as a class, and its contract.  A persister holds the history of the
    commands it accepted, of which a prefix is durable; errors leave a part of the
    batch behind, and a successful [Sync] makes the whole history durable. *)

From S2P Require Import Prelude Types Disk Wal WalScan GroupCommit.

Class PersisterOps (P : Type) := {
  p_append_entries : list RaftLogEntry -> State P Status;
  p_sync : State P Status;
  p_truncate_prefix : Z -> State P Status;
  p_truncate_suffix : Z -> State P Status;
  p_get_entries : Z -> Z -> State P (Status * list RaftLogEntry);
  p_get_last_log_info : State P (Z * Z);
  p_set_sync_on_write : bool -> State P unit
}.

(** [holds p h d]: the commands accepted so far are [h], those of [d] survive a
    crash.  [cmd_fits] are the commands within the limits of the persister,
    [max_history] bounds their number. *)
Class PersisterSpec (P : Type) `{!PersisterOps P} := {
  holds : P -> list Cmd -> list Cmd -> Prop;
  cmd_fits : Cmd -> Prop;
  max_history : Z;
  holds_prefix p h d : holds p h d -> d `prefix_of` h;
  append_spec p h d es :
    holds p h d -> Forall cmd_fits (map CEntry es) ->
    Z.of_nat (length h + length es) <= max_history ->
    exists n d', d `prefix_of` d' /\
      holds (p_append_entries es p).2 (h ++ take n (map CEntry es)) d' /\
      (status_ok (p_append_entries es p).1 = true -> (length es <= n)%nat);
  sync_spec p h d :
    holds p h d ->
    exists d', d `prefix_of` d' /\ holds (p_sync p).2 h d' /\
      (status_ok (p_sync p).1 = true -> d' = h);
  truncate_prefix_spec p h d i :
    holds p h d -> cmd_fits (CPrefix i) -> Z.of_nat (length h + 1) <= max_history ->
    exists n d', d `prefix_of` d' /\
      holds (p_truncate_prefix i p).2 (h ++ take n [CPrefix i]) d';
  truncate_suffix_spec p h d i :
    holds p h d -> cmd_fits (CSuffix i) -> Z.of_nat (length h + 1) <= max_history ->
    exists n d', d `prefix_of` d' /\
      holds (p_truncate_suffix i p).2 (h ++ take n [CSuffix i]) d';
  set_sync_spec p h d b : holds p h d -> holds (p_set_sync_on_write b p).2 h d
}.

(** ** The log persister *)

Record PendingEntry := mkPendingEntry {
  pn_entry : RaftLogEntry;
  pn_callback : DurableCallback
}.
#[global] Instance PendingEntry_eta : Eta PendingEntry := fun r =>
  mkPendingEntry (pn_entry r) (pn_callback r).

(** Where the flush thread is in [DoFlush], with its local batch. *)
Inductive FlushStage :=
| FIdle
| FTaken (batch : list PendingEntry)
| FWritten (batch : list PendingEntry).

(** Where the sync thread is between [AcquireSyncRange] and the report. *)
Inductive SyncStage :=
| SIdle
| SAcquired (end_epoch : Z)
| SDone (end_epoch : Z) (status : Status).

Record LogPersister (P : Type) := mkLogPersister {
  lp_persister : option P;
  lp_config : LogPersistenceConfig;
  lp_buffer : list PendingEntry;
  lp_running : bool;
  lp_flush_in_progress : bool;
  lp_controller : option GroupCommitController;
  lp_healthy : bool;
  lp_last_error : string;
  lp_total_flushed : Z;
  lp_total_flush_ops : Z;
  lp_flusher : FlushStage;
  lp_syncer : SyncStage;
  lp_fired : list (nat * Status);
  (** [async_state_]: the flag, the count, the truncations given to the
      executor and the truncation callbacks called *)
  lp_shutdown : bool;
  lp_pending_count : Z;
  lp_tasks : list (Z * DurableCallback);
  lp_truncated : list (nat * Status)
}.
#[global] Instance LogPersister_eta P : Eta (LogPersister P) := fun r =>
  mkLogPersister P (lp_persister P r) (lp_config P r) (lp_buffer P r) (lp_running P r)
    (lp_flush_in_progress P r) (lp_controller P r) (lp_healthy P r) (lp_last_error P r)
    (lp_total_flushed P r) (lp_total_flush_ops P r) (lp_flusher P r) (lp_syncer P r) (lp_fired P r)
    (lp_shutdown P r) (lp_pending_count P r) (lp_tasks P r) (lp_truncated P r).
Arguments mkLogPersister {P}.
Arguments lp_persister {P}.
Arguments lp_config {P}.
Arguments lp_buffer {P}.
Arguments lp_running {P}.
Arguments lp_flush_in_progress {P}.
Arguments lp_controller {P}.
Arguments lp_healthy {P}.
Arguments lp_last_error {P}.
Arguments lp_total_flushed {P}.
Arguments lp_total_flush_ops {P}.
Arguments lp_flusher {P}.
Arguments lp_syncer {P}.
Arguments lp_fired {P}.
Arguments lp_shutdown {P}.
Arguments lp_pending_count {P}.
Arguments lp_tasks {P}.
Arguments lp_truncated {P}.

Section log_persister.
Context {P : Type} `{!PersisterOps P}.
Notation L := (LogPersister P).

(** The constructor. *)
Definition LogPersister_new (persister : option P) (config : LogPersistenceConfig) (now : Z) : L :=
  mkLogPersister persister config [] false false
    (if decide (sync_policy config = kSyncEveryWrite) then None
     else Some (GroupCommitController_new config now))
    true "" 0 0 FIdle SIdle [] false 0 [] [].

(** A call on the persister, [k] the result for a null pointer. *)
Definition with_persister {A} (m : State P A) (k : A) (s : L) : A * L :=
  match lp_persister s with
  | None => (k, s)
  | Some p => let '(a, p') := m p in (a, s <| lp_persister := Some p' |>)
  end.

Definition fail_with (error : string) (s : L) : L :=
  s <| lp_last_error := error |> <| lp_healthy := false |>.

(** [statvfs] of the data directory: [None] when it fails, else the available
    blocks and their size. *)
Definition CheckDiskSpace (config : LogPersistenceConfig) (vfs : option (Z * Z)) : Status :=
  if decide (data_dir config = "") then StOK
  else
    match vfs with
    | None => Error1 ("Cannot check disk space for " +:+ data_dir config)
    | Some (f_bavail, f_frsize) =>
        let available := u64 (u64 f_bavail * u64 f_frsize) in
        if decide (available < min_disk_space_bytes config) then
          Error1 ("Insufficient disk space: available=" +:+ pretty available +:+
                  " required=" +:+ pretty (min_disk_space_bytes config))
        else StOK
    end.

(** ** The caller *)

Definition LpStart (s : L) : L :=
  if lp_running s then s
  else
    let s := s <| lp_running := true |> <| lp_healthy := true |> in
    (with_persister (p_set_sync_on_write
       (bool_decide (sync_policy (lp_config s) = kSyncEveryWrite))) tt s).2.

(** The callbacks of a list of pending entries that are there, each with [st]. *)
Definition call_all (st : Status) (cbs : list DurableCallback) : list (nat * Status) :=
  omap (fun cb : DurableCallback => (fun k => (k, st)) <$> cb) cbs.

Definition LpAppend (entry : RaftLogEntry) (callback : DurableCallback) (vfs : option (Z * Z))
    (s : L) : L :=
  let push s := s <| lp_buffer ::= fun b => b ++ [mkPendingEntry entry callback] |> in
  if negb (lp_healthy s) then
    if status_ok (CheckDiskSpace (lp_config s) vfs) then
      push (s <| lp_healthy := true |> <| lp_last_error := "" |>)
    else
      s <| lp_fired ::= fun f => f ++ call_all
             (Error1 ("Persister is unhealthy: " +:+ lp_last_error s)) [callback] |>
  else push s.

(** ** The flush thread *)

(** The swap of [buffer_] into the local batch; nothing to do on an empty one. *)
Definition flush_take (s : L) : L :=
  match lp_buffer s with
  | [] => s
  | batch => s <| lp_buffer := [] |> <| lp_flush_in_progress := true |> <| lp_flusher := FTaken batch |>
  end.

Definition WriteBatch (entries : list RaftLogEntry) (s : L) : Status * L :=
  match lp_persister s with
  | None => (Error1 "Persister is null", s)
  | Some _ =>
      if decide (entries = []) then (StOK, s)
      else with_persister (p_append_entries entries) StOK s
  end.

(** The batch goes back behind what was appended in the meantime. *)
Definition put_back (batch : list PendingEntry) (s : L) : L :=
  s <| lp_buffer ::= fun b => b ++ batch |> <| lp_flush_in_progress := false |>
    <| lp_flusher := FIdle |>.

(** The disk check and the write; a failed write tells the callbacks. *)
Definition flush_write (vfs : option (Z * Z)) (batch : list PendingEntry) (s : L) : L :=
  let space := CheckDiskSpace (lp_config s) vfs in
  if negb (status_ok space) then put_back batch (fail_with (ToString space) s)
  else
    let s := if negb (lp_healthy s) then s <| lp_healthy := true |> <| lp_last_error := "" |> else s in
    let '(status, s) := WriteBatch (map pn_entry batch) s in
    if negb (status_ok status) then
      let s := fail_with (ToString status) s in
      let s := s <| lp_fired ::= fun f => f ++ call_all
                     (Error1 ("Flush failed: " +:+ lp_last_error s)) (map pn_callback batch) |> in
      put_back (map (fun p => p <| pn_callback := None |>) batch) s
    else
      s <| lp_total_flushed ::= fun n => u64 (n + Z.of_nat (length batch)) |>
        <| lp_total_flush_ops ::= fun n => u64 (n + 1) |>
        <| lp_flusher := FWritten batch |>.

Definition entry_bytes (p : PendingEntry) : Z :=
  Z.of_nat (String.length (data_ (pn_entry p)) + String.length (command_ (pn_entry p))) + 4 + 4.

Definition end_flush (s : L) : L := s <| lp_flush_in_progress := false |> <| lp_flusher := FIdle |>.

(** Handing the callbacks to the controller, or an inline sync. *)
Definition flush_finish (now : Z) (batch : list PendingEntry) (s : L) : L :=
  let cbs := map pn_callback batch in
  match lp_controller s with
  | Some c =>
      let byte_size := foldl (fun n p => u64 (n + entry_bytes p)) 0 batch in
      let '(r, c') := RegisterFlushedBatch now (Z.of_nat (length batch)) byte_size cbs c in
      let s := s <| lp_controller := Some c' |> in
      match r with
      | inr _ => end_flush s
      | inl register_error =>
          end_flush (fail_with (ToString register_error) s
            <| lp_fired ::= fun f => f ++ call_all register_error cbs |>)
      end
  | None =>
      let '(sync_status, s) := with_persister p_sync StOK s in
      if negb (status_ok sync_status) then
        end_flush (fail_with (ToString sync_status) s
          <| lp_fired ::= fun f => f ++ call_all sync_status cbs |>)
      else end_flush (s <| lp_fired ::= fun f => f ++ call_all StOK cbs |>)
  end.

(** What the flush thread does next. *)
Definition flush_step (now : Z) (vfs : option (Z * Z)) (s : L) : L :=
  match lp_flusher s with
  | FIdle => flush_take s
  | FTaken batch => flush_write vfs batch s
  | FWritten batch => flush_finish now batch s
  end.

(** [DoFlush] without interruption: at most three steps. *)
Definition DoFlush (now : Z) (vfs : option (Z * Z)) (s : L) : L :=
  let s := flush_take s in
  match lp_flusher s with
  | FTaken batch =>
      let s := flush_write vfs batch s in
      match lp_flusher s with FWritten batch => flush_finish now batch s | _ => s end
  | _ => s
  end.

(** ** The sync thread *)

(** [AcquireSyncRange], then [Sync] on the persister, then the report. *)
Definition sync_step (now : Z) (s : L) : L :=
  match lp_controller s with
  | None => s
  | Some c =>
      match lp_syncer s with
      | SIdle =>
          match AcquireSyncRange c with
          | (Some range, c') => s <| lp_controller := Some c' |> <| lp_syncer := SAcquired range.2 |>
          | (None, c') => s <| lp_controller := Some c' |>
          end
      | SAcquired e =>
          let '(status, s) := with_persister p_sync StOK s in
          s <| lp_syncer := SDone e status |>
      | SDone e status =>
          if status_ok status then
            let '(fired, c') := OnSyncSuccess now e c in
            s <| lp_controller := Some c' |> <| lp_syncer := SIdle |>
              <| lp_fired ::= fun f => f ++ fired |>
          else
            let '(fired, c') := OnSyncFailure e status c in
            fail_with (ToString status)
              (s <| lp_controller := Some c' |> <| lp_syncer := SIdle |>
                 <| lp_fired ::= fun f => f ++ fired |>)
      end
  end.

(** ** Waiting calls *)

(** [FlushSync]: the result when its wait ends; [None] while it goes on. *)
Definition FlushSync (timeout : bool) (s : L) : option Status :=
  if (bool_decide (lp_buffer s = []) && negb (lp_flush_in_progress s)) || negb (lp_healthy s) then
    Some (if negb (lp_healthy s) then Error1 ("Flush failed: " +:+ lp_last_error s) else StOK)
  else if timeout then Some (Error1 "Flush timeout")
  else None.

(** [TruncatePrefix] and [TruncateSuffix] after the drain. *)
Definition LpTruncatePrefix (before_index : Z) (timeout : bool) (s : L) : option Status * L :=
  match FlushSync timeout s with
  | Some StOK =>
      let '(st, s') := with_persister (p_truncate_prefix before_index) (Error1 "Persister is null") s in
      (Some st, s')
  | r => (r, s)
  end.

Definition LpTruncateSuffix (from_index : Z) (timeout : bool) (s : L) : option Status * L :=
  match FlushSync timeout s with
  | Some StOK =>
      let '(st, s') := with_persister (p_truncate_suffix from_index) (Error1 "Persister is null") s in
      (Some st, s')
  | r => (r, s)
  end.

(** [TruncatePrefixAsync]: the count goes up before the drain and down with the
    callback. *)
Definition truncate_done (callback : DurableCallback) (status : Status) (s : L) : L :=
  s <| lp_truncated ::= fun f => f ++ call_all status [callback] |>
    <| lp_pending_count ::= fun n => u64 (n - 1) |>.

Definition TruncatePrefixAsync (before_index : Z) (callback : DurableCallback) (timeout : bool) (s : L)
  : L :=
  if lp_shutdown s then
    s <| lp_truncated ::= fun f => f ++ call_all (Error1 "LogPersister is shut down") [callback] |>
  else
    match FlushSync timeout s with
    | None => s
    | Some status =>
        let s := s <| lp_pending_count ::= fun n => u64 (n + 1) |> in
        if negb (status_ok status) then truncate_done callback status s
        else if lp_shutdown s then truncate_done callback (Error1 "LogPersister is shut down") s
        else
          match lp_persister s with
          | None => truncate_done callback (Error1 "Persister is null") s
          | Some _ => s <| lp_tasks ::= fun ts => ts ++ [(before_index, callback)] |>
          end
    end.

(** The executor runs a task. *)
Definition do_truncate (s : L) : L :=
  match lp_tasks s with
  | [] => s
  | (before_index, callback) :: rest =>
      let s := s <| lp_tasks := rest |> in
      if lp_shutdown s then
        truncate_done callback (Error1 "Truncation cancelled: LogPersister shut down") s
      else
        let '(status, s) := with_persister (p_truncate_prefix before_index) StOK s in
        truncate_done callback status s
  end.

(** [Restore], in batches; every round moves [batch_start] on by a thousand, so
    [fuel] rounds cover [1000 * fuel] indexes. *)
Definition kRestoreBatchSize : Z := 1000.

Fixpoint restore_batches (fuel : nat) (batch_start last_index : Z) (entries : list RaftLogEntry)
  : State P (list RaftLogEntry) :=
  match fuel with
  | O => mret entries
  | S fuel' =>
      if decide (batch_start <= last_index) then
        let batch_end := Z.min (u64 (batch_start + kRestoreBatchSize)) (u64 (last_index + 1)) in
        r ← p_get_entries batch_start batch_end;
        if negb (status_ok r.1) then mret entries
        else restore_batches fuel' (u64 (batch_start + kRestoreBatchSize)) last_index (entries ++ r.2)
      else mret entries
  end.

Definition Restore (start_index : Z) (s : L) : list RaftLogEntry * L :=
  with_persister
    (info ← p_get_last_log_info;
     if decide (info.1 < start_index) then mret []
     else restore_batches (S (Z.to_nat ((info.1 - start_index) / kRestoreBatchSize))) start_index info.1 [])
    [] s.

(** [Sync]: the request, and the result when the wait ends. *)
Definition LpSync (s : L) : option Status * L :=
  match lp_persister s, lp_controller s with
  | None, _ => (Some StOK, s)
  | Some _, None => let '(st, s') := with_persister p_sync StOK s in (Some st, s')
  | Some _, Some c => (None, s <| lp_controller := Some (RequestSync c) |>)
  end.

Definition LpSync_wait (timeout : bool) (s : L) : option Status :=
  match lp_controller s with
  | None => Some StOK
  | Some c =>
      if negb (lp_running s) || negb (gc_healthy_ c) || bool_decide (pending_ c = []) then
        Some (if negb (gc_healthy_ c) then Error1 ("Sync failed: " +:+ lp_last_error s) else StOK)
      else if timeout then Some (Error1 "Sync timeout")
      else None
  end.

(** The end of [Stop], after both threads have been joined. *)
Definition LpStop (now : Z) (vfs : option (Z * Z)) (s : L) : L :=
  if negb (lp_running s) then s
  else
    let s := DoFlush now vfs (s <| lp_running := false |>) in
    match lp_controller s, lp_persister s with
    | Some c, Some _ =>
        match AcquireSyncRange c with
        | (None, c') => s <| lp_controller := Some c' |>
        | (Some range, c') =>
            let '(status, s) := with_persister p_sync StOK (s <| lp_controller := Some c' |>) in
            let '(fired, c'') := if status_ok status then OnSyncSuccess now range.2 c'
                                 else OnSyncFailure range.2 status c' in
            s <| lp_controller := Some c'' |> <| lp_fired ::= fun f => f ++ fired |>
        end
    | _, _ => s
    end.

End log_persister.
