(* ===== verification/LogDurable.v ===== *)
(** * The log persister keeps its promises

    For every interleaving of callers, flush thread and sync thread, against
    any persister that keeps its contract: no callback is lost or called twice,
    and a callback is called with success only when its entry is durable. *)

From S2P Require Import Prelude Types Disk Wal WalScan GroupCommit LogPersister.

(** ** Steps of the system *)

Inductive LpCall :=
| LStart
| LAppend (e : RaftLogEntry) (callback : DurableCallback) (vfs : option (Z * Z))
| LFlush (now : Z) (vfs : option (Z * Z))
| LSync (now : Z)
| LRequestSync
| LTruncatePrefix (i : Z) (timeout : bool)
| LTruncateSuffix (i : Z) (timeout : bool)
| LTruncateAsync (i : Z) (callback : DurableCallback) (timeout : bool)
| LTask.

Section steps.
Context {P : Type} `{!PersisterOps P}.
Notation L := (LogPersister P).

Definition lp_step (s : L) (c : LpCall) : L :=
  match c with
  | LStart => LpStart s
  | LAppend e cb vfs => LpAppend e cb vfs s
  | LFlush now vfs => flush_step now vfs s
  | LSync now => sync_step now s
  | LRequestSync => (LpSync s).2
  | LTruncatePrefix i timeout => (LpTruncatePrefix i timeout s).2
  | LTruncateSuffix i timeout => (LpTruncateSuffix i timeout s).2
  | LTruncateAsync i cb timeout => TruncatePrefixAsync i cb timeout s
  | LTask => do_truncate s
  end.

Definition lp_run (s : L) (cs : list LpCall) : L := foldl lp_step s cs.

(** ** Callbacks *)

Definition some_ids (cbs : list DurableCallback) : list nat := omap id cbs.

Definition stage_batch (f : FlushStage) : list PendingEntry :=
  match f with FIdle => [] | FTaken b | FWritten b => b end.

Definition pending_ids (s : L) : list nat :=
  match lp_controller s with
  | None => []
  | Some c => pending_ c ≫= fun p => some_ids (pe_callbacks p)
  end.

(** The callbacks in the buffer, in the batch of the flush, with the
    controller, and those called. *)
Definition lp_ids (s : L) : list nat :=
  some_ids (map pn_callback (lp_buffer s)) ++
  some_ids (map pn_callback (stage_batch (lp_flusher s))) ++
  pending_ids s ++ map fst (lp_fired s).

Lemma some_ids_app a b : some_ids (a ++ b) = some_ids a ++ some_ids b.
Proof. apply omap_app. Qed.

Lemma call_all_ids st cbs : map fst (call_all st cbs) = some_ids cbs.
Proof.
  unfold call_all, some_ids. induction cbs as [|[k|] cbs IH]; cbn; [done|by f_equal|done].
Qed.

Lemma fire_all_ids (to_fire : list (list DurableCallback * Status)) :
  map fst (fire_all to_fire) = to_fire ≫= fun p => some_ids p.1.
Proof.
  unfold fire_all. induction to_fire as [|[cbs st] rest IH]; cbn; [done|].
  rewrite map_app, IH. f_equal. apply call_all_ids.
Qed.

Lemma pop_synced_split e d ps :
  exists front, ps = front ++ (pop_synced e d ps).2 /\
    (pop_synced e d ps).1.1 = map (fun p => (pe_callbacks p, StOK)) front /\
    Forall (fun p => pe_epoch p <= e) front.
Proof.
  revert d. induction ps as [|p ps IH]; intros d; cbn [pop_synced]; [by exists []|].
  case_decide; [|by exists []]. destruct (IH (pe_epoch p)) as (front & E1 & E2 & HF).
  destruct (pop_synced e (pe_epoch p) ps) as [[f' d'] r']. cbn [fst snd] in *.
  exists (p :: front). split_and!; [by rewrite <- app_comm_cons, <- E1|by rewrite E2|by constructor].
Qed.

Lemma epoch_ids (st : Status) (front : list PendingEpoch) :
  (map (fun p => (pe_callbacks p, st)) front ≫= fun p : list DurableCallback * Status => some_ids p.1) =
  front ≫= fun p => some_ids (pe_callbacks p).
Proof. induction front as [|p front IH]; cbn; [done|]. by rewrite IH. Qed.

(** The callbacks of the controller are those it fires and those it keeps. *)
Lemma success_ids now e c :
  (pending_ c ≫= fun p => some_ids (pe_callbacks p)) =
  map fst (OnSyncSuccess now e c).1 ++
  (pending_ (OnSyncSuccess now e c).2 ≫= fun p => some_ids (pe_callbacks p)).
Proof.
  unfold OnSyncSuccess. case_decide; [done|].
  destruct (pop_synced_split e (durable_epoch_ c) (pending_ c)) as (front & E1 & E2 & _).
  destruct (pop_synced _ _ _) as [[f d] r]. cbn [fst snd] in *. proj_simp.
  rewrite fire_all_ids, E2, epoch_ids, E1, bind_app. done.
Qed.

Lemma failure_ids e err c :
  (pending_ c ≫= fun p => some_ids (pe_callbacks p)) =
  map fst (OnSyncFailure e err c).1 ++
  (pending_ (OnSyncFailure e err c).2 ≫= fun p => some_ids (pe_callbacks p)).
Proof.
  unfold OnSyncFailure. case_decide; [done|]. cbn [fst snd]. proj_simp.
  by rewrite fire_all_ids, epoch_ids, app_nil_r.
Qed.

Definition call_ids (c : LpCall) : list nat :=
  match c with LAppend _ cb _ => some_ids [cb] | _ => [] end.

(** Calls on the persister leave the rest of the state alone. *)
Lemma persister_eta (s : L) : s = s <| lp_persister := lp_persister s |>.
Proof. by destruct s. Qed.

Lemma with_persister_frame {A} (m : State P A) k s :
  exists p, (with_persister m k s).2 = s <| lp_persister := p |>.
Proof.
  unfold with_persister. destruct (lp_persister s) as [p|] eqn:E.
  - destruct (m p) as [a p']. by exists (Some p').
  - exists (lp_persister s). apply persister_eta.
Qed.

Lemma WriteBatch_frame es s : exists p, (WriteBatch es s).2 = s <| lp_persister := p |>.
Proof.
  unfold WriteBatch. destruct (lp_persister s) as [p|] eqn:E.
  - case_decide; [exists (lp_persister s); apply persister_eta|apply with_persister_frame].
  - exists (lp_persister s). apply persister_eta.
Qed.

Lemma clear_callbacks (batch : list PendingEntry) :
  some_ids (map pn_callback (map (fun p => p <| pn_callback := None |>) batch)) = [].
Proof. induction batch as [|p batch IH]; cbn; [done|]. apply IH. Qed.

Lemma append_ids e cb vfs s : lp_ids (LpAppend e cb vfs s) ≡ₚ some_ids [cb] ++ lp_ids s.
Proof.
  unfold LpAppend. assert (Hpush : forall s, lp_ids (s <| lp_buffer ::= fun b => b ++ [mkPendingEntry e cb] |>)
    ≡ₚ some_ids [cb] ++ lp_ids s).
  { intros s'. unfold lp_ids, pending_ids. proj_simp. rewrite map_app, some_ids_app. cbn [map pn_callback].
    solve_Permutation. }
  destruct (negb (lp_healthy s)); [|apply Hpush].
  destruct (status_ok _); [by rewrite Hpush|].
  unfold lp_ids, pending_ids. proj_simp. rewrite map_app, call_all_ids. solve_Permutation.
Qed.

Lemma flush_ids now vfs s : lp_ids (flush_step now vfs s) ≡ₚ lp_ids s.
Proof.
  unfold flush_step. destruct (lp_flusher s) as [|batch|batch] eqn:Ef.
  - unfold flush_take. destruct (lp_buffer s) as [|p b] eqn:Eb; [done|].
    unfold lp_ids, pending_ids. rewrite Ef, Eb. proj_simp. cbn [stage_batch]. solve_Permutation.
  - unfold flush_write. destruct (negb (status_ok (CheckDiskSpace _ _))).
    { unfold lp_ids, pending_ids, put_back, fail_with. rewrite Ef. proj_simp. cbn [stage_batch].
      rewrite map_app, some_ids_app. solve_Permutation. }
    set (s1 := if negb (lp_healthy s) then _ else s).
    assert (E1 : lp_ids s1 = lp_ids s /\ lp_flusher s1 = FTaken batch)
      by (unfold s1; destruct (negb (lp_healthy s)); by rewrite ?Ef).
    destruct E1 as [<- E1].
    destruct (WriteBatch (map pn_entry batch) s1) as [st s2] eqn:Ew.
    destruct (WriteBatch_frame (map pn_entry batch) s1) as [p Hp]. rewrite Ew in Hp. cbn [snd] in Hp.
    subst s2. destruct (negb (status_ok st)).
    + unfold lp_ids, pending_ids, put_back, fail_with. rewrite E1. proj_simp. cbn [stage_batch].
      rewrite !map_app, !some_ids_app, clear_callbacks, call_all_ids. solve_Permutation.
    + unfold lp_ids, pending_ids. rewrite E1. proj_simp. done.
  - unfold flush_finish. destruct (lp_controller s) as [c|] eqn:Ec.
    + unfold RegisterFlushedBatch. destruct (negb (gc_healthy_ c)).
      * unfold lp_ids, pending_ids, end_flush, fail_with. rewrite Ef, Ec. proj_simp. cbn [stage_batch].
        rewrite map_app, call_all_ids. solve_Permutation.
      * unfold lp_ids, pending_ids, end_flush. rewrite Ef, Ec. proj_simp. cbn [stage_batch].
        proj_simp. rewrite bind_app. cbn. rewrite app_nil_r. solve_Permutation.
    + destruct (with_persister p_sync StOK s) as [st s1] eqn:Ew.
      destruct (with_persister_frame p_sync StOK s) as [p Hp]. rewrite Ew in Hp. cbn in Hp. subst s1.
      destruct (negb (status_ok st)); unfold lp_ids, pending_ids, end_flush, fail_with;
        rewrite Ef; proj_simp; rewrite Ec; cbn [stage_batch];
        rewrite map_app, call_all_ids; solve_Permutation.
Qed.


Lemma sync_ids now s : lp_ids (sync_step now s) ≡ₚ lp_ids s.
Proof.
  unfold sync_step. destruct (lp_controller s) as [c|] eqn:Ec; [|done].
  destruct (lp_syncer s) as [|e|e st] eqn:Es.
  - assert (Hp : pending_ (AcquireSyncRange c).2 = pending_ c).
    { unfold AcquireSyncRange. destruct (negb _); [done|]. case_decide; [done|]. by destruct (list.last _). }
    destruct (AcquireSyncRange c) as [[range|] c']; cbn [snd] in Hp;
      unfold lp_ids, pending_ids; rewrite Ec; proj_simp; by rewrite <- Hp.
  - destruct (with_persister p_sync StOK s) as [st s1] eqn:Ew.
    destruct (with_persister_frame p_sync StOK s) as [p Hp]. rewrite Ew in Hp. cbn in Hp. by subst s1.
  - destruct (status_ok st).
    + pose proof (success_ids now e c) as H. destruct (OnSyncSuccess now e c) as [f c']. cbn [fst snd] in H.
      unfold lp_ids, pending_ids. rewrite Ec. proj_simp. rewrite H, map_app. cbv beta iota. solve_Permutation.
    + pose proof (failure_ids e st c) as H. destruct (OnSyncFailure e st c) as [f c']. cbn [fst snd] in H.
      unfold lp_ids, pending_ids, fail_with. rewrite Ec. proj_simp. rewrite H, map_app. cbv beta iota. solve_Permutation.
Qed.

Lemma persister_ids {A} (m : State P A) k s : lp_ids (with_persister m k s).2 = lp_ids s.
Proof. by destruct (with_persister_frame m k s) as [p ->]. Qed.

(** Every step keeps the callbacks and adds its own. *)
Lemma lp_step_ids s c : lp_ids (lp_step s c) ≡ₚ call_ids c ++ lp_ids s.
Proof.
  destruct c; cbn [lp_step call_ids app].
  - unfold LpStart. destruct (lp_running s); [done|]. by rewrite persister_ids.
  - apply append_ids.
  - apply flush_ids.
  - apply sync_ids.
  - unfold LpSync. destruct (lp_persister s) as [p|] eqn:Ep; [|done].
    destruct (lp_controller s) as [c|] eqn:Ec.
    + unfold lp_ids, pending_ids. rewrite Ec. proj_simp. done.
    + pose proof (persister_ids p_sync StOK s) as H.
      destruct (with_persister p_sync StOK s) as [st s1]. cbn [snd] in *. by rewrite H.
  - unfold LpTruncatePrefix. destruct (FlushSync timeout s) as [[|]|]; try done.
    pose proof (persister_ids (p_truncate_prefix i) (Error1 "Persister is null") s) as H.
    destruct (with_persister _ _ _) as [st s1]. cbn [snd] in *. by rewrite H.
  - unfold LpTruncateSuffix. destruct (FlushSync timeout s) as [[|]|]; try done.
    pose proof (persister_ids (p_truncate_suffix i) (Error1 "Persister is null") s) as H.
    destruct (with_persister _ _ _) as [st s1]. cbn [snd] in *. by rewrite H.
  - unfold TruncatePrefixAsync. destruct (lp_shutdown s); [done|].
    destruct (FlushSync timeout s) as [st|]; [|done]. destruct (negb (status_ok st)); [done|].
    by repeat case_match.
  - unfold do_truncate. destruct (lp_tasks s) as [|[i cb] rest]; [done|].
    destruct (lp_shutdown _); [done|].
    pose proof (persister_ids (p_truncate_prefix i) StOK (s <| lp_tasks := rest |>)) as H.
    destruct (with_persister _ _ _) as [st s1]. cbn [snd] in H.
    change (lp_ids (truncate_done cb st s1)) with (lp_ids s1). by rewrite H.
Qed.

(** No callback is lost and none is called twice: at every point of every
    interleaving the callbacks handed to [Append] are, each exactly once, in the
    buffer, in the batch being flushed, with the controller, or called. *)
Theorem callbacks_conserved persister config now cs :
  lp_ids (lp_run (LogPersister_new persister config now) cs) ≡ₚ cs ≫= call_ids.
Proof.
  assert (H : forall s, lp_ids (lp_run s cs) ≡ₚ (cs ≫= call_ids) ++ lp_ids s).
  { induction cs as [|c cs IH]; intros s; [done|]. cbn [lp_run foldl mbind list_bind].
    fold (lp_run (lp_step s c) cs). rewrite IH, lp_step_ids. solve_Permutation. }
  rewrite H. unfold lp_ids, pending_ids, LogPersister_new. cbn.
  by destruct (decide _); rewrite app_nil_r.
Qed.

End steps.

(** ** Durability *)

Section durable.
Context {P : Type} `{!PersisterOps P} `{SPEC : !PersisterSpec P}.
(** The entry a callback was given for. *)
Context (owner : nat -> RaftLogEntry).
(** The number of steps of the run. *)
Context (N : nat) (HN : Z.of_nat (N * S N) <= max_history) (HE : Z.of_nat N < UINT64_MAX).
Notation L := (LogPersister P).

Definition pn_ok (p : PendingEntry) : Prop :=
  cmd_fits (CEntry (pn_entry p)) /\ forall k, pn_callback p = Some k -> owner k = pn_entry p.

(** The callbacks of an epoch have their entries in [cs]. *)
Definition epoch_in (cs : list Cmd) (p : PendingEpoch) : Prop :=
  forall k, Some k ∈ pe_callbacks p -> CEntry (owner k) ∈ cs.

Record lp_inv (s : L) (p : P) (h d : list Cmd) (n : nat) : Prop := {
  li_persister : lp_persister s = Some p;
  li_holds : holds p h d;
  li_history : (length h <= n * S N)%nat;
  li_size : (length (lp_buffer s) + length (stage_batch (lp_flusher s)) <= n)%nat;
  li_buffer : Forall pn_ok (lp_buffer s);
  li_batch : Forall pn_ok (stage_batch (lp_flusher s));
  li_written : forall batch, lp_flusher s = FWritten batch ->
    Forall (fun p => CEntry (pn_entry p) ∈ h) batch;
  li_controller : forall c, lp_controller s = Some c ->
    controller_ok c /\ next_epoch_ c <= 1 + Z.of_nat n /\ Forall (epoch_in h) (pending_ c);
  li_acquired : forall e, lp_syncer s = SAcquired e -> exists c, lp_controller s = Some c /\
    sync_in_progress_end_ c = e /\ e <> 0;
  li_done : forall e st, lp_syncer s = SDone e st -> exists c, lp_controller s = Some c /\
    sync_in_progress_end_ c = e /\ e <> 0 /\
    (status_ok st = true -> Forall (fun p => pe_epoch p <= e -> epoch_in d p) (pending_ c));
  li_tasks : Forall (fun t => cmd_fits (CPrefix t.1)) (lp_tasks s);
  li_fired : forall k st, (k, st) ∈ lp_fired s -> status_ok st = true -> CEntry (owner k) ∈ d
}.

Lemma elem_of_prefix (a b : list Cmd) c : a `prefix_of` b -> c ∈ a -> c ∈ b.
Proof. intros [k ->] H. apply elem_of_app. by left. Qed.

Lemma epoch_in_mono a b p : a `prefix_of` b -> epoch_in a p -> epoch_in b p.
Proof. intros Hp H k Hk. eapply elem_of_prefix; [done|by apply H]. Qed.

(** A larger history, more of it durable, and one more step. *)
Lemma lp_inv_grow s p p' h h' d d' n :
  lp_inv s p h d n -> holds p' h' d' -> h `prefix_of` h' -> d `prefix_of` d' ->
  (length h' <= S n * S N)%nat -> lp_inv (s <| lp_persister := Some p' |>) p' h' d' (S n).
Proof.
  intros I Hh Hp Hd Hl. split; proj_simp; try done; try apply I.
  - pose proof (li_size _ _ _ _ _ I). lia.
  - intros batch Hb. eapply list.Forall_impl; [by apply (li_written _ _ _ _ _ I)|].
    intros q Hq. by eapply elem_of_prefix.
  - intros c Hc. destruct (li_controller _ _ _ _ _ I c Hc) as (C & Hn & Hf).
    split; [done|]. split; [lia|]. eapply list.Forall_impl; [exact Hf|].
    intros q Hq. by eapply epoch_in_mono.
  - intros e st Hs. destruct (li_done _ _ _ _ _ I e st Hs) as (c & Hc & He & H0 & Hok).
    exists c. split_and!; try done. intros Hst. eapply list.Forall_impl; [by apply Hok|].
    intros q Hq Hle. eapply epoch_in_mono; [done|by apply Hq].
  - intros k st Hk Hst. eapply elem_of_prefix; [done|by eapply (li_fired _ _ _ _ _ I)].
Qed.

Lemma history_room s p h d n m :
  lp_inv s p h d n -> (n < N)%nat -> (m <= S N)%nat ->
  (length h + m <= S n * S N)%nat /\ Z.of_nat (length h + m) <= max_history.
Proof.
  intros I Hn Hm. pose proof (li_history _ _ _ _ _ I) as Hh. split; [lia|].
  assert (S n * S N <= N * S N)%nat by (apply Nat.mul_le_mono_r; lia). lia.
Qed.

Lemma lp_inv_wait s p h d n : lp_inv s p h d n -> lp_inv s p h d (S n).
Proof.
  intros I. rewrite (persister_eta s), (li_persister _ _ _ _ _ I).
  apply (lp_inv_grow s p p h h d d n I); [apply I|done|done|].
  pose proof (li_history _ _ _ _ _ I). lia.
Qed.

Lemma elem_of_call_all k st st' cbs : (k, st') ∈ call_all st cbs -> st' = st /\ Some k ∈ cbs.
Proof.
  intros H. unfold call_all in H. apply list_elem_of_omap in H as ([j|] & Hj & [= -> ->]). done.
Qed.

(** Calling callbacks, with an error or with their entries durable. *)
Lemma lp_inv_fire s p h d n fired :
  lp_inv s p h d n ->
  (forall k st, (k, st) ∈ fired -> status_ok st = true -> CEntry (owner k) ∈ d) ->
  lp_inv (s <| lp_fired ::= fun f => f ++ fired |>) p h d n.
Proof.
  intros I Hf. split; try apply I. proj_simp. intros k st Hk Hst.
  apply elem_of_app in Hk as [Hk|Hk]; [by eapply (li_fired _ _ _ _ _ I)|by eapply Hf].
Qed.

Lemma lp_inv_fire_error s p h d n st cbs :
  lp_inv s p h d n -> status_ok st = false ->
  lp_inv (s <| lp_fired ::= fun f => f ++ call_all st cbs |>) p h d n.
Proof.
  intros I Hst. apply lp_inv_fire; [done|]. intros k st' [-> _]%elem_of_call_all. congruence.
Qed.

Lemma lp_inv_fail s p h d n err : lp_inv s p h d n -> lp_inv (fail_with err s) p h d n.
Proof. intros I. split; apply I. Qed.

Lemma append_inv s p h d n e cb vfs :
  lp_inv s p h d n -> cmd_fits (CEntry e) -> (forall k, cb = Some k -> owner k = e) ->
  lp_inv (LpAppend e cb vfs s) p h d (S n).
Proof.
  intros I Hfit Hcb. unfold LpAppend.
  assert (Hpush : forall s, lp_inv s p h d n ->
    lp_inv (s <| lp_buffer ::= fun b => b ++ [mkPendingEntry e cb] |>) p h d (S n)).
  { intros s' I'. pose proof (lp_inv_wait _ _ _ _ _ I') as W. split; try apply W; proj_simp.
    - rewrite length_app. cbn [length]. pose proof (li_size _ _ _ _ _ I'). lia.
    - apply Forall_app. split; [apply I'|]. by repeat constructor. }
  destruct (negb (lp_healthy s)); [|by apply Hpush]. destruct (status_ok _).
  - apply Hpush. split; apply I.
  - apply lp_inv_fire_error; [by apply lp_inv_wait|done].
Qed.

Lemma take_inv s p h d n :
  lp_inv s p h d n -> lp_flusher s = FIdle -> lp_inv (flush_take s) p h d (S n).
Proof.
  intros I Ef. pose proof (lp_inv_wait _ _ _ _ _ I) as W.
  unfold flush_take. destruct (lp_buffer s) as [|q b] eqn:Eb; [done|].
  pose proof (li_size _ _ _ _ _ I) as Hs. pose proof (li_buffer _ _ _ _ _ I) as Hb.
  rewrite Eb, Ef in *. split; try apply W; proj_simp; try done. cbn [stage_batch length] in *. lia.
Qed.

Lemma put_back_inv s p h d n batch :
  lp_inv s p h d n -> length batch = length (stage_batch (lp_flusher s)) -> Forall pn_ok batch ->
  lp_inv (put_back batch s) p h d n.
Proof.
  intros I Hl Hb. pose proof (li_size _ _ _ _ _ I) as Hs. unfold put_back.
  split; try apply I; proj_simp; try done; cbn [stage_batch length].
  - rewrite length_app. lia.
  - apply Forall_app. split; [apply I|done].
Qed.

Lemma batch_room s p h d n batch :
  lp_inv s p h d n -> lp_flusher s = FTaken batch -> (n < N)%nat -> (length batch <= S N)%nat.
Proof. intros I Ef Hn. pose proof (li_size _ _ _ _ _ I) as Hs. rewrite Ef in Hs. cbn in Hs. lia. Qed.

(** The write: what it adds to the history. *)
Lemma WriteBatch_inv s p h d n batch :
  lp_inv s p h d n -> lp_flusher s = FTaken batch -> (n < N)%nat ->
  exists p' h' d', lp_inv (WriteBatch (map pn_entry batch) s).2 p' h' d' (S n) /\
    (WriteBatch (map pn_entry batch) s).2 = s <| lp_persister := Some p' |> /\
    d `prefix_of` d' /\
    (status_ok (WriteBatch (map pn_entry batch) s).1 = true ->
     Forall (fun q => CEntry (pn_entry q) ∈ h') batch).
Proof.
  intros I Ef Hn. unfold WriteBatch. rewrite (li_persister _ _ _ _ _ I). case_decide as Hb.
  - exists p, h, d. cbn [fst snd]. split; [by apply lp_inv_wait|].
    split; [rewrite <- (li_persister _ _ _ _ _ I); apply persister_eta|]. split; [done|].
    intros _. by destruct batch.
  - unfold with_persister. rewrite (li_persister _ _ _ _ _ I).
    pose proof (batch_room _ _ _ _ _ _ I Ef Hn) as Hr.
    destruct (history_room _ _ _ _ _ (length batch) I Hn Hr) as [R1 R2].
    destruct (append_spec p h d (map pn_entry batch)) as (m & d' & Hd & Hh & Hok).
    { apply I. }
    { pose proof (li_batch _ _ _ _ _ I) as Hba. rewrite Ef in Hba. cbn in Hba.
      rewrite Forall_map, Forall_map. eapply list.Forall_impl; [exact Hba|]. by intros q [? _]. }
    { by rewrite length_map. }
    destruct (p_append_entries (map pn_entry batch) p) as [st p'] eqn:Ea. cbn [fst snd] in *.
    exists p', (h ++ take m (map CEntry (map pn_entry batch))), d'. split_and!; try done.
    + apply (lp_inv_grow s p p' h _ d d' n I); try done; [by eexists|].
      rewrite length_app, length_take, !length_map. lia.
    + intros Hst. specialize (Hok Hst). rewrite length_map in Hok.
      rewrite take_ge by (rewrite !length_map; lia).
      apply list.Forall_forall. intros q Hq. apply elem_of_app. right.
      rewrite map_map. by apply (list_elem_of_fmap_2 (fun x => CEntry (pn_entry x))).
Qed.

Lemma write_inv s p h d n vfs batch :
  lp_inv s p h d n -> lp_flusher s = FTaken batch -> (n < N)%nat ->
  exists p' h' d', lp_inv (flush_write vfs batch s) p' h' d' (S n) /\ d `prefix_of` d'.
Proof.
  intros I Ef Hn. unfold flush_write. pose proof (li_batch _ _ _ _ _ I) as Hb.
  rewrite Ef in Hb. cbn [stage_batch] in Hb.
  destruct (negb (status_ok (CheckDiskSpace _ _))).
  { exists p, h, d. split; [|done]. apply put_back_inv; [|unfold fail_with; proj_simp; by rewrite Ef|done].
    by apply lp_inv_fail, lp_inv_wait. }
  set (s1 := if negb (lp_healthy s) then _ else s).
  assert (I1 : lp_inv s1 p h d n) by (unfold s1; destruct (negb _); [split; apply I|done]).
  assert (E1 : lp_flusher s1 = FTaken batch) by (unfold s1; destruct (negb _); done).
  destruct (WriteBatch_inv s1 p h d n batch I1 E1 Hn) as (p' & h' & d' & I2 & E2 & Hd & Hok).
  destruct (WriteBatch (map pn_entry batch) s1) as [st s2]. cbn [fst snd] in *.
  assert (Ef2 : lp_flusher s2 = FTaken batch) by (by rewrite E2).
  exists p', h', d'. split; [|done]. destruct (status_ok st) eqn:Est; cbn [negb].
  - split; try apply I2; proj_simp.
    + pose proof (li_size _ _ _ _ _ I2) as Hs. by rewrite Ef2 in Hs.
    + done.
    + intros b [= <-]. by apply Hok.
  - apply put_back_inv.
    + apply lp_inv_fire_error; [by apply lp_inv_fail|done].
    + unfold fail_with. proj_simp. rewrite Ef2. cbn [stage_batch]. by rewrite length_map.
    + apply Forall_map. eapply list.Forall_impl; [exact Hb|]. intros q [Hq _]. by split.
Qed.

Lemma end_flush_inv s p h d n : lp_inv s p h d n -> lp_inv (end_flush s) p h d n.
Proof.
  intros I. unfold end_flush. split; try apply I; proj_simp; try done. cbn [stage_batch length].
  pose proof (li_size _ _ _ _ _ I). lia.
Qed.

(** A new state of the controller in the same run. *)
Lemma controller_inv s p h d n c c' :
  lp_inv s p h d n -> lp_controller s = Some c -> controller_ok c' ->
  next_epoch_ c' <= 1 + Z.of_nat (S n) -> Forall (epoch_in h) (pending_ c') ->
  sync_in_progress_end_ c' = sync_in_progress_end_ c ->
  (forall q, q ∈ pending_ c' -> q ∈ pending_ c \/ sync_in_progress_end_ c < pe_epoch q) ->
  lp_inv (s <| lp_controller := Some c' |>) p h d (S n).
Proof.
  intros I Ec C' Hn Hf Hs Hp. pose proof (lp_inv_wait _ _ _ _ _ I) as W.
  split; try apply W; proj_simp.
  - intros c0 [= <-]. done.
  - intros e He. destruct (li_acquired _ _ _ _ _ I e He) as (c0 & Hc & ? & ?). simplify_eq.
    exists c'. by rewrite Hs.
  - intros e st He. destruct (li_done _ _ _ _ _ I e st He) as (c0 & Hc & Hq & ? & Hok). simplify_eq.
    exists c'. split_and!; try done. intros Hst. specialize (Hok Hst).
    rewrite list.Forall_forall in Hok |- *. intros q Hin Hle.
    destruct (Hp q Hin) as [Ho|Ho]; [by apply Hok|lia].
Qed.

Lemma finish_inv s p h d n now batch :
  lp_inv s p h d n -> lp_flusher s = FWritten batch -> (n < N)%nat ->
  exists p' h' d', lp_inv (flush_finish now batch s) p' h' d' (S n) /\ d `prefix_of` d'.
Proof.
  intros I Ef Hn. pose proof (li_written _ _ _ _ _ I batch Ef) as Hw.
  pose proof (li_batch _ _ _ _ _ I) as Hb. rewrite Ef in Hb. cbn [stage_batch] in Hb.
  assert (Hcbs : forall k, Some k ∈ map pn_callback batch -> CEntry (owner k) ∈ h).
  { intros k Hk. apply list_elem_of_fmap in Hk as (q & Hq & Hin).
    rewrite list.Forall_forall in Hb, Hw. destruct (Hb q Hin) as [_ Ho]. rewrite (Ho k) by done.
    by apply Hw. }
  unfold flush_finish. destruct (lp_controller s) as [c|] eqn:Ec.
  - exists p, h, d. split; [|done]. destruct (li_controller _ _ _ _ _ I c Ec) as (C & Hc & Hf).
    pose proof (register_ok now (Z.of_nat (length batch))
      (foldl (fun n p => u64 (n + entry_bytes p)) 0 batch) (map pn_callback batch) c C ltac:(lia)) as C'.
    pose proof (co_durable _ C) as Hdu.
    unfold RegisterFlushedBatch in *. destruct (negb (gc_healthy_ c)) eqn:Eh; cbn [snd] in C'.
    + apply end_flush_inv, lp_inv_fail, lp_inv_fire_error; [|by destruct (gc_last_error_ c)].
      eapply (controller_inv s p h d n c c); try done; [lia|]. intros q Hq. by left.
    + apply end_flush_inv. eapply (controller_inv s p h d n c); [done|done|exact C'|..]; proj_simp.
      * rewrite u64_small by lia. lia.
      * apply Forall_app. split; [done|]. by repeat constructor.
      * done.
      * intros q [Hq|Hq]%elem_of_app; [by left|]. right.
        apply list_elem_of_singleton in Hq as ->. cbn. destruct (co_sync _ C) as [->|?]; lia.
  - unfold with_persister. rewrite (li_persister _ _ _ _ _ I).
    destruct (sync_spec p h d) as (d' & Hd & Hh & Hok); [apply I|].
    destruct (p_sync p) as [st p'] eqn:Es. cbn [fst snd] in *.
    assert (I2 : lp_inv (s <| lp_persister := Some p' |>) p' h d' (S n)).
    { apply (lp_inv_grow s p p' h h d d' n I); try done. pose proof (li_history _ _ _ _ _ I). lia. }
    exists p', h, d'. split; [|done]. destruct (status_ok st) eqn:Est; cbn [negb].
    + apply end_flush_inv, lp_inv_fire; [done|]. intros k st' [-> Hk]%elem_of_call_all _.
      rewrite Hok by done. by apply Hcbs.
    + by apply end_flush_inv, lp_inv_fail, lp_inv_fire_error.
Qed.

Lemma elem_of_fire_all k st to_fire :
  (k, st) ∈ fire_all to_fire -> exists cbs, (cbs, st) ∈ to_fire /\ Some k ∈ cbs.
Proof.
  intros H. apply list_elem_of_bind in H as ([cbs st'] & Hk & Hin).
  apply elem_of_call_all in Hk as [-> Hk]. by exists cbs.
Qed.

(** Replacing the controller when no sync is in flight afterwards. *)
Lemma idle_controller_inv s p h d n c' :
  lp_inv s p h d n -> controller_ok c' -> next_epoch_ c' <= 1 + Z.of_nat (S n) ->
  Forall (epoch_in h) (pending_ c') ->
  lp_inv (s <| lp_controller := Some c' |> <| lp_syncer := SIdle |>) p h d (S n).
Proof.
  intros I C' Hn Hf. pose proof (lp_inv_wait _ _ _ _ _ I) as W.
  split; try apply W; proj_simp; try done. by intros c0 [= <-].
Qed.

Lemma success_fires now e c d h :
  sync_in_progress_end_ c = e -> e <> 0 -> Forall (epoch_in h) (pending_ c) ->
  Forall (fun p => pe_epoch p <= e -> epoch_in d p) (pending_ c) ->
  (forall k st, (k, st) ∈ (OnSyncSuccess now e c).1 -> CEntry (owner k) ∈ d) /\
  Forall (epoch_in h) (pending_ (OnSyncSuccess now e c).2) /\
  next_epoch_ (OnSyncSuccess now e c).2 = next_epoch_ c.
Proof.
  intros He H0 Hh Hd. unfold OnSyncSuccess. rewrite decide_False by (intros [?|?]; congruence).
  destruct (pop_synced_split e (durable_epoch_ c) (pending_ c)) as (front & E1 & E2 & HF).
  destruct (pop_synced _ _ _) as [[f d'] r]. cbn [fst snd] in *. proj_simp.
  rewrite E1 in Hh, Hd. apply Forall_app in Hh as [_ Hr]. apply Forall_app in Hd as [Hd _].
  split; [|done]. intros k st Hk. apply elem_of_fire_all in Hk as (cbs & Hin & Hk).
  rewrite E2 in Hin. apply list_elem_of_fmap in Hin as (q & [= -> ->] & Hq).
  rewrite list.Forall_forall in Hd, HF. by apply (Hd q Hq (HF q Hq)).
Qed.

Lemma failure_fires e err c :
  status_ok err = false ->
  (forall k st, (k, st) ∈ (OnSyncFailure e err c).1 -> status_ok st = false) /\
  (pending_ (OnSyncFailure e err c).2 = [] \/ pending_ (OnSyncFailure e err c).2 = pending_ c) /\
  next_epoch_ (OnSyncFailure e err c).2 = next_epoch_ c.
Proof.
  intros He. unfold OnSyncFailure. case_decide; cbn [fst snd]; proj_simp.
  - split; [by intros k st ?%elem_of_nil|]. split; [by right|done].
  - split; [|split; [by left|done]]. intros k st Hk. apply elem_of_fire_all in Hk as (cbs & Hin & _).
    by apply list_elem_of_fmap in Hin as (q & [= -> ->] & _).
Qed.

Lemma sync_inv s p h d n now :
  lp_inv s p h d n -> (n < N)%nat ->
  exists p' h' d', lp_inv (sync_step now s) p' h' d' (S n) /\ d `prefix_of` d'.
Proof.
  intros I Hn. unfold sync_step. destruct (lp_controller s) as [c|] eqn:Ec.
  2:{ exists p, h, d. split; [by apply lp_inv_wait|done]. }
  destruct (li_controller _ _ _ _ _ I c Ec) as (C & Hc & Hf).
  destruct (lp_syncer s) as [|e|e st] eqn:Es.
  - exists p, h, d. split; [|done]. pose proof (acquire_ok c C) as C'.
    pose proof (lp_inv_wait _ _ _ _ _ I) as W. unfold AcquireSyncRange in *.
    assert (Hsame : lp_inv (s <| lp_controller := Some c |>) p h d (S n)).
    { eapply (controller_inv s p h d n c c); try done; [lia|]. intros q Hq. by left. }
    destruct (gc_healthy_ c) eqn:Eh; cbn [negb snd] in *; [|done]. case_decide; [done|].
    destruct (list.last (pending_ c)) as [back|] eqn:El; [|done]. cbn [snd] in *.
    destruct (last_epoch c back C Eh El) as [_ Hlt]. pose proof (co_durable _ C).
    split; try apply W; proj_simp; try done.
    + intros c0 [= <-]. split; [done|]. proj_simp. split; [lia|done].
    + intros e [= <-]. eexists. split; [done|]. proj_simp. split; [done|lia].
  - destruct (li_acquired _ _ _ _ _ I e Es) as (c0 & Hc0 & He & H0). simplify_eq.
    unfold with_persister. rewrite (li_persister _ _ _ _ _ I).
    destruct (sync_spec p h d) as (d' & Hd & Hh & Hok); [apply I|].
    destruct (p_sync p) as [st p'] eqn:Ep. cbn [fst snd] in *.
    assert (I2 : lp_inv (s <| lp_persister := Some p' |>) p' h d' (S n)).
    { apply (lp_inv_grow s p p' h h d d' n I); try done. pose proof (li_history _ _ _ _ _ I). lia. }
    exists p', h, d'. split; [|done]. split; try apply I2; proj_simp; try done.
    intros e st' [= <- <-]. exists c. split_and!; try done. intros Hst. rewrite Hok by done.
    eapply list.Forall_impl; [exact Hf|]. by intros q Hq _.
  - exists p, h, d. split; [|done].
    destruct (li_done _ _ _ _ _ I e st Es) as (c0 & Hc0 & He & H0 & Hok). simplify_eq.
    destruct (status_ok st) eqn:Est.
    + pose proof (success_ok now (sync_in_progress_end_ c) c C) as C'.
      destruct (success_fires now _ c d h eq_refl H0 Hf (Hok eq_refl)) as (Hfire & Hp & Hne).
      destruct (OnSyncSuccess now (sync_in_progress_end_ c) c) as [f c']. cbn [fst snd] in *.
      apply lp_inv_fire; [apply idle_controller_inv; try done; lia|]. intros k st' Hk _. by eapply Hfire.
    + pose proof (failure_ok (sync_in_progress_end_ c) st c C) as C'.
      destruct (failure_fires (sync_in_progress_end_ c) st c Est) as (Hfire & Hp & Hne).
      destruct (OnSyncFailure (sync_in_progress_end_ c) st c) as [f c']. cbn [fst snd] in *.
      apply lp_inv_fail, lp_inv_fire.
      * apply idle_controller_inv; try done; [lia|]. by destruct Hp as [-> | ->].
      * intros k st' Hk Hst. apply Hfire in Hk. congruence.
Qed.

(** A truncation, whose record is the only addition. *)
Lemma truncate_inv s p h d n (m : State P Status) k c :
  lp_inv s p h d n -> (n < N)%nat ->
  (forall p h d, holds p h d -> Z.of_nat (length h + 1) <= max_history ->
     exists j d', d `prefix_of` d' /\ holds (m p).2 (h ++ take j [c]) d') ->
  exists p' h' d', lp_inv (with_persister m k s).2 p' h' d' (S n) /\ d `prefix_of` d'.
Proof.
  intros I Hn Hm. destruct (history_room _ _ _ _ _ 1 I Hn) as [R1 R2]; [lia|].
  destruct (Hm p h d) as (j & d' & Hd & Hh); [apply I|done|].
  unfold with_persister. rewrite (li_persister _ _ _ _ _ I). destruct (m p) as [st p']. cbn [snd] in *.
  exists p', (h ++ take j [c]), d'. split; [|done].
  apply (lp_inv_grow s p p' h _ d d' n I); try done; [by eexists|].
  rewrite length_app, length_take. cbn [length]. lia.
Qed.

Definition call_fits (c : LpCall) : Prop :=
  match c with
  | LAppend e cb _ => cmd_fits (CEntry e) /\ forall k, cb = Some k -> owner k = e
  | LTruncatePrefix i _ | LTruncateAsync i _ _ => cmd_fits (CPrefix i)
  | LTruncateSuffix i _ => cmd_fits (CSuffix i)
  | _ => True
  end.

Lemma task_inv s p h d n :
  lp_inv s p h d n -> (n < N)%nat ->
  exists p' h' d', lp_inv (do_truncate s) p' h' d' (S n) /\ d `prefix_of` d'.
Proof.
  intros I Hn. pose proof (lp_inv_wait _ _ _ _ _ I) as W. pose proof (li_tasks _ _ _ _ _ I) as Ht.
  unfold do_truncate. destruct (lp_tasks s) as [|[i cb] rest] eqn:Et.
  { by exists p, h, d. }
  apply Forall_cons_1 in Ht as [Hi Hrest]. cbn [fst] in Hi.
  assert (I1 : lp_inv (s <| lp_tasks := rest |>) p h d n) by (split; try apply I; done).
  assert (Hdone : forall st s p h d n, lp_inv s p h d n -> lp_inv (truncate_done cb st s) p h d n)
    by (intros ??????; intros J; split; apply J).
  destruct (lp_shutdown _).
  { exists p, h, d. split; [|done]. by apply Hdone, lp_inv_wait. }
  destruct (truncate_inv _ p h d n (p_truncate_prefix i) StOK (CPrefix i) I1 Hn) as (p' & h' & d' & I2 & Hd).
  { intros. by apply truncate_prefix_spec. }
  destruct (with_persister _ _ _) as [st s1]. exists p', h', d'. split; [|done]. by apply Hdone.
Qed.

Lemma lp_step_inv s p h d n c :
  lp_inv s p h d n -> (n < N)%nat -> call_fits c ->
  exists p' h' d', lp_inv (lp_step s c) p' h' d' (S n) /\ d `prefix_of` d'.
Proof.
  intros I Hn Hc. pose proof (lp_inv_wait _ _ _ _ _ I) as W.
  assert (Hstay : forall s', lp_inv s' p h d (S n) ->
            exists p' h' d', lp_inv s' p' h' d' (S n) /\ d `prefix_of` d') by (intros; by exists p, h, d).
  destruct c as [|e cb vfs|now vfs|now| |i timeout|i timeout|i cb timeout|]; cbn [lp_step call_fits] in *.
  - unfold LpStart. destruct (lp_running s); [by apply Hstay|].
    set (s1 := s <| lp_running := _ |> <| lp_healthy := _ |>).
    assert (I1 : lp_inv s1 p h d n) by (split; apply I).
    unfold with_persister. rewrite (li_persister _ _ _ _ _ I1).
    pose proof (set_sync_spec p h d (bool_decide (sync_policy (lp_config s1) = kSyncEveryWrite))
                  (li_holds _ _ _ _ _ I)) as Hh.
    destruct (p_set_sync_on_write _ p) as [u p']. exists p', h, d. split; [|done].
    apply (lp_inv_grow s1 p p' h h d d n I1); try done. pose proof (li_history _ _ _ _ _ I). lia.
  - apply Hstay. destruct Hc. by apply append_inv.
  - unfold flush_step. destruct (lp_flusher s) as [|b|b] eqn:Ef.
    + apply Hstay. by apply take_inv.
    + by apply (write_inv s p h d n).
    + by apply (finish_inv s p h d n).
  - by apply (sync_inv s p h d n).
  - unfold LpSync. rewrite (li_persister _ _ _ _ _ I). destruct (lp_controller s) as [c|] eqn:Ec.
    + apply Hstay. destruct (li_controller _ _ _ _ _ I c Ec) as (C & Hc' & Hf).
      eapply (controller_inv s p h d n c (RequestSync c)); try done;
        [split; apply C|unfold RequestSync; proj_simp; lia|]. intros q Hq. by left.
    + unfold with_persister. rewrite (li_persister _ _ _ _ _ I).
      destruct (sync_spec p h d) as (d' & Hd & Hh & _); [apply I|]. destruct (p_sync p) as [st p'].
      exists p', h, d'. split; [|done]. apply (lp_inv_grow s p p' h h d d' n I); try done.
      pose proof (li_history _ _ _ _ _ I). lia.
  - unfold LpTruncatePrefix. destruct (FlushSync timeout s) as [[|]|]; try (by apply Hstay).
    destruct (truncate_inv s p h d n (p_truncate_prefix i) (Error1 "Persister is null") (CPrefix i) I Hn)
      as (p' & h' & d' & I2 & Hd); [intros; by apply truncate_prefix_spec|].
    destruct (with_persister _ _ _) as [st s1]. by exists p', h', d'.
  - unfold LpTruncateSuffix. destruct (FlushSync timeout s) as [[|]|]; try (by apply Hstay).
    destruct (truncate_inv s p h d n (p_truncate_suffix i) (Error1 "Persister is null") (CSuffix i) I Hn)
      as (p' & h' & d' & I2 & Hd); [intros; by apply truncate_suffix_spec|].
    destruct (with_persister _ _ _) as [st s1]. by exists p', h', d'.
  - apply Hstay. unfold TruncatePrefixAsync. destruct (lp_shutdown s); [split; apply W|].
    destruct (FlushSync timeout s) as [st|]; [|done]. destruct (negb (status_ok st)); [split; apply W|].
    proj_simp. destruct (lp_shutdown s); [split; apply W|]. rewrite (li_persister _ _ _ _ _ I).
    split; try apply W. proj_simp. apply Forall_app. split; [apply I|]. by repeat constructor.
  - by apply (task_inv s p h d n).
Qed.

Lemma lp_run_inv cs : forall s p h d n,
  lp_inv s p h d n -> (n + length cs <= N)%nat -> Forall call_fits cs ->
  exists p' h' d', lp_inv (lp_run s cs) p' h' d' (n + length cs) /\ d `prefix_of` d'.
Proof.
  induction cs as [|c cs IH]; intros s p h d n I Hn Hc; cbn [lp_run foldl length] in *.
  { exists p, h, d. by rewrite Nat.add_0_r. }
  apply Forall_cons_1 in Hc as [Hc Hcs].
  destruct (lp_step_inv s p h d n c I) as (p1 & h1 & d1 & I1 & Hd1); [lia|done|].
  destruct (IH _ _ _ _ _ I1) as (p2 & h2 & d2 & I2 & Hd2); [lia|done|].
  exists p2, h2, d2. rewrite Nat.add_succ_r. split; [done|]. by etrans.
Qed.

Lemma lp_new_inv p config now : holds p [] [] -> lp_inv (LogPersister_new (Some p) config now) p [] [] 0.
Proof.
  intros Hh. split; cbn; try done.
  - intros c. destruct (decide _); intros [= <-]. split; [apply controller_new_ok|]. cbn. split; [lia|done].
  - by intros k st ?%elem_of_nil.
Qed.

End durable.

Section theorem.
Context {P : Type} `{!PersisterOps P} `{SPEC : !PersisterSpec P}.

(** C9. An acknowledged entry is durable: whatever the interleaving of callers,
    flush thread and sync thread, whatever fails, and whichever policy is
    configured, when the callback of an entry has been called with success the
    entry is in the part of the persister's history that survives a crash. *)
Theorem acknowledged_is_durable p config now owner cs :
  holds p [] [] -> Forall (call_fits owner) cs ->
  Z.of_nat (length cs * S (length cs)) <= max_history -> Z.of_nat (length cs) < UINT64_MAX ->
  let s := lp_run (LogPersister_new (Some p) config now) cs in
  exists p' h d, lp_persister s = Some p' /\ holds p' h d /\
    forall k st, (k, st) ∈ lp_fired s -> status_ok st = true -> CEntry (owner k) ∈ d.
Proof.
  intros Hh Hcs HN HE s.
  destruct (lp_run_inv owner (length cs) HN HE cs _ p [] [] 0 (lp_new_inv owner _ HN p config now Hh))
    as (p' & h & d & I & _); [lia|done|].
  exists p', h, d. split; [apply I|]. split; [apply I|]. apply (li_fired _ _ _ _ _ _ _ I).
Qed.

End theorem.
