(* ===== verification/Sha256.v ===== *)
(** * SHA-256 of the persisters

    The hash that protects snapshots, [state_persister.cpp], as a stream of
    updates and in one call.  [Module Fips] writes SHA-256 down from the text of
    the standard (FIPS 180-4) with nothing of the code in it: constants from the
    roots of primes, logical functions, padding, message schedule and
    compression.  Stream and single call are proved to compute it. *)

From Stdlib Require Strings.Byte.
From S2P Require Import Prelude Bytes.

(** ** Words of 32 bits *)

(** The table, in the rows of the source. *)
Definition kSha256K : list Z := concat
  [[0x428a2f98; 0x71374491; 0xb5c0fbcf; 0xe9b5dba5; 0x3956c25b; 0x59f111f1; 0x923f82a4; 0xab1c5ed5];
   [0xd807aa98; 0x12835b01; 0x243185be; 0x550c7dc3; 0x72be5d74; 0x80deb1fe; 0x9bdc06a7; 0xc19bf174];
   [0xe49b69c1; 0xefbe4786; 0x0fc19dc6; 0x240ca1cc; 0x2de92c6f; 0x4a7484aa; 0x5cb0a9dc; 0x76f988da];
   [0x983e5152; 0xa831c66d; 0xb00327c8; 0xbf597fc7; 0xc6e00bf3; 0xd5a79147; 0x06ca6351; 0x14292967];
   [0x27b70a85; 0x2e1b2138; 0x4d2c6dfc; 0x53380d13; 0x650a7354; 0x766a0abb; 0x81c2c92e; 0x92722c85];
   [0xa2bfe8a1; 0xa81a664b; 0xc24b8b70; 0xc76c51a3; 0xd192e819; 0xd6990624; 0xf40e3585; 0x106aa070];
   [0x19a4c116; 0x1e376c08; 0x2748774c; 0x34b0bcb5; 0x391c0cb3; 0x4ed8aa4a; 0x5b9cca4f; 0x682e6ff3];
   [0x748f82ee; 0x78a5636f; 0x84c87814; 0x8cc70208; 0x90befffa; 0xa4506ceb; 0xbef9a3f7; 0xc67178f2]].

Definition Sha256Ror (x n : Z) : Z := Z.lor (Z.shiftr x n) (u32 (Z.shiftl x (32 - n))).

Record Sha256Regs := mkRegs {
  r_a : Z; r_b : Z; r_c : Z; r_d : Z; r_e : Z; r_f : Z; r_g : Z; r_h : Z
}.

Definition Sha256CompressRound (r : Sha256Regs) (k w : Z) : Sha256Regs :=
  let '(mkRegs a b c d e f g h) := r in
  let s1 := Z.lxor (Z.lxor (Sha256Ror e 6) (Sha256Ror e 11)) (Sha256Ror e 25) in
  let ch := Z.lxor (Z.land e f) (Z.land (u32 (Z.lnot e)) g) in
  let temp1 := u32 (h + s1 + ch + k + w) in
  let s0 := Z.lxor (Z.lxor (Sha256Ror a 2) (Sha256Ror a 13)) (Sha256Ror a 22) in
  let maj := Z.lxor (Z.lxor (Z.land a b) (Z.land a c)) (Z.land b c) in
  let temp2 := u32 (s0 + maj) in
  mkRegs (u32 (temp1 + temp2)) a b c (u32 (d + temp1)) e f g.

(** ** Chunks *)

(** The [j]-th word of the chunk, most significant byte first. *)
Definition chunk_word (chunk : bytes) (j : nat) : Z :=
  let at_ i := byte_val (nth (j * 4 + i)%nat chunk Byte.x00) in
  Z.lor (Z.lor (Z.lor (Z.shiftl (at_ 0%nat) 24) (Z.shiftl (at_ 1%nat) 16)) (Z.shiftl (at_ 2%nat) 8))
    (at_ 3%nat).

(** The words [16] to [63]: [n] rounds, each adding the word number [length w]. *)
Fixpoint extend_words (n : nat) (w : list Z) : list Z :=
  match n with
  | O => w
  | S n' =>
      let at_ i := nth (length w - i)%nat w 0 in
      let s0 := Z.lxor (Z.lxor (Sha256Ror (at_ 15%nat) 7) (Sha256Ror (at_ 15%nat) 18))
                  (Z.shiftr (at_ 15%nat) 3) in
      let s1 := Z.lxor (Z.lxor (Sha256Ror (at_ 2%nat) 17) (Sha256Ror (at_ 2%nat) 19))
                  (Z.shiftr (at_ 2%nat) 10) in
      extend_words n' (w ++ [u32 (at_ 16%nat + s0 + at_ 7%nat + s1)])
  end.

Definition Sha256ProcessChunk (h : Sha256Regs) (chunk : bytes) : Sha256Regs :=
  let w := extend_words 48 (map (chunk_word chunk) (seq 0 16)) in
  let r := foldl (fun r kw => Sha256CompressRound r kw.1 kw.2) h (zip kSha256K w) in
  mkRegs (u32 (r_a h + r_a r)) (u32 (r_b h + r_b r)) (u32 (r_c h + r_c r)) (u32 (r_d h + r_d r))
    (u32 (r_e h + r_e r)) (u32 (r_f h + r_f r)) (u32 (r_g h + r_g r)) (u32 (r_h h + r_h r)).

(** ** The stream *)

(** [sx_buffer] holds the first [buffer_len] bytes of [buffer]. *)
Record Sha256Context := mkSha256Context {
  sx_h : Sha256Regs;
  sx_buffer : bytes;
  sx_total_len : Z
}.

Definition sha256_start : Sha256Regs :=
  mkRegs 0x6a09e667 0xbb67ae85 0x3c6ef372 0xa54ff53a 0x510e527f 0x9b05688c 0x1f83d9ab 0x5be0cd19.

Definition Sha256Init : Sha256Context := mkSha256Context sha256_start [] 0.

(** The loop over whole blocks: the registers and what is left. *)
Fixpoint update_blocks (fuel : nat) (h : Sha256Regs) (data : bytes) : Sha256Regs * bytes :=
  match fuel with
  | O => (h, data)
  | S fuel' =>
      if decide (64 <= length data)%nat
      then update_blocks fuel' (Sha256ProcessChunk h (take 64 data)) (drop 64 data)
      else (h, data)
  end.

Definition Sha256Update (ctx : Sha256Context) (data : bytes) : Sha256Context :=
  let total := u64 (sx_total_len ctx + Z.of_nat (length data)) in
  let buffer := sx_buffer ctx in
  let '(h, buffer, data) :=
    if decide (0 < length buffer)%nat then
      let to_copy := Nat.min (length data) (64 - length buffer) in
      let buffer := buffer ++ take to_copy data in
      if decide (length buffer = 64%nat)
      then (Sha256ProcessChunk (sx_h ctx) buffer, [], drop to_copy data)
      else (sx_h ctx, buffer, drop to_copy data)
    else (sx_h ctx, buffer, data) in
  let '(h, rest) := update_blocks (S (length data)) h data in
  mkSha256Context h (buffer ++ rest) total.

Definition word_bytes (z : Z) : bytes := rev (le 4 z).

Definition regs_bytes (r : Sha256Regs) : bytes :=
  word_bytes (r_a r) ++ word_bytes (r_b r) ++ word_bytes (r_c r) ++ word_bytes (r_d r) ++
  word_bytes (r_e r) ++ word_bytes (r_f r) ++ word_bytes (r_g r) ++ word_bytes (r_h r).

Definition Sha256Final (ctx : Sha256Context) : bytes :=
  let final_chunk := sx_buffer ctx ++ [Byte.x80] in
  let final_chunk := final_chunk ++ replicate (128 - length final_chunk) Byte.x00 in
  let final_len := (length (sx_buffer ctx) + 1)%nat in
  let '(h, final_chunk) :=
    if decide (56 < final_len)%nat
    then (Sha256ProcessChunk (sx_h ctx) (take 64 final_chunk),
          replicate 64 Byte.x00 ++ drop 64 final_chunk)
    else (sx_h ctx, final_chunk) in
  let total_bits := u64 (sx_total_len ctx * 8) in
  let final_chunk := take 56 final_chunk ++ rev (le 8 total_bits) ++ drop 64 final_chunk in
  regs_bytes (Sha256ProcessChunk h (take 64 final_chunk)).

Definition ComputeSha256 (data : bytes) : bytes := Sha256Final (Sha256Update Sha256Init data).

(** ** The standard *)

(** FIPS 180-4, sections 4 to 6.  A word is a number below 2^32, the eight
    working variables are a list of eight words. *)
Module Fips.

Definition add (x y : Z) : Z := (x + y) mod 2 ^ 32.

(** Section 3.2: rotation and shift to the right. *)
Definition rotr (n x : Z) : Z := x / 2 ^ n + (x mod 2 ^ n) * 2 ^ (32 - n).
Definition shr (n x : Z) : Z := x / 2 ^ n.

(** Section 4.1.2; [Z.ldiff z x] is [z] and not [x]. *)
Definition ch (x y z : Z) : Z := Z.lxor (Z.land x y) (Z.ldiff z x).
Definition maj (x y z : Z) : Z := Z.lxor (Z.lxor (Z.land x y) (Z.land x z)) (Z.land y z).
Definition Sigma0 (x : Z) : Z := Z.lxor (Z.lxor (rotr 2 x) (rotr 13 x)) (rotr 22 x).
Definition Sigma1 (x : Z) : Z := Z.lxor (Z.lxor (rotr 6 x) (rotr 11 x)) (rotr 25 x).
Definition sigma0 (x : Z) : Z := Z.lxor (Z.lxor (rotr 7 x) (rotr 18 x)) (shr 3 x).
Definition sigma1 (x : Z) : Z := Z.lxor (Z.lxor (rotr 17 x) (rotr 19 x)) (shr 10 x).

(** Sections 4.2.2 and 5.3.3: the first 32 bits of the fractional parts of the
    cube roots of the first 64 primes and of the square roots of the first 8. *)
Definition is_prime (n : nat) : bool :=
  (2 <=? n)%nat && forallb (fun d => negb (n mod d =? 0)%nat) (seq 2 (n - 2)).
Definition primes : list Z := map Z.of_nat (List.filter is_prime (seq 0 312)).

(** The largest [r] with [r ^ 3 <= n] among the numbers of [bits] bits. *)
Fixpoint cbrt (bits : nat) (r n : Z) : Z :=
  match bits with
  | O => r
  | S bits' =>
      let r' := r + 2 ^ Z.of_nat bits' in
      cbrt bits' (if r' * r' * r' <=? n then r' else r) n
  end.
Definition K : list Z := map (fun p => cbrt 36 0 (p * 2 ^ 96) mod 2 ^ 32) primes.
Definition H0 : list Z := map (fun p => Z.sqrt (p * 2 ^ 64) mod 2 ^ 32) (firstn 8 primes).

(** Section 5.1.1: a one bit, the least number of zero bits that fills a block up
    to the length, and the length of the message in bits. *)
Fixpoint be (n : nat) (z : Z) : bytes :=
  match n with
  | O => []
  | S n' => byte_of (z / 256 ^ Z.of_nat n') :: be n' z
  end.
Definition zero_bytes (len : nat) : nat :=
  default 0%nat (List.find (fun k => ((len + 1 + k) mod 64 =? 56)%nat) (seq 0 64)).
Definition pad (msg : bytes) : bytes :=
  msg ++ [Byte.x80] ++ repeat Byte.x00 (zero_bytes (length msg)) ++ be 8 (8 * Z.of_nat (length msg)).

(** Section 5.2.1: the sixteen words of a block, most significant byte first. *)
Fixpoint words (bs : bytes) : list Z :=
  match bs with
  | a :: b :: c :: d :: bs' =>
      (byte_val a * 2 ^ 24 + byte_val b * 2 ^ 16 + byte_val c * 2 ^ 8 + byte_val d) :: words bs'
  | _ => []
  end.

(** Section 6.2.2, step 1: the words so far, the last one first. *)
Fixpoint schedule (n : nat) (ws : list Z) : list Z :=
  match n with
  | O => ws
  | S n' =>
      schedule n' (add (add (add (sigma1 (nth 1 ws 0)) (nth 6 ws 0)) (sigma0 (nth 14 ws 0))) (nth 15 ws 0) :: ws)
  end.

(** Step 3. *)
Definition step (st : list Z) (k w : Z) : list Z :=
  match st with
  | [a; b; c; d; e; f; g; h] =>
      let T1 := add (add (add (add h (Sigma1 e)) (ch e f g)) k) w in
      let T2 := add (Sigma0 a) (maj a b c) in
      [add T1 T2; a; b; c; add d T1; e; f; g]
  | _ => st
  end.

(** Steps 2 and 4. *)
Definition compress (h : list Z) (block : bytes) : list Z :=
  let W := rev (schedule 48 (rev (words block))) in
  zip_with add h (foldl (fun st kw => step st kw.1 kw.2) h (zip K W)).

Fixpoint blocks (n : nat) (h : list Z) (bs : bytes) : list Z :=
  match n with
  | O => h
  | S n' => blocks n' (compress h (take 64 bs)) (drop 64 bs)
  end.

Definition hash (msg : bytes) : bytes :=
  concat (map (be 4) (blocks (length (pad msg) / 64) H0 (pad msg))).

End Fips.

Definition sha256 : bytes -> bytes := Fips.hash.

(** ** The code's blocks *)

(** [n] blocks from the front of [bs]. *)
Fixpoint fold_blocks (n : nat) (h : Sha256Regs) (bs : bytes) : Sha256Regs :=
  match n with
  | O => h
  | S n' => fold_blocks n' (Sha256ProcessChunk h (take 64 bs)) (drop 64 bs)
  end.

Definition sha256_pad (data : bytes) : bytes :=
  data ++ [Byte.x80] ++ replicate ((119 - length data mod 64) mod 64) Byte.x00 ++
  rev (le 8 (u64 (8 * Z.of_nat (length data)))).

Definition sha256_blocks (data : bytes) : bytes :=
  let padded := sha256_pad data in
  regs_bytes (fold_blocks (length padded / 64) sha256_start padded).

Example sha256_abc :
  ComputeSha256 [Byte.x61; Byte.x62; Byte.x63] =
  map byte_of [0xba; 0x78; 0x16; 0xbf; 0x8f; 0x01; 0xcf; 0xea; 0x41; 0x41; 0x40; 0xde; 0x5d; 0xae; 0x22; 0x23;
   0xb0; 0x03; 0x61; 0xa3; 0x96; 0x17; 0x7a; 0x9c; 0xb4; 0x10; 0xff; 0x61; 0xf2; 0x00; 0x15; 0xad].
Proof. by vm_compute. Qed.

(** ** The stream computes the standard *)

Lemma fold_blocks_app n m h a b :
  length a = (64 * n)%nat -> fold_blocks (n + m) h (a ++ b) = fold_blocks m (fold_blocks n h a) b.
Proof.
  revert h a. induction n as [|n IH]; intros h a Ha; cbn [fold_blocks Nat.add].
  { by destruct a. }
  rewrite take_app_le, drop_app_le by lia. apply IH. rewrite length_drop. lia.
Qed.

Lemma fold_blocks_one h a : length a = 64%nat -> fold_blocks 1 h a = Sha256ProcessChunk h a.
Proof. intros Ha. cbn [fold_blocks]. by rewrite take_ge by lia. Qed.

Lemma update_blocks_spec fuel : forall h data,
  (length data < fuel)%nat ->
  exists q full rest, data = full ++ rest /\ length full = (64 * q)%nat /\ (length rest < 64)%nat /\
    update_blocks fuel h data = (fold_blocks q h full, rest).
Proof.
  induction fuel as [|fuel IH]; intros h data Hf; [lia|]. cbn [update_blocks]. case_decide as Hd.
  - destruct (IH (Sha256ProcessChunk h (take 64 data)) (drop 64 data)) as (q & full & rest & E & Hl & Hr & R).
    { rewrite length_drop. lia. }
    exists (S q), (take 64 data ++ full), rest. rewrite <- app_assoc, <- E, take_drop, R.
    split_and!; [done|rewrite length_app, length_take; lia|done|].
    change (S q) with (1 + q)%nat. rewrite fold_blocks_app by (rewrite length_take; lia).
    by rewrite fold_blocks_one by (rewrite length_take; lia).
  - exists 0%nat, [], data. split_and!; [done|done|lia|done].
Qed.

(** The context after the bytes [msg]. *)
Definition sha_after (ctx : Sha256Context) (msg : bytes) : Prop :=
  exists q full tail, msg = full ++ tail /\ length full = (64 * q)%nat /\ (length tail < 64)%nat /\
    ctx = mkSha256Context (fold_blocks q sha256_start full) tail (u64 (Z.of_nat (length msg))).

Lemma sha_after_init : sha_after Sha256Init [].
Proof. exists 0%nat, [], []. split_and!; [done|done|simpl; lia|done]. Qed.

Lemma u64_plus_l a b : u64 (u64 a + b) = u64 (a + b).
Proof. unfold u64. by rewrite Zplus_mod_idemp_l. Qed.

Lemma Sha256Update_after ctx msg data :
  sha_after ctx msg -> sha_after (Sha256Update ctx data) (msg ++ data).
Proof.
  intros (q & full & tail & -> & Hq & Ht & ->). unfold Sha256Update. cbn [sx_total_len sx_buffer sx_h].
  rewrite u64_plus_l, <- Nat2Z.inj_add, <- length_app.
  assert (Hgo : forall full' q' data', (full ++ tail) ++ data = full' ++ data' ->
    length full' = (64 * q')%nat ->
    sha_after (let '(h, rest) := update_blocks (S (length data')) (fold_blocks q' sha256_start full') data' in
               mkSha256Context h ([] ++ rest) (u64 (Z.of_nat (length ((full ++ tail) ++ data)))))
              ((full ++ tail) ++ data)).
  { intros full' q' data' E Hl.
    destruct (update_blocks_spec (S (length data')) (fold_blocks q' sha256_start full') data')
      as (p & f & r & Ed & Hp & Hr & R); [lia|]. rewrite R.
    exists (q' + p)%nat, (full' ++ f), r. rewrite E, Ed, app_assoc. split_and!; try done.
    - rewrite length_app. lia.
    - by rewrite fold_blocks_app. }
  destruct (decide (0 < length tail)%nat) as [Hpos|Hz]; cycle 1.
  { assert (tail = []) as -> by (destruct tail; [done|simpl in *; lia]).
    apply Hgo; [by rewrite !app_nil_r|done]. }
  set (n := Nat.min (length data) (64 - length tail)).
  destruct (decide (length (tail ++ take n data) = 64%nat)) as [H64|H64].
  - rewrite <- (fold_blocks_one _ (tail ++ take n data)) by done.
    rewrite <- fold_blocks_app by done. apply Hgo.
    + rewrite <- !app_assoc. by rewrite take_drop.
    + rewrite length_app, H64. lia.
  - rewrite length_app, length_take in H64. assert (n = length data /\ (length tail + length data < 64)%nat) as [-> Hlt] by (unfold n in *; lia).
    rewrite take_ge, drop_ge by lia. cbn [length update_blocks]. rewrite decide_False by (simpl; lia).
    exists q, full, (tail ++ data). rewrite <- app_assoc, app_nil_r. split_and!; try done.
    rewrite length_app. lia.
Qed.

Lemma length_rev_le n z : length (rev (le n z)) = n.
Proof. rewrite length_rev. apply length_le. Qed.

Lemma sha256_pad_split full tail q :
  length full = (64 * q)%nat -> (length tail < 64)%nat ->
  let bits := rev (le 8 (u64 (8 * Z.of_nat (length (full ++ tail))))) in
  sha256_pad (full ++ tail) = full ++
    if decide (length tail < 56)%nat
    then tail ++ [Byte.x80] ++ replicate (55 - length tail) Byte.x00 ++ bits
    else (tail ++ [Byte.x80] ++ replicate (63 - length tail) Byte.x00) ++
         replicate 56 Byte.x00 ++ bits.
Proof.
  intros Hf Ht bits. unfold sha256_pad. rewrite <- app_assoc. f_equal.
  assert (Hm : (length (full ++ tail) mod 64 = length tail)%nat).
  { rewrite length_app, Hf, (Nat.mul_comm 64), Nat.add_comm, Nat.Div0.mod_add. by apply Nat.mod_small. }
  rewrite Hm. fold bits. case_decide as Hd.
  - replace (119 - length tail)%nat with (55 - length tail + 1 * 64)%nat by lia.
    rewrite Nat.Div0.mod_add, Nat.mod_small by lia. done.
  - rewrite Nat.mod_small by lia.
    replace (119 - length tail)%nat with (63 - length tail + 56)%nat by lia.
    rewrite replicate_add. by rewrite <- !app_assoc.
Qed.

Lemma Sha256Final_blocks ctx msg : sha_after ctx msg -> Sha256Final ctx = sha256_blocks msg.
Proof.
  intros (q & full & tail & -> & Hq & Ht & ->). unfold Sha256Final, sha256_blocks.
  cbn [sx_total_len sx_buffer sx_h]. rewrite (sha256_pad_split full tail q Hq Ht).
  set (bits := rev (le 8 (u64 (8 * Z.of_nat (length (full ++ tail)))))).
  assert (Eb : rev (le 8 (u64 (u64 (Z.of_nat (length (full ++ tail))) * 8))) = bits).
  { unfold bits. do 2 f_equal. unfold u64. rewrite Zmult_mod_idemp_l. f_equal. lia. }
  rewrite Eb. assert (Lb : length bits = 8%nat) by apply length_rev_le.
  set (Z128 := (tail ++ [Byte.x80]) ++ _).
  destruct (decide (56 < length tail + 1)%nat) as [Hl|Hl];
    [rewrite decide_False by lia|rewrite decide_True by lia].
  - set (first := tail ++ [Byte.x80] ++ replicate (63 - length tail) Byte.x00).
    assert (Lf : length first = 64%nat)
      by (unfold first; rewrite !length_app, length_replicate; simpl; lia).
    assert (EZ : take 64 Z128 = first).
    { unfold Z128, first. rewrite <- app_assoc. rewrite take_app_ge by lia. f_equal.
      rewrite length_app. cbn [length].
      replace (64 - length tail)%nat with (S (63 - length tail)) by lia. cbn [app take]. f_equal.
      rewrite take_replicate. f_equal. lia. }
    rewrite EZ. rewrite (take_app_le _ _ 56) by (rewrite length_replicate; lia).
    rewrite take_replicate. change (56 `min` 64)%nat with 56%nat.
    rewrite app_assoc. rewrite (take_app_le _ _ 64) by (rewrite length_app, length_replicate; lia).
    rewrite take_ge by (rewrite length_app, length_replicate; lia).
    set (second := replicate 56 Byte.x00 ++ bits).
    assert (Ls : length second = 64%nat) by (unfold second; rewrite length_app, length_replicate; lia).
    assert (Hn : (length (full ++ first ++ second) / 64)%nat = (q + (1 + 1))%nat).
    { rewrite !length_app, Hq, Lf, Ls.
      replace (64 * q + (64 + 64))%nat with ((q + (1 + 1)) * 64)%nat by lia. by apply Nat.div_mul. }
    rewrite Hn, fold_blocks_app by done. rewrite fold_blocks_app by lia.
    by rewrite !fold_blocks_one by done.
  - assert (EZ : take 56 Z128 = tail ++ [Byte.x80] ++ replicate (55 - length tail) Byte.x00).
    { unfold Z128. rewrite <- app_assoc. rewrite take_app_ge by lia. f_equal.
      rewrite length_app. cbn [length].
      replace (56 - length tail)%nat with (S (55 - length tail)) by lia. cbn [app take]. f_equal.
      rewrite take_replicate. f_equal. lia. }
    rewrite EZ. set (block := tail ++ [Byte.x80] ++ replicate (55 - length tail) Byte.x00 ++ bits).
    assert (Lk : length block = 64%nat)
      by (unfold block; rewrite !length_app, length_replicate; simpl; lia).
    assert (Et : take 64 ((tail ++ [Byte.x80] ++ replicate (55 - length tail) Byte.x00) ++
                          bits ++ drop 64 Z128) = block).
    { rewrite app_assoc. rewrite <- (app_assoc _ _ bits), <- (app_assoc _ _ bits). fold block.
      apply take_app_length'. done. }
    rewrite Et. assert (Hn : (length (full ++ block) / 64)%nat = (q + 1)%nat).
    { rewrite length_app, Hq, Lk. replace (64 * q + 64)%nat with ((q + 1) * 64)%nat by lia.
      by apply Nat.div_mul. }
    rewrite Hn, fold_blocks_app by done. by rewrite fold_blocks_one by done.
Qed.

(** ** The code's functions are those of the standard *)

Definition word (x : Z) : Prop := 0 <= x < 2 ^ 32.

Lemma fips_add x y : Fips.add x y = u32 (x + y).
Proof. done. Qed.

Lemma word_u32 x : word (u32 x).
Proof. unfold word, u32. apply Z.mod_pos_bound. lia. Qed.

Lemma lor_disjoint x y n : 0 <= n -> 0 <= x < 2 ^ n -> Z.lor x (y * 2 ^ n) = x + y * 2 ^ n.
Proof.
  intros Hn Hx. rewrite <- Z.add_lor_land.
  assert (Z.land x (y * 2 ^ n) = 0) as ->; [|lia]. apply Z.bits_inj'. intros i Hi.
  rewrite Z.land_spec, Z.bits_0. destruct (decide (i < n)).
  - rewrite Z.mul_pow2_bits_low by lia. apply andb_false_r.
  - destruct (decide (x = 0)) as [->|]; [by rewrite Z.bits_0|].
    rewrite Z.bits_above_log2; [done|lia|]. assert (Z.log2 x < n) by (apply Z.log2_lt_pow2; lia). lia.
Qed.

Lemma Sha256Ror_rotr x n : word x -> 0 <= n <= 32 -> Sha256Ror x n = Fips.rotr n x.
Proof.
  intros Hx Hn. unfold Sha256Ror, Fips.rotr, u32. rewrite Z.shiftr_div_pow2, Z.shiftl_mul_pow2 by lia.
  assert (2 ^ 32 = 2 ^ n * 2 ^ (32 - n)) as E by (rewrite <- Z.pow_add_r by lia; f_equal; lia).
  change 4294967296 with (2 ^ 32). rewrite E, Z.mul_mod_distr_r by (apply Z.pow_nonzero; lia).
  apply lor_disjoint; [lia|]. unfold word in Hx.
  split; [apply Z.div_pos; lia|]. apply Z.div_lt_upper_bound; [apply Z.pow_pos_nonneg; lia|]. lia.
Qed.

Lemma land_lnot e g : word g -> Z.land (u32 (Z.lnot e)) g = Z.ldiff g e.
Proof.
  intros Hg. apply Z.bits_inj'. intros i Hi. rewrite Z.land_spec, Z.ldiff_spec. unfold u32.
  change 4294967296 with (2 ^ 32). destruct (decide (i < 32)).
  - rewrite Z.mod_pow2_bits_low, Z.lnot_spec by lia. apply andb_comm.
  - rewrite Z.mod_pow2_bits_high by lia. destruct (decide (g = 0)) as [->|]; [by rewrite Z.bits_0|].
    rewrite (Z.bits_above_log2 g i); [done|unfold word in Hg; lia|].
    assert (Z.log2 g < 32) by (apply Z.log2_lt_pow2; unfold word in Hg; lia). lia.
Qed.

Lemma add_u32 x y : u32 (u32 x + y) = u32 (x + y).
Proof. unfold u32. by rewrite Zplus_mod_idemp_l. Qed.

Lemma add_four a b c d : Fips.add (Fips.add (Fips.add a b) c) d = u32 (a + b + c + d).
Proof. rewrite !fips_add. by rewrite (add_u32 (a + b) c), (add_u32 (a + b + c) d). Qed.

Lemma add_five a b c d e : Fips.add (Fips.add (Fips.add (Fips.add a b) c) d) e = u32 (a + b + c + d + e).
Proof. rewrite (add_four a b c d), fips_add. apply add_u32. Qed.

Definition regs_list (r : Sha256Regs) : list Z :=
  [r_a r; r_b r; r_c r; r_d r; r_e r; r_f r; r_g r; r_h r].

Lemma round_step r k w :
  Forall word (regs_list r) ->
  regs_list (Sha256CompressRound r k w) = Fips.step (regs_list r) k w /\
  Forall word (regs_list (Sha256CompressRound r k w)).
Proof.
  destruct r as [a b c d e f g h]. unfold regs_list. cbn [r_a r_b r_c r_d r_e r_f r_g r_h]. intros Hr.
  repeat match goal with H : Forall _ (_ :: _) |- _ => apply list.Forall_cons in H as [? H] end.
  cbn [Sha256CompressRound Fips.step r_a r_b r_c r_d r_e r_f r_g r_h].
  rewrite !Sha256Ror_rotr by (done || lia). rewrite land_lnot by done.
  fold (Fips.Sigma1 e) (Fips.Sigma0 a) (Fips.ch e f g) (Fips.maj a b c). rewrite !(add_five h), !fips_add.
  split; [done|]. rewrite !list.Forall_cons. split_and!; try done; apply word_u32.
Qed.

Lemma rounds_steps kws : forall r,
  Forall word (regs_list r) ->
  let r' := foldl (fun r kw => Sha256CompressRound r kw.1 kw.2) r kws in
  regs_list r' = foldl (fun st kw => Fips.step st kw.1 kw.2) (regs_list r) kws /\ Forall word (regs_list r').
Proof.
  induction kws as [|[k w] kws IH]; intros r Hr; [done|]. cbn [foldl fst snd].
  destruct (round_step r k w Hr) as [<- Hr']. by apply IH.
Qed.

Lemma nth_from_end (w : list Z) i :
  (0 < i <= length w)%nat -> nth (length w - i) w 0 = nth (i - 1) (rev w) 0.
Proof. intros Hi. rewrite rev_nth by lia. f_equal. lia. Qed.

Lemma word_nth ws i : Forall word ws -> word (nth i ws 0).
Proof.
  intros Hw. destruct (decide (i < length ws)%nat).
  - rewrite list.Forall_forall in Hw. apply Hw, list_elem_of_In, nth_In. done.
  - rewrite nth_overflow by lia. unfold word. lia.
Qed.

Lemma extend_schedule n : forall w, Forall word w -> (16 <= length w)%nat ->
  extend_words n w = rev (Fips.schedule n (rev w)).
Proof.
  induction n as [|n IH]; intros w Hw Hl; cbn [extend_words Fips.schedule]; [by rewrite rev_involutive|].
  rewrite !nth_from_end by lia. cbn [Nat.sub].
  assert (forall i, word (nth i (rev w) 0)) as Hn.
  { intros i. apply word_nth. by apply List.Forall_rev. }
  rewrite !Sha256Ror_rotr by (apply Hn || lia). rewrite !Z.shiftr_div_pow2 by lia.
  set (x := u32 _). rewrite IH; [|by apply Forall_app_2; [|apply list.Forall_singleton, word_u32]|rewrite length_app; lia].
  rewrite rev_app_distr. cbn [rev app]. do 3 f_equal. unfold x. rewrite add_four. f_equal.
  unfold Fips.sigma0, Fips.sigma1, Fips.shr. lia.
Qed.

Lemma be_word a b c d :
  Z.lor (Z.lor (Z.lor (Z.shiftl (byte_val a) 24) (Z.shiftl (byte_val b) 16)) (Z.shiftl (byte_val c) 8)) (byte_val d) =
  byte_val a * 2 ^ 24 + byte_val b * 2 ^ 16 + byte_val c * 2 ^ 8 + byte_val d.
Proof.
  pose proof (byte_val_range a). pose proof (byte_val_range b). pose proof (byte_val_range c). pose proof (byte_val_range d).
  rewrite !Z.shiftl_mul_pow2 by lia. rewrite (Z.lor_comm (byte_val a * _)).
  replace (byte_val a * 2 ^ 24) with (byte_val a * 2 ^ 8 * 2 ^ 16) by lia.
  replace (Z.lor (byte_val b * 2 ^ 16) (byte_val a * 2 ^ 8 * 2 ^ 16)) with ((byte_val b + byte_val a * 2 ^ 8) * 2 ^ 16).
  2:{ rewrite <- !Z.shiftl_mul_pow2 with (n := 16), <- Z.shiftl_lor by lia. f_equal. by rewrite lor_disjoint by lia. }
  rewrite (Z.lor_comm _ (byte_val c * _)).
  replace ((byte_val b + byte_val a * 2 ^ 8) * 2 ^ 16) with ((byte_val b + byte_val a * 2 ^ 8) * 2 ^ 8 * 2 ^ 8) by lia.
  replace (Z.lor (byte_val c * 2 ^ 8) ((byte_val b + byte_val a * 2 ^ 8) * 2 ^ 8 * 2 ^ 8))
    with ((byte_val c + (byte_val b + byte_val a * 2 ^ 8) * 2 ^ 8) * 2 ^ 8).
  2:{ rewrite <- !Z.shiftl_mul_pow2 with (n := 8), <- Z.shiftl_lor by lia. f_equal.
      rewrite Z.shiftl_mul_pow2 by lia. by rewrite lor_disjoint by lia. }
  rewrite Z.lor_comm, lor_disjoint by lia. lia.
Qed.

Lemma chunk_words chunk :
  length chunk = 64%nat -> map (chunk_word chunk) (seq 0 16) = Fips.words chunk.
Proof.
  intros Hl. do 64 (destruct chunk as [|? chunk]; [done|]). destruct chunk; [|done].
  cbn [Fips.words map seq]. unfold chunk_word. cbn [Nat.mul Nat.add nth]. by rewrite !be_word.
Qed.

Lemma words_word n : forall bs, (length bs <= n)%nat -> Forall word (Fips.words bs).
Proof.
  induction n as [|n IH]; intros bs Hl; [by destruct bs; [constructor|simpl in Hl; lia]|].
  destruct bs as [|a [|b [|c [|d bs]]]]; try constructor.
  - pose proof (byte_val_range a). pose proof (byte_val_range b). pose proof (byte_val_range c).
    pose proof (byte_val_range d). unfold word. lia.
  - apply IH. simpl in Hl. lia.
Qed.

Lemma constants_fips : kSha256K = Fips.K /\ regs_list sha256_start = Fips.H0.
Proof. split; vm_compute; reflexivity. Qed.

Lemma chunk_compress h chunk :
  Forall word (regs_list h) -> length chunk = 64%nat ->
  regs_list (Sha256ProcessChunk h chunk) = Fips.compress (regs_list h) chunk /\
  Forall word (regs_list (Sha256ProcessChunk h chunk)).
Proof.
  intros Hh Hc. unfold Sha256ProcessChunk, Fips.compress. rewrite chunk_words by done.
  rewrite extend_schedule.
  2:{ by apply (words_word 64); rewrite Hc. }
  2:{ rewrite <- chunk_words by done. rewrite length_map, length_seq. done. }
  rewrite (proj1 constants_fips). set (kws := zip _ _).
  destruct (rounds_steps kws h Hh) as [<- _]. cbv zeta.
  set (r := foldl _ h kws). split; [done|]. unfold regs_list. cbn [r_a r_b r_c r_d r_e r_f r_g r_h].
  rewrite !list.Forall_cons. split_and!; try apply word_u32. constructor.
Qed.

Lemma fold_blocks_fips n : forall h bs,
  Forall word (regs_list h) -> length bs = (64 * n)%nat ->
  regs_list (fold_blocks n h bs) = Fips.blocks n (regs_list h) bs.
Proof.
  induction n as [|n IH]; intros h bs Hh Hb; [done|]. cbn [fold_blocks Fips.blocks].
  destruct (chunk_compress h (take 64 bs) Hh) as [<- Hw]; [rewrite length_take; lia|].
  apply IH; [done|]. rewrite length_drop. lia.
Qed.

Lemma be_snoc n : forall z, Fips.be (S n) z = Fips.be n (z / 256) ++ [byte_of z].
Proof.
  induction n as [|n IH]; intros z; [cbn; by rewrite Z.div_1_r|].
  change (Fips.be (S (S n)) z) with (byte_of (z / 256 ^ Z.of_nat (S n)) :: Fips.be (S n) z).
  rewrite IH. cbn [Fips.be app]. f_equal. f_equal.
  rewrite Z.div_div by lia. f_equal. rewrite Nat2Z.inj_succ, Z.pow_succ_r by lia. done.
Qed.

Lemma be_le n : forall z, Fips.be n z = rev (le n z).
Proof.
  induction n as [|n IH]; intros z; [done|]. rewrite be_snoc, IH. done.
Qed.

Lemma le_mod n z : le n (z mod 256 ^ Z.of_nat n) = le n z.
Proof. rewrite <- le_val_le. rewrite <- (length_le n z) at 1. apply le_of_val. Qed.

Lemma regs_bytes_fips r : regs_bytes r = concat (map (Fips.be 4) (regs_list r)).
Proof. unfold regs_bytes, word_bytes, regs_list. cbn [map concat]. by rewrite !be_le, app_nil_r. Qed.

Lemma zero_bytes_eq len : Fips.zero_bytes len = ((119 - len mod 64) mod 64)%nat.
Proof.
  assert (forall r, In r (seq 0 64) -> Fips.zero_bytes r = ((119 - r) mod 64)%nat) as Hr.
  { apply List.Forall_forall. repeat constructor. }
  rewrite <- Hr by (apply in_seq; pose proof (Nat.mod_upper_bound len 64); lia).
  unfold Fips.zero_bytes. f_equal. clear Hr. induction (seq 0 64) as [|k ks IH]; [done|]. cbn [List.find].
  assert ((len mod 64 + 1 + k) mod 64 = (len + 1 + k) mod 64)%nat as ->; [|by rewrite IH].
  rewrite <- !Nat.add_assoc. by rewrite Nat.Div0.add_mod_idemp_l.
Qed.

Lemma pad_fips msg : sha256_pad msg = Fips.pad msg.
Proof.
  unfold sha256_pad, Fips.pad. rewrite zero_bytes_eq, be_le.
  change (u64 ?x) with (x mod 256 ^ Z.of_nat 8). rewrite le_mod. do 3 f_equal.
  generalize ((119 - length msg mod 64) mod 64)%nat. intros k. induction k; simpl; congruence.
Qed.

Lemma pad_length msg : exists n, length (Fips.pad msg) = (64 * n)%nat.
Proof.
  rewrite <- pad_fips. unfold sha256_pad. rewrite !length_app, length_replicate, length_rev_le. cbn [length].
  exists (length msg / 64 + (1 + (length msg mod 64 + 8) / 64))%nat.
  pose proof (Nat.div_mod (length msg) 64 ltac:(lia)). pose proof (Nat.mod_upper_bound (length msg) 64 ltac:(lia)).
  set (r := (length msg mod 64)%nat) in *.
  destruct (decide (r < 56)%nat).
  - rewrite (Nat.div_small (r + 8)) by lia. replace (119 - r)%nat with (55 - r + 1 * 64)%nat by lia.
    rewrite Nat.Div0.mod_add, Nat.mod_small by lia. lia.
  - replace (r + 8)%nat with (r - 56 + 1 * 64)%nat by lia. rewrite (Nat.div_add (r - 56)), (Nat.div_small (r - 56)) by lia.
    rewrite Nat.mod_small by lia. lia.
Qed.

Lemma sha256_blocks_fips msg : sha256_blocks msg = sha256 msg.
Proof.
  unfold sha256_blocks, sha256, Fips.hash. rewrite regs_bytes_fips, pad_fips.
  destruct (pad_length msg) as [n Hn]. rewrite fold_blocks_fips, (proj2 constants_fips); [done| |].
  - unfold regs_list, sha256_start, word. cbn [r_a r_b r_c r_d r_e r_f r_g r_h]. rewrite !list.Forall_cons. split_and!; try lia. constructor.
  - rewrite Hn, (Nat.mul_comm 64), Nat.div_mul by lia. lia.
Qed.

Lemma Sha256Final_after ctx msg : sha_after ctx msg -> Sha256Final ctx = sha256 msg.
Proof. intros H. rewrite <- sha256_blocks_fips. by apply Sha256Final_blocks. Qed.

(** C39. The streaming hash of any sequence of chunks, and the hash in one call,
    are the SHA-256 of the concatenated bytes as [Module Fips] writes it down
    from FIPS 180-4 (the standard itself is for messages below 2^61 bytes; the
    equation needs no bound). *)
Theorem sha256_stream chunks :
  Sha256Final (foldl Sha256Update Sha256Init chunks) = sha256 (concat chunks) /\
  ComputeSha256 (concat chunks) = sha256 (concat chunks).
Proof.
  assert (H : forall ctx msg, sha_after ctx msg -> sha_after (foldl Sha256Update ctx chunks) (msg ++ concat chunks)).
  { induction chunks as [|c cs IH]; intros ctx msg Hc; cbn [foldl concat]; [by rewrite app_nil_r|].
    rewrite app_assoc. by apply IH, Sha256Update_after. }
  split; apply Sha256Final_after.
  - apply (H _ []), sha_after_init.
  - apply (Sha256Update_after _ []), sha_after_init.
Qed.
