(* ===== verification/LevelDb.v ===== *)
(** * The LevelDB database under the state persister

    LevelDB is a library: its operations are the class [LevelDB], what its
    documentation promises the class [LevelDBLaws].  A write batch is applied
    as a whole or not at all; a synced write that succeeds survives a crash; a
    write that fails leaves the open database as it was, but may still be found
    after a crash.  [MemDb] is an instance with a list of faults to come. *)

From S2P Require Import Prelude Types Bytes Disk.

Inductive GetResult := GFound (v : bytes) | GNotFound | GFailed (what : string).
Inductive BatchOp := BPut (k : string) (v : bytes) | BDelete (k : string).

(** The database of one directory.  [db_scan p] are the keys of an iterator
    from [Seek(p)] while it is valid and the key starts with [p]; the other
    operations return the error text, if any. *)
Class LevelDB (DB : Type) := {
  db_open : bool -> State DB (option string);
  db_close : State DB unit;
  db_get : string -> State DB GetResult;
  db_write : bool -> list BatchOp -> State DB (option string);
  db_scan : string -> State DB (list string)
}.

Definition batch_key (o : BatchOp) : string := match o with BPut k _ => k | BDelete k => k end.
Definition apply_op (m : gmap string bytes) (o : BatchOp) : gmap string bytes :=
  match o with BPut k v => <[k := v]> m | BDelete k => delete k m end.
Definition apply_batch (ops : list BatchOp) (m : gmap string bytes) : gmap string bytes :=
  foldl apply_op m ops.

(** [db_map] is what reads see, [survives db m] that the next start after a
    crash may find [m]. *)
Class LevelDBLaws (DB : Type) `{!LevelDB DB} := {
  db_map : DB -> gmap string bytes;
  survives : DB -> gmap string bytes -> Prop;
  crash : DB -> DB -> Prop;
  (** no operation fails from here on *)
  db_healthy : DB -> Prop;
  crash_finds db db' : crash db db' -> survives db (db_map db');
  crash_again db db' m : crash db db' -> survives db' m -> survives db m;
  open_map c db : db_map (db_open c db).2 = db_map db;
  open_survives c db m : survives (db_open c db).2 m -> survives db m \/ m = db_map db;
  close_map db : db_map (db_close db).2 = db_map db;
  close_survives db m : survives (db_close db).2 m -> survives db m \/ m = db_map db;
  get_map k db : db_map (db_get k db).2 = db_map db;
  get_survives k db m : survives (db_get k db).2 m -> survives db m;
  get_found k db v : (db_get k db).1 = GFound v -> db_map db !! k = Some v;
  get_not_found k db : (db_get k db).1 = GNotFound -> db_map db !! k = None;
  scan_map p db : db_map (db_scan p db).2 = db_map db;
  scan_survives p db m : survives (db_scan p db).2 m -> survives db m;
  scan_keys p db : Forall (fun k => String.prefix p k = true) (db_scan p db).1;
  write_map s ops db :
    db_map (db_write s ops db).2 =
      if (db_write s ops db).1 is None then apply_batch ops (db_map db) else db_map db;
  write_survives s ops db m :
    survives (db_write s ops db).2 m -> survives db m \/ m = apply_batch ops (db_map db);
  write_synced ops db m :
    (db_write true ops db).1 = None -> survives (db_write true ops db).2 m ->
    m = apply_batch ops (db_map db);
  healthy_open c db : db_healthy db -> (db_open c db).1 = None /\ db_healthy (db_open c db).2;
  healthy_get k db :
    db_healthy db -> (forall e, (db_get k db).1 <> GFailed e) /\ db_healthy (db_get k db).2
}.

(** ** Batches *)

Lemma apply_batch_app a b m : apply_batch (a ++ b) m = apply_batch b (apply_batch a m).
Proof. apply foldl_app. Qed.

Lemma apply_batch_other ops m k : k ∉ map batch_key ops -> apply_batch ops m !! k = m !! k.
Proof.
  revert m. induction ops as [|o ops IH]; intros m Hk; [done|].
  apply not_elem_of_cons in Hk as [Ho Hk]. cbn [apply_batch foldl].
  change (foldl apply_op ?x ops) with (apply_batch ops x). rewrite IH by done.
  destruct o; simpl in *; [by apply lookup_insert_ne|by apply lookup_delete_ne].
Qed.

Lemma apply_batch_last ops o rest m :
  batch_key o ∉ map batch_key rest ->
  apply_batch (ops ++ o :: rest) m !! batch_key o =
    (if o is BPut _ v then Some v else None).
Proof.
  intros Hn. rewrite apply_batch_app. cbn [apply_batch foldl].
  change (foldl apply_op ?x rest) with (apply_batch rest x). rewrite apply_batch_other by done.
  destruct o; simpl; [apply lookup_insert_eq|apply lookup_delete_eq].
Qed.

(** ** What holds of every map a start can find *)

Section all_maps.
Context {DB : Type} `{!LevelDB DB} `{!LevelDBLaws DB}.

Definition all_maps (Q : gmap string bytes -> Prop) (db : DB) : Prop :=
  Q (db_map db) /\ forall m, survives db m -> Q m.

Lemma all_maps_get Q k db : all_maps Q db -> all_maps Q (db_get k db).2.
Proof. intros [H1 H2]. split; [by rewrite get_map|]. intros m Hm%get_survives. auto. Qed.

Lemma all_maps_scan Q p db : all_maps Q db -> all_maps Q (db_scan p db).2.
Proof. intros [H1 H2]. split; [by rewrite scan_map|]. intros m Hm%scan_survives. auto. Qed.

Lemma all_maps_open Q c db : all_maps Q db -> all_maps Q (db_open c db).2.
Proof. intros [H1 H2]. split; [by rewrite open_map|]. intros m [?| ->]%open_survives; auto. Qed.

Lemma all_maps_close Q db : all_maps Q db -> all_maps Q (db_close db).2.
Proof. intros [H1 H2]. split; [by rewrite close_map|]. intros m [?| ->]%close_survives; auto. Qed.

Lemma all_maps_write Q s ops db :
  all_maps Q db -> (Q (db_map db) -> Q (apply_batch ops (db_map db))) ->
  all_maps Q (db_write s ops db).2.
Proof.
  intros [H1 H2] Hop. split.
  - rewrite write_map. destruct (db_write s ops db).1; auto.
  - intros m [?| ->]%write_survives; auto.
Qed.

Lemma all_maps_synced Q ops db :
  (db_write true ops db).1 = None -> Q (apply_batch ops (db_map db)) ->
  all_maps Q (db_write true ops db).2.
Proof.
  intros Ho HQ. split; [by rewrite write_map, Ho|]. by intros m ->%write_synced.
Qed.

Lemma all_maps_crash Q db db' : all_maps Q db -> crash db db' -> all_maps Q db'.
Proof.
  intros [H1 H2] Hc. split; [by apply H2, crash_finds|]. intros m Hm. by apply H2, (crash_again _ db').
Qed.
End all_maps.
#[export] Hint Resolve all_maps_get all_maps_scan all_maps_open all_maps_close : core.

(** ** An instance *)

Record MemDb := mkMemDb {
  mem_map : gmap string bytes;
  mem_survivors : list (gmap string bytes);
  (** whether each of the operations to come fails; all later ones succeed *)
  mem_faults : list bool
}.

Definition mem_op {A} (ok : gmap string bytes -> A * gmap string bytes) (failed : A)
    (surv : gmap string bytes -> list (gmap string bytes) -> bool -> list (gmap string bytes)) :
    State MemDb A := fun d =>
  let fault := default false (head (mem_faults d)) in
  let rest := tail (mem_faults d) in
  if fault then (failed, mkMemDb (mem_map d) (surv (mem_map d) (mem_survivors d) false) rest)
  else let '(a, m) := ok (mem_map d) in
       (a, mkMemDb m (surv (mem_map d) (mem_survivors d) true) rest).

Definition keep_survivors (_ : gmap string bytes) (l : list (gmap string bytes)) (_ : bool) := l.

#[global] Instance MemDb_level : LevelDB MemDb := {
  db_open _ := mem_op (fun m => (None, m)) (Some "IO error: open") keep_survivors;
  db_close := fun d => (tt, d);
  db_get k := mem_op (fun m => (if m !! k is Some v then GFound v else GNotFound, m))
                (GFailed "IO error: get") keep_survivors;
  db_write s ops := mem_op (fun m => (None, apply_batch ops m)) (Some "IO error: write")
    (fun m l ok => if s && ok then [apply_batch ops m] else apply_batch ops m :: l);
  db_scan p := mem_op (fun m =>
      (filter (fun k : string => String.prefix p k = true) (elements (dom m)), m)) [] keep_survivors
}.

Ltac mem_solve := intros; unfold db_open, db_close, db_get, db_write, db_scan, MemDb_level, mem_op,
  keep_survivors in *; repeat case_match; simplify_eq/=; set_solver.

#[global, refine] Instance MemDb_laws : LevelDBLaws MemDb := {
  db_map := mem_map;
  survives d m := m ∈ mem_survivors d;
  crash d d' := mem_map d' ∈ mem_survivors d /\ mem_survivors d' = [mem_map d'];
  db_healthy d := mem_faults d = []
}.
Proof.
  all: try (mem_solve; fail).
  - intros db db' m [H ->] ->%list_elem_of_singleton. done.
  - intros p db. simpl. unfold mem_op. case_match; [constructor|]. simpl.
    apply list.Forall_forall. intros k Hk. by apply list_elem_of_filter in Hk as [? _].
  - intros c db H. simpl. unfold mem_op. by rewrite H.
  - intros k db H. simpl. unfold mem_op. rewrite H. simpl. split; [|done].
    intros e. by destruct (mem_map db !! k).
Defined.
