(* ===== verification/StatePersister.v ===== *)
(** * Term, vote, membership and snapshots: [src/state_persister.cpp]

    [StatePersister] keeps the persistent state under three keys and a snapshot
    either whole or in chunks, with its SHA-256.  The database is a [LevelDB],
    the JSON library the class [ClusterJson].  A chunk provider is the list of
    the chunks it gives and the exception that ends it, if one does; the chunks
    given to a consumer are part of the result. *)

From S2P Require Import Prelude Types Bytes Disk Sha256 LevelDb.

(** ** Loops with an exit *)

Section iter.
Context {S A B : Type} (body : A -> State S (A + B)).

(** At most [p] rounds of [body], until one gives [inr]. *)
Fixpoint iter_pos (p : positive) (a : A) : State S (A + B) :=
  let twice p' a' :=
    r ← iter_pos p' a';
    match r with inl a'' => iter_pos p' a'' | inr b => mret (inr b) end in
  match p with
  | xH => body a
  | xO p' => twice p' a
  | xI p' => r ← body a; match r with inl a' => twice p' a' | inr b => mret (inr b) end
  end.

Fixpoint iter_nat (n : nat) (a : A) : State S (A + B) :=
  match n with
  | O => mret (inl a)
  | Datatypes.S n' => r ← body a; match r with inl a' => iter_nat n' a' | inr b => mret (inr b) end
  end.

Lemma iter_nat_add n m a s :
  iter_nat (n + m) a s =
    (r ← iter_nat n a; match r with inl a' => iter_nat m a' | inr b => mret (inr b) end) s.
Proof.
  revert a s. induction n as [|n IH]; intros a s; cbn [Nat.add iter_nat]; [by st|].
  st. destruct (body a s) as [[a'|b] s']; cbn [fst snd]; [|by st]. rewrite IH. by st.
Qed.

Lemma iter_pos_nat p a s : iter_pos p a s = iter_nat (Pos.to_nat p) a s.
Proof.
  revert a s. induction p as [p IH|p IH|]; intros a s; cbn [iter_pos].
  - replace (Pos.to_nat p~1) with (Datatypes.S (Pos.to_nat p + Pos.to_nat p)) by lia.
    cbn [iter_nat]. st. destruct (body a s) as [[a'|b] s']; cbn [fst snd]; [|by st].
    rewrite iter_nat_add. st. rewrite IH. destruct (iter_nat _ a' s') as [[] ?]; cbn [fst snd]; [apply IH|done].
  - replace (Pos.to_nat p~0) with (Pos.to_nat p + Pos.to_nat p)%nat by lia.
    rewrite iter_nat_add. st. rewrite IH. destruct (iter_nat _ a s) as [[] ?]; cbn [fst snd]; [apply IH|done].
  - change (Pos.to_nat 1) with 1%nat. cbn [iter_nat]. st. by destruct (body a s) as [[]].
Qed.
End iter.

(** ** The JSON of the membership *)

Inductive JsonValue := JNodes (l : list NodeId) | JU64 (z : Z) | JBool (b : bool).

(** [cj_dump] prints an object with these members, [cj_parse] is
    [json::parse]; [cj_nodes j key], [cj_u64], [cj_bool] are [j.value(key, _)]
    with the default of the source, [None] for an exception. *)
Class ClusterJson := {
  cj : Type;
  cj_dump : list (string * JsonValue) -> bytes;
  cj_parse : bytes -> option cj;
  cj_nodes : cj -> string -> option (list NodeId);
  cj_u64 : cj -> string -> option Z;
  cj_bool : cj -> string -> option bool
}.

(** An object comes back with its members. *)
Class ClusterJsonLaws `{!ClusterJson} := {
  cj_round_trip obj : NoDup obj.*1 ->
    exists j, cj_parse (cj_dump obj) = Some j /\ forall k v, (k, v) ∈ obj ->
      match v with
      | JNodes l => cj_nodes j k = Some l
      | JU64 z => is_u64 z -> cj_u64 j k = Some z
      | JBool b => cj_bool j k = Some b
      end
}.

(** ** Keys *)

Definition kStateTermKey : string := "state:term".
Definition kStateVotedForKey : string := "state:voted_for".
Definition kStateClusterConfigKey : string := "state:cluster_config".
Definition kSnapshotDataKey : string := "snapshot:data".
Definition kSnapshotMetaKey : string := "snapshot:meta".
Definition kSnapshotHashKey : string := "snapshot:hash".
Definition kSnapshotChunkPrefix : string := "snapshot:chunk:".
Definition kSnapshotTmpChunkPrefix : string := "snapshot:tmp:chunk:".

Definition chunk_key (i : Z) : string := kSnapshotChunkPrefix +:+ pretty i.
Definition tmp_key (i : Z) : string := kSnapshotTmpChunkPrefix +:+ pretty i.

(** ** State *)

Inductive CompressionType := kNoCompression | kSnappyCompression.

Definition PersistentState_default : PersistentState :=
  mkPersistentState 0 (-1) [] [] [] 0 false.

#[global] Instance PersistentState_eta : Eta PersistentState := fun r =>
  mkPersistentState (p_current_term r) (p_voted_for r) (p_cluster_nodes r) (p_cluster_old_nodes r)
    (p_cluster_learners r) (p_cluster_version r) (p_cluster_is_joint r).

Record StatePersister (DB : Type) := mkStatePersister {
  (** the database of the directory, and whether [db_] is set *)
  sp_db : DB;
  sp_open : bool;
  sp_cached_state : PersistentState;
  sp_snapshot_last_index : Z;
  sp_snapshot_last_term : Z;
  sp_sync_on_write : bool;
  sp_compression_type : CompressionType
}.
#[global] Instance StatePersister_eta DB : Eta (StatePersister DB) := fun r =>
  mkStatePersister DB (sp_db DB r) (sp_open DB r) (sp_cached_state DB r)
    (sp_snapshot_last_index DB r) (sp_snapshot_last_term DB r) (sp_sync_on_write DB r)
    (sp_compression_type DB r).
Arguments mkStatePersister {DB}.
Arguments sp_db {DB}.
Arguments sp_open {DB}.
Arguments sp_cached_state {DB}.
Arguments sp_snapshot_last_index {DB}.
Arguments sp_snapshot_last_term {DB}.
Arguments sp_sync_on_write {DB}.
Arguments sp_compression_type {DB}.

(** What a chunk provider does: it fills in these chunks, then returns false or
    throws. *)
Record ChunkProvider := mkChunkProvider {
  cp_chunks : list bytes;
  cp_throws : option string
}.

Section state_persister.
Context {DB : Type} `{!LevelDB DB} `{!ClusterJson}.
Notation SP := (StatePersister DB).

Definition StatePersister_new (db : DB) : SP :=
  mkStatePersister db false PersistentState_default 0 0 false kSnappyCompression.

Definition SpSetSyncOnWrite (sync : bool) : State SP unit :=
  updates (fun s => s <| sp_sync_on_write := sync |>).

Definition SpSetCompressionType (type : CompressionType) : State SP unit :=
  updates (fun s => s <| sp_compression_type := type |>).

Definition on_db {A} (m : State DB A) : State SP A := fun s =>
  ((m (sp_db s)).1, s <| sp_db := (m (sp_db s)).2 |>).

Definition sp_not_open : Status := Error1 "StatePersister not open".

(** ** The persistent state *)

(** The assignments of the [try] block: those before an exception stay. *)
Definition load_cluster (j : cj) (c : PersistentState) : PersistentState :=
  match cj_nodes j "nodes" with
  | None => c
  | Some nodes =>
    let c := c <| p_cluster_nodes := nodes |> in
    match cj_nodes j "old_nodes" with
    | None => c
    | Some old_nodes =>
      let c := c <| p_cluster_old_nodes := old_nodes |> in
      match cj_nodes j "learners" with
      | None => c
      | Some learners =>
        let c := c <| p_cluster_learners := learners |> in
        match cj_u64 j "version" with
        | None => c
        | Some version =>
          let c := c <| p_cluster_version := version |> in
          if cj_bool j "is_joint" is Some is_joint then c <| p_cluster_is_joint := is_joint |> else c
        end
      end
    end
  end.

Definition LoadStateFromDB : State SP unit :=
  term_value ← on_db (db_get kStateTermKey);
  let term := if term_value is GFound v then
    if decide (length v = 4%nat) then le_val v else 0 else 0 in
  voted_value ← on_db (db_get kStateVotedForKey);
  let voted_for := if voted_value is GFound v then
    if decide (length v = 4%nat) then i32 (le_val v) else -1 else -1 in
  let c := PersistentState_default <| p_current_term := term |> <| p_voted_for := voted_for |> in
  cluster_value ← on_db (db_get kStateClusterConfigKey);
  let c := if cluster_value is GFound v then
    if cj_parse v is Some j then load_cluster j c else c else c in
  updates (fun s => s <| sp_cached_state := c |>).

Definition SpOpen : State SP Status :=
  o ← reads sp_open;
  if (o : bool) then mret (Error1 "StatePersister already open")
  else
    type ← reads sp_compression_type;
    err ← on_db (db_open (if type is kSnappyCompression then true else false));
    if err is Some what then mret (Error1 ("Failed to open LevelDB: " +:+ what))
    else
      updates (fun s => s <| sp_open := true |>) ;;
      LoadStateFromDB ;;
      mret StOK.

Definition SpClose : State SP unit :=
  o ← reads sp_open;
  whenS o (on_db db_close) ;;
  updates (fun s => s <| sp_open := false |>).

(** [cluster_json]. *)
Definition cluster_json (st : PersistentState) : list (string * JsonValue) :=
  [("nodes", JNodes (p_cluster_nodes st));
   ("old_nodes", JNodes (p_cluster_old_nodes st));
   ("learners", JNodes (p_cluster_learners st));
   ("version", JU64 (p_cluster_version st));
   ("is_joint", JBool (p_cluster_is_joint st))].

Definition state_batch (st : PersistentState) : list BatchOp :=
  [BPut kStateTermKey (le 4 (p_current_term st));
   BPut kStateVotedForKey (le 4 (p_voted_for st));
   BPut kStateClusterConfigKey (cj_dump (cluster_json st))].

Definition SpSaveState (st : PersistentState) : State SP Status :=
  o ← reads sp_open;
  if negb o then mret sp_not_open
  else
    err ← on_db (db_write true (state_batch st));
    if err is Some what then mret (Error1 ("Failed to save state: " +:+ what))
    else
      updates (fun s => s <| sp_cached_state := st |>) ;;
      mret StOK.

(** The second component is the state parameter on return. *)
Definition SpLoadState (st : PersistentState) : State SP (Status * PersistentState) :=
  o ← reads sp_open;
  if negb o then mret (sp_not_open, st)
  else
    c ← reads sp_cached_state;
    mret (StOK, c).

(** ** Whole snapshots *)

Definition set_snapshot (last_index last_term : Z) : State SP unit :=
  updates (fun s => s <| sp_snapshot_last_index := last_index |>
                      <| sp_snapshot_last_term := last_term |>).

Definition SpSaveSnapshot (snapshot_data : bytes) (last_index last_term : Z) : State SP Status :=
  o ← reads sp_open;
  if negb o then mret sp_not_open
  else
    err ← on_db (db_write true
      [BPut kSnapshotDataKey snapshot_data;
       BPut kSnapshotMetaKey (le 8 last_index ++ le 8 last_term);
       BPut kSnapshotHashKey (ComputeSha256 snapshot_data)]);
    if err is Some what then mret (Error1 ("Failed to save snapshot: " +:+ what))
    else set_snapshot last_index last_term ;; mret StOK.

(** The output parameters of the loads. *)
Record SnapshotOut := mkSnapshotOut {
  so_data : bytes;
  so_last_index : Z;
  so_last_term : Z
}.

Definition SpLoadSnapshot (out : SnapshotOut) : State SP (Status * SnapshotOut) :=
  o ← reads sp_open;
  if negb o then mret (sp_not_open, out)
  else
    r ← on_db (db_get kSnapshotDataKey);
    match r with
    | GNotFound => mret (Error1 "No snapshot available", out)
    | GFailed what => mret (Error1 ("Failed to load snapshot: " +:+ what), out)
    | GFound data =>
      r ← on_db (db_get kSnapshotMetaKey);
      let bad := (Error1 "Failed to load snapshot metadata",
                  mkSnapshotOut data (so_last_index out) (so_last_term out)) in
      match r with
      | GNotFound | GFailed _ => mret bad
      | GFound meta =>
        if decide (length meta <> 16%nat) then mret bad
        else
          let li := le_val (take 8 meta) in
          let lt := le_val (take 8 (drop 8 meta)) in
          r ← on_db (db_get kSnapshotHashKey);
          let ok := (StOK, mkSnapshotOut data li lt) in
          match r with
          | GNotFound | GFailed _ => mret ok
          | GFound stored_hash =>
            if decide (length stored_hash = 32%nat) then
              if decide (stored_hash <> ComputeSha256 data) then
                mret (Error1 "Snapshot integrity check failed: SHA-256 mismatch", mkSnapshotOut [] li lt)
              else mret ok
            else mret ok
          end
      end
    end.

(** ** Snapshots in chunks *)

(** The overload for a batch: the deletions it adds. *)
Definition DeleteSnapshotDataLocked : State SP (list BatchOp) :=
  keys ← on_db (db_scan kSnapshotChunkPrefix);
  mret ([BDelete kSnapshotDataKey; BDelete kSnapshotMetaKey; BDelete kSnapshotHashKey] ++
        map BDelete keys).

(** The result of each deletion is not looked at. *)
Definition DeleteSnapshotTempDataLocked : State SP unit :=
  keys ← on_db (db_scan kSnapshotTmpChunkPrefix);
  forS keys (fun k => on_db (db_write false [BDelete k]) ;; mret tt).

(** The loop over the chunks: [inl] the error of a put, else the hash context
    and the number of chunks written. *)
Fixpoint save_chunks (chunks : list bytes) (sha_ctx : Sha256Context) (chunk_index : Z) :
    State SP (string + Sha256Context * Z) :=
  match chunks with
  | [] => mret (inr (sha_ctx, chunk_index))
  | chunk :: rest =>
      if decide (chunk = []) then save_chunks rest sha_ctx chunk_index
      else
        err ← on_db (db_write false [BPut (tmp_key chunk_index) chunk]);
        if err is Some what then mret (inl what)
        else save_chunks rest (Sha256Update sha_ctx chunk) (u32 (chunk_index + 1))
  end.

(** [i] to [i + n - 1]: the operations that move the chunks. *)
Fixpoint move_chunks (n : nat) (i : Z) (batch : list BatchOp) : State SP (string + list BatchOp) :=
  match n with
  | O => mret (inr batch)
  | S n' =>
      r ← on_db (db_get (tmp_key i));
      match r with
      | GFound chunk_data =>
          move_chunks n' (i + 1) (batch ++ [BPut (chunk_key i) chunk_data; BDelete (tmp_key i)])
      | GNotFound => mret (inl "NotFound: ")
      | GFailed what => mret (inl what)
      end
  end.

Definition SpSaveSnapshotStream (provider : ChunkProvider) (last_index last_term : Z) :
    State SP Status :=
  o ← reads sp_open;
  if negb o then mret sp_not_open
  else
    DeleteSnapshotTempDataLocked ;;
    r ← save_chunks (cp_chunks provider) Sha256Init 0;
    match r with
    | inl what =>
        DeleteSnapshotTempDataLocked ;;
        mret (Error1 ("Failed to save snapshot chunk: " +:+ what))
    | inr (sha_ctx, chunk_index) =>
      if cp_throws provider is Some what then
        DeleteSnapshotTempDataLocked ;;
        mret (Error1 ("Snapshot chunk provider failed: " +:+ what))
      else if decide (chunk_index = 0) then
        batch ← DeleteSnapshotDataLocked;
        err ← on_db (db_write true batch);
        if err is Some what then mret (Error1 ("Failed to clear old snapshot: " +:+ what))
        else set_snapshot 0 0 ;; mret StOK
      else
        batch ← DeleteSnapshotDataLocked;
        let meta := le 8 last_index ++ le 8 last_term ++ le 4 chunk_index in
        let batch := batch ++ [BPut kSnapshotMetaKey meta; BPut kSnapshotHashKey (Sha256Final sha_ctx)] in
        r ← move_chunks (Z.to_nat chunk_index) 0 batch;
        match r with
        | inl what =>
            DeleteSnapshotTempDataLocked ;;
            mret (Error1 ("Failed to read temp snapshot chunk: " +:+ what))
        | inr batch =>
            err ← on_db (db_write true batch);
            if err is Some what then
              DeleteSnapshotTempDataLocked ;;
              mret (Error1 ("Failed to commit snapshot: " +:+ what))
            else set_snapshot last_index last_term ;; mret StOK
        end
    end.

(** One round of the [while (true)] of the load, with the chunks consumed so
    far: [inr] is the loop left by a [break] ([None]) or by an error. *)
Definition load_chunk (chunk_count : option Z) :
    Sha256Context * Z * list bytes ->
    State SP (Sha256Context * Z * list bytes + option string * Sha256Context * list bytes) :=
  fun '(sha_ctx, chunk_index, consumed) =>
  if decide (is_Some chunk_count /\ default 0 chunk_count <= chunk_index)
  then mret (inr (None, sha_ctx, consumed))
  else
    r ← on_db (db_get (chunk_key chunk_index));
    match r with
    | GNotFound => mret (inr (None, sha_ctx, consumed))
    | GFailed what => mret (inr (Some what, sha_ctx, consumed))
    | GFound chunk =>
        mret (inl (Sha256Update sha_ctx chunk, u32 (chunk_index + 1), consumed ++ [chunk]))
    end.

(** More rounds than chunk numbers: a loop that comes this far reads the
    numbers again from 0. *)
Definition kMaxLoadRounds : positive := 4294967296.

(** The new format.  The result: the status, the chunks consumed and the output
    parameters; [None] when the loop has not ended after [kMaxLoadRounds]
    rounds. *)
Definition load_new_format (last_index last_term : Z) :
    State SP (option (Status * list bytes * Z * Z)) :=
  r ← on_db (db_get kSnapshotMetaKey);
  let bad := Some (Error1 "Failed to load snapshot metadata", [], last_index, last_term) in
  match r with
  | GNotFound => mret (Some (Error1 "No snapshot available", [], last_index, last_term))
  | GFailed _ => mret bad
  | GFound meta =>
    if decide (length meta <> 16%nat /\ length meta <> 20%nat) then mret bad
    else
      let li := le_val (take 8 meta) in
      let lt := le_val (take 8 (drop 8 meta)) in
      let chunk_count :=
        if decide (length meta = 20%nat) then Some (le_val (take 4 (drop 16 meta))) else None in
      h ← on_db (db_get kSnapshotHashKey);
      let stored_hash := if h is GFound v then v else [] in
      r ← iter_pos (load_chunk chunk_count) kMaxLoadRounds (Sha256Init, 0, []);
      match r with
      | inl _ => mret None
      | inr (Some what, _, consumed) =>
          mret (Some (Error1 ("Failed to load snapshot chunk: " +:+ what), consumed, li, lt))
      | inr (None, sha_ctx, consumed) =>
          if decide (length stored_hash = 32%nat /\ stored_hash <> Sha256Final sha_ctx)
          then mret (Some (Error1 "Snapshot integrity check failed: SHA-256 mismatch", consumed, li, lt))
          else mret (Some (StOK, consumed, li, lt))
      end
  end.

Definition SpLoadSnapshotStream (last_index last_term : Z) :
    State SP (option (Status * list bytes * Z * Z)) :=
  o ← reads sp_open;
  if negb o then mret (Some (sp_not_open, [], last_index, last_term))
  else
    r ← on_db (db_get kSnapshotDataKey);
    match r with
    | GFound old_value =>
        r ← SpLoadSnapshot (mkSnapshotOut old_value last_index last_term);
        let '(status, out) := r in
        let consumed := if status_ok status && bool_decide (so_data out <> []) then [so_data out] else [] in
        mret (Some (status, consumed, so_last_index out, so_last_term out))
    | GNotFound | GFailed _ => load_new_format last_index last_term
    end.

Definition is_found (r : GetResult) : bool := if r is GFound _ then true else false.

Definition SpHasSnapshot : State SP bool :=
  o ← reads sp_open;
  if negb o then mret false
  else
    r ← on_db (db_get kSnapshotDataKey);
    if is_found r then mret true
    else
      r ← on_db (db_get kSnapshotMetaKey);
      mret (is_found r).

Definition GetSnapshotLastIndex : State SP Z := reads sp_snapshot_last_index.
Definition GetSnapshotLastTerm : State SP Z := reads sp_snapshot_last_term.
End state_persister.
