(* ===== verification/StateDurable.v ===== *)
(** * The state persister across crashes

    What a start after a crash finds of the persistent state and of a snapshot
    saved in chunks: the state of the last save that succeeded, and the old or
    the new snapshot as a whole. *)

From S2P Require Import Prelude Types Bytes Disk Sha256 LevelDb StatePersister.

(** ** Keys *)

Lemma prefix_append p s : String.prefix p (p +:+ s) = true.
Proof.
  induction p as [|a p IH]; simpl; [by destruct s|]. case_match; [apply IH|done].
Qed.

Definition is_chunk (k : string) : Prop := String.prefix kSnapshotChunkPrefix k = true.
Definition is_tmp (k : string) : Prop := String.prefix kSnapshotTmpChunkPrefix k = true.
Definition is_snapshot (k : string) : Prop :=
  k = kSnapshotDataKey \/ k = kSnapshotMetaKey \/ k = kSnapshotHashKey \/ is_chunk k.

Lemma chunk_key_is i : is_chunk (chunk_key i).
Proof. apply prefix_append. Qed.
Lemma tmp_key_is i : is_tmp (tmp_key i).
Proof. apply prefix_append. Qed.
#[export] Hint Resolve chunk_key_is tmp_key_is : core.

Lemma chunk_key_inj i j : chunk_key i = chunk_key j -> i = j.
Proof. unfold chunk_key. by intros ?%(inj _)%(inj pretty). Qed.
Lemma tmp_key_inj i j : tmp_key i = tmp_key j -> i = j.
Proof. unfold tmp_key. by intros ?%(inj _)%(inj pretty). Qed.

Lemma chunk_not_tmp k : is_chunk k -> ~ is_tmp k.
Proof.
  unfold is_chunk, is_tmp, kSnapshotChunkPrefix, kSnapshotTmpChunkPrefix. intros H1 H2.
  do 10 (destruct k as [|? k]; [done|]; simpl in H1, H2;
         repeat (case_match; [|done]); subst; try done).
Qed.

Lemma snapshot_not_tmp k : is_snapshot k -> ~ is_tmp k.
Proof. intros [->|[->|[->|H]]]; [done..|]. by apply chunk_not_tmp. Qed.

(** ** Operations that only write temporary chunks *)

Section durable.
Context {DB : Type} `{!LevelDB DB} `{!LevelDBLaws DB} `{!ClusterJson}.
Notation SP := (StatePersister DB).
Notation maps := (gmap string bytes).

Definition tmp_closed (Q : maps -> Prop) : Prop :=
  forall m o, Q m -> is_tmp (batch_key o) -> Q (apply_op m o).

Definition tmp_only (s s' : SP) : Prop :=
  (exists d, s' = s <| sp_db := d |>) /\
  forall Q, tmp_closed Q ->
    (all_maps Q (sp_db s) -> all_maps Q (sp_db s')) /\
    (Q (db_map (sp_db s)) -> Q (db_map (sp_db s'))).

#[global] Instance tmp_only_preorder : PreOrder tmp_only.
Proof.
  split.
  - intros s. split; [|done]. exists (sp_db s). by destruct s.
  - intros s1 s2 s3 [[d2 ->] H2] [[d3 ->] H3]. split; [by exists d3|]. intros Q HQ.
    destruct (H2 Q HQ), (H3 Q HQ). auto.
Qed.

Lemma on_db_run {A} (m : State DB A) (s : SP) :
  on_db m s = ((m (sp_db s)).1, s <| sp_db := (m (sp_db s)).2 |>).
Proof. done. Qed.

Lemma tmp_only_get k (s : SP) : tmp_only s (s <| sp_db := (db_get k (sp_db s)).2 |>).
Proof. split; [by eexists|]. intros Q _. split; [apply all_maps_get|]. proj_simp. by rewrite get_map. Qed.

Lemma tmp_only_scan p (s : SP) : tmp_only s (s <| sp_db := (db_scan p (sp_db s)).2 |>).
Proof. split; [by eexists|]. intros Q _. split; [apply all_maps_scan|]. proj_simp. by rewrite scan_map. Qed.

Lemma tmp_only_write b o (s : SP) :
  is_tmp (batch_key o) -> tmp_only s (s <| sp_db := (db_write b [o] (sp_db s)).2 |>).
Proof.
  intros Ho. split; [by eexists|]. intros Q HQ. split.
  - intros Hs. apply all_maps_write; [done|]. intros Hm. by apply HQ.
  - intros Hm. proj_simp. rewrite write_map. destruct (db_write b [o] (sp_db s)).1; [done|]. by apply HQ.
Qed.

(** Keys other than the temporary chunks read the same. *)
Definition agree (m m0 : maps) : Prop := forall k, ~ is_tmp k -> m !! k = m0 !! k.

Lemma agree_closed m0 : tmp_closed (fun m => agree m m0).
Proof.
  intros m o Hm Ho k Hk. rewrite <- (Hm k Hk).
  assert (batch_key o <> k) by (by intros <-). destruct o; simpl in *.
  - by apply lookup_insert_ne.
  - by apply lookup_delete_ne.
Qed.

(** The maps the next start can find, and the current one. *)
Definition found (s : SP) (m : maps) : Prop := m = db_map (sp_db s) \/ survives (sp_db s) m.

Lemma found_all Q s : all_maps Q (sp_db s) <-> forall m, found s m -> Q m.
Proof.
  split; [intros [? ?] m [->|]; auto|]. intros Hq. split; [by apply Hq; left|]. intros m ?. apply Hq. by right.
Qed.

Lemma tmp_only_found s s' m : tmp_only s s' -> found s' m -> exists m0, found s m0 /\ agree m m0.
Proof.
  intros [_ Hq]. revert m. rewrite <- (found_all (fun m => exists m0, found s m0 /\ agree m m0)).
  apply Hq.
  - intros m o (m0 & Hf & Ha) Ho. exists m0. split; [done|]. by apply agree_closed.
  - apply found_all. intros m Hm. by exists m.
Qed.

Lemma delete_keys_tmp_only keys (s : SP) :
  Forall is_tmp keys ->
  tmp_only s (forS keys (fun k => on_db (db_write false [BDelete k]) ;; mret tt) s).2.
Proof.
  intros Hk. revert s. induction Hk as [|k ks Hk _ IH]; intros s; [done|].
  cbn [forS]. st. rewrite on_db_run. cbn [fst snd].
  etrans; [by apply (tmp_only_write false (BDelete k))|]. apply IH.
Qed.

Lemma DeleteTemp_tmp_only (s : SP) : tmp_only s (DeleteSnapshotTempDataLocked s).2.
Proof.
  unfold DeleteSnapshotTempDataLocked. rewrite st_bind, on_db_run. cbn [fst snd].
  etrans; [apply (tmp_only_scan kSnapshotTmpChunkPrefix)|]. apply delete_keys_tmp_only, scan_keys.
Qed.

(** ** Writing and moving the chunks *)

Definition nonempty (chunks : list bytes) : list bytes := filter (fun c => c <> []) chunks.

(** The temporary keys from [i] on hold [cs]. *)
Definition tmp_holds (i : Z) (cs : list bytes) (m : maps) : Prop :=
  forall j c, cs !! j = Some c -> m !! tmp_key (i + Z.of_nat j) = Some c.

Lemma save_chunks_spec chunks : forall ctx pre (s : SP),
  sha_after ctx (concat pre) -> tmp_holds 0 pre (db_map (sp_db s)) ->
  Z.of_nat (length pre + length chunks) <= UINT32_MAX ->
  tmp_only s (save_chunks chunks ctx (Z.of_nat (length pre)) s).2 /\
  forall ctx' n, (save_chunks chunks ctx (Z.of_nat (length pre)) s).1 = inr (ctx', n) ->
    n = Z.of_nat (length (pre ++ nonempty chunks)) /\
    sha_after ctx' (concat (pre ++ nonempty chunks)) /\
    tmp_holds 0 (pre ++ nonempty chunks) (db_map (sp_db (save_chunks chunks ctx (Z.of_nat (length pre)) s).2)).
Proof.
  induction chunks as [|c cs IH]; intros ctx pre s Hs Ht Hl; cbn [save_chunks].
  { st. split; [done|]. intros ctx' n [= <- <-]. unfold nonempty. simpl. by rewrite app_nil_r. }
  unfold nonempty. rewrite filter_cons. simpl in Hl. case_decide as Hc.
  { rewrite decide_False by auto. apply IH; [done..|lia]. }
  rewrite decide_True by done. rewrite st_bind, on_db_run. cbn [fst snd].
  set (o := BPut (tmp_key (Z.of_nat (length pre))) c).
  assert (Hw : tmp_only s (s <| sp_db := (db_write false [o] (sp_db s)).2 |>)) by apply tmp_only_write, tmp_key_is.
  destruct (db_write false [o] (sp_db s)).1 as [what|] eqn:Eo; st; [done|].
  replace (u32 (Z.of_nat (length pre) + 1)) with (Z.of_nat (length (pre ++ [c])))
    by (rewrite length_app; unfold u32, UINT32_MAX in *; simpl; rewrite Z.mod_small; lia).
  destruct (IH (Sha256Update ctx c) (pre ++ [c]) (s <| sp_db := (db_write false [o] (sp_db s)).2 |>))
    as [IH1 IH2].
  - rewrite concat_app. simpl. rewrite app_nil_r. by apply Sha256Update_after.
  - proj_simp. rewrite write_map, Eo. intros j d Hj. simpl.
    apply lookup_snoc_Some in Hj as [[Hlt Hj]|[-> ->]].
    + rewrite lookup_insert_ne; [by apply Ht|]. intros E%tmp_key_inj. lia.
    + apply lookup_insert_eq.
  - rewrite length_app. simpl. lia.
  - split; [by etrans|]. intros ctx' n En. destruct (IH2 _ _ En) as (-> & H1 & H2).
    by rewrite <- !app_assoc in *.
Qed.
(** The operations that move [cs] from the temporary keys from [i] on. *)
Fixpoint move_ops (i : Z) (cs : list bytes) : list BatchOp :=
  match cs with
  | [] => []
  | c :: cs' => BPut (chunk_key i) c :: BDelete (tmp_key i) :: move_ops (i + 1) cs'
  end.

Lemma move_chunks_spec cs : forall i batch (s : SP),
  tmp_holds i cs (db_map (sp_db s)) ->
  tmp_only s (move_chunks (length cs) i batch s).2 /\
  db_map (sp_db (move_chunks (length cs) i batch s).2) = db_map (sp_db s) /\
  forall b, (move_chunks (length cs) i batch s).1 = inr b -> b = batch ++ move_ops i cs.
Proof.
  induction cs as [|c cs IH]; intros i batch s Ht; cbn [length move_chunks move_ops].
  { st. split_and!; [done..|]. intros b [= <-]. by rewrite app_nil_r. }
  rewrite st_bind, on_db_run. cbn [fst snd].
  assert (Hg := tmp_only_get (tmp_key i) s).
  assert (Hm : db_map (sp_db (s <| sp_db := (db_get (tmp_key i) (sp_db s)).2 |>)) = db_map (sp_db s))
    by apply get_map.
  destruct (db_get (tmp_key i) (sp_db s)).1 as [v| |] eqn:Eg; st; [|by split_and!..].
  apply get_found in Eg. pose proof (Ht 0%nat c eq_refl) as E0. rewrite Z.add_0_r, Eg in E0.
  injection E0 as ->.
  destruct (IH (i + 1) (batch ++ [BPut (chunk_key i) c; BDelete (tmp_key i)])
    (s <| sp_db := (db_get (tmp_key i) (sp_db s)).2 |>)) as (I1 & I2 & I3).
  { intros j d Hj. rewrite Hm. replace (i + 1 + Z.of_nat j) with (i + Z.of_nat (S j)) by lia.
    by apply Ht. }
  split_and!; [by etrans|by rewrite I2|]. intros b Eb. rewrite (I3 b Eb). by rewrite <- app_assoc.
Qed.

Lemma move_ops_keys i cs o : o ∈ move_ops i cs -> is_chunk (batch_key o) \/ is_tmp (batch_key o).
Proof.
  revert i. induction cs as [|c cs IH]; intros i; cbn [move_ops]; [by rewrite elem_of_nil|].
  rewrite !elem_of_cons. intros [->|[->|Ho]]; [left; apply chunk_key_is|right; apply tmp_key_is|eauto].
Qed.

Lemma move_ops_other i cs m k :
  ~ is_chunk k -> ~ is_tmp k -> apply_batch (move_ops i cs) m !! k = m !! k.
Proof.
  intros H1 H2. apply apply_batch_other. intros (o & -> & Ho)%list_elem_of_fmap.
  by destruct (move_ops_keys i cs o Ho).
Qed.

Lemma move_ops_before i cs m j :
  j < i -> apply_batch (move_ops i cs) m !! chunk_key j = m !! chunk_key j.
Proof.
  revert i m. induction cs as [|c cs IH]; intros i m Hj; [done|].
  cbn [move_ops apply_batch foldl]. change (foldl apply_op ?x ?y) with (apply_batch y x).
  rewrite IH by lia. simpl. rewrite lookup_delete_ne, lookup_insert_ne; [done|..].
  - intros ?%chunk_key_inj. lia.
  - intros E. apply (chunk_not_tmp (chunk_key j)); [done|]. by rewrite <- E.
Qed.

Lemma move_ops_chunk i cs m j c :
  cs !! j = Some c -> apply_batch (move_ops i cs) m !! chunk_key (i + Z.of_nat j) = Some c.
Proof.
  revert i m j. induction cs as [|c' cs IH]; intros i m j Hj; [done|].
  cbn [move_ops apply_batch foldl]. change (foldl apply_op ?x ?y) with (apply_batch y x).
  destruct j as [|j]; simpl in Hj.
  - injection Hj as ->. rewrite Z.add_0_r, move_ops_before by lia. simpl.
    rewrite lookup_delete_ne; [apply lookup_insert_eq|].
    intros E. apply (chunk_not_tmp (chunk_key i)); [done|]. by rewrite <- E.
  - replace (i + Z.of_nat (S j)) with (i + 1 + Z.of_nat j) by lia. by apply IH.
Qed.

(** ** The stored snapshot *)

Definition snapshot_meta (cs : list bytes) (last_index last_term : Z) : bytes :=
  le 8 last_index ++ le 8 last_term ++ le 4 (Z.of_nat (length cs)).

(** The snapshot of [m] is the chunks [cs], or none when there are none. *)
Definition stores (m : maps) (cs : list bytes) (last_index last_term : Z) : Prop :=
  m !! kSnapshotDataKey = None /\
  (if decide (cs = []) then m !! kSnapshotMetaKey = None /\ m !! kSnapshotHashKey = None
   else m !! kSnapshotMetaKey = Some (snapshot_meta cs last_index last_term) /\
        m !! kSnapshotHashKey = Some (sha256 (concat cs))) /\
  forall j c, cs !! j = Some c -> m !! chunk_key (Z.of_nat j) = Some c.

(** Other keys than those of the snapshot and the temporary ones. *)
Definition same_rest (m m0 : maps) : Prop :=
  forall k, ~ is_tmp k -> ~ is_snapshot k -> m !! k = m0 !! k.

Definition delete_ops (keys : list string) : list BatchOp :=
  [BDelete kSnapshotDataKey; BDelete kSnapshotMetaKey; BDelete kSnapshotHashKey] ++ map BDelete keys.

Lemma delete_keys_other keys m k : k ∉ keys -> apply_batch (map BDelete keys) m !! k = m !! k.
Proof.
  intros Hk. apply apply_batch_other. rewrite list_elem_of_fmap. intros (o & -> & Ho).
  apply list_elem_of_fmap in Ho as (k' & -> & Hk'). done.
Qed.

Lemma swap_stores keys cs li lt m :
  Forall is_chunk keys ->
  let head := if decide (cs = []) then [] else
    [BPut kSnapshotMetaKey (snapshot_meta cs li lt); BPut kSnapshotHashKey (sha256 (concat cs))] in
  let m' := apply_batch (delete_ops keys ++ head ++ move_ops 0 cs) m in
  stores m' cs li lt /\ same_rest m' m.
Proof.
  intros Hk head m'. rewrite list.Forall_forall in Hk.
  assert (Hm : forall k, ~ is_chunk k -> ~ is_tmp k -> m' !! k =
    apply_batch head (delete kSnapshotHashKey (delete kSnapshotMetaKey (delete kSnapshotDataKey m))) !! k).
  { intros k H1 H2. unfold m'. rewrite !apply_batch_app, move_ops_other by done.
    unfold delete_ops. cbn [app apply_batch foldl apply_op].
    change (foldl apply_op ?x ?y) with (apply_batch y x).
    destruct (decide (k ∈ map batch_key head)) as [Hin|Hnin].
    - subst head. case_decide; [by apply elem_of_nil in Hin|]. simpl.
      apply elem_of_cons in Hin as [->|Hin%list_elem_of_singleton]; [|subst k]; simpl.
      + by rewrite !(lookup_insert_ne _ kSnapshotHashKey), !lookup_insert_eq by done.
      + by rewrite !lookup_insert_eq.
    - rewrite !(apply_batch_other head) by done. apply delete_keys_other. by intros ?%Hk. }
  assert (Hin : forall k, is_snapshot k -> ~ is_chunk k -> m' !! k =
    apply_batch head (delete kSnapshotHashKey (delete kSnapshotMetaKey (delete kSnapshotDataKey m))) !! k)
    by (intros k H1 H2; apply Hm; [done|by apply snapshot_not_tmp]).
  unfold stores, same_rest. split_and!.
  - rewrite Hin by (try (by left); done). unfold head. case_decide; simpl.
    + by rewrite 2!lookup_delete_ne, lookup_delete_eq by done.
    + by rewrite 2!lookup_insert_ne, 2!lookup_delete_ne, lookup_delete_eq by done.
  - rewrite !Hin by (try (by right; left); try (by right; right; left); done).
    unfold head. case_decide; simpl; split.
    + by rewrite lookup_delete_ne, lookup_delete_eq by done.
    + by rewrite lookup_delete_eq.
    + by rewrite lookup_insert_ne, lookup_insert_eq by done.
    + by rewrite lookup_insert_eq.
  - intros j c Hj. unfold m'. rewrite app_assoc, apply_batch_app. by apply (move_ops_chunk 0).
  - intros k H1 H2. unfold is_snapshot in H2. rewrite Hm by naive_solver. unfold head. case_decide; simpl.
    + by rewrite !lookup_delete_ne by naive_solver.
    + by rewrite !lookup_insert_ne, !lookup_delete_ne by naive_solver.
Qed.
Lemma tmp_only_agree s s' : tmp_only s s' -> agree (db_map (sp_db s')) (db_map (sp_db s)).
Proof.
  intros [_ Hq]. by apply (proj2 (Hq (fun m => agree m (db_map (sp_db s))) (agree_closed _))).
Qed.

Lemma agree_trans m1 m2 m3 : agree m1 m2 -> agree m2 m3 -> agree m1 m3.
Proof. intros A1 A2 k Hk. by rewrite (A1 k Hk), (A2 k Hk). Qed.

Lemma stores_agree m m' cs li lt : agree m' m -> stores m cs li lt -> stores m' cs li lt.
Proof.
  intros Ha (H1 & H2 & H3). unfold stores.
  rewrite !(fun k H => Ha k (snapshot_not_tmp k H)) by (unfold is_snapshot; auto).
  split_and!; [done..|]. intros j c Hj. rewrite (Ha _ (chunk_not_tmp _ (chunk_key_is _))). auto.
Qed.

Lemma same_rest_agree m m1 m0 : same_rest m m1 -> agree m1 m0 -> same_rest m m0.
Proof. intros H1 H2 k Hk Hs. by rewrite (H1 k Hk Hs), (H2 k Hk). Qed.

Lemma agree_same_rest m m1 m0 : agree m m1 -> same_rest m1 m0 -> same_rest m m0.
Proof. intros H1 H2 k Hk Hs. by rewrite (H1 k Hk), (H2 k Hk Hs). Qed.

(** What a save leaves: every map that can be found is an old one or the new
    one, as a whole; after a success only the new one. *)
Definition swapped (s s' : SP) (status : Status) (cs : list bytes) (li lt : Z) : Prop :=
  (forall m, found s' m -> exists m0, found s m0 /\
     (agree m m0 \/ stores m cs li lt /\ same_rest m m0)) /\
  if status_ok status then forall m, found s' m -> stores m cs li lt
  else agree (db_map (sp_db s')) (db_map (sp_db s)).

Lemma swapped_tmp s s' status cs li lt :
  tmp_only s s' -> status_ok status = false -> swapped s s' status cs li lt.
Proof.
  intros Ht Hs. split.
  - intros m (m0 & H1 & H2)%(tmp_only_found _ _ _ Ht). eauto.
  - rewrite Hs. by apply tmp_only_agree.
Qed.

Section commit.
Context (s s1 : SP) (keys : list string) (cs : list bytes) (li lt : Z).
Context (Ht : tmp_only s s1) (Hk : Forall is_chunk keys).
Let head := if decide (cs = []) then [] else
    [BPut kSnapshotMetaKey (snapshot_meta cs li lt); BPut kSnapshotHashKey (sha256 (concat cs))].
Let ops := delete_ops keys ++ head ++ move_ops 0 cs.
Let s2 := s1 <| sp_db := (db_write true ops (sp_db s1)).2 |>.

Lemma commit_stores : stores (apply_batch ops (db_map (sp_db s1))) cs li lt /\
  same_rest (apply_batch ops (db_map (sp_db s1))) (db_map (sp_db s)).
Proof.
  destruct (swap_stores keys cs li lt (db_map (sp_db s1)) Hk) as [H1 H2]. split; [done|].
  eapply same_rest_agree; [exact H2|]. by apply tmp_only_agree.
Qed.

Lemma commit_found m : found s2 m -> exists m0, found s m0 /\
  (agree m m0 \/ stores m cs li lt /\ same_rest m m0).
Proof.
  assert (Hnew : exists m0, found s m0 /\ (agree (apply_batch ops (db_map (sp_db s1))) m0 \/
    stores (apply_batch ops (db_map (sp_db s1))) cs li lt /\
    same_rest (apply_batch ops (db_map (sp_db s1))) m0)).
  { exists (db_map (sp_db s)). split; [by left|]. right. apply commit_stores. }
  assert (Hold : forall m, found s1 m -> exists m0, found s m0 /\
    (agree m m0 \/ stores m cs li lt /\ same_rest m m0)).
  { intros m' (m0 & H1 & H2)%(tmp_only_found _ _ _ Ht). eauto. }
  unfold s2. intros [->|Hm].
  - proj_simp. rewrite write_map. destruct (db_write true ops (sp_db s1)).1; [|done].
    apply Hold. by left.
  - proj_simp in Hm. apply write_survives in Hm as [Hm| ->]; [|done]. apply Hold. by right.
Qed.

Lemma commit_ok status :
  (db_write true ops (sp_db s1)).1 = None -> status_ok status = true ->
  forall s3, sp_db s3 = sp_db s2 -> swapped s s3 status cs li lt.
Proof.
  intros Ho Hs s3 E. unfold swapped, found. rewrite E. fold (found s2). split; [apply commit_found|]. rewrite Hs.
  apply (found_all (fun m => stores m cs li lt)). unfold s2. proj_simp.
  apply all_maps_synced; [done|]. apply commit_stores.
Qed.

Lemma commit_failed status what s3 :
  (db_write true ops (sp_db s1)).1 = Some what -> status_ok status = false -> tmp_only s2 s3 ->
  swapped s s3 status cs li lt.
Proof.
  intros Ho Hs H3. split.
  - intros m (m2 & [m0 [Hm0 H2]]%commit_found & Ha)%(tmp_only_found _ _ _ H3). exists m0.
    split; [done|]. destruct H2 as [H2|[H2 H4]]; [left; by eapply agree_trans|right].
    split; [by eapply stores_agree|by eapply agree_same_rest].
  - rewrite Hs. eapply agree_trans; [by apply tmp_only_agree|]. unfold s2. proj_simp.
    rewrite write_map, Ho. by apply tmp_only_agree.
Qed.
End commit.

Lemma DeleteData_spec (s : SP) : exists keys,
  Forall is_chunk keys /\ (DeleteSnapshotDataLocked s).1 = delete_ops keys /\
  tmp_only s (DeleteSnapshotDataLocked s).2 /\
  db_map (sp_db (DeleteSnapshotDataLocked s).2) = db_map (sp_db s).
Proof.
  exists (db_scan kSnapshotChunkPrefix (sp_db s)).1. unfold DeleteSnapshotDataLocked. st.
  rewrite on_db_run. cbn [fst snd]. split_and!; [apply scan_keys|done|apply tmp_only_scan|].
  proj_simp. apply scan_map.
Qed.

Lemma save_stream_spec (s : SP) p li lt :
  Z.of_nat (length (cp_chunks p)) <= UINT32_MAX ->
  swapped s (SpSaveSnapshotStream p li lt s).2 (SpSaveSnapshotStream p li lt s).1
    (nonempty (cp_chunks p)) li lt /\
  (status_ok (SpSaveSnapshotStream p li lt s).1 = true ->
   sp_open (SpSaveSnapshotStream p li lt s).2 = true).
Proof.
  intros Hl. unfold SpSaveSnapshotStream. rewrite st_bind, st_reads. cbn [fst snd].
  destruct (sp_open s) eqn:Eo; cbn [negb]; [|by split; [apply swapped_tmp|]].
  rewrite st_bind. set (s1 := (DeleteSnapshotTempDataLocked s).2).
  assert (T1 : tmp_only s s1) by apply DeleteTemp_tmp_only.
  rewrite st_bind. destruct (save_chunks_spec (cp_chunks p) Sha256Init [] s1) as [T2 H2];
    [apply sha_after_init|done|simpl; lia|].
  change (Z.of_nat (length [])) with 0 in *. cbn [app] in H2.
  set (s2 := (save_chunks (cp_chunks p) Sha256Init 0 s1).2) in *.
  assert (T12 : tmp_only s s2) by by etrans.
  destruct (save_chunks (cp_chunks p) Sha256Init 0 s1).1 as [what|[ctx n]] eqn:E2.
  { st. split; [|done]. apply swapped_tmp; [|done]. etrans; [exact T12|apply DeleteTemp_tmp_only]. }
  destruct (H2 _ _ eq_refl) as (-> & Hsha & Htmp). set (cs := nonempty (cp_chunks p)) in *.
  destruct (cp_throws p) as [what|].
  { st. split; [|done]. apply swapped_tmp; [|done]. etrans; [exact T12|apply DeleteTemp_tmp_only]. }
  destruct (DeleteData_spec s2) as (keys & Hk & Ek & T3 & M3).
  assert (T13 : tmp_only s (DeleteSnapshotDataLocked s2).2) by by etrans.
  set (s3 := (DeleteSnapshotDataLocked s2).2) in *.
  assert (Ho3 : sp_open s3 = true) by (destruct T13 as [[d ->] _]; done).
  case_decide as Hn; rewrite st_bind, Ek; fold s3.
  - assert (E : cs = []) by (destruct cs; [done|simpl in Hn; lia]). clearbody cs. subst cs.
    pose proof (commit_ok s s3 keys [] li lt T13 Hk) as Hok.
    pose proof (commit_failed s s3 keys [] li lt T13 Hk) as Hbad.
    cbn [app move_ops] in Hok, Hbad. rewrite decide_True in Hok, Hbad by done.
    rewrite !app_nil_r in Hok, Hbad.
    rewrite st_bind, on_db_run. cbn [fst snd].
    destruct (db_write true (delete_ops keys) (sp_db s3)).1 as [what|] eqn:Ew; st.
    + split; [|done]. by eapply Hbad.
    + split; [|by unfold set_snapshot; st]. by eapply Hok.
  - rewrite st_bind.
    assert (Hcs : cs <> []) by (intros E; by rewrite E in Hn).
    destruct (move_chunks_spec cs 0 (delete_ops keys ++
      [BPut kSnapshotMetaKey (snapshot_meta cs li lt); BPut kSnapshotHashKey (Sha256Final ctx)]) s3)
      as (T4 & M4 & H4); [by rewrite M3|].
    rewrite Nat2Z.id. fold (snapshot_meta cs li lt). set (mv := move_chunks _ _ _ s3) in *.
    assert (T14 : tmp_only s mv.2) by by etrans.
    destruct mv.1 as [what|batch] eqn:Em.
    { st. split; [|done]. apply swapped_tmp; [|done]. etrans; [exact T14|apply DeleteTemp_tmp_only]. }
    rewrite (H4 _ eq_refl), (Sha256Final_after _ _ Hsha).
    pose proof (commit_ok s mv.2 keys cs li lt T14 Hk) as Hok.
    pose proof (commit_failed s mv.2 keys cs li lt T14 Hk) as Hbad.
    rewrite decide_False in Hok, Hbad by done. rewrite <- app_assoc.
    rewrite st_bind, on_db_run. cbn [fst snd].
    assert (Ho4 : sp_open mv.2 = true) by (destruct T14 as [[d ->] _]; done).
    destruct (db_write true _ (sp_db mv.2)).1 as [what|] eqn:Ew; st.
    + split; [|done]. eapply Hbad; [done..|]. apply DeleteTemp_tmp_only.
    + split; [|by unfold set_snapshot; st]. by eapply Hok.
Qed.

(** ** Loading the chunks *)

Lemma on_db_get_map k (s : SP) : db_map (sp_db (on_db (db_get k) s).2) = db_map (sp_db s).
Proof. rewrite on_db_run. cbn [snd]. proj_simp. apply get_map. Qed.

Lemma on_db_get_open k (s : SP) : sp_open (on_db (db_get k) s).2 = sp_open s.
Proof. done. Qed.

(** A read of a key that is there: its value or an error. *)
Lemma on_db_get_some k (s : SP) v :
  db_map (sp_db s) !! k = Some v ->
  (on_db (db_get k) s).1 = GFound v \/
  exists what, (on_db (db_get k) s).1 = GFailed what /\ ~ db_healthy (sp_db s).
Proof.
  intros Hv. rewrite on_db_run. cbn [fst].
  destruct (db_get k (sp_db s)).1 as [w| |what] eqn:E.
  - apply get_found in E. left. congruence.
  - apply get_not_found in E. congruence.
  - right. exists what. split; [done|]. intros [Hh _]%(healthy_get k). by apply (Hh what).
Qed.

Lemma on_db_get_none k (s : SP) :
  db_map (sp_db s) !! k = None -> is_found (on_db (db_get k) s).1 = false.
Proof.
  intros Hv. rewrite on_db_run. cbn [fst].
  destruct (db_get k (sp_db s)).1 as [w| |what] eqn:E; [|done..]. apply get_found in E. congruence.
Qed.

Lemma on_db_get_healthy k (s : SP) :
  db_healthy (sp_db s) -> db_healthy (sp_db (on_db (db_get k) s).2).
Proof. intros Hh. rewrite on_db_run. cbn [snd]. proj_simp. by apply healthy_get. Qed.

Lemma load_loop count rest : forall n ctx pre (s : SP),
  count = Z.of_nat (length (pre ++ rest)) -> count <= UINT32_MAX -> (length rest < n)%nat ->
  (forall j c, (pre ++ rest) !! j = Some c -> db_map (sp_db s) !! chunk_key (Z.of_nat j) = Some c) ->
  sha_after ctx (concat pre) ->
  exists err ctx' consumed s',
    iter_nat (load_chunk (Some count)) n (ctx, Z.of_nat (length pre), pre) s =
      (inr (err, ctx', consumed), s') /\
    (err = None -> sha_after ctx' (concat (pre ++ rest)) /\ consumed = pre ++ rest) /\
    (db_healthy (sp_db s) -> err = None).
Proof.
  induction rest as [|c rest IH]; intros n ctx pre s Hc Hu Hn Hm Hs;
    (destruct n as [|n]; [simpl in Hn; lia|]); cbn [iter_nat load_chunk]; rewrite st_bind.
  { rewrite app_nil_r in *. rewrite decide_True by (split; [done|]; simpl; lia). st.
    by exists None, ctx, pre, s. }
  rewrite decide_False by (simpl; rewrite length_app in Hc; simpl in Hc; intros [_ ?]; lia).
  rewrite st_bind.
  assert (E : db_map (sp_db s) !! chunk_key (Z.of_nat (length pre)) = Some c)
    by (by apply Hm, list_lookup_middle).
  destruct (on_db_get_some _ _ _ E) as [->|(what & -> & Hh)]; st; [|by eexists (Some what), _, _, _].
  rewrite length_app in Hc. simpl in Hc, Hn.
  replace (u32 (Z.of_nat (length pre) + 1)) with (Z.of_nat (length (pre ++ [c])))
    by (rewrite length_app; unfold u32, UINT32_MAX in *; simpl; rewrite Z.mod_small; lia).
  destruct (IH n (Sha256Update ctx c) (pre ++ [c]) (on_db (db_get (chunk_key (Z.of_nat (length pre)))) s).2)
    as (err & ctx' & consumed & s' & E1 & E2 & E3).
  - rewrite !length_app. simpl. lia.
  - done.
  - lia.
  - intros j d Hj. rewrite on_db_get_map. apply Hm. by rewrite <- app_assoc in Hj.
  - rewrite concat_app. simpl. rewrite app_nil_r. by apply Sha256Update_after.
  - exists err, ctx', consumed, s'. split; [exact E1|]. rewrite <- app_assoc in E2. split; [exact E2|].
    intros Hh. by apply E3, on_db_get_healthy.
Qed.

Lemma meta_parts cs li lt :
  is_u64 li -> is_u64 lt -> Z.of_nat (length cs) <= UINT32_MAX ->
  let meta := snapshot_meta cs li lt in
  length meta = 20%nat /\ le_val (take 8 meta) = li /\ le_val (take 8 (drop 8 meta)) = lt /\
  le_val (take 4 (drop 16 meta)) = Z.of_nat (length cs).
Proof.
  intros Hi Ht Hc meta. unfold meta, snapshot_meta. split_and!.
  - by rewrite !length_app, !length_le.
  - rewrite take_app_length' by by rewrite length_le. by apply le64.
  - rewrite drop_app_length' by by rewrite length_le. rewrite take_app_length' by by rewrite length_le. by apply le64.
  - rewrite app_assoc, drop_app_length' by (rewrite length_app, !length_le; lia).
    rewrite take_ge by (rewrite length_le; lia). apply le32. unfold is_u32. lia.
Qed.

Lemma kMaxLoadRounds_val : Z.of_nat (Pos.to_nat kMaxLoadRounds) = 4294967296.
Proof. apply positive_nat_Z. Qed.

Lemma load_new_spec (t : SP) cs li lt li0 lt0 :
  cs <> [] -> Z.of_nat (length cs) <= UINT32_MAX -> is_u64 li -> is_u64 lt ->
  stores (db_map (sp_db t)) cs li lt ->
  exists status consumed li' lt' t',
    load_new_format li0 lt0 t = (Some (status, consumed, li', lt'), t') /\
    (status_ok status = true -> consumed = cs /\ li' = li /\ lt' = lt) /\
    (db_healthy (sp_db t) -> status = StOK).
Proof.
  intros Hcs Hl Hi Ht (_ & S2 & S3). rewrite decide_False in S2 by done. destruct S2 as [S2 S2'].
  destruct (meta_parts cs li lt Hi Ht Hl) as (L0 & L1 & L2 & L3).
  unfold load_new_format. rewrite st_bind.
  destruct (on_db_get_some _ _ _ S2) as [->|(what & -> & Hh)]; [|by st; eexists _, _, _, _, _].
  rewrite decide_False by lia. rewrite (decide_True (P := length _ = 20%nat)) by done. rewrite L1, L2, L3.
  set (t1 := (on_db (db_get kSnapshotMetaKey) t).2).
  assert (M1 : db_map (sp_db t1) = db_map (sp_db t)) by apply on_db_get_map.
  assert (H1 : db_healthy (sp_db t) -> db_healthy (sp_db t1)) by apply on_db_get_healthy.
  rewrite !st_bind, iter_pos_nat. generalize kMaxLoadRounds_val. generalize (Pos.to_nat kMaxLoadRounds).
  intros rounds Hr. set (t2 := (on_db (db_get kSnapshotHashKey) t1).2).
  assert (M2 : db_map (sp_db t2) = db_map (sp_db t)) by (unfold t2; by rewrite on_db_get_map).
  assert (H2 : db_healthy (sp_db t) -> db_healthy (sp_db t2)) by (intros; by apply on_db_get_healthy, H1).
  destruct (load_loop (Z.of_nat (length cs)) cs rounds Sha256Init [] t2)
    as (err & ctx & consumed & t' & E1 & E2 & E3).
  { done. } { done. } { unfold UINT32_MAX in *. lia. }
  { intros j c Hj. rewrite M2. by apply S3. }
  { apply sha_after_init. }
  change (Z.of_nat (length [])) with 0 in E1. rewrite E1. cbn [fst snd].
  destruct err as [what|]; st.
  { eexists _, _, _, _, _. split; [done|]. split; [done|]. intros Hh. by apply H2, E3 in Hh. }
  destruct (E2 eq_refl) as [Hsha ->]. cbn [app] in *. rewrite (Sha256Final_after _ _ Hsha).
  rewrite <- M1 in S2'. rewrite decide_False; [by eexists _, _, _, _, _|].
  destruct (on_db_get_some _ _ _ S2') as [->|(what & -> & _)]; intros [? ?]; done.
Qed.

Lemma load_stream_spec (t : SP) cs li lt li0 lt0 :
  sp_open t = true -> cs <> [] -> Z.of_nat (length cs) <= UINT32_MAX -> is_u64 li -> is_u64 lt ->
  stores (db_map (sp_db t)) cs li lt ->
  exists status consumed li' lt' t',
    SpLoadSnapshotStream li0 lt0 t = (Some (status, consumed, li', lt'), t') /\
    (status_ok status = true -> consumed = cs /\ li' = li /\ lt' = lt) /\
    (db_healthy (sp_db t) -> status = StOK).
Proof.
  intros Ho Hcs Hl Hi Ht Hs. unfold SpLoadSnapshotStream. rewrite st_bind, st_reads. cbn [fst snd].
  rewrite Ho. cbn [negb]. rewrite st_bind.
  pose proof (on_db_get_none _ _ (proj1 Hs)) as E1.
  rewrite <- (on_db_get_map kSnapshotDataKey) in Hs.
  destruct (load_new_spec _ cs li lt li0 lt0 Hcs Hl Hi Ht Hs) as (st' & co & li' & lt' & t' & R1 & R2 & R3).
  exists st', co, li', lt', t'. split_and!; [|done|intros; by apply R3, on_db_get_healthy].
  by destruct (on_db (db_get kSnapshotDataKey) t).1.
Qed.

(** ** The persistent state *)

Definition state_fits (st : PersistentState) : Prop :=
  is_u32 (p_current_term st) /\ -2147483648 <= p_voted_for st < 2147483648 /\
  is_u64 (p_cluster_version st).

(** [m] holds the state [st]: its three keys, or none of them for the default. *)
Definition holds_state (m : maps) (st : PersistentState) : Prop :=
  state_fits st /\
  (m !! kStateTermKey = Some (le 4 (p_current_term st)) /\
   m !! kStateVotedForKey = Some (le 4 (p_voted_for st)) /\
   m !! kStateClusterConfigKey = Some (cj_dump (cluster_json st)) \/
   st = PersistentState_default /\ m !! kStateTermKey = None /\ m !! kStateVotedForKey = None /\
   m !! kStateClusterConfigKey = None).

Lemma holds_state_batch m st : state_fits st -> holds_state (apply_batch (state_batch st) m) st.
Proof.
  intros Hf. split; [done|]. left. cbn [apply_batch foldl apply_op state_batch]. split_and!.
  - by rewrite 2!lookup_insert_ne, lookup_insert_eq by done.
  - by rewrite lookup_insert_ne, lookup_insert_eq by done.
  - by rewrite lookup_insert_eq.
Qed.

Lemma holds_state_same m m0 st : same_rest m m0 -> holds_state m0 st -> holds_state m st.
Proof.
  intros Hr. unfold holds_state.
  by rewrite !Hr by (first [done | unfold is_snapshot, is_chunk; intros [|[|[|]]]; done]).
Qed.

Lemma i32_le4 z : -2147483648 <= z < 2147483648 -> i32 (le_val (le 4 z)) = z.
Proof.
  intros Hz. rewrite le_val_le. change (256 ^ Z.of_nat 4) with 4294967296. unfold i32.
  rewrite Zmod_mod. destruct (decide (0 <= z)) as [Hp|Hn].
  - rewrite Z.mod_small by lia. rewrite decide_True by lia. done.
  - rewrite <- (Z.mod_add z 1) by lia. rewrite Z.mod_small by lia. rewrite decide_False by lia. lia.
Qed.

Lemma load_cluster_json `{!ClusterJsonLaws} st t v :
  is_u64 (p_cluster_version st) ->
  exists j, cj_parse (cj_dump (cluster_json st)) = Some j /\
    load_cluster j (PersistentState_default <| p_current_term := t |> <| p_voted_for := v |>) =
      st <| p_current_term := t |> <| p_voted_for := v |>.
Proof.
  intros Hv. destruct (cj_round_trip (cluster_json st)) as (j & Hj & Hm).
  { simpl. repeat constructor; set_solver. }
  exists j. split; [done|]. unfold load_cluster.
  rewrite (Hm "nodes" (JNodes (p_cluster_nodes st)) ltac:(set_solver)).
  rewrite (Hm "old_nodes" (JNodes (p_cluster_old_nodes st)) ltac:(set_solver)).
  rewrite (Hm "learners" (JNodes (p_cluster_learners st)) ltac:(set_solver)).
  rewrite (Hm "version" (JU64 (p_cluster_version st)) ltac:(set_solver) Hv).
  rewrite (Hm "is_joint" (JBool (p_cluster_is_joint st)) ltac:(set_solver)). by destruct st.
Qed.

Lemma healthy_read k (s : SP) :
  db_healthy (sp_db s) ->
  (on_db (db_get k) s).1 = (if db_map (sp_db s) !! k is Some v then GFound v else GNotFound).
Proof.
  intros Hh. destruct (db_map (sp_db s) !! k) as [v|] eqn:E.
  - destruct (on_db_get_some _ _ _ E) as [|(what & _ & [])]; done.
  - apply on_db_get_none in E. rewrite on_db_run in *. cbn [fst] in *.
    destruct (healthy_get k (sp_db s) Hh) as [Hf _].
    destruct (db_get k (sp_db s)).1 as [w| |what]; [done..|]. by destruct (Hf what).
Qed.

Lemma LoadStateFromDB_spec `{!ClusterJsonLaws} (s : SP) st :
  db_healthy (sp_db s) -> holds_state (db_map (sp_db s)) st ->
  sp_cached_state (LoadStateFromDB s).2 = st /\ sp_open (LoadStateFromDB s).2 = sp_open s.
Proof.
  intros Hh [(F1 & F2 & F3) Hst]. unfold LoadStateFromDB.
  rewrite st_bind, healthy_read by done. set (s1 := (on_db (db_get kStateTermKey) s).2).
  assert (H1 : db_healthy (sp_db s1)) by by apply on_db_get_healthy.
  rewrite st_bind, healthy_read by done. set (s2 := (on_db (db_get kStateVotedForKey) s1).2).
  assert (H2 : db_healthy (sp_db s2)) by by apply on_db_get_healthy.
  rewrite st_bind, healthy_read by done. unfold s2, s1. rewrite !on_db_get_map. st. proj_simp. split; [|done].
  destruct Hst as [(-> & -> & ->)|(-> & -> & -> & ->)]; [|done].
  rewrite !decide_True by apply length_le. rewrite (le32 _ F1), (i32_le4 _ F2).
  destruct (load_cluster_json st (p_current_term st) (p_voted_for st) F3) as (j & -> & ->).
  by destruct st.
Qed.

Lemma SpOpen_new `{!ClusterJsonLaws} (db : DB) st :
  db_healthy db -> holds_state (db_map db) st ->
  exists t, SpOpen (StatePersister_new db) = (StOK, t) /\ sp_open t = true /\ sp_cached_state t = st.
Proof.
  intros Hh Hst. unfold SpOpen. st. change (sp_open (StatePersister_new db)) with false. cbv iota. st.
  rewrite on_db_run. cbn [fst snd].
  change (sp_db (StatePersister_new db)) with db.
  change (sp_compression_type (StatePersister_new db)) with kSnappyCompression. cbv iota.
  destruct (healthy_open true db Hh) as [-> Hh']. st.
  match goal with |- context [LoadStateFromDB ?x] => set (s1 := x) end.
  destruct (LoadStateFromDB_spec s1 st) as [E1 E2]; [done|unfold s1; proj_simp; by rewrite open_map|].
  eexists. split; [done|]. split; [by rewrite E2|done].
Qed.

Lemma LoadStateFromDB_frame (s : SP) :
  db_map (sp_db (LoadStateFromDB s).2) = db_map (sp_db s) /\
  sp_open (LoadStateFromDB s).2 = sp_open s /\
  (db_healthy (sp_db s) -> db_healthy (sp_db (LoadStateFromDB s).2)).
Proof.
  unfold LoadStateFromDB. st. proj_simp. rewrite !on_db_get_map. split_and!; [done..|].
  intros Hh. by do 3 apply on_db_get_healthy.
Qed.

(** A start that succeeds reads the database as it is. *)
Lemma SpOpen_frame (db : DB) t :
  SpOpen (StatePersister_new db) = (StOK, t) ->
  sp_open t = true /\ db_map (sp_db t) = db_map db /\ (db_healthy db -> db_healthy (sp_db t)).
Proof.
  unfold SpOpen. st. change (sp_open (StatePersister_new db)) with false. cbv iota. st.
  rewrite on_db_run. cbn [fst snd]. change (sp_db (StatePersister_new db)) with db.
  change (sp_compression_type (StatePersister_new db)) with kSnappyCompression. cbv iota.
  destruct (db_open true db).1 as [what|] eqn:E; st; [done|].
  match goal with |- context [LoadStateFromDB ?x] => set (s1 := x) end.
  destruct (LoadStateFromDB_frame s1) as (F1 & F2 & F3). intros E0%(f_equal snd). cbn [snd] in E0. subst t.
  split_and!; [by rewrite F2|rewrite F1; apply open_map|]. intros Hh. apply F3. by apply healthy_open.
Qed.

(** *** Runs of calls *)

Inductive SpCall :=
| CallSaveState (st : PersistentState)
| CallSaveSnapshot (data : bytes) (last_index last_term : Z)
| CallSaveStream (provider : ChunkProvider) (last_index last_term : Z).

Definition sp_call (c : SpCall) : State SP Status :=
  match c with
  | CallSaveState st => SpSaveState st
  | CallSaveSnapshot data li lt => SpSaveSnapshot data li lt
  | CallSaveStream p li lt => SpSaveSnapshotStream p li lt
  end.

Fixpoint sp_run (cs : list SpCall) : State SP (list Status) :=
  match cs with
  | [] => mret []
  | c :: cs' => st ← sp_call c; rest ← sp_run cs'; mret (st :: rest)
  end.

(** The states a start may find: that of the last save that succeeded, and
    those of the failed ones after it. *)
Fixpoint candidates (cs : list SpCall) (results : list Status) (known : list PersistentState) :
    list PersistentState :=
  match cs, results with
  | CallSaveState st :: cs', r :: rs =>
      candidates cs' rs (if status_ok r then [st] else st :: known)
  | _ :: cs', _ :: rs => candidates cs' rs known
  | _, _ => known
  end.

Definition sp_call_fits (c : SpCall) : Prop :=
  match c with
  | CallSaveState st => state_fits st
  | CallSaveSnapshot _ _ _ => True
  | CallSaveStream p _ _ => Z.of_nat (length (cp_chunks p)) <= UINT32_MAX
  end.

Definition one_of (known : list PersistentState) (m : maps) : Prop :=
  exists st, st ∈ known /\ holds_state m st.

Lemma one_of_same known m m0 : same_rest m m0 -> one_of known m0 -> one_of known m.
Proof. intros Hr (st & Hst & Hh). exists st. split; [done|]. by eapply holds_state_same. Qed.

Lemma SpSaveState_maps st known (s : SP) :
  state_fits st -> all_maps (one_of known) (sp_db s) ->
  all_maps (one_of (if status_ok (SpSaveState st s).1 then [st] else st :: known))
    (sp_db (SpSaveState st s).2).
Proof.
  intros Hf Hk. unfold SpSaveState. st.
  assert (Hmore : all_maps (one_of (st :: known)) (sp_db s)).
  { apply found_all. intros m Hm. destruct (proj1 (found_all _ _) Hk m Hm) as (x & Hx & Hh).
    exists x. split; [set_solver|done]. }
  assert (Hnew : forall l, st ∈ l -> one_of l (apply_batch (state_batch st) (db_map (sp_db s)))).
  { intros l Hl. exists st. split; [done|]. by apply holds_state_batch. }
  destruct (sp_open s); cbn [negb]; [|by st]. st. rewrite on_db_run. cbn [fst snd].
  destruct (db_write true (state_batch st) (sp_db s)).1 eqn:E; st; proj_simp.
  - apply all_maps_write; [done|]. intros _. apply Hnew. set_solver.
  - apply all_maps_synced; [done|]. apply Hnew. set_solver.
Qed.

Lemma SpSaveSnapshot_maps data li lt known (s : SP) :
  all_maps (one_of known) (sp_db s) -> all_maps (one_of known) (sp_db (SpSaveSnapshot data li lt s).2).
Proof.
  intros Hk. unfold SpSaveSnapshot. st. destruct (sp_open s); cbn [negb]; [|by st].
  st. rewrite on_db_run. cbn [fst snd].
  match goal with |- context [db_write true ?ops ?d] => assert (Hw : all_maps (one_of known) (db_write true ops d).2) end.
  { apply all_maps_write; [done|]. apply one_of_same. intros k _ Hs. apply apply_batch_other. simpl.
    unfold is_snapshot in Hs. rewrite !not_elem_of_cons. split_and!; [naive_solver..|].
    apply not_elem_of_nil. }
  case_match; unfold set_snapshot; st; by proj_simp.
Qed.

Lemma SpSaveStream_maps p li lt known (s : SP) :
  Z.of_nat (length (cp_chunks p)) <= UINT32_MAX ->
  all_maps (one_of known) (sp_db s) ->
  all_maps (one_of known) (sp_db (SpSaveSnapshotStream p li lt s).2).
Proof.
  intros Hl Hk. apply found_all. intros m Hm.
  destruct (proj1 (proj1 (save_stream_spec s p li lt Hl)) m Hm) as (m0 & H0 & Hcase).
  apply (one_of_same _ m m0); [|by apply (proj1 (found_all _ _) Hk)].
  destruct Hcase as [Ha|[_ Ha]]; [|done]. intros k Hk' _. by apply Ha.
Qed.

Lemma sp_run_maps cs : forall known (s : SP),
  Forall sp_call_fits cs -> all_maps (one_of known) (sp_db s) ->
  all_maps (one_of (candidates cs (sp_run cs s).1 known)) (sp_db (sp_run cs s).2).
Proof.
  induction cs as [|c cs IH]; intros known s Hf Hk; [done|]. apply list.Forall_cons in Hf as [Hc Hf].
  cbn [sp_run]. st. destruct c as [st|data li lt|p li lt]; cbn [sp_call candidates]; apply IH; try done.
  - by apply SpSaveState_maps.
  - by apply SpSaveSnapshot_maps.
  - by apply SpSaveStream_maps.
Qed.

Lemma sp_run_recovers `{!ClusterJsonLaws} (s : SP) cs known db :
  all_maps (one_of known) (sp_db s) -> Forall sp_call_fits cs ->
  crash (sp_db (sp_run cs s).2) db -> db_healthy db ->
  exists st t, st ∈ candidates cs (sp_run cs s).1 known /\
    SpOpen (StatePersister_new db) = (StOK, t) /\
    forall out, SpLoadState out t = (StOK, st, t).
Proof.
  intros Hk Hf Hc Hh.
  destruct (all_maps_crash _ _ _ (sp_run_maps cs known s Hf Hk) Hc) as [(st & Hst & Hm) _].
  destruct (SpOpen_new db st Hh Hm) as (t & E1 & E2 & E3). exists st, t. split_and!; [done..|].
  intros out. unfold SpLoadState. st. rewrite E2. cbn [negb]. st. by rewrite E3.
Qed.
End durable.

(** ** The theorems *)

(** C16. The persistent state survives crashes.  From a database that holds a known
    state whatever survives, after any calls that save states and snapshots,
    whichever writes fail, a crash, and a start on a database that opens and whose
    reads work: the start loads the state of the last save that succeeded, or one of
    a failed save after it.  A start whose reads fail goes on with the default state
    instead ([open_hides_read_error]). *)
Theorem saved_state_survives {DB} `{!LevelDB DB} `{!LevelDBLaws DB} `{!ClusterJson}
    `{!ClusterJsonLaws} (s : StatePersister DB) (calls : list SpCall) known db :
  all_maps (one_of known) (sp_db s) -> Forall sp_call_fits calls ->
  crash (sp_db (sp_run calls s).2) db -> db_healthy db ->
  exists st t, st ∈ candidates calls (sp_run calls s).1 known /\
    SpOpen (StatePersister_new db) = (StOK, t) /\
    forall out, SpLoadState out t = (StOK, st, t).
Proof. apply sp_run_recovers. Qed.

(** C17. Saving a snapshot in chunks is atomic.  Whatever fails, each map the
    database may hold after a crash, and the current one, is an old one as far
    as any key but the temporary ones goes, or has the whole new snapshot and
    the other keys of an old one; success leaves only the new snapshot, an
    error leaves what reads see unchanged. *)
Theorem snapshot_swap_is_atomic {DB} `{!LevelDB DB} `{!LevelDBLaws DB}
    (s : StatePersister DB) (p : ChunkProvider) last_index last_term :
  Z.of_nat (length (cp_chunks p)) <= UINT32_MAX ->
  let '(status, s') := SpSaveSnapshotStream p last_index last_term s in
  let cs := nonempty (cp_chunks p) in
  (forall m, found s' m -> exists m0, found s m0 /\
     (agree m m0 \/ stores m cs last_index last_term /\ same_rest m m0)) /\
  if status_ok status then forall m, found s' m -> stores m cs last_index last_term
  else agree (db_map (sp_db s')) (db_map (sp_db s)).
Proof.
  intros Hl. pose proof (proj1 (save_stream_spec s p last_index last_term Hl)) as Hs.
  by destruct (SpSaveSnapshotStream p last_index last_term s).
Qed.

(** A snapshot saved in chunks is loaded as it was saved.  After a save
    that succeeded, a crash and a start, the load ends; when it succeeds the
    consumer got the chunks in order and the index and term are those saved,
    and without read errors it does succeed. *)
Theorem saved_snapshot_loads {DB} `{!LevelDB DB} `{!LevelDBLaws DB} `{!ClusterJson}
    (s : StatePersister DB) (p : ChunkProvider) last_index last_term db t li0 lt0 :
  Z.of_nat (length (cp_chunks p)) <= UINT32_MAX -> is_u64 last_index -> is_u64 last_term ->
  nonempty (cp_chunks p) <> [] ->
  status_ok (SpSaveSnapshotStream p last_index last_term s).1 = true ->
  crash (sp_db (SpSaveSnapshotStream p last_index last_term s).2) db ->
  SpOpen (StatePersister_new db) = (StOK, t) ->
  exists status consumed li lt t',
    SpLoadSnapshotStream li0 lt0 t = (Some (status, consumed, li, lt), t') /\
    (status_ok status = true ->
     consumed = nonempty (cp_chunks p) /\ li = last_index /\ lt = last_term) /\
    (db_healthy db -> status = StOK).
Proof.
  intros Hl Hi Ht Hne Hok Hc (Ho & Em & Hh)%SpOpen_frame.
  destruct (load_stream_spec t (nonempty (cp_chunks p)) last_index last_term li0 lt0)
    as (status & consumed & li & lt & t' & R1 & R2 & R3); try done.
  - etrans; [|exact Hl]. apply inj_le. unfold nonempty. apply length_filter.
  - destruct (save_stream_spec s p last_index last_term Hl) as [[_ Hs] _]. rewrite Hok in Hs.
    rewrite Em. apply Hs. right. by apply crash_finds.
  - exists status, consumed, li, lt, t'. auto.
Qed.

(** ** Instances and examples *)

#[global] Instance JsonValue_eq_dec : EqDecision JsonValue.
Proof. solve_decision. Defined.
#[global, refine] Instance JsonValue_countable : Countable JsonValue :=
  inj_countable' (fun v => match v with JNodes l => inl l | JU64 z => inr (inl z) | JBool b => inr (inr b) end)
    (fun x => match x with inl l => JNodes l | inr (inl z) => JU64 z | inr (inr b) => JBool b end) _.
Proof. by intros []. Defined.

Module PlainJson.
(** An object is printed as the bytes of its number. *)
Definition dump (obj : list (string * JsonValue)) : bytes :=
  le (Pos.size_nat (encode obj)) (Z.pos (encode obj)).
Definition parse (bs : bytes) : option (list (string * JsonValue)) := decode (Z.to_pos (le_val bs)).
Definition member (obj : list (string * JsonValue)) (k : string) : option JsonValue :=
  snd <$> find (fun kv => bool_decide (kv.1 = k)) obj.

#[export] Instance json : ClusterJson := {
  cj := list (string * JsonValue);
  cj_dump := dump;
  cj_parse := parse;
  cj_nodes j k := match member j k with Some (JNodes l) => Some l | None => Some [] | _ => None end;
  cj_u64 j k := match member j k with Some (JU64 z) => Some z | None => Some 0 | _ => None end;
  cj_bool j k := match member j k with Some (JBool b) => Some b | None => Some false | _ => None end
}.

Lemma pos_size p : Z.pos p < 2 ^ Z.of_nat (Pos.size_nat p).
Proof.
  induction p as [p IH|p IH|]; cbn [Pos.size_nat]; rewrite ?Nat2Z.inj_succ, ?Z.pow_succ_r by lia; lia.
Qed.

Lemma parse_dump obj : parse (dump obj) = Some obj.
Proof.
  unfold parse, dump. rewrite le_val_le. rewrite Z.mod_small.
  - simpl. apply decode_encode.
  - split; [lia|]. eapply Z.lt_le_trans; [apply pos_size|]. change 256 with (2 ^ 8).
    rewrite <- Z.pow_mul_r by lia. apply Z.pow_le_mono_r; lia.
Qed.

Lemma member_in obj k v : NoDup obj.*1 -> (k, v) ∈ obj -> member obj k = Some v.
Proof.
  unfold member. induction obj as [|[k' v'] obj IH]; [by rewrite elem_of_nil|].
  intros [Hn Hd]%list.NoDup_cons Hin%elem_of_cons. cbn [find fst].
  case_bool_decide as E; simpl.
  - destruct Hin as [[= _ ->]|Hin]; [done|]. destruct Hn. subst. apply list_elem_of_fmap. by exists (k, v).
  - destruct Hin as [[= -> ->]|Hin]; [done|]. by apply IH.
Qed.

#[export] Instance laws : ClusterJsonLaws.
Proof.
  constructor. intros obj Hd. exists obj. split; [apply parse_dump|]. intros k v Hkv.
  pose proof (member_in obj k v Hd Hkv) as Hm. by destruct v; simpl; rewrite Hm.
Qed.
End PlainJson.
Import PlainJson.

(** A database with nothing in it, and the persister that opened it. *)
Definition empty_db : MemDb := mkMemDb ∅ [∅] [].
Definition opened (db : MemDb) : StatePersister MemDb := (SpOpen (StatePersister_new db)).2.
Definition restarted (db : MemDb) : MemDb := mkMemDb (mem_map db) [mem_map db] [].

Definition sample_state (term voted_for : Z) : PersistentState :=
  mkPersistentState term voted_for [1; 2; 3] [] [4] 2 false.
Definition sample_provider : ChunkProvider :=
  mkChunkProvider [[Byte.x61]; []; [Byte.x62; Byte.x63]] None.
Definition sample_sp_calls : list SpCall :=
  [CallSaveState (sample_state 7 2); CallSaveStream sample_provider 40 6;
   CallSaveState (sample_state 8 (-1))].

Lemma saved_state_survives_witness :
  let s := opened empty_db in
  exists st t, st ∈ candidates sample_sp_calls (sp_run sample_sp_calls s).1 [PersistentState_default] /\
    SpOpen (StatePersister_new (restarted (sp_db (sp_run sample_sp_calls s).2))) = (StOK, t) /\
    forall out, SpLoadState out t = (StOK, st, t).
Proof.
  apply (saved_state_survives (opened empty_db) sample_sp_calls [PersistentState_default]
    (restarted (sp_db (sp_run sample_sp_calls (opened empty_db)).2))).
  - apply found_all. intros m Hm. exists PersistentState_default. split; [set_solver|].
    assert (m = ∅) as -> by (destruct Hm as [->|Hm]; [done|by apply list_elem_of_singleton in Hm]).
    split; [unfold state_fits, is_u32, is_u64, UINT32_MAX, UINT64_MAX; simpl; lia|by right].
  - unfold sample_sp_calls. rewrite !list.Forall_cons. cbn [sp_call_fits].
    unfold state_fits, is_u32, is_u64, UINT32_MAX, UINT64_MAX. split_and!; simpl; try lia. constructor.
  - split; [|done]. vm_compute. constructor.
  - done.
Defined.

Lemma snapshot_swap_is_atomic_witness :
  let s := opened empty_db in
  let s' := (SpSaveSnapshotStream sample_provider 40 6 s).2 in
  Z.of_nat (length (cp_chunks sample_provider)) <= UINT32_MAX /\
  forall m, found s' m -> stores m (nonempty (cp_chunks sample_provider)) 40 6.
Proof.
  split; [done|].
  refine (_ (snapshot_swap_is_atomic (opened empty_db) sample_provider 40 6 _)); [|done].
  assert (E : status_ok (SpSaveSnapshotStream sample_provider 40 6 (opened empty_db)).1 = true)
    by by vm_compute.
  destruct (SpSaveSnapshotStream sample_provider 40 6 (opened empty_db)) as [status s'].
  cbn [fst snd] in *. rewrite E. by intros [_ H].
Defined.

Lemma saved_snapshot_loads_witness :
  let db := restarted (sp_db (SpSaveSnapshotStream sample_provider 40 6 (opened empty_db)).2) in
  exists status consumed li lt t',
    SpLoadSnapshotStream 0 0 (opened db) = (Some (status, consumed, li, lt), t') /\
    (status_ok status = true -> consumed = [[Byte.x61]; [Byte.x62; Byte.x63]] /\ li = 40 /\ lt = 6) /\
    (db_healthy db -> status = StOK).
Proof.
  apply (saved_snapshot_loads (opened empty_db) sample_provider 40 6
    (restarted (sp_db (SpSaveSnapshotStream sample_provider 40 6 (opened empty_db)).2))).
  - done.
  - done.
  - done.
  - done.
  - by vm_compute.
  - split; [|done]. vm_compute. constructor.
  - by vm_compute.
Defined.

(** ** What a start does not find *)

(** Read errors are not reported by [Open]: with the reads of the term and of
    the vote failing, the start succeeds in term 0 with no vote. *)
Theorem open_hides_read_error :
  let saved := sp_db (SpSaveState (sample_state 7 2) (opened empty_db)).2 in
  let '(status, t) :=
    SpOpen (StatePersister_new (mkMemDb (mem_map saved) [mem_map saved] [false; true; true])) in
  status = StOK /\
  let st := (SpLoadState PersistentState_default t).1.2 in
  p_current_term st = 0 /\ p_voted_for st = -1 /\ p_cluster_version st = 2.
Proof. by vm_compute. Qed.

(** After a restart the index and term of the stored snapshot read 0. *)
Theorem restart_forgets_snapshot_index :
  let saved := (SpSaveSnapshotStream sample_provider 40 6 (opened empty_db)).2 in
  let t := opened (restarted (sp_db saved)) in
  (GetSnapshotLastIndex saved).1 = 40 /\
  (SpHasSnapshot t).1 = true /\ (GetSnapshotLastIndex t).1 = 0 /\ (GetSnapshotLastTerm t).1 = 0.
Proof. by vm_compute. Qed.

(** A snapshot saved in chunks is there for [HasSnapshot], but not for
    [LoadSnapshot]. *)
Theorem streamed_snapshot_not_loaded_whole :
  let t := (SpSaveSnapshotStream sample_provider 40 6 (opened empty_db)).2 in
  (SpHasSnapshot t).1 = true /\
  (SpLoadSnapshot (mkSnapshotOut [] 0 0) t).1.1 = Error1 "No snapshot available".
Proof. by vm_compute. Qed.
