(* ===== verification/Hybrid.v ===== *)
(** * The hybrid persister: [src/hybrid_persister.cpp]

    [HybridPersister] keeps the log in the write-ahead log and the rest in the
    state persister.  It implements the interface the log persister writes to:
    the instance of [PersisterSpec] below, with the write-ahead log's theorems
    behind it. *)

From Stdlib Require Import Ascii.
From stdpp Require Import sorting.
From S2P Require Import Prelude Types Bytes DenseIndex Disk RaftLog Quorum RaftGroup Timers Replicate Membership Text Sha256 LevelDb StatePersister Wal WalScan WalInv WalOpen WalOps WalLog WalRefine WalCrash LogPersister.
Import DenseIndexOps.

Record HybridPersister (DB : Type) := mkHybridPersister {
  hp_opened : bool;
  hp_data_dir : string;
  hp_wal : Wal;
  hp_state : StatePersister DB
}.
#[global] Instance HybridPersister_eta DB : Eta (HybridPersister DB) := fun r =>
  mkHybridPersister DB (hp_opened DB r) (hp_data_dir DB r) (hp_wal DB r) (hp_state DB r).
Arguments mkHybridPersister {DB}.
Arguments hp_opened {DB}.
Arguments hp_data_dir {DB}.
Arguments hp_wal {DB}.
Arguments hp_state {DB}.

Section hybrid.
Context {DB : Type} `{!LevelDB DB} `{!ClusterJson} {LIB : WalLib}.
Notation HP := (HybridPersister DB).

(** A new persister on the files and the database of its directory. *)
Definition HybridPersister_new (d : Disk) (db : DB) : HP :=
  mkHybridPersister false "" (Wal_new d) (StatePersister_new db).

Definition on_wal {A} (m : W A) : State HP A := fun s =>
  ((m (hp_wal s)).1, s <| hp_wal := (m (hp_wal s)).2 |>).
Definition on_state {A} (m : State (StatePersister DB) A) : State HP A := fun s =>
  ((m (hp_state s)).1, s <| hp_state := (m (hp_state s)).2 |>).

Definition hp_not_open : Status := Error1 "HybridPersister not open".

(** The guard of every operation. *)
Definition if_open {A} (k : A) (m : State HP A) : State HP A :=
  o ← reads hp_opened;
  if negb o then mret k else m.

Definition HpSetSyncOnWrite (sync : bool) : State HP unit := on_state (SpSetSyncOnWrite sync).
Definition HpSetCompressionType (type : CompressionType) : State HP unit :=
  on_state (SpSetCompressionType type).

(** [std::filesystem::create_directories], true without an error. *)
Definition create_directories : W bool :=
  kind ← reads (fun w => d_kind (wal_disk w));
  match kind with
  | NotDir => mret false
  | IsDir => mret true
  | Absent =>
      ok ← sys_ok;
      whenS ok (setw wal_disk (fun d => d <| d_kind := IsDir |>)) ;;
      mret ok
  end.

(** [ec_message] is the text of the error code. *)
Definition HpOpen (data_dir ec_message : string) : State HP Status :=
  o ← reads hp_opened;
  if (o : bool) then mret (Error1 "HybridPersister already open")
  else
    updates (fun s => s <| hp_data_dir := data_dir |>) ;;
    made ← on_wal create_directories;
    if negb made then mret (Error1 ("Failed to create wal directory: " +:+ ec_message))
    else
      status ← on_wal (Open (data_dir +:+ "/wal"));
      if negb (status_ok status) then mret status
      else
        status ← on_state SpOpen;
        if negb (status_ok status) then on_wal WalClose ;; mret status
        else
          updates (fun s => s <| hp_opened := true |>) ;;
          mret StOK.

Definition HpClose : State HP unit :=
  on_wal WalClose ;;
  on_state SpClose ;;
  updates (fun s => s <| hp_opened := false |> <| hp_data_dir := "" |>).

Definition HpSaveState (st : PersistentState) : State HP Status :=
  if_open hp_not_open (on_state (SpSaveState st)).
Definition HpLoadState (st : PersistentState) : State HP (Status * PersistentState) :=
  if_open (hp_not_open, st) (on_state (SpLoadState st)).

Fixpoint append_all (entries : list RaftLogEntry) : State HP Status :=
  match entries with
  | [] => mret StOK
  | e :: rest =>
      status ← on_wal (WalAppendLogEntry e);
      if negb (status_ok status) then mret status else append_all rest
  end.

Definition HpAppendEntries (entries : list RaftLogEntry) : State HP Status :=
  if_open hp_not_open (append_all entries).

Definition HpSync : State HP Status := if_open hp_not_open (on_wal WalSync).

(** The output vector on return; not open, it is left as it was, here empty. *)
Definition HpGetEntries (start end_ : Z) : State HP (Status * list RaftLogEntry) :=
  if_open (hp_not_open, []) (on_wal (WalGetEntries start end_)).

Definition HpGetEntry (index : Z) : State HP (Status + RaftLogEntry) :=
  if_open (inl hp_not_open) (on_wal (WalGetEntry index)).

Definition HpTruncateSuffix (from_index : Z) : State HP Status :=
  if_open hp_not_open
    (range ← on_wal GetLogRange;
     if decide (range.2 < from_index) then mret StOK
     else on_wal (AppendTruncateSuffix from_index)).

Definition HpTruncatePrefix (before_index : Z) : State HP Status :=
  if_open hp_not_open
    (if decide (before_index <= 1) then mret StOK
     else on_wal (AppendTruncatePrefix before_index)).

Definition HpGetLastLogInfo : State HP (Z * Z) :=
  if_open (0, 0)
    (range ← on_wal GetLogRange;
     if decide (range.2 = 0) then mret (0, 0)
     else
       r ← on_wal (WalGetEntry range.2);
       match r with
       | inl _ => mret (0, 0)
       | inr entry => mret (range.2, term_ entry)
       end).

Definition HpSaveSnapshot (snapshot_data : bytes) (last_index last_term : Z) : State HP Status :=
  if_open hp_not_open (on_state (SpSaveSnapshot snapshot_data last_index last_term)).
Definition HpLoadSnapshot (out : SnapshotOut) : State HP (Status * SnapshotOut) :=
  if_open (hp_not_open, out) (on_state (SpLoadSnapshot out)).
Definition HpSaveSnapshotStream (p : ChunkProvider) (last_index last_term : Z) : State HP Status :=
  if_open hp_not_open (on_state (SpSaveSnapshotStream p last_index last_term)).
Definition HpLoadSnapshotStream (last_index last_term : Z) :
    State HP (option (Status * list bytes * Z * Z)) :=
  if_open (Some (hp_not_open, [], last_index, last_term))
    (on_state (SpLoadSnapshotStream last_index last_term)).
Definition HpHasSnapshot : State HP bool := if_open false (on_state SpHasSnapshot).

#[global] Instance hybrid_ops : PersisterOps HP := {
  p_append_entries := HpAppendEntries;
  p_sync := HpSync;
  p_truncate_prefix := HpTruncatePrefix;
  p_truncate_suffix := HpTruncateSuffix;
  p_get_entries := HpGetEntries;
  p_get_last_log_info := HpGetLastLogInfo;
  p_set_sync_on_write := HpSetSyncOnWrite
}.

(** ** The contract *)

Context {LAWS : WalLaws}.

(** Open, with the commands [h] accepted and those of [d] in the files. *)
Definition hp_holds (p : HP) (h d : list Cmd) : Prop :=
  hp_opened p = true /\ wal_holds (hp_wal p) h d (length h).

Lemma wal_holds_prefix w h d n : wal_holds w h d n -> d `prefix_of` h.
Proof.
  intros (closed & fl & bf & _ & -> & Hp & _). etrans; [exact Hp|]. exists bf. by rewrite <- app_assoc.
Qed.

(** A command on the log. *)
Lemma hp_cmd (p : HP) h d c :
  hp_holds p h d -> cmd_ok c -> Z.of_nat (length h) + 2 <= UINT64_MAX ->
  exists p', on_wal (run_cmd c) p = (StOK, p') /\ hp_holds p' (h ++ [c]) d.
Proof.
  intros [Ho (closed & fl & bf & W & -> & Hp & Hn)] Hc Hmax.
  destruct (run_cmd_ok _ closed fl bf c W Hc) as (w' & cl & fl' & bf' & R & W' & E & L & _ & Hp'); [lia|].
  eexists. split; [unfold on_wal; by rewrite R|]. cbn [snd]. split; [done|]. proj_simp.
  exists cl, fl', bf'. split; [done|]. split_and!; [done|by etrans|].
  rewrite length_app. simpl. lia.
Qed.

Lemma append_all_ok es : forall (p : HP) h d,
  hp_holds p h d -> Forall cmd_ok (map CEntry es) ->
  Z.of_nat (length h + length es) + 2 <= UINT64_MAX ->
  exists p', append_all es p = (StOK, p') /\ hp_holds p' (h ++ map CEntry es) d.
Proof.
  induction es as [|e es IH]; intros p h d Hh Hok Hn; cbn [append_all map] in *.
  { exists p. by rewrite app_nil_r. }
  apply Forall_cons_1 in Hok as [He Hok]. simpl in Hn.
  destruct (hp_cmd p h d (CEntry e) Hh He) as (p1 & R1 & H1); [lia|].
  destruct (IH p1 _ _ H1 Hok) as (p2 & R2 & H2); [rewrite length_app; simpl; lia|].
  exists p2. rewrite st_bind. change (WalAppendLogEntry e) with (run_cmd (CEntry e)). rewrite R1.
  cbn [fst snd status_ok negb]. split; [done|]. by rewrite <- app_assoc in H2.
Qed.

#[global, refine] Instance hybrid_spec : PersisterSpec HP := {
  holds := hp_holds;
  cmd_fits := cmd_ok;
  max_history := UINT64_MAX - 2
}.
Proof.
  - intros p h d [_ Hw]. by eapply wal_holds_prefix.
  - intros p h d es Hh Hok Hn. destruct (append_all_ok es p h d Hh Hok) as (p' & R & H'); [lia|].
    exists (length es), d. simpl. unfold HpAppendEntries, if_open. st. rewrite (proj1 Hh). cbn [negb].
    rewrite R. split_and!; [done| |done]. by rewrite take_ge by (rewrite length_map; lia).
  - intros p h d [Ho (closed & fl & bf & W & -> & Hp & Hn)].
    destruct (WalSync_ok _ closed fl bf W) as (w' & R & W' & _).
    exists (concat closed ++ fl ++ bf). simpl. unfold HpSync, if_open. st. rewrite Ho. cbn [negb].
    unfold on_wal. rewrite R. cbn [fst snd]. split_and!; [|split; [done|]|done].
    + etrans; [exact Hp|]. exists bf. by rewrite <- app_assoc.
    + proj_simp. exists closed, (fl ++ bf), []. rewrite app_nil_r. split; [done|]. by split_and!.
  - intros p h d i Hh Hc Hn. simpl. unfold HpTruncatePrefix, if_open. st. rewrite (proj1 Hh). cbn [negb].
    case_decide.
    + exists 0%nat, d. by rewrite take_0, app_nil_r.
    + destruct (hp_cmd p h d (CPrefix i) Hh Hc) as (p' & R & H'); [lia|]. exists 1%nat, d.
      simpl in R. by rewrite R.
  - intros p h d i Hh Hc Hn. simpl. unfold HpTruncateSuffix, if_open. st. rewrite (proj1 Hh). cbn [negb].
    st. assert (E : (on_wal GetLogRange p).2 = p) by by destruct p. rewrite E. case_decide.
    + exists 0%nat, d. by rewrite take_0, app_nil_r.
    + destruct (hp_cmd p h d (CSuffix i) Hh Hc) as (p' & R & H'); [lia|]. exists 1%nat, d.
      simpl in R. by rewrite R.
  - intros p h d b [Ho Hw]. split; [done|]. exact Hw.
Defined.
End hybrid.
