(* ===== verification/HybridDurable.v ===== *)
(** * The log from the callback to the disk and back

    The log persister over the hybrid persister: what was acknowledged is read
    back after the process was killed, and [Restore] returns the whole log. *)

From Stdlib Require Import Ascii.
From stdpp Require Import sorting.
From S2P Require Import Prelude Types Bytes DenseIndex Disk RaftLog Quorum RaftGroup Timers Replicate Membership Text Sha256 LevelDb StatePersister StateDurable Wal WalScan WalInv WalOpen WalOps WalLog WalRefine WalCrash GroupCommit LogPersister LogDurable Hybrid.
Import DenseIndexOps.

Section durable.
Context {DB : Type} `{!LevelDB DB} `{!LevelDBLaws DB} `{!ClusterJson} {LIB : WalLib} {LAWS : WalLaws}.
Notation HP := (HybridPersister DB).

(** ** Opening *)

Lemma SpOpen_healthy (sp : StatePersister DB) :
  sp_open sp = false -> db_healthy (sp_db sp) -> (SpOpen sp).1 = StOK.
Proof.
  intros Ho Hh. unfold SpOpen. st. rewrite Ho. cbv iota. st. rewrite on_db_run. cbn [fst snd].
  match goal with |- context [db_open ?c _] => destruct (healthy_open c (sp_db sp) Hh) as [-> _] end. by st.
Qed.

Lemma HpOpen_ok dir msg (w w1 w2 : Wal) (sp : StatePersister DB) :
  create_directories w = (true, w1) -> Open (dir +:+ "/wal") w1 = (StOK, w2) ->
  sp_open sp = false -> db_healthy (sp_db sp) ->
  exists p, HpOpen dir msg (mkHybridPersister false "" w sp) = (StOK, p) /\
    hp_opened p = true /\ hp_wal p = w2.
Proof.
  intros R1 R2 Hs Hh. unfold HpOpen. st.
  change (hp_opened (mkHybridPersister false "" w sp)) with false. cbv iota. st.
  unfold on_wal. cbn [fst snd]. proj_simp.
  change (hp_wal (mkHybridPersister false "" w sp)) with w.
  rewrite R1. cbn [fst snd negb]. st. proj_simp. rewrite R2. cbn [fst snd negb status_ok]. st.
  unfold on_state. cbn [fst snd]. proj_simp.
  change (hp_state (mkHybridPersister false "" w sp)) with sp.
  rewrite SpOpen_healthy by done. cbn [negb status_ok]. st. by eexists.
Qed.

Lemma create_directories_there w : d_kind (wal_disk w) = IsDir -> create_directories w = (true, w).
Proof. intros E. unfold create_directories. st. by rewrite E. Qed.

(** The first start, on an empty directory. *)
Lemma HpOpen_new dir msg d (sp : StatePersister DB) :
  d_tape d = [] -> d_kind d <> NotDir -> d_files d = ∅ -> sp_open sp = false -> db_healthy (sp_db sp) ->
  exists p, HpOpen dir msg (mkHybridPersister false "" (Wal_new d) sp) = (StOK, p) /\ hp_holds p [] [].
Proof.
  intros Ht Hk Hf Hs Hh.
  destruct (Open_new (dir +:+ "/wal") (d <| d_kind := IsDir |>)) as (w & R & W & _); [done..|].
  destruct (HpOpen_ok dir msg (Wal_new d) (Wal_new (d <| d_kind := IsDir |>)) w sp) as (p & Ep & Ho & Ew);
    [|done|done|done|].
  - unfold create_directories. st. change (wal_disk (Wal_new d)) with d.
    destruct (d_kind d) eqn:E; [| |done].
    + rewrite st_bind, run_sys_ok by done. cbn [fst snd]. by st.
    + rewrite st_ret. do 2 f_equal. destruct d. simpl in *. by subst.
  - exists p. split; [done|]. split; [done|]. rewrite Ew. by exists [], [], [].
Qed.

(** The process is killed: the files stay, the database is found as [db]. *)
Definition hp_killed (p : HP) (db : DB) : HP :=
  HybridPersister_new (wal_disk (hp_wal p)) db.

Lemma HpOpen_killed dir msg (p : HP) h d (sp : StatePersister DB) :
  hp_holds p h d -> sp_open sp = false -> db_healthy (sp_db sp) ->
  exists p' q, HpOpen dir msg (mkHybridPersister false "" (killed (hp_wal p)) sp) = (StOK, p') /\ d ++ q `prefix_of` h /\
    hp_opened p' = true /\ wal_holds (hp_wal p') (d ++ q) [] (length h).
Proof.
  intros [Ho Hw] Hs Hh.
  destruct (wal_holds_killed _ (dir +:+ "/wal") _ _ _ Hw) as (w' & q & R & Hq & Hw').
  destruct (HpOpen_ok dir msg (killed (hp_wal p)) (killed (hp_wal p)) w' sp) as (p' & Ep & Ho' & Ew);
    [|done|done|done|].
  - apply create_directories_there. destruct Hw as (closed & fl & bf & [V _] & _).
    apply (dv_kind _ _ (wv_disk _ _ _ _ V)).
  - exists p', q. rewrite Ew. by split_and!.
Qed.

(** ** Reading *)

Lemma HpGetEntry_ok (p : HP) h d n i :
  hp_opened p = true -> wal_holds (hp_wal p) h d n ->
  (HpGetEntry i p).1 = log_get i (log_of h).
Proof.
  intros Ho (closed & fl & bf & W & -> & _). unfold HpGetEntry, if_open. st. rewrite Ho. cbn [negb].
  destruct (WalGetEntry_ok _ closed fl bf i W) as (w' & R & _). unfold on_wal. by rewrite R.
Qed.

Lemma HpGetEntries_ok (p : HP) h d start end_ :
  hp_holds p h d -> is_u64 start -> is_u64 end_ ->
  exists p', HpGetEntries start end_ p = ((StOK, log_range start end_ (log_of h)), p') /\ hp_holds p' h d.
Proof.
  intros [Ho (closed & fl & bf & W & -> & Hp & Hn)] Hs He. unfold HpGetEntries, if_open. st.
  rewrite Ho. cbn [negb].
  destruct (WalGetEntries_ok _ closed fl bf start end_ W Hs He) as (w' & fl' & bf' & R & W' & E & _ & Hf).
  unfold on_wal. rewrite R. eexists. split; [done|]. split; [done|]. cbn [fst snd]. proj_simp.
  rewrite <- E in *. exists closed, fl', bf'. split; [done|]. split_and!; [done| |done].
  etrans; [exact Hp|]. by apply list.prefix_app.
Qed.

(** The last index of the log, as [GetLogRange] gives it. *)
Definition hp_last (p : HP) : Z := LastIndex (wal_index_ (hp_wal p)).

Lemma LastIndex_bound (p : HP) h d i e :
  hp_holds p h d -> log_of h !! i = Some e -> 0 <= i <= hp_last p /\ hp_last p <= UINT64_MAX.
Proof.
  intros [_ (closed & fl & bf & [_ Hix] & -> & _)] He. rewrite <- concat_wal in He.
  destruct (index_entry_range _ _ _ _ _ Hix He) as [Hne Hr].
  assert (Hwf : index_wf (wal_index_ (hp_wal p))) by (by destruct Hix as [[Hwf _] _]).
  unfold hp_last. rewrite LastIndex_eq by done. destruct Hwf as [Hf0 Hf1]. unfold is_u64, Size in *. lia.
Qed.

Lemma HpGetLastLogInfo_ok (p : HP) h d e :
  hp_holds p h d -> 0 < hp_last p -> log_of h !! hp_last p = Some e ->
  exists p', HpGetLastLogInfo p = ((hp_last p, term_ (stored_entry e)), p') /\ hp_holds p' h d.
Proof.
  intros [Ho (closed & fl & bf & W & -> & Hp & Hn)] H0 He. unfold HpGetLastLogInfo, if_open. st.
  rewrite Ho. cbn [negb]. st. assert (E : on_wal GetLogRange p =
    ((FirstIndex (wal_index_ (hp_wal p)), hp_last p), p)) by by destruct p.
  rewrite E. cbn [fst snd]. rewrite decide_False by lia. st.
  destruct (WalGetEntry_ok _ closed fl bf (hp_last p) W) as (w' & R & W' & _). unfold on_wal. rewrite R.
  cbn [fst snd]. unfold log_get. rewrite He. st. eexists. split; [done|]. split; [done|]. proj_simp.
  exists closed, (fl ++ bf), []. rewrite app_nil_r. split; [done|]. split_and!; [done| |done].
  etrans; [exact Hp|]. exists bf. by rewrite <- app_assoc.
Qed.

Lemma restore_batches_ok h d last fuel : forall (p : HP) bs acc,
  hp_holds p h d -> 0 <= bs -> 0 <= last -> bs + kRestoreBatchSize <= UINT64_MAX -> last + 2 * kRestoreBatchSize <= UINT64_MAX ->
  last - bs < kRestoreBatchSize * Z.of_nat fuel ->
  (restore_batches fuel bs last acc p).1 = acc ++ log_range bs (last + 1) (log_of h).
Proof.
  unfold kRestoreBatchSize. induction fuel as [|fuel IH]; intros p bs acc Hh Hb Hl Hbm Hlm Hf; cbn [restore_batches].
  { rewrite log_range_none, app_nil_r by lia. done. }
  case_decide as Hd; [|by rewrite log_range_none, app_nil_r by lia].
  unfold kRestoreBatchSize. rewrite !u64_small by (unfold is_u64; lia).
  destruct (HpGetEntries_ok p h d bs (Z.min (bs + 1000) (last + 1)) Hh) as (p' & R & Hh');
    [unfold is_u64; lia..|].
  rewrite st_bind. change (p_get_entries ?a ?b p) with (HpGetEntries a b p). rewrite R.
  cbn [fst snd status_ok negb].
  destruct (decide (bs + 1000 <= last)) as [Hc|Hc].
  - rewrite IH by (try done; lia). rewrite Z.min_l by lia.
    rewrite (log_range_split _ bs (bs + 1000) (last + 1)) by lia. by rewrite app_assoc.
  - rewrite Z.min_r by lia. destruct fuel as [|fuel]; cbn [restore_batches]; [done|].
    rewrite decide_False by lia. done.
Qed.
End durable.

Section theorems.
Context {DB : Type} `{!LevelDB DB} `{!LevelDBLaws DB} `{!ClusterJson} {LIB : WalLib} {LAWS : WalLaws}.
Notation HP := (HybridPersister DB).

(** [Restore] returns the log: every entry the persister holds from
    [start_index] on, in the order of the indexes, whatever number of batches
    it takes, when the last slot of the index is an entry. *)
Theorem restore_returns_log (s : LogPersister HP) p h d start_index e :
  lp_persister s = Some p -> holds p h d -> 0 <= start_index ->
  0 < hp_last p -> log_of h !! hp_last p = Some e -> hp_last p + 2 * kRestoreBatchSize <= UINT64_MAX ->
  (Restore start_index s).1 = log_range start_index (UINT64_MAX + 1) (log_of h).
Proof.
  intros Es Hh Hs H0 He Hm. unfold Restore, with_persister. rewrite Es.
  destruct (HpGetLastLogInfo_ok p h d e Hh H0 He) as (p1 & R1 & H1).
  rewrite st_bind. change p_get_last_log_info with (@HpGetLastLogInfo DB _). rewrite R1. cbn [fst snd].
  assert (Hnone : forall i, hp_last p < i -> log_of h !! i = None).
  { intros i Hi. destruct (log_of h !! i) eqn:E; [|done].
    destruct (LastIndex_bound p h d i _ Hh E). lia. }
  case_decide as Hlt.
  { st. symmetry. apply log_range_none. intros i Hi. apply Hnone. lia. }
  match goal with |- (let '(a, p') := ?X in _).1 = _ => replace ((let '(a, p') := X in
    (a, s <| lp_persister := Some p' |>)).1) with X.1 by by destruct X end.
  rewrite (restore_batches_ok h d) by
    (try done; unfold kRestoreBatchSize in *;
     pose proof (Z.mul_succ_div_gt (hp_last p - start_index) 1000);
     rewrite ?Nat2Z.inj_succ, ?Z2Nat.id by (apply Z.div_pos; lia); lia).
  cbn [app]. symmetry. apply log_range_shrink; [unfold kRestoreBatchSize in *; lia..|].
  intros i Hi. apply Hnone. lia.
Qed.

(** C6. From the callback to the next start: the log persister runs over the
    hybrid persister on a directory that was empty, with system calls that work
    and a database that can be read, under any schedule of its steps and any
    policy.  When the process is killed between two steps, and so not inside a call
    of the persister, the next start succeeds and finds a prefix of the history of
    appends and truncations that was issued, with every entry whose callback
    reported success; reads give the log of that prefix.  A kill between the two
    writes of a flush is not covered: [Open] then fails
    ([missing_trailer_blocks_open]). *)
Theorem acknowledged_survives_restart dir msg d (db db' : DB) config now owner cs :
  d_tape d = [] -> d_kind d <> NotDir -> d_files d = ∅ -> db_healthy db -> db_healthy db' ->
  Forall (call_fits (P := HP) owner) cs -> Z.of_nat (length cs * S (length cs)) + 2 <= UINT64_MAX ->
  let p := (HpOpen dir msg (HybridPersister_new d db)).2 in
  let s := lp_run (LogPersister_new (Some p) config now) cs in
  exists p1 issued durable p2 found,
    lp_persister s = Some p1 /\ holds p1 issued durable /\
    HpOpen dir msg (hp_killed p1 db') = (StOK, p2) /\ found `prefix_of` issued /\
    (forall k st, (k, st) ∈ lp_fired s -> status_ok st = true -> CEntry (owner k) ∈ found) /\
    (forall i, (HpGetEntry i p2).1 = log_get i (log_of found)).
Proof.
  intros Ht Hk Hf Hd Hd' Hcs HN p s.
  destruct (HpOpen_new dir msg d (StatePersister_new db) Ht Hk Hf eq_refl Hd) as (p0 & E0 & H0). unfold s, p, HybridPersister_new. rewrite E0. cbn [snd].
  assert (HN' : Z.of_nat (length cs * S (length cs)) <= max_history (P := HP)) by (cbn; lia).
  destruct (lp_run_inv owner (length cs) HN' ltac:(lia) cs _ p0 [] [] 0
    (lp_new_inv owner _ HN' p0 config now H0)) as (p1 & h & d1 & I & _); [lia|done|].
  destruct (HpOpen_killed dir msg p1 h d1 (StatePersister_new db') (li_holds _ _ _ _ _ _ _ I) eq_refl Hd') as (p2 & q & R2 & Hq & Ho & Hw).
  exists p1, h, d1, p2, (d1 ++ q). split; [apply I|]. split; [apply I|]. split_and!; [done..| |].
  - intros k st Hin Hst. apply elem_of_app. left. by apply (li_fired _ _ _ _ _ _ _ I k st).
  - intros i. by eapply HpGetEntry_ok.
Qed.
End theorems.

(** ** Runs *)
Import PlainLib PlainJson.

Definition sample_owner (k : nat) : RaftLogEntry := sample_entry (Z.of_nat k) "a".
Definition sample_run : list LpCall :=
  [LStart; LAppend (sample_owner 1) (Some 1%nat) None; LAppend (sample_owner 2) (Some 2%nat) None;
   LFlush 0 None; LFlush 0 None; LFlush 0 None; LRequestSync; LSync 0; LSync 0; LSync 0;
   LAppend (sample_owner 3) (Some 3%nat) None; LFlush 0 None].
Definition sample_hybrid : HybridPersister MemDb :=
  (HpOpen "data" "" (HybridPersister_new empty_disk empty_db)).2.
Definition sample_lp : LogPersister (HybridPersister MemDb) :=
  lp_run (LogPersister_new (Some sample_hybrid) LogPersistenceConfig_default 0) sample_run.

Lemma sample_run_fits : Forall (call_fits (P := HybridPersister MemDb) sample_owner) sample_run.
Proof.
  unfold sample_run. repeat constructor; try done; intros; simplify_eq; try done.
  all: simpl; cmd_ok_tac.
Qed.

Lemma sample_hybrid_holds : hp_holds sample_hybrid [] [].
Proof.
  destruct (HpOpen_new "data" "" empty_disk (StatePersister_new empty_db)) as (p & E & Hp); [done..|].
  unfold sample_hybrid, HybridPersister_new. by rewrite E.
Qed.

Lemma acknowledged_is_durable_witness :
  (1%nat, StOK) ∈ lp_fired sample_lp /\
  exists p' h d, lp_persister sample_lp = Some p' /\ holds p' h d /\
    forall k st, (k, st) ∈ lp_fired sample_lp -> status_ok st = true -> CEntry (sample_owner k) ∈ d.
Proof.
  split; [vm_compute; constructor|].
  apply (acknowledged_is_durable sample_hybrid LogPersistenceConfig_default 0 sample_owner sample_run).
  - apply sample_hybrid_holds.
  - apply sample_run_fits.
  - by vm_compute.
  - by vm_compute.
Defined.

Lemma acknowledged_survives_restart_witness :
  exists p1 issued durable p2 found,
    lp_persister sample_lp = Some p1 /\ holds p1 issued durable /\
    HpOpen "data" "" (hp_killed p1 empty_db) = (StOK, p2) /\ found `prefix_of` issued /\
    (forall k st, (k, st) ∈ lp_fired sample_lp -> status_ok st = true ->
       CEntry (sample_owner k) ∈ found) /\
    (forall i, (HpGetEntry i p2).1 = log_get i (log_of found)).
Proof.
  unfold sample_lp, sample_hybrid.
  apply (acknowledged_survives_restart "data" "" empty_disk empty_db empty_db
    LogPersistenceConfig_default 0 sample_owner sample_run).
  - done.
  - done.
  - done.
  - done.
  - done.
  - apply sample_run_fits.
  - by vm_compute.
Defined.

(** Two entries in the log of a persister. *)
Definition two_cmds : list Cmd := map CEntry [sample_entry 1 "a"; sample_entry 2 "bb"].
Definition two_entries : HybridPersister MemDb :=
  (HpAppendEntries [sample_entry 1 "a"; sample_entry 2 "bb"] sample_hybrid).2.

Lemma two_entries_holds : hp_holds two_entries two_cmds [].
Proof.
  destruct (append_all_ok [sample_entry 1 "a"; sample_entry 2 "bb"] sample_hybrid [] [] sample_hybrid_holds)
    as (p & E & Hp).
  - destruct sample_entry_ok. by repeat constructor.
  - by vm_compute.
  - unfold two_entries, HpAppendEntries, if_open. st.
    rewrite (proj1 sample_hybrid_holds). cbn [negb]. by rewrite E.
Qed.

Lemma restore_returns_log_witness :
  (Restore 1 (LogPersister_new (Some two_entries) LogPersistenceConfig_default 0)).1 =
    log_range 1 (UINT64_MAX + 1) (log_of two_cmds).
Proof.
  apply (restore_returns_log _ two_entries two_cmds [] 1 (sample_entry 2 "bb")).
  - done.
  - apply two_entries_holds.
  - done.
  - by vm_compute.
  - by vm_compute.
  - by vm_compute.
Defined.

(** A batch that could not be written goes back behind what was appended in the
    meantime.  Of two entries of one index the older one is written last: both
    are reported durable, and the older one is read. *)
Definition reorder_config : LogPersistenceConfig :=
  mkLogPersistenceConfig 100 10 true kSyncAdaptive 50 1000 (4 * 1024 * 1024) 5000 (100 * 1024 * 1024)
    "data".
Definition reorder_run : list LpCall :=
  let room := Some (100000, 4096) in
  [LStart; LAppend (sample_entry 1 "older") (Some 1%nat) room; LFlush 0 room;
   LAppend (sample_entry 1 "newer") (Some 2%nat) room; LFlush 0 (Some (0, 4096));
   LFlush 0 room; LFlush 0 room; LFlush 0 room; LRequestSync; LSync 0; LSync 0; LSync 0].

Theorem failed_flush_reorders :
  let s := lp_run (LogPersister_new (Some sample_hybrid) reorder_config 0) reorder_run in
  lp_fired s = [(2%nat, StOK); (1%nat, StOK)] /\
  (fun p => if (HpGetEntry 1 p).1 is inr e then data_ e else "") <$> lp_persister s = Some "older".
Proof. by vm_compute. Qed.
