(* ===== verification/Json.v ===== *)
(** * JSON values

    The values of the JSON library as the source uses them: objects are kept in
    the order of their keys, as in its [std::map]; numbers are integers, or
    floating-point numbers known by their integral part, to which conversions
    truncate.  Parsing and printing are the class [JsonText] with its laws: a
    value is printed when its strings are UTF-8, and read back as it was. *)

From Stdlib Require Import Ascii.
From S2P Require Import Prelude Types RaftLog Quorum RaftGroup Timers Replicate Membership Text Bytes DenseIndex Disk Wal WalScan.

Inductive json :=
| Jnull
| Jbool (b : bool)
| Jint (z : Z)
| Jfloat (truncated : Z)
| Jstr (s : string)
| Jarr (l : list json)
| Jobj (members : list (string * json)).

(** ** Objects *)

(** [j[key] = v] *)
Fixpoint members_set (k : string) (v : json) (l : list (string * json)) : list (string * json) :=
  match l with
  | [] => [(k, v)]
  | (k', v') :: l' =>
      match String.compare k k' with
      | Lt => (k, v) :: l
      | Eq => (k, v) :: l'
      | Gt => (k', v') :: members_set k v l'
      end
  end.

Definition json_object (l : list (string * json)) : json :=
  Jobj (foldl (fun o kv => members_set kv.1 kv.2 o) [] l).

Fixpoint members_get (k : string) (l : list (string * json)) : option json :=
  match l with
  | [] => None
  | (k', v) :: l' => if decide (k = k') then Some v else members_get k l'
  end.

(** [contains] is false for a value that is not an object. *)
Definition json_get (j : json) (k : string) : option json :=
  match j with Jobj l => members_get k l | _ => None end.
Definition json_has (j : json) (k : string) : bool := bool_decide (is_Some (json_get j k)).

(** ** Conversions, [None] for the exception *)

Definition json_number (j : json) : option Z :=
  match j with
  | Jint z | Jfloat z => Some z
  | Jbool b => Some (if b then 1 else 0)
  | _ => None
  end.
Definition to_u32 (j : json) : option Z := u32 <$> json_number j.
(** The library's own unsigned type is not converted to from a boolean. *)
Definition to_u64 (j : json) : option Z :=
  match j with Jbool _ => None | _ => u64 <$> json_number j end.
Definition to_i32 (j : json) : option Z := i32 <$> json_number j.
Definition to_bool (j : json) : option bool := match j with Jbool b => Some b | _ => None end.
Definition to_str (j : json) : option string := match j with Jstr s => Some s | _ => None end.

(** ** UTF-8 *)

Definition in_range (lo hi : Z) (a : ascii) : bool :=
  bool_decide (lo <= Z.of_N (N_of_ascii a) <= hi).
Definition is_tail (a : ascii) : bool := in_range 0x80 0xBF a.

(** The bytes of well-formed sequences. *)
Fixpoint utf8 (s : string) : bool :=
  match s with
  | EmptyString => true
  | String a s1 =>
    if in_range 0 0x7F a then utf8 s1
    else match s1 with
    | EmptyString => false
    | String b s2 =>
      if in_range 0xC2 0xDF a then is_tail b && utf8 s2
      else match s2 with
      | EmptyString => false
      | String c s3 =>
        let second3 := if in_range 0xE0 0xE0 a then in_range 0xA0 0xBF b
                       else if in_range 0xED 0xED a then in_range 0x80 0x9F b else is_tail b in
        if in_range 0xE0 0xEF a then second3 && is_tail c && utf8 s3
        else match s3 with
        | EmptyString => false
        | String d s4 =>
          let second4 := if in_range 0xF0 0xF0 a then in_range 0x90 0xBF b
                         else if in_range 0xF4 0xF4 a then in_range 0x80 0x8F b else is_tail b in
          in_range 0xF0 0xF4 a && second4 && is_tail c && is_tail d && utf8 s4
        end
      end
    end
  end.

Fixpoint json_utf8 (j : json) : bool :=
  match j with
  | Jstr s => utf8 s
  | Jarr l => forallb json_utf8 l
  | Jobj l => forallb (fun '(k, v) => utf8 k && json_utf8 v) l
  | _ => true
  end.

(** ** The library *)

(** Values that are printed and parsed to themselves: integers of 64 bits, keys
    in order, and no floating-point numbers. *)
Fixpoint sorted_keys (l : list string) : bool :=
  match l with
  | k :: (k' :: _) as l' => bool_decide (String.compare k k' = Lt) && sorted_keys l'
  | _ => true
  end.
Fixpoint json_plain (j : json) : bool :=
  match j with
  | Jint z => bool_decide (-9223372036854775808 <= z <= UINT64_MAX)
  | Jfloat _ => false
  | Jarr l => forallb json_plain l
  | Jobj l => sorted_keys (map fst l) && forallb (fun '(_, v) => json_plain v) l
  | _ => true
  end.

(** [inl] is the text of an exception; [jt_type_error] the text of the exception
    of a conversion, one for all of them. *)
Class JsonText := {
  jt_parse : string -> string + json;
  jt_dump : json -> string + string;
  jt_type_error : string
}.

Class JsonTextLaws `{!JsonText} := {
  jt_round_trip j : json_plain j = true -> json_utf8 j = true ->
    exists s, jt_dump j = inr s /\ jt_parse s = inr j;
  jt_strict j : json_utf8 j = false -> exists what, jt_dump j = inl what
}.

(** ** An instance: a value is printed as the bits of its number *)

Section induction.
Context (P : json -> Prop).
Context (Hnull : P Jnull) (Hbool : forall b, P (Jbool b)) (Hint : forall z, P (Jint z))
  (Hfloat : forall z, P (Jfloat z)) (Hstr : forall s, P (Jstr s))
  (Harr : forall l, Forall P l -> P (Jarr l)) (Hobj : forall l, Forall (fun kv => P kv.2) l -> P (Jobj l)).

Fixpoint json_rect_nested (j : json) : P j :=
  match j with
  | Jnull => Hnull
  | Jbool b => Hbool b
  | Jint z => Hint z
  | Jfloat z => Hfloat z
  | Jstr s => Hstr s
  | Jarr l => Harr l ((fix go l : Forall P l :=
      match l with [] => Forall_nil _ | j :: l => @List.Forall_cons _ P j l (json_rect_nested j) (go l) end) l)
  | Jobj l => Hobj l ((fix go l : Forall (fun kv => P kv.2) l :=
      match l with
      | [] => Forall_nil _
      | kv :: l => @List.Forall_cons _ (fun kv => P kv.2) kv l (json_rect_nested kv.2) (go l)
      end) l)
  end.
End induction.

Definition leaf : Type := bool + Z + Z + string.
Fixpoint json_tree (j : json) : gen_tree leaf :=
  match j with
  | Jnull => GenNode 0 []
  | Jbool b => GenLeaf (inl (inl (inl b)))
  | Jint z => GenLeaf (inl (inl (inr z)))
  | Jfloat z => GenLeaf (inl (inr z))
  | Jstr s => GenLeaf (inr s)
  | Jarr l => GenNode 1 (map json_tree l)
  | Jobj l => GenNode 2 (map (fun '(k, v) => GenNode 3 [GenLeaf (inr k); json_tree v]) l)
  end.
Fixpoint tree_json (t : gen_tree leaf) : json :=
  match t with
  | GenLeaf (inl (inl (inl b))) => Jbool b
  | GenLeaf (inl (inl (inr z))) => Jint z
  | GenLeaf (inl (inr z)) => Jfloat z
  | GenLeaf (inr s) => Jstr s
  | GenNode 1 l => Jarr (map tree_json l)
  | GenNode 2 l => Jobj (map (fun t => match t with
      | GenNode _ [GenLeaf (inr k); v] => (k, tree_json v) | _ => ("", Jnull) end) l)
  | GenNode _ _ => Jnull
  end.

Lemma tree_json_tree j : tree_json (json_tree j) = j.
Proof.
  induction j as [| | | | |l IH|l IH] using json_rect_nested; try done; simpl; f_equal.
  - rewrite map_map. induction IH as [|j l Hj _ IH]; simpl; [done|]. by f_equal.
  - rewrite map_map. induction IH as [|[k v] l Hj _ IH]; simpl in *; [done|]. by rewrite Hj, IH.
Qed.

Definition json_code (j : json) : positive := encode (json_tree j).

Fixpoint bits (p : positive) : string :=
  match p with
  | xH => ""
  | xO p => String "0" (bits p)
  | xI p => String "1" (bits p)
  end.
Fixpoint of_bits (s : string) : option positive :=
  match s with
  | EmptyString => Some xH
  | String "0" s => xO <$> of_bits s
  | String "1" s => xI <$> of_bits s
  | String _ _ => None
  end.
Lemma of_bits_bits p : of_bits (bits p) = Some p.
Proof. induction p as [p IH|p IH|]; simpl; by rewrite ?IH. Qed.

Module PlainText.
#[export] Instance text : JsonText := {
  jt_parse s :=
    match of_bits s ≫= decode with
    | Some t => inr (tree_json t)
    | None => inl "parse error"
    end;
  jt_dump j := if json_utf8 j then inr (bits (json_code j)) else inl "invalid UTF-8 byte";
  jt_type_error := "type must be number"
}.

#[export] Instance laws : JsonTextLaws.
Proof.
  split.
  - intros j _ Hu. exists (bits (json_code j)). simpl. rewrite Hu. split; [done|].
    rewrite of_bits_bits. simpl. unfold json_code. by rewrite decode_encode, tree_json_tree.
  - intros j Hu. simpl. rewrite Hu. by eexists.
Qed.
End PlainText.
