(* ===== verification/Protocol.v ===== *)
(** * The wire protocol: [src/json_protocol.cpp]

    Requests and responses as JSON objects and back.  An envelope carries the
    ids every message has.  Where the source reads into a fresh object of the
    type the data names, the model returns the message.  A message whose type
    does not agree with its class is not represented, so the "unknown type"
    results of serializing do not occur. *)

From Stdlib Require Import Ascii.
From S2P Require Import Prelude Types RaftLog Quorum Sessions RaftGroup Timers Replicate Membership Text Apply Election Leader Follower Snapshots NodeCore Json.

Definition SerializeError (msg : string) : Status := mkStatus kSerializeError msg "".
Definition DeSerializeError (msg : string) : Status := mkStatus kDeSerializeError msg "".
Definition ProtocolError (msg : string) : Status := mkStatus kProtocolError msg "".

(** ** Message types *)

Inductive RaftMessageType :=
| KInvalid
| KRequestVoteRequest | KRequestVoteResponse
| KAppendEntriesRequest | KAppendEntriesResponse
| KInstallSnapshotRequest | KInstallSnapshotResponse
| KClientRequest | KClientResponse
| KConfigChangeRequest | KConfigChangeResponse
| KPreVoteRequest | KPreVoteResponse
| KReadIndexRequest | KReadIndexResponse
| KOther (code : Z).

#[global] Instance RaftMessageType_eq_dec : EqDecision RaftMessageType.
Proof. solve_decision. Defined.

(** The cast to an [int8_t] enumeration. *)
Definition i8 (z : Z) : Z :=
  let m := z mod 256 in
  if decide (m < 128) then m else m - 256.

Definition IntToMessageType (type_id : Z) : RaftMessageType :=
  let c := i8 type_id in
  if decide (c = -1) then KInvalid
  else if decide (c < 0) then KOther c
  else nth (Z.to_nat c)
    [KRequestVoteRequest; KRequestVoteResponse; KAppendEntriesRequest; KAppendEntriesResponse;
     KInstallSnapshotRequest; KInstallSnapshotResponse; KClientRequest; KClientResponse;
     KConfigChangeRequest; KConfigChangeResponse; KPreVoteRequest; KPreVoteResponse;
     KReadIndexRequest; KReadIndexResponse] (KOther c).

(** ** Messages *)

Record Envelope := mkEnvelope {
  en_correlation_id : Z;
  en_group_id : Z
}.

Inductive WireRequest :=
| WRequestVote (r : RequestVoteRequest)
| WAppendEntries (r : AppendEntriesRequest)
| WInstallSnapshot (r : InstallSnapshotRequest)
| WClient (r : ClientRequest)
| WPreVote (r : PreVoteRequest)
| WReadIndex.

Record ReadIndexResponse := mkReadIndexResponse {
  rir_term : Term;
  rir_read_index : Index;
  rir_leader_valid : bool
}.

Inductive WireResponse :=
| RRequestVote (r : RequestVoteResponse)
| RAppendEntries (r : AppendEntriesResponse)
| RInstallSnapshot (r : InstallSnapshotResponse)
| RClient (r : ClientResponse)
| RPreVote (r : PreVoteResponse)
| RReadIndex (r : ReadIndexResponse).

(** ** Serializing *)

Definition entry_json (entry : RaftLogEntry) : json :=
  json_object
    [("index", Jint (index_ entry)); ("term", Jint (term_ entry)); ("data", Jstr (data_ entry));
     ("command", Jstr (command_ entry)); ("checksum", Jint (checksum_ entry))].
Definition SerializeEntries (entries : list RaftLogEntry) : json := Jarr (map entry_json entries).

Definition envelope_fields (e : Envelope) (type_id : Z) : list (string * json) :=
  [("correlation_id", Jint (en_correlation_id e)); ("group_id", Jint (en_group_id e));
   ("type", Jint type_id)].

Definition request_json (e : Envelope) (req : WireRequest) : json :=
  json_object
  (match req with
   | WRequestVote r => envelope_fields e 0 ++
       [("term", Jint (rv_term r)); ("candidate_id", Jint (rv_candidate_id r));
        ("last_log_index", Jint (rv_last_log_index r)); ("last_log_term", Jint (rv_last_log_term r))]
   | WAppendEntries r => envelope_fields e 2 ++
       [("term", Jint (ae_term r)); ("leader_id", Jint (ae_leader_id r));
        ("prev_log_index", Jint (ae_prev_log_index r)); ("prev_log_term", Jint (ae_prev_log_term r));
        ("leader_commit", Jint (ae_leader_commit r)); ("entries", SerializeEntries (ae_entries r))]
   | WInstallSnapshot r => envelope_fields e 4 ++
       [("term", Jint (is_term r)); ("leader_id", Jint (is_leader_id r));
        ("last_included_index", Jint (is_last_included_index r));
        ("last_included_term", Jint (is_last_included_term r)); ("offset", Jint (is_offset r));
        ("data", Jstr (is_data r)); ("done", Jbool (is_done r))]
   | WClient r => envelope_fields e 6 ++
       [("command", Jstr (cr_command r)); ("client_id", Jint (cr_client_id r));
        ("seq", Jint (cr_seq r)); ("read_only", Jbool (cr_read_only r))]
   | WPreVote r => envelope_fields e 10 ++
       [("term", Jint (pv_term r)); ("candidate_id", Jint (pv_candidate_id r));
        ("last_log_index", Jint (pv_last_log_index r)); ("last_log_term", Jint (pv_last_log_term r))]
   | WReadIndex => envelope_fields e 12
   end).

Definition response_json (e : Envelope) (res : WireResponse) : json :=
  json_object
  (match res with
   | RRequestVote r => envelope_fields e 1 ++
       [("term", Jint (rvr_term r)); ("vote_granted", Jbool (rvr_vote_granted r))]
   | RAppendEntries r => envelope_fields e 3 ++
       [("term", Jint (aer_term r)); ("success", Jbool (aer_success r));
        ("conflict_index", Jint (aer_conflict_index r)); ("entries_count", Jint (aer_entries_count r))]
   | RInstallSnapshot r => envelope_fields e 5 ++ [("term", Jint (isr_term r))]
   | RClient r => envelope_fields e 7 ++
       [("success", Jbool (crs_success r)); ("response", Jstr (crs_response r));
        ("error", Jstr (crs_error r))] ++
       (if decide (crs_error_code r = "") then [] else [("error_code", Jstr (crs_error_code r))]) ++
       [("last_applied_index", Jint (crs_last_applied_index r)); ("leader_id", Jint (crs_leader_id r));
        ("leader_addr", Jstr (crs_leader_addr r))]
   | RPreVote r => envelope_fields e 11 ++
       [("term", Jint (pvr_term r)); ("vote_granted", Jbool (pvr_vote_granted r))]
   | RReadIndex r => envelope_fields e 13 ++
       [("term", Jint (rir_term r)); ("read_index", Jint (rir_read_index r));
        ("leader_valid", Jbool (rir_leader_valid r))]
   end).

Section protocol.
Context `{!JsonText}.

Definition SerializeRequest (e : Envelope) (req : WireRequest) : Status + string :=
  match jt_dump (request_json e req) with
  | inr output => inr output
  | inl what => inl (SerializeError ("Failed to serialize request: " +:+ what))
  end.

Definition SerializeResponse (e : Envelope) (res : WireResponse) : Status + string :=
  match jt_dump (response_json e res) with
  | inr output => inr output
  | inl what => inl (SerializeError ("Failed to serialize response: " +:+ what))
  end.

(** ** Deserializing *)

#[local] Instance status_ret : MRet (sum Status) := fun A a => inr a.
#[local] Instance status_bind : MBind (sum Status) := fun A B k m =>
  match m with inr a => k a | inl err => inl err end.

(** [inl] of a missing field or a failed conversion: the exception. *)
Definition conversion_error : Status :=
  DeSerializeError ("Deserialization error: " +:+ jt_type_error).
Definition field {A} (conv : json -> option A) (j : json) (k : string) : Status + A :=
  match json_get j k ≫= conv with Some a => inr a | None => inl conversion_error end.
Definition opt_field {A} (conv : json -> option A) (j : json) (k : string) (d : A) : Status + A :=
  if json_has j k then field conv j k else inr d.
(** [j.value(key, 0)], an [int], assigned to a [uint64_t]. *)
Definition int_value (j : json) (k : string) : Status + Z :=
  z ← opt_field to_i32 j k 0; mret (u64 z).

Fixpoint read_entries (l : list json) : Status + list RaftLogEntry :=
  match l with
  | [] => mret []
  | e :: rest =>
      if negb (json_has e "index") || negb (json_has e "term") then
        inl (DeSerializeError "Missing entry fields")
      else
        index ← field to_u32 e "index";
        term ← field to_u32 e "term";
        data ← opt_field to_str e "data" "";
        command ← opt_field to_str e "command" "";
        checksum ← opt_field to_u32 e "checksum" 0;
        entries ← read_entries rest;
        mret (mkEntry index term data command checksum :: entries)
  end.

Definition DeserializeEntries (j : json) : Status + list RaftLogEntry :=
  match json_get j "entries" with
  | Some (Jarr l) => read_entries l
  | _ => mret []
  end.

(** [parse], the type and the ids. *)
Definition read_envelope (what input : string) : Status + json * RaftMessageType * Envelope :=
  match jt_parse input with
  | inl error => inl (DeSerializeError ("JSON parse error: " +:+ error))
  | inr j =>
      if negb (json_has j "type") then inl (DeSerializeError ("Missing 'type' field in " +:+ what))
      else
        type_id ← field to_i32 j "type";
        let t := IntToMessageType type_id in
        if decide (t = KInvalid) then
          inl (ProtocolError ("Unknown " +:+ what +:+ " type: " +:+ pretty type_id))
        else
          correlation_id ← int_value j "correlation_id";
          group_id ← int_value j "group_id";
          mret (j, t, mkEnvelope correlation_id group_id)
  end.

Definition has_all (j : json) (keys : list string) : bool := forallb (json_has j) keys.

Definition read_request (j : json) (t : RaftMessageType) : Status + WireRequest :=
  match t with
  | KRequestVoteRequest =>
      if negb (has_all j ["term"; "candidate_id"; "last_log_index"; "last_log_term"]) then
        inl (DeSerializeError "Missing required fields for RequestVote")
      else
        term ← field to_u32 j "term";
        candidate_id ← field to_i32 j "candidate_id";
        last_log_index ← field to_u32 j "last_log_index";
        last_log_term ← field to_u32 j "last_log_term";
        mret (WRequestVote (mkRequestVoteRequest term candidate_id last_log_index last_log_term))
  | KAppendEntriesRequest =>
      if negb (has_all j ["term"; "leader_id"; "prev_log_index"; "prev_log_term"; "leader_commit"]) then
        inl (DeSerializeError "Missing required fields for AppendEntries")
      else
        term ← field to_u32 j "term";
        leader_id ← field to_i32 j "leader_id";
        prev_log_index ← field to_u32 j "prev_log_index";
        prev_log_term ← field to_u32 j "prev_log_term";
        leader_commit ← field to_u32 j "leader_commit";
        entries ← DeserializeEntries j;
        mret (WAppendEntries (mkAppendEntriesRequest term leader_id prev_log_index prev_log_term
                                entries leader_commit))
  | KInstallSnapshotRequest =>
      if negb (has_all j ["term"; "leader_id"; "last_included_index"; "last_included_term"; "offset";
                          "data"; "done"]) then
        inl (DeSerializeError "Missing required fields for InstallSnapshot")
      else
        term ← field to_u32 j "term";
        leader_id ← field to_i32 j "leader_id";
        last_included_index ← field to_u32 j "last_included_index";
        last_included_term ← field to_u32 j "last_included_term";
        offset ← field to_u32 j "offset";
        done_ ← field to_bool j "done";
        data ← field to_str j "data";
        mret (WInstallSnapshot (mkInstallSnapshotRequest term leader_id last_included_index
                                  last_included_term offset data done_))
  | KClientRequest =>
      if negb (has_all j ["command"; "client_id"; "seq"]) then
        inl (DeSerializeError "Missing required fields for ClientRequest")
      else
        command ← field to_str j "command";
        client_id ← field to_u64 j "client_id";
        seq ← field to_u64 j "seq";
        read_only ← opt_field to_bool j "read_only" false;
        mret (WClient (mkClientRequest command client_id seq read_only))
  | KPreVoteRequest =>
      if negb (has_all j ["term"; "candidate_id"; "last_log_index"; "last_log_term"]) then
        inl (DeSerializeError "Missing required fields for PreVote")
      else
        term ← field to_u32 j "term";
        candidate_id ← field to_i32 j "candidate_id";
        last_log_index ← field to_u32 j "last_log_index";
        last_log_term ← field to_u32 j "last_log_term";
        mret (WPreVote (mkPreVoteRequest term candidate_id last_log_index last_log_term))
  | KReadIndexRequest => mret WReadIndex
  | _ => inl (ProtocolError "Unsupported request type")
  end.

Definition DeserializeRequest (input : string) : Status + Envelope * WireRequest :=
  r ← read_envelope "request" input;
  let '(j, t, e) := r in
  req ← read_request j t;
  mret (e, req).

(** The fields of a response that are not in the data keep the values of a
    response just constructed. *)
Definition read_response (j : json) (t : RaftMessageType) : Status + WireResponse :=
  match t with
  | KRequestVoteResponse =>
      if negb (has_all j ["term"; "vote_granted"]) then
        inl (DeSerializeError "Missing required fields for RequestVoteResponse")
      else
        term ← field to_u32 j "term";
        vote_granted ← field to_bool j "vote_granted";
        mret (RRequestVote (mkRequestVoteResponse term vote_granted))
  | KAppendEntriesResponse =>
      if negb (has_all j ["term"; "success"]) then
        inl (DeSerializeError "Missing required fields for AppendEntriesResponse")
      else
        term ← field to_u32 j "term";
        success ← field to_bool j "success";
        conflict_index ← opt_field to_u32 j "conflict_index" 0;
        entries_count ← opt_field to_u32 j "entries_count" 0;
        mret (RAppendEntries (mkAppendEntriesResponse term success conflict_index entries_count))
  | KInstallSnapshotResponse =>
      if negb (has_all j ["term"]) then
        inl (DeSerializeError "Missing required fields for InstallSnapshotResponse")
      else
        term ← field to_u32 j "term";
        mret (RInstallSnapshot (mkInstallSnapshotResponse term))
  | KClientResponse =>
      if negb (has_all j ["success"]) then
        inl (DeSerializeError "Missing required fields for ClientResponse")
      else
        success ← field to_bool j "success";
        response ← opt_field to_str j "response" "";
        error ← opt_field to_str j "error" "";
        error_code ← opt_field to_str j "error_code" "";
        last_applied_index ← opt_field to_u32 j "last_applied_index" 0;
        leader_id ← opt_field to_i32 j "leader_id" (-1);
        leader_addr ← opt_field to_str j "leader_addr" "";
        mret (RClient (mkClientResponse success response error error_code last_applied_index
                         leader_id leader_addr))
  | KPreVoteResponse =>
      if negb (has_all j ["term"; "vote_granted"]) then
        inl (DeSerializeError "Missing required fields for PreVoteResponse")
      else
        term ← field to_u32 j "term";
        vote_granted ← field to_bool j "vote_granted";
        mret (RPreVote (mkPreVoteResponse term vote_granted))
  | KReadIndexResponse =>
      if negb (has_all j ["term"; "read_index"; "leader_valid"]) then
        inl (DeSerializeError "Missing required fields for ReadIndexResponse")
      else
        term ← field to_u32 j "term";
        read_index ← field to_u32 j "read_index";
        leader_valid ← field to_bool j "leader_valid";
        mret (RReadIndex (mkReadIndexResponse term read_index leader_valid))
  | _ => inl (ProtocolError "Unsupported response type")
  end.

Definition DeserializeResponse (input : string) : Status + Envelope * WireResponse :=
  r ← read_envelope "response" input;
  let '(j, t, e) := r in
  res ← read_response j t;
  mret (e, res).
End protocol.

(** ** Messages that can be sent

    The fields are in the ranges of their types, the strings UTF-8. *)

Definition u32_ok (z : Z) : bool := bool_decide (0 <= z <= UINT32_MAX).
Definition u64_ok (z : Z) : bool := bool_decide (0 <= z <= UINT64_MAX).
Definition i32_ok (z : Z) : bool := bool_decide (-2147483648 <= z < 2147483648).

Definition entry_ok (e : RaftLogEntry) : bool :=
  u32_ok (index_ e) && u32_ok (term_ e) && utf8 (data_ e) && utf8 (command_ e) && u32_ok (checksum_ e).

Definition envelope_ok (e : Envelope) : bool :=
  u64_ok (en_correlation_id e) && u64_ok (en_group_id e).

Definition request_ok (req : WireRequest) : bool :=
  match req with
  | WRequestVote r =>
      u32_ok (rv_term r) && i32_ok (rv_candidate_id r) && u32_ok (rv_last_log_index r) &&
      u32_ok (rv_last_log_term r)
  | WAppendEntries r =>
      u32_ok (ae_term r) && i32_ok (ae_leader_id r) && u32_ok (ae_prev_log_index r) &&
      u32_ok (ae_prev_log_term r) && u32_ok (ae_leader_commit r) && forallb entry_ok (ae_entries r)
  | WInstallSnapshot r =>
      u32_ok (is_term r) && i32_ok (is_leader_id r) && u32_ok (is_last_included_index r) &&
      u32_ok (is_last_included_term r) && u32_ok (is_offset r) && utf8 (is_data r)
  | WClient r => utf8 (cr_command r) && u64_ok (cr_client_id r) && u64_ok (cr_seq r)
  | WPreVote r =>
      u32_ok (pv_term r) && i32_ok (pv_candidate_id r) && u32_ok (pv_last_log_index r) &&
      u32_ok (pv_last_log_term r)
  | WReadIndex => true
  end.

Definition response_ok (res : WireResponse) : bool :=
  match res with
  | RRequestVote r => u32_ok (rvr_term r)
  | RAppendEntries r =>
      u32_ok (aer_term r) && u32_ok (aer_conflict_index r) && u32_ok (aer_entries_count r)
  | RInstallSnapshot r => u32_ok (isr_term r)
  | RClient r =>
      utf8 (crs_response r) && utf8 (crs_error r) && utf8 (crs_error_code r) &&
      u32_ok (crs_last_applied_index r) && i32_ok (crs_leader_id r) && utf8 (crs_leader_addr r)
  | RPreVote r => u32_ok (pvr_term r)
  | RReadIndex r => u32_ok (rir_term r) && u32_ok (rir_read_index r)
  end.

(** The ids that come back. *)
Definition narrow (e : Envelope) : Envelope :=
  mkEnvelope (u64 (i32 (en_correlation_id e))) (u64 (i32 (en_group_id e))).

Lemma u32_ok_id z : u32_ok z = true -> u32 z = z.
Proof. unfold u32_ok. rewrite bool_decide_eq_true. apply u32_small. Qed.
Lemma u64_ok_id z : u64_ok z = true -> u64 z = z.
Proof. unfold u64_ok. rewrite bool_decide_eq_true. apply u64_small. Qed.
Lemma i32_ok_id z : i32_ok z = true -> i32 z = z.
Proof.
  unfold i32_ok. rewrite bool_decide_eq_true. intros Hz. unfold i32.
  repeat case_decide; Z.to_euclidean_division_equations; lia.
Qed.

(** Every integer of a message is a JSON integer. *)
Lemma u32_ok_plain z : u32_ok z = true -> json_plain (Jint z) = true.
Proof. unfold u32_ok; simpl; rewrite !bool_decide_eq_true; unfold UINT32_MAX, UINT64_MAX; lia. Qed.
Lemma u64_ok_plain z : u64_ok z = true -> json_plain (Jint z) = true.
Proof. unfold u64_ok; simpl; rewrite !bool_decide_eq_true; unfold UINT64_MAX; lia. Qed.
Lemma i32_ok_plain z : i32_ok z = true -> json_plain (Jint z) = true.
Proof. unfold i32_ok; simpl; rewrite !bool_decide_eq_true; unfold UINT64_MAX; lia. Qed.

Create HintDb wire.
#[export] Hint Resolve u32_ok_plain u64_ok_plain i32_ok_plain : wire.
#[export] Hint Rewrite u32_ok_id u64_ok_id i32_ok_id using assumption : wire.

(** ** Objects of sendable fields *)

(** A value that is printed and read back. *)
Definition sendable (j : json) : Prop := json_plain j = true /\ json_utf8 j = true.
Definition sendable_field (kv : string * json) : Prop := utf8 kv.1 = true /\ sendable kv.2.

Lemma members_set_Forall (P : string * json -> Prop) k v l :
  P (k, v) -> Forall P l -> Forall P (members_set k v l).
Proof.
  intros Hkv. induction 1 as [|[k' v'] l Hx Hl IH]; simpl; [by repeat constructor|].
  destruct (String.compare k k'); by repeat constructor.
Qed.

Lemma members_Forall (P : string * json -> Prop) l acc :
  Forall P l -> Forall P acc -> Forall P (foldl (fun o kv => members_set kv.1 kv.2 o) acc l).
Proof.
  intros Hl. revert acc. induction Hl as [|[k v] l Hx Hl IH]; intros acc Hacc; simpl; [done|].
  apply IH, members_set_Forall; done.
Qed.

Definition keys_of (j : json) : list string := match j with Jobj l => map fst l | _ => [] end.

Lemma object_sendable l :
  sorted_keys (keys_of (json_object l)) = true -> Forall sendable_field l -> sendable (json_object l).
Proof.
  unfold json_object, sendable. simpl. intros Hs Hl.
  pose proof (members_Forall _ _ [] Hl (Forall_nil_2 _)) as Hm. rewrite Hs. simpl.
  rewrite !forallb_forall. rewrite list.Forall_forall in Hm.
  split; intros [k v] Hin%list_elem_of_In; destruct (Hm _ Hin) as (Hk & Hp & Hu);
    simpl in *; by rewrite ?Hk, ?Hp, ?Hu.
Qed.

Lemma array_sendable l : Forall sendable l -> sendable (Jarr l).
Proof.
  rewrite list.Forall_forall. intros Hl. unfold sendable. simpl. rewrite !forallb_forall.
  split; intros j Hin%list_elem_of_In; apply Hl; done.
Qed.

Lemma int_sendable z : json_plain (Jint z) = true -> sendable (Jint z).
Proof. done. Qed.
Lemma str_sendable s : utf8 s = true -> sendable (Jstr s).
Proof. done. Qed.
Lemma bool_sendable b : sendable (Jbool b).
Proof. done. Qed.
#[export] Hint Resolve array_sendable int_sendable str_sendable bool_sendable : wire.

(** Splits the boolean conditions of a message into the conditions of its
    fields. *)
Ltac split_ok :=
  repeat match goal with H : _ && _ = true |- _ => apply andb_true_iff in H as [? ?] end.
Ltac sendable_fields :=
  apply object_sendable; [reflexivity|];
  repeat first [apply Forall_nil_2 | apply Forall_cons_2; [split; [reflexivity|]|]];
  cbn [snd]; auto with wire.

Lemma entry_sendable e : entry_ok e = true -> sendable (entry_json e).
Proof. unfold entry_ok. intros. split_ok. sendable_fields. Qed.

Lemma entries_sendable l : forallb entry_ok l = true -> sendable (SerializeEntries l).
Proof.
  rewrite forallb_forall. intros Hl. apply array_sendable, list.Forall_forall.
  intros j (e & -> & He%list_elem_of_In)%list_elem_of_fmap. by apply entry_sendable, Hl.
Qed.
#[export] Hint Resolve entries_sendable : wire.

Lemma request_sendable e req :
  envelope_ok e = true -> request_ok req = true -> sendable (request_json e req).
Proof.
  unfold envelope_ok, request_ok. intros. destruct req; split_ok; sendable_fields.
Qed.

Lemma response_sendable e res :
  envelope_ok e = true -> response_ok res = true -> sendable (response_json e res).
Proof.
  unfold envelope_ok, response_ok. intros. destruct res as [| | |r| |]; split_ok;
    [sendable_fields..| |sendable_fields|sendable_fields].
  unfold response_json. case_decide; sendable_fields.
Qed.

(** ** Round trips *)

Section round_trip.
Context `{!JsonText}.

Lemma read_entries_back l :
  forallb entry_ok l = true -> read_entries (map entry_json l) = inr l.
Proof.
  induction l as [|e l IH]; [done|]. cbn [forallb map]. intros [He Hl]%andb_true_iff.
  specialize (IH Hl). revert IH. generalize (map entry_json l). intros js IH.
  unfold entry_ok in He. split_ok. destruct e; simpl in *.
  revert IH. cbv -[u32]. intros ->. by autorewrite with wire.
Qed.

(** The type and the fields of a request are found again. *)
Lemma read_request_back e req :
  request_ok req = true ->
  exists t, IntToMessageType <$> (json_get (request_json e req) "type" ≫= to_i32) = Some t /\
    t <> KInvalid /\ read_request (request_json e req) t = inr req.
Proof.
  unfold request_ok. intros. destruct req as [r|r|r|r|r|]; eexists;
    (split; [reflexivity|]); (split; [done|]); split_ok; try destruct r; simpl in *.
  - cbv -[u32 i32]. by autorewrite with wire.
  - pose proof (read_entries_back ae_entries ltac:(assumption)) as Hback. revert Hback.
    unfold request_json, SerializeEntries. cbn [Types.ae_entries].
    generalize (map entry_json ae_entries). intros js.
    cbv -[u32 i32 read_entries]. intros ->. by autorewrite with wire.
  - cbv -[u32 i32]. by autorewrite with wire.
  - cbv -[u64]. by autorewrite with wire.
  - cbv -[u32 i32]. by autorewrite with wire.
  - done.
Qed.

Lemma read_response_back e res :
  response_ok res = true ->
  exists t, IntToMessageType <$> (json_get (response_json e res) "type" ≫= to_i32) = Some t /\
    t <> KInvalid /\ read_response (response_json e res) t = inr res.
Proof.
  unfold response_ok. intros. destruct res as [r|r|r|r|r|r].
  4: { destruct r as [? ? ? code]. unfold response_json. cbn [crs_error_code]. case_decide;
       eexists; (split; [reflexivity|]); (split; [done|]); simpl in *; split_ok; subst;
       cbv -[u32 i32]; by autorewrite with wire. }
  all: eexists; (split; [reflexivity|]); (split; [done|]); split_ok; destruct r; simpl in *;
    cbv -[u32]; by autorewrite with wire.
Qed.

Lemma ids_back e req :
  int_value (request_json e req) "correlation_id" = inr (u64 (i32 (en_correlation_id e))) /\
  int_value (request_json e req) "group_id" = inr (u64 (i32 (en_group_id e))).
Proof. by destruct req. Qed.

Lemma response_ids_back e res :
  int_value (response_json e res) "correlation_id" = inr (u64 (i32 (en_correlation_id e))) /\
  int_value (response_json e res) "group_id" = inr (u64 (i32 (en_group_id e))).
Proof. destruct res as [| | |r| |]; try done. unfold response_json. by case_decide. Qed.

(** The envelope of data whose type and ids are known. *)
Lemma read_envelope_back what input j t c g :
  jt_parse input = inr j ->
  IntToMessageType <$> (json_get j "type" ≫= to_i32) = Some t -> t <> KInvalid ->
  int_value j "correlation_id" = inr c -> int_value j "group_id" = inr g ->
  read_envelope what input = inr (j, t, mkEnvelope c g).
Proof.
  intros Hp Ht Hk Hc Hg. unfold read_envelope, json_has, field. rewrite Hp.
  destruct (json_get j "type") as [v|]; [|done]. simpl in Ht. simpl.
  destruct (to_i32 v); simplify_eq/=. rewrite decide_False by done. by rewrite Hc, Hg.
Qed.

Context `{!JsonTextLaws}.

(** C38. A request whose fields are in the ranges of their types and whose
    strings are UTF-8 is serialized, and what is read from the text is the
    request, with every field and log entry; its correlation and group id come
    back narrowed to 32 bits. *)
Theorem request_round_trip e req :
  envelope_ok e = true -> request_ok req = true ->
  exists s, SerializeRequest e req = inr s /\ DeserializeRequest s = inr (narrow e, req).
Proof.
  intros He Hr. destruct (request_sendable e req He Hr) as [Hp Hu].
  destruct (jt_round_trip _ Hp Hu) as (s & Hs & Hparse).
  destruct (read_request_back e req Hr) as (t & Ht & Hk & Hread).
  destruct (ids_back e req) as [Hc Hg].
  exists s. unfold SerializeRequest, DeserializeRequest. rewrite Hs. split; [done|].
  rewrite (read_envelope_back _ _ _ t _ _ Hparse Ht Hk Hc Hg). simpl. by rewrite Hread.
Qed.

(** The same of responses: every field comes back, an absent error code as
    the empty one. *)
Theorem response_round_trip e res :
  envelope_ok e = true -> response_ok res = true ->
  exists s, SerializeResponse e res = inr s /\ DeserializeResponse s = inr (narrow e, res).
Proof.
  intros He Hr. destruct (response_sendable e res He Hr) as [Hp Hu].
  destruct (jt_round_trip _ Hp Hu) as (s & Hs & Hparse).
  destruct (read_response_back e res Hr) as (t & Ht & Hk & Hread).
  destruct (response_ids_back e res) as [Hc Hg].
  exists s. unfold SerializeResponse, DeserializeResponse. rewrite Hs. split; [done|].
  rewrite (read_envelope_back _ _ _ t _ _ Hparse Ht Hk Hc Hg). simpl. by rewrite Hread.
Qed.

(** A chunk of a snapshot whose bytes are not UTF-8 is never serialized,
    whatever its other fields: snapshots in a binary format cannot be sent. *)
Theorem binary_chunk_not_sent e r :
  utf8 (is_data r) = false ->
  exists what, SerializeRequest e (WInstallSnapshot r) = inl (SerializeError what).
Proof.
  intros Hd. destruct (jt_strict (request_json e (WInstallSnapshot r))) as [what Hw].
  - simpl. rewrite Hd. by rewrite ?andb_false_r.
  - unfold SerializeRequest. rewrite Hw. by eexists.
Qed.
End round_trip.

(** Two different correlation ids are one after the round trip: the ids of
    requests 2^32 apart are not told apart. *)
Theorem ids_collide :
  narrow (mkEnvelope 1 0) = narrow (mkEnvelope 4294967297 0) /\
  narrow (mkEnvelope 2147483648 0) = mkEnvelope 18446744071562067968 0.
Proof. split; reflexivity. Qed.

(** ** Witnesses *)

Import PlainText.

Definition sample_append : WireRequest :=
  WAppendEntries (mkAppendEntriesRequest 3 1 4 2 [mkEntry 5 3 "x" "set" 77; mkEntry 6 3 "" "" 0] 4).

Lemma request_round_trip_witness :
  exists s, SerializeRequest (mkEnvelope 9 0) sample_append = inr s /\
    DeserializeRequest s = inr (mkEnvelope 9 0, sample_append).
Proof. apply (request_round_trip (mkEnvelope 9 0) sample_append); reflexivity. Defined.

Definition sample_refusal : WireResponse :=
  RClient (mkClientResponse false "" "Not leader" "NOT_LEADER" 0 2 "10.0.0.2:9000").

Lemma response_round_trip_witness :
  exists s, SerializeResponse (mkEnvelope 9 7) sample_refusal = inr s /\
    DeserializeResponse s = inr (mkEnvelope 9 7, sample_refusal).
Proof. apply (response_round_trip (mkEnvelope 9 7) sample_refusal); reflexivity. Defined.
