(* ===== verification/Identity.v ===== *)
(** * Identities of peers: [src/tls_identity.cpp], [src/client_authorization.cpp]

    The identity in the certificate of a peer, the connection's acceptance of it
    ([AuthenticateTlsPeer] of [src/asio_network_transport.cpp]), the
    authorization of clients and the validation of its configuration.  A
    certificate is what the TLS library finds in it: the names of its
    subjectAltName extension, if it has one. *)

From Stdlib Require Import Ascii.
From S2P Require Import Prelude Types RaftLog Quorum Sessions RaftGroup Timers Replicate Membership Text Bytes DenseIndex Disk Wal Protocol.

Inductive RpcPeerKind := PEER_ANONYMOUS | PEER_NODE | PEER_CLIENT.

#[global] Instance RpcPeerKind_eq_dec : EqDecision RpcPeerKind.
Proof. solve_decision. Defined.

Record RpcPeerIdentity := mkRpcPeerIdentity {
  kind : RpcPeerKind;
  node_id : NodeId;
  client_identity : string
}.

Definition anonymous : RpcPeerIdentity := mkRpcPeerIdentity PEER_ANONYMOUS (-1) "".

(** ** Identities in certificates *)

Definition char_in (lo hi value : ascii) : bool :=
  bool_decide (N_of_ascii lo <= N_of_ascii value <= N_of_ascii hi)%N.

Definition IsAsciiAlphaNumeric (value : ascii) : bool :=
  char_in "a" "z" value || char_in "A" "Z" value || char_in "0" "9" value.

Definition identity_char (value : ascii) : bool :=
  IsAsciiAlphaNumeric value || bool_decide (value = "."%char) || bool_decide (value = "_"%char) ||
  bool_decide (value = "-"%char).

Definition IsValidClientIdentity (identity : string) : bool :=
  match identity with
  | EmptyString => false
  | String front _ =>
      bool_decide (String.length identity <= 128)%nat && IsAsciiAlphaNumeric front &&
      forallb identity_char (String.list_ascii_of_string identity)
  end.

(** One name of a subjectAltName extension. *)
Inductive GeneralName :=
| GEN_URI (value : string)
| GEN_OTHER.

Definition Certificate : Type := option (list GeneralName).

Definition kRaftNodeSanPrefix : string := "rollingraft-node:".
Definition kRaftClientSanPrefix : string := "rollingraft-client:".

(** [std::from_chars] to an [int64_t], when it consumes the whole text: a minus
    sign or nothing, and digits. *)
Fixpoint digits_value (acc : Z) (s : string) : option Z :=
  match s with
  | EmptyString => Some acc
  | String a s' => d ← digit_of a; digits_value (acc * 10 + d) s'
  end.
Definition unsigned_value (s : string) : option Z :=
  match s with EmptyString => None | _ => digits_value 0 s end.
Definition from_chars_i64 (s : string) : option Z :=
  match s with
  | String "-" s' => v ← unsigned_value s'; if decide (v <= 2 ^ 63) then Some (- v) else None
  | _ => v ← unsigned_value s; if decide (v < 2 ^ 63) then Some v else None
  end.

Definition str_drop (n : nat) (s : string) : string := String.substring n (String.length s - n) s.

Definition TLS_IDENTITY_INVALID (msg : string) : Status := Error2 "TLS_IDENTITY_INVALID" msg.
Definition TLS_IDENTITY_MISSING (msg : string) : Status := Error2 "TLS_IDENTITY_MISSING" msg.

(** The identity a URI with one of the prefixes names. *)
Definition parse_identity (value : string) : Status + RpcPeerIdentity :=
  if starts_with value kRaftNodeSanPrefix then
    match from_chars_i64 (str_drop (String.length kRaftNodeSanPrefix) value) with
    | Some candidate =>
        if decide (candidate < 0 \/ 2147483647 < candidate) then
          inl (TLS_IDENTITY_INVALID ("Invalid rollingraft-node URI SAN: " +:+ value))
        else inr (mkRpcPeerIdentity PEER_NODE candidate "")
    | None => inl (TLS_IDENTITY_INVALID ("Invalid rollingraft-node URI SAN: " +:+ value))
    end
  else
    let client := str_drop (String.length kRaftClientSanPrefix) value in
    if IsValidClientIdentity client then inr (mkRpcPeerIdentity PEER_CLIENT (-1) client)
    else inl (TLS_IDENTITY_INVALID ("Invalid rollingraft-client URI SAN: " +:+ value)).

Definition is_identity_uri (value : string) : bool :=
  starts_with value kRaftNodeSanPrefix || starts_with value kRaftClientSanPrefix.

(** The loop; [found] is the identity parsed so far. *)
Fixpoint extract_names (found : option RpcPeerIdentity) (names : list GeneralName)
    : Status + RpcPeerIdentity :=
  match names with
  | [] =>
      match found with
      | Some identity => inr identity
      | None => inl (TLS_IDENTITY_MISSING "Certificate has no RollingRaft URI SAN")
      end
  | GEN_URI value :: names =>
      if negb (is_identity_uri value) then extract_names found names
      else match found with
      | Some _ => inl (TLS_IDENTITY_INVALID "Certificate contains multiple RollingRaft identities")
      | None =>
          match parse_identity value with
          | inl err => inl err
          | inr identity => extract_names (Some identity) names
          end
      end
  | GEN_OTHER :: names => extract_names found names
  end.

Definition ExtractCertificatePeerIdentity (certificate : option Certificate) : Status + RpcPeerIdentity :=
  match certificate with
  | None => inl (TLS_IDENTITY_MISSING "Peer certificate is missing")
  | Some None => inl (TLS_IDENTITY_MISSING "Certificate has no subjectAltName extension")
  | Some (Some names) => extract_names None names
  end.

Definition ExtractCertificateNodeId (certificate : option Certificate) : Status + NodeId :=
  match ExtractCertificatePeerIdentity certificate with
  | inl err => inl err
  | inr identity =>
      if decide (kind identity = PEER_NODE) then inr (node_id identity)
      else inl (TLS_IDENTITY_MISSING "Certificate has no rollingraft-node URI SAN")
  end.

(** What reading a certificate file gives: [None] when it cannot be opened,
    [Some None] when it holds no certificate. *)
Definition load_certificate (cert_file : string) (pem : option (option Certificate))
    : Status + Certificate :=
  match pem with
  | None => inl (Error2 "TLS_CERT_LOAD_FAILED" ("Failed to open certificate: " +:+ cert_file))
  | Some None => inl (Error2 "TLS_CERT_LOAD_FAILED" ("Failed to parse certificate: " +:+ cert_file))
  | Some (Some certificate) => inr certificate
  end.

Definition ValidateCertificateNodeId (cert_file : string) (pem : option (option Certificate))
    (expected_node_id : NodeId) : Status :=
  match load_certificate cert_file pem with
  | inl err => err
  | inr certificate =>
      match ExtractCertificateNodeId (Some certificate) with
      | inl err => err
      | inr certificate_node_id =>
          if decide (certificate_node_id <> expected_node_id) then
            Error2 "TLS_IDENTITY_MISMATCH"
              ("Certificate identity " +:+ pretty certificate_node_id +:+
               " does not match configured node_id " +:+ pretty expected_node_id)
          else StOK
      end
  end.

Definition ValidateCertificateClientIdentity (cert_file : string) (pem : option (option Certificate))
    : Status :=
  match load_certificate cert_file pem with
  | inl err => err
  | inr certificate =>
      match ExtractCertificatePeerIdentity (Some certificate) with
      | inl err => err
      | inr identity =>
          if decide (kind identity <> PEER_CLIENT) then
            Error2 "TLS_IDENTITY_MISMATCH" "Certificate does not contain a rollingraft-client URI SAN"
          else StOK
      end
  end.

(** ** The connection *)

Record TlsConfig := mkTlsConfig {
  mutual_auth : bool;
  allowed_cns : list string;
  tls_client_auth_enabled : bool
}.

(** The peer a connection expects ([-1] for none) and the identity it has
    authenticated. *)
Record TcpPeer := mkTcpPeer {
  peer_id_ : NodeId;
  peer_context_ : RpcPeerIdentity
}.

Definition AuthenticateTlsPeer (tls_config : option TlsConfig) (certificate : option Certificate)
    (c : TcpPeer) : Status * TcpPeer :=
  match tls_config with
  | None => (StOK, c)
  | Some cfg =>
      if negb (mutual_auth cfg) then (StOK, c)
      else match certificate with
      | None => (TLS_IDENTITY_MISSING "Peer did not present a certificate", c)
      | Some _ =>
        match ExtractCertificatePeerIdentity certificate with
        | inl err => (err, c)
        | inr identity =>
          if tls_client_auth_enabled cfg then
            (StOK, mkTcpPeer (if decide (kind identity = PEER_NODE) then node_id identity else peer_id_ c)
                     identity)
          else if decide (kind identity <> PEER_NODE) then
            (TLS_IDENTITY_MISSING "Peer certificate has no rollingraft-node URI SAN", c)
          else
            let authenticated_id := node_id identity in
            if decide (0 <= peer_id_ c /\ authenticated_id <> peer_id_ c) then
              (Error2 "TLS_IDENTITY_MISMATCH"
                 ("Peer certificate identity " +:+ pretty authenticated_id +:+
                  " does not match expected node " +:+ pretty (peer_id_ c)), c)
            else
              let name := kRaftNodeSanPrefix +:+ pretty authenticated_id in
              if decide (allowed_cns cfg <> [] /\ name ∉ allowed_cns cfg) then
                (Error2 "TLS_IDENTITY_UNAUTHORIZED"
                   ("Peer identity is not in the configured allowlist: " +:+ name), c)
              else
                (StOK, mkTcpPeer authenticated_id
                         (mkRpcPeerIdentity PEER_NODE authenticated_id (client_identity (peer_context_ c))))
        end
      end
  end.

(** ** Authorization *)

Inductive ClientPermission := READ_ONLY | READ_WRITE.

#[global] Instance ClientPermission_eq_dec : EqDecision ClientPermission.
Proof. solve_decision. Defined.

Record ClientAuthorizationRule := mkClientAuthorizationRule {
  identity : string;
  permission : ClientPermission;
  allowed_groups : option (list Z)
}.

(** [emplace] keeps the first rule of an identity. *)
Definition emplace_rule (m : gmap string ClientAuthorizationRule) (rule : ClientAuthorizationRule) :=
  if m !! identity rule is Some _ then m else <[identity rule := rule]> m.
Definition ClientAuthorizationPolicy (rules : list ClientAuthorizationRule)
    : gmap string ClientAuthorizationRule := foldl emplace_rule ∅ rules.

Definition Unauthenticated (msg : string) : Status := mkStatus kUnauthenticated msg "".
Definition PermissionDenied (msg : string) : Status := mkStatus kPermissionDenied msg "".

Definition AuthorizeClientRequest (rules_ : gmap string ClientAuthorizationRule)
    (peer : RpcPeerIdentity) (read_only : bool) (group_id : Z) : Status :=
  if decide (kind peer <> PEER_CLIENT) then
    Unauthenticated "A client certificate is required for client requests"
  else match rules_ !! client_identity peer with
  | None => PermissionDenied "Client identity is not authorized"
  | Some rule =>
      if (if allowed_groups rule is Some groups then negb (bool_decide (group_id ∈ groups)) else false)
      then PermissionDenied "Client identity is not authorized for this group"
      else if negb read_only && negb (bool_decide (permission rule = READ_WRITE)) then
        PermissionDenied "Client identity is not authorized to write"
      else StOK
  end.

Definition IsRaftProtocolRequest (type : RaftMessageType) : bool :=
  match type with
  | KRequestVoteRequest | KAppendEntriesRequest | KInstallSnapshotRequest | KPreVoteRequest
  | KReadIndexRequest => true
  | _ => false
  end.

(** ** Its configuration *)

Fixpoint unique_identities (seen : gset string) (rules : list ClientAuthorizationRule) : bool :=
  match rules with
  | [] => true
  | rule :: rules =>
      IsValidClientIdentity (identity rule) && bool_decide (identity rule ∉ seen) &&
      unique_identities ({[identity rule]} ∪ seen) rules
  end.

Definition ValidateClientAuthConfig (client_auth_enabled tls_enabled tls_mutual_auth : bool)
    (client_ca_file : string) (rules : list ClientAuthorizationRule) : Status :=
  if negb client_auth_enabled then StOK
  else if negb tls_enabled || negb tls_mutual_auth || bool_decide (client_ca_file = "") ||
          bool_decide (rules = []) then
    Error2 "CONFIG_INVALID" "client authentication requires mTLS, client CA, and rules"
  else if unique_identities ∅ rules then StOK
  else Error2 "CONFIG_INVALID" "client authorization identities must be unique".

(** ** One identity in a certificate *)

(** The URIs of a certificate that name an identity. *)
Definition identity_uris (names : list GeneralName) : list string :=
  omap (fun n => match n with
                 | GEN_URI v => if is_identity_uri v then Some v else None
                 | GEN_OTHER => None
                 end) names.

Lemma extract_found i names r :
  extract_names (Some i) names = inr r <-> identity_uris names = [] /\ r = i.
Proof.
  induction names as [|[v|] names IH]; simpl.
  - naive_solver.
  - destruct (is_identity_uri v); simpl; [|done]. split; [done|]. by intros [? ?].
  - done.
Qed.

Lemma extract_names_spec names r :
  extract_names None names = inr r <->
  exists v, identity_uris names = [v] /\ parse_identity v = inr r.
Proof.
  induction names as [|[v|] names IH]; simpl.
  - split; [done|]. by intros (? & ? & ?).
  - destruct (is_identity_uri v) eqn:E; simpl; [|done].
    destruct (parse_identity v) as [err|i] eqn:P.
    + split; [done|]. intros (x & Hx & Hp). injection Hx as <- _. congruence.
    + rewrite extract_found. split; [intros [-> ->]; by exists v|].
      intros (x & Hx & Hp). injection Hx as <- ?. split; [done|congruence].
  - done.
Qed.

Lemma extract_spec certificate r :
  ExtractCertificatePeerIdentity certificate = inr r <->
  exists names v, certificate = Some (Some names) /\ identity_uris names = [v] /\
    parse_identity v = inr r.
Proof.
  destruct certificate as [[names|]|]; simpl; [|split; [done|]; by intros (? & ? & ? & ?)..].
  rewrite extract_names_spec. split.
  - intros (v & ? & ?). by exists names, v.
  - intros (names' & v & [= <-] & ? & ?). by exists v.
Qed.

(** An error is not OK. *)
Lemma extract_error certificate err :
  ExtractCertificatePeerIdentity certificate = inl err -> err <> StOK.
Proof.
  destruct certificate as [[names|]|]; simpl; [|by intros [= <-]..].
  generalize (@None RpcPeerIdentity).
  induction names as [|[v|] names IH]; intros found; simpl; [|destruct (is_identity_uri v)|]; simpl; eauto.
  - destruct found; [done|]. by intros [= <-].
  - destruct found; [by intros [= <-]|]. destruct (parse_identity v) as [err'|] eqn:P; [|eauto].
    intros [= <-]. revert P. unfold parse_identity.
    repeat (case_match || case_decide); naive_solver.
Qed.

(** An identity is a node's, with an id that is one, or a client's, with a name
    that is valid. *)
Lemma parse_identity_ok v r :
  parse_identity v = inr r ->
  (kind r = PEER_NODE /\ 0 <= node_id r <= 2147483647) \/
  (kind r = PEER_CLIENT /\ IsValidClientIdentity (client_identity r) = true).
Proof.
  unfold parse_identity. destruct (starts_with _ _).
  - destruct (from_chars_i64 _) as [z|]; [|done]. case_decide; [done|].
    intros [= <-]. left. simpl. split; [done|]. lia.
  - destruct (IsValidClientIdentity _) eqn:E; [|done]. intros [= <-]. by right.
Qed.

Lemma authenticated_identity certificate r :
  ExtractCertificatePeerIdentity certificate = inr r ->
  (kind r = PEER_NODE /\ 0 <= node_id r <= 2147483647) \/
  (kind r = PEER_CLIENT /\ IsValidClientIdentity (client_identity r) = true).
Proof. intros (? & v & _ & _ & ?)%extract_spec. by eapply parse_identity_ok. Qed.

(** ** Authorization *)

Lemma policy_lookup rules (seen : gset string) (m : gmap string ClientAuthorizationRule) id :
  unique_identities seen rules = true -> (forall k, k ∈ dom m -> k ∈ seen) ->
  forall rule,
  foldl emplace_rule m rules !! id = Some rule <->
  m !! id = Some rule \/ (rule ∈ rules /\ identity rule = id).
Proof.
  revert seen m. induction rules as [|r rules IH]; intros seen m Hu Hm rule; simpl.
  { split; [by left|]. intros [?|[[]%not_elem_of_nil _]]; done. }
  simpl in Hu. apply andb_true_iff in Hu as [[Hv Hn]%andb_true_iff Hu].
  apply bool_decide_eq_true in Hn.
  unfold emplace_rule at 2. destruct (m !! identity r) as [r'|] eqn:E.
  { exfalso. apply Hn, Hm, elem_of_dom. by eexists. }
  rewrite (IH _ _ Hu).
  - rewrite lookup_insert_Some, elem_of_cons. split; [naive_solver|].
    intros [H|[[->|H] <-]]; [|naive_solver..]. left. right. split; [|done]. congruence.
  - intros k. rewrite dom_insert. set_solver.
Qed.

(** What a rule allows. *)
Definition rule_allows (rule : ClientAuthorizationRule) (read_only : bool) (group_id : Z) : Prop :=
  (forall groups, allowed_groups rule = Some groups -> group_id ∈ groups) /\
  (read_only = true \/ permission rule = READ_WRITE).

Lemma authorize_rule rules_ peer read_only group_id rule :
  kind peer = PEER_CLIENT -> rules_ !! client_identity peer = Some rule ->
  AuthorizeClientRequest rules_ peer read_only group_id = StOK <-> rule_allows rule read_only group_id.
Proof.
  intros Hk Hr. unfold AuthorizeClientRequest, rule_allows, PermissionDenied, mkStatus.
  rewrite decide_False, Hr by naive_solver.
  destruct (allowed_groups rule) as [groups|]; [destruct (bool_decide_reflect (group_id ∈ groups))|];
    simpl; (destruct read_only; [|destruct (bool_decide_reflect (permission rule = READ_WRITE))]);
    simpl; naive_solver.
Qed.

(** Under a configuration that validates, a client request is authorized
    exactly when the rule for the client allows it. *)
Lemma authorize_spec rules peer read_only group_id ca :
  ValidateClientAuthConfig true true true ca rules = StOK ->
  AuthorizeClientRequest (ClientAuthorizationPolicy rules) peer read_only group_id = StOK <->
  kind peer = PEER_CLIENT /\
  exists rule, rule ∈ rules /\ identity rule = client_identity peer /\
    rule_allows rule read_only group_id.
Proof.
  unfold ValidateClientAuthConfig. simpl. destruct (_ || _); [done|].
  destruct (unique_identities ∅ rules) eqn:Hu; [|done]. intros _.
  pose proof (policy_lookup rules ∅ ∅ (client_identity peer) Hu ltac:(set_solver)) as Hl.
  fold (ClientAuthorizationPolicy rules) in Hl.
  destruct (decide (kind peer = PEER_CLIENT)) as [Hk|Hk].
  2: { unfold AuthorizeClientRequest. rewrite decide_True by done. split; [done|]. by intros [? _]. }
  destruct (_ !! client_identity peer) as [rule|] eqn:E.
  - rewrite (authorize_rule _ _ _ _ rule) by done.
    destruct (proj1 (Hl rule) eq_refl) as [?|[Hin Hid]]; [done|].
    split; [intros; split; [done|]; by exists rule|].
    intros (_ & rule' & Hin' & Hid' & Ha).
    assert (Some rule = Some rule') as [= <-]; [|done]. apply Hl. by right.
  - unfold AuthorizeClientRequest. rewrite decide_False, E by naive_solver. split; [done|].
    intros (_ & rule & Hin & Hid & _). assert (None = Some rule) as [=]. apply Hl. by right.
Qed.

(** ** Accepting a connection *)

(** Without client authentication, a peer that is accepted is the node its
    certificate names: the expected one, if one is, and on the allowlist, if
    there is one. *)
Lemma accepted_node allowed certificate c c' :
  AuthenticateTlsPeer (Some (mkTlsConfig true allowed false)) certificate c = (StOK, c') ->
  exists r, ExtractCertificatePeerIdentity certificate = inr r /\
    kind r = PEER_NODE /\ kind (peer_context_ c') = PEER_NODE /\
    node_id (peer_context_ c') = node_id r /\ peer_id_ c' = node_id r /\
    (0 <= peer_id_ c -> peer_id_ c = node_id r) /\
    (allowed <> [] -> kRaftNodeSanPrefix +:+ pretty (node_id r) ∈ allowed).
Proof.
  unfold AuthenticateTlsPeer. simpl. destruct certificate as [certificate|]; [|done].
  destruct (ExtractCertificatePeerIdentity _) as [err|r] eqn:E.
  { intros [= ->]. by destruct (extract_error _ _ E). }
  case_decide as Hk; [done|]. case_decide as Hm; [done|]. case_decide as Ha; [done|].
  intros [= <-]. exists r. split_and!; simpl; intros; try done; apply dec_stable; naive_solver.
Qed.

(** With client authentication, neither the expected peer nor the allowlist
    plays a part: a node with any id is accepted. *)
Theorem allowlist_not_checked :
  AuthenticateTlsPeer (Some (mkTlsConfig true ["rollingraft-node:2"] true))
    (Some (Some [GEN_URI "rollingraft-node:9"])) (mkTcpPeer 2 anonymous) =
  (StOK, mkTcpPeer 9 (mkRpcPeerIdentity PEER_NODE 9 "")) /\
  exists err, AuthenticateTlsPeer (Some (mkTlsConfig true ["rollingraft-node:2"] false))
    (Some (Some [GEN_URI "rollingraft-node:9"])) (mkTcpPeer (-1) anonymous) =
  (Error2 "TLS_IDENTITY_UNAUTHORIZED" err, mkTcpPeer (-1) anonymous).
Proof. split; [reflexivity|eexists; reflexivity]. Qed.
