(* ===== verification/Dispatch.v ===== *)
(** * Incoming requests: [HandleIncomingRpc] of [src/rpc_handlers.cpp]

    A request is read, checked against the identity of its sender, handed to its
    handler, and the answer is written.  A client request that has to wait is
    left in [ClientWaiting]; its answer is written by [client_reply]. *)

From S2P Require Import Prelude Types RaftLog Quorum Sessions RaftGroup Timers Replicate Membership Text Apply Election Leader Follower Snapshots NodeCore Json Protocol Identity.

Inductive Dispatched :=
| Replied (response : option string)
| ClientWaiting (e : Envelope) (req : ClientRequest) (p : ClientProgress).

Section dispatch.
Context `{!Env, !JsonText}.

(** The response stays empty when it cannot be serialized. *)
Definition reply (e : Envelope) (res : WireResponse) : Dispatched :=
  Replied (match SerializeResponse e res with inr s => Some s | inl _ => None end).

Definition client_reply (e : Envelope) (res : ClientResponse) : Dispatched := reply e (RClient res).

(** The client's branch; [cb] and [fwd] are those of [client_request_begin]. *)
Definition dispatch_client (rules_ : gmap string ClientAuthorizationRule) (peer : RpcPeerIdentity)
    (e : Envelope) (req : ClientRequest) (cb : Z) (fwd : string + bool * Index * Term) : M Dispatched :=
  g ← getg id;
  let status := if client_auth_enabled (config_ g)
                then AuthorizeClientRequest rules_ peer (cr_read_only req) (group_id_ g)
                else StOK in
  if negb (status_ok status) then
    mret (client_reply e (mkClientResponse false "" (GetMessage status) (CodeName status) 0 (-1) ""))
  else
    p ← client_request_begin req cb fwd;
    mret (match p with Answered res => client_reply e res | p => ClientWaiting e req p end).

(** The switch, with the request that was read. *)
Definition dispatch_request (rules_ : gmap string ClientAuthorizationRule) (peer : RpcPeerIdentity)
    (e : Envelope) (req : WireRequest) (cb : Z) (fwd : string + bool * Index * Term) : M Dispatched :=
  let from := if decide (kind peer = PEER_NODE) then node_id peer else -1 in
  match req with
  | WRequestVote r =>
      if negb (SenderIdentityMatches from (rv_candidate_id r)) then mret (Replied None)
      else res ← HandleRequestVote r; mret (reply e (RRequestVote res))
  | WAppendEntries r =>
      if negb (SenderIdentityMatches from (ae_leader_id r)) then mret (Replied None)
      else res ← HandleAppendEntries r; mret (reply e (RAppendEntries res))
  | WInstallSnapshot r =>
      if negb (SenderIdentityMatches from (is_leader_id r)) then mret (Replied None)
      else res ← HandleInstallSnapshot r; mret (reply e (RInstallSnapshot res))
  | WClient r => dispatch_client rules_ peer e r cb fwd
  | WPreVote r =>
      if negb (SenderIdentityMatches from (pv_candidate_id r)) then mret (Replied None)
      else res ← HandlePreVote r; mret (reply e (RPreVote res))
  | WReadIndex =>
      res ← HandleReadIndexRequest;
      let '(leader_valid, read_index, term) := res in
      mret (reply e (RReadIndex (mkReadIndexResponse term read_index leader_valid)))
  end.

(** The cases of the switch. *)
Definition is_request (t : RaftMessageType) : bool :=
  IsRaftProtocolRequest t || bool_decide (t = KClientRequest).

(** With an authenticated context. *)
Definition HandleIncomingRpc (rules_ : gmap string ClientAuthorizationRule) (peer : RpcPeerIdentity)
    (data : string) (cb : Z) (fwd : string + bool * Index * Term) : M Dispatched :=
  match jt_parse data with
  | inl _ => mret (Replied None)
  | inr j =>
      match json_get j "type" ≫= to_i32 with
      | None => mret (Replied None)
      | Some type_id =>
          let message_type := IntToMessageType type_id in
          g ← getg id;
          if client_auth_enabled (config_ g) && IsRaftProtocolRequest message_type &&
             negb (bool_decide (kind peer = PEER_NODE)) then mret (Replied None)
          else if negb (is_request message_type) then mret (Replied None)
          else match DeserializeRequest data with
          | inl _ => mret (Replied None)
          | inr (e, req) => dispatch_request rules_ peer e req cb fwd
          end
      end
  end.

(** With the id of a peer: it is an identity only without client
    authentication. *)
Definition HandleIncomingRpcFrom (rules_ : gmap string ClientAuthorizationRule) (from : NodeId)
    (data : string) (cb : Z) (fwd : string + bool * Index * Term) : M Dispatched :=
  g ← getg id;
  HandleIncomingRpc rules_
    (if client_auth_enabled (config_ g) then anonymous else mkRpcPeerIdentity PEER_NODE from "")
    data cb fwd.

(** ** The type that is peeked at is the type that is read *)

Definition request_type (req : WireRequest) : RaftMessageType :=
  match req with
  | WRequestVote _ => KRequestVoteRequest
  | WAppendEntries _ => KAppendEntriesRequest
  | WInstallSnapshot _ => KInstallSnapshotRequest
  | WClient _ => KClientRequest
  | WPreVote _ => KPreVoteRequest
  | WReadIndex => KReadIndexRequest
  end.

Lemma read_request_type j t req : read_request j t = inr req -> request_type req = t.
Proof.
  destruct t; try done; unfold read_request, mbind, status_bind, mret, status_ret; simpl;
    repeat (case_match; try done); intros; by simplify_eq/=.
Qed.

Lemma deserialize_type data j e req :
  jt_parse data = inr j -> DeserializeRequest data = inr (e, req) ->
  IntToMessageType <$> (json_get j "type" ≫= to_i32) = Some (request_type req).
Proof.
  intros Hj. unfold DeserializeRequest, read_envelope, field. rewrite Hj.
  destruct (negb _); [done|]. destruct (json_get j "type" ≫= to_i32) as [z|]; [|done]. simpl.
  case_decide; [done|]. destruct (int_value j "correlation_id"); [done|].
  destruct (int_value j "group_id"); [done|]. simpl.
  destruct (read_request j _) as [|req'] eqn:Hr; [done|]. intros [= _ <-]. simpl.
  by rewrite (read_request_type _ _ _ Hr).
Qed.

(** ** Who may change a node *)

(** The node a request says it is from. *)
Definition claimed_sender (req : WireRequest) : option NodeId :=
  match req with
  | WRequestVote r => Some (rv_candidate_id r)
  | WAppendEntries r => Some (ae_leader_id r)
  | WInstallSnapshot r => Some (is_leader_id r)
  | WPreVote r => Some (pv_candidate_id r)
  | WClient _ | WReadIndex => None
  end.

(** A request that is let through: a node's own, or a client's that a rule
    allows. *)
Definition permitted (rules : list ClientAuthorizationRule) (peer : RpcPeerIdentity) (group_id : Z)
    (req : WireRequest) : Prop :=
  match req with
  | WClient r =>
      kind peer = PEER_CLIENT /\
      exists rule, rule ∈ rules /\ identity rule = client_identity peer /\
        rule_allows rule (cr_read_only r) group_id
  | _ => kind peer = PEER_NODE /\ forall id, claimed_sender req = Some id -> id = node_id peer
  end.

Lemma sender_matches from claimed :
  0 <= from -> SenderIdentityMatches from claimed = true -> claimed = from.
Proof.
  unfold SenderIdentityMatches. intros Hf [E|E]%orb_true_iff; apply bool_decide_eq_true in E; lia.
Qed.

Lemma node_request_permitted rules peer gid req claimed :
  kind peer = PEER_NODE -> 0 <= node_id peer -> claimed_sender req = Some claimed ->
  SenderIdentityMatches (node_id peer) claimed = true -> permitted rules peer gid req.
Proof.
  intros Hk Hn Hc Hs%sender_matches; [|done].
  destruct req; simplify_eq/=; (split; [done|]); intros; by simplify_eq.
Qed.

Lemma client_denied rules peer e r cb fwd ca n :
  client_auth_enabled (config_ (group_ n)) = true ->
  ValidateClientAuthConfig true true true ca rules = StOK ->
  final (dispatch_client (ClientAuthorizationPolicy rules) peer e r cb fwd n) = n \/
  permitted rules peer (group_id_ (group_ n)) (WClient r).
Proof.
  intros Ha Hv. unfold dispatch_client, getg, gets, id, mbind, Prog_bind. rewrite Ha. simpl.
  destruct (AuthorizeClientRequest _ _ _ _) eqn:E; [right|by left].
  by apply (authorize_spec _ _ _ _ ca) in E.
Qed.

(** C20. With client authentication enabled, whatever data arrives, the node is
    left as it was unless the sender's certificate permits the request: a node
    certificate, for requests of the Raft protocol whose claimed sender is the
    certificate's node; a client certificate, for client requests that the rule
    configured for the client allows in this group. *)
Theorem only_permitted_requests_run rules ca certificate peer data cb fwd n :
  client_auth_enabled (config_ (group_ n)) = true ->
  ValidateClientAuthConfig true true true ca rules = StOK ->
  ExtractCertificatePeerIdentity certificate = inr peer ->
  final (HandleIncomingRpc (ClientAuthorizationPolicy rules) peer data cb fwd n) = n \/
  exists e req, DeserializeRequest data = inr (e, req) /\
    permitted rules peer (group_id_ (group_ n)) req.
Proof.
  intros Ha Hv Hx. unfold HandleIncomingRpc.
  destruct (jt_parse data) as [|j] eqn:Hj; [by left|].
  destruct (json_get j "type" ≫= to_i32) as [z|] eqn:Hz; [|by left].
  unfold getg, gets, id, mbind, Prog_bind. rewrite Ha. simpl.
  destruct (_ && _) eqn:Hg; [by left|]. destruct (negb (is_request _)); [by left|].
  destruct (DeserializeRequest data) as [|[e req]] eqn:Hd; [by left|].
  pose proof (deserialize_type _ _ _ _ Hj Hd) as Ht. rewrite Hz in Ht. injection Ht as Ht.
  rewrite Ht in Hg. destruct (decide (kind peer = PEER_NODE)) as [Hk|Hk].
  - unfold dispatch_request. rewrite decide_True by done.
    destruct (authenticated_identity _ _ Hx) as [[_ Hn]|[? _]]; [|congruence].
    destruct req as [r|r|r|r|r|]; simpl.
    4: destruct (client_denied rules peer e r cb fwd ca n Ha Hv); [by left|right; by exists e, (WClient r)].
    5: right; by exists e, WReadIndex.
    all: destruct (SenderIdentityMatches _ _) eqn:Hs; [|by left];
      right; eexists e, _; (split; [done|]); eapply node_request_permitted; [done|lia|done|done].
  - rewrite (bool_decide_eq_false_2 _ Hk) in Hg. destruct req as [r|r|r|r|r|]; try done.
    destruct (client_denied rules peer e r cb fwd ca n Ha Hv); [by left|right; by exists e, (WClient r)].
Qed.
End dispatch.

(** ** Witness *)

Import PlainText.

Definition auth_node : Node :=
  node_init (group_init 1
    (mkRaftNodeConfig "127.0.0.1:8001" false 600 false 2000 5000 10000 3 "" true) default_values
    [(2, "host:2"); (3, "host:3")] false false).

Definition auth_rules : list ClientAuthorizationRule :=
  [mkClientAuthorizationRule "analytics" READ_ONLY None;
   mkClientAuthorizationRule "writer-service" READ_WRITE (Some [0; 42])].

(** Node 2 votes for itself, in a message that says so and in one that names
    node 3. *)
Definition vote_data (candidate : NodeId) : string :=
  default "" (match SerializeRequest (mkEnvelope 5 0)
                      (WRequestVote (mkRequestVoteRequest 1 candidate 0 0)) with
              | inr s => Some s | inl _ => None end).

Lemma only_permitted_requests_run_witness :
  let run data := HandleIncomingRpc (H := sample_env false false 0)
    (ClientAuthorizationPolicy auth_rules) (mkRpcPeerIdentity PEER_NODE 2 "") data 0 (inl "") auth_node in
  (final (run (vote_data 2)) = auth_node \/
   exists e req, DeserializeRequest (vote_data 2) = inr (e, req) /\
     permitted auth_rules (mkRpcPeerIdentity PEER_NODE 2 "") 0 req) /\
  voted_for_ (group_ (final (run (vote_data 2)))) = 2 /\
  final (run (vote_data 3)) = auth_node.
Proof.
  split; [|split; by vm_compute].
  apply (only_permitted_requests_run auth_rules "client-ca.pem"
           (Some (Some [GEN_OTHER; GEN_URI "rollingraft-node:2"]))); by vm_compute.
Defined.
