(* ===== verification/Client.v ===== *)
(** * The client: [src/client.cpp], [src/client/], [src/rpc_client.cpp]

    A request is tried on the cached leader and then on every server in turn,
    with growing pauses, until it is answered, refused or out of time.  What the
    network answers, the clock and the random draws are the class [ClientEnv];
    the floating-point product of [GetDelay] is one of its functions.  A call
    that throws is [inl]. *)

From S2P Require Import Prelude Types RaftLog Quorum Sessions RaftGroup Timers Replicate Membership Text Apply Election Leader Follower Snapshots NodeCore Json Protocol Identity.

(** ** Retries: [retry_policy.cpp] *)

Definition str_contains (s sub : string) : bool :=
  match String.index 0 sub s with Some _ => true | None => false end.

Definition IsRetryableError (error : Status) : bool :=
  match status_code error with
  | kUnauthenticated | kPermissionDenied => false
  | kNotLeader | kRequestVoteError | kAppendEntriesError | kInstallSnapshotError => true
  | _ =>
      let msg := GetMessage error in
      existsb (str_contains msg) ["network"; "Network"; "timeout"; "Timeout"; "connect"; "Connect"]
  end.

(** [scaled] is [static_cast<int>(initial_delay_.count() * factor)], [draw] the
    uniform distribution. *)
Definition GetDelay (max_delay_ scaled : Z) (draw : Z -> Z -> Z) : Z :=
  let base_delay := scaled `min` max_delay_ in
  let jitter_max := (base_delay `quot` 2) `min` (max_delay_ `quot` 4) in
  let jitter_max := if decide (jitter_max < 1) then 1 else jitter_max in
  let final_delay := base_delay + draw 0 jitter_max in
  final_delay `min` max_delay_.

(** ** The leader's address: [leader_tracker.cpp] *)

Record LeaderTracker := mkLeaderTracker {
  lt_leader_addr_ : string;
  lt_last_update_ : Z;
  lt_ttl_ : Z
}.
#[global] Instance LeaderTracker_eta : Eta LeaderTracker := fun r =>
  mkLeaderTracker (lt_leader_addr_ r) (lt_last_update_ r) (lt_ttl_ r).

Definition IsLeaderStale (now : Z) (t : LeaderTracker) : bool :=
  bool_decide (lt_leader_addr_ t = "") || bool_decide (lt_ttl_ t = 0) ||
  bool_decide (now - lt_last_update_ t > ms (lt_ttl_ t)).

Definition GetLeader (now : Z) (t : LeaderTracker) : option string :=
  if decide (lt_leader_addr_ t = "") then None
  else if decide (lt_ttl_ t = 0) then None
  else if decide (now - lt_last_update_ t > ms (lt_ttl_ t)) then None
  else Some (lt_leader_addr_ t).

Definition UpdateLeader (now : Z) (addr : string) (t : LeaderTracker) : LeaderTracker :=
  if decide (addr = "") then t <| lt_leader_addr_ := "" |>
  else t <| lt_leader_addr_ := addr |> <| lt_last_update_ := now |>.

Definition ClearLeader (t : LeaderTracker) : LeaderTracker := t <| lt_leader_addr_ := "" |>.

(** ** Messages: [rpc_client.cpp] *)

Section messages.
Context `{!JsonText}.

Definition client_json (req : ClientRequest) (group_id : Z) : json :=
  json_object
    [("type", Jint 6); ("command", Jstr (cr_command req)); ("client_id", Jint (cr_client_id req));
     ("seq", Jint (cr_seq req)); ("read_only", Jbool (cr_read_only req)); ("group_id", Jint group_id)].

Definition SerializeClientRequest (req : ClientRequest) (group_id : Z) : string + string :=
  jt_dump (client_json req group_id).

Definition read_field {A} (conv : json -> option A) (j : json) (k : string) (d : A) : option A :=
  if json_has j k then json_get j k ≫= conv else Some d.

(** [None] for [false]. *)
Definition DeserializeClientResponse (data : string) : option ClientResponse :=
  match jt_parse data with
  | inl _ => None
  | inr j =>
      success ← json_get j "success" ≫= to_bool;
      response ← read_field to_str j "response" "";
      error ← read_field to_str j "error" "";
      error_code ← read_field to_str j "error_code" "";
      last_applied_index ← read_field to_u32 j "last_applied_index" 0;
      leader_id ← read_field to_i32 j "leader_id" (-1);
      leader_addr ← read_field to_str j "leader_addr" "";
      Some (mkClientResponse success response error error_code last_applied_index leader_id leader_addr)
  end.

Definition SerializeReadIndexRequest (correlation_id : Z) : string + string :=
  jt_dump (json_object [("type", Jint 12); ("correlation_id", Jint correlation_id)]).

Definition DeserializeReadIndexResponse (data : string) : option ReadIndexResponse :=
  match jt_parse data with
  | inl _ => None
  | inr j =>
      term ← json_get j "term" ≫= to_u32;
      read_index ← json_get j "read_index" ≫= to_u32;
      leader_valid ← json_get j "leader_valid" ≫= to_bool;
      Some (mkReadIndexResponse term read_index leader_valid)
  end.

(** Where the transport of a server routes a message:
    [src/asio_network_transport.cpp]. *)
Definition ExtractGroupId (body : string) : Z :=
  match jt_parse body with
  | inl _ => 0
  | inr (Jobj _ as j) => match int_value j "group_id" with inr g => g | inl _ => 0 end
  | inr _ => 0
  end.
End messages.

(** ** Executing: [client.cpp] *)

Record ClientOptions := mkClientOptions {
  co_group_id : Z;
  co_max_retries : Z;
  co_max_retry_delay : Z;
  co_max_async_queue_size : Z
}.

Definition ClientOptions_default : ClientOptions := mkClientOptions 0 3 1000 10000.

(** What the surroundings answer: the [n]-th exchange of data with an address,
    the [n]-th reading of the clock, the product in [GetDelay] and its draw after
    [n] readings. *)
Class ClientEnv := {
  ce_exchange : nat -> string -> string -> Status + string;
  ce_clock : nat -> Z;
  ce_scaled : Z -> Z;
  ce_draw : nat -> Z -> Z -> Z
}.

(** [initialization_error_], the trackers and counters; and the requests sent so
    far with their addresses, the delays between attempts, and the number of
    readings of the clock. *)
Record ClientImpl := mkClientImpl {
  servers_ : list string;
  options_ : ClientOptions;
  client_id_ : Z;
  initialization_error_ : option Status;
  leader_tracker_ : LeaderTracker;
  seq_counter_ : Z;
  sent : list (string * ClientRequest);
  pauses : list Z;
  clock_reads : nat
}.
#[global] Instance ClientImpl_eta : Eta ClientImpl := fun r =>
  mkClientImpl (servers_ r) (options_ r) (client_id_ r) (initialization_error_ r) (leader_tracker_ r)
    (seq_counter_ r) (sent r) (pauses r) (clock_reads r).

Definition ClientResult : Type := Status + string.

(** State and exceptions. *)
Definition CM (A : Type) : Type := ClientImpl -> (string + A) * ClientImpl.
#[global] Instance CM_ret : MRet CM := fun A a s => (inr a, s).
#[global] Instance CM_bind : MBind CM := fun A B k m s =>
  match m s with
  | (inr a, s') => k a s'
  | (inl what, s') => (inl what, s')
  end.
Definition cgets {A} (f : ClientImpl -> A) : CM A := fun s => (inr (f s), s).
Definition cput (f : ClientImpl -> ClientImpl) : CM unit := fun s => (inr tt, f s).
Definition cthrow {A} (what : string) : CM A := fun s => (inl what, s).

Section client.
Context `{!JsonText, !ClientEnv}.

Definition now : CM Z :=
  n ← cgets clock_reads;
  cput (fun s => s <| clock_reads := S n |>) ;;
  mret (ce_clock n).

Definition get_leader : CM (option string) :=
  t ← cgets leader_tracker_;
  if decide (lt_leader_addr_ t = "" \/ lt_ttl_ t = 0) then mret None
  else n ← now; mret (GetLeader n t).

Definition update_leader (addr : string) : CM unit :=
  if decide (addr = "") then cput (fun s => s <| leader_tracker_ ::= ClearLeader |>)
  else n ← now; cput (fun s => s <| leader_tracker_ ::= UpdateLeader n addr |>).

(** [RpcCall]; serializing is not guarded against the exception. *)
Definition RpcCall (addr : string) (req : ClientRequest) : CM (Status + ClientResponse) :=
  group_id ← cgets (fun s => co_group_id (options_ s));
  match SerializeClientRequest req group_id with
  | inl what => cthrow what
  | inr request_data =>
      n ← cgets (fun s => length (sent s));
      cput (fun s => s <| sent ::= fun l => l ++ [(addr, req)] |>) ;;
      mret (match ce_exchange n addr request_data with
            | inl status => inl status
            | inr response_data =>
                match DeserializeClientResponse response_data with
                | Some resp => inr resp
                | None => inl (Error1 "Failed to deserialize response")
                end
            end)
  end.

(** What a response means. *)
Definition TryExecuteOnServer (server : string) (req : ClientRequest) : CM ClientResult :=
  r ← RpcCall server req;
  match r with
  | inl status => mret (inl status)
  | inr resp =>
      if crs_success resp then mret (inr (crs_response resp))
      else if decide (crs_error_code resp = "UNAUTHENTICATED") then
        mret (inl (Unauthenticated (crs_error resp)))
      else if decide (crs_error_code resp = "PERMISSION_DENIED") then
        mret (inl (PermissionDenied (crs_error resp)))
      else if decide (crs_leader_addr resp <> "") then
        update_leader (crs_leader_addr resp) ;;
        mret (inl (NotLeader (crs_leader_id resp) (crs_leader_addr resp)))
      else mret (inl (Error1 (crs_error resp)))
  end.

Definition timed_out : ClientResult := inl (Error1 "Request timeout").

(** The servers in turn; [None] when none of them decided the request. *)
Fixpoint try_servers (servers : list string) (req : ClientRequest) (deadline : Z)
    : CM (option ClientResult) :=
  match servers with
  | [] => mret None
  | server :: servers =>
      result ← TryExecuteOnServer server req;
      match result with
      | inr _ => update_leader server ;; mret (Some result)
      | inl status =>
          (if decide (status_code status = kNotLeader) then
             leader ← get_leader;
             if leader is None then cput (fun s => s <| leader_tracker_ ::= ClearLeader |>) else mret tt
           else mret tt) ;;
          if negb (IsRetryableError status) then mret (Some result)
          else
            n ← now;
            if decide (deadline <= n) then mret (Some timed_out)
            else try_servers servers req deadline
      end
  end.

(** The pause before the next attempt. *)
Definition pause (attempt deadline : Z) : CM (option ClientResult) :=
  draws ← cgets clock_reads;
  max_delay ← cgets (fun s => co_max_retry_delay (options_ s));
  let delay := GetDelay max_delay (ce_scaled attempt) (ce_draw draws) in
  n ← now;
  let remaining := elapsed_ms deadline n in
  if decide (remaining <= 0) then mret (Some timed_out)
  else
    let delay := if decide (remaining < delay) then remaining else delay in
    cput (fun s => s <| pauses ::= fun l => l ++ [delay] |>) ;;
    mret None.

(** [rounds] attempts are left, the current one included. *)
Fixpoint retry_loop (rounds : nat) (attempt : Z) (req : ClientRequest) (deadline : Z) : CM ClientResult :=
  match rounds with
  | O => mret (inl (Error1 "Max retries exceeded"))
  | S rounds =>
      n ← now;
      if decide (deadline <= n) then mret timed_out
      else
        servers ← cgets servers_;
        r ← try_servers servers req deadline;
        if r is Some result then mret result
        else
          r ← (match rounds with O => mret None | S _ => pause attempt deadline end);
          if r is Some result then mret result
          else retry_loop rounds (attempt + 1) req deadline
  end.

Definition next_request (command : string) (read_only : bool) : CM ClientRequest :=
  s ← cgets id;
  cput (fun s => s <| seq_counter_ ::= fun n => u64 (n + 1) |>) ;;
  mret (mkClientRequest command (client_id_ s) (seq_counter_ s) read_only).

(** The cached leader; [None] to go on. *)
Definition try_leader (req : ClientRequest) : CM (option ClientResult) :=
  leader ← get_leader;
  match leader with
  | None => mret None
  | Some leader =>
      result ← TryExecuteOnServer leader req;
      match result with
      | inr _ => mret (Some result)
      | inl status =>
          if negb (IsRetryableError status) then mret (Some result)
          else cput (fun s => s <| leader_tracker_ ::= ClearLeader |>) ;; mret None
      end
  end.

Definition DoExecute (command : string) (read_only : bool) (timeout : Z) : CM ClientResult :=
  error ← cgets initialization_error_;
  if error is Some status then mret (inl status)
  else
    req ← next_request command read_only;
    start ← now;
    let deadline := start + ms timeout in
    r ← try_leader req;
    if r is Some result then mret result
    else
      max_retries ← cgets (fun s => co_max_retries (options_ s));
      retry_loop (Z.to_nat (max_retries + 1)) 0 req deadline.

Definition Execute (command : string) (timeout : Z) : CM ClientResult := DoExecute command false timeout.
Definition Query (query : string) (timeout : Z) : CM ClientResult := DoExecute query true timeout.

(** ** What a run sends *)

(** [runs P n m s Q]: from [s], [m] sends at most [n] requests, all of them
    [P]; its configuration stays; and what it returns is [Q]. *)
Definition runs (P : string * ClientRequest -> Prop) (n : nat) {A} (m : CM A) (s : ClientImpl)
    (Q : A -> ClientImpl -> Prop) : Prop :=
  (exists new, sent (m s).2 = sent s ++ new /\ (length new <= n)%nat /\ Forall P new) /\
  servers_ (m s).2 = servers_ s /\ options_ (m s).2 = options_ s /\
  forall a, (m s).1 = inr a -> Q a (m s).2.

Lemma sends_bind P n k {A B} (m : CM A) (f : A -> CM B) s (Q : A -> ClientImpl -> Prop) Q' :
  runs P n m s Q ->
  (forall a s', Q a s' -> servers_ s' = servers_ s -> options_ s' = options_ s -> runs P k (f a) s' Q') ->
  runs P (n + k) (m ≫= f) s Q'.
Proof.
  intros ((new & Hs & Hn & Hp) & Hsv & Ho & HQ) Hf. unfold runs, mbind, CM_bind.
  destruct (m s) as [[what|a] s'] eqn:E; simpl in *.
  - split_and!; try done. exists new. split_and!; [done|lia|done].
  - destruct (Hf a s' (HQ a eq_refl) Hsv Ho) as ((new' & Hs' & Hn' & Hp') & Hsv' & Ho' & HQ').
    split_and!; [|congruence..|done]. exists (new ++ new'). split_and!.
    + by rewrite Hs', Hs, (assoc_L (++)).
    + rewrite length_app. lia.
    + by apply list.Forall_app.
Qed.

Lemma runs_weaken P n n' {A} (m : CM A) s (Q Q' : A -> ClientImpl -> Prop) :
  runs P n m s Q -> (n <= n')%nat -> (forall a s', Q a s' -> Q' a s') -> runs P n' m s Q'.
Proof.
  intros ((new & ? & ? & ?) & ? & ? & HQ) Hn HQ'. split_and!; try done; [|naive_solver].
  exists new. split_and!; [done|lia|done].
Qed.

(** Steps that send nothing. *)
Lemma runs_quiet P {A} (m : CM A) s (Q : A -> ClientImpl -> Prop) :
  sent (m s).2 = sent s -> servers_ (m s).2 = servers_ s -> options_ (m s).2 = options_ s ->
  (forall a, (m s).1 = inr a -> Q a (m s).2) -> runs P 0 m s Q.
Proof.
  intros Hs ? ? ?. split_and!; try done. exists []. by rewrite app_nil_r.
Qed.

Lemma sends_ret P {A} (a : A) s (Q : A -> ClientImpl -> Prop) n : Q a s -> runs P n (mret a) s Q.
Proof.
  intros. eapply (runs_weaken _ 0); [apply (runs_quiet _ _ _ Q)|lia|done]; try done.
  by intros ? [= <-].
Qed.


Lemma runs_now P s : runs P 0 now s (fun _ s' => sent s' = sent s).
Proof. by apply runs_quiet. Qed.

Lemma runs_update_leader P addr s : runs P 0 (update_leader addr) s (fun _ s' => sent s' = sent s).
Proof. unfold update_leader. case_decide; by apply runs_quiet. Qed.

Lemma runs_get_leader P s :
  runs P 0 get_leader s (fun l s' => sent s' = sent s /\
    forall addr, l = Some addr -> addr = lt_leader_addr_ (leader_tracker_ s)).
Proof.
  apply runs_quiet; unfold get_leader, now, cgets, cput, mbind, CM_bind; simpl; case_decide; try done;
    simpl; intros a [= <-]; (split; [done|]); [done|].
  unfold GetLeader. intros addr. by repeat case_decide; intros; simplify_eq.
Qed.

Lemma runs_clear P s :
  runs P 0 (cput (fun s => s <| leader_tracker_ ::= ClearLeader |>)) s (fun _ s' => sent s' = sent s).
Proof. by apply runs_quiet. Qed.

(** The last request sent was answered with success and [v]. *)
Definition answered (req : ClientRequest) (v : string) (s : ClientImpl) : Prop :=
  exists before addr request_data response_data resp,
    sent s = before ++ [(addr, req)] /\
    SerializeClientRequest req (co_group_id (options_ s)) = inr request_data /\
    ce_exchange (length before) addr request_data = inr response_data /\
    DeserializeClientResponse response_data = Some resp /\
    crs_success resp = true /\ crs_response resp = v.

(** It still was, after steps that send nothing. *)
Lemma answered_mono req v s s' :
  answered req v s -> sent s' = sent s -> options_ s' = options_ s -> answered req v s'.
Proof. unfold answered. by intros ? -> ->. Qed.

Lemma runs_rpc (P : string * ClientRequest -> Prop) addr req s :
  P (addr, req) ->
  runs P 1 (RpcCall addr req) s (fun r s' => forall resp, r = inr resp -> crs_success resp = true ->
    answered req (crs_response resp) s').
Proof.
  intros HP. unfold runs, RpcCall, cgets, cput, mbind, CM_bind. simpl.
  destruct (SerializeClientRequest req (co_group_id (options_ s))) as [what|data] eqn:E; simpl.
  { split_and!; try done. exists []. rewrite app_nil_r. split_and!; [done|simpl; lia|done]. }
  split_and!; try done.
  - exists [(addr, req)]. split_and!; [done..|by constructor].
  - simpl. intros r [= <-] resp Hr Hs. destruct (ce_exchange _ _ _) as [|d] eqn:Ex; [done|].
    destruct (DeserializeClientResponse d) as [resp'|] eqn:Ed; simplify_eq/=.
    by exists (sent s), addr, data, d, resp.
Qed.

Lemma runs_try (P : string * ClientRequest -> Prop) addr req s :
  P (addr, req) ->
  runs P 1 (TryExecuteOnServer addr req) s (fun r s' => forall v, r = inr v -> answered req v s').
Proof.
  intros HP. unfold TryExecuteOnServer. eapply (sends_bind _ 1 0); [by apply runs_rpc|].
  intros [status|resp] s' Hr _ _; [by apply sends_ret|].
  destruct (crs_success resp) eqn:Hs; [apply sends_ret; intros v [= <-]; by apply Hr|].
  case_decide; [by apply sends_ret|]. case_decide; [by apply sends_ret|].
  case_decide; [|by apply sends_ret].
  eapply (sends_bind _ 0 0); [apply runs_update_leader|]. intros. by apply sends_ret.
Qed.

(** What a decided request has to be. *)
Definition decided (req : ClientRequest) (r : option ClientResult) (s : ClientImpl) : Prop :=
  forall v, r = Some (inr v) -> answered req v s.

Lemma runs_servers (P : string * ClientRequest -> Prop) servers req deadline s :
  (forall addr, addr ∈ servers -> P (addr, req)) ->
  runs P (length servers) (try_servers servers req deadline) s (decided req).
Proof.
  revert s. induction servers as [|addr servers IH]; intros s HP; cbn [try_servers length].
  { by apply sends_ret. }
  eapply (sends_bind _ 1 (length servers)); [apply runs_try, HP; by left|].
  intros [status|v] s' Hr _ _.
  - eapply (sends_bind _ 0 (length servers) _ _ _ (fun _ _ => True)).
    { case_decide; [|by apply sends_ret]. eapply (sends_bind _ 0 0); [apply runs_get_leader|].
      intros [] ? _ _ _; [by apply sends_ret|]. by eapply runs_weaken; [apply runs_clear|..]. }
    intros [] s2 _ _ _. destruct (negb _); [by apply sends_ret|].
    eapply (sends_bind _ 0 (length servers)); [apply runs_now|]. intros n s3 _ _ _.
    case_decide; [by apply sends_ret|]. apply IH. intros. apply HP. by right.
  - eapply (runs_weaken _ 0); [|lia|done].
    eapply (sends_bind _ 0 0); [apply runs_update_leader|]. intros [] s2 Hsent _ Ho.
    apply sends_ret. intros ? [= <-]. eapply answered_mono; [by apply Hr|done|done].
Qed.

Lemma runs_pause P attempt deadline s req : runs P 0 (pause attempt deadline) s (decided req).
Proof.
  apply runs_quiet; unfold pause, cgets, now, cput, mbind, CM_bind; simpl; case_decide; try done;
    by intros ? [= <-].
Qed.

Lemma runs_loop (P : string * ClientRequest -> Prop) rounds attempt req deadline s :
  (forall addr, addr ∈ servers_ s -> P (addr, req)) ->
  runs P (rounds * length (servers_ s)) (retry_loop rounds attempt req deadline) s
    (fun r s' => decided req (Some r) s').
Proof.
  revert attempt s. induction rounds as [|rounds IH]; intros attempt s HP; cbn [retry_loop Nat.mul].
  { by apply sends_ret. }
  eapply (sends_bind _ 0 (_ + _)); [apply runs_now|]. intros n s1 _ Hsv1 Ho1.
  case_decide; [by apply sends_ret|].
  eapply (sends_bind _ 0 (_ + _) _ _ _ (fun sv s' => sv = servers_ s')).
  { apply runs_quiet; try done. by intros ? [= <-]. }
  intros sv s2 -> Hsv2 Ho2. rewrite Hsv2, Hsv1.
  eapply sends_bind; [apply runs_servers; naive_solver|].
  intros [r|] s3 Hr Hsv3 _; [by apply sends_ret|].
  eapply (sends_bind _ 0 (rounds * _)).
  { destruct rounds; [by apply (sends_ret _ _ _ (decided req))|apply runs_pause]. }
  intros [r|] s4 Hr4 Hsv4 _; [by apply sends_ret|].
  replace (servers_ s) with (servers_ s4) by congruence. apply IH.
  intros addr. rewrite Hsv4, Hsv3, Hsv2, Hsv1. apply HP.
Qed.

(** The request an execution sends. *)
Definition request_of (command : string) (read_only : bool) (s : ClientImpl) : ClientRequest :=
  mkClientRequest command (client_id_ s) (seq_counter_ s) read_only.

Lemma runs_leader (P : string * ClientRequest -> Prop) req s :
  P (lt_leader_addr_ (leader_tracker_ s), req) -> runs P 1 (try_leader req) s (decided req).
Proof.
  intros HP. unfold try_leader. eapply (sends_bind _ 0 1); [apply runs_get_leader|].
  intros [addr|] s1 [_ Ha] _ _; [|by apply sends_ret].
  eapply (sends_bind _ 1 0); [apply runs_try; by rewrite (Ha addr)|].
  intros [status|v] s2 Hr _ _; [|apply sends_ret; intros ? [= <-]; by apply Hr].
  destruct (negb _); [by apply sends_ret|].
  eapply (sends_bind _ 0 0); [apply runs_clear|]. intros. by apply sends_ret.
Qed.

(** An execution sends at most one request to the cached leader and one to
    every server in each of [max_retries + 1] rounds, whatever the network, the
    clock and the random draws do; every one of them carries the same command,
    client id and sequence number; and a result that is not an error is the
    answer, with success, to the last request sent. *)
Theorem execution_bounded command read_only timeout s :
  let req := request_of command read_only s in
  let '(r, s') := DoExecute command read_only timeout s in
  exists new, sent s' = sent s ++ new /\
    (length new <= 1 + Z.to_nat (co_max_retries (options_ s) + 1) * length (servers_ s))%nat /\
    (forall addr req', (addr, req') ∈ new -> req' = req /\
      (addr ∈ servers_ s \/ addr = lt_leader_addr_ (leader_tracker_ s))) /\
    forall v, r = inr (inr v) -> answered req v s'.
Proof.
  cbn zeta. set (req := request_of command read_only s).
  set (P := fun c : string * ClientRequest => c.2 = req /\
    (c.1 ∈ servers_ s \/ c.1 = lt_leader_addr_ (leader_tracker_ s))).
  assert (runs P (1 + Z.to_nat (co_max_retries (options_ s) + 1) * length (servers_ s))
    (DoExecute command read_only timeout) s (fun r s' => decided req (Some r) s')) as Hrun.
  { unfold DoExecute.
    eapply (sends_bind _ 0 (1 + _) _ _ _ (fun _ s' => s' = s)).
    { by apply runs_quiet. }
    intros [status|] ? -> _ _; [by apply sends_ret|].
    eapply (sends_bind _ 0 (1 + _) _ _ _ (fun r s' => r = req /\ leader_tracker_ s' = leader_tracker_ s)).
    { apply runs_quiet; try done. by intros ? [= <-]. }
    intros ? s1 [-> Ht1] Hsv1 Ho1.
    eapply (sends_bind _ 0 (1 + _) _ _ _ (fun r s' => leader_tracker_ s' = leader_tracker_ s1)).
    { by apply runs_quiet. }
    intros start s2 Ht2 Hsv2 Ho2.
    eapply (sends_bind _ 1 _); [apply runs_leader; unfold P; rewrite Ht2, Ht1; by eauto|].
    intros [r|] s3 Hr Hsv3 Ho3; [by apply sends_ret|].
    eapply (sends_bind _ 0 _ _ _ _ (fun n s' => n = co_max_retries (options_ s'))).
    { apply runs_quiet; try done. by intros ? [= <-]. }
    intros n s4 -> Hsv4 Ho4. rewrite Ho4, Ho3, Ho2, Ho1.
    replace (servers_ s) with (servers_ s4) by congruence. apply runs_loop.
    intros addr Hin. unfold P. simpl. split; [done|]. left. congruence. }
  destruct Hrun as ((new & Hs & Hn & HP) & _ & _ & HQ).
  destruct (DoExecute _ _ _ _) as [r s']; simpl in *. exists new. split_and!; try done.
  - rewrite list.Forall_forall in HP. intros addr req' Hin. apply (HP _ Hin).
  - intros v ->. by apply (HQ (inr v)).
Qed.
End client.

(** The delay before an attempt is at most the maximum, and at least the
    scaled initial delay where that is smaller. *)
Lemma delay_bounds max_delay scaled draw :
  (forall lo hi, lo <= hi -> lo <= draw lo hi <= hi) ->
  scaled `min` max_delay <= GetDelay max_delay scaled draw <= max_delay.
Proof.
  intros Hd. unfold GetDelay. cbn zeta. case_decide.
  - pose proof (Hd 0 1). lia.
  - pose proof (Hd 0 ((scaled `min` max_delay) `quot` 2 `min` (max_delay `quot` 4))). lia.
Qed.

(** ** Client and server agree on the messages *)

Section agreement.
Context `{!JsonText, !JsonTextLaws}.

(** A server's reading of a client's text. *)
Lemma client_text_read req group_id :
  request_ok (WClient req) = true -> 0 <= group_id < 2147483648 ->
  exists s, SerializeClientRequest req group_id = inr s /\ jt_parse s = inr (client_json req group_id) /\
    ExtractGroupId s = group_id /\ DeserializeRequest s = inr (mkEnvelope 0 group_id, WClient req).
Proof.
  intros Hr Hg.
  assert (i32_ok group_id = true) as Hg' by (apply bool_decide_eq_true; lia).
  assert (u64_ok group_id = true) as Hg'' by (apply bool_decide_eq_true; unfold UINT64_MAX; lia).
  unfold request_ok in Hr. split_ok.
  destruct (jt_round_trip (client_json req group_id)) as (s & Hd & Hp).
  1,2: apply (object_sendable _); [reflexivity|];
    repeat first [apply Forall_nil_2 | apply Forall_cons_2; [split; [reflexivity|]|]];
    cbn [snd]; auto with wire.
  exists s. unfold SerializeClientRequest. rewrite Hd, Hp. split; [done|]. split; [done|].
  unfold ExtractGroupId, DeserializeRequest, read_envelope. rewrite Hp. destruct req; simpl in *.
  split; cbv -[u64 i32]; try change (u64 0) with 0; by autorewrite with wire.
Qed.

(** What a server reads from a client's text is the client's request, in
    the group the client named if its id has less than 32 bits; and what the
    client reads from the text of a server's response is that response. *)
Theorem client_server_agree req group_id e resp :
  request_ok (WClient req) = true -> 0 <= group_id < 2147483648 ->
  envelope_ok e = true -> response_ok (RClient resp) = true ->
  (exists s, SerializeClientRequest req group_id = inr s /\ ExtractGroupId s = group_id /\
     DeserializeRequest s = inr (mkEnvelope 0 group_id, WClient req)) /\
  (exists s, SerializeResponse e (RClient resp) = inr s /\ DeserializeClientResponse s = Some resp).
Proof.
  intros Hr Hg He Hs. split.
  - destruct (client_text_read req group_id Hr Hg) as (s & ? & _ & ? & ?). by exists s.
  - destruct (response_sendable e (RClient resp) He Hs) as [Hpl Hu].
    destruct (jt_round_trip _ Hpl Hu) as (s & Hd & Hp).
    exists s. unfold SerializeResponse, DeserializeClientResponse. rewrite Hd, Hp. split; [done|].
    unfold response_ok in Hs. unfold response_json. destruct resp as [? ? ? code]. simpl in *. split_ok.
    case_decide; subst; cbv -[u32 i32]; by autorewrite with wire.
Qed.
End agreement.

(** ** Limits *)

Import PlainText.

(** A text of a response, as a server writes it. *)
Definition server_answer (resp : ClientResponse) : string :=
  match SerializeResponse (mkEnvelope 0 0) (RClient resp) with inr s => s | inl _ => "" end.

(** Every server gives the answer [resp]; the clock stands still. *)
Definition answering (resp : ClientResponse) : ClientEnv := {|
  ce_exchange _ _ _ := inr (server_answer resp);
  ce_clock _ := 0;
  ce_scaled n := 100 * 2 ^ n;
  ce_draw _ lo hi := hi
|}.

Definition sample_client (servers : list string) (group_id : Z) : ClientImpl :=
  mkClientImpl servers (mkClientOptions group_id 3 1000 10000) 77 None (mkLeaderTracker "" 0 30000) 1 [] []
    0%nat.

(** A command that the leader executes and its state machine refuses: the
    response names the leader, as every response of a leader does, and is taken
    for a redirection.  The command is executed again in every round, and its
    error never reaches the caller.  A leader that the responses name is never
    asked when it is not one of the servers. *)
Theorem failed_command_executed_again (addr : string) :
  addr = "127.0.0.1:8001" \/ addr = "other:9" ->
  let resp := mkClientResponse false "" "insufficient funds" "" 5 1 addr in
  let '(r, s') := Execute (H0 := answering resp) "withdraw" 5000 (sample_client ["127.0.0.1:8001"] 0) in
  r = inr (inl (Error1 "Max retries exceeded")) /\
  sent s' = replicate 4 ("127.0.0.1:8001", mkClientRequest "withdraw" 77 1 false).
Proof. intros [->| ->]; vm_compute; done. Qed.

(** A command that is not UTF-8 makes the call throw. *)
Theorem binary_command_throws :
  exists what, (Execute (H0 := answering (mkClientResponse true "" "" "" 0 1 "")) (String (Ascii.ascii_of_nat 255) "") 5000
    (sample_client ["a:1"] 0)).1 = inl what.
Proof. eexists. vm_compute. reflexivity. Qed.

(** A group id of more than 32 bits is routed to another group. *)
Theorem group_id_wraps :
  match SerializeClientRequest (mkClientRequest "x" 77 1 false) 4294967301 with
  | inr s => ExtractGroupId s = 5
  | inl _ => False
  end.
Proof. vm_compute. reflexivity. Qed.

(** ** Witnesses *)

Lemma client_server_agree_witness :
  (exists s, SerializeClientRequest (mkClientRequest "x" 77 1 false) 5 = inr s /\ ExtractGroupId s = 5 /\
     DeserializeRequest s = inr (mkEnvelope 0 5, WClient (mkClientRequest "x" 77 1 false))) /\
  (exists s, SerializeResponse (mkEnvelope 0 5)
       (RClient (mkClientResponse true "ok" "" "" 9 1 "127.0.0.1:8001")) = inr s /\
     DeserializeClientResponse s = Some (mkClientResponse true "ok" "" "" 9 1 "127.0.0.1:8001")).
Proof.
  apply (client_server_agree (mkClientRequest "x" 77 1 false) 5 (mkEnvelope 0 5)
    (mkClientResponse true "ok" "" "" 9 1 "127.0.0.1:8001")); (reflexivity || lia).
Defined.
