(* ===== verification/Store.v ===== *)
(** * Several groups on one node: [src/raft_store.cpp]

    The table of groups behind one transport.  A message is routed by the group
    id in its text ([HandleMessage] of [src/asio_network_transport.cpp]) to one
    group's [HandleIncomingRpc].  What starting a new group gives is an argument
    of [CreateGroup]. *)

From S2P Require Import Prelude Types RuntimeConfig RaftLog Quorum Sessions RaftGroup Timers Replicate Membership Text Apply Election Leader Follower Snapshots NodeCore Json Protocol Identity Dispatch Client.

Record RaftStore := mkRaftStore {
  groups_ : gmap Z Node;
  initialized_ : bool;
  running_ : bool;
  transport_batching_enabled_ : bool
}.
#[global] Instance RaftStore_eta : Eta RaftStore := fun r =>
  mkRaftStore (groups_ r) (initialized_ r) (running_ r) (transport_batching_enabled_ r).

Section store.
Context `{!Env, !JsonText}.

(** Runs an operation of one group; aborting it ends the process. *)
Definition on_group {A} (group_id : Z) (n : Node) (m : M A) : Prog RaftStore A := fun s =>
  match m n with
  | Done a n' => Done a (s <| groups_ ::= <[group_id := n']> |>)
  | Aborted n' => Aborted (s <| groups_ ::= <[group_id := n']> |>)
  end.

Definition error_json (error message : string) : Dispatched :=
  Replied (match jt_dump (json_object [("error", Jstr error); ("message", Jstr message)]) with
           | inr s => Some s | inl _ => None end).

Definition OnIncomingRpc (rules_ : gmap string ClientAuthorizationRule) (context : RpcPeerIdentity)
    (group_id : Z) (data : string) (cb : Z) (fwd : string + bool * Index * Term)
    : Prog RaftStore Dispatched :=
  if decide (group_id = 0) then
    mret (error_json "GROUP_NOT_FOUND" "group_id 0 is not routed through RaftStore")
  else
    groups ← gets groups_;
    match groups !! group_id with
    | None => mret (error_json "GROUP_NOT_FOUND" ("Group " +:+ pretty group_id +:+ " not found"))
    | Some group => on_group group_id group (HandleIncomingRpc rules_ context data cb fwd)
    end.

Definition OnIncomingRpcFrom (rules_ : gmap string ClientAuthorizationRule) (from : NodeId)
    (group_id : Z) (data : string) (cb : Z) (fwd : string + bool * Index * Term)
    : Prog RaftStore Dispatched :=
  OnIncomingRpc rules_ (mkRpcPeerIdentity PEER_NODE from "") group_id data cb fwd.

(** A message of a connection, with the handlers that [RaftStore::Start]
    registers: the ones with an authenticated context when clients are
    authenticated. *)
Definition HandleMessage (client_auth : bool) (rules_ : gmap string ClientAuthorizationRule)
    (c : TcpPeer) (body : string) (cb : Z) (fwd : string + bool * Index * Term)
    : Prog RaftStore Dispatched :=
  let group_id := ExtractGroupId body in
  if client_auth then OnIncomingRpc rules_ (peer_context_ c) group_id body cb fwd
  else if decide (group_id = 0) then
    mret (error_json "LEGACY_PATH_NOT_SUPPORTED" "Use group_id > 0 for multi-raft routing")
  else OnIncomingRpcFrom rules_ (peer_id_ c) group_id body cb fwd.

(** The update of one setting of a group, which is validated with the others. *)
Definition update_batching (enabled : bool) (n : Node) : Node :=
  let v := runtime_config_ (group_ n) in
  let v' := mkRuntimeConfigValues (election_timeout_ms v) (heartbeat_interval_ms v)
    (max_entries_per_append v) (rpc_timeout_ms v) (snapshot_threshold_entries v)
    (snapshot_threshold_bytes v) (snapshot_check_interval_ms v) (max_retry_attempts v)
    (base_retry_delay_ms v) (max_retry_delay_ms v) (log_retention_entries v)
    (max_snapshot_size_bytes v) (propose_timeout_ms v) (leader_lease_enabled v)
    (max_pipeline_window v) enabled in
  if status_ok (Validate v') then n <| group_ ::= fun g => g <| runtime_config_ := v' |> |> else n.

(** [has_state_machine] is whether the pointer is not null; [config_status] what
    validating the group's configuration gives, [start] what starting it does. *)
Definition CreateGroup (group_id : Z) (has_state_machine : bool) (config_status : Status)
    (start : Status + Node) : Prog RaftStore Status :=
  if decide (group_id = 0) then mret (Error1 "group_id must be > 0")
  else if negb has_state_machine then mret (Error1 "StateMachine cannot be null")
  else if negb (status_ok config_status) then mret config_status
  else match start with
  | inl err => mret err
  | inr group =>
      batching ← gets transport_batching_enabled_;
      let group := update_batching batching group in
      groups ← gets groups_;
      (match groups !! group_id with
       | Some old => on_group group_id old Stop ;; mret tt
       | None => mret tt
       end) ;;
      modify (fun s => s <| groups_ ::= <[group_id := group]> |>) ;;
      mret StOK
  end.

Definition RemoveGroup (group_id : Z) : Prog RaftStore Status :=
  groups ← gets groups_;
  match groups !! group_id with
  | None => mret (Error2 "GROUP_NOT_FOUND" ("Group not found: " +:+ pretty group_id))
  | Some group =>
      on_group group_id group Stop ;;
      modify (fun s => s <| groups_ ::= delete group_id |>) ;;
      mret StOK
  end.

Definition GetGroup (group_id : Z) (s : RaftStore) : option Node := groups_ s !! group_id.
Definition ListGroups (s : RaftStore) : list Z := (map_to_list (groups_ s)).*1.

(** The groups one after the other; each is looked up when its turn comes. *)
Definition each_group {A} (m : M A) : Prog RaftStore unit :=
  groups ← gets groups_;
  forM (map_to_list groups).*1 (fun group_id =>
    groups ← gets groups_;
    match groups !! group_id with
    | Some n => on_group group_id n m ;; mret tt
    | None => mret tt
    end).

Definition tick : Prog RaftStore unit := each_group OnStoreTick.

(** The groups' part of [RaftStore::Stop]; the transport, the timers and the
    metrics server are stopped after it. *)
Definition StoreStop : Prog RaftStore Status :=
  running ← gets running_;
  if negb running then mret StOK
  else
    modify (fun s => s <| running_ := false |>) ;;
    each_group Stop ;;
    mret StOK.

(** ** Groups do not disturb each other *)

(** [keeps_others g]: every group but [g] is the same before and after. *)
Definition keeps_others (g : Z) (s s' : RaftStore) : Prop :=
  forall g', g' <> g -> groups_ s' !! g' = groups_ s !! g'.

Lemma on_group_others {A} g n (m : M A) s : keeps_others g s (final (on_group g n m s)).
Proof. intros g' Hg. unfold on_group. destruct (m n); simpl; by rewrite lookup_insert_ne. Qed.

(** The run of a group inside the store is the run of the group. *)
Lemma on_group_run {A} g n (m : M A) s :
  groups_ (final (on_group g n m s)) !! g = Some (final (m n)) /\
  value (on_group g n m s) = value (m n).
Proof. unfold on_group. destruct (m n); simpl; by rewrite lookup_insert_eq. Qed.

(** How a client request is answered by the group's handler. *)
Definition client_outcome (e : Envelope) (req : ClientRequest) (p : ClientProgress) : Dispatched :=
  match p with Answered res => client_reply e res | p => ClientWaiting e req p end.

Lemma value_final_bind {S A B} (m : Prog S A) (f : A -> B) s :
  value ((a ← m; mret (f a)) s) = f <$> value (m s) /\ final ((a ← m; mret (f a)) s) = final (m s).
Proof. unfold mbind, Prog_bind. by destruct (m s). Qed.

Lemma run_get {A B} (f : RaftGroup -> A) (k : A -> M B) n : (getg f ≫= k) n = k (f (group_ n)) n.
Proof. done. Qed.

(** A client request whose text arrives at a group that lets it through is the
    group's [client_request_begin]. *)
Lemma client_dispatched `{!JsonTextLaws} rules_ peer req gid text cb fwd n :
  request_ok (WClient req) = true -> 0 <= gid < 2147483648 ->
  SerializeClientRequest req gid = inr text ->
  (client_auth_enabled (config_ (group_ n)) = true ->
   AuthorizeClientRequest rules_ peer (cr_read_only req) (group_id_ (group_ n)) = StOK) ->
  ExtractGroupId text = gid /\
  value (HandleIncomingRpc rules_ peer text cb fwd n) =
    client_outcome (mkEnvelope 0 gid) req <$> value (client_request_begin req cb fwd n) /\
  final (HandleIncomingRpc rules_ peer text cb fwd n) = final (client_request_begin req cb fwd n).
Proof.
  intros Hr Hg Ht Ha. destruct (client_text_read req gid Hr Hg) as (s & Hs & Hp & Hgid & Hd).
  rewrite Hs in Ht. injection Ht as <-. split; [done|].
  unfold HandleIncomingRpc. rewrite Hp.
  change (json_get (client_json req gid) "type" ≫= to_i32) with (Some 6).
  cbv beta iota zeta. change (IntToMessageType 6) with KClientRequest.
  rewrite run_get. change (is_request KClientRequest) with true.
  cbn [IsRaftProtocolRequest negb]. rewrite andb_false_r. cbn [andb]. rewrite Hd.
  unfold dispatch_request, dispatch_client. cbv beta iota zeta. rewrite run_get. unfold id.
  assert ((if client_auth_enabled (config_ (group_ n))
           then AuthorizeClientRequest rules_ peer (cr_read_only req) (group_id_ (group_ n)) else StOK) = StOK)
    as -> by (destruct (client_auth_enabled _); auto).
  cbn [status_ok negb]. apply (value_final_bind _ (client_outcome (mkEnvelope 0 gid) req)).
Qed.

(** C21. From the client's text to the group: a message with a command in UTF-8 and
    fields in range that a client sends for a group with an id from 1 to 2^31 - 1
    that the store hosts is handled by that group as the request the client made, if
    client authentication is off or allows it; every other group stays as it was.
    Larger ids are narrowed ([Client.group_id_wraps]). *)
Theorem client_request_reaches_group `{!JsonTextLaws} auth rules_ c req gid text cb fwd n s :
  request_ok (WClient req) = true -> 0 < gid < 2147483648 ->
  SerializeClientRequest req gid = inr text -> groups_ s !! gid = Some n ->
  client_auth_enabled (config_ (group_ n)) = auth ->
  (auth = true -> AuthorizeClientRequest rules_ (peer_context_ c) (cr_read_only req) (group_id_ (group_ n)) = StOK) ->
  let o := HandleMessage auth rules_ c text cb fwd s in
  value o = client_outcome (mkEnvelope 0 gid) req <$> value (client_request_begin req cb fwd n) /\
  groups_ (final o) !! gid = Some (final (client_request_begin req cb fwd n)) /\
  keeps_others gid s (final o).
Proof.
  intros Hr Hg Ht Hn <- Ha. cbn zeta.
  assert (forall peer, (client_auth_enabled (config_ (group_ n)) = true ->
      AuthorizeClientRequest rules_ peer (cr_read_only req) (group_id_ (group_ n)) = StOK) ->
    let o := OnIncomingRpc rules_ peer gid text cb fwd s in
    value o = client_outcome (mkEnvelope 0 gid) req <$> value (client_request_begin req cb fwd n) /\
    groups_ (final o) !! gid = Some (final (client_request_begin req cb fwd n)) /\
    keeps_others gid s (final o)) as Hon.
  { intros peer Hp. destruct (client_dispatched rules_ peer req gid text cb fwd n Hr ltac:(lia) Ht Hp)
      as (_ & Hv & Hf). cbn zeta. unfold OnIncomingRpc. rewrite decide_False by lia.
    unfold gets, mbind, Prog_bind. rewrite Hn.
    destruct (on_group_run gid n (HandleIncomingRpc rules_ peer text cb fwd) s) as [Hr1 Hr2].
    split; [congruence|]. split; [congruence|]. apply on_group_others. }
  destruct (client_text_read req gid Hr ltac:(lia)) as (text' & Hs & _ & Hgid & _).
  rewrite Ht in Hs. injection Hs as <-. unfold HandleMessage. rewrite Hgid.
  destruct (client_auth_enabled (config_ (group_ n))) eqn:E; [by apply Hon|].
  rewrite decide_False by lia. by apply Hon.
Qed.
End store.

(** ** Witness *)

Import PlainText.

(** Two groups; the second one leads. *)
Definition leading_group : Node :=
  node_init ((sample_group 1 [] false false) <| role_ := LEADER |> <| current_term_ := 1 |>).
Definition two_groups : RaftStore :=
  mkRaftStore {[1 := node_init (sample_group 1 [2; 3] false false); 2 := leading_group]} true true true.
Definition sample_write : ClientRequest := mkClientRequest "set x" 77 1 false.
Definition sample_text : string :=
  match SerializeClientRequest sample_write 2 with inr s => s | inl _ => "" end.

Lemma client_request_reaches_group_witness :
  let o := HandleMessage (H := sample_env false false 0) false ∅ (mkTcpPeer (-1) anonymous) sample_text 5
             (inl "") two_groups in
  (groups_ (final o) !! 2 =
     Some (final (client_request_begin (H := sample_env false false 0) sample_write 5 (inl "") leading_group)) /\
   keeps_others 2 two_groups (final o)) /\
  (fun n => LastLogIndex (log_ (group_ n))) <$> groups_ (final o) !! 2 = Some 1.
Proof.
  split; [|by vm_compute].
  apply (client_request_reaches_group (H := sample_env false false 0) false ∅ (mkTcpPeer (-1) anonymous)
           sample_write 2 sample_text 5 (inl "") leading_group two_groups); try done; by vm_compute.
Defined.
