(* ===== verification/Connection.v ===== *)
(** * A connection: [TcpConnection] of [src/asio_network_transport.cpp]

    Messages with a length in front of them on one socket; requests that wait
    for the response with their correlation id, a timer each; writes that go
    through a queue.  Handlers run on the connection's strand: those that are
    posted wait in [c_posted] and run in order, the others are events.  A
    callback is a number; [c_fired] lists the calls that were made. *)

From Stdlib Require Import Ascii.
From S2P Require Import Prelude Types RaftLog Quorum RaftGroup Timers Replicate Membership Text Bytes DenseIndex Disk Wal.

(** ** Frames *)

Definition byte_char (z : Z) : ascii := ascii_of_N (Z.to_N (Z.land z 0xFF)).
Definition char_byte (a : ascii) : Z := Z.of_N (N_of_ascii a).

(** The length in four bytes, the most significant one first. *)
Definition length_header (length : Z) : string :=
  String (byte_char (Z.shiftr length 24)) (String (byte_char (Z.shiftr length 16))
    (String (byte_char (Z.shiftr length 8)) (String (byte_char length) ""))).

Definition frame (data : string) : string :=
  length_header (u32 (Z.of_nat (String.length data))) +:+ data.

Definition kMaxMessage : Z := 100 * 1024 * 1024.

(** What reading has made of the bytes: it waits with bytes that are not a whole
    message yet, or it has stopped. *)
Inductive Reader :=
| RWaiting (rest : string)
| RStopped.

(** [DoReadHeader] and [DoReadBody] in turn, over the bytes that have arrived;
    each round but the last consumes at least five of them. *)
Fixpoint read_stream (fuel : nat) (s : string) : list string * Reader :=
  match fuel with
  | O => ([], RWaiting s)
  | S fuel =>
      match s with
      | String a (String b (String c (String d body))) =>
          let length := Z.lor (Z.lor (Z.lor (Z.shiftl (char_byte a) 24) (Z.shiftl (char_byte b) 16))
                                (Z.shiftl (char_byte c) 8)) (char_byte d) in
          if decide (0 < length /\ length < kMaxMessage) then
            if decide (Z.of_nat (String.length body) < length) then ([], RWaiting s)
            else
              let n := Z.to_nat length in
              let '(msgs, r) := read_stream fuel (substr_from n body) in
              (String.substring 0 n body :: msgs, r)
          else ([], RStopped)
      | _ => ([], RWaiting s)
      end
  end.
Definition read_all (s : string) : list string * Reader := read_stream (S (String.length s)) s.

(** ** State *)

(** What a callback is called with. *)
Record RpcResult := mkRpcResult {
  rr_data : string;
  rr_success : bool;
  rr_error : string
}.

Record WriteEntry := mkWriteEntry {
  we_msg : string;
  we_correlation_id : Z
}.

(** Handlers posted to the strand. *)
Inductive Posted :=
| PArm (timer : nat) (correlation_id : Z)
| PTimeout (correlation_id : Z)
| PCancel (timer : nat)
| PWrite (msg : string) (correlation_id : Z)
| PDrain.

(** [c_open] is whether the socket has not been closed;
    [c_timers] are the waits that have neither expired nor been cancelled,
    [c_writes] the writes that have not completed, [c_wire] everything that was
    handed to the socket. *)
Record Conn := mkConn {
  c_connected : bool;
  c_open : bool;
  c_pending : gmap Z (nat * nat);
  c_queue : list WriteEntry;
  c_write_in_progress : bool;
  c_batching : bool;
  c_posted : list Posted;
  c_timers : list (nat * Z);
  c_next_timer : nat;
  c_writes : list (list Z);
  c_wire : string;
  c_fired : list (nat * RpcResult)
}.
#[global] Instance Conn_eta : Eta Conn := fun r =>
  mkConn (c_connected r) (c_open r) (c_pending r) (c_queue r) (c_write_in_progress r) (c_batching r)
    (c_posted r) (c_timers r) (c_next_timer r) (c_writes r) (c_wire r) (c_fired r).

Definition Conn_new : Conn := mkConn false true ∅ [] false true [] [] 0 [] "" [].

(** ** Operations *)

Definition fire (cb : nat) (r : RpcResult) (c : Conn) : Conn := c <| c_fired ::= fun f => f ++ [(cb, r)] |>.
Definition post (p : Posted) (c : Conn) : Conn := c <| c_posted ::= fun l => l ++ [p] |>.

Definition cancel (timer : nat) (c : Conn) : Conn :=
  c <| c_timers ::= filter (fun t => t.1 <> timer) |>.

(** Takes the callback of an id out of the table; its timer, if [stop], is
    cancelled.  This runs on the strand. *)
Definition complete (stop : bool) (correlation_id : Z) (r : RpcResult) (c : Conn) : Conn :=
  match c_pending c !! correlation_id with
  | None => c
  | Some (cb, timer) =>
      let c := c <| c_pending ::= delete correlation_id |> in
      fire cb r (if stop then cancel timer c else c)
  end.

Definition IsConnected (c : Conn) : bool := c_connected c && c_open c.

Definition ConnStart (c : Conn) : Conn := c <| c_connected := true |>.

Definition ConnSend (data : string) (correlation_id : Z) (cb : nat) (c : Conn) : Conn :=
  let timer := c_next_timer c in
  c <| c_next_timer := S timer |>
    <| c_pending ::= <[correlation_id := (cb, timer)]> |>
    <| c_posted ::= fun l => l ++ [PArm timer correlation_id; PWrite (frame data) correlation_id] |>.

Definition DoWrite (c : Conn) : Conn :=
  match c_queue c with
  | [] => c <| c_write_in_progress := false |>
  | e :: rest =>
      let batch := if c_batching c then e :: rest else [e] in
      c <| c_queue := if c_batching c then [] else rest |>
        <| c_writes ::= fun l => l ++ [map we_correlation_id batch] |>
        <| c_wire ::= fun w => w +:+ String.concat "" (map we_msg batch) |>
  end.

(** The completion of the oldest write; [error] is the text of its error. *)
Definition write_done (error : option string) (c : Conn) : Conn :=
  match c_writes c with
  | [] => c
  | ids :: rest =>
      let c := c <| c_writes := rest |> in
      DoWrite (match error with
        | None => c
        | Some msg =>
            (foldl (fun c id => complete true id (mkRpcResult "" false ("Send failed: " +:+ msg)) c) c ids)
              <| c_connected := false |>
        end)
  end.

Definition connection_closed : RpcResult := mkRpcResult "" false "Connection closed".

(** [Close] of another thread: the timers are cancelled on the strand. *)
Definition ConnClose (c : Conn) : Conn :=
  let drained := map_to_list (c_pending c) in
  let c := c <| c_open := false |> <| c_connected := false |> <| c_pending := ∅ |> in
  post PDrain
    (foldl (fun c (p : Z * (nat * nat)) => fire p.2.1 connection_closed (post (PCancel p.2.2) c)) c drained).

(** The number behind the first colon behind the first quoted [correlation_id];
    0 when there is none. *)
Definition quote : ascii := ascii_of_nat 34.
Definition correlation_key : string := String quote ("correlation_id" +:+ String quote "").
Definition correlation_of (response_data : string) : Z :=
  match String.index 0 correlation_key response_data with
  | None => 0
  | Some pos =>
      match String.index (pos + 16) ":" response_data with
      | None => 0
      | Some colon => default 0 (stoull (substr_from (colon + 1) response_data))
      end
  end.

(** A response. *)
Definition HandleResponse (body : string) (c : Conn) : Conn :=
  let id := correlation_of body in
  if decide (id = 0) then c else complete true id (mkRpcResult body true "") c.

(** The answer to a request, on a server's connection. *)
Definition ConnReply (response : string) (c : Conn) : Conn := post (PWrite (frame response) 0) c.

(** Running a posted handler. *)
Definition run_posted (p : Posted) (c : Conn) : Conn :=
  match p with
  | PArm timer id => c <| c_timers ::= fun l => l ++ [(timer, id)] |>
  | PTimeout id => complete false id (mkRpcResult "" false "Request timeout") c
  | PCancel timer => cancel timer c
  | PWrite msg id =>
      let c := c <| c_queue ::= fun q => q ++ [mkWriteEntry msg id] |> in
      if c_write_in_progress c then c else DoWrite (c <| c_write_in_progress := true |>)
  | PDrain =>
      let c := foldl (fun c e => complete true (we_correlation_id e) connection_closed c) c (c_queue c) in
      c <| c_queue := [] |> <| c_write_in_progress := false |>
  end.
Definition run_next (c : Conn) : Conn :=
  match c_posted c with
  | [] => c
  | p :: rest => run_posted p (c <| c_posted := rest |>)
  end.

(** A timer expires: its handler is posted, and can no longer be cancelled. *)
Definition expire (timer : nat) (c : Conn) : Conn :=
  let hits := filter (fun t => t.1 = timer) (c_timers c) in
  c <| c_timers ::= filter (fun t => t.1 <> timer) |>
    <| c_posted ::= fun l => l ++ map (fun t => PTimeout t.2) hits |>.

(** ** Events *)

Inductive ConnEvent :=
| CStart
| CSend (data : string) (correlation_id : Z) (cb : nat)
| CRun
| CExpire (timer : nat)
| CWritten (error : option string)
| CResponse (body : string)
| CReply (response : string)
| CReadError
| CClose
| CSetBatching (enabled : bool).

Definition conn_step (c : Conn) (e : ConnEvent) : Conn :=
  match e with
  | CStart => ConnStart c
  | CSend data id cb => ConnSend data id cb c
  | CRun => run_next c
  | CExpire timer => expire timer c
  | CWritten error => write_done error c
  | CResponse body => HandleResponse body c
  | CReply response => ConnReply response c
  | CReadError => c <| c_connected := false |>
  | CClose => ConnClose c
  | CSetBatching enabled => c <| c_batching := enabled |>
  end.
Definition conn_run (c : Conn) (es : list ConnEvent) : Conn := foldl conn_step c es.

(** ** Frames are read back *)

Lemma char_byte_char z : char_byte (byte_char z) = z mod 2 ^ 8.
Proof.
  unfold char_byte, byte_char. change 0xFF with (Z.ones 8). rewrite Z.land_ones by done.
  change (2 ^ 8) with 256. pose proof (Z.mod_pos_bound z 256 ltac:(done)).
  rewrite N_ascii_embedding by (apply N2Z.inj_lt; rewrite Z2N.id; lia). by rewrite Z2N.id by lia.
Qed.

Lemma header_byte n k i :
  0 <= k -> 0 <= i ->
  Z.testbit (Z.shiftl (Z.shiftr n k mod 2 ^ 8) k) i = (k <=? i) && (i <? k + 8) && Z.testbit n i.
Proof.
  intros Hk Hi. rewrite Z.shiftl_spec by done. destruct (Z.leb_spec k i); simpl.
  - rewrite Z.testbit_mod_pow2, Z.shiftr_spec by lia. replace (i - k + k) with i by lia.
    f_equal. apply Bool.eq_iff_eq_true. rewrite !Z.ltb_lt. lia.
  - by rewrite Z.testbit_neg_r by lia.
Qed.

Lemma header_value n :
  0 <= n < 2 ^ 32 ->
  Z.lor (Z.lor (Z.lor (Z.shiftl (Z.shiftr n 24 mod 2 ^ 8) 24) (Z.shiftl (Z.shiftr n 16 mod 2 ^ 8) 16))
    (Z.shiftl (Z.shiftr n 8 mod 2 ^ 8) 8)) (n mod 2 ^ 8) = n.
Proof.
  intros Hn. apply Z.bits_inj'. intros i Hi.
  rewrite !Z.lor_spec, !header_byte, Z.testbit_mod_pow2 by done.
  destruct (decide (i < 32)).
  - destruct (Z.testbit n i); rewrite ?andb_false_r; [|done].
    apply Bool.eq_iff_eq_true. rewrite !orb_true_iff, !andb_true_iff, !Z.leb_le, !Z.ltb_lt. lia.
  - assert (Z.testbit n i = false) as ->; [|by rewrite !andb_false_r].
    destruct (decide (n = 0)) as [->|]; [apply Z.testbit_0_l|].
    apply Z.bits_above_log2; [lia|]. apply Z.log2_lt_pow2; [lia|].
    eapply Z.lt_le_trans; [apply Hn|]. apply Z.pow_le_mono_r; lia.
Qed.

(** A message that the reader accepts. *)
Definition message_ok (m : string) : Prop := 0 < Z.of_nat (String.length m) < kMaxMessage.

Lemma read_frame fuel m rest :
  message_ok m ->
  read_stream (S fuel) (frame m +:+ rest) =
    (m :: (read_stream fuel rest).1, (read_stream fuel rest).2).
Proof.
  intros Hm. unfold message_ok, kMaxMessage in Hm. unfold frame.
  rewrite u32_small by (unfold UINT32_MAX; lia). set (n := Z.of_nat (String.length m)) in *.
  change ((length_header n +:+ m) +:+ rest) with
    (String (byte_char (Z.shiftr n 24)) (String (byte_char (Z.shiftr n 16))
      (String (byte_char (Z.shiftr n 8)) (String (byte_char n) (m +:+ rest))))).
  cbn [read_stream]. rewrite !char_byte_char, header_value by lia.
  rewrite decide_True by (unfold kMaxMessage; lia).
  rewrite length_str_app, decide_False by lia. subst n. rewrite Nat2Z.id, substring_app, substr_from_app.
  by destruct (read_stream fuel rest).
Qed.

Lemma frame_length m : (4 <= String.length (frame m))%nat.
Proof. unfold frame. rewrite length_str_app. simpl. lia. Qed.

Lemma concat_frames m ms :
  String.concat "" (map frame (m :: ms)) = frame m +:+ String.concat "" (map frame ms).
Proof. apply concat_empty_cons. Qed.

Lemma frames_length ms : (length ms <= String.length (String.concat "" (map frame ms)))%nat.
Proof.
  induction ms as [|m ms IH]; [simpl; lia|]. rewrite concat_frames, length_str_app.
  pose proof (frame_length m). simpl. lia.
Qed.

Lemma read_frames ms fuel :
  Forall message_ok ms -> (length ms < fuel)%nat ->
  read_stream fuel (String.concat "" (map frame ms)) = (ms, RWaiting "").
Proof.
  revert fuel. induction ms as [|m ms IH]; intros fuel Hms Hf; [by destruct fuel; [simpl in *; lia|]|].
  apply list.Forall_cons in Hms as [Hm Hms]. destruct fuel as [|fuel]; [simpl in *; lia|].
  rewrite concat_frames, read_frame, IH by (simpl in *; auto with lia). done.
Qed.

(** A reply without content, which is what a rejected or unreadable request
    gets, ends the reading of the connection that receives it. *)
Lemma empty_reply_stops_reading ms rest :
  Forall message_ok ms ->
  read_stream (S (length ms)) (String.concat "" (map frame ms) +:+ frame "" +:+ rest) = (ms, RStopped).
Proof.
  intros Hms. induction ms as [|m ms IH]; [done|]. apply list.Forall_cons in Hms as [Hm Hms].
  rewrite concat_frames, str_app_assoc. cbn [length]. by rewrite read_frame, IH.
Qed.

(** ** Writing *)

(** The messages an event hands to the connection. *)
Definition event_messages (e : ConnEvent) : list string :=
  match e with
  | CSend data _ _ => [data]
  | CReply response => [response]
  | _ => []
  end.
Definition messages_sent (es : list ConnEvent) : list string := es ≫= event_messages.

(** The socket keeps working: it is not closed and no write fails. *)
Definition smooth (e : ConnEvent) : bool :=
  match e with
  | CClose | CWritten (Some _) => false
  | _ => true
  end.

Definition posted_writes (l : list Posted) : list string :=
  l ≫= fun p => match p with PWrite msg _ => [msg] | _ => [] end.

(** What was sent is on the wire, in the queue or posted, in this order; there is
    one write at a time, and one while anything is queued. *)
Record wire_inv (sent : list string) (c : Conn) : Prop := {
  wi_split : exists l q p,
    sent = l ++ q ++ p /\ c_wire c = String.concat "" (map frame l) /\
    map we_msg (c_queue c) = map frame q /\ posted_writes (c_posted c) = map frame p;
  wi_nodrain : PDrain ∉ c_posted c;
  wi_busy : length (c_writes c) = if c_write_in_progress c then 1%nat else 0%nat;
  wi_idle : c_write_in_progress c = false -> c_queue c = []
}.

Lemma string_concat_app (l k : list string) :
  String.concat "" (l ++ k) = String.concat "" l +:+ String.concat "" k.
Proof. induction l as [|x l IH]; [done|]. simpl app. by rewrite !concat_empty_cons, IH, str_app_assoc. Qed.

Lemma complete_writes stop id r c :
  let c' := complete stop id r c in
  c_wire c' = c_wire c /\ c_queue c' = c_queue c /\ c_posted c' = c_posted c /\
  c_writes c' = c_writes c /\ c_write_in_progress c' = c_write_in_progress c.
Proof. unfold complete. destruct (c_pending c !! id) as [[cb t]|]; [|done]. by destruct stop. Qed.

Lemma wire_inv_complete sent stop id r c : wire_inv sent c -> wire_inv sent (complete stop id r c).
Proof.
  intros [Hs Hd Hb Hi]. pose proof (complete_writes stop id r c) as (Hw & Hq & Hp & Hws & Hwi).
  by split; rewrite ?Hw, ?Hq, ?Hp, ?Hws, ?Hwi.
Qed.

(** A write starts: nothing is outstanding. *)
Lemma wire_inv_DoWrite sent c l q p :
  sent = l ++ q ++ p -> c_wire c = String.concat "" (map frame l) ->
  map we_msg (c_queue c) = map frame q -> posted_writes (c_posted c) = map frame p ->
  PDrain ∉ c_posted c -> c_writes c = [] -> c_write_in_progress c = true ->
  wire_inv sent (DoWrite c).
Proof.
  intros -> Hw Hq Hp Hd Hws Hwi. unfold DoWrite. destruct (c_queue c) as [|e rest] eqn:Eq.
  - split; proj_simp; [|done|by rewrite Hws|done]. exists l, q, p. by rewrite Eq.
  - destruct q as [|m q]; [done|]. injection Hq as He Hq. destruct (c_batching c).
    + split; proj_simp; [|done|by rewrite Hws, Hwi|by rewrite Hwi].
      exists (l ++ m :: q), [], p. split_and!; [by rewrite <- app_assoc| |done|done].
      rewrite Hw, map_app, string_concat_app. simpl. by rewrite He, Hq.
    + split; proj_simp; [|done|by rewrite Hws, Hwi|by rewrite Hwi].
      exists (l ++ [m]), q, p. split_and!; [by rewrite <- app_assoc| |done|done].
      rewrite Hw, map_app, string_concat_app. simpl. by rewrite He.
Qed.

(** Changes of the parts that writing does not look at. *)
Lemma wire_inv_same sent c c' :
  wire_inv sent c -> c_wire c' = c_wire c -> c_queue c' = c_queue c -> c_posted c' = c_posted c ->
  c_writes c' = c_writes c -> c_write_in_progress c' = c_write_in_progress c -> wire_inv sent c'.
Proof. intros [Hs Hd Hb Hi] Hw Hq Hp Hws Hwi. by split; rewrite ?Hw, ?Hq, ?Hp, ?Hws, ?Hwi. Qed.

Lemma posted_writes_app l k : posted_writes (l ++ k) = posted_writes l ++ posted_writes k.
Proof. apply bind_app. Qed.

Lemma wire_inv_post sent c ps more :
  wire_inv sent c -> posted_writes ps = map frame more -> PDrain ∉ ps ->
  wire_inv (sent ++ more) (c <| c_posted ::= fun l => l ++ ps |>).
Proof.
  intros [(l & q & p & -> & Hw & Hq & Hp) Hd Hb Hi] Hps Hn. split; proj_simp; [|set_solver|done|done].
  exists l, q, (p ++ more). rewrite posted_writes_app, Hp, Hps, map_app, <- !app_assoc. done.
Qed.

Lemma wire_inv_run sent c : wire_inv sent c -> wire_inv sent (run_next c).
Proof.
  intros Hinv. unfold run_next. destruct (c_posted c) as [|e rest] eqn:Ep; [done|].
  destruct Hinv as [(l & q & p & -> & Hw & Hq & Hp) Hd Hb Hi]. rewrite Ep in Hd, Hp.
  apply not_elem_of_cons in Hd as [He Hd].
  assert (posted_writes rest = map frame p -> wire_inv (l ++ q ++ p) (c <| c_posted := rest |>)) as Hrest.
  { intros Hr. split; proj_simp; [|done|done|done]. by exists l, q, p. }
  destruct e as [t id|id|t|msg id|]; simpl; [eapply wire_inv_same; eauto|by apply wire_inv_complete, Hrest
    |eapply wire_inv_same; eauto| |done].
  destruct p as [|m p]; [done|]. injection Hp as Hm Hp. proj_simp.
  assert (map we_msg (c_queue c ++ [mkWriteEntry msg id]) = map frame (q ++ [m])) as Hq'
    by (by rewrite !map_app, Hq, Hm).
  destruct (c_write_in_progress c) eqn:Ei.
  - split; proj_simp; [|done|by rewrite Hb, Ei|by rewrite Ei].
    exists l, (q ++ [m]), p. by rewrite <- app_assoc.
  - apply (wire_inv_DoWrite _ _ l (q ++ [m]) p); proj_simp; try done; [by rewrite <- app_assoc|].
    by apply nil_length_inv.
Qed.

Lemma wire_inv_step sent c e :
  wire_inv sent c -> smooth e = true -> wire_inv (sent ++ event_messages e) (conn_step c e).
Proof.
  intros Hinv He.
  destruct e as [|data id cb| |t|[msg|]|body|response| | |b]; simpl in *; try done;
    rewrite ?app_nil_r; try (eapply wire_inv_same; eauto; fail).
  - eapply wire_inv_same; [apply (wire_inv_post _ _ [PArm (c_next_timer c) id; PWrite (frame data) id] [data] Hinv)| ..];
      try done; set_solver.
  - by apply wire_inv_run.
  - rewrite <- (app_nil_r sent). eapply wire_inv_same; [eapply wire_inv_post; [exact Hinv| |]|..]; try done.
    + induction (filter _ (c_timers c)); done.
    + rewrite list_elem_of_fmap. by intros (? & ? & _).
  - unfold write_done. destruct (c_writes c) as [|ids rest] eqn:Ew; [done|].
    destruct Hinv as [(l & q & p & Hs & Hw & Hq & Hp) Hd Hb Hi]. rewrite Ew in Hb.
    destruct (c_write_in_progress c) eqn:Ei; [|done]. destruct rest; [|done].
    by apply (wire_inv_DoWrite _ _ l q p).
  - unfold HandleResponse. destruct (decide _); [done|]. by apply wire_inv_complete.
  - apply (wire_inv_post _ _ [PWrite (frame response) 0] [response]); [done|done|set_solver].
Qed.

Lemma wire_inv_conn_run es sent c :
  wire_inv sent c -> forallb smooth es = true -> wire_inv (sent ++ messages_sent es) (conn_run c es).
Proof.
  revert sent c. induction es as [|e es IH]; intros sent c Hinv Hes; simpl; [by rewrite app_nil_r|].
  simpl in Hes. apply andb_true_iff in Hes as [He Hes].
  rewrite app_assoc. apply IH; [by apply wire_inv_step|done].
Qed.

(** C26. While a connection is not closed and its writes succeed, and the messages it
    is given to send have at least one byte and less than 100 MB, the bytes on its
    socket read back as those messages, whole and in the order they were sent, up to
    those that are still queued; one write is outstanding at a time; and when no
    handler is posted and no write outstanding, all of them have arrived.  An empty
    message stops the reader instead ([empty_reply_stops_reading]). *)
Theorem messages_arrive_in_order es :
  forallb smooth es = true ->
  Forall message_ok (messages_sent es) ->
  let c := conn_run Conn_new es in
  (length (c_writes c) <= 1)%nat /\
  exists arrived waiting,
    messages_sent es = arrived ++ waiting /\
    read_all (c_wire c) = (arrived, RWaiting "") /\
    (c_posted c = [] -> c_writes c = [] -> waiting = []).
Proof.
  intros Hes Hok c. assert (wire_inv ([] ++ messages_sent es) c) as Hinv.
  { apply wire_inv_conn_run; [|done]. split; [by exists [], [], []|set_solver|done|done]. }
  simpl in Hinv. clearbody c. destruct Hinv as [(l & q & p & Hs & Hw & Hq & Hp) Hd Hb Hi].
  split; [rewrite Hb; destruct (c_write_in_progress c); lia|].
  exists l, (q ++ p). split; [done|]. rewrite Hs in Hok. apply Forall_app in Hok as [Hl _]. split.
  - unfold read_all. rewrite Hw. apply read_frames; [done|]. apply Nat.lt_succ_r, frames_length.
  - intros Hc Hws. rewrite Hws in Hb. destruct (c_write_in_progress c) eqn:Ei; [done|].
    rewrite Hi in Hq by done. rewrite Hc in Hp. by destruct q, p.
Qed.

Lemma messages_arrive_in_order_witness :
  let es := [CStart; CSend "vote" 1 7; CSend "append" 2 8; CRun; CRun; CSetBatching false; CReply "ok"; CRun;
             CRun; CRun; CWritten None; CWritten None] in
  (length (c_writes (conn_run Conn_new es)) <= 1)%nat /\
  exists arrived waiting,
    messages_sent es = arrived ++ waiting /\
    read_all (c_wire (conn_run Conn_new es)) = (arrived, RWaiting "") /\
    (c_posted (conn_run Conn_new es) = [] -> c_writes (conn_run Conn_new es) = [] -> waiting = []).
Proof.
  apply messages_arrive_in_order; [reflexivity|]. repeat constructor.
Defined.

(** ** Requests are answered *)

Definition event_request (e : ConnEvent) : list (Z * nat) :=
  match e with CSend _ id cb => [(id, cb)] | _ => [] end.
Definition requests (es : list ConnEvent) : list (Z * nat) := es ≫= event_request.

Definition waiting_callbacks (c : Conn) : list nat := (fun p => p.2.1) <$> map_to_list (c_pending c).
Definition called (c : Conn) : list nat := (c_fired c).*1.

(** A callback of [rs] has been called once or waits, and no other has been. *)
Record calls_inv (rs : list (Z * nat)) (c : Conn) : Prop := {
  ci_split : called c ++ waiting_callbacks c ≡ₚ rs.*2;
  ci_ids : forall id, is_Some (c_pending c !! id) -> id ∈ rs.*1
}.

Lemma calls_inv_same rs c c' :
  calls_inv rs c -> c_fired c' = c_fired c -> c_pending c' = c_pending c -> calls_inv rs c'.
Proof. intros [Hs Hi] Hf Hp. split; unfold called, waiting_callbacks in *; by rewrite ?Hf, ?Hp. Qed.

Lemma complete_pending stop id r c :
  c_pending (complete stop id r c) = delete id (c_pending c).
Proof.
  unfold complete. destruct (c_pending c !! id) as [[cb t]|] eqn:E; [by destruct stop|].
  by rewrite delete_id.
Qed.

Lemma calls_inv_complete rs stop id r c : calls_inv rs c -> calls_inv rs (complete stop id r c).
Proof.
  intros [Hs Hi]. split.
  - rewrite <- Hs. unfold called, waiting_callbacks. rewrite complete_pending.
    unfold complete. destruct (c_pending c !! id) as [[cb t]|] eqn:E; [|by rewrite delete_id].
    rewrite <- (map_to_list_delete _ _ _ E). destruct stop; simpl; rewrite fmap_app, <- app_assoc; done.
  - intros id' H'. apply Hi. rewrite complete_pending in H'. destruct H' as [x Hx].
    apply lookup_delete_Some in Hx as [_ Hx]. by eexists.
Qed.

Lemma calls_inv_completes {A} rs (f : A -> Z) r stop (l : list A) c :
  calls_inv rs c -> calls_inv rs (foldl (fun c e => complete stop (f e) r c) c l).
Proof. revert c. induction l as [|e l IH]; intros c Hc; [done|]. by apply IH, calls_inv_complete. Qed.

Lemma calls_inv_DoWrite rs c : calls_inv rs c -> calls_inv rs (DoWrite c).
Proof.
  intros Hc. unfold DoWrite. destruct (c_queue c); [by eapply calls_inv_same|].
  destruct (c_batching c); by eapply calls_inv_same.
Qed.

Lemma close_fires (l : list (Z * (nat * nat))) c :
  let c' := foldl (fun c (p : Z * (nat * nat)) => fire p.2.1 connection_closed (post (PCancel p.2.2) c)) c l in
  c_pending c' = c_pending c /\ c_timers c' = c_timers c /\ c_next_timer c' = c_next_timer c /\
  called c' = called c ++ map (fun p => p.2.1) l /\
  c_posted c' = c_posted c ++ map (fun p => PCancel p.2.2) l.
Proof.
  revert c. induction l as [|p l IH]; intros c; simpl; [by rewrite !app_nil_r|].
  destruct (IH (fire p.2.1 connection_closed (post (PCancel p.2.2) c))) as (-> & -> & -> & -> & ->).
  unfold called, fire, post. proj_simp. rewrite fmap_app, <- !app_assoc. done.
Qed.

Lemma calls_inv_run rs c : calls_inv rs c -> calls_inv rs (run_next c).
Proof.
  intros Hc. unfold run_next. destruct (c_posted c) as [|e rest]; [done|].
  assert (calls_inv rs (c <| c_posted := rest |>)) as Hr by by eapply calls_inv_same.
  destruct e as [t id|id|t|msg id|]; simpl; [by eapply calls_inv_same|by apply calls_inv_complete
    |by eapply calls_inv_same| |].
  - proj_simp. destruct (c_write_in_progress c); [by eapply calls_inv_same|].
    apply calls_inv_DoWrite. by eapply calls_inv_same.
  - eapply calls_inv_same; [by apply (calls_inv_completes rs we_correlation_id)|done|done].
Qed.

Lemma calls_inv_step rs c e :
  calls_inv rs c -> NoDup (rs ++ event_request e).*1 -> calls_inv (rs ++ event_request e) (conn_step c e).
Proof.
  intros Hc Hnd.
  destruct e as [|data id cb| |t|error|body|response| | |b]; simpl in *;
    rewrite ?app_nil_r in *; try (eapply calls_inv_same; eauto; fail).
  - destruct Hc as [Hs Hi]. rewrite fmap_app in Hnd. apply list.NoDup_app in Hnd as (_ & Hnd & _).
    assert (c_pending c !! id = None) as Hn.
    { apply eq_None_not_Some. intros H. apply (Hnd id); [by apply Hi|]. simpl. set_solver. }
    split; unfold called, waiting_callbacks, ConnSend in *; proj_simp.
    + rewrite fmap_app, <- Hs, map_to_list_insert by done. simpl. solve_Permutation.
    + intros id' H'. rewrite fmap_app, elem_of_app. destruct (decide (id' = id)) as [->|Hne]; [right; simpl; set_solver|].
      left. apply Hi. by rewrite lookup_insert_ne in H'.
  - by apply calls_inv_run.
  - unfold write_done. destruct (c_writes c) as [|ids rest]; [done|]. apply calls_inv_DoWrite.
    destruct error as [msg|]; [|by eapply calls_inv_same].
    eapply calls_inv_same; [apply (calls_inv_completes rs (fun id => id) (mkRpcResult "" false ("Send failed: " +:+ msg))
      true ids (c <| c_writes := rest |>)); by eapply calls_inv_same|done|done].
  - unfold HandleResponse. destruct (decide _); [done|]. by apply calls_inv_complete.
  - destruct Hc as [Hs Hi]. unfold ConnClose. cbv zeta.
    pose proof (close_fires (map_to_list (c_pending c))
      (c <| c_open := false |> <| c_connected := false |> <| c_pending := ∅ |>)) as (Hp & _ & _ & Hf & _).
    split; unfold waiting_callbacks, post in *; unfold called in *; proj_simp.
    + rewrite Hf, Hp. proj_simp. by rewrite map_to_list_empty, app_nil_r.
    + rewrite Hp. proj_simp. intros id [? Hx]. by rewrite lookup_empty in Hx.
Qed.

Lemma calls_inv_conn_run es rs c :
  calls_inv rs c -> NoDup (rs ++ requests es).*1 -> calls_inv (rs ++ requests es) (conn_run c es).
Proof.
  revert rs c. induction es as [|e es IH]; intros rs c Hc Hnd; simpl; [by rewrite app_nil_r|].
  simpl in Hnd. rewrite app_assoc in Hnd |- *. apply IH; [|done]. apply calls_inv_step; [done|].
  rewrite fmap_app in Hnd. by apply list.NoDup_app in Hnd as [? _].
Qed.

(** A request that waits, other than [skip], has its timer: about to be armed,
    armed, or expired with its handler posted.  A timer belongs to one request. *)
Record timers_inv_but (skip : option Z) (c : Conn) : Prop := {
  ti_fresh : forall id cb t, c_pending c !! id = Some (cb, t) -> (t < c_next_timer c)%nat;
  ti_kept : forall id cb t, c_pending c !! id = Some (cb, t) -> PCancel t ∉ c_posted c;
  ti_runs : forall id cb t, c_pending c !! id = Some (cb, t) -> skip <> Some id ->
    PArm t id ∈ c_posted c \/ (t, id) ∈ c_timers c \/ PTimeout id ∈ c_posted c;
  ti_inj : forall id cb id' cb' t, c_pending c !! id = Some (cb, t) -> c_pending c !! id' = Some (cb', t) -> id = id';
  ti_cancel : forall t, PCancel t ∈ c_posted c -> (t < c_next_timer c)%nat
}.
Definition timers_inv : Conn -> Prop := timers_inv_but None.

Lemma timers_inv_same skip c c' :
  timers_inv_but skip c -> c_pending c' = c_pending c -> c_posted c' = c_posted c -> c_timers c' = c_timers c ->
  c_next_timer c' = c_next_timer c -> timers_inv_but skip c'.
Proof. intros [H1 H2 H3 H4 H5] Hp Hq Ht Hn. by split; rewrite ?Hp, ?Hq, ?Ht, ?Hn. Qed.

Lemma timers_inv_weaken id c : timers_inv c -> timers_inv_but (Some id) c.
Proof. intros [H1 H2 H3 H4 H5]. split; eauto. Qed.

Lemma timers_inv_complete stop id r c :
  timers_inv_but (Some id) c -> timers_inv (complete stop id r c).
Proof.
  intros [H1 H2 H3 H4 H5]. unfold complete. destruct (c_pending c !! id) as [[cb t]|] eqn:E.
  2:{ split; try done. intros id' cb' t' H' _. apply (H3 _ _ _ H'). intros [= ->]. congruence. }
  assert (forall id' cb' t', delete id (c_pending c) !! id' = Some (cb', t') ->
    c_pending c !! id' = Some (cb', t') /\ t' <> t /\ id <> id') as Hdel.
  { intros id' cb' t' [Hne H']%lookup_delete_Some. split_and!; [done| |done]. intros ->. apply Hne.
    by eapply H4. }
  assert (forall ts, (forall t' id', t' <> t -> (t', id') ∈ c_timers c -> (t', id') ∈ ts) ->
    timers_inv (c <| c_pending ::= delete id |> <| c_timers := ts |>)) as Hts.
  { intros ts Hin. split; proj_simp; [| | | |done].
    - intros id' cb' t' [H' _]%Hdel. eauto.
    - intros id' cb' t' [H' _]%Hdel. eauto.
    - intros id' cb' t' (H' & Hne & Hid)%Hdel _. destruct (H3 _ _ _ H') as [?|[?|?]]; eauto. congruence.
    - intros id1 cb1 id2 cb2 t' [? _]%Hdel [? _]%Hdel. eauto. }
  destruct stop.
  - eapply timers_inv_same; [apply (Hts (filter (fun x => x.1 <> t) (c_timers c)))|done..].
    intros t' id' Hne Hin. by apply list_elem_of_filter.
  - eapply timers_inv_same; [by apply (Hts (c_timers c))|done..].
Qed.

Lemma timers_inv_completes {A} (f : A -> Z) r stop (l : list A) c :
  timers_inv c -> timers_inv (foldl (fun c e => complete stop (f e) r c) c l).
Proof.
  revert c. induction l as [|e l IH]; intros c Hc; [done|]. by apply IH, timers_inv_complete, timers_inv_weaken.
Qed.

Lemma timers_inv_DoWrite c : timers_inv c -> timers_inv (DoWrite c).
Proof.
  intros Hc. unfold DoWrite. destruct (c_queue c); [by eapply timers_inv_same|].
  destruct (c_batching c); by eapply timers_inv_same.
Qed.

Lemma timers_inv_run c : timers_inv c -> timers_inv (run_next c).
Proof.
  intros Hc. unfold run_next. destruct (c_posted c) as [|e rest] eqn:Ep; [done|].
  destruct Hc as [H1 H2 H3 H4 H5]. rewrite Ep in *.
  (* the handler at the front is replaced by what it leaves behind *)
  assert (forall skip ts,
    (forall id cb t, c_pending c !! id = Some (cb, t) -> skip <> Some id ->
      PArm t id ∈ rest \/ (t, id) ∈ ts \/ PTimeout id ∈ rest) ->
    timers_inv_but skip (c <| c_posted := rest |> <| c_timers := ts |>)) as Hrest.
  { intros skip ts Hr. split; proj_simp; [done| |done|done|].
    - intros id cb t H'. specialize (H2 _ _ _ H'). set_solver.
    - intros t Ht. apply H5. set_solver. }
  assert ((forall t id, e <> PArm t id) -> (forall id, e <> PTimeout id) ->
    timers_inv (c <| c_posted := rest |> <| c_timers := c_timers c |>)) as Hkeep.
  { intros Ha Ht. apply Hrest. intros id cb t H' _. destruct (H3 _ _ _ H') as [?|[?|?]]; set_solver. }
  destruct e as [t id|id|t|msg id|]; simpl.
  - apply Hrest. intros id' cb t' H' _. destruct (H3 _ _ _ H') as [Ha|[Ha|Ha]]; set_solver.
  - apply timers_inv_complete. eapply timers_inv_same; [apply (Hrest _ (c_timers c))|done..].
    intros id' cb t' H' Hne. destruct (H3 _ _ _ H') as [Ha|[Ha|Ha]]; [done|set_solver..].
  - apply Hrest. intros id' cb t' H' _. specialize (H2 _ _ _ H').
    destruct (H3 _ _ _ H') as [Ha|[Ha|Ha]]; [done|set_solver| |set_solver].
    right; left. apply list_elem_of_filter. split; [|done]. simpl. intros ->. set_solver.
  - proj_simp. destruct (c_write_in_progress c); [|apply timers_inv_DoWrite];
      (eapply timers_inv_same; [by apply Hkeep|done..]).
  - eapply timers_inv_same; [apply (timers_inv_completes we_correlation_id connection_closed true (c_queue c)
      (c <| c_posted := rest |>))|done..].
    eapply timers_inv_same; [by apply Hkeep|done..].
Qed.

Lemma timers_inv_expire t c : timers_inv c -> timers_inv (expire t c).
Proof.
  intros [H1 H2 H3 H4 H5]. unfold expire.
  assert (forall u, PCancel u ∈ c_posted c ++ map (fun x => PTimeout x.2) (filter (fun x => x.1 = t) (c_timers c)) ->
    PCancel u ∈ c_posted c) as Hc.
  { intros u [?|(? & ? & _)%list_elem_of_fmap]%elem_of_app; done. }
  split; proj_simp; [done|intros id cb u H' Hin; by apply (H2 _ _ _ H'), Hc| |done|by intros u ?%Hc; auto].
  intros id cb u H' _. rewrite !elem_of_app.
  destruct (H3 _ _ _ H') as [?|[?|?]]; [done|by left; left| |by right; right; left].
  destruct (decide (u = t)) as [->|Hne].
  - right; right; right. apply list_elem_of_fmap. exists (t, id). split; [done|].
    by apply list_elem_of_filter.
  - right; left. by apply list_elem_of_filter.
Qed.

Lemma timers_inv_step c e : timers_inv c -> timers_inv (conn_step c e).
Proof.
  intros Hc. destruct e as [|data id cb| |t|error|body|response| | |b]; simpl; try (by eapply timers_inv_same).
  - destruct Hc as [H1 H2 H3 H4 H5]. unfold ConnSend. split; proj_simp.
    + intros id' cb' t' [[-> [= <- <-]]|[_ H']]%lookup_insert_Some; [lia|]. specialize (H1 _ _ _ H'). lia.
    + intros id' cb' t' H'. rewrite elem_of_app. intros [Hin|Hin]; [|set_solver].
      apply lookup_insert_Some in H' as [[-> [= <- <-]]|[_ H']]; [specialize (H5 _ Hin); lia|].
      by apply (H2 _ _ _ H').
    + intros id' cb' t' [[-> [= <- <-]]|[_ H']]%lookup_insert_Some _; [set_solver|].
      destruct (H3 _ _ _ H') as [?|[?|?]]; set_solver.
    + intros i1 b1 i2 b2 t [[-> [= <- <-]]|[_ E1]]%lookup_insert_Some [[-> [= <-]]|[_ E2]]%lookup_insert_Some;
        [done|specialize (H1 _ _ _ E2); lia|specialize (H1 _ _ _ E1); lia|eauto].
    + intros t [Hin|Hin]%elem_of_app; [specialize (H5 _ Hin); lia|set_solver].
  - by apply timers_inv_run.
  - by apply timers_inv_expire.
  - unfold write_done. destruct (c_writes c) as [|ids rest]; [done|]. apply timers_inv_DoWrite.
    destruct error as [msg|]; [|by eapply timers_inv_same].
    eapply timers_inv_same; [apply (timers_inv_completes (fun id => id)
      (mkRpcResult "" false ("Send failed: " +:+ msg)) true ids (c <| c_writes := rest |>))|done..].
    by eapply timers_inv_same.
  - unfold HandleResponse. destruct (decide _); [done|]. by apply timers_inv_complete, timers_inv_weaken.
  - destruct Hc as [H1 H2 H3 H4 H5]. unfold ConnReply, post. split; proj_simp; [done| | |done|].
    + intros id cb t H'. specialize (H2 _ _ _ H'). set_solver.
    + intros id cb t H' _. destruct (H3 _ _ _ H') as [?|[?|?]]; set_solver.
    + intros t Ht. apply H5. set_solver.
  - destruct Hc as [H1 H2 H3 H4 H5]. unfold ConnClose, post. cbv zeta.
    pose proof (close_fires (map_to_list (c_pending c))
      (c <| c_open := false |> <| c_connected := false |> <| c_pending := ∅ |>)) as (Hp & _ & Hn & _ & Hq).
    unfold post in *. split; proj_simp; rewrite ?Hp; proj_simp; [intros ??? Hx; by rewrite lookup_empty in Hx..
      |intros ????? Hx; by rewrite lookup_empty in Hx|].
    rewrite Hq, Hn. proj_simp. intros t [[Hin|Hin]%elem_of_app|Hin]%elem_of_app; [auto| |set_solver].
    apply list_elem_of_fmap in Hin as ([id [cb u]] & [= ->] & Hin%elem_of_map_to_list). eauto.
Qed.

Lemma timers_inv_conn_run es c : timers_inv c -> timers_inv (conn_run c es).
Proof. revert c. induction es as [|e es IH]; intros c Hc; [done|]. by apply IH, timers_inv_step. Qed.

(** ** Letting the connection run *)

(** The handlers that are posted run; the timers expire; the handlers this posts
    run. *)
Definition run_all (c : Conn) : list ConnEvent := replicate (length (c_posted c)) CRun.
Definition expire_all (c : Conn) : list ConnEvent := map (fun t => CExpire t.1) (c_timers c).
Definition settle (c : Conn) : list ConnEvent :=
  let c1 := conn_run c (run_all c) in
  let c2 := conn_run c1 (expire_all c1) in
  run_all c ++ expire_all c1 ++ run_all c2.

Lemma complete_posted_timers stop id r c :
  c_posted (complete stop id r c) = c_posted c /\
  (c_timers c = [] -> c_timers (complete stop id r c) = []).
Proof.
  unfold complete. destruct (c_pending c !! id) as [[cb t]|]; [|done]. destruct stop; [|done].
  unfold fire, cancel. proj_simp. split; [done|]. by intros ->.
Qed.

Lemma completes_posted_timers {A} (f : A -> Z) r stop (l : list A) c :
  let c' := foldl (fun c e => complete stop (f e) r c) c l in
  c_posted c' = c_posted c /\ (c_timers c = [] -> c_timers c' = []).
Proof.
  revert c. induction l as [|e l IH]; intros c; [done|]. simpl.
  destruct (IH (complete stop (f e) r c)) as [-> Ht]. destruct (complete_posted_timers stop (f e) r c) as [-> Ht'].
  auto.
Qed.

Definition is_timeout (p : Posted) : bool := match p with PTimeout _ => true | _ => false end.

Lemma run_next_posted c :
  c_posted (run_next c) = tail (c_posted c) /\
  (forallb is_timeout (c_posted c) = true -> c_timers c = [] -> c_timers (run_next c) = []).
Proof.
  unfold run_next. destruct (c_posted c) as [|e rest] eqn:Ep; [by rewrite Ep|].
  destruct e as [t id|id|t|msg id|]; simpl; split; try done.
  - apply complete_posted_timers.
  - intros _ Ht. by apply complete_posted_timers.
  - proj_simp. destruct (c_write_in_progress c); [done|]. unfold DoWrite. proj_simp.
    destruct (c_queue c ++ _); [done|]. by destruct (c_batching c).
  - proj_simp. apply (completes_posted_timers we_correlation_id).
Qed.

Lemma run_all_posted n c :
  (length (c_posted c) <= n)%nat ->
  let c' := conn_run c (replicate n CRun) in
  c_posted c' = [] /\
  (forallb is_timeout (c_posted c) = true -> c_timers c = [] -> c_timers c' = []).
Proof.
  revert c. induction n as [|n IH]; intros c Hn; simpl.
  - destruct (c_posted c); [done|simpl in Hn; lia].
  - destruct (run_next_posted c) as [Hp Ht].
    destruct (IH (run_next c)) as [H1 H2]; [rewrite Hp; destruct (c_posted c); simpl in *; lia|].
    split; [done|]. intros Hall Hc. apply H2; [|auto]. rewrite Hp. destruct (c_posted c); [done|].
    simpl in Hall |- *. by apply andb_true_iff in Hall as [_ ?].
Qed.

Lemma expire_timeouts (ts : list (nat * Z)) c :
  forallb is_timeout (c_posted c) = true ->
  let c' := conn_run c (map (fun t => CExpire t.1) ts) in
  forallb is_timeout (c_posted c') = true /\
  forall x, x ∈ c_timers c' -> x ∈ c_timers c /\ x.1 ∉ map fst ts.
Proof.
  revert c. induction ts as [|t ts IH]; intros c Hc; simpl; [set_solver|].
  destruct (IH (expire t.1 c)) as [H1 H2].
  - unfold expire. proj_simp. rewrite forallb_app, Hc. by induction (filter _ (c_timers c)).
  - split; [done|]. intros x [Hx Hn]%H2. unfold expire in Hx. revert Hx. proj_simp.
    intros [Hne Hx]%list_elem_of_filter. split; [done|]. rewrite not_elem_of_cons. done.
Qed.

Lemma settle_sends_nothing c : requests (settle c) = [].
Proof.
  assert (forall n, requests (replicate n CRun) = []) as Hr by by induction n.
  assert (forall l : list (nat * Z), requests (map (fun t => CExpire t.1) l) = []) as He by by induction l.
  unfold settle, run_all, expire_all, requests in *. by rewrite !bind_app, !Hr, He.
Qed.

Lemma settle_empties c : timers_inv c -> c_pending (conn_run c (settle c)) = ∅.
Proof.
  intros Hinv. unfold settle. unfold conn_run at 1. rewrite !foldl_app. fold (conn_run c (run_all c)).
  set (c1 := conn_run c (run_all c)). fold (conn_run c1 (expire_all c1)).
  set (c2 := conn_run c1 (expire_all c1)). fold (conn_run c2 (run_all c2)).
  set (c3 := conn_run c2 (run_all c2)).
  destruct (run_all_posted (length (c_posted c)) c ltac:(lia)) as [Hp1 _].
  destruct (expire_timeouts (c_timers c1) c1) as [Hall Htim]; [unfold c1, run_all; by rewrite Hp1|].
  assert (c_timers c2 = []) as Ht2.
  { apply elem_of_nil_inv. intros x [Hx Hn]%Htim. apply Hn. by apply list_elem_of_fmap_2. }
  destruct (run_all_posted (length (c_posted c2)) c2 ltac:(lia)) as [Hp3 Ht3].
  assert (timers_inv c3) as [_ _ H3 _ _] by by repeat apply timers_inv_conn_run.
  apply map_empty. intros id. destruct (c_pending c3 !! id) as [[cb t]|] eqn:E; [|done].
  unfold c3, run_all in E, H3. specialize (H3 _ _ _ E).
  rewrite Hp3, (Ht3 Hall Ht2) in H3. set_solver.
Qed.

(** Requests with different ids get one answer each.  Whatever happens on the
    connection, every callback of a request has been called once or still waits,
    and no other has been called; and once the posted handlers have run and the
    timers have expired, all of them have been called. *)
Theorem every_request_answered_once es :
  NoDup (requests es).*1 ->
  let c := conn_run Conn_new es in
  called c ++ waiting_callbacks c ≡ₚ (requests es).*2 /\
  called (conn_run c (settle c)) ≡ₚ (requests es).*2.
Proof.
  intros Hnd c. assert (timers_inv Conn_new) as Ht by (split; set_solver).
  assert (forall es', requests es' = [] -> calls_inv (requests es) (conn_run c es')) as Hc.
  { intros es' He. unfold c, conn_run. rewrite <- foldl_app.
    assert (requests (es ++ es') = requests es) as <- by (unfold requests in *; by rewrite bind_app, He, app_nil_r).
    apply (calls_inv_conn_run _ [] Conn_new); [split; [done|by intros id [? ?]]|].
    unfold requests in *. by rewrite bind_app, He, app_nil_r. }
  split; [apply (Hc [])|]; [done|].
  destruct (Hc (settle c)) as [Hs _].
  - apply settle_sends_nothing.
  - unfold waiting_callbacks in Hs. rewrite settle_empties, map_to_list_empty, app_nil_r in Hs; [done|].
    by apply timers_inv_conn_run.
Qed.

Lemma every_request_answered_once_witness :
  let es := [CStart; CSend "vote" 1 7; CSend "append" 2 8; CRun; CSend "read" 3 9; CClose; CSend "late" 4 10] in
  called (conn_run Conn_new es) ++ waiting_callbacks (conn_run Conn_new es) ≡ₚ (requests es).*2 /\
  called (conn_run (conn_run Conn_new es) (settle (conn_run Conn_new es))) ≡ₚ (requests es).*2.
Proof.
  apply every_request_answered_once. apply (bool_decide_unpack (NoDup [1; 2; 3; 4])). reflexivity.
Defined.

(** Two requests with one id: the answer to the first is given to the callback of
    the second. *)
Lemma shared_id_crosses d1 d2 id cb1 cb2 body c :
  correlation_of body = id -> id <> 0 ->
  let c' := HandleResponse body (ConnSend d2 id cb2 (ConnSend d1 id cb1 c)) in
  c_fired c' = c_fired c ++ [(cb2, mkRpcResult body true "")] /\ c_pending c' !! id = None.
Proof.
  intros <- H0 c'. unfold c', HandleResponse. rewrite decide_False by done.
  rewrite complete_pending, lookup_delete_eq. split; [|done].
  unfold complete, ConnSend. proj_simp. by rewrite lookup_insert_eq.
Qed.
