(* ===== verification/Peers.v ===== *)
(** * Peers: [PeerConnection] of [src/asio_network_transport.cpp]

    Connecting to a peer, the requests that wait for the connection, and
    reconnecting with a growing delay.  A peer goes through one [Conn] per
    attempt; [p_conns] holds all it ever made, and an attempt is known by its
    place there.  What is posted to the peer's strand waits in [p_posted]. *)

From S2P Require Import Prelude Types RaftLog Quorum RaftGroup Timers Replicate Membership Text Bytes DenseIndex Disk Wal Connection.

(** ** State *)

Inductive PeerState := kDisconnected | kConnecting | kConnected | kFailed.
#[global] Instance PeerState_eq_dec : EqDecision PeerState.
Proof. solve_decision. Defined.

Definition kMaxPendingSends : nat := 1000.

Record PendingSend := mkPendingSend {
  ps_request_data : string;
  ps_correlation_id : Z;
  ps_callback : nat
}.

(** What an attempt waits for. *)
Inductive Stage := SResolving | SConnecting | SHandshake.

Inductive PeerPost :=
| PPStart
| PPEnqueue (s : PendingSend)
| PPClose
| PPConnectTimeout (attempt : nat)
| PPReconnect.

Inductive Note :=
| NState (s : PeerState)
| NConnection (connected : bool).

(** [p_connect_timer] is the attempt the armed connect timer is for,
    [p_reconnect_timer] whether the other timer is armed, [p_attempts] the
    resolving, connecting and handshaking under way, [p_fired] the calls of
    callbacks the peer made itself, [p_notes] what it told the transport. *)
Record Peer := mkPeer {
  p_state : PeerState;
  p_conn : option nat;
  p_conns : list Conn;
  p_pending : list PendingSend;
  p_delay : Z;
  p_connect_timer : option nat;
  p_reconnect_timer : bool;
  p_posted : list PeerPost;
  p_attempts : list (nat * Stage);
  p_fired : list (nat * RpcResult);
  p_notes : list Note
}.
#[global] Instance Peer_eta : Eta Peer := fun r =>
  mkPeer (p_state r) (p_conn r) (p_conns r) (p_pending r) (p_delay r) (p_connect_timer r) (p_reconnect_timer r)
    (p_posted r) (p_attempts r) (p_fired r) (p_notes r).

Definition Peer_new : Peer := mkPeer kDisconnected None [] [] 100 None false [] [] [] [].

(** ** Operations *)

Definition at_conn (k : nat) (e : ConnEvent) (p : Peer) : Peer :=
  p <| p_conns ::= alter (fun c => conn_step c e) k |>.

Definition note (n : Note) (p : Peer) : Peer := p <| p_notes ::= fun l => l ++ [n] |>.

(** On the strand. *)
Definition StartConnecting (p : Peer) : Peer :=
  if decide (p_state p = kDisconnected \/ p_state p = kFailed) then
    let k := length (p_conns p) in
    (note (NState kConnecting) (p <| p_state := kConnecting |>))
      <| p_conns ::= fun l => l ++ [Conn_new] |>
      <| p_conn := Some k |>
      <| p_connect_timer := Some k |>
      <| p_attempts ::= fun l => l ++ [(k, SResolving)] |>
  else p.

Definition DrainPendingSendsWithError (error_msg : string) (p : Peer) : Peer :=
  p <| p_pending := [] |>
    <| p_fired ::= fun f => f ++ map (fun s => (ps_callback s, mkRpcResult "" false error_msg)) (p_pending p) |>.

Definition send_on (s : PendingSend) (p : Peer) : Peer :=
  match p_conn p with
  | None => p
  | Some k => at_conn k (CSend (ps_request_data s) (ps_correlation_id s) (ps_callback s)) p
  end.

Definition FlushPendingSends (p : Peer) : Peer :=
  foldl (fun p s => send_on s p) (p <| p_pending := [] |>) (p_pending p).

Definition StartBackoffReconnect (p : Peer) : Peer :=
  p <| p_reconnect_timer := true |> <| p_delay ::= fun d => Z.min (d * 2) 5000 |>.

Definition close_current (p : Peer) : Peer :=
  match p_conn p with None => p | Some k => at_conn k CClose p end.

Definition OnConnectFailure (ec : string) (p : Peer) : Peer :=
  if decide (p_state p = kConnecting) then
    StartBackoffReconnect
      (DrainPendingSendsWithError ("Connection failed: " +:+ ec)
        (close_current
          (note (NConnection false) (note (NState kFailed) (p <| p_state := kFailed |>)))))
  else p.

(** [ec] is the text of the error. *)
Definition OnConnect (ec : option string) (attempt : nat) (p : Peer) : Peer :=
  if decide (p_conn p <> Some attempt) then at_conn attempt CClose p
  else match ec with
  | Some err => OnConnectFailure err p
  | None =>
      let p := p <| p_connect_timer := None |> in
      if decide (p_state p <> kConnecting) then close_current p
      else
        let p := p <| p_state := kConnected |> <| p_delay := 100 |> <| p_reconnect_timer := false |> in
        FlushPendingSends (note (NConnection true) (at_conn attempt CStart p))
  end.

Definition OnTcpConnected (tls : bool) (ec : option string) (attempt : nat) (p : Peer) : Peer :=
  if decide (p_conn p <> Some attempt) then at_conn attempt CClose p
  else match ec with
  | Some err => OnConnectFailure err p
  | None =>
      if tls then p <| p_attempts ::= fun l => l ++ [(attempt, SHandshake)] |>
      else OnConnect None attempt p
  end.

(** The end of a handshake; [identity_ok] is whether the peer authenticates. *)
Definition handshake_done (ec : option string) (identity_ok : bool) (attempt : nat) (p : Peer) : Peer :=
  match ec with
  | Some err => OnConnect (Some err) attempt p
  | None =>
      if identity_ok then OnConnect None attempt p
      else OnConnect (Some "Permission denied") attempt (at_conn attempt CClose p)
  end.

(** The handler [EnqueueSend] posts. *)
Definition enqueue (s : PendingSend) (p : Peer) : Peer :=
  if decide (p_state p = kConnected) then
    if negb (default true (IsConnected <$> (k ← p_conn p; p_conns p !! k))) then
      StartConnecting (p <| p_state := kFailed |> <| p_pending ::= fun l => l ++ [s] |>)
    else send_on s p
  else
    let state := p_state p in
    let p := p <| p_pending ::= fun l => l ++ [s] |> in
    let p :=
      if decide (kMaxPendingSends <= length (p_pending p))%nat then
        match p_pending p with
        | [] => p
        | dropped :: rest =>
            p <| p_pending := rest |>
              <| p_fired ::= fun f => f ++ [(ps_callback dropped, mkRpcResult "" false "Send queue full")] |>
        end
      else p in
    if decide (state = kFailed \/ state = kDisconnected) then StartConnecting p else p.

(** The handler [Close] posts. *)
Definition close_peer (p : Peer) : Peer :=
  if decide (p_state p = kDisconnected) then p
  else
    let was_connected := bool_decide (p_state p = kConnected) in
    let p := p <| p_connect_timer := None |> <| p_reconnect_timer := false |> in
    let p := (close_current p) <| p_conn := None |> in
    let p := DrainPendingSendsWithError "Transport stopped" p in
    let p := note (NState kDisconnected) (p <| p_state := kDisconnected |>) in
    if was_connected then note (NConnection false) p else p.

Definition connect_timed_out : string := "Connection timed out".

Definition run_peer_post (x : PeerPost) (p : Peer) : Peer :=
  match x with
  | PPStart => StartConnecting p
  | PPEnqueue s => enqueue s p
  | PPClose => close_peer p
  | PPConnectTimeout k => OnConnect (Some connect_timed_out) k p
  | PPReconnect => if decide (p_state p = kFailed) then StartConnecting p else p
  end.
Definition run_peer (p : Peer) : Peer :=
  match p_posted p with
  | [] => p
  | x :: rest => run_peer_post x (p <| p_posted := rest |>)
  end.

(** An attempt's operation completes. *)
Definition attempt_done (tls : bool) (i : nat) (ec : option string) (identity_ok : bool) (p : Peer) : Peer :=
  match p_attempts p !! i with
  | None => p
  | Some (k, stage) =>
      let p := p <| p_attempts ::= list_delete i |> in
      match stage with
      | SResolving =>
          match ec with
          | Some err => OnConnect (Some err) k p
          | None => p <| p_attempts ::= fun l => l ++ [(k, SConnecting)] |>
          end
      | SConnecting => OnTcpConnected tls ec k p
      | SHandshake => handshake_done ec identity_ok k p
      end
  end.

(** ** Events *)

Inductive PeerEvent :=
| PStart
| PEnqueueSend (s : PendingSend)
| PClosePeer
| PRun
| PAttempt (i : nat) (ec : option string) (identity_ok : bool)
| PConnectExpires
| PReconnectExpires
| PConn (k : nat) (e : ConnEvent).

(** What happens on a connection by itself. *)
Definition conn_event (e : ConnEvent) : bool :=
  match e with CSend _ _ _ | CStart | CClose => false | _ => true end.

Definition post_peer (x : PeerPost) (p : Peer) : Peer := p <| p_posted ::= fun l => l ++ [x] |>.

Definition peer_step (tls : bool) (p : Peer) (e : PeerEvent) : Peer :=
  match e with
  | PStart => post_peer PPStart p
  | PEnqueueSend s => post_peer (PPEnqueue s) p
  | PClosePeer => post_peer PPClose p
  | PRun => run_peer p
  | PAttempt i ec identity_ok => attempt_done tls i ec identity_ok p
  | PConnectExpires =>
      match p_connect_timer p with
      | None => p
      | Some k => post_peer (PPConnectTimeout k) (p <| p_connect_timer := None |>)
      end
  | PReconnectExpires =>
      if p_reconnect_timer p then post_peer PPReconnect (p <| p_reconnect_timer := false |>) else p
  | PConn k e => if conn_event e then at_conn k e p else p
  end.
Definition peer_run (tls : bool) (p : Peer) (es : list PeerEvent) : Peer := foldl (peer_step tls) p es.

(** ** The state machine

    Requests wait only while the peer connects, and then a timer will end the
    attempt; the queue and the delay are bounded. *)
Record peer_inv (p : Peer) : Prop := {
  pi_waiting : p_state p <> kConnecting -> p_pending p = [];
  pi_size : (length (p_pending p) < kMaxPendingSends)%nat;
  pi_delay : 100 <= p_delay p <= 5000;
  pi_conn : forall k, p_conn p = Some k -> (k < length (p_conns p))%nat;
  pi_connected : p_state p = kConnected -> is_Some (p_conn p);
  pi_timer : p_state p = kConnecting ->
    exists k, p_conn p = Some k /\ (p_connect_timer p = Some k \/ PPConnectTimeout k ∈ p_posted p)
}.

Lemma empty_queue_small : (length (A := PendingSend) [] < kMaxPendingSends)%nat.
Proof. unfold kMaxPendingSends. simpl. lia. Qed.
#[local] Hint Resolve empty_queue_small : core.

Lemma peer_inv_same p p' :
  peer_inv p -> p_state p' = p_state p -> p_pending p' = p_pending p -> p_delay p' = p_delay p ->
  p_conn p' = p_conn p -> length (p_conns p') = length (p_conns p) ->
  p_connect_timer p' = p_connect_timer p -> p_posted p' = p_posted p -> peer_inv p'.
Proof. intros [H1 H2 H3 H4 H5 H6] E1 E2 E3 E4 E5 E6 E7. by split; rewrite ?E1, ?E2, ?E3, ?E4, ?E5, ?E6, ?E7. Qed.

Lemma at_conn_frame k e p :
  exists l, at_conn k e p = p <| p_conns := l |> /\ length l = length (p_conns p).
Proof. eexists. split; [done|]. apply length_alter. Qed.

Lemma send_on_frame s p :
  exists l, send_on s p = p <| p_conns := l |> /\ length l = length (p_conns p).
Proof.
  unfold send_on. destruct (p_conn p); [apply at_conn_frame|]. exists (p_conns p). by destruct p.
Qed.

Lemma close_current_frame p :
  exists l, close_current p = p <| p_conns := l |> /\ length l = length (p_conns p).
Proof.
  unfold close_current. destruct (p_conn p); [apply at_conn_frame|]. exists (p_conns p). by destruct p.
Qed.

Lemma sends_frame ss p :
  exists l, foldl (fun p s => send_on s p) p ss = p <| p_conns := l |> /\ length l = length (p_conns p).
Proof.
  revert p. induction ss as [|s ss IH]; intros p; simpl.
  - exists (p_conns p). by destruct p.
  - destruct (send_on_frame s p) as (l & -> & Hl). destruct (IH (p <| p_conns := l |>)) as (l' & -> & Hl').
    exists l'. split; [done|]. by rewrite Hl'.
Qed.

Lemma FlushPendingSends_frame p :
  exists l, FlushPendingSends p = p <| p_pending := [] |> <| p_conns := l |> /\ length l = length (p_conns p).
Proof. destruct (sends_frame (p_pending p) (p <| p_pending := [] |>)) as (l & Hf & Hl). by exists l. Qed.

Lemma peer_inv_at_conn k e p : peer_inv p -> peer_inv (at_conn k e p).
Proof. intros Hp. destruct (at_conn_frame k e p) as (l & -> & Hl). by eapply peer_inv_same. Qed.

(** From any state in which at most one request waits outside an attempt. *)
Lemma peer_inv_StartConnecting p :
  (length (p_pending p) < kMaxPendingSends)%nat -> 100 <= p_delay p <= 5000 ->
  p_state p = kDisconnected \/ p_state p = kFailed -> peer_inv (StartConnecting p).
Proof.
  intros Hs Hd Hst. unfold StartConnecting, note. rewrite decide_True by done.
  split; proj_simp; [done|done|done| |done|].
  - intros k [= <-]. rewrite length_app. simpl. lia.
  - intros _. eexists. split; [done|]. by left.
Qed.

Lemma peer_inv_start p : peer_inv p -> peer_inv (StartConnecting p).
Proof.
  intros Hp. destruct (decide (p_state p = kDisconnected \/ p_state p = kFailed)).
  - destruct Hp. by apply peer_inv_StartConnecting.
  - unfold StartConnecting. by rewrite decide_False.
Qed.

(** A failure needs no timer any more. *)
Lemma peer_inv_OnConnectFailure ec t p :
  peer_inv (p <| p_connect_timer := t |>) -> peer_inv (OnConnectFailure ec p).
Proof.
  intros [H1 H2 H3 H4 H5 H6]. revert H1 H2 H3 H4 H5 H6. proj_simp. intros H1 H2 H3 H4 H5 H6.
  unfold OnConnectFailure. destruct (decide (p_state p = kConnecting)) as [Es|]; [|by split].
  match goal with |- context [close_current ?q] => destruct (close_current_frame q) as (l & -> & Hl) end.
  unfold StartBackoffReconnect, DrainPendingSendsWithError, note in *.
  split; proj_simp; [done|auto|lia| |done|done].
  intros k Hk. revert Hl. proj_simp. intros ->. auto.
Qed.

Lemma peer_inv_OnConnect ec k p : peer_inv p -> peer_inv (OnConnect ec k p).
Proof.
  intros Hp. unfold OnConnect. destruct (decide (p_conn p <> Some k)) as [|Ek]; [by apply peer_inv_at_conn|].
  apply dec_stable in Ek. destruct ec as [err|]; [by apply (peer_inv_OnConnectFailure _ (p_connect_timer p)); destruct p|]. proj_simp.
  destruct Hp as [H1 H2 H3 H4 H5 H6]. destruct (decide (p_state p <> kConnecting)) as [Es|Es].
  - destruct (close_current_frame (p <| p_connect_timer := None |>)) as (l & -> & Hl).
    split; proj_simp; try done. intros k' Hk'. revert Hl. proj_simp. intros ->. auto.
  - match goal with |- context [FlushPendingSends ?q] => destruct (FlushPendingSends_frame q) as (l & -> & Hl) end.
    unfold note, at_conn in *. split; proj_simp; [done|auto|done| |done|done].
    intros k' Hk'. revert Hl. proj_simp. rewrite length_alter. intros ->. auto.
Qed.

Lemma peer_inv_enqueue s p : peer_inv p -> peer_inv (enqueue s p).
Proof.
  intros Hp. pose proof Hp as [H1 H2 H3 H4 H5 H6]. unfold enqueue.
  destruct (decide (p_state p = kConnected)) as [Es|Es].
  - destruct (negb _).
    + apply peer_inv_StartConnecting; proj_simp; [|done|by right].
      rewrite H1 by (by rewrite Es). unfold kMaxPendingSends. simpl. lia.
    + destruct (send_on_frame s p) as (l & -> & Hl). by eapply peer_inv_same.
  - cbv zeta. proj_simp. set (q := if decide (kMaxPendingSends <= _)%nat then _ else _).
    assert ((length (p_pending q) < kMaxPendingSends)%nat /\ p_state q = p_state p /\ p_delay q = p_delay p /\
      p_conn q = p_conn p /\ p_conns q = p_conns p /\ p_connect_timer q = p_connect_timer p /\
      p_posted q = p_posted p) as (Q1 & Q2 & Q3 & Q4 & Q5 & Q6 & Q7).
    { unfold q. destruct (decide _) as [Hfull|Hroom].
      - destruct (p_pending p ++ [s]) as [|d rest] eqn:Eq; [by destruct (p_pending p)|]. proj_simp.
        split; [|done]. apply (f_equal length) in Eq. rewrite length_app in Eq. simpl in *. lia.
      - proj_simp. split; [|done]. lia. }
    clearbody q. destruct (decide (p_state p = kFailed \/ p_state p = kDisconnected)) as [Hd|Hd].
    + apply peer_inv_StartConnecting; [done|by rewrite Q3|rewrite Q2; tauto].
    + split; rewrite ?Q2, ?Q3, ?Q4, ?Q5, ?Q6, ?Q7; try done.
      intros Hc. destruct (p_state p); tauto.
Qed.

Lemma peer_inv_close p : peer_inv p -> peer_inv (close_peer p).
Proof.
  intros Hp. unfold close_peer. destruct (decide (p_state p = kDisconnected)); [done|]. cbv zeta.
  destruct Hp as [H1 H2 H3 H4 H5 H6].
  match goal with |- context [close_current ?q] => destruct (close_current_frame q) as (l & -> & Hl) end.
  unfold DrainPendingSendsWithError, note.
  destruct (bool_decide _); split; proj_simp; by auto.
Qed.

Lemma peer_inv_pop x rest p :
  peer_inv p -> p_posted p = x :: rest -> (forall k, p_conn p = Some k -> x <> PPConnectTimeout k) ->
  peer_inv (p <| p_posted := rest |>).
Proof.
  intros [H1 H2 H3 H4 H5 H6] Ep Hx. rewrite Ep in H6. split; proj_simp; try done.
  intros (k & Hk & Ht)%H6. exists k. split; [done|].
  specialize (Hx _ Hk). destruct Ht as [?|Ht]; [by left|]. right. set_solver.
Qed.

Lemma peer_inv_run p : peer_inv p -> peer_inv (run_peer p).
Proof.
  intros Hp. unfold run_peer. destruct (p_posted p) as [|x rest] eqn:Ep; [done|].
  pose proof (peer_inv_pop x rest p Hp Ep) as Hrest. destruct Hp as [H1 H2 H3 H4 H5 H6].
  destruct x as [|s| |k|]; simpl.
  - by apply peer_inv_start, Hrest.
  - by apply peer_inv_enqueue, Hrest.
  - by apply peer_inv_close, Hrest.
  - unfold OnConnect. proj_simp. destruct (decide (p_conn p <> Some k)) as [Hne|Hk].
    + apply peer_inv_at_conn, Hrest. intros k' Hk' [= ->]. done.
    + apply dec_stable in Hk. apply (peer_inv_OnConnectFailure _ (Some k)).
      split; proj_simp; try done. intros _. exists k. split; [done|by left].
  - destruct (decide _); [apply peer_inv_start|]; by apply Hrest.
Qed.

Lemma peer_inv_attempt tls i ec identity_ok p : peer_inv p -> peer_inv (attempt_done tls i ec identity_ok p).
Proof.
  intros Hp. unfold attempt_done. destruct (p_attempts p !! i) as [[k stage]|]; [|done].
  assert (peer_inv (p <| p_attempts ::= list_delete i |>)) as Hq by by eapply peer_inv_same.
  destruct stage.
  - destruct ec; [by apply peer_inv_OnConnect|by eapply peer_inv_same].
  - unfold OnTcpConnected. destruct (decide _); [by apply peer_inv_at_conn|]. destruct ec.
    + apply (peer_inv_OnConnectFailure _ (p_connect_timer p)). by eapply peer_inv_same.
    + destruct tls; [by eapply peer_inv_same|by apply peer_inv_OnConnect].
  - unfold handshake_done. destruct ec; [by apply peer_inv_OnConnect|].
    destruct identity_ok; [by apply peer_inv_OnConnect|]. by apply peer_inv_OnConnect, peer_inv_at_conn.
Qed.

Lemma peer_inv_post x p : peer_inv p -> peer_inv (post_peer x p).
Proof.
  intros [H1 H2 H3 H4 H5 H6]. unfold post_peer. split; proj_simp; try done.
  intros (k & Hk & [Ht|Ht])%H6; exists k; (split; [done|]); [by left|]. right. set_solver.
Qed.

Lemma peer_inv_step tls p e : peer_inv p -> peer_inv (peer_step tls p e).
Proof.
  intros Hp. destruct e as [|s| | |i ec ok| | |k e]; simpl; try by apply peer_inv_post.
  - by apply peer_inv_run.
  - by apply peer_inv_attempt.
  - destruct (p_connect_timer p) as [k|] eqn:Et; [|done].
    destruct Hp as [H1 H2 H3 H4 H5 H6]. unfold post_peer. split; proj_simp; try done.
    intros (k' & Hk & Ht)%H6. exists k'. split; [done|]. right. rewrite Et in Ht.
    destruct Ht as [[= ->]|Ht]; set_solver.
  - destruct (p_reconnect_timer p); [|done]. apply peer_inv_post. by eapply peer_inv_same.
  - destruct (conn_event e); [|done]. by apply peer_inv_at_conn.
Qed.

Lemma peer_inv_new : peer_inv Peer_new.
Proof. split; simpl; [done|auto|lia|done|done|done]. Qed.

Lemma peer_inv_reachable tls es : peer_inv (peer_run tls Peer_new es).
Proof.
  generalize peer_inv_new. unfold peer_run. generalize Peer_new.
  induction es as [|e es IH]; intros p Hp; [done|]. by apply IH, peer_inv_step.
Qed.

(** C27. However a peer is used and whatever its connections do: fewer than a thousand
    requests wait for a connection, none outside an attempt; the delay before the
    next attempt is between a tenth of a second and five; and a peer that is
    connected has the connection it will send on. *)
Theorem peer_bounded tls es :
  let p := peer_run tls Peer_new es in
  (length (p_pending p) < 1000)%nat /\
  100 <= p_delay p <= 5000 /\
  (p_state p <> kConnecting -> p_pending p = []) /\
  (p_state p = kConnected -> exists k c, p_conn p = Some k /\ p_conns p !! k = Some c).
Proof.
  destruct (peer_inv_reachable tls es) as [H1 H2 H3 H4 H5 H6]. do 3 (split; [done|]).
  intros [k Hk]%H5. destruct (lookup_lt_is_Some_2 _ _ (H4 _ Hk)) as [c Hc]. by exists k, c.
Qed.

(** ** Every request is answered *)

Definition send_request (s : PendingSend) : Z * nat := (ps_correlation_id s, ps_callback s).
Definition posted_sends (l : list PeerPost) : list (Z * nat) :=
  l ≫= fun x => match x with PPEnqueue s => [send_request s] | _ => [] end.
Definition peer_requests (es : list PeerEvent) : list (Z * nat) :=
  es ≫= fun e => match e with PEnqueueSend s => [send_request s] | _ => [] end.

Section calls.
(** The requests made of the peer, whose ids differ. *)
Context (rs : list (Z * nat)) (Hids : NoDup rs.*1).

(** Each request is in [hand], has been answered by the peer, waits in it or was
    handed to one of the connections, which account for theirs. *)
Definition calls_split (hand : list (Z * nat)) (p : Peer) : Prop :=
  exists answered rss,
    answered.*2 = (p_fired p).*1 /\
    Forall2 calls_inv rss (p_conns p) /\
    Forall timers_inv (p_conns p) /\
    rs ≡ₚ hand ++ answered ++ map send_request (p_pending p) ++ posted_sends (p_posted p) ++ concat rss.

Lemma calls_split_same hand p p' :
  calls_split hand p -> p_fired p' = p_fired p -> p_conns p' = p_conns p -> p_pending p' = p_pending p ->
  posted_sends (p_posted p') = posted_sends (p_posted p) -> calls_split hand p'.
Proof. intros (a & rss & H) E1 E2 E3 E4. exists a, rss. by rewrite E1, E2, E3, E4. Qed.

Lemma calls_split_hand hand hand' p : calls_split hand p -> hand ≡ₚ hand' -> calls_split hand' p.
Proof. intros (a & rss & H1 & H2 & H3 & H4) Hh. exists a, rss. by rewrite <- Hh. Qed.

Lemma concat_alter_app (rss : list (list (Z * nat))) k l :
  l = [] \/ (k < length rss)%nat -> concat (alter (fun r => r ++ l) k rss) ≡ₚ l ++ concat rss.
Proof.
  intros [->|Hk].
  - assert (alter (fun r => r ++ []) k rss = rss) as ->; [|done]. apply list_eq. intros i. destruct (decide (i = k)) as [->|Hne].
    + rewrite list_lookup_alter_eq. destruct (rss !! k); simpl; [by rewrite app_nil_r|done].
    + by rewrite list_lookup_alter_ne.
  - revert k Hk. induction rss as [|r rss IH]; intros k Hk; [simpl in Hk; lia|].
    destruct k as [|k]; simpl in Hk; [simpl; solve_Permutation|].
    change (r ++ concat (alter (fun r => r ++ l) k rss) ≡ₚ l ++ r ++ concat rss).
    rewrite IH by lia. solve_Permutation.
Qed.

(** A connection takes a step; a request it sends comes out of the hand. *)
Lemma calls_split_at_conn hand k e p :
  event_request e = [] \/ (k < length (p_conns p))%nat ->
  calls_split (event_request e ++ hand) p -> calls_split hand (at_conn k e p).
Proof.
  intros Hk (a & rss & Ha & Hc & Ht & Hrs).
  assert (length rss = length (p_conns p)) as Hl by by eapply Forall2_length.
  exists a, (alter (fun r => r ++ event_request e) k rss). unfold at_conn. proj_simp. split_and!; [done| | |].
  - apply Forall2_alter; [done|]. intros r c Hr Hck Hrc. apply calls_inv_step; [done|].
    apply list_elem_of_lookup_2, list_elem_of_split in Hr as (rs1 & rs2 & ->).
    rewrite Hrs, !concat_app in Hids. simpl in Hids.
    revert Hids. rewrite !fmap_app, !list.NoDup_app. set_solver.
  - apply Forall_alter; [done|]. intros c _ Hc'. by apply timers_inv_step.
  - rewrite concat_alter_app by by rewrite Hl. rewrite Hrs. solve_Permutation.
Qed.

Lemma calls_split_quiet k e p : event_request e = [] -> calls_split [] p -> calls_split [] (at_conn k e p).
Proof. intros He Hp. apply calls_split_at_conn; [by left|]. by rewrite He. Qed.

Lemma calls_split_close_current p : calls_split [] p -> calls_split [] (close_current p).
Proof. intros Hp. unfold close_current. destruct (p_conn p); [by apply calls_split_quiet|done]. Qed.

Lemma calls_split_sends ss hand k p :
  p_conn p = Some k -> (k < length (p_conns p))%nat ->
  calls_split (map send_request ss ++ hand) p -> calls_split hand (foldl (fun p s => send_on s p) p ss).
Proof.
  revert p. induction ss as [|s ss IH]; intros p Hk Hl Hp; [done|]. simpl. apply IH.
  - destruct (send_on_frame s p) as (l & -> & _). done.
  - destruct (send_on_frame s p) as (l & -> & Hl'). proj_simp. by rewrite Hl'.
  - unfold send_on. rewrite Hk. apply calls_split_at_conn; [by right|]. done.
Qed.

Lemma calls_split_take p : calls_split [] p -> calls_split (map send_request (p_pending p)) (p <| p_pending := [] |>).
Proof.
  intros (a & rss & H1 & H2 & H3 & H4). exists a, rss. proj_simp. split_and!; [done..|].
  rewrite H4. simpl. solve_Permutation.
Qed.

Lemma calls_split_flush k p :
  p_conn p = Some k -> (k < length (p_conns p))%nat -> calls_split [] p -> calls_split [] (FlushPendingSends p).
Proof.
  intros Hk Hl Hp. apply (calls_split_sends _ _ k); [done|done|]. rewrite app_nil_r. by apply calls_split_take.
Qed.

Lemma calls_split_drain msg p : calls_split [] p -> calls_split [] (DrainPendingSendsWithError msg p).
Proof.
  intros (a & rss & H1 & H2 & H3 & H4). exists (a ++ map send_request (p_pending p)), rss.
  unfold DrainPendingSendsWithError. proj_simp. split_and!; [|done..|].
  - rewrite !fmap_app, H1. f_equal. clear. induction (p_pending p) as [|s ss IH]; [done|]. exact (f_equal (cons (ps_callback s)) IH).
  - rewrite H4. simpl. solve_Permutation.
Qed.

Lemma calls_split_start hand p : calls_split hand p -> calls_split hand (StartConnecting p).
Proof.
  intros (a & rss & H1 & H2 & H3 & H4). unfold StartConnecting, note. destruct (decide _); [|by exists a, rss].
  exists a, (rss ++ [[]]). proj_simp. split_and!; [done| | |].
  - apply Forall2_app; [done|]. repeat constructor. simpl. intros id [? Hx]. by rewrite lookup_empty in Hx.
  - apply Forall_app. split; [done|]. repeat constructor; set_solver.
  - rewrite concat_app. simpl. by rewrite app_nil_r.
Qed.

Lemma calls_split_failure ec p : calls_split [] p -> calls_split [] (OnConnectFailure ec p).
Proof.
  intros Hp. unfold OnConnectFailure. destruct (decide _); [|done].
  eapply calls_split_same; [apply calls_split_drain, calls_split_close_current|done..].
  by eapply calls_split_same.
Qed.

Lemma calls_split_OnConnect ec k p :
  (forall k, p_conn p = Some k -> (k < length (p_conns p))%nat) ->
  calls_split [] p -> calls_split [] (OnConnect ec k p).
Proof.
  intros Hi Hp. unfold OnConnect. destruct (decide (p_conn p <> Some k)) as [|Hk]; [by apply calls_split_quiet|].
  apply dec_stable in Hk. destruct ec; [by apply calls_split_failure|]. proj_simp.
  destruct (decide (p_state p <> kConnecting)).
  - apply calls_split_close_current. by eapply calls_split_same.
  - apply (calls_split_flush k); unfold note; [done|unfold at_conn; proj_simp; rewrite length_alter; auto|].
    eapply calls_split_same; [apply (calls_split_quiet k CStart p)|..]; done.
Qed.

Lemma calls_split_enqueue s p : peer_inv p -> calls_split [send_request s] p -> calls_split [] (enqueue s p).
Proof.
  intros Hi Hp. unfold enqueue.
  assert (forall q, p_fired q = p_fired p -> p_conns q = p_conns p -> p_pending q = p_pending p ++ [s] ->
    p_posted q = p_posted p -> calls_split [] q) as Hpush.
  { destruct Hp as (a & rss & H1 & H2 & H3 & H4). intros q E1 E2 E3 E4. exists a, rss.
    rewrite E1, E2, E3, E4. split_and!; [done..|]. rewrite H4, map_app. simpl. solve_Permutation. }
  destruct (decide (p_state p = kConnected)) as [Es|].
  - destruct (negb _); [by apply calls_split_start, Hpush|].
    destruct (pi_connected _ Hi Es) as [k Hk]. unfold send_on. rewrite Hk.
    apply calls_split_at_conn; [right; by apply Hi|done].
  - cbv zeta. proj_simp. set (q := if decide (kMaxPendingSends <= _)%nat then _ else _).
    assert (calls_split [] q) as Hq.
    { unfold q. destruct (decide _); [|by apply Hpush]. clear q.
      destruct (p_pending p ++ [s]) as [|d rest] eqn:Eq; [by apply Hpush; proj_simp|].
      destruct (Hpush (p <| p_pending := d :: rest |>)) as (a & rss & H1 & H2 & H3 & H4); try done.
      exists (a ++ [send_request d]), rss. revert H1 H4. proj_simp. intros H1 H4.
      split_and!; [by rewrite !fmap_app, H1|done..|]. rewrite H4. simpl. solve_Permutation. }
    destruct (decide (p_state p = kFailed \/ p_state p = kDisconnected)); [by apply calls_split_start|done].
Qed.

Lemma calls_split_close p : calls_split [] p -> calls_split [] (close_peer p).
Proof.
  intros Hp. unfold close_peer. destruct (decide _); [done|]. cbv zeta.
  match goal with |- context [DrainPendingSendsWithError ?m ?q] =>
    assert (calls_split [] (DrainPendingSendsWithError m q)) as Hq end.
  { apply calls_split_drain. eapply calls_split_same; [apply calls_split_close_current|done..].
    by eapply calls_split_same. }
  destruct (bool_decide _); by eapply calls_split_same.
Qed.

Lemma calls_split_run p : peer_inv p -> calls_split [] p -> calls_split [] (run_peer p).
Proof.
  intros Hi Hp. unfold run_peer. destruct (p_posted p) as [|x rest] eqn:Ep; [done|].
  assert (posted_sends (x :: rest) = posted_sends rest -> calls_split [] (p <| p_posted := rest |>)) as Hrest.
  { intros Hx. eapply calls_split_same; [done..|]. proj_simp. by rewrite Ep. }
  destruct x as [|s| |k|]; simpl.
  - by apply calls_split_start, Hrest.
  - apply calls_split_enqueue; [by apply (peer_inv_pop (PPEnqueue s))|].
    destruct Hp as (a & rss & H1 & H2 & H3 & H4). exists a, rss. proj_simp. split_and!; [done..|].
    rewrite H4, Ep. simpl. solve_Permutation.
  - by apply calls_split_close, Hrest.
  - apply calls_split_OnConnect; [by apply Hi|by apply Hrest].
  - destruct (decide (p_state p = kFailed)); [apply calls_split_start|]; by apply Hrest.
Qed.

Lemma calls_split_attempt tls i ec ok p :
  peer_inv p -> calls_split [] p -> calls_split [] (attempt_done tls i ec ok p).
Proof.
  intros Hi Hp. unfold attempt_done. destruct (p_attempts p !! i) as [[k stage]|]; [|done]. cbv zeta.
  set (q := p <| p_attempts ::= list_delete i |>).
  assert (calls_split [] q) as Hq by by eapply calls_split_same.
  assert (forall k, p_conn q = Some k -> (k < length (p_conns q))%nat) as Hl by apply Hi.
  clearbody q. destruct stage.
  - destruct ec; [by apply calls_split_OnConnect|by eapply calls_split_same].
  - unfold OnTcpConnected. destruct (decide _); [by apply calls_split_quiet|].
    destruct ec; [by apply calls_split_failure|].
    destruct tls; [by eapply calls_split_same|by apply calls_split_OnConnect].
  - unfold handshake_done. destruct ec; [by apply calls_split_OnConnect|].
    destruct ok; [by apply calls_split_OnConnect|]. apply calls_split_OnConnect; [|by apply calls_split_quiet].
    unfold at_conn. proj_simp. by rewrite length_alter.
Qed.
End calls.

Lemma posted_sends_app l k : posted_sends (l ++ k) = posted_sends l ++ posted_sends k.
Proof. apply bind_app. Qed.

Lemma calls_split_post rs x p :
  calls_split rs [] p -> calls_split (rs ++ posted_sends [x]) [] (post_peer x p).
Proof.
  intros (a & rss & H1 & H2 & H3 & H4). exists a, rss. unfold post_peer. proj_simp.
  split_and!; [done..|]. rewrite posted_sends_app, H4. solve_Permutation.
Qed.

Lemma calls_split_step tls rs p e :
  NoDup rs.*1 -> peer_inv p -> calls_split rs [] p ->
  calls_split (rs ++ peer_requests [e]) [] (peer_step tls p e).
Proof.
  intros Hnd Hi Hp. destruct e as [|s| | |i ec ok| | |k e]; simpl; rewrite ?app_nil_r;
    try exact (calls_split_post rs _ p Hp).
  - apply (calls_split_post rs PPStart p) in Hp. by rewrite app_nil_r in Hp.
  - apply (calls_split_post rs PPClose p) in Hp. by rewrite app_nil_r in Hp.
  - by apply calls_split_run.
  - by apply calls_split_attempt.
  - destruct (p_connect_timer p) as [k|]; [|done].
    rewrite <- (app_nil_r rs). apply (calls_split_post rs (PPConnectTimeout k)). by eapply calls_split_same.
  - destruct (p_reconnect_timer p); [|done].
    rewrite <- (app_nil_r rs). apply (calls_split_post rs PPReconnect). by eapply calls_split_same.
  - destruct (conn_event e) eqn:Ee; [|done]. apply calls_split_quiet; [done|by destruct e|done].
Qed.

Lemma peer_run_calls tls es rs p :
  NoDup (rs ++ peer_requests es).*1 -> peer_inv p -> calls_split rs [] p ->
  peer_inv (peer_run tls p es) /\ calls_split (rs ++ peer_requests es) [] (peer_run tls p es).
Proof.
  revert rs p. induction es as [|e es IH]; intros rs p Hnd Hi Hp; [by rewrite app_nil_r|].
  assert (peer_requests (e :: es) = peer_requests [e] ++ peer_requests es) as Hes
    by (unfold peer_requests; by rewrite <- bind_app).
  rewrite Hes, app_assoc in Hnd |- *. apply IH; [done|by apply peer_inv_step|].
  apply calls_split_step; [|done|done].
  rewrite !fmap_app, <- app_assoc in Hnd. by apply list.NoDup_app in Hnd as [? _].
Qed.

(** The callbacks that were called, by the peer or its connections, and those
    that still wait. *)
Definition peer_called (p : Peer) : list nat := (p_fired p).*1 ++ concat (map called (p_conns p)).
Definition peer_waiting (p : Peer) : list nat :=
  map ps_callback (p_pending p) ++ (posted_sends (p_posted p)).*2 ++ concat (map waiting_callbacks (p_conns p)).

Lemma calls_split_counts rs p :
  calls_split rs [] p -> peer_called p ++ peer_waiting p ≡ₚ rs.*2.
Proof.
  intros (a & rss & H1 & H2 & _ & ->). unfold peer_called, peer_waiting. simpl. rewrite !fmap_app, <- H1.
  assert ((concat rss).*2 ≡ₚ concat (map called (p_conns p)) ++ concat (map waiting_callbacks (p_conns p))) as ->.
  { clear H1. induction H2 as [|r c rss cs [Hc _] _ IH]; [done|]. simpl. rewrite fmap_app, IH, <- Hc. solve_Permutation. }
  assert ((map send_request (p_pending p)).*2 = map ps_callback (p_pending p)) as ->
    by (by unfold fmap; rewrite <- list_fmap_compose).
  solve_Permutation.
Qed.

(** ** Letting a peer run *)

Fixpoint settle_conns (k : nat) (l : list Conn) : list PeerEvent :=
  match l with
  | [] => []
  | c :: l => map (PConn k) (settle c) ++ settle_conns (S k) l
  end.

(** The posted handlers run; the connect timer, if it is armed, expires and its
    handler runs; then each connection is let run. *)
Definition peer_settle (tls : bool) (p : Peer) : list PeerEvent :=
  let es := replicate (length (p_posted p)) PRun ++ [PConnectExpires; PRun] in
  es ++ settle_conns 0 (p_conns (peer_run tls p es)).

Lemma close_current_posted p : p_posted (close_current p) = p_posted p.
Proof. by destruct (close_current_frame p) as (l & -> & _). Qed.

Lemma StartConnecting_posted p : p_posted (StartConnecting p) = p_posted p.
Proof. unfold StartConnecting. by destruct (decide _). Qed.

Lemma OnConnect_posted ec k p : p_posted (OnConnect ec k p) = p_posted p.
Proof.
  unfold OnConnect, OnConnectFailure. destruct (decide (p_conn p <> Some k)); [done|]. destruct ec.
  - destruct (decide (p_state p = kConnecting)); [|done].
    unfold StartBackoffReconnect, DrainPendingSendsWithError. proj_simp. by rewrite close_current_posted.
  - destruct (decide _); [by rewrite close_current_posted|].
    match goal with |- context [FlushPendingSends ?q] => destruct (FlushPendingSends_frame q) as (l & -> & _) end.
    done.
Qed.

Lemma enqueue_posted s p : p_posted (enqueue s p) = p_posted p.
Proof.
  unfold enqueue. destruct (decide (p_state p = kConnected)).
  - destruct (negb _); [by rewrite StartConnecting_posted|]. by destruct (send_on_frame s p) as (l & -> & _).
  - destruct (decide (_ \/ _)); rewrite ?StartConnecting_posted; proj_simp;
      (destruct (decide _); [destruct (p_pending p ++ [s])|]; done).
Qed.

Lemma close_peer_posted p : p_posted (close_peer p) = p_posted p.
Proof.
  unfold close_peer. destruct (decide (p_state p = kDisconnected)); [done|].
  unfold DrainPendingSendsWithError, note. destruct (bool_decide _); proj_simp; by rewrite close_current_posted.
Qed.

Lemma run_peer_posted p : p_posted (run_peer p) = tail (p_posted p).
Proof.
  unfold run_peer. destruct (p_posted p) as [|x rest] eqn:Ep; [by rewrite Ep|].
  destruct x; simpl; rewrite ?StartConnecting_posted, ?enqueue_posted, ?close_peer_posted, ?OnConnect_posted; try done.
  destruct (decide _); [by rewrite StartConnecting_posted|done].
Qed.

Lemma run_peers_posted tls n p :
  (length (p_posted p) <= n)%nat -> p_posted (peer_run tls p (replicate n PRun)) = [].
Proof.
  revert p. induction n as [|n IH]; intros p Hn; simpl; [destruct (p_posted p); [done|simpl in Hn; lia]|].
  apply IH. simpl. rewrite run_peer_posted. destruct (p_posted p); simpl in *; lia.
Qed.

Lemma settle_conn_events c : forallb conn_event (settle c) = true.
Proof.
  assert (forall n, forallb conn_event (replicate n CRun) = true) as Hr by by induction n.
  assert (forall l : list (nat * Z), forallb conn_event (map (fun t => CExpire t.1) l) = true) as He by by induction l.
  unfold settle, run_all, expire_all. by rewrite !forallb_app, !Hr, He.
Qed.

Lemma list_alter_compose {A} (f g : A -> A) i (l : list A) : alter f i (alter g i l) = alter (fun x => f (g x)) i l.
Proof. revert i. induction l as [|x l IH]; intros [|i]; [done..|]. exact (f_equal (cons x) (IH i)). Qed.

Lemma settle_conn tls k es p :
  forallb conn_event es = true ->
  peer_run tls p (map (PConn k) es) = p <| p_conns ::= alter (fun c => conn_run c es) k |>.
Proof.
  revert p. induction es as [|e es IH]; intros p Hes; simpl.
  - destruct p as [? ? cs ? ? ? ? ? ? ? ?]. unfold set. simpl. f_equal.
    symmetry. apply list_alter_id. done.
  - simpl in Hes. apply andb_true_iff in Hes as [He Hes]. rewrite He. fold (peer_run tls (at_conn k e p) (map (PConn k) es)).
    rewrite IH by done. unfold at_conn. destruct p. unfold set. simpl. f_equal. by rewrite list_alter_compose.
Qed.

Lemma settle_all_conns tls p front l :
  p_conns p = front ++ l ->
  peer_run tls p (settle_conns (length front) l) =
    p <| p_conns := front ++ map (fun c => conn_run c (settle c)) l |>.
Proof.
  revert p front. induction l as [|c l IH]; intros p front Hp; simpl.
  - rewrite <- Hp. by destruct p.
  - unfold peer_run at 1. rewrite foldl_app. fold (peer_run tls p (map (PConn (length front)) (settle c))).
    rewrite settle_conn by apply settle_conn_events.
    assert (p <| p_conns ::= alter (fun c0 => conn_run c0 (settle c)) (length front) |> =
      p <| p_conns := (front ++ [conn_run c (settle c)]) ++ l |>) as ->.
    { destruct p. unfold set. simpl in *. f_equal. rewrite Hp, alter_app_r_alt, Nat.sub_diag by lia.
      by rewrite <- app_assoc. }
    specialize (IH (p <| p_conns := (front ++ [conn_run c (settle c)]) ++ l |>) (front ++ [conn_run c (settle c)]) eq_refl).
    rewrite length_app, Nat.add_1_r, <- (app_assoc front _ (map _ l)) in IH.
    exact IH.
Qed.

Lemma OnConnect_error_state err k p :
  p_state (OnConnect (Some err) k p) =
    if decide (p_conn p = Some k /\ p_state p = kConnecting) then kFailed else p_state p.
Proof.
  unfold OnConnect, OnConnectFailure. destruct (decide (p_conn p <> Some k)) as [Hk|Hk].
  - rewrite decide_False by tauto. done.
  - apply dec_stable in Hk. destruct (decide (p_state p = kConnecting)) as [Hs|Hs];
      [rewrite decide_True by done|rewrite decide_False by tauto; done].
    unfold StartBackoffReconnect, DrainPendingSendsWithError. proj_simp.
    match goal with |- context [close_current ?q] => destruct (close_current_frame q) as (l & -> & _) end. done.
Qed.

(** Without posted handlers, the connect timer ends an attempt. *)
Lemma attempt_ends tls p :
  peer_inv p -> p_posted p = [] ->
  let p' := peer_run tls p [PConnectExpires; PRun] in
  p_state p' <> kConnecting /\ p_posted p' = [].
Proof.
  intros Hi Hp. simpl. pose proof (pi_timer _ Hi) as Ht. destruct (p_connect_timer p) as [k|] eqn:Et.
  - unfold run_peer, post_peer. proj_simp. rewrite Hp. simpl. rewrite OnConnect_posted, OnConnect_error_state.
    proj_simp. split; [|done]. destruct (decide _) as [|Hn]; [done|]. intros Hs.
    destruct (Ht Hs) as (k' & Hk & [[= ->]|Hin]); [tauto|]. rewrite Hp in Hin. set_solver.
  - unfold run_peer. rewrite Hp. split; [|done]. intros Hs. destruct (Ht Hs) as (k & _ & [?|Hin]); [done|].
    rewrite Hp in Hin. set_solver.
Qed.

Lemma peer_run_app tls p es es' : peer_run tls p (es ++ es') = peer_run tls (peer_run tls p es) es'.
Proof. apply foldl_app. Qed.

Lemma settle_conns_requests k l : peer_requests (settle_conns k l) = [].
Proof.
  revert k. induction l as [|c l IH]; intros k; [done|]. unfold peer_requests in *. simpl. rewrite bind_app, IH.
  rewrite app_nil_r. by induction (settle c).
Qed.

Lemma peer_settle_requests tls p : peer_requests (peer_settle tls p) = [].
Proof.
  assert (forall n, peer_requests (replicate n PRun) = []) as Hr by by induction n.
  pose proof settle_conns_requests as Hs. unfold peer_settle, peer_requests in *. by rewrite !bind_app, Hr, Hs.
Qed.

Lemma peer_settle_waiting tls rs p :
  NoDup rs.*1 -> peer_inv p -> calls_split rs [] p -> peer_waiting (peer_run tls p (peer_settle tls p)) = [].
Proof.
  intros Hnd Hi Hc. unfold peer_settle. rewrite peer_run_app. set (es := replicate _ _ ++ _).
  assert (peer_requests es = []) as Hes.
  { unfold es, peer_requests. rewrite bind_app. by induction (length (p_posted p)). }
  destruct (peer_run_calls tls es rs p) as [Hi2 (a & rss & _ & _ & Ht & _)]; [by rewrite Hes, app_nil_r|done|done|].
  assert (p_state (peer_run tls p es) <> kConnecting /\ p_posted (peer_run tls p es) = []) as [Hs Hp].
  { unfold es. rewrite peer_run_app. apply attempt_ends; [|by apply run_peers_posted].
    generalize (length (p_posted p)). intros n. clear -Hi. revert p Hi.
    induction n as [|n IH]; intros p Hi; [done|]. by apply IH, peer_inv_run. }
  rewrite (settle_all_conns tls _ [] (p_conns (peer_run tls p es))) by done.
  unfold peer_waiting. proj_simp. rewrite (pi_waiting _ Hi2 Hs), Hp. simpl.
  clear -Ht. induction Ht as [|c cs Hc _ IH]; [done|]. simpl. rewrite IH, app_nil_r.
  unfold waiting_callbacks. by rewrite settle_empties, map_to_list_empty.
Qed.

(** Requests with different ids get one answer each.  Whatever the peer and its
    connections go through (attempts that fail or time out, dropped connections,
    a full queue, responses, closing), each callback has been called once or
    still waits; and once the handlers have run and the timers have expired, each
    has been called once. *)
Theorem every_rpc_answered_once tls es :
  NoDup (peer_requests es).*1 ->
  let p := peer_run tls Peer_new es in
  peer_called p ++ peer_waiting p ≡ₚ (peer_requests es).*2 /\
  peer_called (peer_run tls p (peer_settle tls p)) ≡ₚ (peer_requests es).*2.
Proof.
  intros Hnd p. destruct (peer_run_calls tls es [] Peer_new) as [Hi Hc];
    [done|apply peer_inv_new|by exists [], []|]. fold p in Hi, Hc. simpl in Hc.
  split; [by apply calls_split_counts|].
  destruct (peer_run_calls tls (peer_settle tls p) (peer_requests es) p) as [_ Hc'];
    [by rewrite peer_settle_requests, app_nil_r|done|done|].
  rewrite peer_settle_requests, app_nil_r in Hc'. apply calls_split_counts in Hc'.
  by rewrite (peer_settle_waiting tls (peer_requests es)), app_nil_r in Hc'.
Qed.

Lemma every_rpc_answered_once_witness :
  let es := [PEnqueueSend (mkPendingSend "vote" 1 7); PRun; PEnqueueSend (mkPendingSend "append" 2 8); PRun;
             PAttempt 0 None true; PAttempt 0 None true; PEnqueueSend (mkPendingSend "read" 3 9); PRun;
             PConn 0 CReadError; PEnqueueSend (mkPendingSend "late" 4 10); PRun; PAttempt 0 None true] in
  let p := peer_run false Peer_new es in
  peer_called p ++ peer_waiting p ≡ₚ (peer_requests es).*2 /\
  peer_called (peer_run false p (peer_settle false p)) ≡ₚ (peer_requests es).*2.
Proof.
  apply (every_rpc_answered_once false). apply (bool_decide_unpack (NoDup [1; 2; 3; 4])). reflexivity.
Defined.

(** ** What is reported *)

(** The transport hears of a connection that is made, but not of the state it
    puts the peer in: the last state it heard of is [kConnecting]. *)
Lemma connected_state_not_reported :
  let p := peer_run false Peer_new [PStart; PRun; PAttempt 0 None true; PAttempt 0 None true] in
  p_state p = kConnected /\ p_notes p = [NState kConnecting; NConnection true].
Proof. split; vm_compute; reflexivity. Qed.

(** A connection that drops is noticed by the next request, which connects again;
    that it was lost is not reported. *)
Lemma lost_connection_not_reported :
  let p := peer_run false Peer_new
    [PStart; PRun; PAttempt 0 None true; PAttempt 0 None true; PConn 0 CReadError;
     PEnqueueSend (mkPendingSend "append" 1 7); PRun; PAttempt 0 None true; PAttempt 0 None true] in
  p_notes p = [NState kConnecting; NConnection true; NState kConnecting; NConnection true].
Proof. vm_compute. reflexivity. Qed.
