(* ===== verification/Config.v ===== *)
(** * Configuration: [RaftNodeConfig::Validate] of [src/raft_node.cpp]

    The rules a configuration must satisfy before a node is made of it, and the
    addresses in it: what [ValidateAddr] accepts, and what the transport of
    [src/asio_network_transport.cpp] reads out of an address. *)

From Stdlib Require Import Ascii.
From S2P Require Import Prelude Types RaftLog Quorum RaftGroup Timers Replicate Membership Text Bytes DenseIndex Disk Wal Json Identity.

(** ** Addresses *)

(** The digits at the front of a text, and what is behind them. *)
Fixpoint take_digits (acc : Z) (seen : bool) (s : string) : option (Z * string) :=
  match s with
  | String a s' =>
      match digit_of a with
      | Some d => take_digits (acc * 10 + d) true s'
      | None => if seen then Some (acc, s) else None
      end
  | EmptyString => if seen then Some (acc, s) else None
  end.

(** [std::stoi(s, &idx)]: the number and the text from [idx] on; [None] is one of
    its two exceptions. *)
Definition stoi (s : string) : option (Z * string) :=
  '(v, rest) ← match skip_space s with
               | String "-"%char s' => '(v, rest) ← take_digits 0 false s'; Some (- v, rest)
               | String "+"%char s' => take_digits 0 false s'
               | s' => take_digits 0 false s'
               end;
  if decide (-2147483648 <= v <= 2147483647) then Some (v, rest) else None.

Definition config_invalid (msg : string) : Status := Error2 "CONFIG_INVALID" msg.

Definition ValidateAddr (addr field_name : string) : Status :=
  if decide (addr = "") then config_invalid (field_name +:+ " cannot be empty")
  else
    let bad_format := config_invalid (field_name +:+ " must be in host:port format: " +:+ addr) in
    match rfind_colon addr with
    | None => bad_format
    | Some port_str =>
        if decide (String.length addr = S (String.length port_str) \/ port_str = "") then bad_format
        else
          let bad_port := config_invalid (field_name +:+ " has invalid port: " +:+ port_str) in
          match stoi port_str with
          | None => bad_port
          | Some (port, rest) =>
              if decide (rest <> "" \/ port <= 0 \/ port > 65535) then bad_port else StOK
          end
    end.

Definition u16 (n : Z) : Z := n mod 2 ^ 16.

(** How the transport reads the address it listens on: [inl] is the error it
    returns. *)
Definition listen_endpoint (listen_addr : string) : Status + string * Z :=
  match split_colon 0 listen_addr with
  | None => inl (Error1 ("Invalid address format: " +:+ listen_addr))
  | Some (host, rest) =>
      match stoi rest with
      | None => inl (Error1 ("Invalid port in address: " +:+ listen_addr))
      | Some (port, _) => inr (host, u16 port)
      end
  end.

(** How a peer's address is read; [None] is an exception of [std::stoi]. *)
Definition peer_endpoint (addr : string) : option (string * Z) :=
  match split_colon 0 addr with
  | None => Some ("", 0)
  | Some (host, rest) => '(port, _) ← stoi rest; Some (host, u16 port)
  end.

(** ** Configurations *)

(** The fields of [RaftNodeConfig] that [Validate] reads. *)
Record NodeSettings := mkNodeSettings {
  nc_node_id : NodeId;
  nc_listen_addr : string;
  nc_peers : list string;
  nc_peer_node_ids : list NodeId;
  nc_data_dir : string;
  nc_election_timeout_ms : Z;
  nc_heartbeat_interval_ms : Z;
  nc_max_entries_per_append : Z;
  nc_rpc_timeout_ms : Z;
  nc_shutdown_timeout_ms : Z;
  nc_metrics_enabled : bool;
  nc_metrics_addr : string;
  nc_tls_enabled : bool;
  nc_tls_cert_file : string;
  nc_tls_key_file : string;
  nc_tls_ca_file : string;
  nc_tls_mutual_auth : bool;
  nc_client_auth_enabled : bool;
  nc_client_ca_file : string;
  nc_client_authorizations : list ClientAuthorizationRule;
  nc_auto_remove_dead_nodes : bool;
  nc_dead_node_timeout_ms : Z;
  nc_compression_type : Z
}.

(** [if (bad) return error; rest] *)
Definition refuse (bad : bool) (error rest : Status) : Status := if bad then error else rest.
Notation "'reject' b 'with' e ; r" := (refuse b e r) (at level 100, b at level 99, e at level 99, r at level 200,
  right associativity, only parsing).

(** [status = check; if (!status.ok()) return status; rest] *)
Definition and_then (check rest : Status) : Status :=
  match check with StOK => rest | _ => check end.

Definition tls_check (c : NodeSettings) : Status :=
  if nc_tls_enabled c then
    reject (bool_decide (nc_tls_cert_file c = "")) with config_invalid "tls_cert_file cannot be empty when tls_enabled=true";
    reject (bool_decide (nc_tls_key_file c = "")) with config_invalid "tls_key_file cannot be empty when tls_enabled=true";
    reject (nc_tls_mutual_auth c && bool_decide (nc_tls_ca_file c = ""))
      with config_invalid "tls_ca_file cannot be empty when tls_mutual_auth=true";
    StOK
  else
    reject (nc_tls_mutual_auth c) with config_invalid "tls_mutual_auth requires tls_enabled=true";
    StOK.

Definition ValidateNodeConfig (c : NodeSettings) : Status :=
  let election := nc_election_timeout_ms c in
  let heartbeat := nc_heartbeat_interval_ms c in
  let ids := Z.of_nat (length (nc_peer_node_ids c)) in
  let peers := Z.of_nat (length (nc_peers c)) in
  reject (bool_decide (nc_node_id c < 0)) with config_invalid "node_id must be non-negative";
  and_then (ValidateAddr (nc_listen_addr c) "listen_addr") (
  reject (bool_decide (nc_data_dir c = "")) with config_invalid "data_dir cannot be empty";
  reject (bool_decide (election = 0)) with config_invalid "election_timeout_ms must be > 0";
  reject (bool_decide (heartbeat = 0)) with config_invalid "heartbeat_interval_ms must be > 0";
  reject (bool_decide (election <= heartbeat))
    with config_invalid ("election_timeout_ms (" +:+ pretty election +:+ ") must be > heartbeat_interval_ms (" +:+
      pretty heartbeat +:+ ")");
  reject (bool_decide (ids <> 0) && bool_decide (ids <> peers))
    with config_invalid ("peer_node_ids.size() (" +:+ pretty ids +:+ ") must match peers.size() (" +:+
      pretty peers +:+ ")");
  and_then (if nc_metrics_enabled c && bool_decide (nc_metrics_addr c <> "")
            then ValidateAddr (nc_metrics_addr c) "metrics_addr" else StOK) (
  and_then (tls_check c) (
  and_then (ValidateClientAuthConfig (nc_client_auth_enabled c) (nc_tls_enabled c) (nc_tls_mutual_auth c)
              (nc_client_ca_file c) (nc_client_authorizations c)) (
  reject (bool_decide (nc_rpc_timeout_ms c = 0)) with config_invalid "rpc_timeout_ms must be > 0";
  reject (bool_decide (nc_max_entries_per_append c = 0)) with config_invalid "max_entries_per_append must be > 0";
  reject (bool_decide (nc_shutdown_timeout_ms c > 0) && bool_decide (nc_shutdown_timeout_ms c < 100))
    with config_invalid "shutdown_timeout_ms must be 0 or >= 100";
  reject (nc_auto_remove_dead_nodes c && bool_decide (nc_dead_node_timeout_ms c = 0))
    with config_invalid "dead_node_timeout_ms must be > 0 when auto_remove_dead_nodes is enabled";
  reject (bool_decide (nc_compression_type c > 1))
    with config_invalid ("compression_type must be 0 (none) or 1 (snappy), got " +:+ pretty (nc_compression_type c));
  StOK)))).

(** ** What is accepted *)

(** A host, a colon and a port; the port is the text behind the last colon. *)
Definition valid_addr (addr : string) : Prop :=
  exists host port_str port,
    addr = host +:+ ":" +:+ port_str /\ host <> "" /\ String.index 0 ":" port_str = None /\
    stoi port_str = Some (port, "") /\ 0 < port <= 65535.

Lemma colon_prefix a s : String.prefix ":" (String a s) = bool_decide (a = ":"%char).
Proof.
  rewrite (prefix_colon a s ""). cbn [String.prefix]. destruct (ascii_dec ":" a) as [<-|Hne]; [done|].
  symmetry. apply bool_decide_eq_false. congruence.
Qed.

Lemma rfind_colon_none s : rfind_colon s = None <-> String.index 0 ":" s = None.
Proof.
  induction s as [|a s IH]; [done|]. rewrite index_cons, colon_prefix. simpl.
  destruct (rfind_colon s) as [r|].
  - split; [done|]. destruct (bool_decide _); [done|]. destruct (String.index 0 ":" s); [done|].
    intros _. by apply IH.
  - rewrite (proj1 IH eq_refl). destruct (decide (a = ":"%char)) as [e|e];
      [rewrite bool_decide_true by done|rewrite bool_decide_false by done]; by split.
Qed.

Lemma rfind_colon_some s r :
  rfind_colon s = Some r <-> exists h, s = h +:+ ":" +:+ r /\ String.index 0 ":" r = None.
Proof.
  revert r. induction s as [|a s IH]; intros r; simpl.
  - split; [done|]. by intros ([|] & [=] & _).
  - split.
    + destruct (rfind_colon s) as [r'|] eqn:E.
      * intros [= ->]. destruct (proj1 (IH r) eq_refl) as (h & -> & Hr). by exists (String a h).
      * destruct (decide (a = ":"%char)) as [->|]; [|done]. intros [= ->]. exists "". split; [done|].
        by apply rfind_colon_none.
    + intros (h & Hs & Hr). destruct h as [|b h].
      * change ("" +:+ ":" +:+ r) with (String ":" r) in Hs. injection Hs as -> ->. rewrite (proj2 (rfind_colon_none r) Hr). done.
      * rewrite str_app_cons in Hs. injection Hs as -> ->. by rewrite (proj2 (IH r)) by eauto.
Qed.

Lemma last_colon_unique h r h' r' :
  h +:+ ":" +:+ r = h' +:+ ":" +:+ r' -> String.index 0 ":" r = None -> String.index 0 ":" r' = None ->
  h = h' /\ r = r'.
Proof.
  intros Heq Hr Hr'. assert (r = r') as <-.
  { assert (rfind_colon (h +:+ ":" +:+ r) = Some r) by (apply rfind_colon_some; by exists h).
    assert (rfind_colon (h +:+ ":" +:+ r) = Some r') by (apply rfind_colon_some; by exists h'). congruence. }
  split; [|done]. revert h' Heq. clear. induction h as [|a h IH]; intros [|b h'] Heq; [done|..].
  - exfalso. apply (f_equal String.length) in Heq. rewrite !length_str_app in Heq. simpl in Heq. lia.
  - exfalso. apply (f_equal String.length) in Heq. rewrite !length_str_app in Heq. simpl in Heq. lia.
  - rewrite !str_app_cons in Heq. injection Heq as -> Heq. f_equal. by apply IH.
Qed.

Lemma ValidateAddr_ok addr field : ValidateAddr addr field = StOK <-> valid_addr addr.
Proof.
  unfold ValidateAddr, valid_addr. destruct (decide (addr = "")) as [->|Hne].
  { split; [done|]. intros ([|? ?] & p & v & H & Hh & _); [done|discriminate H]. }
  destruct (rfind_colon addr) as [port_str|] eqn:E.
  - apply rfind_colon_some in E as (h & -> & Hr).
    rewrite length_str_app. change (String.length (":" +:+ port_str)) with (S (String.length port_str)).
    destruct (decide _) as [Hd|Hd].
    + split; [done|]. intros (host & ps & port & Heq & Hh & Hi & Hs & Hp). destruct (last_colon_unique _ _ _ _ Heq Hr Hi) as [<- <-].
      destruct Hd as [Hd| ->]; [|by vm_compute in Hs]. destruct h; [done|]. simpl in Hd. lia.
    + destruct (stoi port_str) as [[port rest]|] eqn:Es.
      * destruct (decide (rest <> "" \/ _)) as [Hb|Hb].
        -- split; [done|]. intros (host & ps & p & Heq & Hh & Hi & Hs & Hp). destruct (last_colon_unique _ _ _ _ Heq Hr Hi) as [<- <-].
           rewrite Es in Hs. injection Hs as -> ->. exfalso. destruct Hb as [?|[?|?]]; [done|lia|lia].
        -- split; [|done]. intros _. exists h, port_str, port. split_and!; try done; try lia.
           ++ intros ->. apply Hd. left. simpl. lia.
           ++ rewrite Es. repeat f_equal. destruct (decide (rest = "")); [done|tauto].
      * split; [done|]. intros (host & ps & p & Heq & Hh & Hi & Hs & Hp). destruct (last_colon_unique _ _ _ _ Heq Hr Hi) as [<- <-]. congruence.
  - split; [done|]. intros (h & ps & p & -> & _ & Hi & _). exfalso.
    assert (rfind_colon (h +:+ ":" +:+ ps) = Some ps) by (apply rfind_colon_some; by exists h). congruence.
Qed.

(** The transport reads the same host and port out of an address that was
    accepted, unless the host has a colon of its own. *)
Lemma listen_endpoint_valid host port_str port :
  String.index 0 ":" host = None -> stoi port_str = Some (port, "") -> 0 < port <= 65535 ->
  listen_endpoint (host +:+ ":" +:+ port_str) = inr (host, port).
Proof.
  intros Hh Hs Hp. pose proof (split_colon_app "" host port_str Hh) as Hc.
  change (split_colon 0 (host +:+ ":" +:+ port_str) = Some (host, port_str)) in Hc.
  unfold listen_endpoint. rewrite Hc, Hs.
  unfold u16. rewrite Z.mod_small by lia. done.
Qed.

Lemma refuse_ok b msg r : refuse b (config_invalid msg) r = StOK <-> b = false /\ r = StOK.
Proof. unfold refuse. destruct b; naive_solver. Qed.
Lemma and_then_ok s r : and_then s r = StOK <-> s = StOK /\ r = StOK.
Proof. destruct s; naive_solver. Qed.

Lemma tls_check_ok c :
  tls_check c = StOK <->
    (nc_tls_enabled c = true -> nc_tls_cert_file c <> "" /\ nc_tls_key_file c <> "") /\
    (nc_tls_mutual_auth c = true -> nc_tls_enabled c = true /\ nc_tls_ca_file c <> "").
Proof.
  unfold tls_check. destruct (nc_tls_enabled c), (nc_tls_mutual_auth c);
    rewrite !refuse_ok, ?andb_true_l, ?andb_false_l, ?bool_decide_eq_false; naive_solver.
Qed.

Lemma ValidateClientAuthConfig_ok a t m ca rules :
  ValidateClientAuthConfig a t m ca rules = StOK <->
    (a = true -> t = true /\ m = true /\ ca <> "" /\ rules <> [] /\ unique_identities ∅ rules = true).
Proof.
  unfold ValidateClientAuthConfig. destruct a; [|naive_solver]. destruct t, m; simpl; try naive_solver.
  destruct (bool_decide (ca = "")) eqn:E1; [apply bool_decide_eq_true in E1; naive_solver|].
  destruct (bool_decide (rules = [])) eqn:E2; [apply bool_decide_eq_true in E2; naive_solver|].
  apply bool_decide_eq_false in E1, E2. simpl. destruct (unique_identities ∅ rules); naive_solver.
Qed.

Lemma metrics_addr_ok (b : bool) addr field :
  (if b && bool_decide (addr <> "") then ValidateAddr addr field else StOK) = StOK <->
    (b = true -> addr <> "" -> valid_addr addr).
Proof.
  destruct b; simpl; [|naive_solver]. destruct (bool_decide (addr <> "")) eqn:E.
  - apply bool_decide_eq_true in E. rewrite ValidateAddr_ok. naive_solver.
  - apply bool_decide_eq_false in E. naive_solver.
Qed.

Lemma peer_ids_ok (ids : list NodeId) (peers : list string) :
  bool_decide (Z.of_nat (length ids) <> 0) && bool_decide (Z.of_nat (length ids) <> Z.of_nat (length peers)) = false <->
    ids = [] \/ length ids = length peers.
Proof. rewrite andb_false_iff, !bool_decide_eq_false. destruct ids; simpl; [naive_solver|]. split; [intros [?|?]; right; lia|intros [?|?]; [done|right; lia]]. Qed.

Lemma shutdown_ok x : bool_decide (x > 0) && bool_decide (x < 100) = false <-> ~ (0 < x < 100).
Proof. rewrite andb_false_iff, !bool_decide_eq_false. lia. Qed.
Lemma dead_ok (b : bool) x : b && bool_decide (x = 0) = false <-> (b = true -> x <> 0).
Proof. rewrite andb_false_iff, bool_decide_eq_false. destruct b; naive_solver. Qed.
Lemma not_below x : bool_decide (x < 0) = false <-> 0 <= x.
Proof. rewrite bool_decide_eq_false. lia. Qed.
Lemma not_above x y : bool_decide (x <= y) = false <-> y < x.
Proof. rewrite bool_decide_eq_false. lia. Qed.
Lemma not_most x : bool_decide (x > 1) = false <-> x <= 1.
Proof. rewrite bool_decide_eq_false. lia. Qed.

(** Accepted, or refused as an invalid configuration. *)
Definition answers (s : Status) : Prop := s = StOK \/ exists msg, s = config_invalid msg.

Lemma answers_refuse b msg r : answers r -> answers (refuse b (config_invalid msg) r).
Proof. intros Hr. destruct b; [right; by exists msg|done]. Qed.
Lemma answers_and_then s r : answers s -> answers r -> answers (and_then s r).
Proof. by intros [-> | [msg ->]]; [|right; exists msg]. Qed.
Lemma answers_ok : answers StOK.
Proof. by left. Qed.
Lemma answers_ValidateAddr addr field : answers (ValidateAddr addr field).
Proof.
  unfold ValidateAddr, answers. destruct (decide (addr = "")); [eauto|].
  destruct (rfind_colon addr) as [ps|]; [|eauto]. destruct (decide _); [eauto|].
  destruct (stoi ps) as [[port rest]|]; [|eauto]. destruct (decide _); eauto.
Qed.
Lemma answers_auth a b c d e : answers (ValidateClientAuthConfig a b c d e).
Proof.
  unfold ValidateClientAuthConfig, answers, config_invalid.
  destruct (negb a); [eauto|]. destruct (_ || _); [eauto|]. destruct (unique_identities ∅ e); eauto.
Qed.
#[local] Hint Resolve answers_ok answers_ValidateAddr answers_auth : core.


(** An address whose host has colons is accepted, and the transport does not
    listen on it. *)
Lemma colon_host_refused :
  ValidateAddr "[::1]:8001" "listen_addr" = StOK /\
  listen_endpoint "[::1]:8001" = inl (Error1 "Invalid port in address: [::1]:8001").
Proof. split; vm_compute; reflexivity. Qed.
