(* ===== verification/Transport.v ===== *)
(** * Transport: [AsioNetworkTransport] of [src/asio_network_transport.cpp]

    The table of peers, and the way of a request from [SendRpc] to its peer.
    [tr_peers] holds every peer that was made, [tr_map] the place of the current
    one for a node.  Handlers posted to the [io_context] are run by a pool of
    threads, in any order. *)

From S2P Require Import Prelude Types RaftLog Quorum RaftGroup Timers Replicate Membership Text Bytes DenseIndex Disk Wal Json Identity Connection Peers Config.

(** ** State *)

Inductive TransportPost :=
| TSend (to : Z) (addr : string) (s : PendingSend)
| TStopped (s : PendingSend).

(** [tr_stopped] is whether the [io_context] was stopped, [tr_threads] how many
    threads run its handlers; [tr_fired] the calls of callbacks the transport
    made itself. *)
Record Transport := mkTransport {
  tr_initialized : bool;
  tr_running : bool;
  tr_stopped : bool;
  tr_threads : nat;
  tr_map : gmap Z nat;
  tr_peers : list Peer;
  tr_batching : bool;
  tr_posted : list TransportPost;
  tr_fired : list (nat * RpcResult)
}.
#[global] Instance Transport_eta : Eta Transport := fun r =>
  mkTransport (tr_initialized r) (tr_running r) (tr_stopped r) (tr_threads r) (tr_map r) (tr_peers r)
    (tr_batching r) (tr_posted r) (tr_fired r).

Definition Transport_new : Transport := mkTransport false false false 0 ∅ [] true [] [].

(** ** Operations *)

Definition at_peer (tls : bool) (j : nat) (e : PeerEvent) (t : Transport) : Transport :=
  t <| tr_peers ::= alter (fun p => peer_step tls p e) j |>.

(** [bind] is what opening the listener on an endpoint says, [contexts] what
    making the two TLS contexts says; [None] is success. *)
Definition Initialize (bind : string * Z -> option string) (contexts : option string) (listen_addr : string)
    (t : Transport) : Status * Transport :=
  if tr_initialized t then (Error1 "Already initialized", t)
  else match listen_endpoint listen_addr with
  | inl error => (error, t)
  | inr endpoint =>
      match bind endpoint with
      | Some what => (Error1 ("Failed to create acceptor: " +:+ what), t)
      | None =>
          match contexts with
          | Some what => (Error1 what, t)
          | None => (StOK, t <| tr_initialized := true |>)
          end
      end
  end.

(** A thread that runs a stopped [io_context] returns at once. *)
Definition tr_start (hardware_concurrency : nat) (t : Transport) : Status * Transport :=
  if negb (tr_initialized t) then (Error1 "Not initialized", t)
  else if tr_running t then (StOK, t)
  else (StOK, t <| tr_running := true |>
                <| tr_threads := if tr_stopped t then 0%nat else Nat.max 2 hardware_concurrency |>).

(** The [Close] handlers are posted, and the [io_context] is stopped: its threads
    return. *)
Definition tr_stop (tls : bool) (t : Transport) : Transport :=
  if tr_running t then
    (foldl (fun t j => at_peer tls j PClosePeer t) (t <| tr_running := false |>) (map snd (map_to_list (tr_map t))))
      <| tr_stopped := true |>
      <| tr_threads := 0%nat |>
      <| tr_map := ∅ |>
  else t.

Definition SendRpc (to : Z) (addr : string) (s : PendingSend) (t : Transport) : Transport :=
  t <| tr_posted ::= fun l => l ++ [if tr_running t then TSend to addr s else TStopped s] |>.

(** The constructor of a peer reads its address: [None] is the exception. *)
Definition new_peer (tls : bool) (peer_id : Z) (addr : string) (t : Transport) : option nat * Transport :=
  match peer_endpoint addr with
  | None => (None, t)
  | Some _ =>
      let j := length (tr_peers t) in
      let t := t <| tr_peers ::= fun l => l ++ [Peer_new] |> <| tr_map ::= <[peer_id := j]> |> in
      (Some j, at_peer tls j PStart t)
  end.

Definition GetOrCreatePeerConnection (tls : bool) (peer_id : Z) (addr : string) (t : Transport)
    : option nat * Transport :=
  match tr_map t !! peer_id with
  | Some j =>
      match p_state <$> tr_peers t !! j with
      | Some kConnected | Some kConnecting => (Some j, t)
      | _ => new_peer tls peer_id addr ((at_peer tls j PClosePeer t) <| tr_map ::= delete peer_id |>)
      end
  | None => new_peer tls peer_id addr t
  end.

Definition SetBatchingEnabled (tls : bool) (enabled : bool) (t : Transport) : Transport :=
  foldl (fun t j =>
      match tr_peers t !! j ≫= p_conn with
      | Some k => at_peer tls j (PConn k (CSetBatching enabled)) t
      | None => t
      end) (t <| tr_batching := enabled |>) (map snd (map_to_list (tr_map t))).

(** An exception that leaves a handler ends the thread that ran it. *)
Definition run_transport_post (tls : bool) (x : TransportPost) (t : Transport) : Transport :=
  match x with
  | TStopped s => t <| tr_fired ::= fun f => f ++ [(ps_callback s, mkRpcResult "" false "Transport stopped")] |>
  | TSend to addr s =>
      match GetOrCreatePeerConnection tls to addr t with
      | (Some j, t) => at_peer tls j (PEnqueueSend s) t
      | (None, t) => t <| tr_threads ::= pred |>
      end
  end.

Definition run_transport (tls : bool) (i : nat) (t : Transport) : Transport :=
  match tr_posted t !! i with
  | None => t
  | Some x => run_transport_post tls x (t <| tr_posted ::= list_delete i |>)
  end.

(** ** Events *)

Inductive TransportEvent :=
| TrInitialize (bound : option string) (listen_addr : string)
| TrStart (hardware_concurrency : nat)
| TrStop
| TrSendRpc (to : Z) (addr : string) (s : PendingSend)
| TrSetBatching (enabled : bool)
| TrRun (i : nat)
| TrPeer (j : nat) (e : PeerEvent).

(** What happens to a peer by itself. *)
Definition peer_event (e : PeerEvent) : bool :=
  match e with PStart | PEnqueueSend _ | PClosePeer => false | _ => true end.

Definition handlers_run (t : Transport) : bool := bool_decide (0 < tr_threads t)%nat.

Definition tr_step (tls : bool) (t : Transport) (e : TransportEvent) : Transport :=
  match e with
  | TrInitialize bound addr => (Initialize (fun _ => bound) None addr t).2
  | TrStart hardware_concurrency => (tr_start hardware_concurrency t).2
  | TrStop => tr_stop tls t
  | TrSendRpc to addr s => SendRpc to addr s t
  | TrSetBatching enabled => SetBatchingEnabled tls enabled t
  | TrRun i => if handlers_run t then run_transport tls i t else t
  | TrPeer j e => if handlers_run t && peer_event e then at_peer tls j e t else t
  end.
Definition tr_run (tls : bool) (t : Transport) (es : list TransportEvent) : Transport := foldl (tr_step tls) t es.

(** ** Every request is answered *)

Definition post_request (x : TransportPost) : Z * nat :=
  match x with TSend _ _ s | TStopped s => send_request s end.
Definition event_requests (e : TransportEvent) : list (Z * nat) :=
  match e with TrSendRpc _ _ s => [send_request s] | _ => [] end.
Definition transport_requests (es : list TransportEvent) : list (Z * nat) := es ≫= event_requests.

Definition readable_post (x : TransportPost) : Prop :=
  match x with TSend _ addr _ => is_Some (peer_endpoint addr) | TStopped _ => True end.
(** The address of the peer can be read. *)
Definition readable (e : TransportEvent) : Prop :=
  match e with TrSendRpc _ addr _ => is_Some (peer_endpoint addr) | _ => True end.

(** A peer accounts for the requests [rs]. *)
Definition peer_calls (rs : list (Z * nat)) (p : Peer) : Prop := peer_inv p /\ calls_split rs [] p.

Section calls.
Context (tls : bool) (rs : list (Z * nat)) (Hids : NoDup rs.*1).

Record tr_inv (hand : list (Z * nat)) (t : Transport) : Prop := {
  tv_map : forall id j, tr_map t !! id = Some j -> (j < length (tr_peers t))%nat;
  tv_readable : Forall readable_post (tr_posted t);
  tv_split : exists answered rss,
    answered.*2 = (tr_fired t).*1 /\
    Forall2 peer_calls rss (tr_peers t) /\
    rs ≡ₚ hand ++ answered ++ map post_request (tr_posted t) ++ concat rss
}.

Lemma tr_inv_same hand t t' :
  tr_inv hand t -> tr_map t' = tr_map t -> tr_peers t' = tr_peers t -> tr_posted t' = tr_posted t ->
  tr_fired t' = tr_fired t -> tr_inv hand t'.
Proof. intros [H1 H2 H3] E1 E2 E3 E4. by split; rewrite ?E1, ?E2, ?E3, ?E4. Qed.

Lemma tr_inv_at_peer hand j e t :
  peer_requests [e] = [] \/ (j < length (tr_peers t))%nat ->
  tr_inv (peer_requests [e] ++ hand) t -> tr_inv hand (at_peer tls j e t).
Proof.
  intros Hj [H1 H2 (a & rss & Ha & Hc & Hrs)]. unfold at_peer.
  assert (length rss = length (tr_peers t)) as Hl by by eapply Forall2_length.
  split; proj_simp; [by intros id k ?%H1; rewrite length_alter|done|].
  exists a, (alter (fun r => r ++ peer_requests [e]) j rss). split_and!; [done| |].
  - apply Forall2_alter; [done|]. intros r p Hr Hp [Hi Hs]. split; [by apply peer_inv_step|].
    apply calls_split_step; [|done|done].
    apply list_elem_of_lookup_2, list_elem_of_split in Hr as (rs1 & rs2 & ->).
    rewrite Hrs, !concat_app in Hids. simpl in Hids. revert Hids. rewrite !fmap_app, !list.NoDup_app. set_solver.
  - rewrite concat_alter_app by by rewrite Hl. rewrite Hrs. solve_Permutation.
Qed.

Lemma tr_inv_quiet j e t : peer_requests [e] = [] -> tr_inv [] t -> tr_inv [] (at_peer tls j e t).
Proof. intros He Ht. apply tr_inv_at_peer; [by left|]. by rewrite He. Qed.

Lemma tr_inv_quiet_hand hand j e t : peer_requests [e] = [] -> tr_inv hand t -> tr_inv hand (at_peer tls j e t).
Proof. intros He Ht. apply tr_inv_at_peer; [by left|]. by rewrite He. Qed.

Lemma tr_inv_new_peer hand id addr t :
  is_Some (peer_endpoint addr) -> tr_inv hand t ->
  exists j t', new_peer tls id addr t = (Some j, t') /\ (j < length (tr_peers t'))%nat /\ tr_inv hand t'.
Proof.
  intros [ep Hep] [H1 H2 (a & rss & Ha & Hc & Hrs)]. unfold new_peer. rewrite Hep. do 2 eexists.
  split; [done|]. split; [unfold at_peer; proj_simp; rewrite length_alter, length_app; simpl; lia|].
  apply tr_inv_quiet_hand; [done|]. split; proj_simp.
  - intros id' j' [[_ <-]|[_ ?%H1]]%lookup_insert_Some; rewrite length_app; simpl; lia.
  - done.
  - exists a, (rss ++ [[]]). split_and!; [done| |by rewrite concat_app; simpl; rewrite app_nil_r].
    apply Forall2_app; [done|]. constructor; [|done]. split; [apply peer_inv_new|by exists [], []].
Qed.

Lemma tr_inv_GetOrCreate hand id addr t :
  is_Some (peer_endpoint addr) -> tr_inv hand t ->
  exists j t', GetOrCreatePeerConnection tls id addr t = (Some j, t') /\ (j < length (tr_peers t'))%nat /\ tr_inv hand t'.
Proof.
  intros Hep Ht. unfold GetOrCreatePeerConnection.
  destruct (tr_map t !! id) as [j|] eqn:Ej; [|by apply tr_inv_new_peer].
  assert (tr_inv hand ((at_peer tls j PClosePeer t) <| tr_map ::= delete id |>)) as Hclosed.
  { destruct (tr_inv_quiet_hand hand j PClosePeer t eq_refl Ht) as [H1 H2 H3].
    split; [|done|done]. proj_simp. intros id' k [_ Hk]%lookup_delete_Some. by apply H1 in Hk. }
  assert (exists j' t', (Some j, t) = (Some j', t') /\ (j' < length (tr_peers t'))%nat /\ tr_inv hand t') as Hkeep.
  { exists j, t. split; [done|]. split; [|done]. by apply (tv_map _ _ Ht) in Ej. }
  destruct (p_state <$> tr_peers t !! j) as [[]|]; try done; by apply tr_inv_new_peer.
Qed.

Lemma tr_inv_run i t : tr_inv [] t -> tr_inv [] (run_transport tls i t).
Proof.
  intros Ht. unfold run_transport. destruct (tr_posted t !! i) as [x|] eqn:Ex; [|done].
  assert (tr_inv [post_request x] (t <| tr_posted ::= list_delete i |>)) as Hx.
  { destruct Ht as [H1 H2 (a & rss & Ha & Hc & Hrs)]. split; proj_simp; [done|by apply Forall_delete|].
    exists a, rss. split_and!; [done..|].
    pose proof (Permutation_map post_request (delete_Permutation _ _ _ Ex)) as Hd. simpl in Hd.
    rewrite Hrs, Hd. solve_Permutation. }
  pose proof (Forall_lookup_1 _ _ _ _ (tv_readable _ _ Ht) Ex) as Hread.
  destruct x as [to addr s|s]; simpl in *.
  - destruct (tr_inv_GetOrCreate _ to addr _ Hread Hx) as (j & t' & -> & Hj & Ht').
    by apply tr_inv_at_peer; [right|].
  - destruct Hx as [H1 H2 (a & rss & Ha & Hc & Hrs)]. split; proj_simp; [done|done|].
    exists (a ++ [send_request s]), rss. split_and!; [by rewrite !fmap_app, Ha|done|].
    rewrite Hrs. solve_Permutation.
Qed.
End calls.

Lemma tr_inv_each rs (f : Transport -> nat -> Transport) l t :
  (forall t j, tr_inv rs [] t -> tr_inv rs [] (f t j)) -> tr_inv rs [] t -> tr_inv rs [] (foldl f t l).
Proof. intros Hf. revert t. induction l as [|j l IH]; intros t Ht; [done|]. simpl. auto. Qed.

Lemma tr_inv_step tls rs t e :
  NoDup (rs ++ event_requests e).*1 -> readable e -> tr_inv rs [] t ->
  tr_inv (rs ++ event_requests e) [] (tr_step tls t e).
Proof.
  intros Hnd Hr Ht. destruct e as [bound addr|hc| |to addr s|b|i|j e]; simpl in *; rewrite ?app_nil_r in *.
  - unfold Initialize. destruct (tr_initialized t); [done|]. destruct (listen_endpoint addr) as [|ep]; [done|].
    destruct bound; [done|]. by eapply tr_inv_same.
  - unfold tr_start. destruct (tr_initialized t), (tr_running t); simpl; try done. by eapply tr_inv_same.
  - unfold tr_stop. destruct (tr_running t); [|done].
    match goal with |- context [foldl ?f ?t0 ?l] => assert (tr_inv rs [] (foldl f t0 l)) as [H1 H2 H3] end.
    { apply tr_inv_each; [by intros; apply tr_inv_quiet|by eapply tr_inv_same]. }
    split; proj_simp; [intros ?? Hx; by rewrite lookup_empty in Hx|done|done].
  - destruct Ht as [H1 H2 (a & rss & Ha & Hc & Hrs)]. unfold SendRpc. split; proj_simp; [done| |].
    + apply Forall_app. split; [done|]. constructor; [|done]. by destruct (tr_running t).
    + exists a, rss. split_and!; [done..|]. rewrite map_app, Hrs. destruct (tr_running t); simpl; solve_Permutation.
  - unfold SetBatchingEnabled.
    apply tr_inv_each; [|by eapply tr_inv_same]. intros t' j Ht'.
    destruct (tr_peers t' !! j ≫= p_conn); [by apply tr_inv_quiet|done].
  - destruct (handlers_run t); [|done]. by apply tr_inv_run.
  - destruct (handlers_run t); [|done]. destruct (peer_event e) eqn:Ee; [|done]. apply tr_inv_quiet; [done|by destruct e|done].
Qed.

Lemma tr_inv_tr_run tls es rs t :
  NoDup (rs ++ transport_requests es).*1 -> Forall readable es -> tr_inv rs [] t ->
  tr_inv (rs ++ transport_requests es) [] (tr_run tls t es).
Proof.
  revert rs t. induction es as [|e es IH]; intros rs t Hnd Hr Ht; simpl; [by rewrite app_nil_r|].
  apply list.Forall_cons in Hr as [He Hr]. simpl in Hnd. rewrite app_assoc in Hnd |- *.
  apply IH; [done|done|]. apply tr_inv_step; [|done|done].
  rewrite fmap_app in Hnd. by apply list.NoDup_app in Hnd as [? _].
Qed.

Definition tr_called (t : Transport) : list nat := (tr_fired t).*1 ++ concat (map peer_called (tr_peers t)).
Definition tr_waiting (t : Transport) : list nat :=
  (map post_request (tr_posted t)).*2 ++ concat (map peer_waiting (tr_peers t)).

Lemma tr_inv_counts rs t : tr_inv rs [] t -> tr_called t ++ tr_waiting t ≡ₚ rs.*2.
Proof.
  intros [_ _ (a & rss & H1 & H2 & ->)]. unfold tr_called, tr_waiting. simpl. rewrite !fmap_app, <- H1.
  assert ((concat rss).*2 ≡ₚ concat (map peer_called (tr_peers t)) ++ concat (map peer_waiting (tr_peers t))) as ->.
  { clear H1. induction H2 as [|r p rss ps [_ Hc%calls_split_counts] _ IH]; [done|]. simpl.
    rewrite fmap_app, IH, <- Hc. solve_Permutation. }
  solve_Permutation.
Qed.

(** ** Letting the transport run *)

Fixpoint settle_peers (tls : bool) (j : nat) (l : list Peer) : list TransportEvent :=
  match l with
  | [] => []
  | p :: l => map (TrPeer j) (peer_settle tls p) ++ settle_peers tls (S j) l
  end.

(** The posted handlers run, then each peer is let run. *)
Definition tr_settle (tls : bool) (t : Transport) : list TransportEvent :=
  let es := replicate (length (tr_posted t)) (TrRun 0) in
  es ++ settle_peers tls 0 (tr_peers (tr_run tls t es)).

Lemma GetOrCreate_frame tls id addr t :
  tr_posted (GetOrCreatePeerConnection tls id addr t).2 = tr_posted t /\
  tr_threads (GetOrCreatePeerConnection tls id addr t).2 = tr_threads t.
Proof.
  unfold GetOrCreatePeerConnection, new_peer. destruct (tr_map t !! id) as [j|]; [|by destruct (peer_endpoint addr)].
  destruct (p_state <$> tr_peers t !! j) as [[]|]; try done; by destruct (peer_endpoint addr).
Qed.

Lemma run_transport_frame tls rs t :
  NoDup rs.*1 -> tr_inv rs [] t ->
  tr_posted (run_transport tls 0 t) = tail (tr_posted t) /\ tr_threads (run_transport tls 0 t) = tr_threads t.
Proof.
  intros Hnd Ht. unfold run_transport. destruct (tr_posted t) as [|x rest] eqn:Ep; [by simpl; rewrite Ep|]. simpl.
  pose proof (tv_readable _ _ _ Ht) as Hr. rewrite Ep in Hr. apply list.Forall_cons in Hr as [Hx Hr].
  destruct x as [to addr s|s]; simpl; [|proj_simp; by rewrite Ep].
  set (t0 := t <| tr_posted ::= list_delete 0%nat |>).
  assert (tr_inv rs [send_request s] t0) as Ht0.
  { destruct Ht as [H1 _ (a & rss & Ha & Hc & Hrs)]. rewrite Ep in Hrs. unfold t0. split; proj_simp; rewrite ?Ep; [done|done|].
    exists a, rss. split_and!; [done..|]. rewrite Hrs. simpl. solve_Permutation. }
  destruct (GetOrCreate_frame tls to addr t0) as [Hp Hth].
  destruct (tr_inv_GetOrCreate tls rs Hnd _ to addr t0 Hx Ht0) as (j & t' & E & _ & _). rewrite E in *.
  unfold at_peer. simpl in *. proj_simp. rewrite Hp, Hth. unfold t0. proj_simp. by rewrite Ep.
Qed.

Lemma run_posts tls rs n t :
  NoDup rs.*1 -> tr_inv rs [] t -> handlers_run t = true -> (length (tr_posted t) <= n)%nat ->
  let t' := tr_run tls t (replicate n (TrRun 0)) in
  tr_posted t' = [] /\ handlers_run t' = true /\ tr_inv rs [] t'.
Proof.
  intros Hnd. revert t. induction n as [|n IH]; intros t Ht Hh Hn; simpl.
  - by destruct (tr_posted t); [|simpl in Hn; lia].
  - rewrite Hh. destruct (run_transport_frame tls rs t Hnd Ht) as [Hp Hth].
    apply IH; [by apply tr_inv_run|by unfold handlers_run in *; rewrite Hth|].
    rewrite Hp. destruct (tr_posted t); simpl in *; lia.
Qed.

Lemma tr_run_app tls t es es' : tr_run tls t (es ++ es') = tr_run tls (tr_run tls t es) es'.
Proof. apply foldl_app. Qed.

Lemma settle_peer tls j es t :
  handlers_run t = true -> forallb peer_event es = true ->
  tr_run tls t (map (TrPeer j) es) = t <| tr_peers ::= alter (fun p => peer_run tls p es) j |>.
Proof.
  revert t. induction es as [|e es IH]; intros t Hh Hes; simpl.
  - destruct t as [? ? ? ? ? ps ? ? ?]. unfold set. simpl. f_equal. symmetry. by apply list_alter_id.
  - simpl in Hes. apply andb_true_iff in Hes as [He Hes]. rewrite Hh, He. simpl.
    fold (tr_run tls (at_peer tls j e t) (map (TrPeer j) es)). rewrite IH by done.
    unfold at_peer. destruct t. unfold set. simpl. f_equal. by rewrite list_alter_compose.
Qed.

Lemma peer_settle_events tls p : forallb peer_event (peer_settle tls p) = true.
Proof.
  assert (forall n, forallb peer_event (replicate n PRun) = true) as Hr by by induction n.
  assert (forall l k, forallb peer_event (settle_conns k l) = true) as Hs.
  { induction l as [|c l IH]; intros k; [done|]. simpl. rewrite forallb_app, IH, andb_true_r. by induction (settle c). }
  unfold peer_settle. by rewrite !forallb_app, Hr, Hs.
Qed.

Lemma settle_all_peers tls t front l :
  handlers_run t = true -> tr_peers t = front ++ l ->
  tr_run tls t (settle_peers tls (length front) l) =
    t <| tr_peers := front ++ map (fun p => peer_run tls p (peer_settle tls p)) l |>.
Proof.
  revert t front. induction l as [|p l IH]; intros t front Hh Hp; simpl.
  - rewrite <- Hp. by destruct t.
  - rewrite tr_run_app, settle_peer by (done || apply peer_settle_events). set (q := peer_run tls p (peer_settle tls p)).
    assert (t <| tr_peers ::= alter (fun p0 => peer_run tls p0 (peer_settle tls p)) (length front) |> =
      t <| tr_peers := (front ++ [q]) ++ l |>) as ->.
    { destruct t. unfold set. simpl in *. f_equal. rewrite Hp, alter_app_r_alt, Nat.sub_diag by lia.
      by rewrite <- app_assoc. }
    replace (S (length front)) with (length (front ++ [q])) by (rewrite length_app; simpl; lia).
    etransitivity; [by apply (IH (t <| tr_peers := (front ++ [q]) ++ l |>) (front ++ [q]))|].
    by rewrite <- (app_assoc front).
Qed.

Lemma tr_settle_quiet tls t : transport_requests (tr_settle tls t) = [] /\ Forall readable (tr_settle tls t).
Proof.
  unfold tr_settle. cbv zeta. generalize (tr_peers (tr_run tls t (replicate (length (tr_posted t)) (TrRun 0)))). intros ps.
  assert (forall j, transport_requests (settle_peers tls j ps) = [] /\ Forall readable (settle_peers tls j ps)) as Hps.
  { induction ps as [|p ps IH]; intros j; [done|]. simpl. unfold transport_requests in *. rewrite bind_app.
    destruct (IH (S j)) as [-> IH']. rewrite app_nil_r. split.
    - by induction (peer_settle tls p).
    - apply Forall_app. split; [|done]. by induction (peer_settle tls p); constructor. }
  destruct (Hps 0%nat) as [H1 H2]. unfold transport_requests in *. rewrite bind_app, H1, app_nil_r. split.
  - by induction (length (tr_posted t)).
  - apply Forall_app. split; [|done]. by induction (length (tr_posted t)); constructor.
Qed.

Lemma tr_settle_waiting tls rs t :
  NoDup rs.*1 -> tr_inv rs [] t -> handlers_run t = true -> tr_waiting (tr_run tls t (tr_settle tls t)) = [].
Proof.
  intros Hnd Ht Hh. unfold tr_settle. cbv zeta. rewrite tr_run_app.
  destruct (run_posts tls rs (length (tr_posted t)) t Hnd Ht Hh ltac:(lia)) as (Hp & Hh' & [_ _ (a & rss & _ & Hc & Hrs)]).
  set (t1 := tr_run tls t (replicate (length (tr_posted t)) (TrRun 0))) in *.
  pose proof (settle_all_peers tls t1 [] (tr_peers t1) Hh' eq_refl) as Hs. simpl in Hs. rewrite Hs. unfold tr_waiting. proj_simp. rewrite Hp. simpl.
  assert (Forall (fun r => NoDup r.*1) rss) as Hr.
  { apply list.Forall_forall. intros r (rs1 & rs2 & ->)%list_elem_of_split. rewrite Hrs, !concat_app in Hnd.
    simpl in Hnd. revert Hnd. rewrite !fmap_app, !list.NoDup_app. set_solver. }
  clear -Hc Hr. induction Hc as [|r p rss ps [Hi Hs] _ IH]; [done|]. apply list.Forall_cons in Hr as [Hr1 Hr].
  simpl. rewrite IH by done. by rewrite (peer_settle_waiting tls r).
Qed.

(** C25. Requests with different ids, to peers whose address can be read, get one
    answer each: whatever happens to the transport, its peers and their
    connections, each callback was called once or still waits; and while the
    threads of the transport run, letting them run calls each of them. *)
Theorem every_send_answered_once tls es :
  NoDup (transport_requests es).*1 ->
  Forall readable es ->
  let t := tr_run tls Transport_new es in
  tr_called t ++ tr_waiting t ≡ₚ (transport_requests es).*2 /\
  (handlers_run t = true -> tr_called (tr_run tls t (tr_settle tls t)) ≡ₚ (transport_requests es).*2).
Proof.
  intros Hnd Hr t. assert (tr_inv (transport_requests es) [] t) as Ht.
  { apply (tr_inv_tr_run tls es [] Transport_new); [done|done|]. split; [done|done|]. by exists [], []. }
  split; [by apply tr_inv_counts|]. intros Hh. destruct (tr_settle_quiet tls t) as [Hq Hrq].
  assert (tr_inv (transport_requests es ++ transport_requests (tr_settle tls t)) [] (tr_run tls t (tr_settle tls t))) as Ht'.
  { apply tr_inv_tr_run; [by rewrite Hq, app_nil_r|done|done]. }
  rewrite Hq, app_nil_r in Ht'. apply tr_inv_counts in Ht'.
  by rewrite (tr_settle_waiting tls (transport_requests es)), app_nil_r in Ht'.
Qed.

Lemma every_send_answered_once_witness :
  let es := [TrInitialize None "0.0.0.0:8001"; TrStart 4; TrSendRpc 2 "10.0.0.2:8001" (mkPendingSend "vote" 1 7);
             TrRun 0; TrPeer 0 PRun; TrSendRpc 3 "10.0.0.3:8001" (mkPendingSend "vote" 2 8); TrPeer 0 PRun;
             TrPeer 0 (PAttempt 0 None true); TrPeer 0 (PAttempt 0 None true);
             TrSendRpc 2 "10.0.0.2:8001" (mkPendingSend "append" 3 9)] in
  let t := tr_run false Transport_new es in
  tr_called t ++ tr_waiting t ≡ₚ (transport_requests es).*2 /\
  (handlers_run t = true -> tr_called (tr_run false t (tr_settle false t)) ≡ₚ (transport_requests es).*2).
Proof.
  apply (every_send_answered_once false).
  - apply (bool_decide_unpack (NoDup [1; 2; 3])). reflexivity.
  - repeat constructor; vm_compute; by eexists.
Defined.

(** ** What the transport does not do *)

Definition started_transport : list TransportEvent := [TrInitialize None "0.0.0.0:8001"; TrStart 1].

(** An address with a port that is not a number ends a thread for each request
    that is sent to it; when the last one is gone, nothing is sent or received
    any more, and callbacks are not called. *)
Lemma bad_address_ends_threads :
  let send id cb := TrSendRpc 2 "10.0.0.2:raft" (mkPendingSend "append" id cb) in
  let t := tr_run false Transport_new (started_transport ++ [send 1 7%nat; TrRun 0; send 2 8%nat; TrRun 0;
             TrSendRpc 3 "10.0.0.3:8001" (mkPendingSend "append" 3 9); TrRun 0]) in
  tr_running t = true /\ handlers_run t = false /\ tr_called t = [] /\ tr_waiting t = [9%nat].
Proof. split_and!; vm_compute; reflexivity. Qed.

(** [Stop] posts the closing of the peers and ends the threads that would run it:
    the callbacks of the requests in flight are not called.  A transport that is
    started again reports success and runs nothing. *)
Lemma stop_forgets_callbacks :
  let t := tr_run false Transport_new
    (started_transport ++ [TrSendRpc 2 "10.0.0.2:8001" (mkPendingSend "append" 1 7); TrRun 0; TrPeer 0 PRun; TrPeer 0 PRun; TrStop]) in
  let t' := tr_run false t (tr_settle false t) in
  tr_called t' = [] /\ tr_waiting t' = [7%nat] /\
  (tr_start 4 t).1 = StOK /\ handlers_run (tr_start 4 t).2 = false.
Proof. split_and!; vm_compute; reflexivity. Qed.

(** Batching is turned off for the connections there are; the next one batches. *)
Lemma next_connection_batches :
  let t := tr_run false Transport_new
    (started_transport ++ [TrSetBatching false; TrSendRpc 2 "10.0.0.2:8001" (mkPendingSend "append" 1 7);
                 TrRun 0; TrPeer 0 PRun]) in
  tr_batching t = false /\ map (map c_batching ∘ p_conns) (tr_peers t) = [[true]].
Proof. split_and!; vm_compute; reflexivity. Qed.
