(* ===== verification/TimerService.v ===== *)
(** * The timer service: [src/asio_timer_service.cpp]

    One-shot and periodic timers with a table of those that are active.  A timer
    object is known by its id.  Timer operations and callbacks run on a strand:
    what waits for it is [ts_queue], in order.  A wait that expires queues its
    handler, which a later cancel does not take back. *)

From S2P Require Import Prelude Types RaftLog.

(** ** State *)

Notation TimerId := Z (only parsing).
Definition kInvalidTimerId : TimerId := 0.

(** [THandler] runs the handler of a wait, which expired or was cancelled;
    [TErase] and [TRearm] are what a handler does behind its callback; [TCancel]
    cancels the wait of a timer. *)
Inductive TimerPost :=
| THandler (id : TimerId) (expired : bool)
| TErase (id : TimerId)
| TRearm (id : TimerId)
| TCancel (id : TimerId).
#[global] Instance TimerPost_eq_dec : EqDecision TimerPost.
Proof. solve_decision. Defined.

(** [ts_kind] says of each timer made whether it is periodic, [ts_timers] is the
    table, [ts_waits] the waits that are armed; [ts_fired] the callbacks called. *)
Record TimerSvc := mkTimerSvc {
  ts_running : bool;
  ts_io : bool;
  ts_next_timer_id : Z;
  ts_kind : gmap TimerId bool;
  ts_timers : gset TimerId;
  ts_waits : list TimerId;
  ts_queue : list TimerPost;
  ts_fired : list TimerId
}.
#[global] Instance TimerSvc_eta : Eta TimerSvc := fun r =>
  mkTimerSvc (ts_running r) (ts_io r) (ts_next_timer_id r) (ts_kind r) (ts_timers r) (ts_waits r)
    (ts_queue r) (ts_fired r).

Definition TimerSvc_new : TimerSvc := mkTimerSvc false true 1 ∅ ∅ [] [] [].

(** ** Operations *)

Definition ts_start (s : TimerSvc) : TimerSvc := s <| ts_running := true |>.

(** The cancels are posted and the [io_context] is stopped before they run. *)
Definition ts_stop (s : TimerSvc) : TimerSvc :=
  if ts_running s then
    s <| ts_running := false |>
      <| ts_queue ::= fun q => q ++ map TCancel (elements (ts_timers s)) |>
      <| ts_io := false |>
      <| ts_timers := ∅ |>
  else s.

Definition set_timer (is_interval : bool) (s : TimerSvc) : TimerId * TimerSvc :=
  if ts_running s then
    let id := ts_next_timer_id s in
    (id, s <| ts_next_timer_id := u64 (id + 1) |>
           <| ts_kind ::= <[id := is_interval]> |>
           <| ts_timers ::= fun t => {[id]} ∪ t |>
           <| ts_waits ::= fun w => w ++ [id] |>)
  else (kInvalidTimerId, s).
Definition SetTimeout : TimerSvc -> TimerId * TimerSvc := set_timer false.
Definition SetInterval : TimerSvc -> TimerId * TimerSvc := set_timer true.

Definition CancelTimer (timer_id : TimerId) (s : TimerSvc) : bool * TimerSvc :=
  if decide (timer_id = kInvalidTimerId \/ timer_id ∉ ts_timers s) then (false, s)
  else (true, s <| ts_timers ::= fun t => t ∖ {[timer_id]} |>
                <| ts_queue ::= fun q => q ++ [TCancel timer_id] |>).

Definition IsTimerActive (timer_id : TimerId) (s : TimerSvc) : bool :=
  bool_decide (timer_id <> kInvalidTimerId /\ timer_id ∈ ts_timers s).

Definition erase_timer (id : TimerId) (s : TimerSvc) : TimerSvc := s <| ts_timers ::= fun t => t ∖ {[id]} |>.

(** Calls that the callback or another thread makes come between the callback
    and the rest of the handler, which nothing else on the strand overtakes. *)
Definition behind_callback (id : TimerId) (rest : TimerPost) (called : bool) (s : TimerSvc) : TimerSvc :=
  (if called then s <| ts_fired ::= fun f => f ++ [id] |> else s) <| ts_queue ::= cons rest |>.

Definition timeout_handler (id : TimerId) (expired : bool) (s : TimerSvc) : TimerSvc :=
  behind_callback id (TErase id) expired s.

Definition interval_handler (id : TimerId) (expired : bool) (s : TimerSvc) : TimerSvc :=
  if negb expired then erase_timer id s
  else behind_callback id (TRearm id) (ts_running s) s.

Definition run_timer_post (x : TimerPost) (s : TimerSvc) : TimerSvc :=
  match x with
  | THandler id expired =>
      match ts_kind s !! id with
      | Some true => interval_handler id expired s
      | _ => timeout_handler id expired s
      end
  | TErase id => erase_timer id s
  | TRearm id => if ts_running s then s <| ts_waits ::= fun w => w ++ [id] |> else s
  | TCancel id =>
      if decide (id ∈ ts_waits s) then
        s <| ts_waits ::= filter (fun w => w <> id) |> <| ts_queue ::= fun q => q ++ [THandler id false] |>
      else s
  end.
Definition run_timers (s : TimerSvc) : TimerSvc :=
  match ts_queue s with
  | [] => s
  | x :: rest => run_timer_post x (s <| ts_queue := rest |>)
  end.

Definition timer_expires (id : TimerId) (s : TimerSvc) : TimerSvc :=
  if decide (id ∈ ts_waits s) then
    s <| ts_waits ::= filter (fun w => w <> id) |> <| ts_queue ::= fun q => q ++ [THandler id true] |>
  else s.

(** ** Events *)

Inductive TimerEvent :=
| TsStart
| TsStop
| TsSet (is_interval : bool)
| TsCancel (timer_id : TimerId)
| TsRun
| TsExpires (id : TimerId).

Definition ts_step (s : TimerSvc) (e : TimerEvent) : TimerSvc :=
  match e with
  | TsStart => ts_start s
  | TsStop => ts_stop s
  | TsSet is_interval => (set_timer is_interval s).2
  | TsCancel id => (CancelTimer id s).2
  | TsRun => if ts_io s then run_timers s else s
  | TsExpires id => if ts_io s then timer_expires id s else s
  end.
Definition ts_run (s : TimerSvc) (es : list TimerEvent) : TimerSvc := foldl ts_step s es.

(** ** Timers fire *)

Definition occurs {A} `{EqDecision A} (x : A) (l : list A) : nat := length (filter (fun y => y = x) l).

Lemma occurs_app {A} `{EqDecision A} (x : A) l k : occurs x (l ++ k) = (occurs x l + occurs x k)%nat.
Proof. unfold occurs. by rewrite list.filter_app, length_app. Qed.

Lemma occurs_one {A} `{EqDecision A} (x y : A) : occurs x [y] = if decide (y = x) then 1%nat else 0%nat.
Proof. unfold occurs. rewrite filter_cons, filter_nil. by destruct (decide (y = x)). Qed.

Lemma occurs_cons {A} `{EqDecision A} (x y : A) l :
  occurs x (y :: l) = ((if decide (y = x) then 1 else 0) + occurs x l)%nat.
Proof. change (y :: l) with ([y] ++ l). by rewrite occurs_app, occurs_one. Qed.

Lemma occurs_drop {A} `{EqDecision A} (x y : A) l :
  occurs x (filter (fun z => z <> y) l) = if decide (x = y) then 0%nat else occurs x l.
Proof.
  induction l as [|z l IH]; [by destruct (decide (x = y))|]. rewrite filter_cons.
  destruct (decide (z <> y)) as [Hz|Hz]; rewrite ?occurs_cons, IH.
  - destruct (decide (x = y)) as [->|]; [by rewrite decide_False|done].
  - apply dec_stable in Hz as ->. destruct (decide (x = y)) as [->|]; [done|]. by rewrite decide_False.
Qed.

Lemma occurs_elem {A} `{EqDecision A} (x : A) l : x ∈ l -> (1 <= occurs x l)%nat.
Proof.
  induction l as [|y l IH]; [set_solver|]. rewrite occurs_cons. intros [<-|Hx%IH]%elem_of_cons; [|lia].
  rewrite decide_True by done. lia.
Qed.

Lemma occurs_none {A} `{EqDecision A} (x : A) l : x ∉ l -> occurs x l = 0%nat.
Proof.
  induction l as [|y l IH]; [done|]. rewrite occurs_cons. intros [Hne Hx]%not_elem_of_cons.
  rewrite decide_False by done. auto.
Qed.

(** The calls a timer has had and may still have without being armed again. *)
Definition shots (s : TimerSvc) (id : TimerId) : nat :=
  (occurs id (ts_fired s) + occurs id (ts_waits s) + occurs (THandler id true) (ts_queue s))%nat.

Definition armed (s : TimerSvc) (id : TimerId) : Prop := id ∈ ts_waits s \/ THandler id true ∈ ts_queue s.

Definition post_id (x : TimerPost) : TimerId :=
  match x with THandler id _ | TErase id | TRearm id | TCancel id => id end.

Record ts_inv (s : TimerSvc) : Prop := {
  tsi_next : 0 < ts_next_timer_id s;
  tsi_kind : forall id, is_Some (ts_kind s !! id) -> 0 < id < ts_next_timer_id s;
  tsi_ids : forall id, id ∈ ts_timers s \/ id ∈ ts_waits s \/ id ∈ ts_fired s \/ id ∈ map post_id (ts_queue s) ->
    is_Some (ts_kind s !! id);
  tsi_shots : forall id, ts_kind s !! id = Some false -> (shots s id <= 1)%nat;
  tsi_rearm : forall id, TRearm id ∈ ts_queue s -> ts_kind s !! id = Some true;
  tsi_cancel : forall id, TCancel id ∈ ts_queue s -> id ∉ ts_timers s;
  tsi_active : forall id, ts_kind s !! id = Some false -> id ∈ ts_timers s -> id ∈ ts_fired s \/ armed s id
}.

(** A step of the strand: nothing is made, and no one-shot timer gets a call more
    than it had coming. *)
Lemma run_timers_shots s id :
  ts_inv s -> ts_kind s !! id = Some false -> (shots (run_timers s) id <= shots s id)%nat.
Proof.
  intros Hs Hk. unfold run_timers. destruct (ts_queue s) as [|x rest] eqn:Eq; [done|].
  pose proof (tsi_rearm _ Hs) as Hre. rewrite Eq in Hre. unfold shots. rewrite Eq, occurs_cons.
  destruct x as [i b|i|i|i]; cbn [run_timer_post]; proj_simp.
  - destruct (ts_kind s !! i) as [[]|] eqn:Ek.
    + assert (i <> id) by congruence. unfold interval_handler, erase_timer, behind_callback.
      destruct b; simpl; [destruct (ts_running _)|]; proj_simp; rewrite ?occurs_app, ?occurs_one, ?occurs_cons;
        repeat destruct (decide _); simplify_eq; lia.
    + unfold timeout_handler, behind_callback. destruct b; proj_simp; rewrite ?occurs_app, ?occurs_one, ?occurs_cons;
        repeat destruct (decide _); simplify_eq; lia.
    + unfold timeout_handler, behind_callback. destruct b; proj_simp; rewrite ?occurs_app, ?occurs_one, ?occurs_cons;
        repeat destruct (decide _); simplify_eq; lia.
  - unfold erase_timer. proj_simp. lia.
  - destruct (ts_running s); proj_simp; [|lia]. assert (i <> id) by (intros ->; specialize (Hre id); set_solver).
    rewrite occurs_app, occurs_one. repeat destruct (decide _); simplify_eq; lia.
  - destruct (decide (i ∈ ts_waits s)); proj_simp; [|lia]. rewrite occurs_app, occurs_one, occurs_drop.
    repeat destruct (decide _); simplify_eq; lia.
Qed.

Lemma run_timers_kind s : ts_kind (run_timers s) = ts_kind s /\ ts_next_timer_id (run_timers s) = ts_next_timer_id s /\
  ts_io (run_timers s) = ts_io s /\ ts_running (run_timers s) = ts_running s.
Proof.
  unfold run_timers. destruct (ts_queue s) as [|x rest]; [done|].
  destruct x as [i b|i|i|i]; cbn [run_timer_post]; proj_simp.
  - unfold interval_handler, timeout_handler, erase_timer, behind_callback.
    destruct (ts_kind s !! i) as [[]|], b; simpl; try done.
    match goal with |- context [if ?b then _ else _] => by destruct b eqn:E; split_and! end.
  - done.
  - match goal with |- context [if ?b then _ else _] => by destruct b eqn:E; split_and! end.
  - by destruct (decide _).
Qed.

(** What is left to show of a step that makes no timer. *)
Lemma ts_inv_change s s' :
  ts_inv s -> ts_kind s' = ts_kind s -> ts_next_timer_id s' = ts_next_timer_id s ->
  (forall id, id ∈ ts_timers s' \/ id ∈ ts_waits s' \/ id ∈ ts_fired s' \/ id ∈ map post_id (ts_queue s') ->
    id ∈ ts_timers s \/ id ∈ ts_waits s \/ id ∈ ts_fired s \/ id ∈ map post_id (ts_queue s)) ->
  (forall id, ts_kind s !! id = Some false -> (shots s' id <= shots s id)%nat) ->
  (forall id, TRearm id ∈ ts_queue s' -> TRearm id ∈ ts_queue s \/ ts_kind s !! id = Some true) ->
  (forall id, id ∈ ts_timers s' -> id ∈ ts_timers s) ->
  (forall id, TCancel id ∈ ts_queue s' -> TCancel id ∈ ts_queue s \/ id ∉ ts_timers s') ->
  (forall id, ts_kind s !! id = Some false -> id ∈ ts_timers s' -> id ∈ ts_fired s \/ armed s id ->
    id ∈ ts_fired s' \/ armed s' id) ->
  ts_inv s'.
Proof.
  intros [H1 H2 H3 H4 H5 H6 H7] Hk Hn Hids Hshots Hre Htim Hcan Hact.
  split; rewrite ?Hk, ?Hn; [done|done|eauto| |naive_solver|naive_solver|eauto].
  intros id Hid. etransitivity; [by apply Hshots|auto].
Qed.

Lemma ts_inv_run s : ts_inv s -> ts_inv (run_timers s).
Proof.
  intros Hs. destruct (run_timers_kind s) as (Hk & Hn & _ & _).
  apply (ts_inv_change s); [done|done|done| |by intros; apply run_timers_shots|..];
    pose proof (tsi_cancel _ Hs) as Hc; clear Hk Hn;
    unfold run_timers; (destruct (ts_queue s) as [|x rest] eqn:Eq; rewrite ?Eq in *; [by auto|]);
    (destruct x as [i b|i|i|i]; cbn [run_timer_post]; proj_simp;
      [destruct (ts_kind s !! i) as [[]|] eqn:Ek, b|..|destruct (decide (i ∈ ts_waits s))]);
    unfold interval_handler, timeout_handler, erase_timer, behind_callback, armed; proj_simp.
  all: try (destruct (ts_running s); proj_simp).
  all: try rewrite Eq.
  all: intros id; rewrite ?list_elem_of_filter, ?map_app; set_solver.
Qed.

Lemma ts_inv_expires id s : ts_inv s -> ts_inv (timer_expires id s).
Proof.
  intros Hs. unfold timer_expires. destruct (decide (id ∈ ts_waits s)) as [Hw|]; [|done].
  apply (ts_inv_change s); [done|done|done|..]; unfold armed; proj_simp.
  - intros i. rewrite list_elem_of_filter, map_app. set_solver.
  - intros i _. unfold shots. proj_simp. rewrite occurs_app, occurs_one, occurs_drop.
    pose proof (occurs_elem _ _ Hw). repeat destruct (decide _); simplify_eq; lia.
  - set_solver.
  - set_solver.
  - set_solver.
  - intros i _ _. rewrite list_elem_of_filter. destruct (decide (i = id)) as [->|]; set_solver.
Qed.

Lemma ts_inv_cancel id s : ts_inv s -> ts_inv (CancelTimer id s).2.
Proof.
  intros Hs. unfold CancelTimer. destruct (decide _) as [|Hd]; [done|]. simpl.
  assert (id ∈ ts_timers s) as Hid by (destruct (decide (id ∈ ts_timers s)); tauto).
  apply (ts_inv_change s); [done|done|done|..]; unfold armed; proj_simp.
  - intros i. rewrite map_app. set_solver.
  - intros i _. unfold shots. proj_simp. rewrite occurs_app, occurs_one, decide_False by done. lia.
  - set_solver.
  - set_solver.
  - set_solver.
  - set_solver.
Qed.

Lemma ts_inv_set is_interval s :
  ts_inv s -> ts_next_timer_id s < UINT64_MAX -> ts_inv (set_timer is_interval s).2.
Proof.
  intros [H1 H2 H3 H4 H5 H6 H7] Hn. unfold set_timer. destruct (ts_running s); [|done]. simpl.
  remember (ts_next_timer_id s) as id eqn:Eid. rewrite u64_small by (unfold is_u64, UINT64_MAX in *; lia).
  assert (ts_kind s !! id = None) as Hfresh.
  { apply eq_None_not_Some. intros Hx%H2. lia. }
  assert (forall i, ~ is_Some (ts_kind s !! i) -> i ∉ ts_timers s /\ i ∉ ts_waits s /\ i ∉ ts_fired s /\
    i ∉ map post_id (ts_queue s)) as Hun by (intros i Hi; split_and!; intros Hx; apply Hi, H3; tauto).
  assert (id ∉ ts_timers s /\ id ∉ ts_waits s /\ id ∉ ts_fired s /\ id ∉ map post_id (ts_queue s)) as (U1 & U2 & U3 & U4).
  { apply (Hun id). intros Hx. rewrite Hfresh in Hx. by destruct Hx. }
  split; unfold armed; proj_simp.
  - lia.
  - intros i. destruct (decide (i = id)) as [->|]; [intros _; lia|]. rewrite lookup_insert_ne by done.
    intros Hi%H2. lia.
  - intros i. destruct (decide (i = id)) as [->|]; [by rewrite lookup_insert_eq|]. rewrite lookup_insert_ne by done.
    intros Hi. apply H3. set_solver.
  - intros i. unfold shots. proj_simp. rewrite occurs_app, occurs_one. destruct (decide (id = i)) as [<-|].
    + intros _. rewrite !occurs_none; [lia| |done|done].
      intros Hin. apply U4. change id with (post_id (THandler id true)). by apply list_elem_of_fmap_2.
    + rewrite lookup_insert_ne by done. intros Hi%H4. unfold shots in Hi. lia.
  - intros i Hi%H5. rewrite lookup_insert_ne; [done|]. intros <-. congruence.
  - intros i Hi. specialize (H6 i Hi). assert (i <> id); [|set_solver].
    intros ->. apply U4. change id with (post_id (TCancel id)). by apply list_elem_of_fmap_2.
  - intros i. destruct (decide (id = i)) as [<-|]; [set_solver|]. rewrite lookup_insert_ne by done.
    intros Hi Ht. specialize (H7 i Hi). unfold armed in H7. set_solver.
Qed.

Lemma ts_inv_stop s : ts_inv s -> ts_inv (ts_stop s).
Proof.
  intros Hs. unfold ts_stop. destruct (ts_running s); [|done].
  apply (ts_inv_change s); [done|done|done|..]; unfold armed; proj_simp.
  - intros i. rewrite map_app, map_map. simpl. rewrite elem_of_app. intros [?|[?|[?|[?|Hi]]]]; [set_solver|tauto..|].
    left. apply list_elem_of_fmap in Hi as (j & -> & Hj). by apply elem_of_elements.
  - intros i _. unfold shots. proj_simp. rewrite occurs_app, (occurs_none _ (map _ _)); [lia|].
    rewrite list_elem_of_fmap. by intros (? & ? & _).
  - intros i [?|(? & ? & _)%list_elem_of_fmap]%elem_of_app; [by left|done].
  - set_solver.
  - set_solver.
  - set_solver.
Qed.

Lemma set_timer_next is_interval s :
  0 < ts_next_timer_id s -> ts_next_timer_id s < UINT64_MAX ->
  ts_next_timer_id (set_timer is_interval s).2 <= ts_next_timer_id s + 1.
Proof.
  intros H0 Hn. unfold set_timer. destruct (ts_running s); simpl; [|lia].
  rewrite u64_small by (unfold is_u64, UINT64_MAX in *; lia). lia.
Qed.

Lemma ts_inv_step s e :
  ts_inv s -> ts_next_timer_id s < UINT64_MAX ->
  ts_inv (ts_step s e) /\ ts_next_timer_id (ts_step s e) <= ts_next_timer_id s + 1.
Proof.
  intros Hs Hn. pose proof (tsi_next _ Hs). destruct e as [| |b|id| |id]; simpl.
  - split; [|unfold ts_start; proj_simp; lia]. apply (ts_inv_change s); by auto.
  - split; [by apply ts_inv_stop|]. unfold ts_stop. destruct (ts_running s); proj_simp; lia.
  - split; [by apply ts_inv_set|by apply set_timer_next].
  - split; [by apply ts_inv_cancel|]. unfold CancelTimer. destruct (decide _); simpl; lia.
  - destruct (ts_io s); [|split; [done|lia]]. split; [by apply ts_inv_run|].
    destruct (run_timers_kind s) as (_ & -> & _). lia.
  - destruct (ts_io s); [|split; [done|lia]]. split; [by apply ts_inv_expires|].
    unfold timer_expires. destruct (decide _); proj_simp; lia.
Qed.

Lemma ts_inv_reachable es :
  Z.of_nat (length es) < UINT64_MAX - 1 -> ts_inv (ts_run TimerSvc_new es).
Proof.
  intros Hn. assert (ts_inv TimerSvc_new) as H0.
  { split; simpl; [lia|by intros id [? Hx]; rewrite lookup_empty in Hx|set_solver|by intros id Hx; rewrite lookup_empty in Hx|set_solver..]. }
  assert (ts_next_timer_id TimerSvc_new + Z.of_nat (length es) < UINT64_MAX) as Hm by (simpl; lia).
  clear Hn. revert H0 Hm. unfold ts_run. generalize TimerSvc_new.
  induction es as [|e es IH]; intros s Hs Hm; [done|]. simpl in Hm |- *.
  destruct (ts_inv_step s e Hs) as [Hs' Hle]; [lia|]. apply IH; [done|lia].
Qed.

(** ** Letting the service run *)

Definition ts_drain (s : TimerSvc) : list TimerEvent := replicate (3 * length (ts_queue s)) TsRun.

(** The strand runs what is queued; the armed timers expire; the strand runs
    what this queued. *)
Definition ts_settle (s : TimerSvc) : list TimerEvent :=
  let s1 := ts_run s (ts_drain s) in
  let s2 := ts_run s1 (map TsExpires (ts_waits s1)) in
  ts_drain s ++ map TsExpires (ts_waits s1) ++ ts_drain s2.

Definition post_weight (x : TimerPost) : nat :=
  match x with THandler _ _ => 2 | TErase _ | TRearm _ => 1 | TCancel _ => 3 end.
Definition queue_weight (q : list TimerPost) : nat := list_sum (map post_weight q).

Lemma queue_weight_bound q : (queue_weight q <= 3 * length q)%nat.
Proof. unfold queue_weight. induction q as [|[] q IH]; simpl in *; lia. Qed.

Lemma run_timers_weight s :
  ts_queue s <> [] -> (queue_weight (ts_queue (run_timers s)) < queue_weight (ts_queue s))%nat.
Proof.
  unfold run_timers. destruct (ts_queue s) as [|x rest]; [done|]. intros _. unfold queue_weight.
  destruct x as [i b|i|i|i]; cbn [run_timer_post]; proj_simp.
  - unfold interval_handler, timeout_handler, erase_timer, behind_callback.
    destruct (ts_kind s !! i) as [[]|], b; simpl; try destruct (ts_running _); simpl; lia.
  - simpl. lia.
  - destruct (ts_running s); simpl; lia.
  - destruct (decide _); proj_simp; rewrite ?map_app, ?list_sum_app; simpl; lia.
Qed.

Lemma drain_empties n s :
  ts_io s = true -> (queue_weight (ts_queue s) <= n)%nat ->
  ts_queue (ts_run s (replicate n TsRun)) = [] /\ ts_io (ts_run s (replicate n TsRun)) = true.
Proof.
  revert s. induction n as [|n IH]; intros s Hio Hw; simpl.
  - split; [|done]. destruct (ts_queue s) as [|[]]; [done|unfold queue_weight in Hw; simpl in Hw; lia..].
  - rewrite Hio. destruct (decide (ts_queue s = [])) as [E|E].
    + assert (run_timers s = s) as -> by (unfold run_timers; by rewrite E). apply IH; [done|].
      rewrite E. unfold queue_weight. simpl. lia.
    + pose proof (run_timers_weight s E). destruct (run_timers_kind s) as (_ & _ & Hio' & _).
      apply IH; [by rewrite Hio'|lia].
Qed.

(** A one-shot timer that was called or has its call coming, and whose cancel is
    not under way. *)
Definition due (id : TimerId) (s : TimerSvc) : Prop :=
  ts_kind s !! id = Some false /\ TCancel id ∉ ts_queue s /\ (id ∈ ts_fired s \/ armed s id).

Lemma due_run id s : due id s -> due id (run_timers s).
Proof.
  intros (Hk & Hc & Hd). unfold due. destruct (run_timers_kind s) as (-> & _). split; [done|].
  unfold run_timers, armed in *. destruct (ts_queue s) as [|x rest] eqn:Eq; [by rewrite Eq|].
  destruct x as [i b|i|i|i]; cbn [run_timer_post]; proj_simp.
  - unfold interval_handler, timeout_handler, erase_timer, behind_callback.
    destruct (ts_kind s !! i) as [[]|] eqn:Ek, b; simpl; try destruct (ts_running _); proj_simp; set_solver.
  - unfold erase_timer. proj_simp. set_solver.
  - destruct (ts_running s); proj_simp; set_solver.
  - destruct (decide (i ∈ ts_waits s)); proj_simp; [|set_solver].
    rewrite list_elem_of_filter. assert (i <> id) by set_solver. set_solver.
Qed.

Lemma due_drain id n s : ts_io s = true -> due id s -> due id (ts_run s (replicate n TsRun)).
Proof.
  revert s. induction n as [|n IH]; intros s Hio Hd; [done|]. simpl. rewrite Hio.
  destruct (run_timers_kind s) as (_ & _ & Hio' & _). apply IH; [by rewrite Hio'|by apply due_run].
Qed.

Lemma expire_ids ids s id :
  ts_io s = true ->
  id ∈ ts_fired s \/ THandler id true ∈ ts_queue s \/ (id ∈ ts_waits s /\ id ∈ ids) ->
  let s' := ts_run s (map TsExpires ids) in
  ts_io s' = true /\ ts_kind s' = ts_kind s /\ (id ∈ ts_fired s' \/ THandler id true ∈ ts_queue s').
Proof.
  revert s. induction ids as [|i ids IH]; intros s Hio Hd; simpl; [set_solver|]. rewrite Hio.
  destruct (IH (timer_expires i s)) as (H1 & H2 & H3); [| |split_and!; [done| |done]].
  - unfold timer_expires. by destruct (decide _).
  - unfold timer_expires. destruct (decide (i ∈ ts_waits s)); proj_simp; [|set_solver].
    rewrite list_elem_of_filter. destruct (decide (id = i)) as [->|]; set_solver.
  - etransitivity; [exact H2|]. unfold timer_expires. by destruct (decide _).
Qed.

(** The same as [due], when the wait is over. *)
Lemma called_run id s :
  ts_kind s !! id = Some false -> id ∈ ts_fired s \/ THandler id true ∈ ts_queue s ->
  id ∈ ts_fired (run_timers s) \/ THandler id true ∈ ts_queue (run_timers s).
Proof.
  intros Hk Hd. unfold run_timers in *. destruct (ts_queue s) as [|x rest] eqn:Eq; [by rewrite Eq|].
  destruct x as [i b|i|i|i]; cbn [run_timer_post]; proj_simp.
  - unfold interval_handler, timeout_handler, erase_timer, behind_callback.
    destruct (ts_kind s !! i) as [[]|] eqn:Ek, b; simpl; try destruct (ts_running _); proj_simp; set_solver.
  - unfold erase_timer. proj_simp. set_solver.
  - destruct (ts_running s); proj_simp; set_solver.
  - destruct (decide (i ∈ ts_waits s)); proj_simp; set_solver.
Qed.

Lemma called_drain id n s :
  ts_io s = true -> ts_kind s !! id = Some false -> id ∈ ts_fired s \/ THandler id true ∈ ts_queue s ->
  id ∈ ts_fired (ts_run s (replicate n TsRun)) \/ THandler id true ∈ ts_queue (ts_run s (replicate n TsRun)).
Proof.
  revert s. induction n as [|n IH]; intros s Hio Hk Hd; [done|]. simpl. rewrite Hio.
  destruct (run_timers_kind s) as (Hk' & _ & Hio' & _). apply IH; [by rewrite Hio'|by rewrite Hk'|by apply called_run].
Qed.

Lemma ts_run_app s es es' : ts_run s (es ++ es') = ts_run (ts_run s es) es'.
Proof. apply foldl_app. Qed.

Lemma settle_calls id s :
  ts_io s = true -> due id s -> id ∈ ts_fired (ts_run s (ts_settle s)).
Proof.
  intros Hio Hd. unfold ts_settle. cbv zeta. rewrite !ts_run_app.
  destruct (drain_empties (3 * length (ts_queue s)) s Hio (queue_weight_bound _)) as [Hq1 Hio1].
  pose proof (due_drain id (3 * length (ts_queue s)) s Hio Hd) as (Hk1 & _ & Hd1). fold (ts_drain s) in *.
  set (s1 := ts_run s (ts_drain s)) in *. unfold armed in Hd1. rewrite Hq1 in Hd1.
  destruct (expire_ids (ts_waits s1) s1 id Hio1) as (Hio2 & Hk2 & Hd2); [set_solver|].
  set (s2 := ts_run s1 (map TsExpires (ts_waits s1))) in *.
  destruct (drain_empties (3 * length (ts_queue s2)) s2 Hio2 (queue_weight_bound _)) as [Hq3 _].
  destruct (called_drain id (3 * length (ts_queue s2)) s2 Hio2) as [|Hx]; [by rewrite Hk2|done|done|].
  rewrite Hq3 in Hx. set_solver.
Qed.

Definition strand_event (e : TimerEvent) : bool := match e with TsRun | TsExpires _ => true | _ => false end.

Lemma ts_inv_strand es s :
  forallb strand_event es = true -> ts_inv s -> ts_inv (ts_run s es) /\ ts_kind (ts_run s es) = ts_kind s.
Proof.
  revert s. induction es as [|e es IH]; intros s Hes Hs; [done|]. simpl in Hes. apply andb_true_iff in Hes as [He Hes].
  assert (ts_inv (ts_step s e) /\ ts_kind (ts_step s e) = ts_kind s) as [Hs' Hk].
  { destruct e as [| | | | |i]; try done; simpl; (destruct (ts_io s); [|done]).
    - split; [by apply ts_inv_run|]. by destruct (run_timers_kind s) as (-> & _).
    - split; [by apply ts_inv_expires|]. unfold timer_expires. by destruct (decide _). }
  destruct (IH (ts_step s e) Hes Hs') as [Hi Hk']. split; [done|]. etransitivity; [exact Hk'|done].
Qed.

Lemma settle_strand s : forallb strand_event (ts_settle s) = true.
Proof.
  assert (forall n, forallb strand_event (replicate n TsRun) = true) as Hr by by induction n.
  assert (forall l, forallb strand_event (map TsExpires l) = true) as He by by induction l.
  unfold ts_settle, ts_drain. by rewrite !forallb_app, !Hr, He.
Qed.

Lemma fired_once id s : ts_inv s -> ts_kind s !! id = Some false -> (occurs id (ts_fired s) <= 1)%nat.
Proof. intros Hs Hk. pose proof (tsi_shots _ Hs id Hk). unfold shots in *. lia. Qed.

(** C28. However the service is used, the callback of a one-shot timer is called at
    most once; and while the service runs, that of a timer that is active is
    called, once, when the service is let run. *)
Theorem timeouts_fire_once es id :
  Z.of_nat (length es) < UINT64_MAX - 1 ->
  let s := ts_run TimerSvc_new es in
  ts_kind s !! id = Some false ->
  (occurs id (ts_fired s) <= 1)%nat /\
  (ts_io s = true -> IsTimerActive id s = true -> occurs id (ts_fired (ts_run s (ts_settle s))) = 1%nat).
Proof.
  intros Hn s Hk. assert (ts_inv s) as Hs by by apply ts_inv_reachable.
  split; [by apply fired_once|]. intros Hio Ha.
  destruct (ts_inv_strand (ts_settle s) s (settle_strand s) Hs) as [Hs' Hk'].
  pose proof (fired_once id _ Hs' ltac:(by rewrite Hk')).
  assert (id ∈ ts_fired (ts_run s (ts_settle s))) as Hin%occurs_elem; [|lia].
  apply bool_decide_eq_true in Ha as [_ Hid]. apply settle_calls; [done|]. split_and!; [done| |by apply Hs].
  intros Hc. by apply (tsi_cancel _ Hs) in Hc.
Qed.

Lemma timeouts_fire_once_witness :
  let s := ts_run TimerSvc_new [TsStart; TsSet true; TsSet false; TsSet false; TsCancel 2; TsExpires 1; TsRun] in
  (occurs 3%Z (ts_fired s) <= 1)%nat /\
  (ts_io s = true -> IsTimerActive 3 s = true -> occurs 3 (ts_fired (ts_run s (ts_settle s))) = 1%nat).
Proof. apply timeouts_fire_once; [done|reflexivity]. Defined.

(** ** Cancelling *)

(** A cancel that the strand runs behind the expiry of an interval timer, but
    before the handler of that expiry, is lost: the timer is called and armed
    again, and can no longer be cancelled. *)
Lemma cancelled_interval_survives :
  let s := ts_run TimerSvc_new [TsStart; TsSet true; TsCancel 1; TsExpires 1; TsRun; TsRun; TsRun] in
  ts_fired s = [1] /\ ts_waits s = [1] /\ ts_queue s = [] /\ (CancelTimer 1 s).1 = false.
Proof. split_and!; vm_compute; reflexivity. Qed.

(** The same order calls the callback of a one-shot timer that was cancelled. *)
Lemma cancelled_timeout_fires :
  let s := ts_run TimerSvc_new [TsStart; TsSet false] in
  (CancelTimer 1 s).1 = true /\
  ts_fired (ts_run (CancelTimer 1 s).2 [TsExpires 1; TsRun; TsRun; TsRun]) = [1].
Proof. split; vm_compute; reflexivity. Qed.
