(* ===== verification/AdminServer.v ===== *)
(** * The HTTP server: [src/metrics_http_server.cpp]

    Reading a request, the token that admin endpoints ask for, and the dispatch
    to the handlers a node registers.  A handler is known by its call; what it
    answers is a function of the call. *)

From Stdlib Require Import Ascii.
From S2P Require Import Prelude Types RaftLog Quorum RaftGroup Timers Replicate Membership Text Bytes DenseIndex Disk Wal WalScan Json Identity Config.

(** ** Text *)

(** Text with double quotes, which are written as single ones. *)
Fixpoint quoted (s : string) : string :=
  match s with
  | EmptyString => ""
  | String a s => String (if decide (a = "'"%char) then ascii_of_nat 34 else a) (quoted s)
  end.
Definition newline : string := String (ascii_of_nat 10) "".
Definition crlf : string := String (ascii_of_nat 13) newline.

(** ** Reading a request *)

Definition ExtractPath (request : string) : string :=
  match String.index 0 " " request with
  | None => ""
  | Some start =>
      match String.index (S start) " " request with
      | None => ""
      | Some stop => String.substring (S start) (stop - S start) request
      end
  end.

Definition ExtractMethod (request : string) : string :=
  match String.index 0 " " request with
  | None => ""
  | Some stop => String.substring 0 stop request
  end.

Definition PathWithoutQuery (path : string) : string :=
  match String.index 0 "?" path with
  | None => path
  | Some query => String.substring 0 query path
  end.

Definition kGroupIdPrefix : string := "group_id=".

Definition ExtractGroupIdFromQuery (path : string) : Z :=
  match String.index 0 "?" path with
  | None => 0
  | Some query =>
      let params := substr_from (S query) path in
      match String.index 0 kGroupIdPrefix params with
      | None => 0
      | Some found =>
          let start := (found + String.length kGroupIdPrefix)%nat in
          let text := match String.index start "&" params with
                      | None => substr_from start params
                      | Some stop => String.substring start (stop - start) params
                      end in
          default 0 (stoull text)
      end
  end.

Definition ExtractBody (request : string) : string :=
  match String.index 0 (crlf +:+ crlf) request with
  | None => ""
  | Some pos => substr_from (pos + 4) request
  end.

Definition kAuthPrefix : string := "Authorization: Bearer ".
Definition ExtractAuthToken (request : string) : string :=
  match String.index 0 kAuthPrefix request with
  | None => ""
  | Some found =>
      let pos := (found + String.length kAuthPrefix)%nat in
      match String.index pos crlf request with
      | None => ""
      | Some stop => String.substring pos (stop - pos) request
      end
  end.

(** The bytes are compared to the end. *)
Fixpoint bytes_differ (diff : Z) (a b : string) : Z :=
  match a, b with
  | String x a, String y b =>
      bytes_differ (Z.lor diff (Z.lxor (Z.of_N (N_of_ascii x)) (Z.of_N (N_of_ascii y)))) a b
  | _, _ => diff
  end.
Definition TimingSafeEqual (a b : string) : bool :=
  if decide (String.length a <> String.length b) then false
  else bool_decide (bytes_differ 0 a b = 0).

Definition IsAdminEndpoint (path method : string) : bool :=
  (bool_decide (path = "/v1/members") && bool_decide (method = "POST")) ||
  (String.prefix "/v1/members/" path && bool_decide (method = "DELETE")) ||
  (bool_decide (path = "/v1/snapshot/trigger") && bool_decide (method = "POST")) ||
  (bool_decide (path = "/v1/leadership/transfer") && bool_decide (method = "POST")) ||
  bool_decide (PathWithoutQuery path = "/v1/config").

(** The text behind the last slash. *)
Fixpoint after_last_slash (s : string) : option string :=
  match s with
  | EmptyString => None
  | String a s' =>
      match after_last_slash s' with
      | Some r => Some r
      | None => if decide (a = "/"%char) then Some s' else None
      end
  end.

(** ** The server *)

Inductive HandlerCall :=
| HMetrics
| HStatus
| HAddMember (node_id : Z) (addr : string) (group_id : Z)
| HRemoveMember (node_id group_id : Z)
| HTriggerSnapshot (group_id : Z)
| HTransferLeadership (target_node_id group_id : Z)
| HConfig (group_id : Z)
| HUpdateConfig (json : string) (group_id : Z).

(** Which handlers are registered. *)
Record MetricsHttpServer := mkMetricsHttpServer {
  admin_token_ : string;
  registry_ : bool;
  status_provider_ : bool;
  add_member_handler_ : bool;
  remove_member_handler_ : bool;
  trigger_snapshot_handler_ : bool;
  transfer_leadership_handler_ : bool;
  config_provider_ : bool;
  config_updater_ : bool
}.

(** What the server does with a request: the handler it calls, if any, and the
    response, or [None] for an exception. *)
Record Response := mkResponse {
  rs_body : string;
  rs_status_line : string;
  rs_content_type : string;
  rs_is_sse : bool
}.
Definition HttpAnswer : Type := option HandlerCall * option Response.

Definition status_line (text : string) : string := "HTTP/1.1 " +:+ text +:+ crlf.
Definition json_type : string := "application/json" +:+ crlf.
Definition responds (status body : string) : option Response :=
  Some (mkResponse body (status_line status) json_type false).

Section server.
Context `{!JsonText} (answer : HandlerCall -> string).

(** [json{{k1, v1}, {k2, v2}}.dump() + newline]: [None] for the exception. *)
Definition dump_pair (k1 v1 k2 v2 : string) : option string :=
  match jt_dump (json_object [(k1, Jstr v1); (k2, Jstr v2)]) with
  | inr text => Some (text +:+ newline)
  | inl _ => None
  end.
Definition bad_request (what : string) : option Response :=
  body ← dump_pair "error" "BAD_REQUEST" "message" what; responds "400 Bad Request" body.

(** [value("group_id", 0)], an [int]; [None] for the exception. *)
Definition group_id_value (j : json) : option Z :=
  match j with
  | Jobj l => match members_get "group_id" l with None => Some 0 | Some v => u64 <$> to_i32 v end
  | _ => None
  end.
Definition group_id_of_body (body : string) : Z :=
  match jt_parse body with inl _ => 0 | inr j => default 0 (group_id_value j) end.

(** [if (j.contains(key)) x = j[key];] with the text of the exception *)
Definition optional_field {A} (conv : json -> option A) (j : json) (key : string) (d : A) : string + A :=
  match json_get j key with
  | None => inr d
  | Some v => match conv v with Some a => inr a | None => inl jt_type_error end
  end.

(** The call of a handler, and the response with what it answers. *)
Definition calls (status : string) (h : HandlerCall) : HttpAnswer := (Some h, responds status (answer h)).

(** A comparison with -1; [Jfloat] stands for numbers with a fraction here. *)
Definition has_leader (j : json) : bool :=
  match json_get j "role" with
  | Some (Jstr "Leader") => true
  | _ => match json_get j "leader_id" with
         | None | Some Jnull | Some (Jint (-1)) => false
         | Some _ => true
         end
  end.

Definition readyz (sv : MetricsHttpServer) : HttpAnswer :=
  if status_provider_ sv then
    (Some HStatus,
     match jt_parse (answer HStatus) with
     | inl what => body ← dump_pair "status" "error" "message" what; responds "500 Internal Server Error" body
     | inr j =>
         if has_leader j then responds "200 OK" (quoted "{'status':'ready'}" +:+ newline)
         else responds "503 Service Unavailable" (quoted "{'status':'not_ready'}" +:+ newline)
     end)
  else (None, responds "200 OK" (quoted "{'status':'unknown'}" +:+ newline)).

Definition post_members (body : string) : HttpAnswer :=
  match jt_parse body with
  | inl what => (None, bad_request what)
  | inr j =>
      match optional_field to_i32 j "node_id" (-1) with
      | inl what => (None, bad_request what)
      | inr node_id =>
          match optional_field to_str j "addr" "" with
          | inl what => (None, bad_request what)
          | inr addr => calls "202 Accepted" (HAddMember node_id addr (group_id_of_body body))
          end
      end
  end.

Definition delete_member (path : string) : HttpAnswer :=
  let '(group_id, path_no_query) :=
    match String.index 0 "?" path with
    | None => (0, path)
    | Some q =>
        let query := substr_from (S q) path in
        (if String.prefix kGroupIdPrefix query
         then default 0 (stoull (substr_from (String.length kGroupIdPrefix) query)) else 0,
         String.substring 0 q path)
    end in
  let remove node_id := calls "202 Accepted" (HRemoveMember node_id group_id) in
  match after_last_slash path_no_query with
  | None | Some EmptyString => remove (-1)
  | Some text =>
      match stoi text with
      | Some (node_id, _) => remove node_id
      | None => (None, responds "400 Bad Request"
                         (quoted "{'error':'BAD_REQUEST','message':'invalid node_id'}" +:+ newline))
      end
  end.

Definition post_transfer (body : string) : HttpAnswer :=
  match jt_parse body with
  | inl what => (None, bad_request what)
  | inr j =>
      match optional_field to_i32 j "target_node_id" (-1) with
      | inl what => (None, bad_request what)
      | inr target_id =>
          match group_id_value j with
          | None => (None, bad_request jt_type_error)
          | Some group_id => calls "202 Accepted" (HTransferLeadership target_id group_id)
          end
      end
  end.

Definition unauthorized : option Response :=
  body ← dump_pair "error" "UNAUTHORIZED" "message" "Invalid or missing admin token";
  responds "401 Unauthorized" body.

(** The endpoints, once the token has been checked. *)
Definition route (sv : MetricsHttpServer) (request : string) : HttpAnswer :=
  let path := ExtractPath request in
  let path_no_query := PathWithoutQuery path in
  let body := ExtractBody request in
  let at_ p := bool_decide (path = p) in
  let starts m := String.prefix m request in
  if at_ "/metrics" && registry_ sv then
    (Some HMetrics, Some (mkResponse (answer HMetrics) (status_line "200 OK") ("text/plain; version=0.0.4" +:+ crlf) false))
  else if at_ "/healthz" || at_ "/livez" then
    (None, responds "200 OK" (quoted "{'status':'alive'}" +:+ newline))
  else if at_ "/readyz" then readyz sv
  else if at_ "/v1/status" then
    if status_provider_ sv then calls "200 OK" HStatus
    else (None, responds "200 OK" (quoted "{'error':'status_provider_not_set'}" +:+ newline))
  else if at_ "/v1/members" && starts "POST" && add_member_handler_ sv then post_members body
  else if String.prefix "/v1/members/" path && starts "DELETE" && remove_member_handler_ sv then delete_member path
  else if at_ "/v1/snapshot/trigger" && starts "POST" && trigger_snapshot_handler_ sv then
    calls "202 Accepted" (HTriggerSnapshot (group_id_of_body body))
  else if at_ "/v1/leadership/transfer" && starts "POST" && transfer_leadership_handler_ sv then post_transfer body
  else if bool_decide (path_no_query = "/v1/config") && starts "GET" && config_provider_ sv then
    calls "200 OK" (HConfig (ExtractGroupIdFromQuery path))
  else if bool_decide (path_no_query = "/v1/config") && starts "PATCH" && config_updater_ sv then
    calls "200 OK" (HUpdateConfig body (group_id_of_body body))
  else
    (None, Some (mkResponse "" (status_line "404 Not Found") json_type
                   (at_ "/v1/events" && bool_decide (ExtractMethod request = "GET")))).

Definition BuildResponse (sv : MetricsHttpServer) (request : string) : HttpAnswer :=
  if bool_decide (admin_token_ sv <> "") &&
     IsAdminEndpoint (PathWithoutQuery (ExtractPath request)) (ExtractMethod request) &&
     negb (TimingSafeEqual (ExtractAuthToken request) (admin_token_ sv))
  then (None, unauthorized)
  else route sv request.
End server.

(** ** The token *)

Lemma lxor_byte_0 (x y : ascii) :
  Z.lxor (Z.of_N (N_of_ascii x)) (Z.of_N (N_of_ascii y)) = 0 <-> x = y.
Proof.
  rewrite Z.lxor_eq_0_iff. split; [|by intros ->]. intros H%N2Z.inj.
  rewrite <- (ascii_N_embedding x), <- (ascii_N_embedding y). by rewrite H.
Qed.

Lemma bytes_differ_0 diff a b :
  String.length a = String.length b -> bytes_differ diff a b = 0 <-> diff = 0 /\ a = b.
Proof.
  revert diff b. induction a as [|x a IH]; intros diff [|y b] Hl; simpl in *; try done; [naive_solver|].
  rewrite IH by congruence. rewrite Z.lor_eq_0_iff, lxor_byte_0. naive_solver.
Qed.

(** The comparison that looks at every byte is equality. *)
Lemma TimingSafeEqual_eq a b : TimingSafeEqual a b = bool_decide (a = b).
Proof.
  unfold TimingSafeEqual. destruct (decide (String.length a <> String.length b)) as [Hn|Hl].
  - symmetry. apply bool_decide_eq_false. congruence.
  - apply dec_stable in Hl. apply bool_decide_ext. rewrite bytes_differ_0 by done. tauto.
Qed.

(** A call that changes the cluster or its configuration, or shows the latter. *)
Definition admin_call (h : HandlerCall) : bool :=
  match h with HMetrics | HStatus => false | _ => true end.

(** The method is not one of the two that the endpoints ask for with more letters
    behind it. *)
Definition plain_method (request : string) : Prop :=
  (String.prefix "POST" request = true -> ExtractMethod request = "POST") /\
  (String.prefix "DELETE" request = true -> ExtractMethod request = "DELETE").

Lemma prefix_split p s : String.prefix p s = true -> exists r, s = p +:+ r.
Proof.
  revert s. induction p as [|a p IH]; intros s Hp; [by exists s|]. destruct s as [|b s]; [done|].
  simpl in Hp. destruct (ascii_dec a b) as [<-|]; [|done]. destruct (IH s Hp) as [r ->]. by exists r.
Qed.

Lemma PathWithoutQuery_cons a s :
  a <> "?"%char -> PathWithoutQuery (String a s) = String a (PathWithoutQuery s).
Proof.
  intros Ha. unfold PathWithoutQuery. cbn [String.index String.prefix].
  destruct (ascii_dec "?" a); [congruence|]. destruct (String.index 0 "?" s); done.
Qed.

Lemma members_without_query path :
  String.prefix "/v1/members/" path = true -> String.prefix "/v1/members/" (PathWithoutQuery path) = true.
Proof.
  intros [r ->]%prefix_split. rewrite !str_app_cons. rewrite !PathWithoutQuery_cons by done.
  apply (prefix_app "/v1/members/" (PathWithoutQuery ("" +:+ r))).
Qed.

Lemma readyz_call `{!JsonText} answer sv h resp : readyz answer sv = (Some h, resp) -> admin_call h = false.
Proof. unfold readyz. destruct (status_provider_ sv); [|done]. by intros [= <- _]. Qed.

(** Past the token, an admin call comes from an admin endpoint. *)
Lemma route_admin_call `{!JsonText} answer sv request h resp :
  plain_method request -> route answer sv request = (Some h, resp) -> admin_call h = true ->
  IsAdminEndpoint (PathWithoutQuery (ExtractPath request)) (ExtractMethod request) = true.
Proof.
  intros [Hpost Hdelete] Hr Hh. unfold route in Hr. unfold IsAdminEndpoint.
  remember (ExtractPath request) as path eqn:Epath. clear Epath.
  destruct (bool_decide (path = "/metrics") && _); [by injection Hr as <- _|].
  destruct (_ || _); [done|].
  destruct (bool_decide (path = "/readyz")); [by apply readyz_call in Hr; congruence|].
  destruct (bool_decide (path = "/v1/status")).
  { destruct (status_provider_ sv); [by injection Hr as <- _|done]. }
  destruct (bool_decide (path = "/v1/members") && _ && _) eqn:E1.
  { apply andb_true_iff in E1 as [[->%bool_decide_eq_true Hs]%andb_true_iff _]. by rewrite (Hpost Hs). }
  destruct (String.prefix "/v1/members/" path && _ && _) eqn:E2.
  { apply andb_true_iff in E2 as [[Hp%members_without_query Hs]%andb_true_iff _]. rewrite Hp, (Hdelete Hs).
    by rewrite !orb_true_r. }
  destruct (bool_decide (path = "/v1/snapshot/trigger") && _ && _) eqn:E3.
  { apply andb_true_iff in E3 as [[->%bool_decide_eq_true Hs]%andb_true_iff _]. by rewrite (Hpost Hs). }
  destruct (bool_decide (path = "/v1/leadership/transfer") && _ && _) eqn:E4.
  { apply andb_true_iff in E4 as [[->%bool_decide_eq_true Hs]%andb_true_iff _]. by rewrite (Hpost Hs). }
  destruct (bool_decide (PathWithoutQuery path = "/v1/config") && _ && _) eqn:E5.
  { apply andb_true_iff in E5 as [[->%bool_decide_eq_true _]%andb_true_iff _]. by rewrite !orb_true_r. }
  destruct (bool_decide (PathWithoutQuery path = "/v1/config") && String.prefix "PATCH" request && _) eqn:E6; [|done].
  apply andb_true_iff in E6 as [[->%bool_decide_eq_true _]%andb_true_iff _]. by rewrite !orb_true_r.
Qed.

(** With a token configured, a request with a plain method reaches a handler that
    changes or shows the cluster's configuration only if it carries the token. *)
Theorem admin_needs_token `{!JsonText} answer sv request h resp :
  admin_token_ sv <> "" ->
  plain_method request ->
  BuildResponse answer sv request = (Some h, resp) ->
  admin_call h = true ->
  ExtractAuthToken request = admin_token_ sv.
Proof.
  intros Ht Hm Hb Hh. unfold BuildResponse in Hb. rewrite TimingSafeEqual_eq, bool_decide_eq_true_2 in Hb by done.
  destruct (decide (ExtractAuthToken request = admin_token_ sv)) as [|Hne]; [done|].
  rewrite (bool_decide_eq_false_2 (_ = admin_token_ sv)) in Hb by done.
  destruct (IsAdminEndpoint _ _) eqn:Ha; [done|]. simpl in Hb.
  by rewrite (route_admin_call answer sv request h resp) in Ha.
Qed.

(** More letters behind the method leave the endpoint and skip the token. *)
Lemma longer_method_skips_token `{!JsonText} answer sv :
  remove_member_handler_ sv = true ->
  BuildResponse answer sv ("DELETEX /v1/members/2 HTTP/1.1" +:+ crlf +:+ crlf) =
    calls answer "202 Accepted" (HRemoveMember 2 0).
Proof.
  intros Hr. unfold BuildResponse.
  assert (IsAdminEndpoint (PathWithoutQuery (ExtractPath ("DELETEX /v1/members/2 HTTP/1.1" +:+ crlf +:+ crlf)))
    (ExtractMethod ("DELETEX /v1/members/2 HTTP/1.1" +:+ crlf +:+ crlf)) = false) as -> by reflexivity.
  rewrite andb_false_r. simpl. unfold route. rewrite Hr.
  destruct (registry_ sv); reflexivity.
Qed.

(** ** An admin request is served *)

(** A text without a given character. *)
Fixpoint avoids (c : ascii) (s : string) : bool :=
  match s with
  | EmptyString => true
  | String a s => bool_decide (a <> c) && avoids c s
  end.

Lemma index_skip c pat t s k :
  avoids c t = true -> String.index 0 (String c pat) s = Some k ->
  String.index 0 (String c pat) (t +:+ s) = Some (String.length t + k)%nat.
Proof.
  intros Ht Hk. induction t as [|a t IH]; [done|].
  simpl in Ht. apply andb_true_iff in Ht as [Ha%bool_decide_eq_true Ht]. rewrite str_app_cons.
  cbn [String.index String.prefix String.length]. destruct (ascii_dec c a); [congruence|]. by rewrite IH.
Qed.

Lemma index_here c pat rest : String.index 0 (String c pat) (String c pat +:+ rest) = Some 0%nat.
Proof. rewrite str_app_cons. cbn [String.index]. by rewrite <- str_app_cons, prefix_app. Qed.

Lemma index_first c pat t rest :
  avoids c t = true ->
  String.index 0 (String c pat) (t +:+ String c pat +:+ rest) = Some (String.length t).
Proof. intros Ht. rewrite (index_skip _ _ _ _ 0) by (done || apply index_here). f_equal. lia. Qed.

Lemma index_behind pre pat s k :
  String.index 0 pat s = Some k -> String.index (String.length pre) pat (pre +:+ s) = Some (String.length pre + k)%nat.
Proof.
  intros Hk. induction pre as [|a pre IH]; [done|]. rewrite str_app_cons. cbn [String.index String.length].
  by rewrite IH.
Qed.

Definition carriage_return : ascii := ascii_of_nat 13.
Definition request_line : string := "POST /v1/members HTTP/1.1".
Definition request_head : string := request_line +:+ crlf +:+ kAuthPrefix.
(** A request to add a member, as a client sends it. *)
Definition member_request (token body : string) : string :=
  request_head +:+ token +:+ crlf +:+ crlf +:+ body.

Lemma member_request_token token body :
  avoids carriage_return token = true -> ExtractAuthToken (member_request token body) = token.
Proof.
  intros Ht. unfold ExtractAuthToken, member_request.
  set (s := token +:+ crlf +:+ crlf +:+ body).
  assert (String.index 0 kAuthPrefix (request_head +:+ s) = Some 27%nat) as ->.
  { unfold request_head. rewrite !str_app_assoc, <- (str_app_assoc request_line). by apply (index_first "A"). }
  change (27 + String.length kAuthPrefix)%nat with (String.length request_head).
  rewrite (index_behind request_head crlf s (String.length token)) by by apply index_first.
  replace (String.length request_head + String.length token - String.length request_head)%nat
    with (String.length token) by lia.
  rewrite substring_after. apply substring_app.
Qed.

Lemma member_request_body token body :
  avoids carriage_return token = true -> ExtractBody (member_request token body) = body.
Proof.
  intros Ht. unfold ExtractBody, member_request. set (s := token +:+ crlf +:+ crlf +:+ body).
  assert (String.index 0 (crlf +:+ crlf) s = Some (String.length token)) as Hi.
  { unfold s. rewrite <- (str_app_assoc crlf crlf body). by apply (index_first carriage_return). }
  assert (String.index 0 (crlf +:+ crlf) (request_head +:+ s) =
    Some (String.length request_head + String.length token)%nat) as ->.
  { unfold request_head. rewrite !str_app_assoc.
    assert (String.index 0 (crlf +:+ crlf) (crlf +:+ kAuthPrefix +:+ s) = Some (24 + String.length token)%nat) as Hj.
    { change (crlf +:+ kAuthPrefix +:+ s) with (String carriage_return ((newline +:+ kAuthPrefix) +:+ s)).
      pose proof (index_skip carriage_return _ (newline +:+ kAuthPrefix) s _ eq_refl Hi) as Hk.
      change (String carriage_return _) with (crlf +:+ crlf) in Hk at 1. cbn [String.index]. by rewrite Hk. }
    exact (index_skip carriage_return _ request_line _ _ eq_refl Hj). }
  assert (request_head +:+ s = (request_head +:+ token +:+ crlf +:+ crlf) +:+ body) as ->
    by (unfold s; by rewrite !str_app_assoc).
  replace (String.length request_head + String.length token + 4)%nat
    with (String.length (request_head +:+ token +:+ crlf +:+ crlf)) by (rewrite !length_str_app; done).
  apply substr_from_app.
Qed.

Lemma i32_small z : 0 <= z < 2 ^ 31 -> i32 z = z.
Proof. intros Hz. unfold i32. rewrite Z.mod_small by lia. by rewrite decide_True by lia. Qed.

Definition member_json (node_id : Z) (addr : string) (group_id : Z) : json :=
  json_object [("node_id", Jint node_id); ("addr", Jstr addr); ("group_id", Jint group_id)].

(** A request to add a member that carries the token calls the handler with the
    member and group it names, whatever the token is, as long as it fits in a
    header. *)
Theorem member_request_served `{!JsonText, !JsonTextLaws} answer sv node_id addr group_id body :
  avoids carriage_return (admin_token_ sv) = true ->
  add_member_handler_ sv = true ->
  0 <= node_id < 2 ^ 31 -> 0 <= group_id < 2 ^ 31 -> utf8 addr = true ->
  jt_dump (member_json node_id addr group_id) = inr body ->
  BuildResponse answer sv (member_request (admin_token_ sv) body) =
    calls answer "202 Accepted" (HAddMember node_id addr group_id).
Proof.
  intros Ht Hadd Hn Hg Hu Hb.
  assert (jt_parse body = inr (member_json node_id addr group_id)) as Hp.
  { destruct (jt_round_trip (member_json node_id addr group_id)) as (s & Hs & Hp); [| |congruence].
    - simpl. rewrite !bool_decide_eq_true_2 by (unfold UINT64_MAX; lia). done.
    - simpl. by rewrite Hu. }
  unfold BuildResponse. rewrite TimingSafeEqual_eq, member_request_token, (bool_decide_eq_true_2 (_ = _)) by done.
  simpl negb. rewrite andb_false_r. unfold route. rewrite member_request_body by done.
  assert (ExtractPath (member_request (admin_token_ sv) body) = "/v1/members") as -> by reflexivity.
  assert (String.prefix "POST" (member_request (admin_token_ sv) body) = true) as -> by reflexivity.
  rewrite Hadd. cbn [andb orb]. rewrite !(bool_decide_eq_false_2 ("/v1/members" = _)) by done.
  rewrite bool_decide_eq_true_2 by done. cbn [andb orb].
  unfold post_members, group_id_of_body. rewrite Hp.
  change (group_id_value (member_json node_id addr group_id)) with (Some (u64 (i32 group_id))).
  change (optional_field to_i32 (member_json node_id addr group_id) "node_id" (-1)) with (@inr string Z (i32 node_id)).
  change (optional_field to_str (member_json node_id addr group_id) "addr" "") with (@inr string string addr).
  simpl. by rewrite !i32_small, u64_small by (unfold is_u64, UINT64_MAX in *; lia).
Qed.

Lemma member_request_served_witness :
  let sv := mkMetricsHttpServer "secret" true true true true true true true true in
  exists body,
    @BuildResponse PlainText.text (fun _ => "{}") sv (member_request "secret" body) =
      calls (fun _ => "{}") "202 Accepted" (HAddMember 4 "10.0.0.4:8001" 7).
Proof.
  destruct (@jt_round_trip PlainText.text PlainText.laws (member_json 4 "10.0.0.4:8001" 7)) as (body & Hd & _); [reflexivity|reflexivity|].
  exists body. apply (@member_request_served PlainText.text PlainText.laws _ (mkMetricsHttpServer "secret" true true true true true true true true) 4 "10.0.0.4:8001" 7);
    [reflexivity|reflexivity|lia|lia|reflexivity|exact Hd].
Defined.

Lemma admin_needs_token_witness :
  let request := "DELETE /v1/members/2 HTTP/1.1" +:+ crlf +:+ "Authorization: Bearer secret" +:+ crlf +:+ crlf in
  ExtractAuthToken request = "secret".
Proof.
  apply (@admin_needs_token PlainText.text (fun _ => "{}")
    (mkMetricsHttpServer "secret" true true true true true true true true) _ (HRemoveMember 2 0)
    (responds "202 Accepted" "{}")); [done|split; done|vm_compute; reflexivity|done].
Defined.
