(* ===== verification/RateLimit.v ===== *)
(** * Requests and events of the HTTP server: [src/metrics_http_server.cpp],
    [src/sse_connection.cpp]

    The sliding window that limits the requests of a client, the text of a
    response, and the connection that carries the stream of events. *)

From Stdlib Require Import Ascii Sorted.
From S2P Require Import Prelude Types RaftLog Quorum RaftGroup Timers Replicate Membership Text Bytes DenseIndex Disk Wal WalScan Json Identity Config AdminServer.

(** ** The window *)

Definition kMaxRequestsPerSecond : nat := 10.
(** One second, in nanoseconds. *)
Definition kRateLimitWindow : Z := 1000000000.

Notation Limiter := (gmap string (list Z)) (only parsing).

Fixpoint drop_old (now : Z) (timestamps : list Z) : list Z :=
  match timestamps with
  | t :: rest => if decide (t + kRateLimitWindow < now) then drop_old now rest else timestamps
  | [] => []
  end.

Definition CheckRateLimit (client_ip : string) (now : Z) (l : Limiter) : bool * Limiter :=
  let timestamps := drop_old now (default [] (l !! client_ip)) in
  if decide (kMaxRequestsPerSecond <= length timestamps)%nat
  then (false, <[client_ip := timestamps]> l)
  else (true, <[client_ip := timestamps ++ [now]]> l).

Definition CleanupRateLimit (now : Z) (l : Limiter) : Limiter :=
  omap (fun timestamps => match drop_old now timestamps with [] => None | ts => Some ts end) l.

(** Requests and clean-ups as they come: the times of the requests of [ip] that
    were accepted, and the table. *)
Inductive LimitEvent :=
| LRequest (client_ip : string) (now : Z)
| LCleanup (now : Z).
Definition event_time (e : LimitEvent) : Z := match e with LRequest _ now | LCleanup now => now end.

Fixpoint accepted (ip : string) (es : list LimitEvent) (l : Limiter) : list Z * Limiter :=
  match es with
  | [] => ([], l)
  | LRequest client_ip now :: es =>
      let '(ok, l) := CheckRateLimit client_ip now l in
      let '(ts, l) := accepted ip es l in
      (if ok && bool_decide (client_ip = ip) then now :: ts else ts, l)
  | LCleanup now :: es => accepted ip es (CleanupRateLimit now l)
  end.

Definition in_window (t : Z) (ts : list Z) : list Z := filter (fun s => t <= s <= t + kRateLimitWindow) ts.

(** Those the table has dropped are too old for any window that ends now. *)
Definition covers (now : Z) (past kept : list Z) : Prop :=
  exists old, past = old ++ kept /\ Forall (fun s => s + kRateLimitWindow < now) old.

Lemma covers_drop now now' past kept :
  now <= now' -> covers now past kept -> covers now' past (drop_old now' kept).
Proof.
  intros Hle (old & -> & Hold). unfold covers. revert old Hold. induction kept as [|t kept IH]; intros old Hold; simpl.
  - exists old. split; [done|]. eapply list.Forall_impl; [exact Hold|]. simpl. lia.
  - destruct (decide (t + kRateLimitWindow < now')) as [Ht|].
    + destruct (IH []) as (old' & Heq & Hold'); [constructor|]. exists (old ++ t :: old'). simpl in Heq.
      split; [rewrite <- app_assoc; simpl; by rewrite <- Heq|]. apply Forall_app. split; [|by constructor].
      eapply list.Forall_impl; [exact Hold|]. simpl. lia.
    + exists old. split; [done|]. eapply list.Forall_impl; [exact Hold|]. simpl. lia.
Qed.

Lemma in_window_covered now past kept t :
  covers now past kept -> now <= t + kRateLimitWindow -> (length (in_window t past) <= length kept)%nat.
Proof.
  intros (old & -> & Hold) Hn. unfold in_window. rewrite list.filter_app, length_app.
  assert (filter (fun s => t <= s <= t + kRateLimitWindow) old = []) as ->.
  { induction Hold as [|s old Hs _ IH]; [done|]. rewrite filter_cons, decide_False by lia. done. }
  simpl. apply length_filter.
Qed.

Lemma in_window_app t a b : in_window t (a ++ b) = in_window t a ++ in_window t b.
Proof. apply list.filter_app. Qed.

(** The times accepted so far, [past], have at most ten in a window, and the
    table has the recent ones. *)
Definition limit_inv (ip : string) (now : Z) (past : list Z) (l : Limiter) : Prop :=
  covers now past (default [] (l !! ip)) /\
  forall t, (length (in_window t past) <= kMaxRequestsPerSecond)%nat.

Lemma limit_inv_request ip client_ip now now' past l :
  now <= now' -> limit_inv ip now past l ->
  let '(ok, l') := CheckRateLimit client_ip now' l in
  limit_inv ip now' (past ++ if ok && bool_decide (client_ip = ip) then [now'] else []) l'.
Proof.
  intros Hle [Hc Hw]. unfold CheckRateLimit. destruct (decide (client_ip = ip)) as [->|Hne].
  - pose proof (covers_drop now now' past _ Hle Hc) as Hd.
    destruct (decide _) as [Hfull|Hroom]; simpl.
    + rewrite app_nil_r. split; [by rewrite lookup_insert_eq|done].
    + rewrite bool_decide_eq_true_2 by done. split.
      * rewrite lookup_insert_eq. simpl. destruct Hd as (old & Heq & Hold). exists old. split; [by rewrite app_assoc, <- Heq|done].
      * intros t. rewrite in_window_app, length_app. destruct (decide (t <= now' <= t + kRateLimitWindow)) as [Hin|Hout].
        -- pose proof (in_window_covered now' past _ t Hd ltac:(lia)).
           assert (length (in_window t [now']) <= 1)%nat by apply (length_filter _ [now']). lia.
        -- unfold in_window at 2. rewrite filter_cons, decide_False by done. simpl. specialize (Hw t). lia.
  - assert (covers now' past (default [] (l !! ip))) as Hc'.
    { destruct Hc as (old & -> & Hold). exists old. split; [done|]. eapply list.Forall_impl; [exact Hold|]. simpl. lia. }
    destruct (decide (kMaxRequestsPerSecond <= _)%nat); rewrite ?(bool_decide_eq_false_2 (client_ip = ip)), ?andb_false_r, app_nil_r by done;
      (split; [by rewrite lookup_insert_ne|done]).
Qed.

Lemma limit_inv_cleanup ip now now' past l :
  now <= now' -> limit_inv ip now past l -> limit_inv ip now' past (CleanupRateLimit now' l).
Proof.
  intros Hle [Hc Hw]. split; [|done]. unfold CleanupRateLimit. rewrite lookup_omap.
  pose proof (covers_drop now now' past _ Hle Hc) as Hd. destruct (l !! ip) as [ts|]; simpl in *; [|done].
  by destruct (drop_old now' ts).
Qed.

Lemma limit_inv_accepted ip es now past l :
  Sorted Z.le (now :: map event_time es) -> limit_inv ip now past l ->
  forall t, (length (in_window t (past ++ (accepted ip es l).1)) <= kMaxRequestsPerSecond)%nat.
Proof.
  revert now past l. induction es as [|e es IH]; intros now past l Hs Hl t; simpl in *.
  - rewrite app_nil_r. apply Hl.
  - inversion Hs as [|? ? Hs' Hle]; subst. inversion Hle; subst. destruct e as [client_ip now'|now']; simpl in *.
    + pose proof (limit_inv_request ip client_ip now now' past l ltac:(done) Hl) as Hi.
      destruct (CheckRateLimit client_ip now' l) as [ok l'].
      pose proof (IH now' _ l' Hs' Hi t) as Ht. destruct (accepted ip es l') as [ts l'']. simpl in *.
      destruct (ok && bool_decide (client_ip = ip)); simpl; rewrite <- app_assoc in Ht; done.
    + eapply IH; [exact Hs'|]. by eapply limit_inv_cleanup.
Qed.

(** C33. No second of time, wherever it begins, sees more than ten accepted requests
    of a client. *)
Theorem rate_is_limited ip es t :
  Sorted Z.le (map event_time es) ->
  (length (in_window t (accepted ip es ∅).1) <= 10)%nat.
Proof.
  intros Hs. destruct es as [|e es]; [simpl; lia|].
  apply (limit_inv_accepted ip (e :: es) (event_time e) [] ∅).
  - simpl in *. constructor; [done|]. by constructor.
  - split; [|intros u; unfold kMaxRequestsPerSecond; simpl; lia]. exists []. split; [done|constructor].
Qed.

Lemma rate_is_limited_witness :
  let es := map (fun i => LRequest "10.0.0.9" (Z.of_nat i)) (seq 0 12) ++ [LCleanup 2000000000] in
  (length (in_window 0 (accepted "10.0.0.9" es ∅).1) <= 10)%nat.
Proof.
  apply rate_is_limited. simpl.
  repeat first [apply Sorted_nil|apply HdRel_nil|apply Sorted_cons|apply HdRel_cons; lia].
Defined.

(** ** Responses *)

Definition http_response (r : Response) : string :=
  rs_status_line r +:+ "Content-Type: " +:+ rs_content_type r +:+
  "Content-Length: " +:+ pretty (Z.of_nat (String.length (rs_body r))) +:+ crlf +:+
  "Connection: close" +:+ crlf +:+ crlf +:+ rs_body r.

Definition rate_limited_body : string :=
  quoted "{'error':'RATE_LIMITED','message':'Too many requests'}" +:+ newline.
Definition rate_limited_response : string :=
  status_line "429 Too Many Requests" +:+ "Content-Type: application/json" +:+ crlf +:+
  "Content-Length: 47" +:+ crlf +:+ "Connection: close" +:+ crlf +:+ crlf +:+ rate_limited_body.

(** What becomes of the data of a connection: a response, a stream of events, or
    an exception. *)
Inductive Served :=
| Replies (text : string)
| Streams
| Throws.

Definition HandleConnection `{!JsonText} (answer : HandlerCall -> string) (sv : MetricsHttpServer)
    (client_ip : string) (now : Z) (request : string) (l : Limiter) : option HandlerCall * Served * Limiter :=
  let '(ok, l) := CheckRateLimit client_ip now l in
  if negb ok then (None, Replies rate_limited_response, l)
  else
    let '(call, response) := BuildResponse answer sv request in
    (call,
     match response with
     | None => Throws
     | Some r => if rs_is_sse r then Streams else Replies (http_response r)
     end, l).

(** The length in the refusal is not that of its body. *)
Lemma refusal_is_cut : String.length rate_limited_body = 55%nat.
Proof. vm_compute. reflexivity. Qed.

(** ** The stream of events *)

Definition kMaxQueueSize : nat := 100.

Inductive SsePost := SpWrite | SpClose.
Inductive SseWrite := SwHeaders | SwEvent.

(** [se_buffer] is the buffer that every write of an event reads from until it
    completes; [se_writes] are the writes under way, [se_sent] the events that
    were handed to the socket. *)
Record Sse := mkSse {
  se_open : bool;
  se_writing : bool;
  se_queue : list string;
  se_buffer : string;
  se_posted : list SsePost;
  se_writes : list SseWrite;
  se_sent : list string
}.
#[global] Instance Sse_eta : Eta Sse := fun r =>
  mkSse (se_open r) (se_writing r) (se_queue r) (se_buffer r) (se_posted r) (se_writes r) (se_sent r).

Definition Sse_new : Sse := mkSse true false [] "" [] [] [].

Definition EnqueueEvent (event_data : string) (c : Sse) : Sse :=
  if negb (se_open c) then c
  else
    let q := if decide (kMaxQueueSize <= length (se_queue c))%nat then tail (se_queue c) else se_queue c in
    let c := c <| se_queue := q ++ [event_data] |> in
    if se_writing c then c
    else c <| se_writing := true |> <| se_posted ::= fun l => l ++ [SpWrite] |>.

Definition sse_start (c : Sse) : Sse := c <| se_writes ::= fun l => l ++ [SwHeaders] |>.
Definition sse_close (c : Sse) : Sse := c <| se_open := false |> <| se_posted ::= fun l => l ++ [SpClose] |>.

Definition sse_DoWrite (c : Sse) : Sse :=
  if negb (se_open c) then c <| se_writing := false |>
  else match se_queue c with
  | [] => c <| se_writing := false |>
  | e :: rest =>
      c <| se_queue := rest |> <| se_buffer := e |> <| se_writes ::= fun l => l ++ [SwEvent] |>
        <| se_sent ::= fun l => l ++ [e] |>
  end.

Definition MarkClosed (c : Sse) : Sse :=
  if se_open c then c <| se_open := false |> <| se_writing := false |> else c.

(** A write completes: that of the headers, or [OnWrite]. *)
Definition sse_written (ok : bool) (c : Sse) : Sse :=
  match se_writes c with
  | [] => c
  | _ :: rest =>
      let c := c <| se_writes := rest |> in
      if ok then sse_DoWrite c else MarkClosed c
  end.

Definition sse_run (c : Sse) : Sse :=
  match se_posted c with
  | [] => c
  | SpWrite :: rest => sse_DoWrite (c <| se_posted := rest |>)
  | SpClose :: rest => c <| se_posted := rest |>
  end.

Inductive SseEvent :=
| SeEnqueue (event_data : string)
| SeStart
| SeRun
| SeWritten (ok : bool)
| SeDisconnect
| SeClose.

Definition sse_step (c : Sse) (e : SseEvent) : Sse :=
  match e with
  | SeEnqueue d => EnqueueEvent d c
  | SeStart => sse_start c
  | SeRun => sse_run c
  | SeWritten ok => sse_written ok c
  | SeDisconnect => MarkClosed c
  | SeClose => sse_close c
  end.
Definition sse_trace (c : Sse) (es : list SseEvent) : Sse := foldl sse_step c es.

Definition enqueued (es : list SseEvent) : list string :=
  es ≫= fun e => match e with SeEnqueue d => [d] | _ => [] end.

Definition sse_inv (c : Sse) (given : list string) : Prop :=
  (length (se_queue c) <= kMaxQueueSize)%nat /\ se_sent c ++ se_queue c `sublist_of` given.

Lemma sse_inv_same c c' given :
  sse_inv c given -> se_queue c' = se_queue c -> se_sent c' = se_sent c -> sse_inv c' given.
Proof. unfold sse_inv. by intros ? -> ->. Qed.

Lemma sse_inv_DoWrite c given : sse_inv c given -> sse_inv (sse_DoWrite c) given.
Proof.
  intros [Hl Hs]. unfold sse_DoWrite. destruct (negb (se_open c)); [by split|].
  destruct (se_queue c) as [|e rest] eqn:Eq; [by apply (sse_inv_same c); [split; rewrite Eq|..]|].
  split; proj_simp; simpl in Hl; [lia|]. by rewrite <- app_assoc.
Qed.

Lemma sse_inv_step c e given :
  sse_inv c given -> sse_inv (sse_step c e) (given ++ enqueued [e]).
Proof.
  intros Hc. destruct e as [d| | |ok| |]; simpl; rewrite ?app_nil_r.
  - destruct Hc as [Hl Hs]. unfold EnqueueEvent. destruct (negb (se_open c)).
    { split; [done|]. by apply sublist_inserts_r. }
    set (q := if decide _ then _ else _).
    assert ((length q < kMaxQueueSize)%nat /\ q `sublist_of` se_queue c) as [Hq Hsub].
    { unfold q, kMaxQueueSize in *. destruct (decide _); [|split; [lia|done]].
      destruct (se_queue c); simpl in *; [lia|]. split; [lia|by constructor]. }
    cbv zeta. destruct (se_writing _); split; proj_simp; rewrite ?length_app; simpl; try lia;
      rewrite app_assoc; apply sublist_app; try done; by trans (se_sent c ++ se_queue c); [apply sublist_app|].
  - by apply (sse_inv_same c).
  - unfold sse_run. destruct (se_posted c) as [|[] rest]; [done|apply sse_inv_DoWrite|]; by apply (sse_inv_same c).
  - unfold sse_written. destruct (se_writes c); [done|]. destruct ok; [apply sse_inv_DoWrite; by apply (sse_inv_same c)|].
    unfold MarkClosed. proj_simp. destruct (se_open c); by apply (sse_inv_same c).
  - unfold MarkClosed. destruct (se_open c); by apply (sse_inv_same c).
  - by apply (sse_inv_same c).
Qed.

(** A stream keeps at most a hundred events waiting, and hands events to the
    socket in the order they came, none twice. *)
Lemma events_bounded_in_order es :
  let c := sse_trace Sse_new es in
  (length (se_queue c) <= 100)%nat /\ se_sent c `sublist_of` enqueued es.
Proof.
  assert (forall es c given, sse_inv c given -> sse_inv (sse_trace c es) (given ++ enqueued es)) as Hrun.
  { clear es. intros es. induction es as [|e es IH]; intros c given Hc; [simpl; by rewrite app_nil_r|].
    assert (enqueued (e :: es) = enqueued [e] ++ enqueued es) as -> by (unfold enqueued; by rewrite <- bind_app).
    rewrite app_assoc. apply IH, sse_inv_step, Hc. }
  destruct (Hrun es Sse_new []) as [Hl Hs]; [split; [simpl; unfold kMaxQueueSize; lia|done]|].
  split; [done|]. trans (se_sent (sse_trace Sse_new es) ++ se_queue (sse_trace Sse_new es)); [|done].
  by apply sublist_inserts_r.
Qed.

(** Events that come before the headers are written start a write of their own
    beside the one that follows the headers: two writes are under way, and the
    second has replaced the buffer of the first. *)
Lemma writes_share_buffer :
  let c := sse_trace Sse_new [SeStart; SeEnqueue "one"; SeEnqueue "two"; SeWritten true; SeRun] in
  se_writes c = [SwEvent; SwEvent] /\ se_sent c = ["one"; "two"] /\ se_buffer c = "two".
Proof. vm_compute. auto. Qed.
