(* ===== verification/AdminHandlers.v ===== *)
(** * The node behind the admin server: [src/raft_node_core.cpp]

    The handlers that [Start] registers with the HTTP server, and the server that
    calls them: a request changes the node the way the operation it names does,
    and a request without the token does not change it.  The text of the metrics
    and the indented form of a value are parameters. *)

From S2P Require Import Prelude Types RuntimeConfig RaftLog Quorum Sessions RaftGroup Timers Replicate.
From S2P Require Import Membership Apply Election Leader Follower Snapshots NodeCore.
From S2P Require Import Text Json Config Peers Transport AdminServer.

(** ** The configuration's library, from JSON values *)

#[global] Instance config_json_lib `{!JsonText} : JsonLib := {|
  RuntimeConfig.json := Json.json;
  json_parse := jt_parse;
  json_contains := json_has;
  json_u32 j key := json_get j key ≫= to_u32;
  json_bool j key := json_get j key ≫= to_bool
|}.

(** ** The node and what its handlers reach *)

Record ServedNode := mkServedNode {
  sn_node : Node;
  sn_network : Transport
}.
#[global] Instance ServedNode_eta : Eta ServedNode := fun r =>
  mkServedNode (sn_node r) (sn_network r).

Definition at_node {A} (m : M A) : Prog ServedNode A := fun s =>
  match m (sn_node s) with
  | Done a n => Done a (s <| sn_node := n |>)
  | Aborted n => Aborted (s <| sn_node := n |>)
  end.

Definition RaftNodeRoleToString (role : RaftNodeRole) : string :=
  match role with FOLLOWER => "Follower" | CANDIDATE => "Candidate" | LEADER => "Leader" end.

(** What a handler returns, or the text of the exception of [dump]. *)
Definition Reply : Type := string + string.

Section handlers.
Context `{!Env, !JsonText} (metrics_text : string) (dump_indented : json -> string) (tls : bool).

Definition dump_object (l : list (string * json)) : Reply := jt_dump (json_object l).
Definition reply_error (error message : string) : list (string * json) :=
  [("error", Jstr error); ("message", Jstr message)].
Definition reply_status (status message : string) : list (string * json) :=
  [("status", Jstr status); ("message", Jstr message)].

Definition leader_hint : M (list (string * json)) :=
  addr ← getg leader_addr_;
  mret (if decide (addr = "") then [] else [("leader_hint", Jstr addr)]).

Definition add_member (node_id : Z) (addr : string) : M Reply :=
  if decide (node_id < 0 \/ addr = "") then mret (dump_object (reply_error "BAD_REQUEST" "Invalid node_id or addr"))
  else
    status ← AddNode node_id addr;
    if status_ok status then mret (dump_object (reply_status "accepted" "Configuration change proposed"))
    else
      hint ← leader_hint;
      mret (dump_object (reply_error "NOT_LEADER" (GetMessage status) ++ hint)).

Definition remove_member (node_id : Z) : M Reply :=
  if decide (node_id < 0) then mret (dump_object (reply_error "BAD_REQUEST" "Invalid node_id"))
  else
    status ← RemoveNode node_id;
    if status_ok status then mret (dump_object (reply_status "accepted" "Node removal proposed"))
    else
      hint ← leader_hint;
      mret (dump_object (reply_error "NOT_LEADER" (GetMessage status) ++ hint)).

Definition error_name (status : Status) : string :=
  if decide (status_code status = kNotLeader) then "NOT_LEADER" else "ERROR".

Definition trigger_snapshot : M Reply :=
  status ← TriggerSnapshot;
  mret (dump_object (if status_ok status then reply_status "triggered" "Snapshot creation initiated"
                     else reply_error (error_name status) (GetMessage status))).

Definition transfer_leadership (target_id : Z) : M Reply :=
  if decide (target_id < 0) then mret (dump_object (reply_error "BAD_REQUEST" "Invalid target_node_id"))
  else
    status ← TransferLeadershipTo target_id;
    if status_ok status then mret (dump_object (reply_status "initiated" "Leadership transfer initiated"))
    else
      hint ← leader_hint;
      mret (dump_object (reply_error (error_name status) (GetMessage status) ++ hint)).

Definition member_entry (g : RaftGroup) (node_id : NodeId) : json :=
  json_object
    [("id", Jint node_id);
     ("addr", match peer_map_ g !! node_id with
              | Some addr => Jstr addr
              | None => if decide (node_id = server_id_ g) then Jstr (listen_addr (config_ g)) else Jnull
              end)].

Definition status_reply : M Reply :=
  running ← IsRunning;
  g ← getg id;
  mret (dump_object
    [("node_id", Jint (server_id_ g)); ("group_id", Jint (group_id_ g));
     ("role", Jstr (RaftNodeRoleToString (role_ g))); ("term", Jint (current_term_ g));
     ("leader_id", Jint (leader_id_ g)); ("leader_addr", Jstr (leader_addr_ g));
     ("commit_index", Jint (commit_index_ g)); ("last_log_index", Jint (GetLastLogInfo (log_ g)).1);
     ("running", Jbool running);
     ("cluster_config",
      json_object [("version", Jint (version (cluster_config_ g)));
                   ("nodes", Jarr (map (member_entry g) (nodes (cluster_config_ g))))]);
     ("last_applied", Jint (last_applied_ g))]).

(** [RuntimeConfig::ToJson] up to the printing. *)
Definition config_object (v : RuntimeConfigValues) : json :=
  json_object
    [("election_timeout_ms", Jint (election_timeout_ms v));
     ("heartbeat_interval_ms", Jint (heartbeat_interval_ms v));
     ("max_entries_per_append", Jint (max_entries_per_append v));
     ("rpc_timeout_ms", Jint (rpc_timeout_ms v));
     ("snapshot_threshold_entries", Jint (snapshot_threshold_entries v));
     ("snapshot_threshold_bytes", Jint (snapshot_threshold_bytes v));
     ("snapshot_check_interval_ms", Jint (snapshot_check_interval_ms v));
     ("max_retry_attempts", Jint (max_retry_attempts v));
     ("base_retry_delay_ms", Jint (base_retry_delay_ms v));
     ("max_retry_delay_ms", Jint (max_retry_delay_ms v));
     ("log_retention_entries", Jint (log_retention_entries v));
     ("max_snapshot_size_bytes", Jint (max_snapshot_size_bytes v));
     ("propose_timeout_ms", Jint (propose_timeout_ms v));
     ("leader_lease_enabled", Jbool (leader_lease_enabled v));
     ("max_pipeline_window", Jint (max_pipeline_window v));
     ("transport_batching_enabled", Jbool (transport_batching_enabled v))].

(** The values that a reset returns to are not read; the exception of a
    conversion leaves the values as they were. *)
Definition UpdateRuntimeConfig (text : string) : M Status := fun n =>
  match UpdateFromJson text (RuntimeConfig_new (runtime_config_ (group_ n))) with
  | Done status c => Done status (n <| group_ ::= fun g => g <| runtime_config_ := values_ c |> |>)
  | Aborted _ => Aborted n
  end.

Definition updated_text : string :=
  quoted "{'status':'updated','message':'Configuration updated successfully'}".

Definition update_config (text : string) : Prog ServedNode Reply :=
  old_cfg ← gets (fun s => runtime_config_ (group_ (sn_node s)));
  status ← at_node (UpdateRuntimeConfig text);
  if status_ok status then
    new_cfg ← gets (fun s => runtime_config_ (group_ (sn_node s)));
    when (bool_decide (transport_batching_enabled new_cfg <> transport_batching_enabled old_cfg))
      (modify (fun s => s <| sn_network ::= SetBatchingEnabled tls (transport_batching_enabled new_cfg) |>)) ;;
    mret (inr updated_text)
  else mret (dump_object (reply_error "INVALID_CONFIG" (GetMessage status))).

Definition run_handler (h : HandlerCall) : Prog ServedNode Reply :=
  match h with
  | HMetrics => mret (inr metrics_text)
  | HStatus => at_node status_reply
  | HAddMember node_id addr _ => at_node (add_member node_id addr)
  | HRemoveMember node_id _ => at_node (remove_member node_id)
  | HTriggerSnapshot _ => at_node trigger_snapshot
  | HTransferLeadership target_id _ => at_node (transfer_leadership target_id)
  | HConfig _ => v ← gets (fun s => runtime_config_ (group_ (sn_node s))); mret (inr (dump_indented (config_object v)))
  | HUpdateConfig text _ => update_config text
  end.

End handlers.

(** ** The call of a request *)

Lemma post_members_call `{!JsonText} a1 a2 body : (post_members a1 body).1 = (post_members a2 body).1.
Proof.
  unfold post_members. destruct (jt_parse body); [done|]. destruct (optional_field to_i32 _ _ _); [done|].
  by destruct (optional_field to_str _ _ _).
Qed.

Lemma delete_member_call a1 a2 path : (delete_member a1 path).1 = (delete_member a2 path).1.
Proof.
  unfold delete_member. destruct (match String.index _ _ _ with None => _ | Some _ => _ end) as [group_id p].
  destruct (after_last_slash p) as [[|c t]|]; [done| |done]. by destruct (stoi _) as [[]|].
Qed.

Lemma post_transfer_call `{!JsonText} a1 a2 body : (post_transfer a1 body).1 = (post_transfer a2 body).1.
Proof.
  unfold post_transfer. destruct (jt_parse body); [done|]. destruct (optional_field _ _ _ _); [done|].
  by destruct (group_id_value _).
Qed.

(** Which handler a request calls does not depend on what handlers answer. *)
Lemma call_independent `{!JsonText} a1 a2 sv request :
  (BuildResponse a1 sv request).1 = (BuildResponse a2 sv request).1.
Proof.
  unfold BuildResponse. destruct (_ && _ && _); [done|]. unfold route, readyz.
  repeat (case_match; try done); auto using post_members_call, delete_member_call, post_transfer_call.
Qed.

(** ** Serving a request *)

(** What the server needs of the node or store behind it: calls that are not
    admin calls leave it alone. *)
Class AdminBackend (S : Type) := {
  handle : HandlerCall -> Prog S Reply;
  handle_plain h s : admin_call h = false -> final (handle h s) = s
}.

Section serving.
Context `{!JsonText} {S : Type} `{!AdminBackend S}.
Implicit Types (s : S) (sv : MetricsHttpServer).

(** The call is known before the handler answers.  An exception of the status
    handler is caught at [/readyz]; any other one leaves [BuildResponse]. *)
Definition serve (sv : MetricsHttpServer) (request : string) : Prog S (option Response) :=
  match BuildResponse (fun _ => "") sv request with
  | (None, response) => mret response
  | (Some h, _) =>
      reply ← handle h;
      match reply with
      | inr text => mret (BuildResponse (fun _ => text) sv request).2
      | inl what =>
          mret (if decide (ExtractPath request = "/readyz")
                then body ← dump_pair "status" "error" "message" what; responds "500 Internal Server Error" body
                else None)
      end
  end.

Fixpoint serve_all (sv : MetricsHttpServer) (requests : list string) (s : S) : S :=
  match requests with
  | [] => s
  | r :: rs => serve_all sv rs (final (serve sv r s))
  end.

(** What a request does to the node is what its handler does. *)
Lemma serve_final sv request s :
  final (serve sv request s) =
    match (BuildResponse (fun _ => "") sv request).1 with
    | None => s
    | Some h => final (handle h s)
    end.
Proof.
  unfold serve. destruct (BuildResponse _ sv request) as [[h|] resp]; [|done]. simpl.
  rewrite run_bind. by destruct (handle h s) as [[]|].
Qed.

(** C22. With a token configured, requests with a plain method that do not carry it
    leave the node or store behind the server, its configuration and its network
    as they are. *)
Theorem unauthorized_changes_nothing sv requests s :
  admin_token_ sv <> "" ->
  Forall (fun r => plain_method r /\ ExtractAuthToken r <> admin_token_ sv) requests ->
  serve_all sv requests s = s.
Proof.
  intros Ht Hr. induction Hr as [|r rs [Hm Hne] _ IH]; [done|]. simpl.
  assert (final (serve sv r s) = s) as ->; [|done]. rewrite serve_final.
  destruct (BuildResponse _ sv r) as [[h|] resp] eqn:Hb; [|done]. simpl.
  destruct (admin_call h) eqn:Hh; [|by apply handle_plain].
  by pose proof (admin_needs_token _ _ _ _ _ Ht Hm Hb Hh).
Qed.

(** A property of the state that every handler keeps holds after any requests. *)
Lemma serve_all_keeps (P : S -> Prop) sv requests s :
  (forall h s, P s -> P (final (handle h s))) -> P s -> P (serve_all sv requests s).
Proof.
  intros Hh. revert s. induction requests as [|r rs IH]; intros s Hs; simpl; [done|].
  apply IH. rewrite serve_final. destruct (BuildResponse _ sv r).1; auto.
Qed.
End serving.

(** ** What leaves the runtime configuration alone *)

Definition same_runtime (w w' : Node) : Prop :=
  runtime_config_ (group_ w') = runtime_config_ (group_ w).
#[global] Instance same_runtime_preorder : PreOrder same_runtime.
Proof. split; [done|]. unfold same_runtime. intros w1 w2 w3 ??. congruence. Qed.

Ltac runtime_leaf := apply keeps_modify; intros ?; reflexivity.
#[export] Hint Extern 1 (keeps same_runtime (modify _)) => runtime_leaf : keeps.
#[export] Hint Extern 1 (keeps same_runtime (putg _)) => runtime_leaf : keeps.
#[export] Hint Extern 1 (keeps same_runtime (emit _)) => runtime_leaf : keeps.
#[export] Hint Extern 1 (keeps same_runtime (getg _)) => eapply keeps_gets; apply _ : keeps.
#[export] Hint Extern 1 (keeps same_runtime IsRunning) => eapply keeps_gets; apply _ : keeps.

(** ** The node behind the server *)

Lemma node_plain `{!Env, !JsonText} metrics_text dump_indented tls h (s : ServedNode) :
  admin_call h = false -> final (run_handler metrics_text dump_indented tls h s) = s.
Proof. destruct h; try done. intros _. by destruct s. Qed.

Definition node_backend `{!Env, !JsonText} (metrics_text : string) (dump_indented : json -> string) (tls : bool) :
  AdminBackend ServedNode :=
  {| handle := run_handler metrics_text dump_indented tls; handle_plain := node_plain metrics_text dump_indented tls |}.

Section served.
Context `{!Env, !JsonText} (metrics_text : string) (dump_indented : json -> string) (tls : bool).
#[local] Abbreviation backend := (node_backend metrics_text dump_indented tls).
#[local] Abbreviation serve := (@serve _ _ backend).
#[local] Abbreviation serve_all := (@serve_all _ _ backend).

(** ** Adding a member *)

(** A request that carries the token and names a member runs [AddNode] on the
    node; when the node accepts it, the client is told so. *)
Theorem member_request_adds `{!JsonTextLaws} sv node_id addr group_id body s n' :
  avoids carriage_return (admin_token_ sv) = true -> add_member_handler_ sv = true ->
  0 <= node_id < 2 ^ 31 -> 0 <= group_id < 2 ^ 31 -> utf8 addr = true -> addr <> "" ->
  jt_dump (member_json node_id addr group_id) = inr body ->
  AddNode node_id addr (sn_node s) = Done StOK n' ->
  exists text,
    jt_parse text = inr (json_object (reply_status "accepted" "Configuration change proposed")) /\
    serve sv (member_request (admin_token_ sv) body) s =
      Done (responds "202 Accepted" text) (s <| sn_node := n' |>).
Proof.
  intros Ht Hadd Hn Hg Hu Ha Hb Hrun.
  destruct (jt_round_trip (json_object (reply_status "accepted" "Configuration change proposed")))
    as (text & Hd & Hp); [reflexivity..|].
  exists text. split; [done|]. unfold AdminHandlers.serve. cbn [handle node_backend].
  rewrite (member_request_served _ sv node_id addr group_id body) by done. simpl.
  rewrite run_bind. unfold at_node, add_member. rewrite decide_False by naive_solver lia.
  rewrite run_bind, Hrun. simpl. unfold dump_object. rewrite Hd, run_ret.
  by rewrite (member_request_served _ sv node_id addr group_id body) by done.
Qed.

(** ** The runtime configuration *)

Lemma runtime_SendAppendEntries p : keeps same_runtime (SendAppendEntriesToPeerLocked p).
Proof.
  unfold SendAppendEntriesToPeerLocked, SendInstallSnapshotToPeerLocked, SendNextSnapshotChunkLocked,
    next_index_at, match_index_at, set_next_index, GetLogTermLocked, set_send. keeps_solve.
Qed.
#[local] Hint Resolve runtime_SendAppendEntries : keeps.

Lemma runtime_Broadcast : keeps same_runtime BroadcastAppendEntriesLocked.
Proof.
  assert (forall n p, keeps same_runtime (broadcast_loop n p)) by (intros n p; induction n; simpl; unfold next_index_at; keeps_solve).
  unfold BroadcastAppendEntriesLocked. keeps_solve.
Qed.

Lemma runtime_BecomeFollower t : keeps same_runtime (BecomeFollowerLocked t).
Proof.
  unfold BecomeFollowerLocked, BecomeFollowerLockedImpl, enter_follower, StopHeartbeatTimerLocked,
    StopSnapshotCheckTimerLocked, ResetElectionTimerLocked, CancelElectionTimerLocked,
    persist_or_abort, publish_role, call_role, SaveStateM. keeps_solve.
Qed.
#[local] Hint Resolve runtime_Broadcast runtime_BecomeFollower : keeps.

Lemma runtime_change ok err m : keeps same_runtime m -> keeps same_runtime (guard_change ok err m).
Proof. intros. unfold guard_change, not_leader. keeps_solve. Qed.
Lemma runtime_propose cmd k : keeps same_runtime k -> keeps same_runtime (propose_change cmd k).
Proof. intros. unfold propose_change, append_command, persist_sync, flush_to. keeps_solve. Qed.

Lemma runtime_AddNode i a : keeps same_runtime (AddNode i a).
Proof. apply runtime_change. keeps_step; [keeps_solve|]. apply runtime_propose. unfold add_peer. keeps_solve. Qed.
Lemma runtime_RemoveNode i : keeps same_runtime (RemoveNode i).
Proof. apply runtime_change. keeps_step; [keeps_solve|]. apply runtime_propose. keeps_solve. Qed.
Lemma runtime_Transfer i : keeps same_runtime (TransferLeadershipTo i).
Proof. unfold TransferLeadershipTo, not_leader. keeps_solve. Qed.
Lemma runtime_TriggerSnapshot : keeps same_runtime TriggerSnapshot.
Proof.
  unfold TriggerSnapshot, with_snapshot_token, create_and_apply, CreateAndPersistSnapshot, ApplySnapshotLocked.
  keeps_solve.
Qed.
#[local] Hint Resolve runtime_AddNode runtime_RemoveNode runtime_Transfer runtime_TriggerSnapshot : keeps.

Lemma at_node_runtime {A} (m : M A) s :
  keeps same_runtime m ->
  runtime_config_ (group_ (sn_node (final (at_node m s)))) = runtime_config_ (group_ (sn_node s)).
Proof. intros Hm. specialize (Hm (sn_node s)). unfold at_node. destruct (m (sn_node s)); apply Hm. Qed.

(** An update leaves valid values valid. *)
Lemma UpdateRuntimeConfig_valid text n :
  valid_values (runtime_config_ (group_ n)) ->
  valid_values (runtime_config_ (group_ (final (UpdateRuntimeConfig text n)))).
Proof.
  intros Hv. unfold UpdateRuntimeConfig.
  by destruct (UpdateFromJson_run text (RuntimeConfig_new (runtime_config_ (group_ n))))
    as [(err&->&_)|[->|(j&v&_&_&Hok&->)]].
Qed.

Lemma update_config_valid text s :
  valid_values (runtime_config_ (group_ (sn_node s))) ->
  valid_values (runtime_config_ (group_ (sn_node (final (update_config tls text s))))).
Proof.
  intros Hv%(UpdateRuntimeConfig_valid text). unfold update_config, at_node. rewrite run_bind, run_gets, run_bind.
  destruct (UpdateRuntimeConfig text (sn_node s)) as [st n|n]; [|done]. simpl in *.
  destruct (status_ok st); [|done]. rewrite run_bind, run_gets, run_bind. by destruct (bool_decide _).
Qed.

Lemma handle_config h s :
  valid_values (runtime_config_ (group_ (sn_node s))) ->
  valid_values (runtime_config_ (group_ (sn_node (final (handle (AdminBackend := backend) h s))))).
Proof.
  intros Hv. destruct h; simpl; try done;
    try (rewrite at_node_runtime; [done|unfold add_member, remove_member, trigger_snapshot, transfer_leadership,
           status_reply, leader_hint; keeps_solve]).
  by apply update_config_valid.
Qed.

(** Whatever requests reach a node that starts with a valid configuration, with
    or without the token and whatever they ask for, the configuration it runs
    with stays valid. *)
Theorem served_config_stays_valid sv requests s :
  valid_values (runtime_config_ (group_ (sn_node s))) ->
  valid_values (runtime_config_ (group_ (sn_node (serve_all sv requests s)))).
Proof.
  apply (serve_all_keeps (AdminBackend0 := backend) (fun s => valid_values (runtime_config_ (group_ (sn_node s))))).
  exact handle_config.
Qed.

(** The values a node shows are accepted back, by this node or another one, and
    become its values. *)
Lemma config_round_trip v c text :
  valid_values v -> 0 <= log_retention_entries v -> is_u32 (max_snapshot_size_bytes v) ->
  jt_parse text = inr (config_object v) ->
  UpdateFromJson text c = Done StOK (c <| values_ := v |>).
Proof.
  intros Hv Hr Hs Hp. unfold UpdateFromJson. cbn [json_parse config_json_lib]. rewrite Hp, run_bind, run_gets.
  assert (propose_values (config_object v) (values_ c) = Some v) as ->.
  { destruct v as [v1 v2 v3 v4 v5 v6 v7 v8 v9 v10 v11 v12 v13 v14 v15 v16].
    destruct Hv; unfold RuntimeConfig.in_range in *; simpl in *.
    unfold is_u32, UINT32_MAX in Hs.
    transitivity (Some (mkRuntimeConfigValues (u32 v1) (u32 v2) (u32 v3) (u32 v4) (u32 v5) (u32 v6) (u32 v7) (u32 v8)
      (u32 v9) (u32 v10) (u32 v11) (u32 v12) (u32 v13) v14 (u32 v15) v16)); [reflexivity|].
    rewrite !u32_small by (unfold is_u32, UINT32_MAX; lia). done. }
  by rewrite (proj2 (Validate_spec v) Hv).
Qed.

Definition config_line : string := "PATCH /v1/config HTTP/1.1".
(** A request to update the configuration, as a client sends it. *)
Definition config_request (body : string) : string := config_line +:+ crlf +:+ crlf +:+ body.

Lemma config_request_call a sv body :
  admin_token_ sv = "" -> config_updater_ sv = true ->
  BuildResponse a sv (config_request body) =
    calls a "200 OK" (HUpdateConfig body (group_id_of_body body)).
Proof.
  intros Ht Hc. unfold BuildResponse. rewrite Ht. simpl bool_decide. cbn [andb]. unfold route.
  assert (ExtractBody (config_request body) = body) as ->.
  { unfold ExtractBody, config_request.
    change (config_line +:+ crlf +:+ crlf +:+ body) with (config_line +:+ (crlf +:+ crlf) +:+ body).
    assert (String.index 0 (crlf +:+ crlf) (config_line +:+ (crlf +:+ crlf) +:+ body) = Some (String.length config_line))
      as -> by by apply (index_first carriage_return).
    apply (substr_from_app (config_line +:+ crlf +:+ crlf) body). }
  assert (ExtractPath (config_request body) = "/v1/config") as -> by reflexivity.
  assert (String.prefix "POST" (config_request body) = false) as -> by reflexivity.
  assert (String.prefix "GET" (config_request body) = false) as -> by reflexivity.
  assert (String.prefix "PATCH" (config_request body) = true) as -> by reflexivity.
  rewrite Hc. reflexivity.
Qed.

(** A field of the wrong type is an exception that no handler catches. *)
Lemma wrong_type_escapes sv body s :
  admin_token_ sv = "" -> config_updater_ sv = true ->
  jt_parse body = inr (Jobj [("election_timeout_ms", Jstr "fast")]) ->
  serve sv (config_request body) s = Aborted s.
Proof.
  intros Ht Hc Hp. unfold AdminHandlers.serve. rewrite config_request_call by done. simpl.
  rewrite !run_bind. unfold update_config. rewrite run_bind, run_gets, run_bind. unfold at_node, UpdateRuntimeConfig, UpdateFromJson.
  cbn [json_parse config_json_lib]. rewrite Hp. by destruct s.
Qed.
End served.

(** ** Witnesses *)

Definition sample_server : MetricsHttpServer :=
  mkMetricsHttpServer "secret" true true true true true true true true.
Definition admin_leader : Node :=
  node_init ((sample_group 1 [2; 3] false false) <| role_ := LEADER |> <| current_term_ := 1 |>).
Definition sample_served : ServedNode := mkServedNode admin_leader Transport_new.
Definition sample_backend : AdminBackend ServedNode :=
  @node_backend (sample_env true true 0) PlainText.text "" (fun _ => "") false.

Lemma unauthorized_changes_nothing_witness :
  let requests :=
    ["DELETE /v1/members/2 HTTP/1.1" +:+ crlf +:+ "Authorization: Bearer guess" +:+ crlf +:+ crlf;
     "POST /v1/snapshot/trigger HTTP/1.1" +:+ crlf +:+ crlf] in
  @serve_all PlainText.text ServedNode sample_backend sample_server requests sample_served = sample_served.
Proof.
  intros requests.
  apply (@unauthorized_changes_nothing PlainText.text ServedNode sample_backend sample_server requests sample_served);
    [done|].
  repeat constructor; try done.
Defined.

Lemma served_config_stays_valid_witness :
  valid_values (runtime_config_ (group_ (sn_node
    (@serve_all PlainText.text ServedNode sample_backend sample_server
       [config_request "{}"; member_request "secret" "1"] sample_served)))).
Proof.
  apply (@served_config_stays_valid (sample_env true true 0) PlainText.text "" (fun _ => "") false
           sample_server _ sample_served).
  apply Validate_spec. reflexivity.
Defined.

Lemma member_request_adds_witness :
  exists body text n',
    @AddNode (sample_env true true 0) 4 "10.0.0.4:8001" admin_leader = Done StOK n' /\
    entries_ (log_ (group_ n')) <> [] /\
    @serve PlainText.text ServedNode sample_backend sample_server (member_request "secret" body)
      sample_served = Done (responds "202 Accepted" text) (sample_served <| sn_node := n' |>).
Proof.
  destruct (@jt_round_trip PlainText.text PlainText.laws (member_json 4 "10.0.0.4:8001" 0)) as (body & Hd & _);
    [reflexivity|reflexivity|].
  destruct (@AddNode (sample_env true true 0) 4 "10.0.0.4:8001" admin_leader) as [st n'|] eqn:E; [|by vm_compute in E].
  assert (st = StOK) as -> by (vm_compute in E; by injection E as <-).
  destruct (@member_request_adds (sample_env true true 0) PlainText.text "" (fun _ => "") false PlainText.laws
    sample_server 4 "10.0.0.4:8001" 0 body sample_served n') as (text & _ & Hs); [done|done|lia|lia|done|done|exact Hd|exact E|].
  exists body, text, n'. split; [done|]. split; [|exact Hs].
  vm_compute in E. injection E as <-. done.
Defined.
