(* ===== verification/StoreAdmin.v ===== *)
(** * The store behind the admin server: [src/raft_store.cpp]

    The handlers of [RegisterStoreProviders]: a request names the group it is for.
    Write coalescing is a setting of the whole node: the store, every group and
    the connections the network has agree on it whatever requests are served,
    and nothing else of a group changes on behalf of another one. *)

From S2P Require Import Prelude Types RuntimeConfig RaftLog Quorum Sessions RaftGroup Timers Replicate.
From S2P Require Import Membership Apply Election Leader Follower Snapshots NodeCore.
From S2P Require Import Text Json Protocol Identity Dispatch Client Store Connection Config Peers Transport AdminServer AdminHandlers.

(** [ss_node_id] is [config_.node_id]. *)
Record ServedStore := mkServedStore {
  ss_node_id : NodeId;
  ss_store : RaftStore;
  ss_network : Transport
}.
#[global] Instance ServedStore_eta : Eta ServedStore := fun r =>
  mkServedStore (ss_node_id r) (ss_store r) (ss_network r).

Definition at_store {A} (m : Prog RaftStore A) : Prog ServedStore A := fun s =>
  match m (ss_store s) with
  | Done a st => Done a (s <| ss_store := st |>)
  | Aborted st => Aborted (s <| ss_store := st |>)
  end.

Section handlers.
Context `{!Env, !JsonText} (metrics_text : string) (dump_indented : json -> string) (tls : bool).

Definition group_not_found (group_id : Z) : Reply :=
  dump_object (reply_error "GROUP_NOT_FOUND" ("Group " +:+ pretty group_id +:+ " not found")).
Definition group_zero : Reply := dump_object (reply_error "BAD_REQUEST" "group_id must be > 0").
Definition group_zero_text : Reply := inr (quoted "{'error':'BAD_REQUEST','message':'group_id must be > 0'}").

(** What every handler begins with. *)
Definition with_group (group_id : Z) (zero : Reply) (k : Node -> Prog ServedStore Reply) : Prog ServedStore Reply :=
  if decide (group_id = 0) then mret zero
  else
    groups ← gets (fun s => groups_ (ss_store s));
    match groups !! group_id with
    | None => mret (group_not_found group_id)
    | Some group => k group
    end.

(** The answer to an operation of a group. *)
Definition group_reply (m : M Status) (accepted : list (string * json)) : M Reply :=
  status ← m;
  if status_ok status then mret (dump_object accepted)
  else
    hint ← leader_hint;
    mret (dump_object (reply_error (error_name status) (GetMessage status) ++ hint)).

Definition group_operation (group_id : Z) (m : M Status) (accepted : list (string * json)) : Prog ServedStore Reply :=
  with_group group_id group_zero (fun group => at_store (on_group group_id group (group_reply m accepted))).

Definition group_status (group_id : Z) (n : Node) : json :=
  let g := group_ n in
  json_object
    [("group_id", Jint group_id); ("role", Jstr (RaftNodeRoleToString (role_ g))); ("term", Jint (current_term_ g));
     ("leader_id", if decide (leader_addr_ g = "") then Jnull else Jint (leader_id_ g));
     ("leader_addr", Jstr (leader_addr_ g)); ("commit_index", Jint (commit_index_ g));
     ("config_version", Jint (version (cluster_config_ g)))].

(** The first known leader in the order of the table. *)
Definition top_leader (groups : list (Z * Node)) : json :=
  match filter (fun gn => leader_addr_ (group_ gn.2) <> "") groups with
  | gn :: _ => Jint (leader_id_ (group_ gn.2))
  | [] => Jnull
  end.

Definition store_status : Prog ServedStore Reply :=
  node_id ← gets ss_node_id;
  groups ← gets (fun s => map_to_list (groups_ (ss_store s)));
  mret (dump_object
    [("node_id", Jint node_id);
     ("role", Jstr (if existsb (fun gn => bool_decide (role_ (group_ gn.2) = LEADER)) groups
                    then "Leader" else "Follower"));
     ("leader_id", top_leader groups);
     ("groups", Jarr (map (fun gn => group_status gn.1 gn.2) groups))]).

(** [GetRuntimeConfigValues] after the update. *)
Definition update_group (text : string) : M (Status * RuntimeConfigValues) :=
  status ← UpdateRuntimeConfig text;
  new_config ← getg runtime_config_;
  mret (status, new_config).

Definition spread_batching (enabled : bool) : Prog ServedStore Reply :=
  modify (fun s => s <| ss_store ::= fun st => st <| transport_batching_enabled_ := enabled |> |>) ;;
  match jt_dump (json_object [("transport_batching_enabled", Jbool enabled)]) with
  | inl what => mret (inl what)
  | inr transport_update =>
      at_store (each_group (UpdateRuntimeConfig transport_update)) ;;
      modify (fun s => s <| ss_network ::= SetBatchingEnabled tls enabled |>) ;;
      mret (inr updated_text)
  end.

Definition store_update (text : string) (group_id : Z) : Prog ServedStore Reply :=
  with_group group_id group_zero_text (fun group =>
    r ← at_store (on_group group_id group (update_group text));
    let enabled := transport_batching_enabled r.2 in
    if negb (status_ok r.1) then mret (dump_object (reply_error "INVALID_CONFIG" (GetMessage r.1)))
    else if bool_decide (enabled <> transport_batching_enabled (runtime_config_ (group_ group)))
    then spread_batching enabled
    else mret (inr updated_text)).

Definition run_store_handler (h : HandlerCall) : Prog ServedStore Reply :=
  match h with
  | HMetrics => mret (inr metrics_text)
  | HStatus => store_status
  | HAddMember node_id addr group_id =>
      group_operation group_id (AddNode node_id addr) (reply_status "accepted" "Configuration change proposed")
  | HRemoveMember node_id group_id =>
      group_operation group_id (RemoveNode node_id) (reply_status "accepted" "Configuration change proposed")
  | HTriggerSnapshot group_id =>
      group_operation group_id TriggerSnapshot (reply_status "triggered" "Snapshot creation initiated")
  | HTransferLeadership target_id group_id =>
      group_operation group_id (TransferLeadershipTo target_id)
        (reply_status "initiated" "Leadership transfer initiated")
  | HConfig group_id =>
      with_group group_id group_zero_text (fun group =>
        mret (inr (dump_indented (config_object (runtime_config_ (group_ group))))))
  | HUpdateConfig text group_id => store_update text group_id
  end.

Lemma store_plain h (s : ServedStore) : admin_call h = false -> final (run_store_handler h s) = s.
Proof. by destruct h. Qed.

Definition store_backend : AdminBackend ServedStore :=
  {| handle := run_store_handler; handle_plain := store_plain |}.

(** ** One group at a time *)

Lemma with_group_cases group_id zero k s :
  with_group group_id zero k s = Done zero s \/
  with_group group_id zero k s = Done (group_not_found group_id) s \/
  exists n, groups_ (ss_store s) !! group_id = Some n /\ with_group group_id zero k s = k n s.
Proof.
  unfold with_group. case_decide; [by left|]. rewrite run_bind, run_gets.
  destruct (groups_ (ss_store s) !! group_id) as [n|] eqn:E; [|by right; left]. right; right. eauto.
Qed.

Lemma at_store_on_group {A} group_id n (m : M A) s :
  at_store (on_group group_id n m) s =
    match m n with
    | Done a n' => Done a (s <| ss_store ::= fun st => st <| groups_ ::= <[group_id := n']> |> |>)
    | Aborted n' => Aborted (s <| ss_store ::= fun st => st <| groups_ ::= <[group_id := n']> |> |>)
    end.
Proof. unfold at_store, on_group. by destruct (m n). Qed.

(** The update of one setting that the store sends to its groups. *)
Lemma batching_update text enabled n :
  jt_parse text = inr (json_object [("transport_batching_enabled", Jbool enabled)]) ->
  exists status, UpdateRuntimeConfig text n = Done status (update_batching enabled n).
Proof.
  intros Hp. unfold UpdateRuntimeConfig, UpdateFromJson, update_batching. cbn [json_parse config_json_lib].
  rewrite Hp, run_bind, run_gets. cbn [propose_values]. destruct n as [g st sp d f t]. destruct g. simpl.
  destruct runtime_config_. simpl. destruct (Validate _); eexists; reflexivity.
Qed.

(** An operation that always completes runs in every group. *)
Lemma forM_groups {A} (m : M A) (f : Node -> Node) l s :
  NoDup l -> (forall n, exists a, m n = Done a (f n)) ->
  exists s', forM l (fun group_id =>
      groups ← gets groups_;
      match groups !! group_id with
      | Some n => on_group group_id n m ;; mret tt
      | None => mret tt
      end) s = Done tt s' /\
    (forall g, groups_ s' !! g = if decide (g ∈ l) then f <$> groups_ s !! g else groups_ s !! g) /\
    transport_batching_enabled_ s' = transport_batching_enabled_ s.
Proof.
  intros Hl Hm. revert s. induction Hl as [|g l Hg _ IH]; intros s; cbn [forM].
  { exists s. split; [done|]. split; [|done]. intros g. by rewrite decide_False by set_solver. }
  rewrite run_bind. rewrite run_bind, run_gets.
  destruct (groups_ s !! g) as [n|] eqn:E.
  - unfold on_group at 1. rewrite run_bind. destruct (Hm n) as [a ->]. rewrite run_ret.
    destruct (IH (s <| groups_ ::= <[g := f n]> |>)) as (s' & -> & Hs & Hb). exists s'. split; [done|]. split; [|done].
    intros g'. rewrite Hs. change (groups_ (s <| groups_ ::= <[g := f n]> |>)) with (<[g := f n]> (groups_ s)).
    destruct (decide (g' = g)) as [->|Hne].
    + rewrite decide_False by done. rewrite decide_True by set_solver. by rewrite lookup_insert_eq, E.
    + rewrite lookup_insert_ne by done. apply decide_ext. set_solver.
  - rewrite run_ret. destruct (IH s) as (s' & -> & Hs & Hb). exists s'. split; [done|]. split; [|done].
    intros g'. rewrite Hs. destruct (decide (g' = g)) as [->|Hne].
    + rewrite decide_False by done. rewrite decide_True by set_solver. by rewrite E.
    + apply decide_ext. set_solver.
Qed.

Lemma each_group_run {A} (m : M A) (f : Node -> Node) s :
  (forall n, exists a, m n = Done a (f n)) ->
  exists s', each_group m s = Done tt s' /\ groups_ s' = f <$> groups_ s /\
    transport_batching_enabled_ s' = transport_batching_enabled_ s.
Proof.
  intros Hm. unfold each_group. rewrite run_bind, run_gets.
  destruct (forM_groups m f (map_to_list (groups_ s)).*1 s) as (s' & -> & Hs & Hb); [apply NoDup_fst_map_to_list|done|].
  exists s'. split; [done|]. split; [|done]. apply map_eq. intros g. rewrite Hs, lookup_fmap.
  case_decide as Hg; [done|]. destruct (groups_ s !! g) as [n|] eqn:E; [|done].
  destruct Hg. apply list_elem_of_fmap. exists (g, n). split; [done|]. by apply elem_of_map_to_list.
Qed.

(** ** The setting of the whole node *)

Definition batching_of (n : Node) : bool := transport_batching_enabled (runtime_config_ (group_ n)).

(** Whether the current connection to a peer coalesces its writes. *)
Definition peer_batching (t : Transport) (j : nat) : option bool :=
  p ← tr_peers t !! j; k ← p_conn p; c_batching <$> p_conns p !! k.

Definition connections_batch (t : Transport) (enabled : bool) : Prop :=
  forall peer_id j b, tr_map t !! peer_id = Some j -> peer_batching t j = Some b -> b = enabled.

(** The groups' configurations are valid; the groups, the store and the current
    connections of the network agree on write coalescing. *)
Definition store_ok (s : ServedStore) : Prop :=
  (forall g n, groups_ (ss_store s) !! g = Some n ->
     valid_values (runtime_config_ (group_ n)) /\ batching_of n = transport_batching_enabled_ (ss_store s)) /\
  connections_batch (ss_network s) (transport_batching_enabled_ (ss_store s)).

Lemma update_batching_ok enabled n :
  valid_values (runtime_config_ (group_ n)) ->
  valid_values (runtime_config_ (group_ (update_batching enabled n))) /\ batching_of (update_batching enabled n) = enabled.
Proof.
  intros Hv. unfold update_batching.
  destruct (Validate _) eqn:E; simpl.
  - apply Validate_spec in E. by split.
  - exfalso. match type of E with Validate ?v = _ => assert (valid_values v) as Hv' by (destruct Hv; by split) end.
    apply Validate_spec in Hv'. congruence.
Qed.

Lemma foldl_inv {A B} (P : A -> Prop) (f : A -> B -> A) l a :
  (forall a b, P a -> P (f a b)) -> P a -> P (foldl f a l).
Proof. intros Hf. revert a. induction l as [|b l IH]; intros a Ha; simpl; auto. Qed.

Lemma set_peer_batching enabled k j j' t :
  tr_peers t !! j ≫= p_conn = Some k ->
  peer_batching (at_peer tls j (PConn k (CSetBatching enabled)) t) j' =
    if decide (j' = j) then (fun _ => enabled) <$> peer_batching t j' else peer_batching t j'.
Proof.
  intros Hk. unfold peer_batching, at_peer. simpl. case_decide as E.
  - subst j'. rewrite list_lookup_alter_eq. destruct (tr_peers t !! j) as [p|]; [|done]. simpl in *. rewrite Hk.
    simpl. rewrite list_lookup_alter_eq. by destruct (p_conns p !! k).
  - by rewrite list_lookup_alter_ne by done.
Qed.

Lemma SetBatchingEnabled_conns enabled t : connections_batch (SetBatchingEnabled tls enabled t) enabled.
Proof.
  unfold SetBatchingEnabled.
  match goal with |- connections_batch (foldl ?g ?t0 ?l0) _ => set (f := g); set (u := t0); set (l := l0) end.
  assert (forall l t, tr_map (foldl f t l) = tr_map t /\
    forall j b, (j ∈ l \/ forall b, peer_batching t j = Some b -> b = enabled) ->
      peer_batching (foldl f t l) j = Some b -> b = enabled) as Hall.
  { clear u l. intros l. induction l as [|i l IH]; intros u; cbn [foldl].
    { split; [done|]. intros j b [Hj|Hj]; [set_solver|auto]. }
    destruct (IH (f u i)) as [Hm Hb]. rewrite Hm. unfold f at 1. split; [by destruct (_ ≫= _)|].
    intros j b Hj. apply Hb. destruct (decide (j ∈ l)) as [|Hl]; [by left|right]. intros b' Hb'. unfold f in Hb'.
    destruct (tr_peers u !! i ≫= p_conn) as [k|] eqn:E.
    - rewrite set_peer_batching in Hb' by done. case_decide as Eij.
      + apply fmap_Some in Hb' as (?&_&->). done.
      + destruct Hj as [Hj|Hj]; [set_solver|auto].
    - destruct Hj as [Hj|Hj]; [|auto]. assert (j = i) as -> by set_solver. exfalso. unfold peer_batching in Hb'.
      destruct (tr_peers u !! i) as [p|]; [|done]. simpl in *. by rewrite E in Hb'. }
  intros peer_id j b Hj. destruct (Hall l u) as [Hm Hb]. rewrite Hm in Hj. apply Hb. left.
  apply list_elem_of_fmap. exists (peer_id, j). split; [done|]. by apply elem_of_map_to_list.
Qed.

Lemma group_reply_runtime m accepted : keeps same_runtime m -> keeps same_runtime (group_reply m accepted).
Proof. intros. unfold group_reply, leader_hint. keeps_solve. Qed.

(** The group of a request changes, but not the setting. *)
Lemma store_ok_group group_id n n' s :
  store_ok s -> groups_ (ss_store s) !! group_id = Some n ->
  valid_values (runtime_config_ (group_ n')) -> batching_of n' = batching_of n ->
  store_ok (s <| ss_store ::= fun st => st <| groups_ ::= <[group_id := n']> |> |>).
Proof.
  intros [Hg Hn] Hl Hv Hb. split; [|done]. simpl. intros g m. destruct (decide (g = group_id)) as [->|Hne].
  - rewrite lookup_insert_eq. intros [= <-]. rewrite Hb. split; [done|]. by apply (Hg group_id).
  - rewrite lookup_insert_ne by done. apply Hg.
Qed.

Lemma group_operation_ok group_id m accepted s :
  keeps same_runtime m -> store_ok s -> store_ok (final (group_operation group_id m accepted s)).
Proof.
  intros Hm Hs. unfold group_operation.
  destruct (with_group_cases group_id group_zero
    (fun group => at_store (on_group group_id group (group_reply m accepted))) s) as [->|[->|(n & Hn & ->)]]; [done..|].
  rewrite at_store_on_group. pose proof (group_reply_runtime m accepted Hm n) as Hr.
  assert (valid_values (runtime_config_ (group_ n))) by by apply (proj1 Hs group_id).
  destruct (group_reply m accepted n); unfold same_runtime in Hr; simpl in Hr;
    (eapply store_ok_group; [done|done| |]); unfold batching_of; by rewrite Hr.
Qed.

(** After an accepted update of one group, the setting is spread if it changed. *)
Lemma spread_batching_run `{!JsonTextLaws} enabled s :
  exists s', spread_batching enabled s = Done (inr updated_text) s' /\
    ss_node_id s' = ss_node_id s /\
    groups_ (ss_store s') = update_batching enabled <$> groups_ (ss_store s) /\
    transport_batching_enabled_ (ss_store s') = enabled /\ connections_batch (ss_network s') enabled.
Proof.
  unfold spread_batching. rewrite run_bind, run_modify.
  destruct (jt_round_trip (json_object [("transport_batching_enabled", Jbool enabled)])) as (text & -> & Hp); [done..|].
  rewrite run_bind. unfold at_store.
  destruct (each_group_run (UpdateRuntimeConfig text) (update_batching enabled)
    ((ss_store s) <| transport_batching_enabled_ := enabled |>)) as (st & Hst & Hg & Hb);
    [intros n; by apply batching_update|].
  match goal with |- context [each_group ?m ?x] => assert (each_group m x = Done tt st) as -> by exact Hst end.
  rewrite run_bind, run_modify, run_ret. eexists. split; [done|]. split; [done|].
  split; [done|]. split; [done|]. apply SetBatchingEnabled_conns.
Qed.

Lemma update_group_run text n :
  (exists status n', update_group text n = Done (status, runtime_config_ (group_ n')) n' /\
     UpdateRuntimeConfig text n = Done status n') \/
  update_group text n = Aborted n.
Proof.
  unfold update_group. rewrite run_bind. unfold UpdateRuntimeConfig.
  destruct (UpdateFromJson text _) as [status c|]; [|by right]. left. eexists _, _. split; [|done]. reflexivity.
Qed.

Lemma store_update_ok `{!JsonTextLaws} text group_id s :
  store_ok s -> store_ok (final (store_update text group_id s)).
Proof.
  intros Hs. unfold store_update.
  match goal with |- context [with_group _ _ ?k _] =>
    destruct (with_group_cases group_id group_zero_text k s) as [->|[->|(n & Hn & ->)]]; [done..|] end.
  assert (valid_values (runtime_config_ (group_ n))) as Hv by by apply (proj1 Hs group_id).
  rewrite run_bind, at_store_on_group. pose proof (UpdateRuntimeConfig_valid text n Hv) as Hv'.
  destruct (update_group_run text n) as [(status & n' & -> & Hu)| ->]; [|by eapply store_ok_group].
  rewrite Hu in Hv'. simpl in Hv'. cbn [fst snd]. destruct (status_ok status) eqn:Hok; cbn [negb].
  - case_bool_decide as Hb; [|by apply (store_ok_group group_id n n')].
    match goal with |- store_ok (final (spread_batching ?b ?x)) =>
      destruct (spread_batching_run b x) as (s' & -> & _ & Hg & Hf & Ht) end.
    split; [|cbn [final]; by rewrite Hf]. simpl. intros g m. rewrite Hg, lookup_fmap, fmap_Some. intros (m0 & Hm0 & ->).
    rewrite Hf. apply update_batching_ok. revert Hm0. simpl. destruct (decide (g = group_id)) as [->|Hne].
    + rewrite lookup_insert_eq. by intros [= <-].
    + rewrite lookup_insert_ne by done. intros Hm0. by apply (proj1 Hs g).
  - assert (runtime_config_ (group_ n') = runtime_config_ (group_ n)) as Hr.
    { revert Hu. unfold UpdateRuntimeConfig.
      destruct (UpdateFromJson_run text (RuntimeConfig_new (runtime_config_ (group_ n))))
        as [(err&->&_)|[->|(j&v&_&_&_&->)]]; [by intros [= <- <-]|done|]. by intros [= <- <-]. }
    eapply store_ok_group; [done|done|done|]. unfold batching_of. by rewrite Hr.
Qed.

Lemma store_handle_ok `{!JsonTextLaws} h s : store_ok s -> store_ok (final (run_store_handler h s)).
Proof.
  intros Hs. destruct h; simpl; try done;
    try (apply group_operation_ok; [|done]; auto using runtime_AddNode, runtime_RemoveNode, runtime_Transfer,
           runtime_TriggerSnapshot).
  - match goal with |- context [with_group _ _ ?k _] =>
      by destruct (with_group_cases group_id group_zero_text k s) as [->|[->|(n & Hn & ->)]] end.
  - by apply store_update_ok.
Qed.

(** C24. Write coalescing is one setting.  From a store whose groups have valid
    settings that agree with the store's flag and with the connections of the
    network, whatever requests the admin server is sent, the groups' settings stay
    valid, and the flag, every group and every current connection agree.  A
    connection that is made later starts with coalescing on
    ([next_connection_batches]), and a group that was built with settings outside
    the valid ranges takes no update ([accepted_settings_block_updates]). *)
Theorem store_settings_agree `{!JsonTextLaws} sv requests s :
  store_ok s -> store_ok (serve_all (AdminBackend0 := store_backend) sv requests s).
Proof. apply serve_all_keeps. exact store_handle_ok. Qed.

(** ** Requests for one group and the other groups *)

Definition call_group (h : HandlerCall) : Z :=
  match h with
  | HMetrics | HStatus => 0
  | HAddMember _ _ g | HRemoveMember _ g | HTriggerSnapshot g | HTransferLeadership _ g | HConfig g
  | HUpdateConfig _ g => g
  end.

(** The group a request names, if it gets to a handler. *)
Definition request_group (sv : MetricsHttpServer) (request : string) : Z :=
  match (BuildResponse (fun _ => "") sv request).1 with Some h => call_group h | None => 0 end.

(** What another group may see: nothing, or an update of write coalescing. *)
Definition barely_changed (n : Node) (o : option Node) : Prop :=
  o = Some n \/ exists enabled, o = Some (update_batching enabled n).

Lemma group_operation_others group_id m accepted s g n :
  g <> group_id -> groups_ (ss_store s) !! g = Some n ->
  barely_changed n (groups_ (ss_store (final (group_operation group_id m accepted s))) !! g).
Proof.
  intros Hne Hn. left. unfold group_operation.
  destruct (with_group_cases group_id group_zero
    (fun group => at_store (on_group group_id group (group_reply m accepted))) s) as [->|[->|(x & _ & ->)]]; [done..|].
  rewrite at_store_on_group. destruct (group_reply m accepted x); simpl; by rewrite lookup_insert_ne.
Qed.

Lemma store_update_others `{!JsonTextLaws} text group_id s g n :
  g <> group_id -> groups_ (ss_store s) !! g = Some n ->
  barely_changed n (groups_ (ss_store (final (store_update text group_id s))) !! g).
Proof.
  intros Hne Hn. unfold store_update.
  match goal with |- context [with_group _ _ ?k _] =>
    destruct (with_group_cases group_id group_zero_text k s) as [->|[->|(x & _ & ->)]]; [by left..|] end.
  rewrite run_bind, at_store_on_group.
  destruct (update_group text x) as [[status v] x'|x'] eqn:E; [|left; simpl; by rewrite lookup_insert_ne].
  cbn [fst snd]. destruct (status_ok status); cbn [negb]; [|left; simpl; by rewrite lookup_insert_ne].
  case_bool_decide; [|left; simpl; by rewrite lookup_insert_ne].
  match goal with |- barely_changed _ (groups_ (ss_store (final (spread_batching ?b ?y))) !! _) =>
    destruct (spread_batching_run b y) as (s' & -> & _ & Hg & _); right; exists b end.
  simpl. rewrite Hg, lookup_fmap. simpl. by rewrite lookup_insert_ne, Hn by done.
Qed.

(** A request changes of every group but the one it names at most the setting of
    write coalescing, which the whole node shares. *)
Theorem store_request_isolated `{!JsonTextLaws} sv request s g n :
  g <> request_group sv request -> groups_ (ss_store s) !! g = Some n ->
  barely_changed n (groups_ (ss_store (final (serve (AdminBackend0 := store_backend) sv request s))) !! g).
Proof.
  unfold request_group. rewrite serve_final. destruct (BuildResponse _ sv request).1 as [h|]; [|by left].
  destruct h; simpl; intros Hne Hn; try (by left); auto using group_operation_others, store_update_others.
  match goal with |- context [with_group _ _ ?k _] =>
    destruct (with_group_cases group_id group_zero_text k s) as [->|[->|(x & _ & ->)]]; by left end.
Qed.

(** ** New groups *)

Lemma runtime_Stop : keeps same_runtime Stop.
Proof.
  unfold Stop, DoGracefulShutdown, CancelElectionTimerLocked, StopHeartbeatTimerLocked, StopSnapshotCheckTimerLocked, publish_lifecycle,
    call_proposal. keeps_solve.
Qed.

(** A group that starts with a valid configuration joins in. *)
Lemma created_group_agrees group_id has_state_machine config_status start s :
  store_ok s -> (forall n, start = inr n -> valid_values (runtime_config_ (group_ n))) ->
  store_ok (final (at_store (CreateGroup group_id has_state_machine config_status start) s)).
Proof.
  intros Hs Hstart. unfold at_store, CreateGroup. case_decide; [by destruct s|].
  destruct (negb has_state_machine); [by destruct s|]. destruct (negb (status_ok config_status)); [by destruct s|].
  destruct start as [err|group]; [by destruct s|]. rewrite run_bind, run_gets, run_bind, run_gets.
  destruct (update_batching_ok (transport_batching_enabled_ (ss_store s)) group (Hstart _ eq_refl)) as [Hv Hb].
  destruct (groups_ (ss_store s) !! group_id) as [old|] eqn:E.
  - rewrite run_bind. unfold on_group at 1. rewrite run_bind. pose proof (runtime_Stop old) as Hr.
    destruct (proj1 Hs _ _ E) as [Hov Hob].
    destruct (Stop old) as [a old'|old'].
    + rewrite run_ret, run_bind, run_modify, run_ret. destruct Hs as [Hg Hn]. split; [|done]. simpl. intros g m.
      destruct (decide (g = group_id)) as [->|Hne]; [rewrite lookup_insert_eq; intros [= <-]; done|].
      rewrite !lookup_insert_ne by done. apply Hg.
    + unfold same_runtime in Hr. simpl in Hr. change (store_ok (s <| ss_store ::= fun st => st <| groups_ ::= <[group_id := old']> |> |>)).
      eapply store_ok_group; [done|done| |]; unfold batching_of; by rewrite Hr.
  - rewrite run_bind, run_ret, run_bind, run_modify, run_ret. destruct Hs as [Hg Hn]. split; [|done]. simpl. intros g m.
    destruct (decide (g = group_id)) as [->|Hne]; [rewrite lookup_insert_eq; intros [= <-]; done|].
    rewrite lookup_insert_ne by done. apply Hg.
Qed.
End handlers.

(** ** Witnesses *)

(** A network that is connecting to peer 2. *)
Definition admin_network : Transport :=
  tr_run false Transport_new
    (started_transport ++ [TrSendRpc 2 "10.0.0.2:8001" (mkPendingSend "append" 1 7); TrRun 0; TrPeer 0 PRun]).

(** Two groups; the second one leads. *)
Definition admin_store : ServedStore :=
  mkServedStore 1
    (mkRaftStore {[1 := node_init (sample_group 1 [2; 3] false false); 2 := admin_leader]} true true true)
    admin_network.

Definition batching_off_request : string :=
  "PATCH /v1/config HTTP/1.1" +:+ crlf +:+ kAuthPrefix +:+ "secret" +:+ crlf +:+ crlf +:+
  match @jt_dump PlainText.text (json_object [("group_id", Jint 1); ("transport_batching_enabled", Jbool false)]) with
  | inr text => text
  | inl _ => ""
  end.

Lemma admin_store_ok : store_ok admin_store.
Proof.
  split; [|intros peer_id [|j] b Hj Hb; vm_compute in Hb; [by injection Hb as <-|done]]. intros g n Hg.
  assert (valid_values default_values) by (apply Validate_spec; reflexivity).
  simpl in Hg. apply lookup_insert_Some in Hg as [[_ <-]|[_ Hg]]; [done|].
  apply lookup_singleton_Some in Hg as [_ <-]. done.
Qed.

Lemma store_settings_agree_witness :
  let s := @serve_all PlainText.text ServedStore
    (@store_backend (sample_env true true 0) PlainText.text "" (fun _ => "") false) sample_server
    [batching_off_request; member_request "secret" "1"] admin_store in
  peer_batching (ss_network admin_store) 0 = Some true /\ peer_batching (ss_network s) 0 = Some false /\ store_ok s.
Proof.
  split; [vm_compute; reflexivity|]. split; [vm_compute; reflexivity|].
  apply (@store_settings_agree (sample_env true true 0) PlainText.text "" (fun _ => "") false PlainText.laws).
  exact admin_store_ok.
Defined.

Lemma store_request_isolated_witness :
  let request := "DELETE /v1/members/3?group_id=2 HTTP/1.1" +:+ crlf +:+ kAuthPrefix +:+ "secret" +:+ crlf +:+ crlf in
  @request_group PlainText.text sample_server request = 2 /\
  barely_changed (node_init (sample_group 1 [2; 3] false false))
    (groups_ (ss_store (final (@serve PlainText.text ServedStore
      (@store_backend (sample_env true true 0) PlainText.text "" (fun _ => "") false) sample_server request
      admin_store))) !! 1).
Proof.
  intros request. split; [reflexivity|].
  apply (@store_request_isolated (sample_env true true 0) PlainText.text "" (fun _ => "") false PlainText.laws);
    [done|reflexivity].
Defined.

Definition last_command (n : Node) : option string := data_ <$> list.last (entries_ (log_ (group_ n))).

(** A request to the store that names a group and no member proposes a member -1
    without an address; a single node refuses it. *)
Lemma missing_member_proposed :
  let E := sample_env true true 0 in
  let h := HAddMember (-1) "" 2 in
  let o := @run_store_handler E PlainText.text "" (fun _ => "") false h admin_store in
  value o = Some (@dump_object PlainText.text (reply_status "accepted" "Configuration change proposed")) /\
  last_command <$> (groups_ (ss_store (final o)) !! 2) = Some (Some "CONFIG_CHANGE:JOINT:[1,2,3]:[1,2,3,-1]") /\
  @run_handler E PlainText.text "" (fun _ => "") false h sample_served =
    Done (@dump_object PlainText.text (reply_error "BAD_REQUEST" "Invalid node_id or addr")) sample_served.
Proof. split; [|split]; vm_compute; reflexivity. Qed.
