(* ===== verification/Construct.v ===== *)
(** * Building groups: [src/raft_group.cpp], [src/raft_store.cpp]

    The constructor of [RaftGroup], the configuration that a store makes for one
    of its groups, and the directories the groups keep their data in. *)

From Stdlib Require Import Ascii.
From S2P Require Import Prelude Types RuntimeConfig RaftLog Quorum Sessions RaftGroup Timers Replicate Membership Text.
From S2P Require Import Bytes DenseIndex Disk Wal WalScan Identity Config AdminServer Store.

(** ** The whole configuration of a node *)

(** [rs_node] are the fields of [NodeSettings]; the fields for the metrics server
    and for injected factories are not read here. *)
Record RaftNodeSettings := mkRaftNodeSettings {
  rs_node : NodeSettings;
  rs_snapshot_threshold_entries : Z;
  rs_snapshot_threshold_bytes : Z;
  rs_snapshot_check_interval_ms : Z;
  rs_max_retry_attempts : Z;
  rs_base_retry_delay_ms : Z;
  rs_max_retry_delay_ms : Z;
  rs_log_retention_entries : Z;
  rs_propose_timeout_ms : Z;
  rs_max_snapshot_size_bytes : Z;
  rs_leader_lease_enabled : bool;
  rs_check_quorum_enabled : bool;
  rs_pre_vote_enabled : bool;
  rs_transport_batching_enabled : bool;
  rs_quiesced_mode_enabled : bool;
  rs_quiesced_idle_threshold_ms : Z;
  rs_quiesced_heartbeat_interval_ms : Z;
  rs_quiesced_election_timeout_ms : Z;
  rs_quiesced_max_consecutive_timeouts : Z
}.

(** The member initialisers, around the fields of [NodeSettings]. *)
Definition with_defaults (node : NodeSettings) (batching : bool) : RaftNodeSettings :=
  mkRaftNodeSettings node 10000 (10 * 1024 * 1024) 5000 5 10 500 0 5000 (100 * 1024 * 1024)
    true true true batching false 2000 5000 10000 3.

Definition MakeRuntimeConfigValues (config : RaftNodeSettings) : RuntimeConfigValues :=
  let node := rs_node config in
  mkRuntimeConfigValues (nc_election_timeout_ms node) (nc_heartbeat_interval_ms node)
    (nc_max_entries_per_append node) (nc_rpc_timeout_ms node)
    (rs_snapshot_threshold_entries config) (rs_snapshot_threshold_bytes config)
    (rs_snapshot_check_interval_ms config) (rs_max_retry_attempts config) (rs_base_retry_delay_ms config)
    (rs_max_retry_delay_ms config) (rs_log_retention_entries config) (rs_max_snapshot_size_bytes config)
    (rs_propose_timeout_ms config) (rs_leader_lease_enabled config)
    (max_pipeline_window default_values) (rs_transport_batching_enabled config).

(** The fields a group reads later. *)
Definition group_config (config : RaftNodeSettings) : RaftNodeConfig :=
  let node := rs_node config in
  mkRaftNodeConfig (nc_listen_addr node) (nc_auto_remove_dead_nodes node) (nc_dead_node_timeout_ms node)
    (rs_quiesced_mode_enabled config) (rs_quiesced_idle_threshold_ms config)
    (rs_quiesced_heartbeat_interval_ms config) (rs_quiesced_election_timeout_ms config)
    (rs_quiesced_max_consecutive_timeouts config) (nc_data_dir node) (nc_client_auth_enabled node).

(** ** The constructor *)

(** The id of each peer: the explicit one, or the port of its address. *)
Definition peer_ids (node : NodeSettings) : list NodeId :=
  if decide (nc_peer_node_ids node = []) then map ExtractNodeIdFromAddr (nc_peers node) else nc_peer_node_ids node.

(** [inl] is the text of the exception. *)
Fixpoint build_peer_map (peers : list (NodeId * NodeAddr)) (m : gmap Z NodeAddr) : string + gmap Z NodeAddr :=
  match peers with
  | [] => inr m
  | (peer_id, addr) :: peers =>
      if decide (peer_id < 0) then inl ("Cannot determine peer_id for address: " +:+ addr)
      else build_peer_map peers (<[peer_id := addr]> m)
  end.

Definition RaftGroup_new (group_id : Z) (config : RaftNodeSettings) (has_state_machine : bool) : string + RaftGroup :=
  let node := rs_node config in
  let ids := nc_peer_node_ids node in
  if negb has_state_machine then inl "StateMachine cannot be null"
  else if bool_decide (ids <> []) && bool_decide (length ids <> length (nc_peers node))
  then inl "peer_node_ids size must match peers size"
  else
    match build_peer_map (zip (peer_ids node) (nc_peers node)) ∅ with
    | inl what => inl what
    | inr peers =>
        inr ((group_init (nc_node_id node) (group_config config) (MakeRuntimeConfigValues config) []
                (rs_check_quorum_enabled config) (rs_pre_vote_enabled config))
               <| group_id_ := group_id |>
               <| peer_addrs_ := nc_peers node |>
               <| peer_map_ := peers |>
               <| cluster_config_ := mkClusterConfig (nc_node_id node :: peer_ids node) [] [] 1 false |>)
    end.

(** ** The groups of a store *)

Record RaftStoreConfig := mkRaftStoreConfig {
  sc_node_id : NodeId;
  sc_listen_addr : NodeAddr;
  sc_peers : list NodeAddr;
  sc_peer_node_ids : list NodeId;
  sc_data_dir : string;
  sc_metrics_enabled : bool;
  sc_metrics_addr : string;
  sc_tls_enabled : bool;
  sc_tls_cert_file : string;
  sc_tls_key_file : string;
  sc_tls_ca_file : string;
  sc_tls_mutual_auth : bool;
  sc_client_auth_enabled : bool;
  sc_client_ca_file : string;
  sc_client_authorizations : list ClientAuthorizationRule
}.

Record RaftGroupOptions := mkRaftGroupOptions {
  go_election_timeout_ms : Z;
  go_heartbeat_interval_ms : Z;
  go_peer_node_ids : list NodeId
}.

(** The constructor of the store; [inl] is the text of the exception. *)
Definition RaftStore_new (config : RaftStoreConfig) (batching : bool) : string + RaftStore :=
  if decide (sc_node_id config < 0) then inl "RaftStoreConfig node_id must be non-negative"
  else if decide (sc_listen_addr config = "") then inl "RaftStoreConfig listen_addr cannot be empty"
  else inr (mkRaftStore ∅ false false batching).

Definition group_dir (data_dir : string) (group_id : Z) : string := data_dir +:+ "/groups/" +:+ pretty group_id.

Definition MakeGroupConfig (config : RaftStoreConfig) (batching : bool) (group_id : Z) (options : RaftGroupOptions)
    : RaftNodeSettings :=
  let or_default (x d : Z) := if decide (0 < x) then x else d in
  with_defaults
    (mkNodeSettings (sc_node_id config) (sc_listen_addr config) (sc_peers config)
      (if decide (go_peer_node_ids options = []) then sc_peer_node_ids config else go_peer_node_ids options)
      (if decide (sc_data_dir config = "") then "" else group_dir (sc_data_dir config) group_id)
      (or_default (go_election_timeout_ms options) 300) (or_default (go_heartbeat_interval_ms options) 50) 100 500 30000
      (sc_metrics_enabled config) (sc_metrics_addr config) (sc_tls_enabled config) (sc_tls_cert_file config)
      (sc_tls_key_file config) (sc_tls_ca_file config) (sc_tls_mutual_auth config) (sc_client_auth_enabled config)
      (sc_client_ca_file config) (sc_client_authorizations config) false 600 1)
    batching.

(** ** What the constructor builds *)

(** A later entry of the same peer replaces an earlier one. *)
Lemma build_peer_map_spec l m :
  (forall p, p ∈ l.*1 -> 0 <= p) -> build_peer_map l m = inr (list_to_map (reverse l) ∪ m).
Proof.
  revert m. induction l as [|[p a] l IH]; intros m Hp; simpl.
  - by rewrite (left_id_L ∅ (∪)).
  - assert (0 <= p) by (apply Hp; simpl; left). rewrite decide_False by lia.
    rewrite IH by (intros q Hq; apply Hp; by right). f_equal.
    rewrite reverse_cons, list_to_map_app, <- (assoc_L (∪)). f_equal. simpl.
    by rewrite insert_empty, <- insert_union_singleton_l.
Qed.

Lemma build_peer_map_ok l m m' : build_peer_map l m = inr m' -> forall p, p ∈ l.*1 -> 0 <= p.
Proof.
  revert m. induction l as [|[p a] l IH]; intros m H q Hq; simpl in *; [set_solver|].
  case_decide; [done|]. apply elem_of_cons in Hq as [->|Hq]; [lia|]. by eapply IH.
Qed.

Lemma peer_ids_length node :
  nc_peer_node_ids node = [] \/ length (nc_peer_node_ids node) = length (nc_peers node) ->
  length (peer_ids node) = length (nc_peers node).
Proof. unfold peer_ids. case_decide; [rewrite length_map; done|]. naive_solver. Qed.

Lemma ids_of_peers node :
  length (peer_ids node) = length (nc_peers node) -> (zip (peer_ids node) (nc_peers node)).*1 = peer_ids node.
Proof. intros Hl. apply fst_zip. lia. Qed.

Lemma size_check node :
  bool_decide (nc_peer_node_ids node <> []) &&
    bool_decide (length (nc_peer_node_ids node) <> length (nc_peers node)) = false <->
  nc_peer_node_ids node = [] \/ length (nc_peer_node_ids node) = length (nc_peers node).
Proof.
  rewrite andb_false_iff, !bool_decide_eq_false. split; (intros [H|H]; [left|right]); try by apply dec_stable.
  all: intros Hn; by apply Hn.
Qed.

(** The constructor throws for a missing state machine, for ids that do not match
    the addresses, and for a peer without an id, and builds the group otherwise. *)
Lemma RaftGroup_new_spec group_id config has_state_machine g :
  let node := rs_node config in
  RaftGroup_new group_id config has_state_machine = inr g <->
  has_state_machine = true /\
  (nc_peer_node_ids node = [] \/ length (nc_peer_node_ids node) = length (nc_peers node)) /\
  (forall p, p ∈ peer_ids node -> 0 <= p) /\
  g = (group_init (nc_node_id node) (group_config config) (MakeRuntimeConfigValues config) []
         (rs_check_quorum_enabled config) (rs_pre_vote_enabled config))
        <| group_id_ := group_id |>
        <| peer_addrs_ := nc_peers node |>
        <| peer_map_ := list_to_map (reverse (zip (peer_ids node) (nc_peers node))) |>
        <| cluster_config_ := mkClusterConfig (nc_node_id node :: peer_ids node) [] [] 1 false |>.
Proof.
  intros node. unfold RaftGroup_new. fold node. destruct has_state_machine; simpl; [|by split; [|intros (?&_)]].
  destruct (bool_decide _ && bool_decide _) eqn:E.
  { split; [done|]. intros (_ & H & _). apply size_check in H. congruence. }
  apply size_check in E. pose proof (ids_of_peers node (peer_ids_length node E)) as Hids.
  split.
  - intros H. destruct (build_peer_map _ _) as [|m] eqn:Hb; [done|]. injection H as <-.
    pose proof (build_peer_map_ok _ _ _ Hb) as Hp. rewrite build_peer_map_spec in Hb by done.
    injection Hb as <-. rewrite Hids in Hp. rewrite (right_id_L ∅ (∪)). done.
  - intros (_ & _ & Hp & ->). rewrite <- Hids in Hp. rewrite build_peer_map_spec by done.
    by rewrite (right_id_L ∅ (∪)).
Qed.

Lemma voter_member (l : list NodeId) p : IsVoter (mkClusterConfig l [] [] 1 false) p = true <-> p ∈ l.
Proof. unfold IsVoter. simpl. rewrite <- IsMember_spec. by destruct (IsMember p l). Qed.

(** The group starts as a follower of term 0 with its configured members: it is a
    voter itself, it has an address for every other voter, and the addresses it has
    are the configured ones.  When no two peers have the same id it is the state
    that the theorems on elections and replication start from. *)
Theorem group_built group_id config g :
  RaftGroup_new group_id config true = inr g ->
  let node := rs_node config in
  server_id_ g = nc_node_id node /\ group_id_ g = group_id /\ role_ g = FOLLOWER /\ current_term_ g = 0 /\
  runtime_config_ g = MakeRuntimeConfigValues config /\
  IsVoter (cluster_config_ g) (nc_node_id node) = true /\
  (forall p, IsVoter (cluster_config_ g) p = true -> p = nc_node_id node \/ is_Some (peer_map_ g !! p)) /\
  (forall p a, peer_map_ g !! p = Some a ->
     exists i, peer_ids node !! i = Some p /\ nc_peers node !! i = Some a) /\
  (NoDup (peer_ids node) ->
     g = (group_init (nc_node_id node) (group_config config) (MakeRuntimeConfigValues config)
            (zip (peer_ids node) (nc_peers node)) (rs_check_quorum_enabled config) (rs_pre_vote_enabled config))
           <| group_id_ := group_id |>).
Proof.
  intros (_ & Hl & Hp & ->)%RaftGroup_new_spec node. pose proof (peer_ids_length node Hl) as Hlen.
  pose proof (ids_of_peers node Hlen) as Hids.
  assert ((zip (peer_ids node) (nc_peers node)).*2 = nc_peers node) as Haddrs by (apply snd_zip; lia).
  subst node. do 5 (split; [done|]). split; [|split; [|split]].
  - apply voter_member. left.
  - intros p [->|Hv]%voter_member%elem_of_cons; [by left|]. right. simpl.
    apply not_eq_None_Some. intros Hn%not_elem_of_list_to_map_2. apply Hn.
    rewrite fmap_reverse, Hids. by apply elem_of_reverse.
  - simpl. intros p a Ha%elem_of_list_to_map_2. rewrite elem_of_reverse in Ha.
    apply list_elem_of_lookup in Ha as (i & Hi). apply lookup_zip_Some in Hi. eauto.
  - intros Hd. unfold group_init. rewrite Hids, Haddrs.
    assert (list_to_map (reverse (zip (peer_ids (rs_node config)) (nc_peers (rs_node config)))) =
            list_to_map (zip (peer_ids (rs_node config)) (nc_peers (rs_node config))) :> gmap Z NodeAddr) as ->; [|done].
    apply list_to_map_proper; [|by rewrite reverse_Permutation]. by rewrite fmap_reverse, Hids, reverse_Permutation.
Qed.

Lemma validate_sizes node :
  ValidateNodeConfig node = StOK ->
  nc_peer_node_ids node = [] \/ length (nc_peer_node_ids node) = length (nc_peers node).
Proof.
  unfold ValidateNodeConfig. repeat first [rewrite refuse_ok|rewrite and_then_ok]. rewrite peer_ids_ok. tauto.
Qed.

Lemma validate_data_dir node : ValidateNodeConfig node = StOK -> nc_data_dir node <> "".
Proof.
  unfold ValidateNodeConfig. repeat first [rewrite refuse_ok|rewrite and_then_ok]. rewrite !bool_decide_eq_false. tauto.
Qed.

(** Of a valid configuration, the constructor refuses only peers without an id. *)
Lemma validated_group_built group_id config :
  ValidateNodeConfig (rs_node config) = StOK ->
  ((exists g, RaftGroup_new group_id config true = inr g) <-> forall p, p ∈ peer_ids (rs_node config) -> 0 <= p).
Proof.
  intros Hv%validate_sizes. split.
  - intros [g (_ & _ & Hp & _)%RaftGroup_new_spec]. done.
  - intros Hp. eexists. by apply RaftGroup_new_spec.
Qed.

(** ** Directories *)

Lemma avoids_pretty_go c x s :
  (forall d, pretty_N_char d <> c) -> avoids c s = true -> avoids c (pretty_N_go x s) = true.
Proof.
  intros Hc. revert s. induction (N.lt_wf_0 x) as [x _ IH]. intros s Hs.
  destruct (decide (x = 0%N)) as [->|Hx]; [by rewrite pretty_N_go_0|].
  rewrite pretty_N_go_step by lia. apply IH; [apply N.div_lt; lia|].
  simpl. by rewrite bool_decide_eq_true_2.
Qed.

Lemma avoids_pretty c z : 0 <= z -> (forall d, pretty_N_char d <> c) -> avoids c (pretty z) = true.
Proof.
  intros Hz Hc. rewrite pretty_Z_N by done. unfold pretty, pretty_N. case_decide.
  - simpl. specialize (Hc 0%N). by rewrite bool_decide_eq_true_2.
  - by apply avoids_pretty_go.
Qed.

Lemma slash_no_digit d : pretty_N_char d <> "/"%char.
Proof. unfold pretty_N_char. by repeat case_match. Qed.

Lemma str_app_inj_l p s t : p +:+ s = p +:+ t -> s = t.
Proof. induction p as [|a p IH]; [done|]. rewrite !str_app_cons. intros [= H]. by apply IH. Qed.

Lemma segment_unique c s x t y :
  avoids c s = true -> avoids c t = true -> s +:+ String c x = t +:+ String c y -> s = t /\ x = y.
Proof.
  revert t. induction s as [|a s IH]; intros [|b t] Hs Ht; simpl in *.
  - by intros [= ->].
  - rewrite str_app_cons. intros [= <- _]. by apply andb_true_iff in Ht as [Ht%bool_decide_eq_true _].
  - rewrite str_app_cons. intros [= -> _]. by apply andb_true_iff in Hs as [Hs%bool_decide_eq_true _].
  - rewrite !str_app_cons. intros [= <- H]. apply andb_true_iff in Hs as [_ Hs], Ht as [_ Ht].
    by destruct (IH _ Hs Ht H) as [-> ->].
Qed.

(** No file below the directory of one group is a file below that of another. *)
Lemma group_dirs_disjoint data_dir g g' x y :
  0 <= g -> 0 <= g' -> group_dir data_dir g +:+ "/" +:+ x = group_dir data_dir g' +:+ "/" +:+ y -> g = g' /\ x = y.
Proof.
  intros Hg Hg' H. unfold group_dir in H. rewrite !str_app_assoc in H. apply str_app_inj_l, str_app_inj_l in H.
  destruct (segment_unique "/" (pretty g) x (pretty g') y) as [Hp ->];
    [apply avoids_pretty; auto using slash_no_digit..|exact H|].
  split; [|done]. pose proof (read_digits_pretty g Hg) as H1. rewrite Hp, read_digits_pretty in H1 by done. congruence.
Qed.

(** ** The settings of a store's groups *)

(** Every group of a store has the store's identity, peers and write coalescing,
    files of its own, and a runtime configuration that is valid exactly when the
    two timeouts of its options suit each other and the other defaults. *)
Theorem store_group_settings config batching g options :
  let settings := MakeGroupConfig config batching g options in
  let values := MakeRuntimeConfigValues settings in
  let election := if decide (0 < go_election_timeout_ms options) then go_election_timeout_ms options else 300 in
  let heartbeat := if decide (0 < go_heartbeat_interval_ms options) then go_heartbeat_interval_ms options else 50 in
  nc_node_id (rs_node settings) = sc_node_id config /\
  nc_peers (rs_node settings) = sc_peers config /\
  transport_batching_enabled values = batching /\
  (valid_values values <-> 50 <= election <= 5000 /\ 10 <= heartbeat <= 500 /\ heartbeat < election) /\
  (forall g' options' x y, 0 <= g -> 0 <= g' -> sc_data_dir config <> "" ->
     nc_data_dir (rs_node settings) +:+ "/" +:+ x =
       nc_data_dir (rs_node (MakeGroupConfig config batching g' options')) +:+ "/" +:+ y -> g = g').
Proof.
  intros settings values election heartbeat. do 3 (split; [done|]). split.
  - split.
    + intros []. unfold RuntimeConfig.in_range in *. simpl in *. subst election heartbeat. lia.
    + intros (He & Hh & Hl). subst election heartbeat. split; unfold RuntimeConfig.in_range; simpl; lia.
  - intros g' options' x y Hg Hg' Hd. subst settings. unfold MakeGroupConfig. simpl. rewrite !decide_False by done.
    intros H. by apply group_dirs_disjoint in H as [-> _].
Qed.

(** A store without a directory creates no group, although its groups could do
    without a persister. *)
Lemma no_directory_no_groups config batching g options :
  sc_data_dir config = "" -> ValidateNodeConfig (rs_node (MakeGroupConfig config batching g options)) <> StOK.
Proof.
  intros Hd Hv. apply validate_data_dir in Hv. apply Hv. simpl. by rewrite decide_True.
Qed.

Definition sample_store_config : RaftStoreConfig :=
  mkRaftStoreConfig 1 "10.0.0.1:8001" ["10.0.0.2:8002"; "10.0.0.3:8003"] [2; 3] "/var/raft" false "" false "" "" ""
    false false "" [].

(** A configuration that is accepted can have timeouts outside the ranges of the
    runtime configuration.  Such a group runs, but every update of its runtime
    configuration is refused, the store's own included. *)
Lemma accepted_settings_block_updates :
  let settings := MakeGroupConfig sample_store_config false 7 (mkRaftGroupOptions 6000 0 []) in
  ValidateNodeConfig (rs_node settings) = StOK /\
  forall g n, RaftGroup_new 7 settings true = inr g -> group_ n = g -> update_batching true n = n.
Proof.
  split; [vm_compute; reflexivity|]. intros g n (_ & _ & _ & ->)%RaftGroup_new_spec Hn.
  unfold update_batching. rewrite Hn. reflexivity.
Qed.

Lemma group_built_witness :
  exists g, RaftGroup_new 7 (MakeGroupConfig sample_store_config true 7 (mkRaftGroupOptions 0 0 [])) true = inr g /\
    IsVoter (cluster_config_ g) 1 = true.
Proof.
  eexists. split; [vm_compute; reflexivity|].
  refine (proj1 (proj2 (proj2 (proj2 (proj2 (proj2 (group_built 7
    (MakeGroupConfig sample_store_config true 7 (mkRaftGroupOptions 0 0 [])) _ _))))))).
  vm_compute. reflexivity.
Defined.
