(* ===== verification/GroupPersister.v ===== *)
(** * The persister of a store's group: [src/multi_raft_persister.cpp]

    [MultiRaftPersister] is a [HybridPersister] in the directory of its group.  It
    keeps the persister's contract, so what is proved of the log persister against
    the contract holds for every group of a store. *)

From S2P Require Import Prelude Types Bytes DenseIndex Disk RaftLog Quorum RaftGroup Timers Replicate Membership Text.
From S2P Require Import Sha256 LevelDb StatePersister StateDurable Wal WalScan WalInv WalOpen WalOps WalLog WalRefine WalCrash.
From S2P Require Import GroupCommit LogPersister LogDurable Hybrid HybridDurable Identity Config AdminServer Store Construct.

Record MultiRaftPersister (DB : Type) := mkMultiRaftPersister {
  mp_group_id : Z;
  mp_base_data_dir : string;
  mp_inner : option (HybridPersister DB);
  mp_opened : bool;
  mp_sync_on_write : option bool;
  mp_compression_type : CompressionType
}.
#[global] Instance MultiRaftPersister_eta DB : Eta (MultiRaftPersister DB) := fun r =>
  mkMultiRaftPersister DB (mp_group_id DB r) (mp_base_data_dir DB r) (mp_inner DB r) (mp_opened DB r)
    (mp_sync_on_write DB r) (mp_compression_type DB r).
Arguments mkMultiRaftPersister {DB}.
Arguments mp_group_id {DB}.
Arguments mp_base_data_dir {DB}.
Arguments mp_inner {DB}.
Arguments mp_opened {DB}.
Arguments mp_sync_on_write {DB}.
Arguments mp_compression_type {DB}.

Section multi.
Context {DB : Type} `{!LevelDB DB} `{!ClusterJson} {LIB : WalLib}.
Notation HP := (HybridPersister DB).
Notation MP := (MultiRaftPersister DB).

Definition MultiRaftPersister_new (group_id : Z) (base_data_dir : string) : MP :=
  mkMultiRaftPersister group_id base_data_dir None false None kNoCompression.

Definition GroupDataDir (p : MP) : string := group_dir (mp_base_data_dir p) (mp_group_id p).

(** A call of the inner persister.  Before [Open] there is none: the call is
    undefined, and [undefined] stands for what it gives. *)
Definition on_inner {A} (undefined : A) (m : State HP A) : State MP A := fun s =>
  match mp_inner s with
  | Some p => ((m p).1, s <| mp_inner := Some (m p).2 |>)
  | None => (undefined, s)
  end.

(** [made] is whether the directory can be made, [None] the exception otherwise;
    [d] and [db] are the files and the database found in it. *)
Definition MpOpen (made : bool) (d : Disk) (db : DB) (ec_message : string) : State MP (option Status) :=
  o ← reads mp_opened;
  if (o : bool) then mret (Some StOK)
  else if negb made then mret None
  else
    dir ← reads GroupDataDir;
    updates (fun s => s <| mp_inner := Some (HybridPersister_new d db) |>) ;;
    compression ← reads mp_compression_type;
    on_inner tt (HpSetCompressionType compression) ;;
    sync ← reads mp_sync_on_write;
    match sync with
    | Some b => on_inner tt (HpSetSyncOnWrite b)
    | None => mret tt
    end ;;
    status ← on_inner StOK (HpOpen dir ec_message);
    whenS (status_ok status) (updates (fun s => s <| mp_opened := true |>)) ;;
    mret (Some status).

Definition MpClose : State MP unit :=
  inner ← reads mp_inner;
  match inner with
  | Some _ => on_inner tt HpClose
  | None => mret tt
  end ;;
  updates (fun s => s <| mp_opened := false |>).

Definition undefined_status : Status := Error1 "undefined".

Definition MpSaveState (st : PersistentState) : State MP Status := on_inner undefined_status (HpSaveState st).
Definition MpLoadState (st : PersistentState) : State MP (Status * PersistentState) :=
  on_inner (undefined_status, st) (HpLoadState st).
Definition MpAppendEntries (entries : list RaftLogEntry) : State MP Status :=
  on_inner undefined_status (HpAppendEntries entries).
Definition MpSync : State MP Status := on_inner undefined_status HpSync.
Definition MpGetEntries (start end_ : Z) : State MP (Status * list RaftLogEntry) :=
  on_inner (undefined_status, []) (HpGetEntries start end_).
Definition MpGetEntry (index : Z) : State MP (Status + RaftLogEntry) :=
  on_inner (inl undefined_status) (HpGetEntry index).
Definition MpTruncateSuffix (from_index : Z) : State MP Status :=
  on_inner undefined_status (HpTruncateSuffix from_index).
Definition MpTruncatePrefix (before_index : Z) : State MP Status :=
  on_inner undefined_status (HpTruncatePrefix before_index).
Definition MpGetLastLogInfo : State MP (Z * Z) := on_inner (0, 0) HpGetLastLogInfo.
Definition MpSaveSnapshot (snapshot_data : bytes) (last_index last_term : Z) : State MP Status :=
  on_inner undefined_status (HpSaveSnapshot snapshot_data last_index last_term).
Definition MpLoadSnapshot (out : SnapshotOut) : State MP (Status * SnapshotOut) :=
  on_inner (undefined_status, out) (HpLoadSnapshot out).
Definition MpSaveSnapshotStream (p : ChunkProvider) (last_index last_term : Z) : State MP Status :=
  on_inner undefined_status (HpSaveSnapshotStream p last_index last_term).
Definition MpLoadSnapshotStream (last_index last_term : Z) : State MP (option (Status * list bytes * Z * Z)) :=
  on_inner (Some (undefined_status, [], last_index, last_term)) (HpLoadSnapshotStream last_index last_term).
Definition MpHasSnapshot : State MP bool := on_inner false HpHasSnapshot.

Definition MpSetSyncOnWrite (sync : bool) : State MP unit :=
  updates (fun s => s <| mp_sync_on_write := Some sync |>) ;;
  inner ← reads mp_inner;
  match inner with Some _ => on_inner tt (HpSetSyncOnWrite sync) | None => mret tt end.
Definition MpSetCompressionType (type : CompressionType) : State MP unit :=
  updates (fun s => s <| mp_compression_type := type |>) ;;
  inner ← reads mp_inner;
  match inner with Some _ => on_inner tt (HpSetCompressionType type) | None => mret tt end.

#[global] Instance multi_ops : PersisterOps MP := {
  p_append_entries := MpAppendEntries;
  p_sync := MpSync;
  p_truncate_prefix := MpTruncatePrefix;
  p_truncate_suffix := MpTruncateSuffix;
  p_get_entries := MpGetEntries;
  p_get_last_log_info := MpGetLastLogInfo;
  p_set_sync_on_write := MpSetSyncOnWrite
}.

(** ** The contract *)

Context `{!LevelDBLaws DB} {LAWS : WalLaws}.

Definition mp_holds (s : MP) (h d : list Cmd) : Prop := exists p, mp_inner s = Some p /\ hp_holds p h d.

Lemma on_inner_run {A} (u : A) (m : State HP A) s p :
  mp_inner s = Some p -> on_inner u m s = ((m p).1, s <| mp_inner := Some (m p).2 |>).
Proof. intros E. unfold on_inner. by rewrite E. Qed.

Lemma mp_holds_inner (s : MP) p h d : hp_holds p h d -> mp_holds (s <| mp_inner := Some p |>) h d.
Proof. intros Hp. by exists p. Qed.

#[global, refine] Instance multi_spec : PersisterSpec MP := {
  holds := mp_holds;
  cmd_fits := cmd_ok;
  max_history := UINT64_MAX - 2
}.
Proof.
  - intros s h d (p & _ & Hp). exact (holds_prefix (PersisterSpec := hybrid_spec) p h d Hp).
  - intros s h d es (p & E & Hp) Hok Hn. destruct (append_spec (PersisterSpec := hybrid_spec) p h d es Hp Hok Hn) as (n & d' & Hd & Hh & Hs).
    exists n, d'. simpl. unfold MpAppendEntries. rewrite (on_inner_run _ _ _ _ E). cbn [fst snd].
    split; [done|]. split; [by apply mp_holds_inner|done].
  - intros s h d (p & E & Hp). destruct (sync_spec (PersisterSpec := hybrid_spec) p h d Hp) as (d' & Hd & Hh & Hs).
    exists d'. simpl. unfold MpSync. rewrite (on_inner_run _ _ _ _ E). cbn [fst snd].
    split; [done|]. split; [by apply mp_holds_inner|done].
  - intros s h d i (p & E & Hp) Hc Hn. destruct (truncate_prefix_spec (PersisterSpec := hybrid_spec) p h d i Hp Hc Hn) as (n & d' & Hd & Hh).
    exists n, d'. simpl. unfold MpTruncatePrefix. rewrite (on_inner_run _ _ _ _ E). cbn [fst snd].
    split; [done|by apply mp_holds_inner].
  - intros s h d i (p & E & Hp) Hc Hn. destruct (truncate_suffix_spec (PersisterSpec := hybrid_spec) p h d i Hp Hc Hn) as (n & d' & Hd & Hh).
    exists n, d'. simpl. unfold MpTruncateSuffix. rewrite (on_inner_run _ _ _ _ E). cbn [fst snd].
    split; [done|by apply mp_holds_inner].
  - intros s h d b (p & E & Hp). simpl. unfold MpSetSyncOnWrite. st. proj_simp. rewrite E. cbn [fst snd].
    rewrite (on_inner_run _ _ _ p) by done. cbn [snd]. apply mp_holds_inner. by apply (set_sync_spec (PersisterSpec := hybrid_spec)).
Defined.

(** ** Opening *)

(** The persister that [Open] makes, with the settings made before. *)
Definition new_inner (s : MP) (d : Disk) (db : DB) : HP :=
  let sp := (StatePersister_new db) <| sp_compression_type := mp_compression_type s |> in
  mkHybridPersister false "" (Wal_new d)
    (match mp_sync_on_write s with Some b => sp <| sp_sync_on_write := b |> | None => sp end).

Lemma MpOpen_run d db msg s :
  mp_opened s = false ->
  exists s', MpOpen true d db msg s = (Some (HpOpen (GroupDataDir s) msg (new_inner s d db)).1, s') /\
    mp_inner s' = Some (HpOpen (GroupDataDir s) msg (new_inner s d db)).2 /\
    mp_opened s' = status_ok (HpOpen (GroupDataDir s) msg (new_inner s d db)).1.
Proof.
  intros Ho. unfold MpOpen. st. rewrite Ho. cbn [negb]. cbv iota. st. cbv iota.
  destruct s as [g base inner opened sync compression]. simpl in Ho. subst opened.
  unfold on_inner at 1. simpl. st. simpl.
  destruct sync as [b|]; simpl; st; unfold on_inner; simpl; st;
    unfold new_inner; simpl;
    destruct (HpOpen _ msg _) as [status p]; simpl; destruct (status_ok status) eqn:Es; eexists; split_and!; done.
Qed.

Lemma new_inner_state s d db :
  exists sp, new_inner s d db = mkHybridPersister false "" (Wal_new d) sp /\ sp_open sp = false /\ sp_db sp = db.
Proof. unfold new_inner. eexists. split; [done|]. by destruct (mp_sync_on_write s). Qed.

(** The files that are left when the process is killed. *)
Definition mp_files (s : MP) : option Disk := (fun p => wal_disk (hp_wal p)) <$> mp_inner s.

(** The log of a group of a store, from the durability callback to the next start,
    as [acknowledged_survives_restart] says it of the hybrid persister: when the
    process dies between two steps, the group's persister finds in the files of its
    directory a prefix of the history that has every entry whose callback reported
    success. *)
Theorem group_log_survives_restart group_id base msg d (db db' : DB) config now owner cs :
  d_tape d = [] -> d_kind d <> NotDir -> d_files d = ∅ -> db_healthy db -> db_healthy db' ->
  Forall (call_fits (P := MP) owner) cs -> Z.of_nat (length cs * S (length cs)) + 2 <= UINT64_MAX ->
  let p := (MpOpen true d db msg (MultiRaftPersister_new group_id base)).2 in
  let s := lp_run (LogPersister_new (Some p) config now) cs in
  exists p1 files issued durable p2 found,
    lp_persister s = Some p1 /\ mp_files p1 = Some files /\ holds p1 issued durable /\
    MpOpen true files db' msg (MultiRaftPersister_new group_id base) = (Some StOK, p2) /\ found `prefix_of` issued /\
    (forall k st, (k, st) ∈ lp_fired s -> status_ok st = true -> CEntry (owner k) ∈ found) /\
    (forall i, (MpGetEntry i p2).1 = log_get i (log_of found)).
Proof.
  intros Ht Hk Hf Hd Hd' Hcs HN p s. set (m0 := MultiRaftPersister_new group_id base : MP).
  assert (exists s0, MpOpen true d db msg m0 = (Some StOK, s0) /\ mp_holds s0 [] []) as (s0 & E0 & H0).
  { destruct (MpOpen_run d db msg m0 eq_refl) as (s0 & E & Hi & _).
    destruct (new_inner_state m0 d db) as (sp & Esp & Ho & Hdb). rewrite Esp in E, Hi.
    destruct (HpOpen_new (GroupDataDir m0) msg d sp Ht Hk Hf Ho) as (p0 & Ep & Hp0); [by rewrite Hdb|].
    rewrite Ep in E, Hi. exists s0. split; [done|]. by exists p0. }
  unfold s, p. fold m0. rewrite E0. cbn [snd].
  assert (HN' : Z.of_nat (length cs * S (length cs)) <= max_history (P := MP)) by (cbn; lia).
  destruct (lp_run_inv owner (length cs) HN' ltac:(lia) cs _ s0 [] [] 0
    (lp_new_inv owner _ HN' s0 config now H0)) as (p1 & h & d1 & I & _); [lia|done|].
  destruct (li_holds _ _ _ _ _ _ _ I) as (hp & Ehp & Hhp).
  destruct (MpOpen_run (wal_disk (hp_wal hp)) db' msg m0 eq_refl) as (p2 & E2 & Hi2 & _).
  destruct (new_inner_state m0 (wal_disk (hp_wal hp)) db') as (sp & Esp & Ho & Hdb). rewrite Esp in E2, Hi2.
  destruct (HpOpen_killed (GroupDataDir m0) msg hp h d1 sp Hhp Ho) as (p2' & q & R2 & Hq & Ho2 & Hw); [by rewrite Hdb|].
  unfold killed in R2. rewrite R2 in E2, Hi2. cbn [fst snd] in *.
  exists p1, (wal_disk (hp_wal hp)), h, d1, p2, (d1 ++ q). split; [apply I|]. split; [unfold mp_files; by rewrite Ehp|].
  split; [apply I|]. split_and!; [done..| |].
  - intros k st Hin Hst. apply elem_of_app. left. by apply (li_fired _ _ _ _ _ _ _ I k st).
  - intros i. unfold MpGetEntry. rewrite (on_inner_run _ _ _ _ Hi2). cbn [fst]. by eapply HpGetEntry_ok.
Qed.
End multi.

(** ** Witness *)
Import PlainLib PlainJson.

Definition sample_group_persister : MultiRaftPersister MemDb :=
  (MpOpen true empty_disk empty_db "" (MultiRaftPersister_new 7 "/var/raft")).2.
Definition sample_group_lp : LogPersister (MultiRaftPersister MemDb) :=
  lp_run (LogPersister_new (Some sample_group_persister) LogPersistenceConfig_default 0) sample_run.

Lemma sample_run_fits_group : Forall (call_fits (P := MultiRaftPersister MemDb) sample_owner) sample_run.
Proof. exact sample_run_fits. Qed.

Lemma group_log_survives_restart_witness :
  exists p1 files issued durable p2 found,
    lp_persister sample_group_lp = Some p1 /\ mp_files p1 = Some files /\ holds p1 issued durable /\
    MpOpen true files empty_db "" (MultiRaftPersister_new 7 "/var/raft") = (Some StOK, p2) /\
    found `prefix_of` issued /\
    (forall k st, (k, st) ∈ lp_fired sample_group_lp -> status_ok st = true -> CEntry (sample_owner k) ∈ found) /\
    (forall i, (MpGetEntry i p2).1 = log_get i (log_of found)).
Proof.
  unfold sample_group_lp, sample_group_persister.
  apply (group_log_survives_restart 7 "/var/raft" "" empty_disk empty_db empty_db
    LogPersistenceConfig_default 0 sample_owner sample_run).
  - done.
  - done.
  - done.
  - done.
  - done.
  - apply sample_run_fits_group.
  - by vm_compute.
Defined.
