(* ===== verification/Events.v ===== *)
(** * Events: [include/rollingraft/event.h], [src/event.cpp] and their broadcast

    The event bus of a node with typed and general subscriptions, the text of an
    event ([FormatSseEvent] of [src/raft_node_core.cpp]), and its broadcast to the
    streams of the HTTP server ([src/metrics_http_server.cpp]).  A handler is known
    by an id; the clock's reading is an argument. *)

From Stdlib Require Import Ascii.
From S2P Require Import Prelude Types RuntimeConfig RaftLog Quorum Sessions RaftGroup Timers Replicate Membership Text.
From S2P Require Import Json AdminServer RateLimit AdminHandlers.

(** ** Events *)

Inductive EventType :=
| NodeRoleChangedEvent | LeaderChangedEvent | MembershipChangedEvent | LogCompactedEvent | SnapshotInstalledEvent
| ProposalCommittedEvent | ProposalAppliedEvent | ElectionTimeoutEvent | NodeLifecycleEvent.
#[global] Instance EventType_eq_dec : EqDecision EventType.
Proof. solve_decision. Defined.

Inductive MembershipChange := kAdd | kRemove.
Inductive Lifecycle := kLifecycleStarted | kLifecycleStopped.

(** The fields besides the node and the time of an event. *)
Inductive EventData :=
| NodeRoleChanged (old_role new_role : RaftNodeRole) (term : Term)
| LeaderChanged (old_leader_id new_leader_id : NodeId) (new_leader_addr : NodeAddr) (term : Term)
| MembershipChanged (change_type : MembershipChange) (target_node_id : NodeId) (target_node_addr : NodeAddr)
    (config_version : Z) (term : Term)
| LogCompacted (snapshot_index : Index) (snapshot_term : Term) (bytes_reclaimed log_size_before log_size_after : Z)
| SnapshotInstalled (from_leader_id : NodeId) (snapshot_index : Index) (snapshot_term : Term) (bytes_received : Z)
    (success : bool) (error_message : string)
| ProposalCommitted (index : Index) (term : Term)
| ProposalApplied (index : Index) (term : Term) (success : bool)
| ElectionTimeout (current_term : Term) (current_role : RaftNodeRole)
| NodeLifecycle (state : Lifecycle).

Record RaftEvent := mkRaftEvent {
  ev_node_id : NodeId;
  ev_timestamp : Z;
  ev_data : EventData
}.

Definition data_type (d : EventData) : EventType :=
  match d with
  | NodeRoleChanged _ _ _ => NodeRoleChangedEvent
  | LeaderChanged _ _ _ _ => LeaderChangedEvent
  | MembershipChanged _ _ _ _ _ => MembershipChangedEvent
  | LogCompacted _ _ _ _ _ => LogCompactedEvent
  | SnapshotInstalled _ _ _ _ _ _ => SnapshotInstalledEvent
  | ProposalCommitted _ _ => ProposalCommittedEvent
  | ProposalApplied _ _ _ => ProposalAppliedEvent
  | ElectionTimeout _ _ => ElectionTimeoutEvent
  | NodeLifecycle _ => NodeLifecycleEvent
  end.

Definition event_name (t : EventType) : string :=
  match t with
  | NodeRoleChangedEvent => "NodeRoleChanged"
  | LeaderChangedEvent => "LeaderChanged"
  | MembershipChangedEvent => "MembershipChanged"
  | LogCompactedEvent => "LogCompacted"
  | SnapshotInstalledEvent => "SnapshotInstalled"
  | ProposalCommittedEvent => "ProposalCommitted"
  | ProposalAppliedEvent => "ProposalApplied"
  | ElectionTimeoutEvent => "ElectionTimeout"
  | NodeLifecycleEvent => "NodeLifecycle"
  end.

Definition Is (t : EventType) (e : RaftEvent) : bool := bool_decide (data_type (ev_data e) = t).

(** ** The bus *)

Definition HandlerId : Type := nat.

(** [subscriptions_ t] is the table of the subscriptions to a type. *)
Record EventBus := mkEventBus {
  eb_next_id : Z;
  eb_subscriptions : EventType -> gmap Z HandlerId;
  eb_wildcard : gmap Z HandlerId
}.
#[global] Instance EventBus_eta : Eta EventBus := fun r =>
  mkEventBus (eb_next_id r) (eb_subscriptions r) (eb_wildcard r).

Definition EventBus_new : EventBus := mkEventBus 1 (fun _ => ∅) ∅.

Definition Subscribe (t : EventType) (handler : HandlerId) (b : EventBus) : Z * EventBus :=
  let id := eb_next_id b in
  (id, b <| eb_next_id := u64 (id + 1) |>
         <| eb_subscriptions ::= fun f t' => if decide (t' = t) then <[id := handler]> (f t') else f t' |>).

Definition SubscribeAll (handler : HandlerId) (b : EventBus) : Z * EventBus :=
  let id := eb_next_id b in
  (id, b <| eb_next_id := u64 (id + 1) |> <| eb_wildcard ::= <[id := handler]> |>).

Definition Unsubscribe (id : Z) (b : EventBus) : EventBus :=
  b <| eb_subscriptions ::= fun f t => delete id (f t) |> <| eb_wildcard ::= delete id |>.

Definition all_types : list EventType :=
  [NodeRoleChangedEvent; LeaderChangedEvent; MembershipChangedEvent; LogCompactedEvent; SnapshotInstalledEvent;
   ProposalCommittedEvent; ProposalAppliedEvent; ElectionTimeoutEvent; NodeLifecycleEvent].
Definition SubscriptionCount (b : EventBus) : nat :=
  size (eb_wildcard b) + sum_list_with (fun t => size (eb_subscriptions b t)) all_types.

(** The handlers are called one after the other; [throws] is whether a handler
    ends in an exception, which leaves the loop. *)
Fixpoint call_handlers (throws : HandlerId -> bool) (handlers : list HandlerId) : list HandlerId * bool :=
  match handlers with
  | [] => ([], false)
  | h :: rest =>
      if throws h then ([h], true)
      else let '(called, thrown) := call_handlers throws rest in (h :: called, thrown)
  end.

(** The handlers that an event calls, and whether an exception leaves [Publish]. *)
Definition Publish (throws : HandlerId -> bool) (e : RaftEvent) (b : EventBus) : list HandlerId * bool :=
  call_handlers throws
    ((map_to_list (eb_subscriptions b (data_type (ev_data e)))).*2 ++ (map_to_list (eb_wildcard b)).*2).

(** ** What the bus promises *)

(** A subscription: its id, the type it is for ([None] for all), its handler. *)
Record Subscription := mkSubscription {
  su_id : Z;
  su_type : option EventType;
  su_handler : HandlerId
}.

Inductive BusOp := OpSubscribe (t : EventType) (h : HandlerId) | OpSubscribeAll (h : HandlerId) | OpUnsubscribe (id : Z).

Definition bus_op (b : EventBus) (o : BusOp) : EventBus :=
  match o with
  | OpSubscribe t h => (Subscribe t h b).2
  | OpSubscribeAll h => (SubscribeAll h b).2
  | OpUnsubscribe id => Unsubscribe id b
  end.

(** The subscriptions as a list, the next id beside it. *)
Definition spec_op (s : Z * list Subscription) (o : BusOp) : Z * list Subscription :=
  match o with
  | OpSubscribe t h => (s.1 + 1, s.2 ++ [mkSubscription s.1 (Some t) h])
  | OpSubscribeAll h => (s.1 + 1, s.2 ++ [mkSubscription s.1 None h])
  | OpUnsubscribe id => (s.1, filter (fun x => su_id x <> id) s.2)
  end.

Definition interested (t : EventType) (x : Subscription) : bool :=
  match su_type x with None => true | Some t' => bool_decide (t' = t) end.

Definition bus_run (ops : list BusOp) : EventBus := foldl bus_op EventBus_new ops.
Definition spec_run (ops : list BusOp) : Z * list Subscription := foldl spec_op (1, []) ops.

(** The table of the subscriptions that [P] selects. *)
Definition table (P : Subscription -> bool) (l : list Subscription) : gmap Z HandlerId :=
  list_to_map ((fun x => (su_id x, su_handler x)) <$> filter (fun x => P x = true) l).

Definition typed (t : EventType) (x : Subscription) : bool := bool_decide (su_type x = Some t).
Definition general (x : Subscription) : bool := bool_decide (su_type x = None).

Record bus_refines (b : EventBus) (s : Z * list Subscription) : Prop := {
  br_next : eb_next_id b = u64 s.1;
  br_ids : forall x, x ∈ s.2 -> 0 < su_id x < s.1;
  br_nodup : NoDup (su_id <$> s.2);
  br_typed t : eb_subscriptions b t = table (typed t) s.2;
  br_general : eb_wildcard b = table general s.2
}.

Lemma table_snoc P l x :
  su_id x ∉ (su_id <$> l) ->
  table P (l ++ [x]) = if P x then <[su_id x := su_handler x]> (table P l) else table P l.
Proof.
  intros Hx. unfold table. rewrite list.filter_app, fmap_app. destruct (P x) eqn:E.
  - rewrite filter_cons_True by done. simpl. rewrite list_to_map_snoc; [done|].
    intros Hin. apply Hx. rewrite <- list_fmap_compose in Hin. apply list_elem_of_fmap in Hin as (y & Hy & Hin).
    apply list_elem_of_filter in Hin as [_ Hin]. apply list_elem_of_fmap. eauto.
  - rewrite filter_cons_False by congruence. simpl. by rewrite app_nil_r.
Qed.

Lemma table_delete P id l : table P (filter (fun x => su_id x <> id) l) = delete id (table P l).
Proof.
  unfold table. induction l as [|x l IH]; [symmetry; apply delete_empty|].
  rewrite !filter_cons. destruct (decide (su_id x <> id)) as [Hne|Heq].
  - rewrite filter_cons. destruct (decide (P x = true)); [|exact IH].
    rewrite !fmap_cons, !list_to_map_cons, IH. by rewrite delete_insert_ne.
  - apply dec_stable in Heq. destruct (decide (P x = true)); [|exact IH].
    rewrite IH, fmap_cons, list_to_map_cons, Heq. by rewrite delete_insert_eq.
Qed.

Lemma table_handlers P l :
  NoDup (su_id <$> l) -> (map_to_list (table P l)).*2 ≡ₚ su_handler <$> filter (fun x => P x = true) l.
Proof.
  intros Hl. unfold table. rewrite map_to_list_to_map.
  - by rewrite <- list_fmap_compose.
  - rewrite <- list_fmap_compose. eapply sublist_NoDup; [exact Hl|]. apply fmap_sublist, sublist_filter.
Qed.

Lemma table_size P l : NoDup (su_id <$> l) -> size (table P l) = length (filter (fun x => P x = true) l).
Proof.
  intros Hl. rewrite <- length_map_to_list. rewrite <- (length_fmap snd). rewrite (table_handlers P l Hl).
  by rewrite length_fmap.
Qed.

Lemma interested_split t l :
  filter (fun x => typed t x = true) l ++ filter (fun x => general x = true) l ≡ₚ
    filter (fun x => interested t x = true) l.
Proof.
  induction l as [|x l IH]; [done|]. rewrite !filter_cons. unfold typed, general, interested in *.
  destruct (su_type x) as [t'|] eqn:E.
  - rewrite (decide_False (P := bool_decide (Some t' = None) = true)) by done.
    destruct (decide (t' = t)) as [->|Hne].
    + rewrite !decide_True by (by rewrite bool_decide_eq_true). simpl. by rewrite IH.
    + rewrite !decide_False by (rewrite bool_decide_eq_true; congruence). done.
  - rewrite decide_False by done. rewrite !decide_True by done. rewrite <- Permutation_middle. by rewrite IH.
Qed.

Lemma fresh_id b s : bus_refines b s -> s.1 ∉ (su_id <$> s.2).
Proof. intros H (x & Hx & Hin)%list_elem_of_fmap. pose proof (br_ids _ _ H x Hin). lia. Qed.

Lemma bus_step b s o :
  bus_refines b s -> 0 < s.1 < UINT64_MAX -> bus_refines (bus_op b o) (spec_op s o).
Proof.
  intros H Hs. pose proof (fresh_id b s H) as Hf. destruct H as [Hn Hi Hd Ht Hg].
  assert (eb_next_id b = s.1) as En by (rewrite Hn; apply u64_small; lia).
  assert (u64 (eb_next_id b + 1) = u64 (s.1 + 1)) as En' by by rewrite En.
  destruct o as [t h|h|id]; simpl; split; simpl; try done.
  - intros x [Hx|Hx%list_elem_of_singleton]%elem_of_app; [specialize (Hi x Hx); lia|subst; simpl; lia].
  - rewrite fmap_app. apply list.NoDup_app. split; [done|]. split; [|apply NoDup_singleton].
    intros y Hy Hy'%list_elem_of_singleton. by subst.
  - intros t'. rewrite table_snoc by done. unfold typed at 1. simpl. rewrite Ht, En.
    destruct (decide (t' = t)) as [->|Hne].
    + by rewrite bool_decide_eq_true_2.
    + by rewrite bool_decide_eq_false_2 by congruence.
  - rewrite table_snoc by done. by rewrite Hg.
  - intros x [Hx|Hx%list_elem_of_singleton]%elem_of_app; [specialize (Hi x Hx); lia|subst; simpl; lia].
  - rewrite fmap_app. apply list.NoDup_app. split; [done|]. split; [|apply NoDup_singleton].
    intros y Hy Hy'%list_elem_of_singleton. by subst.
  - intros t'. by rewrite table_snoc, Ht by done.
  - rewrite table_snoc by done. by rewrite Hg, En.
  - intros x [_ Hx]%list_elem_of_filter. by apply Hi.
  - eapply sublist_NoDup; [exact Hd|]. apply fmap_sublist, sublist_filter.
  - intros t. by rewrite table_delete, Ht.
  - by rewrite table_delete, Hg.
Qed.

Lemma spec_next_bound ops n l : (foldl spec_op (n, l) ops).1 <= n + Z.of_nat (length ops) /\ n <= (foldl spec_op (n, l) ops).1.
Proof.
  revert n l. induction ops as [|o ops IH]; intros n l; simpl; [lia|].
  destruct o; simpl;
    match goal with |- (foldl spec_op (?n', ?l') ops).1 <= _ /\ _ => specialize (IH n' l') end; lia.
Qed.

Lemma bus_run_refines ops :
  Z.of_nat (length ops) < UINT64_MAX - 1 -> bus_refines (bus_run ops) (spec_run ops).
Proof.
  unfold bus_run, spec_run. intros Hl. induction ops as [|o ops IH] using rev_ind.
  { split; try done; [by intros x ?%elem_of_nil|constructor]. }
  rewrite !foldl_app. rewrite length_app in Hl. simpl in *. apply bus_step; [apply IH; lia|].
  pose proof (spec_next_bound ops 1 []). lia.
Qed.

Lemma count_split (l : list Subscription) :
  (length (filter (fun x => general x = true) l) +
     sum_list_with (fun t => length (filter (fun x => typed t x = true) l)) all_types = length l)%nat.
Proof.
  induction l as [|x l IH]; [done|]. rewrite filter_cons. simpl in *.
  rewrite !filter_cons. unfold general, typed in *. destruct (su_type x) as [[]|]; simpl; lia.
Qed.

Lemma call_handlers_cases throws hs :
  (Forall (fun h => throws h = false) hs /\ call_handlers throws hs = (hs, false)) \/
  exists before h after, hs = before ++ h :: after /\ Forall (fun h => throws h = false) before /\ throws h = true /\
    call_handlers throws hs = (before ++ [h], true).
Proof.
  induction hs as [|h hs IH]; simpl; [by left|]. destruct (throws h) eqn:E.
  - right. exists [], h, hs. by split_and!.
  - destruct IH as [[Hf ->]|(before & h' & after & -> & Hf & Ht & ->)].
    + left. split; [by constructor|done].
    + right. exists (h :: before), h', after. split_and!; [done|by constructor|done|done].
Qed.

(** C32. The bus keeps its promise.  An event calls, in some order, the handlers of
    the subscriptions that are for its type or for all and have not been ended, once
    each, and no other handler: all of them if none throws, and otherwise those up
    to the first that throws, whose exception leaves [Publish].  Ids are never given
    twice while fewer than 2^64 - 2 operations are made. *)
Theorem publish_reaches_subscribers ops throws e :
  Z.of_nat (length ops) < UINT64_MAX - 1 ->
  (exists order,
    order ≡ₚ su_handler <$> filter (fun x => interested (data_type (ev_data e)) x = true) (spec_run ops).2 /\
    ((Forall (fun h => throws h = false) order /\ Publish throws e (bus_run ops) = (order, false)) \/
     exists before h after, order = before ++ h :: after /\ Forall (fun h => throws h = false) before /\
       throws h = true /\ Publish throws e (bus_run ops) = (before ++ [h], true))) /\
  NoDup (su_id <$> (spec_run ops).2) /\
  SubscriptionCount (bus_run ops) = length (spec_run ops).2.
Proof.
  intros Hl. destruct (bus_run_refines ops Hl) as [_ _ Hd Ht Hg]. split; [|split; [done|]].
  - unfold Publish. rewrite Ht, Hg. eexists. split; [|apply call_handlers_cases].
    rewrite !table_handlers by done. by rewrite <- fmap_app, interested_split.
  - unfold SubscriptionCount. rewrite Hg, table_size by done. rewrite <- (count_split (spec_run ops).2). f_equal.
    simpl. by rewrite !Ht, !table_size by done.
Qed.

(** ** The text of an event *)

Section text.
Context `{!JsonText}.

Definition data_fields (d : EventData) : list (string * json) :=
  match d with
  | NodeRoleChanged old_role new_role term =>
      [("old_role", Jstr (RaftNodeRoleToString old_role)); ("new_role", Jstr (RaftNodeRoleToString new_role));
       ("term", Jint term)]
  | LeaderChanged old_leader_id new_leader_id new_leader_addr term =>
      [("old_leader_id", Jint old_leader_id); ("new_leader_id", Jint new_leader_id);
       ("new_leader_addr", Jstr new_leader_addr); ("term", Jint term)]
  | MembershipChanged change_type target_node_id target_node_addr config_version term =>
      [("change_type", Jstr (match change_type with kAdd => "add" | kRemove => "remove" end));
       ("target_node_id", Jint target_node_id); ("target_node_addr", Jstr target_node_addr);
       ("config_version", Jint config_version); ("term", Jint term)]
  | LogCompacted snapshot_index snapshot_term bytes_reclaimed log_size_before log_size_after =>
      [("snapshot_index", Jint snapshot_index); ("snapshot_term", Jint snapshot_term);
       ("bytes_reclaimed", Jint bytes_reclaimed); ("log_size_before", Jint log_size_before);
       ("log_size_after", Jint log_size_after)]
  | SnapshotInstalled from_leader_id snapshot_index snapshot_term bytes_received success error_message =>
      [("from_leader_id", Jint from_leader_id); ("snapshot_index", Jint snapshot_index);
       ("snapshot_term", Jint snapshot_term); ("bytes_received", Jint bytes_received); ("success", Jbool success)] ++
      (if decide (error_message = "") then [] else [("error_message", Jstr error_message)])
  | ProposalCommitted index term => [("index", Jint index); ("term", Jint term)]
  | ProposalApplied index term success => [("index", Jint index); ("term", Jint term); ("success", Jbool success)]
  | ElectionTimeout current_term current_role =>
      [("current_term", Jint current_term); ("current_role", Jstr (RaftNodeRoleToString current_role))]
  | NodeLifecycle state =>
      [("state", Jstr (match state with kLifecycleStarted => "started" | kLifecycleStopped => "stopped" end))]
  end.

Definition event_object (now_ms : Z) (node_id : NodeId) (group_id : Z) (d : EventData) : json :=
  json_object ([("event", Jstr (event_name (data_type d))); ("node_id", Jint node_id); ("group_id", Jint group_id);
                ("timestamp_ms", Jint now_ms)] ++ data_fields d).

Definition FormatSseEvent (now_ms : Z) (event : RaftEvent) (node_id : NodeId) (group_id : Z) : Reply :=
  jt_dump (event_object now_ms node_id group_id (ev_data event)).

Definition event_keys : list string :=
  ["event"; "node_id"; "group_id"; "timestamp_ms"; "old_role"; "new_role"; "term"; "old_leader_id"; "new_leader_id";
   "new_leader_addr"; "change_type"; "target_node_id"; "target_node_addr"; "config_version"; "snapshot_index";
   "snapshot_term"; "bytes_reclaimed"; "log_size_before"; "log_size_after"; "from_leader_id"; "bytes_received";
   "success"; "error_message"; "index"; "current_term"; "current_role"; "state"].

(** Objects of different events differ. *)
Lemma event_object_inj now node group d now' node' group' d' :
  event_object now node group d = event_object now' node' group' d' ->
  now = now' /\ node = node' /\ group = group' /\ d = d'.
Proof.
  intros Heq.
  assert (map (json_get (event_object now node group d)) event_keys =
          map (json_get (event_object now' node' group' d')) event_keys) as G by by rewrite Heq.
  clear Heq. unfold event_object in G.
  destruct d, d'; unfold data_fields in G; repeat case_decide; vm_compute in G; simplify_eq;
    repeat match goal with
    | r : RaftNodeRole |- _ => destruct r
    | r : MembershipChange |- _ => destruct r
    | r : Lifecycle |- _ => destruct r
    end; simplify_eq; done.
Qed.

(** The values that are printed and read back: numbers of 64 bits and UTF-8 text. *)
Definition printable (now_ms : Z) (node_id : NodeId) (group_id : Z) (d : EventData) : bool :=
  let o := event_object now_ms node_id group_id d in json_plain o && json_utf8 o.

(** ** The broadcast *)

Definition sse_data (json_event : string) : string := "data: " +:+ json_event +:+ newline +:+ newline.
Definition heartbeat : string := ":heartbeat" +:+ newline +:+ newline.

(** The part of the HTTP server that holds the streams; [es_running] is whether
    it runs. *)
Record EventServer := mkEventServer {
  es_running : bool;
  es_connections : list Sse
}.
#[global] Instance EventServer_eta : Eta EventServer := fun r => mkEventServer (es_running r) (es_connections r).

Definition RemoveDeadSseConnections (s : EventServer) : EventServer :=
  s <| es_connections ::= filter (fun c => se_open c = true) |>.

Definition to_connections (text : string) (s : EventServer) : EventServer :=
  if negb (es_running s) then s
  else (RemoveDeadSseConnections s) <| es_connections ::= map (EnqueueEvent text) |>.

Definition BroadcastEvent (json_event : string) : EventServer -> EventServer := to_connections (sse_data json_event).

(** A failed wait of the timer sends nothing. *)
Definition OnHeartbeat (ec : bool) (s : EventServer) : EventServer :=
  if ec then s else to_connections heartbeat s.

(** [HandleConnection] of a request for events. *)
Definition add_connection (s : EventServer) : EventServer :=
  (RemoveDeadSseConnections s) <| es_connections ::= fun l => l ++ [sse_start Sse_new] |>.

Definition stop_events (s : EventServer) : EventServer :=
  if es_running s then s <| es_running := false |> <| es_connections := [] |> else s.

(** The handler that [Start] subscribes to all events of the node; [None] is the
    exception of printing. *)
Definition broadcast_handler (now_ms : Z) (node_id : NodeId) (group_id : Z) (e : RaftEvent) (s : EventServer)
    : option EventServer :=
  match FormatSseEvent now_ms e node_id group_id with
  | inr text => Some (BroadcastEvent text s)
  | inl _ => None
  end.

Lemma EnqueueEvent_last text c : se_open c = true -> list.last (se_queue (EnqueueEvent text c)) = Some text.
Proof.
  intros Ho. unfold EnqueueEvent. rewrite Ho. cbn [negb]. cbv zeta.
  destruct (se_writing _); proj_simp; apply last_snoc.
Qed.

(** An event of the node reaches every open stream: as the last one of its queue,
    as a text from which the event can be told.  Closed streams are dropped. *)
Theorem event_reaches_streams `{!JsonTextLaws} now_ms node_id group_id e s :
  es_running s = true -> printable now_ms node_id group_id (ev_data e) = true ->
  exists text s',
    broadcast_handler now_ms node_id group_id e s = Some s' /\
    jt_parse text = inr (event_object now_ms node_id group_id (ev_data e)) /\
    length (es_connections s') = length (filter (fun c => se_open c = true) (es_connections s)) /\
    Forall (fun c => list.last (se_queue c) = Some (sse_data text)) (es_connections s') /\
    (forall now' node' group' e',
       printable now' node' group' (ev_data e') = true -> FormatSseEvent now' e' node' group' = inr text ->
       now' = now_ms /\ node' = node_id /\ group' = group_id /\ ev_data e' = ev_data e).
Proof.
  intros Hr [Hp Hu]%andb_true_iff. destruct (jt_round_trip _ Hp Hu) as (text & Hd & Ht).
  exists text. eexists. split; [|split; [exact Ht|]].
  { unfold broadcast_handler, FormatSseEvent. by rewrite Hd. }
  unfold BroadcastEvent, to_connections, RemoveDeadSseConnections. rewrite Hr. cbn [negb]. proj_simp.
  split; [by rewrite length_map|]. split.
  - apply list.Forall_forall. intros c (x & -> & [Hx _]%list_elem_of_filter)%list_elem_of_fmap.
    by apply EnqueueEvent_last.
  - intros now' node' group' e' [Hp' Hu']%andb_true_iff Hf. unfold FormatSseEvent in Hf.
    destruct (jt_round_trip _ Hp' Hu') as (text' & Hd' & Ht'). rewrite Hf in Hd'. injection Hd' as <-.
    assert (event_object now_ms node_id group_id (ev_data e) = event_object now' node' group' (ev_data e')) as Heq
      by congruence.
    apply event_object_inj in Heq. naive_solver.
Qed.
End text.

(** ** Witnesses *)

Definition sample_event : RaftEvent := mkRaftEvent 1 5 (LeaderChanged (-1) 2 "10.0.0.2:8001" 3).
Definition two_streams : EventServer :=
  mkEventServer true [sse_start Sse_new; MarkClosed (sse_start Sse_new)].

Lemma event_reaches_streams_witness :
  exists text s',
    @broadcast_handler PlainText.text 7 1 0 sample_event two_streams = Some s' /\
    length (es_connections s') = 1%nat /\
    Forall (fun c => list.last (se_queue c) = Some (sse_data text)) (es_connections s').
Proof.
  destruct (@event_reaches_streams PlainText.text PlainText.laws 7 1 0 sample_event two_streams)
    as (text & s' & Hb & _ & Hl & Hf & _); [reflexivity|reflexivity|].
  exists text, s'. split; [exact Hb|]. split; [exact Hl|exact Hf].
Defined.

Lemma publish_reaches_subscribers_witness :
  let ops := [OpSubscribe LeaderChangedEvent 10%nat; OpSubscribeAll 20%nat; OpSubscribe ElectionTimeoutEvent 30%nat;
              OpSubscribeAll 40%nat; OpUnsubscribe 2] in
  (exists order, order ≡ₚ [10; 40]%nat /\ Publish (fun _ => false) sample_event (bus_run ops) = (order, false)) /\
  Publish (fun h => bool_decide (h = 10%nat)) sample_event (bus_run ops) = ([10%nat], true).
Proof.
  intros ops. destruct (publish_reaches_subscribers ops (fun _ => false) sample_event) as ((order & Ho & H) & _);
    [unfold UINT64_MAX; simpl; lia|].
  split; [|vm_compute; reflexivity]. exists order. split; [exact Ho|].
  destruct H as [[_ H]|(? & ? & ? & _ & _ & ? & _)]; [exact H|done].
Defined.
