(* ===== verification/Shutdown.v ===== *)
(** * Stopping a node: [Stop], [DoGracefulShutdown] and [ForceShutdown] of
    [src/raft_node_core.cpp]

    With a shutdown timeout the graceful shutdown runs in a thread of its own.
    When the timeout passes, [ForceShutdown] runs at whatever point the thread has
    reached, and the detached thread goes on, as far as it gets.  The phases of
    the thread are those between which it holds no lock.  The services around the group, the HTTP server,
    the timer service, the network and the log persister, are left out. *)

From S2P Require Import Prelude Types RaftLog Quorum Sessions RaftGroup Timers Replicate.
From S2P Require Import Membership Apply Election Leader Follower Snapshots NodeCore.

Definition stop_timers : M unit :=
  CancelElectionTimerLocked ;;
  StopHeartbeatTimerLocked ;;
  StopSnapshotCheckTimerLocked.

Definition drain_apply_queue : M unit :=
  apply_running_ <~ false ;;
  remaining ← getg apply_queue_;
  apply_queue_ <~ [] ;;
  forM remaining (fun t => call_proposal (at_callback t) stopped_result).

Definition fail_proposals : M unit :=
  props ← getg pending_proposals_;
  pending_proposals_ <~ ∅ ;;
  forM (map_to_list props) (fun p =>
    match pp_callback p.2 with
    | Some cb => emit (CallProposal cb stopped_result)
    | None => abort
    end).

Definition mark_stopped : M unit := modify (fun n => n <| state_ := kStopped |>).
Definition end_shutdown : M unit := mark_stopped ;; publish_lifecycle false.

Definition graceful_phases : list (M unit) := [stop_timers; drain_apply_queue; fail_proposals; end_shutdown].
Definition run_phases (l : list (M unit)) : M unit := forM l (fun m => m).

(** Pending proposals are dropped without a call. *)
Definition ForceShutdown : M unit :=
  mark_stopped ;;
  stop_timers ;;
  pending_proposals_ <~ ∅ ;;
  publish_lifecycle false.

(** [timeout] is how many phases are over when the timeout passes, with how many
    more the detached thread has run when the node is looked at; [None] when the
    shutdown is faster or has no timeout. *)
Definition StopWithin (timeout : option (nat * nat)) : M Status :=
  st ← gets state_;
  match st with
  | kRunning =>
      modify (fun n => n <| state_ := kStopping |>) ;;
      match timeout with
      | None => run_phases graceful_phases ;; mret StOK
      | Some (k, j) =>
          run_phases (take k graceful_phases) ;;
          ForceShutdown ;;
          run_phases (take j (drop k graceful_phases)) ;;
          mret (Error1 "Shutdown timeout")
      end
  | kStopped => mret StOK
  | _ => mret (Error1 "Node not running")
  end.

(** ** The calls *)

(** The callers that wait for an entry: those of the apply queue, and those of the
    proposals that are not committed. *)
Definition queued_callbacks (n : Node) : list Z :=
  apply_queue_ (group_ n) ≫= fun t => match at_callback t with Some cb => [cb] | None => [] end.
Definition proposal_callbacks (n : Node) : list Z :=
  map_to_list (pending_proposals_ (group_ n)) ≫= fun p => match pp_callback p.2 with Some cb => [cb] | None => [] end.

Definition told (calls : list Z) : list Effect := (fun cb => CallProposal cb stopped_result) <$> calls.

(** What the phases do to a node, as far as it is looked at here. *)
Record node_view := mkView { nv_queue : list ApplyTask; nv_proposals : gmap Z PendingProposal; nv_trace : list Effect;
  nv_state : NodeState; nv_id : NodeId }.
Definition view (n : Node) : node_view :=
  mkView (apply_queue_ (group_ n)) (pending_proposals_ (group_ n)) (trace_ n) (state_ n) (server_id_ (group_ n)).

Lemma drain_run n : exists n', drain_apply_queue n = Done tt n' /\
  view n' = mkView [] (pending_proposals_ (group_ n)) (trace_ n ++ told (queued_callbacks n)) (state_ n) (server_id_ (group_ n)).
Proof.
  unfold drain_apply_queue, queued_callbacks. rewrite run_bind, run_putg, run_bind, run_getg, run_bind, run_putg.
  proj_simp. generalize (apply_queue_ (group_ n)). intros l.
  match goal with |- context [forM l _ ?x] => set (m := x) end.
  assert (view m = mkView [] (pending_proposals_ (group_ n)) (trace_ n) (state_ n) (server_id_ (group_ n))) as Hm by done. clearbody m.
  revert m Hm. generalize (trace_ n). induction l as [|t l IH]; intros tr m Hm.
  - exists m. split; [done|]. by rewrite app_nil_r.
  - cbn [forM]. rewrite run_bind. unfold call_proposal at 1. destruct (at_callback t) as [cb|] eqn:Ecb.
    + rewrite run_emit. edestruct (IH (tr ++ [CallProposal cb stopped_result])) as (n' & -> & Hn').
      { unfold view in *. injection Hm as H1 H2 H3 H4 H5. simpl. by rewrite H1, H2, H3, H4, H5. }
      exists n'. split; [done|]. rewrite Hn', <- app_assoc. simpl. by rewrite Ecb.
    + rewrite run_ret. edestruct (IH tr m Hm) as (n' & -> & Hn'). exists n'. split; [done|].
      rewrite Hn'. simpl. by rewrite Ecb.
Qed.

Lemma fail_run n :
  (forall i p, pending_proposals_ (group_ n) !! i = Some p -> pp_callback p <> None) ->
  exists n', fail_proposals n = Done tt n' /\
    view n' = mkView (apply_queue_ (group_ n)) ∅ (trace_ n ++ told (proposal_callbacks n)) (state_ n) (server_id_ (group_ n)).
Proof.
  intros Hp. unfold fail_proposals, proposal_callbacks. rewrite run_bind, run_getg, run_bind, run_putg.
  assert (Forall (fun p => pp_callback p.2 <> None) (map_to_list (pending_proposals_ (group_ n)))) as Hl.
  { apply list.Forall_forall. intros [i p] Hip%elem_of_map_to_list. by apply (Hp i). }
  revert Hl. generalize (map_to_list (pending_proposals_ (group_ n))). intros l Hl.
  match goal with |- context [forM l _ ?x] => set (m := x) end.
  assert (view m = mkView (apply_queue_ (group_ n)) ∅ (trace_ n) (state_ n) (server_id_ (group_ n))) as Hm by done. clearbody m.
  revert m Hm. generalize (trace_ n). induction Hl as [|p l Hp1 _ IH]; intros tr m Hm.
  - exists m. split; [done|]. by rewrite app_nil_r.
  - cbn [forM]. rewrite run_bind. destruct (pp_callback p.2) as [cb|] eqn:Ecb; [|done].
    rewrite run_emit. edestruct (IH (tr ++ [CallProposal cb stopped_result])) as (n' & -> & Hn').
    { unfold view in *. injection Hm as H1 H2 H3 H4 H5. simpl. by rewrite H1, H2, H3, H4, H5. }
    exists n'. split; [done|]. rewrite Hn', <- app_assoc. simpl. by rewrite Ecb.
Qed.

Definition view_calls (v : node_view) : list Z * list Z :=
  (nv_queue v ≫= (fun t => match at_callback t with Some cb => [cb] | None => [] end),
   map_to_list (nv_proposals v) ≫= (fun p => match pp_callback p.2 with Some cb => [cb] | None => [] end)).
Definition all_called (v : node_view) : Prop :=
  forall i p, nv_proposals v !! i = Some p -> pp_callback p <> None.

(** The phases on views. *)
Definition phase_view (k : nat) (v : node_view) : node_view :=
  match k with
  | 0%nat => v
  | 1%nat => mkView [] (nv_proposals v) (nv_trace v ++ told (view_calls v).1) (nv_state v) (nv_id v)
  | 2%nat => mkView (nv_queue v) ∅ (nv_trace v ++ told (view_calls v).2) (nv_state v) (nv_id v)
  | _ => mkView (nv_queue v) (nv_proposals v) (nv_trace v ++ [PublishLifecycle (nv_id v) false]) kStopped (nv_id v)
  end.

Lemma phase_run k m n :
  graceful_phases !! k = Some m -> all_called (view n) ->
  exists n', m n = Done tt n' /\ view n' = phase_view k (view n).
Proof.
  intros Hk Hc. destruct k as [|[|[|[|k]]]]; simpl in Hk; simplify_eq.
  - eexists. split; [reflexivity|]. done.
  - apply drain_run.
  - by apply fail_run.
  - eexists. split; [reflexivity|]. done.
Qed.

Lemma phase_all_called k v : all_called v -> all_called (phase_view k v).
Proof. intros Hv. by destruct k as [|[|[|k]]]. Qed.

(** A run of consecutive phases. *)
Lemma phases_run i j n :
  (i + j <= 4)%nat -> all_called (view n) ->
  exists n', run_phases (take j (drop i graceful_phases)) n = Done tt n' /\
    view n' = foldl (fun v k => phase_view k v) (view n) (seq i j).
Proof.
  revert i n. induction j as [|j IH]; intros i n Hij Hc; [by exists n|].
  destruct (lookup_lt_is_Some_2 graceful_phases i) as [m Hm]; [simpl; lia|].
  rewrite (drop_S _ _ _ Hm). unfold run_phases. cbn [take forM]. rewrite run_bind.
  destruct (phase_run i m n Hm Hc) as (n1 & -> & H1).
  destruct (IH (S i) n1) as (n2 & E2 & H2); [lia|rewrite H1; by apply phase_all_called|].
  exists n2. split; [exact E2|]. cbn [seq foldl]. by rewrite <- H1.
Qed.

(** Without a timeout this is the [Stop] of the other theorems. *)
Lemma graceful_is_phases n : DoGracefulShutdown n = run_phases graceful_phases n.
Proof.
  unfold DoGracefulShutdown, run_phases, graceful_phases, stop_timers, drain_apply_queue, fail_proposals.
  cbn [forM]. unfold CancelElectionTimerLocked, StopHeartbeatTimerLocked, StopSnapshotCheckTimerLocked.
  unfold mbind, Prog_bind, getg, gets. cbn beta iota.
  unfold putg, modify. cbn beta iota.
  match goal with |- context [forM ?l ?f ?m] => destruct (forM l f m) as [[] n1|n1]; [|reflexivity] end.
  cbn beta iota.
  match goal with |- context [forM ?l ?f ?m] => destruct (forM l f m) as [[] n2|n2]; reflexivity end.
Qed.

Lemma StopWithin_None n : StopWithin None n = Stop n.
Proof.
  unfold StopWithin, Stop. rewrite !run_bind, !run_gets. destruct (state_ n) eqn:E;
    lazymatch type of E with _ = kRunning => idtac | _ => reflexivity end.
  unfold modify, mbind, Prog_bind. rewrite <- graceful_is_phases. reflexivity.
Qed.

Lemma force_run n : exists n', ForceShutdown n = Done tt n' /\
  view n' = mkView (apply_queue_ (group_ n)) ∅ (trace_ n ++ [PublishLifecycle (server_id_ (group_ n)) false]) kStopped (server_id_ (group_ n)).
Proof. eexists. split; [reflexivity|]. done. Qed.

(** The view after a stop that times out after [k] phases and [j] more. *)
Lemma stop_phases k j n :
  (k + j <= 4)%nat -> all_called (view n) ->
  exists n', (run_phases (take k graceful_phases) ;; ForceShutdown ;; run_phases (take j (drop k graceful_phases))) n = Done tt n' /\
    view n' = foldl (fun v i => phase_view i v)
      (let v := foldl (fun v i => phase_view i v) (view n) (seq 0 k) in
       mkView (nv_queue v) ∅ (nv_trace v ++ [PublishLifecycle (nv_id v) false]) kStopped (nv_id v))
      (seq k j).
Proof.
  intros Hk Hc. rewrite run_bind. destruct (phases_run 0 k n) as (n1 & E1 & H1); [lia|done|].
  rewrite drop_0 in E1. rewrite E1, run_bind. destruct (force_run n1) as (n2 & -> & H2).
  destruct (phases_run k j n2) as (n3 & E3 & H3); [lia|rewrite H2; intros i p H; simpl in H; by rewrite lookup_empty in H|].
  exists n3. split; [exact E3|].
  rewrite H3, H2, <- H1. done.
Qed.

(** The answers and the lifecycle events among the effects. *)
Definition answers (tr : list Effect) : list (Z * ApplyResult) :=
  omap (fun e => match e with CallProposal cb result => Some (cb, result) | _ => None end) tr.
Definition lifecycle (tr : list Effect) : list (NodeId * bool) :=
  omap (fun e => match e with PublishLifecycle id started => Some (id, started) | _ => None end) tr.

Definition read_answers (tr : list Effect) : list Z :=
  omap (fun e => match e with CallRead cb => Some cb | _ => None end) tr.

Lemma answers_told l : answers (told l) = (fun cb => (cb, stopped_result)) <$> l.
Proof. induction l as [|cb l IH]; [done|]. unfold told. simpl. f_equal. exact IH. Qed.
Lemma lifecycle_told l : lifecycle (told l) = [].
Proof. induction l as [|cb l IH]; [done|]. exact IH. Qed.
Lemma read_answers_told l : read_answers (told l) = [].
Proof. induction l as [|cb l IH]; [done|]. exact IH. Qed.
Lemma read_answers_app k l : read_answers (k ++ l) = read_answers k ++ read_answers l.
Proof. apply omap_app. Qed.
Lemma answers_app k l : answers (k ++ l) = answers k ++ answers l.
Proof. apply omap_app. Qed.
Lemma lifecycle_app k l : lifecycle (k ++ l) = lifecycle k ++ lifecycle l.
Proof. apply omap_app. Qed.

Ltac stop_trace H :=
  rewrite H; repeat rewrite <- app_assoc; eexists; split; [reflexivity|];
  rewrite ?answers_app, ?lifecycle_app, ?read_answers_app, ?answers_told, ?lifecycle_told, ?read_answers_told;
  split; [rewrite ?fmap_app|split]; simpl; rewrite ?app_nil_r; done.

(** Nothing here looks at the reads that wait. *)
Definition same_reads (n n' : Node) : Prop := pending_reads_ (group_ n') = pending_reads_ (group_ n).
#[local] Instance same_reads_preorder : PreOrder same_reads.
Proof. split; [done|]. unfold same_reads. intros n1 n2 n3 H1 H2. congruence. Qed.
#[local] Hint Extern 1 (keeps same_reads (modify _)) => (intros ?; reflexivity) : keeps.
#[local] Hint Extern 1 (keeps same_reads (putg _)) => (intros ?; reflexivity) : keeps.
#[local] Hint Extern 1 (keeps same_reads (emit _)) => (intros ?; reflexivity) : keeps.
#[local] Hint Extern 1 (keeps same_reads (getg _)) => (eapply keeps_gets; apply _) : keeps.

Lemma reads_stop timeout : keeps same_reads (StopWithin timeout).
Proof.
  assert (keeps same_reads stop_timers) as H0 by (unfold stop_timers, CancelElectionTimerLocked,
    StopHeartbeatTimerLocked, StopSnapshotCheckTimerLocked; keeps_solve).
  assert (keeps same_reads drain_apply_queue) as H1 by (unfold drain_apply_queue, call_proposal; keeps_solve).
  assert (keeps same_reads fail_proposals) as H2 by (unfold fail_proposals; keeps_solve).
  assert (keeps same_reads end_shutdown) as H3 by (unfold end_shutdown, mark_stopped, publish_lifecycle; keeps_solve).
  assert (forall l, Forall (keeps same_reads) l -> keeps same_reads (run_phases l)) as Hl.
  { intros l Hl. unfold run_phases. induction Hl as [|m l Hm _ IH]; cbn [forM]; [keeps_solve|].
    apply keeps_bind; [apply _|exact Hm|intros _; exact IH]. }
  assert (Forall (keeps same_reads) graceful_phases) as Hg by (repeat constructor; done).
  assert (keeps same_reads ForceShutdown) as H4 by (unfold ForceShutdown, mark_stopped, publish_lifecycle; keeps_solve).
  pose proof (Hl _ Hg) as H5.
  assert (forall k, keeps same_reads (run_phases (take k graceful_phases))) as H6 by (intros k; by apply Hl, Forall_take).
  assert (forall j k, keeps same_reads (run_phases (take j (drop k graceful_phases)))) as H7
    by (intros j k; by apply Hl, Forall_take, Forall_drop).
  unfold StopWithin. destruct timeout as [[k j]|]; keeps_solve.
Qed.

(** C29. Stopping a running node whose pending proposals all have a callback.
    Without a timeout, or when the shutdown is fast enough, it ends with the node
    stopped, and every caller whose entry waits to be applied or to be committed
    is told once, none twice.  When the timeout passes after [k] of the four phases
    and the detached thread has run [j] more when the node is looked at, the node
    is stopped with no pending proposals: the callers of the apply queue are told
    once, if the thread has come to them; those of the proposals only if it had
    before the timeout, and otherwise never.  In all cases the pending reads stay
    where they are and no caller of a read is told. *)
Theorem stop_answers_callers n timeout :
  state_ n = kRunning ->
  (forall i p, pending_proposals_ (group_ n) !! i = Some p -> pp_callback p <> None) ->
  (forall k j, timeout = Some (k, j) -> (k + j <= 4)%nat) ->
  let drained := match timeout with Some (k, j) => bool_decide (2 <= k + j)%nat | None => true end in
  let failed := match timeout with Some (k, j) => bool_decide (3 <= k)%nat | None => true end in
  exists status n',
    StopWithin timeout n = Done status n' /\
    (status = StOK <-> timeout = None) /\
    state_ n' = kStopped /\ pending_proposals_ (group_ n') = ∅ /\
    apply_queue_ (group_ n') = (if drained then [] else apply_queue_ (group_ n)) /\
    pending_reads_ (group_ n') = pending_reads_ (group_ n) /\
    exists tr, trace_ n' = trace_ n ++ tr /\
      answers tr = (fun cb => (cb, stopped_result)) <$>
        (if drained then queued_callbacks n else []) ++ (if failed then proposal_callbacks n else []) /\
      read_answers tr = [] /\
      lifecycle tr = replicate (match timeout with Some (k, j) => if decide (k + j = 4)%nat then 2 else 1 | None => 1 end)
        (server_id_ (group_ n), false).
Proof.
  intros Hs Hc Hk. cbv zeta. pose proof (reads_stop timeout n) as Hreads. revert Hreads.
  unfold StopWithin. rewrite run_bind, run_gets, Hs, run_bind, run_modify.
  set (m := n <| state_ := kStopping |>).
  assert (view m = mkView (apply_queue_ (group_ n)) (pending_proposals_ (group_ n)) (trace_ n) kStopping (server_id_ (group_ n)))
    as Hm by done.
  assert (all_called (view m)) as Ha by (rewrite Hm; exact Hc). clearbody m.
  destruct timeout as [[k j]|].
  - specialize (Hk k j eq_refl). destruct (stop_phases k j m Hk Ha) as (n' & E & Hv).
    assert (forall B (r : B), (run_phases (take k graceful_phases) ;; ForceShutdown ;;
      run_phases (take j (drop k graceful_phases)) ;; mret r) m = Done r n') as E'.
    { intros B r. revert E. rewrite !run_bind. destruct (run_phases (take k _) m) as [[] n1|]; [|done].
      rewrite !run_bind. destruct (ForceShutdown n1) as [[] n2|]; [|done].
      rewrite run_bind. destruct (run_phases (take j _) n2) as [[] n3|]; [|done]. by intros [= <-]. }
    rewrite E'. simpl. intros Hreads. exists (Error1 "Shutdown timeout"), n'. split; [done|]. split; [by split|].
    rewrite Hm in Hv. unfold view_calls in Hv.
    destruct k as [|[|[|[|[|k]]]]]; [..|lia]; (destruct j as [|[|[|[|[|j]]]]]; try lia);
      cbn -[told map_to_list] in Hv; injection Hv as H1 H2 H3 H4 H5;
      (split; [done|]; split; [done|]; split; [done|]; split; [done|]); rewrite ?map_to_list_empty in H3;
      stop_trace H3.
  - destruct (phases_run 0 4 m) as (n' & E & Hv); [lia|done|]. rewrite drop_0, take_ge in E by done.
    rewrite run_bind, E. simpl. intros Hreads.
    exists StOK, n'. split; [done|]. split; [done|].
    rewrite Hm in Hv. unfold view_calls in Hv. cbn -[told map_to_list] in Hv. injection Hv as H1 H2 H3 H4 H5.
    split; [done|]. split; [done|]. split; [done|]. split; [done|]. stop_trace H3.
Qed.

(** ** Witness *)

Definition sample_stopping : Node :=
  node_init ((sample_group 1 [2; 3] false false)
    <| apply_queue_ := [mkApplyTask 1 "a" (Some 7) false None 0 0] |>
    <| pending_proposals_ := {[2 := mkPendingProposal 2 (Some 8) 0]} |>).

Lemma stop_answers_callers_witness :
  exists n', StopWithin (Some (2, 2)%nat) sample_stopping = Done (Error1 "Shutdown timeout") n' /\
    answers (trace_ n') = [(7, stopped_result)] /\ lifecycle (trace_ n') = [(1, false); (1, false)].
Proof.
  destruct (stop_answers_callers sample_stopping (Some (2, 2)%nat)) as (status & n' & E & _ & _ & _ & _ & _ & tr & Ht & Ha & _ & Hl).
  - reflexivity.
  - intros i p Hp. simpl in Hp. apply lookup_singleton_Some in Hp as [_ <-]. done.
  - intros k j [= <- <-]. lia.
  - exists n'. simpl in Ht. rewrite Ht. split; [|by split].
    vm_compute in E. injection E as <- <-. reflexivity.
Defined.
