(* ===== verification/StoreLifecycle.v ===== *)
(** * The life of a store: [Initialize], [Start], [RollbackStart] and [Stop] of
    [src/raft_store.cpp]

    The store with the infrastructure its groups share: the network, the timer
    service with the tick, and the HTTP server.  Whatever fails while it starts,
    the store is either up with all of them or down with none, or the process
    has ended at a component that could not be made. *)

From S2P Require Import Prelude Types RuntimeConfig RaftLog Quorum Sessions RaftGroup Timers Replicate.
From S2P Require Import Membership Apply Election Leader Follower Snapshots NodeCore Text Json Protocol Identity Dispatch Client Store.
From S2P Require Import Config Peers Transport TimerService AdminServer AdminHandlers StoreAdmin Construct.

(** [sl_made] says which of network, timer service and protocol are not null,
    [sl_tick] is [tick_timer_], [sl_server] whether there is an HTTP server, which
    then runs. *)
Record StoreLife := mkStoreLife {
  sl_store : RaftStore;
  sl_made : bool * bool * bool;
  sl_network : Transport;
  sl_timer : TimerSvc;
  sl_tick : TimerId;
  sl_server : bool
}.
#[global] Instance StoreLife_eta : Eta StoreLife := fun r =>
  mkStoreLife (sl_store r) (sl_made r) (sl_network r) (sl_timer r) (sl_tick r) (sl_server r).

(** What the outside answers while the store starts: whether the transport
    supports authenticated peers, what opening the listener and making the TLS
    contexts say, the text of an exception of the HTTP server, the number of
    threads of the machine. *)
Record StartOutcome := mkStartOutcome {
  so_supports_auth : bool;
  so_bind : string * Z -> option string;
  so_contexts : option string;
  so_server : option string;
  so_threads : nat
}.

Section life.
Context (config : RaftStoreConfig) (tls : bool).

(** [made] are the components that the factories made: network, timer service,
    protocol. *)
Definition StoreInitialize (made : bool * bool * bool) (s : StoreLife) : Status * StoreLife :=
  let config_status := ValidateClientAuthConfig (sc_client_auth_enabled config) (sc_tls_enabled config)
    (sc_tls_mutual_auth config) (sc_client_ca_file config) (sc_client_authorizations config) in
  if negb (status_ok config_status) then (config_status, s)
  else if initialized_ (sl_store s) then (Error1 "Already initialized", s)
  else
    let s := s <| sl_store ::= fun st => st <| initialized_ := true |> |> <| sl_made := made |> in
    if negb made.1.1 then (Error1 "NetworkTransport cannot be null", s)
    else if negb made.1.2 then (Error1 "TimerService cannot be null", s)
    else if negb made.2 then (Error1 "Protocol cannot be null", s)
    else (StOK, s).

Definition set_running (b : bool) (s : StoreLife) : StoreLife :=
  s <| sl_store ::= fun st => st <| running_ := b |> |>.

Definition stop_server (s : StoreLife) : StoreLife := s <| sl_server := false |>.
Definition cancel_tick (s : StoreLife) : StoreLife :=
  if decide (sl_tick s = 0) then s
  else s <| sl_timer ::= fun t => (CancelTimer (sl_tick s) t).2 |> <| sl_tick := 0 |>.
Definition stop_network (s : StoreLife) : StoreLife := s <| sl_network ::= tr_stop tls |>.
Definition stop_timer (s : StoreLife) : StoreLife := s <| sl_timer ::= ts_stop |>.

Definition RollbackStart (s : StoreLife) : StoreLife :=
  set_running false (stop_timer (stop_network (cancel_tick (stop_server s)))).

Definition wants_server : bool := sc_metrics_enabled config && bool_decide (sc_metrics_addr config <> "").

(** The timer service, the tick and the HTTP server: [inl] is an exception. *)
Definition start_store_services (o : StartOutcome) (s : StoreLife) : (string + unit) * StoreLife :=
  let s := s <| sl_timer ::= ts_start |> in
  let '(id, t) := SetInterval (sl_timer s) in
  let s := s <| sl_timer := t |> <| sl_tick := id |> in
  if wants_server then
    let s := s <| sl_server := true |> in
    match so_server o with
    | Some what => (inl what, s)
    | None => (inr tt, s)
    end
  else (inr tt, s).

(** [None] when a call through a null component ends the process: the network at
    once, the timer service once the network is initialized. *)
Definition StoreStart (o : StartOutcome) (s : StoreLife) : option (Status * StoreLife) :=
  if negb (initialized_ (sl_store s)) then Some (Error1 "Not initialized", s)
  else if running_ (sl_store s) then Some (Error1 "Already started", s)
  else
    let s := set_running true s in
    if negb (sl_made s).1.1 then None
    else if sc_client_auth_enabled config && negb (so_supports_auth o) then
      Some (Error2 "CONFIG_INVALID" "client authentication requires authenticated transport support",
            set_running false s)
    else
      let '(status, net) := Initialize (so_bind o) (so_contexts o) (sc_listen_addr config) (sl_network s) in
      let s := s <| sl_network := net |> in
      if negb (status_ok status) then Some (status, set_running false s)
      else if negb (sl_made s).1.2 then None
      else
        match start_store_services o s with
        | (inl what, s) => Some (Error1 ("Failed to start RaftStore: " +:+ what), RollbackStart s)
        | (inr _, s) =>
            let s := s <| sl_network ::= SetBatchingEnabled tls (transport_batching_enabled_ (sl_store s)) |> in
            let '(status, net) := tr_start (so_threads o) (sl_network s) in
            let s := s <| sl_network := net |> in
            Some (status, if status_ok status then s else RollbackStart s)
        end.

(** [None] when the end of a group ends the process. *)
Definition StoreShutdown (s : StoreLife) : option (Status * StoreLife) :=
  if negb (running_ (sl_store s)) then Some (StOK, s)
  else
    match StoreStop (sl_store s) with
    | Aborted _ => None
    | Done status st =>
        Some (status, stop_timer (stop_network (cancel_tick (stop_server (s <| sl_store := st |>)))))
    end.

(** ** Up or down *)

(** What the store, its groups and its network go through.  [LGroups] stands for
    any work of the groups, [LNetwork] for any event of the network besides its
    own start and stop. *)
Inductive LifeEvent :=
| LInitialize (made : bool * bool * bool)
| LStart (o : StartOutcome)
| LStop
| LGroups (groups : gmap Z Node)
| LNetwork (e : TransportEvent).

Definition lifecycle_event (e : TransportEvent) : bool :=
  match e with TrInitialize _ _ | TrStart _ | TrStop => true | _ => false end.

(** [None]: the process has ended. *)
Definition life_step (s : StoreLife) (e : LifeEvent) : option StoreLife :=
  match e with
  | LInitialize made => Some (StoreInitialize made s).2
  | LStart o => snd <$> StoreStart o s
  | LStop => snd <$> StoreShutdown s
  | LGroups groups => Some (s <| sl_store ::= fun st => st <| groups_ := groups |> |>)
  | LNetwork e => Some (if lifecycle_event e then s else s <| sl_network ::= fun t => tr_step tls t e |>)
  end.
Definition life_run (s : StoreLife) (es : list LifeEvent) : option StoreLife :=
  foldl (fun o e => o ≫= fun s => life_step s e) (Some s) es.

Definition StoreLife_new (st : RaftStore) : StoreLife := mkStoreLife st (false, false, false) Transport_new TimerSvc_new 0 false.

(** All of it runs, with an active tick. *)
Definition all_up (s : StoreLife) : Prop :=
  initialized_ (sl_store s) = true /\ (sl_made s).1 = (true, true) /\ tr_initialized (sl_network s) = true /\ tr_running (sl_network s) = true /\
  ts_running (sl_timer s) = true /\ IsTimerActive (sl_tick s) (sl_timer s) = true /\ sl_server s = wants_server.

(** None of it does. *)
Definition all_down (s : StoreLife) : Prop :=
  tr_running (sl_network s) = false /\ ts_running (sl_timer s) = false /\ sl_tick s = 0 /\ sl_server s = false.

Definition life_inv (n : Z) (s : StoreLife) : Prop :=
  (if running_ (sl_store s) then all_up s else all_down s) /\
  0 < ts_next_timer_id (sl_timer s) <= n.

Definition same_flags (s s' : RaftStore) : Prop :=
  running_ s' = running_ s /\ initialized_ s' = initialized_ s /\
  transport_batching_enabled_ s' = transport_batching_enabled_ s.
#[local] Instance same_flags_preorder : PreOrder same_flags.
Proof. split; [done|]. intros s1 s2 s3 (?&?&?) (?&?&?). unfold same_flags. split_and!; congruence. Qed.

Lemma each_group_flags {A} (m : M A) : keeps same_flags (each_group m).
Proof.
  assert (forall g n, keeps same_flags (on_group g n m)) by (intros g n s; unfold on_group; by destruct (m n)).
  unfold each_group. keeps_solve.
Qed.

Definition tr_flags (t : Transport) : bool * bool := (tr_initialized t, tr_running t).

Lemma batching_flags enabled t : tr_flags (SetBatchingEnabled tls enabled t) = tr_flags t.
Proof.
  unfold SetBatchingEnabled. apply foldl_inv with (P := fun t' => tr_flags t' = tr_flags t); [|done].
  intros t' j Ht. by destruct (tr_peers t' !! j ≫= p_conn).
Qed.

Lemma stop_flags t : tr_flags (tr_stop tls t) = (tr_initialized t, false).
Proof.
  unfold tr_stop. destruct (tr_running t) eqn:E; [|unfold tr_flags; by rewrite E].
  match goal with |- context [foldl ?f ?t0 ?l] =>
    assert (tr_flags (foldl f t0 l) = (tr_initialized t, false)) as H by
      (apply foldl_inv with (P := fun t' => tr_flags t' = (tr_initialized t, false)); [by intros|done]) end.
  exact H.
Qed.

Lemma new_peer_flags peer_id addr t : tr_flags (new_peer tls peer_id addr t).2 = tr_flags t.
Proof. unfold new_peer. by destruct (peer_endpoint addr). Qed.

Lemma get_peer_flags peer_id addr t : tr_flags (GetOrCreatePeerConnection tls peer_id addr t).2 = tr_flags t.
Proof.
  unfold GetOrCreatePeerConnection. destruct (tr_map t !! peer_id) as [j|]; [|apply new_peer_flags].
  destruct (p_state <$> _) as [[]|]; try done; by rewrite new_peer_flags.
Qed.

Lemma tr_step_flags t e : lifecycle_event e = false -> tr_flags (tr_step tls t e) = tr_flags t.
Proof.
  destruct e as [| | |to addr p|b|i|j e]; try done; simpl; intros _.
  - apply batching_flags.
  - destruct (handlers_run t); [|done]. unfold run_transport, run_transport_post.
    destruct (tr_posted t !! i) as [[to addr p|]|]; try done.
    pose proof (get_peer_flags to addr (t <| tr_posted ::= list_delete i |>)) as H.
    by destruct (GetOrCreatePeerConnection tls to addr _) as [[j|] t'].
  - by destruct (handlers_run t && peer_event e).
Qed.

Lemma start_flags k t :
  tr_initialized t = true -> exists t', tr_start k t = (StOK, t') /\ tr_flags t' = (true, true).
Proof.
  intros Hi. unfold tr_start. rewrite Hi. cbn [negb]. destruct (tr_running t) eqn:E.
  - exists t. split; [done|]. unfold tr_flags. by rewrite Hi, E.
  - eexists. split; [reflexivity|]. unfold tr_flags. simpl. by rewrite Hi.
Qed.

Lemma ts_stop_down t : ts_running (ts_stop t) = false /\ ts_next_timer_id (ts_stop t) = ts_next_timer_id t.
Proof. unfold ts_stop. by destruct (ts_running t) eqn:E. Qed.

Lemma cancel_next id t : ts_next_timer_id (CancelTimer id t).2 = ts_next_timer_id t.
Proof. unfold CancelTimer. by case_decide. Qed.

Definition shut (s : StoreLife) : StoreLife := stop_timer (stop_network (cancel_tick (stop_server s))).

(** Stopping the infrastructure leaves nothing running. *)
Lemma shut_down s :
  all_down (shut s) /\ sl_store (shut s) = sl_store s /\
  ts_next_timer_id (sl_timer (shut s)) = ts_next_timer_id (sl_timer s).
Proof.
  unfold shut, all_down. set (s1 := cancel_tick (stop_server s)).
  assert (sl_tick s1 = 0 /\ sl_server s1 = false /\ sl_store s1 = sl_store s /\
    ts_next_timer_id (sl_timer s1) = ts_next_timer_id (sl_timer s)) as (Ht & Hs & Hst & Hn).
  { unfold s1, cancel_tick, stop_server. case_decide as E; simpl; [done|]. by rewrite cancel_next. }
  destruct (ts_stop_down (sl_timer (stop_network s1))) as [Hr Hn'].
  pose proof (f_equal snd (stop_flags (sl_network s1))) as Hf. simpl in Hf.
  split_and!; try done. rewrite <- Hn. exact Hn'.
Qed.

Lemma life_initialize n made s : life_inv n s -> life_inv n (StoreInitialize made s).2.
Proof.
  intros [Hup Hn]. unfold StoreInitialize. destruct (negb _); [done|]. destruct (initialized_ _) eqn:Hini; [done|].
  assert (life_inv n (s <| sl_store ::= fun st => st <| initialized_ := true |> |> <| sl_made := made |>)) as H.
  { split; [|done]. simpl. destruct (running_ (sl_store s)); [|done]. destruct Hup as [Hi _]. congruence. }
  by destruct (negb made.1.1), (negb made.1.2), (negb made.2).
Qed.

Lemma life_rollback n s : 0 < ts_next_timer_id (sl_timer s) <= n -> life_inv n (RollbackStart s).
Proof.
  intros Hn. destruct (shut_down s) as (Hd & _ & Ht). unfold shut in *. split; [exact Hd|].
  change (0 < ts_next_timer_id (sl_timer (stop_timer (stop_network (cancel_tick (stop_server s))))) <= n). lia.
Qed.

(** The services come up, with an exception or not. *)
Lemma start_services_run o s :
  0 < ts_next_timer_id (sl_timer s) < UINT64_MAX -> sl_server s = false ->
  exists r s', start_store_services o s = (r, s') /\
    sl_store s' = sl_store s /\ sl_made s' = sl_made s /\ sl_network s' = sl_network s /\ ts_running (sl_timer s') = true /\
    IsTimerActive (sl_tick s') (sl_timer s') = true /\ sl_server s' = wants_server /\
    ts_next_timer_id (sl_timer s') = ts_next_timer_id (sl_timer s) + 1.
Proof.
  intros Hn Hsv. unfold start_store_services, SetInterval, set_timer. simpl.
  assert (IsTimerActive (ts_next_timer_id (sl_timer s))
    ((ts_start (sl_timer s)) <| ts_next_timer_id := u64 (ts_next_timer_id (sl_timer s) + 1) |>
       <| ts_kind ::= <[ts_next_timer_id (sl_timer s) := true]> |>
       <| ts_timers ::= fun t => {[ts_next_timer_id (sl_timer s)]} ∪ t |>
       <| ts_waits ::= fun w => w ++ [ts_next_timer_id (sl_timer s)] |>) = true) as Ha.
  { unfold IsTimerActive, kInvalidTimerId. apply bool_decide_eq_true. split; [lia|]. simpl. set_solver. }
  assert (u64 (ts_next_timer_id (sl_timer s) + 1) = ts_next_timer_id (sl_timer s) + 1) as Hu by (apply u64_small; lia).
  destruct wants_server eqn:Ew; [destruct (so_server o)|];
    (eexists _, _; split; [reflexivity|]; split_and!; done).
Qed.

Lemma listen_error addr : listen_endpoint addr <> inl StOK.
Proof. unfold listen_endpoint, Error1, mkStatus. by repeat case_match. Qed.

Lemma life_start n o s r :
  n < UINT64_MAX -> life_inv n s -> StoreStart o s = Some r -> life_inv (n + 1) r.2.
Proof.
  intros Hmax [Hup Hn]. assert (life_inv (n + 1) s) as Hsame by (split; [done|lia]).
  unfold StoreStart. destruct (initialized_ (sl_store s)) eqn:Hi; [|by intros [= <-]]. cbn [negb].
  destruct (running_ (sl_store s)) eqn:Hr; [by intros [= <-]|]. cbv zeta.
  change (sl_made (set_running true s)) with (sl_made s). destruct (sl_made s).1.1 eqn:Hm1; [|done]. cbn [negb].
  assert (forall net, tr_flags net = (tr_initialized net, false) ->
    life_inv (n + 1) (set_running false ((set_running true s) <| sl_network := net |>))) as Hfail.
  { intros net [= Hnet]. destruct Hup as (H1 & H2 & H3 & H4). split; [|simpl; lia]. by split_and!. }
  assert (tr_running (sl_network s) = false) as Hnr by apply Hup.
  destruct (_ && negb _).
  { intros [= <-]. destruct Hup as (H1 & H2 & H3 & H4). split; [|simpl; lia]. by split_and!. }
  assert (tr_running (Initialize (so_bind o) (so_contexts o) (sc_listen_addr config) (sl_network (set_running true s))).2 = false /\
    ((Initialize (so_bind o) (so_contexts o) (sc_listen_addr config) (sl_network (set_running true s))).1 = StOK ->
     tr_initialized (Initialize (so_bind o) (so_contexts o) (sc_listen_addr config) (sl_network (set_running true s))).2 = true))
    as [Hrun Hini].
  { unfold Initialize. repeat (case_match; try done). split; [done|]. simpl. intros ->. by apply listen_error in H0. }
  destruct (Initialize _ _ _ _) as [status net]. cbn [fst snd] in *.
  destruct (status_ok status) eqn:Es; cbn [negb]; [|intros [= <-]; apply Hfail; unfold tr_flags; by rewrite Hrun].
  match goal with |- context [negb ?b] => destruct b eqn:Hm2; [|done] end. cbn [negb].
  assert (status = StOK) as -> by by destruct status. specialize (Hini eq_refl).
  match goal with |- context [start_store_services o ?x] =>
    destruct (start_services_run o x) as ([what|[]] & s' & -> & Hst & Hmd & Hnet & Hts & Hact & Hsv & Hnx); [simpl; lia|apply Hup|..] end.
  { intros [= <-]. apply life_rollback. simpl in Hnx. lia. }
  assert (tr_initialized (sl_network (s' <| sl_network ::= SetBatchingEnabled tls (transport_batching_enabled_ (sl_store s')) |>))
    = true) as Hb.
  { simpl. rewrite Hnet. pose proof (f_equal fst (batching_flags (transport_batching_enabled_ (sl_store s')) net)) as H.
    simpl in *. by rewrite H. }
  destruct (start_flags (so_threads o) _ Hb) as (t' & -> & [= Ht1 Ht2]). intros [= <-]. simpl.
  split; [|simpl in *; lia]. simpl. rewrite Hst. simpl. split_and!; try done; simpl; [by rewrite Hst|].
  rewrite Hmd. simpl in *. destruct (sl_made s) as [[] ?]. simpl in *. congruence.
Qed.

Lemma life_stop n s s' : life_inv n s -> life_step s LStop = Some s' -> life_inv n s'.
Proof.
  intros [Hup Hn]. simpl. unfold StoreShutdown. destruct (running_ (sl_store s)) eqn:Hr; cbn [negb].
  2: { intros [= <-]. split; [by rewrite Hr|done]. }
  unfold StoreStop. rewrite run_bind, run_gets, Hr. cbn [negb]. rewrite run_bind, run_modify, run_bind.
  pose proof (each_group_flags Stop ((sl_store s) <| running_ := false |>)) as (Hf & _).
  destruct (each_group Stop _) as [[] st|st]; [|done].
  rewrite run_ret. intros [= <-]. destruct (shut_down (s <| sl_store := st |>)) as (Hd & Hst & Ht). unfold shut in *.
  split; [|simpl in *; lia]. rewrite Hst. simpl in Hf. simpl. by rewrite Hf.
Qed.

Lemma life_inv_step n s e s' :
  n < UINT64_MAX -> life_inv n s -> life_step s e = Some s' -> life_inv (n + 1) s'.
Proof.
  intros Hmax Hs. assert (forall s', life_inv n s' -> life_inv (n + 1) s') as Hw
    by (intros t [H1 H2]; split; [done|lia]).
  destruct e as [made|o| |groups|e].
  - intros [= <-]. by apply Hw, life_initialize.
  - simpl. intros (r&Hr&->)%fmap_Some. by eapply life_start.
  - intros E. by eapply Hw, life_stop.
  - intros [= <-]. apply Hw. exact Hs.
  - simpl. intros [= <-]. destruct (lifecycle_event e) eqn:E; [by apply Hw|]. destruct Hs as [Hup Hn]. split; [|simpl; lia].
    pose proof (tr_step_flags (sl_network s) e E) as [= H1 H2]. simpl.
    destruct (running_ (sl_store s)); unfold all_up, all_down in *; simpl; rewrite ?H1, ?H2; done.
Qed.

(** C30. Whatever a new store goes through and whatever fails on the way (components
    that cannot be made, a listener or an HTTP server that cannot be opened), as
    long as the process lives: the store is up with its network, its timer service,
    an active tick and, if configured, its HTTP server, or it is down with none of
    them running.  The process ends ([life_run] is [None]) when [Start] calls
    through a component that [Initialize] could not make ([start_of_null_network]),
    or when the stop of a group aborts. *)
Theorem store_up_or_down st events s :
  initialized_ st = false -> running_ st = false -> Z.of_nat (length events) < UINT64_MAX - 1 ->
  life_run (StoreLife_new st) events = Some s ->
  if running_ (sl_store s) then all_up s else all_down s.
Proof.
  intros Hi Hr Hl Hrun.
  assert (life_inv (1 + Z.of_nat (length events)) s) as [H _]; [|done].
  revert s Hrun. induction events as [|e es IH] using rev_ind; intros s.
  { intros [= <-]. split; [|simpl; lia]. simpl. by rewrite Hr. }
  unfold life_run. rewrite foldl_app, length_app in *. simpl in *. fold (life_run (StoreLife_new st) es).
  destruct (life_run (StoreLife_new st) es) as [t|]; [|done]. simpl. intros E.
  replace (1 + Z.of_nat (length es + 1)) with (1 + Z.of_nat (length es) + 1) by lia.
  eapply life_inv_step; [lia| |done]. apply IH; [lia|done].
Qed.

(** Once its network was initialized, a store that is down does not start again. *)
Lemma no_second_start o s :
  initialized_ (sl_store s) = true -> running_ (sl_store s) = false -> tr_initialized (sl_network s) = true ->
  forall r, StoreStart o s = Some r -> status_ok r.1 = false.
Proof.
  intros Hi Hr Ht r. unfold StoreStart. rewrite Hi, Hr. cbn [negb]. destruct (negb _); [done|].
  destruct (_ && negb _); [by intros [= <-]|]. unfold Initialize. simpl. rewrite Ht. by intros [= <-].
Qed.

(** A network that could not be made leaves the store marked as initialized, and
    the start that follows calls through the null pointer. *)
Lemma start_of_null_network made o s :
  initialized_ (sl_store s) = false -> running_ (sl_store s) = false -> sc_client_auth_enabled config = false ->
  made.1.1 = false ->
  (StoreInitialize made s).1 = Error1 "NetworkTransport cannot be null" /\
  initialized_ (sl_store (StoreInitialize made s).2) = true /\
  StoreStart o (StoreInitialize made s).2 = None.
Proof.
  intros Hi Hr Hc Hm. unfold StoreInitialize, ValidateClientAuthConfig. rewrite Hc, Hi, Hm. split_and!; [done..|].
  unfold StoreStart. simpl. by rewrite Hr, Hm.
Qed.
End life.

(** ** Witness *)

Definition sample_outcome (server : option string) : StartOutcome :=
  mkStartOutcome true (fun _ => None) None server 4.

(** A start that fails when its HTTP server cannot listen, then the start of a store
    without one. *)
Lemma store_up_or_down_witness :
  let config := mkRaftStoreConfig 1 "10.0.0.1:8001" [] [] "/var/raft" true "0.0.0.0:9001" false "" "" "" false false "" [] in
  let events := [LInitialize (true, true, true); LStart (sample_outcome (Some "address in use"))] in
  let st := mkRaftStore ∅ false false true in
  exists s, life_run config false (StoreLife_new st) events = Some s /\ running_ (sl_store s) = false /\ all_down s.
Proof.
  intros config events st. eexists. split; [reflexivity|].
  match goal with |- running_ (sl_store ?x) = false /\ _ =>
    pose proof (store_up_or_down config false st events x eq_refl eq_refl ltac:(simpl; unfold UINT64_MAX; lia) eq_refl) as H end.
  split; [reflexivity|exact H].
Defined.
