(* ===== verification/AsyncClient.v ===== *)
(** * The client's connections and asynchronous calls: [src/rpc_client.cpp],
    [src/client.cpp], [src/client/connection_pool.cpp]

    One exchange with a server over a new connection, and the queue of commands
    that worker threads execute.  What connecting gives, the bytes that arrive and
    the result of an execution are arguments; a callback is a number.  At the end
    the connection pool, which no request uses: one connection per server, made
    when it is asked for.  The pool holds weak references only: a socket lives as
    long as a caller holds it, and is closed when it is given up. *)

From Stdlib Require Import Ascii.
From S2P Require Import Prelude Types RaftLog Quorum Sessions RaftGroup Timers Replicate Membership Text.
From S2P Require Import Bytes DenseIndex Disk Wal WalScan Identity Connection Config.

(** ** One exchange *)

Definition kMaxResponse : Z := 10 * 1024 * 1024.

Definition header_of (a b c d : ascii) : Z :=
  Z.lor (Z.lor (Z.lor (Z.shiftl (char_byte a) 24) (Z.shiftl (char_byte b) 16)) (Z.shiftl (char_byte c) 8)) (char_byte d).

(** [incoming] are the bytes that the server sends before it closes the
    connection; [None] is the exception of reading past them. *)
Definition ExchangeRpc (incoming : string) : option (Status + string) :=
  match incoming with
  | String a (String b (String c (String d body))) =>
      let response_length := header_of a b c d in
      if decide (kMaxResponse < response_length) then Some (inl (Error1 "Response too large"))
      else if decide (Z.of_nat (String.length body) < response_length) then None
      else Some (inr (String.substring 0 (Z.to_nat response_length) body))
  | _ => None
  end.

(** What the connection attempt gives: an exception of the resolver, no answer in
    time, an error, or none. *)
Inductive ConnectOutcome := ResolveThrows | ConnectTimeout | ConnectFailed (message : string) | ConnectDone.

(** [connect] is asked with the host and the port; [None] is an exception of
    [std::stoi] or of the resolver. *)
Definition ConnectSocket (connect : string -> Z -> ConnectOutcome) (addr : string) : option Status :=
  match split_colon 0 addr with
  | None => Some (Error1 "Invalid address format, expected host:port")
  | Some (host, port_str) =>
      match stoi port_str with
      | None => None
      | Some (port, _) =>
          match connect host (u16 port) with
          | ResolveThrows => None
          | ConnectTimeout => Some (Error1 ("Timeout connecting to " +:+ addr))
          | ConnectFailed message => Some (Error1 ("Failed to connect to " +:+ addr +:+ ": " +:+ message))
          | ConnectDone => Some StOK
          end
      end
  end.

(** [what] is the text of the exception, [incoming] what the server answers to the
    bytes it receives. *)
Definition DoRpcCall (connect : string -> Z -> ConnectOutcome) (incoming : string -> string) (what : string)
    (addr request_data : string) : Status + string :=
  let failed := Error1 ("RPC call failed: " +:+ what) in
  match ConnectSocket connect addr with
  | None => inl failed
  | Some status =>
      if negb (status_ok status) then inl status
      else match ExchangeRpc (incoming (frame request_data)) with
      | None => inl failed
      | Some r => r
      end
  end.

(** [handshake] gives the certificate the server presents, [None] is an exception of
    setting TLS up.  The result comes with the bytes sent to the server; [None] is
    an exception that leaves the function. *)
Definition DoTlsRpcCall (connect : string -> Z -> ConnectOutcome) (handshake : option (option Certificate))
    (incoming : string -> string) (what : string) (addr request_data : string)
    : option (list string * (Status + string)) :=
  let failed := Error1 ("TLS RPC call failed: " +:+ what) in
  match ConnectSocket connect addr with
  | None => None
  | Some status =>
      if negb (status_ok status) then Some ([], inl status)
      else match handshake with
      | None => Some ([], inl failed)
      | Some None => Some ([], inl (Error2 "TLS_IDENTITY_MISSING" "Server did not present a certificate"))
      | Some (Some certificate) =>
          match ExtractCertificatePeerIdentity (Some certificate) with
          | inl err => Some ([], inl err)
          | inr identity =>
              if decide (kind identity <> PEER_NODE) then
                Some ([], inl (Error2 "TLS_IDENTITY_MISMATCH" "Server certificate does not contain a node identity"))
              else
                Some ([frame request_data],
                      match ExchangeRpc (incoming (frame request_data)) with
                      | None => inl failed
                      | Some r => r
                      end)
          end
      end
  end.

(** Over TLS a request is sent, and an answer taken, only from a server whose
    certificate names a node. *)
Lemma tls_request_to_nodes connect handshake incoming what addr request_data sent result :
  DoTlsRpcCall connect handshake incoming what addr request_data = Some (sent, result) ->
  (sent = [] /\ exists err, result = inl err) \/
  (sent = [frame request_data] /\ exists certificate id,
     handshake = Some (Some certificate) /\ ExtractCertificateNodeId (Some certificate) = inr id).
Proof.
  unfold DoTlsRpcCall, ExtractCertificateNodeId. intros H.
  destruct (ConnectSocket connect addr) as [status|]; [|done].
  destruct (status_ok status); [|simplify_eq/=; eauto].
  destruct handshake as [[certificate|]|]; [|simplify_eq/=; eauto..]. cbn [negb] in H.
  destruct (ExtractCertificatePeerIdentity (Some certificate)) as [err|identity] eqn:E; [simplify_eq/=; eauto|].
  case_decide as Hk; [simplify_eq/=; eauto|]. right. simplify_eq. split; [done|]. exists certificate, (node_id identity).
  rewrite E. split; [done|]. destruct (decide (kind identity = PEER_NODE)); [done|]. by destruct Hk.
Qed.

(** A host that does not resolve is an error of a plain call and an exception of a
    call over TLS. *)
Lemma unresolved_host_escapes incoming handshake what addr request_data host port p q :
  split_colon 0 addr = Some (host, port) -> stoi port = Some (p, q) ->
  DoRpcCall (fun _ _ => ResolveThrows) incoming what addr request_data = inl (Error1 ("RPC call failed: " +:+ what)) /\
  DoTlsRpcCall (fun _ _ => ResolveThrows) handshake incoming what addr request_data = None.
Proof. intros Ha Hp. unfold DoTlsRpcCall, DoRpcCall, ConnectSocket. by rewrite Ha, Hp. Qed.

(** [initialization_error_] of the constructor: [pem] is what reading the
    certificate gives, [readable] whether the files of the key and of the node CA
    can be read. *)
Definition tls_initialization_error (tls_enabled : bool) (cert_file key_file ca_file : string)
    (pem : option (option Certificate)) (readable : string -> bool) : option Status :=
  if negb tls_enabled then None
  else if bool_decide (cert_file = "") || bool_decide (key_file = "") || bool_decide (ca_file = "") then
    Some (Error2 "CONFIG_INVALID" "TLS client requires certificate, key, and node CA")
  else
    let status := ValidateCertificateClientIdentity cert_file pem in
    if negb (status_ok status) then Some (Error2 "CONFIG_INVALID" (GetMessage status))
    else if negb (readable key_file) || negb (readable ca_file) then
      Some (Error2 "CONFIG_INVALID" "TLS client key and node CA files must be readable")
    else None.

Lemma ExchangeRpc_frame response rest :
  Z.of_nat (String.length response) <= UINT32_MAX ->
  ExchangeRpc (frame response +:+ rest) =
    Some (if decide (kMaxResponse < Z.of_nat (String.length response)) then inl (Error1 "Response too large")
          else inr response).
Proof.
  intros Hl. unfold frame. rewrite u32_small by lia. set (n := Z.of_nat (String.length response)) in *.
  change ((length_header n +:+ response) +:+ rest) with
    (String (byte_char (Z.shiftr n 24)) (String (byte_char (Z.shiftr n 16))
      (String (byte_char (Z.shiftr n 8)) (String (byte_char n) (response +:+ rest))))).
  unfold ExchangeRpc, header_of. rewrite !char_byte_char, header_value by (unfold UINT32_MAX in *; lia).
  case_decide; [done|]. rewrite length_str_app, decide_False by lia. subst n.
  by rewrite Nat2Z.id, substring_app.
Qed.

(** Client and server agree on the frames: the server reads the request the client
    sends, whole and as the only one, and the client reads the server's response;
    a response between the two sides' limits is sent and refused. *)
Theorem exchange_frames request response :
  message_ok request ->
  read_all (frame request) = ([request], RWaiting "") /\
  (Z.of_nat (String.length response) <= kMaxResponse -> ExchangeRpc (frame response) = Some (inr response)) /\
  (kMaxResponse < Z.of_nat (String.length response) < kMaxMessage ->
     message_ok response /\ ExchangeRpc (frame response) = Some (inl (Error1 "Response too large"))).
Proof.
  intros Hr. split; [|split].
  - unfold read_all. rewrite <- (str_app_nil (frame request)) at 2. rewrite read_frame by done.
    by destruct (String.length (frame request)) as [|n].
  - intros Hl. rewrite <- (str_app_nil (frame response)).
    rewrite ExchangeRpc_frame by (unfold kMaxResponse, UINT32_MAX in *; lia). by rewrite decide_False by lia.
  - intros Hl. split; [unfold message_ok, kMaxResponse in *; lia|]. rewrite <- (str_app_nil (frame response)).
    rewrite ExchangeRpc_frame by (unfold kMaxMessage, UINT32_MAX in *; lia). by rewrite decide_True by lia.
Qed.

(** ** Asynchronous calls *)

Inductive AsyncResult := AsyncShutdown | AsyncQueueFull | AsyncExecuted | AsyncException.

Inductive Worker := WIdle | WBusy (cb : nat) | WDone.
#[global] Instance Worker_eq_dec : EqDecision Worker.
Proof. solve_decision. Defined.

(** [ac_called] are the calls of callbacks so far. *)
Record AsyncClient := mkAsyncClient {
  ac_max_queue : Z;
  ac_shutdown : bool;
  ac_queue : list nat;
  ac_workers : list Worker;
  ac_called : list (nat * AsyncResult)
}.
#[global] Instance AsyncClient_eta : Eta AsyncClient := fun r =>
  mkAsyncClient (ac_max_queue r) (ac_shutdown r) (ac_queue r) (ac_workers r) (ac_called r).

(** The constructor starts at most four threads, and at least one. *)
Definition worker_count (hardware_concurrency : nat) : nat := Nat.max 1 (Nat.min 4 hardware_concurrency).
Definition AsyncClient_new (max_queue : Z) (hardware_concurrency : nat) : AsyncClient :=
  mkAsyncClient max_queue false [] (replicate (worker_count hardware_concurrency) WIdle) [].

Definition call (cb : nat) (r : AsyncResult) (c : AsyncClient) : AsyncClient :=
  c <| ac_called ::= fun l => l ++ [(cb, r)] |>.

Definition ExecuteAsync (cb : nat) (c : AsyncClient) : AsyncClient :=
  if ac_shutdown c then call cb AsyncShutdown c
  else if decide (0 < ac_max_queue c /\ ac_max_queue c <= Z.of_nat (length (ac_queue c))) then call cb AsyncQueueFull c
  else c <| ac_queue ::= fun q => q ++ [cb] |>.

(** A worker that is woken up takes a command, or returns. *)
Definition worker_take (w : nat) (c : AsyncClient) : AsyncClient :=
  match ac_workers c !! w with
  | Some WIdle =>
      match ac_queue c with
      | cb :: rest => c <| ac_queue := rest |> <| ac_workers ::= <[w := WBusy cb]> |>
      | [] => if ac_shutdown c then c <| ac_workers ::= <[w := WDone]> |> else c
      end
  | _ => c
  end.

(** The command was executed, or threw; [cb_throws] is whether the callback does
    when it is called with the result. *)
Definition worker_finish (w : nat) (exec_throws cb_throws : bool) (c : AsyncClient) : AsyncClient :=
  match ac_workers c !! w with
  | Some (WBusy cb) =>
      let c := c <| ac_workers ::= <[w := WIdle]> |> in
      if exec_throws then call cb AsyncException c
      else if cb_throws then call cb AsyncException (call cb AsyncExecuted c)
      else call cb AsyncExecuted c
  | _ => c
  end.

Inductive AsyncEvent :=
| AExecute (cb : nat)
| ATake (w : nat)
| AFinish (w : nat) (exec_throws cb_throws : bool)
| AShutdown.

Definition async_step (c : AsyncClient) (e : AsyncEvent) : AsyncClient :=
  match e with
  | AExecute cb => ExecuteAsync cb c
  | ATake w => worker_take w c
  | AFinish w exec_throws cb_throws => worker_finish w exec_throws cb_throws c
  | AShutdown => c <| ac_shutdown := true |>
  end.
Definition async_run (c : AsyncClient) (es : list AsyncEvent) : AsyncClient := foldl async_step c es.

(** A callback that throws is called a second time. *)
Lemma throwing_callback_called_twice :
  ac_called (async_run (AsyncClient_new 10 4) [AExecute 1; ATake 0; AFinish 0 false true]) =
    [(1%nat, AsyncExecuted); (1%nat, AsyncException)].
Proof. reflexivity. Qed.

Definition given (es : list AsyncEvent) : list nat :=
  es ≫= fun e => match e with AExecute cb => [cb] | _ => [] end.
Lemma given_cons e es : given (e :: es) = given [e] ++ given es.
Proof. unfold given. simpl. by rewrite app_nil_r. Qed.
Definition calm (e : AsyncEvent) : bool := match e with AFinish _ _ throws => negb throws | _ => true end.
Definition busy (ws : list Worker) : list nat := ws ≫= fun w => match w with WBusy cb => [cb] | _ => [] end.

Record async_inv (n : nat) (cbs : list nat) (c : AsyncClient) : Prop := {
  ai_once : (ac_called c).*1 ++ busy (ac_workers c) ++ ac_queue c ≡ₚ cbs;
  ai_bound : 0 < ac_max_queue c -> Z.of_nat (length (ac_queue c)) <= ac_max_queue c;
  ai_done : WDone ∈ ac_workers c -> ac_shutdown c = true /\ ac_queue c = [];
  ai_workers : length (ac_workers c) = n
}.

Lemma worker_split (ws : list Worker) w y x :
  ws !! w = Some y -> exists before after, ws = before ++ y :: after /\ <[w := x]> ws = before ++ x :: after.
Proof.
  intros Hy. exists (take w ws), (drop (S w) ws). split; [symmetry; by apply take_drop_middle|].
  apply insert_take_drop. by eapply lookup_lt_Some.
Qed.

Lemma busy_app a b : busy (a ++ b) = busy a ++ busy b.
Proof. unfold busy. by rewrite bind_app. Qed.

Lemma busy_take ws w cb : ws !! w = Some WIdle -> busy (<[w := WBusy cb]> ws) ≡ₚ cb :: busy ws.
Proof.
  intros (a & b & -> & ->)%(worker_split _ _ _ (WBusy cb)). rewrite !busy_app. simpl. symmetry. apply Permutation_middle.
Qed.
Lemma busy_free ws w cb : ws !! w = Some (WBusy cb) -> cb :: busy (<[w := WIdle]> ws) ≡ₚ busy ws.
Proof.
  intros (a & b & -> & ->)%(worker_split _ _ _ WIdle). rewrite !busy_app. simpl. apply Permutation_middle.
Qed.
Lemma busy_done ws w : ws !! w = Some WIdle -> busy (<[w := WDone]> ws) = busy ws.
Proof. intros (a & b & -> & ->)%(worker_split _ _ _ WDone). by rewrite !busy_app. Qed.
Lemma done_insert (ws : list Worker) w y x : ws !! w = Some y -> x <> WDone -> WDone ∈ <[w := x]> ws -> WDone ∈ ws.
Proof.
  intros (a & b & -> & ->)%(worker_split _ _ _ x) Hx. rewrite !elem_of_app, !elem_of_cons. naive_solver.
Qed.

Lemma async_inv_take n cbs c w : async_inv n cbs c -> async_inv n cbs (worker_take w c).
Proof.
  intros Hc. unfold worker_take. destruct (ac_workers c !! w) as [[| |]|] eqn:Ew; try done.
  pose proof Hc as [H1 H2 H3 H4]. destruct (ac_queue c) as [|cb rest] eqn:Eq.
  - destruct (ac_shutdown c) eqn:Es; [|done].
    split; simpl; rewrite ?Eq; [by rewrite busy_done|done|done|by rewrite length_insert].
  - split; simpl.
    + rewrite busy_take by done. rewrite <- H1. solve_Permutation.
    + simpl in H2. lia.
    + intros Hd. apply (done_insert _ _ WIdle) in Hd; [|done..]. by destruct (H3 Hd).
    + by rewrite length_insert.
Qed.

Lemma async_inv_finish n cbs c w exec_throws : async_inv n cbs c -> async_inv n cbs (worker_finish w exec_throws false c).
Proof.
  intros Hc. unfold worker_finish. destruct (ac_workers c !! w) as [[|cb|]|] eqn:Ew; try done.
  assert (forall r, async_inv n cbs (call cb r (c <| ac_workers ::= <[w := WIdle]> |>))) as H.
  { intros r. destruct Hc as [H1 H2 H3 H4]. split; simpl; [|done| |by rewrite length_insert].
    - rewrite fmap_app. simpl. rewrite <- H1, <- (busy_free _ _ _ Ew). solve_Permutation.
    - intros Hd. by apply (done_insert _ _ (WBusy cb)) in Hd; [apply H3|..]. }
  cbv zeta. destruct exec_throws; apply H.
Qed.

Lemma async_inv_execute n cbs c cb : async_inv n cbs c -> async_inv n (cbs ++ [cb]) (ExecuteAsync cb c).
Proof.
  intros [H1 H2 H3 H4]. unfold ExecuteAsync.
  assert (forall r, async_inv n (cbs ++ [cb]) (call cb r c)) as Hcall.
  { intros r. split; simpl; try done. rewrite fmap_app. simpl. rewrite <- H1. solve_Permutation. }
  destruct (ac_shutdown c) eqn:Es; [apply Hcall|]. case_decide as Hf; [apply Hcall|].
  split; simpl; [|..|done].
  - rewrite <- H1. solve_Permutation.
  - rewrite length_app. simpl. lia.
  - intros Hd. destruct (H3 Hd) as [Hs _]. congruence.
Qed.

Lemma async_inv_step n cbs c e :
  calm e = true -> async_inv n cbs c -> async_inv n (cbs ++ given [e]) (async_step c e).
Proof.
  intros He Hc. destruct e as [cb|w|w et [|]|]; try done; simpl; rewrite ?app_nil_r.
  - by apply async_inv_execute.
  - by apply async_inv_take.
  - by apply async_inv_finish.
  - destruct Hc as [H1 H2 H3 H4]. split; try done. simpl. intros Hd. by destruct (H3 Hd).
Qed.

Lemma async_inv_run n es cbs c :
  forallb calm es = true -> async_inv n cbs c -> async_inv n (cbs ++ given es) (async_run c es).
Proof.
  revert cbs c. induction es as [|e es IH]; intros cbs c He Hc; [simpl; by rewrite app_nil_r|].
  simpl in He. change (async_run c (e :: es)) with (async_run (async_step c e) es). apply andb_true_iff in He as [He Hes].
  replace (cbs ++ given (e :: es)) with ((cbs ++ given [e]) ++ given es)
    by (rewrite (given_cons e es); by rewrite app_assoc).
  apply IH; [done|]. by apply async_inv_step.
Qed.

(** ** The destructor *)

Definition all_done (c : AsyncClient) : Prop := Forall (fun w => w = WDone) (ac_workers c).

(** What is left to do: an idle worker returns once the queue is empty. *)
Definition worker_cost (w : Worker) : nat := match w with WIdle => 1 | WBusy _ => 2 | WDone => 0 end.
Definition remaining (c : AsyncClient) : nat :=
  3 * length (ac_queue c) + sum_list_with worker_cost (ac_workers c).

Lemma sum_insert (f : Worker -> nat) ws w y x :
  ws !! w = Some y -> (sum_list_with f (<[w := x]> ws) + f y = sum_list_with f ws + f x)%nat.
Proof.
  intros (a & b & -> & ->)%(worker_split _ _ _ x). rewrite !sum_list_with_app. simpl. lia.
Qed.

(** While a worker has not returned, one of the steps that workers take by
    themselves makes progress. *)
Lemma async_progress c :
  ac_shutdown c = true -> ~ all_done c ->
  exists e, calm e = true /\ given [e] = [] /\ ac_shutdown (async_step c e) = true /\
    (remaining (async_step c e) < remaining c)%nat.
Proof.
  intros Hs Hn. unfold all_done in Hn. apply not_Forall_Exists in Hn; [|apply _].
  apply list.Exists_exists in Hn as (x & [w Hw]%list_elem_of_lookup & Hx). unfold remaining.
  destruct x as [|cb|]; [| |by destruct Hx].
  - exists (ATake w). split; [done|]. split; [done|]. simpl. unfold worker_take. rewrite Hw.
    destruct (ac_queue c) as [|cb rest] eqn:Eq; [rewrite Hs|]; simpl; rewrite ?Eq; (split; [done|]).
    + pose proof (sum_insert worker_cost _ _ _ WDone Hw). simpl in *. lia.
    + pose proof (sum_insert worker_cost _ _ _ (WBusy cb) Hw). simpl in *. lia.
  - exists (AFinish w false false). split; [done|]. split; [done|]. simpl. unfold worker_finish. rewrite Hw.
    simpl. split; [done|]. pose proof (sum_insert worker_cost _ _ _ WIdle Hw). simpl in *. lia.
Qed.

Lemma async_drains c :
  ac_shutdown c = true ->
  exists es, forallb calm es = true /\ given es = [] /\ all_done (async_run c es).
Proof.
  remember (remaining c) as k eqn:Hk. revert c Hk. induction (lt_wf k) as [k _ IH]. intros c -> Hs.
  destruct (decide (Forall (fun w => w = WDone) (ac_workers c))) as [Hd|Hd]; [by exists []|].
  destruct (async_progress c Hs Hd) as (e & He & Hg & Hs' & Hlt).
  destruct (IH _ Hlt _ eq_refl Hs') as (es & Hes & Hges & Hdone).
  exists (e :: es). split; [by apply andb_true_iff|]. split; [|done].
  by rewrite given_cons, Hg, Hges.
Qed.

Lemma async_max c es : ac_max_queue (async_run c es) = ac_max_queue c.
Proof.
  revert c. induction es as [|e es IH]; intros c; [done|]. change (async_run c (e :: es)) with (async_run (async_step c e) es).
  rewrite IH. destruct e as [cb|w|w et ct|]; simpl; unfold ExecuteAsync, worker_take, worker_finish; by repeat case_match.
Qed.

(** C31. Of every asynchronous call the callback is called, once, provided that no
    callback throws.  The destructor waits for the workers, and they can always
    finish: then every callback has been called.  No more commands wait than the
    options allow. *)
Theorem async_calls_answered max_queue threads es :
  forallb calm es = true ->
  let c := async_run (AsyncClient_new max_queue threads) es in
  (ac_called c).*1 ++ busy (ac_workers c) ++ ac_queue c ≡ₚ given es /\
  (0 < max_queue -> Z.of_nat (length (ac_queue c)) <= max_queue) /\
  (all_done c -> (ac_called c).*1 ≡ₚ given es) /\
  exists more, given more = [] /\
    all_done (async_run c (AShutdown :: more)) /\
    (ac_called (async_run c (AShutdown :: more))).*1 ≡ₚ given es.
Proof.
  intros Hes c. assert (async_inv (worker_count threads) (given es) c) as Hc.
  { apply (async_inv_run _ es []); [done|]. split; simpl.
    - unfold busy. by induction (worker_count threads).
    - lia.
    - by intros [? _]%elem_of_replicate.
    - apply length_replicate. }
  assert (forall cbs c', async_inv (worker_count threads) cbs c' -> all_done c' -> (ac_called c').*1 ≡ₚ cbs) as Hall.
  { intros cbs c' Hc' Hd. rewrite <- (ai_once _ _ _ Hc'). unfold all_done in Hd.
    assert (busy (ac_workers c') = []) as ->.
    { induction Hd as [|w ws -> _ IH]; [done|]. exact IH. }
    destruct (ai_done _ _ _ Hc') as [_ ->]; [|by rewrite app_nil_r].
    pose proof (ai_workers _ _ _ Hc') as Hl. destruct (ac_workers c') as [|w ws]; [unfold worker_count in Hl; simpl in Hl; lia|].
    apply list.Forall_cons in Hd as [-> _]. left. }
  split; [apply Hc|]. split; [|split; [by apply Hall|]].
  - intros Hm. pose proof (ai_bound _ _ _ Hc) as Hb. unfold c in *. rewrite async_max in Hb. by apply Hb.
  - destruct (async_drains (async_step c AShutdown) eq_refl) as (more & Hcalm & Hg & Hd).
    exists more. split; [done|]. split; [exact Hd|]. apply Hall; [|exact Hd].
    pose proof (async_inv_run _ (AShutdown :: more) _ c Hcalm Hc) as Hi.
    rewrite given_cons, Hg, !app_nil_r in Hi. exact Hi.
Qed.

Lemma async_calls_answered_witness :
  exists more, given more = [] /\
    (ac_called (async_run (async_run (AsyncClient_new 1 2)
       [AExecute 1; ATake 0; AExecute 2; AExecute 3; AFinish 0 true false]) (AShutdown :: more))).*1 ≡ₚ [1; 2; 3]%nat.
Proof.
  destruct (async_calls_answered 1 2 [AExecute 1; ATake 0; AExecute 2; AExecute 3; AFinish 0 true false] eq_refl)
    as (_ & _ & _ & more & Hg & _ & H).
  exists more. split; [exact Hg|exact H].
Defined.

Lemma exchange_frames_witness :
  read_all (frame "ping") = (["ping"], RWaiting "") /\ ExchangeRpc (frame "pong") = Some (inr "pong").
Proof.
  destruct (exchange_frames "ping" "pong") as (H1 & H2 & _); [split; reflexivity|].
  split; [exact H1|]. apply H2. vm_compute. discriminate.
Defined.

(** ** The connection pool *)

(** A socket that was made for an address, whether it is open, and whether a
    caller still holds it. *)
Record PoolSocket := mkPoolSocket { po_addr : string; po_open : bool; po_held : bool }.
#[global] Instance PoolSocket_eta : Eta PoolSocket := fun r => mkPoolSocket (po_addr r) (po_open r) (po_held r).

(** Sockets are known by their place among all that were made. *)
Record ConnectionPool := mkConnectionPool {
  pl_connections : gmap string nat;
  pl_sockets : list PoolSocket
}.
#[global] Instance ConnectionPool_eta : Eta ConnectionPool := fun r =>
  mkConnectionPool (pl_connections r) (pl_sockets r).
Definition ConnectionPool_new : ConnectionPool := mkConnectionPool ∅ [].

(** [weak_ptr::lock] of the reference that is kept for an address. *)
Definition pool_lock (addr : string) (p : ConnectionPool) : option (nat * PoolSocket) :=
  id ← pl_connections p !! addr;
  s ← pl_sockets p !! id;
  if po_held s then Some (id, s) else None.

(** [connects host port] is whether the address is resolved and the connection
    comes about before the timeout, without an exception. *)
Definition CreateConnection (connects : string -> string -> bool) (addr : string) : option PoolSocket :=
  match split_colon 0 addr with
  | None => None
  | Some (host, port_str) => if connects host port_str then Some (mkPoolSocket addr true true) else None
  end.

Definition GetConnection (connects : string -> string -> bool) (addr : string) (p : ConnectionPool) :
    option nat * ConnectionPool :=
  match pool_lock addr p with
  | Some (id, mkPoolSocket _ true _) => (Some id, p)
  | _ =>
      match CreateConnection connects addr with
      | None => (None, p)
      | Some s =>
          let id := length (pl_sockets p) in
          (Some id, mkConnectionPool (<[addr := id]> (pl_connections p)) (pl_sockets p ++ [s]))
      end
  end.

Definition close_socket (id : nat) (p : ConnectionPool) : ConnectionPool :=
  p <| pl_sockets ::= alter (fun s => s <| po_open := false |>) id |>.
Definition close_locked (addr : string) (p : ConnectionPool) : ConnectionPool :=
  match pool_lock addr p with Some (id, _) => close_socket id p | None => p end.

Definition CloseConnection (addr : string) (p : ConnectionPool) : ConnectionPool :=
  (close_locked addr p) <| pl_connections ::= delete addr |>.
Definition CloseAll (p : ConnectionPool) : ConnectionPool :=
  (foldl (fun p addr => close_locked addr p) p (map_to_list (pl_connections p)).*1) <| pl_connections := ∅ |>.
Definition IsHealthy (addr : string) (p : ConnectionPool) : bool :=
  match pool_lock addr p with Some (_, s) => po_open s | None => false end.

(** ** At most one connection per server *)

(** Besides the calls of the pool, a caller closes a socket, or gives up the last
    reference to it. *)
Inductive PoolEvent :=
| PoGet (connects : string -> string -> bool) (addr : string)
| PoClose (addr : string)
| PoCloseAll
| PoUserClose (id : nat)
| PoRelease (id : nat).

Definition pool_step (p : ConnectionPool) (e : PoolEvent) : ConnectionPool :=
  match e with
  | PoGet connects addr => (GetConnection connects addr p).2
  | PoClose addr => CloseConnection addr p
  | PoCloseAll => CloseAll p
  | PoUserClose id => close_socket id p
  | PoRelease id => p <| pl_sockets ::= alter (fun s => s <| po_open := false |> <| po_held := false |>) id |>
  end.

(** An open socket is held, and is the one the pool has for its address. *)
Definition pool_ok (p : ConnectionPool) : Prop :=
  (forall id s, pl_sockets p !! id = Some s -> po_open s = true ->
     po_held s = true /\ pl_connections p !! po_addr s = Some id) /\
  (forall addr id, pl_connections p !! addr = Some id -> exists s, pl_sockets p !! id = Some s /\ po_addr s = addr).

Lemma pool_lock_Some addr p id s :
  pool_lock addr p = Some (id, s) <->
  pl_connections p !! addr = Some id /\ pl_sockets p !! id = Some s /\ po_held s = true.
Proof.
  unfold pool_lock. split.
  - destruct (pl_connections p !! addr) as [i|]; [|done]. simpl. destruct (pl_sockets p !! i) as [t|] eqn:E; [|done].
    simpl. destruct (po_held t) eqn:Eh; [|done]. intros [= -> ->]. done.
  - intros (->&E&Hh). simpl. rewrite E. simpl. by rewrite Hh.
Qed.

(** Closing or releasing a socket changes nothing else. *)
Lemma pool_ok_alter f id p :
  (forall s, po_open (f s) = false /\ po_addr (f s) = po_addr s) -> pool_ok p ->
  pool_ok (p <| pl_sockets ::= alter f id |>).
Proof.
  intros Hf [H1 H2]. split; simpl.
  - intros i s Hs Ho. destruct (decide (i = id)) as [->|Hne].
    + rewrite list_lookup_alter_eq in Hs. destruct (pl_sockets p !! id); [|done]. simplify_eq/=.
      destruct (Hf p0). congruence.
    + rewrite list_lookup_alter_ne in Hs by done. eauto.
  - intros addr i Hi. destruct (H2 addr i Hi) as (s&Hs&Ha). destruct (decide (i = id)) as [->|Hne].
    + rewrite list_lookup_alter_eq, Hs. exists (f s). split; [done|]. destruct (Hf s). congruence.
    + rewrite list_lookup_alter_ne by done. eauto.
Qed.

Lemma close_socket_ok id p : pool_ok p -> pool_ok (close_socket id p).
Proof. apply pool_ok_alter. by intros []. Qed.

Lemma close_locked_ok addr p : pool_ok p -> pool_ok (close_locked addr p).
Proof. unfold close_locked. destruct (pool_lock addr p) as [[id s]|]; [apply close_socket_ok|done]. Qed.

Definition all_closed (addr : string) (p : ConnectionPool) : Prop :=
  forall id s, pl_sockets p !! id = Some s -> po_addr s = addr -> po_open s = false.

Lemma close_socket_lookup i p id s :
  pl_sockets (close_socket i p) !! id = Some s ->
  exists s0, pl_sockets p !! id = Some s0 /\ po_addr s = po_addr s0 /\ (po_open s = true -> po_open s0 = true) /\
    (id = i -> po_open s = false).
Proof.
  simpl. destruct (decide (id = i)) as [->|Hne].
  - rewrite list_lookup_alter_eq. destruct (pl_sockets p !! i) as [s0|]; [|done]. intros [= <-]. by exists s0.
  - rewrite list_lookup_alter_ne by done. intros ->. by exists s.
Qed.

Lemma close_locked_closed addr p : pool_ok p -> all_closed addr (close_locked addr p).
Proof.
  intros [H1 H2] id s Hs Ha. unfold close_locked in Hs. destruct (po_open s) eqn:Ho; [|done].
  destruct (pool_lock addr p) as [[i t]|] eqn:El.
  - apply close_socket_lookup in Hs as (s0&Hs0&Ha0&Ho0&Hi). destruct (H1 id s0 Hs0 (Ho0 Ho)) as [_ Hc].
    apply pool_lock_Some in El as (El&_). rewrite <- Ha0, Ha, El in Hc. simplify_eq. rewrite Hi in Ho; done.
  - destruct (H1 id s Hs Ho) as [Hh Hc]. rewrite Ha in Hc.
    assert (pool_lock addr p = Some (id, s)) by (by apply pool_lock_Some). congruence.
Qed.

Lemma close_locked_stays addr addr' p : all_closed addr p -> all_closed addr (close_locked addr' p).
Proof.
  unfold close_locked. destruct (pool_lock addr' p) as [[i t]|]; [|done]. intros H id s Hs Ha.
  apply close_socket_lookup in Hs as (s0&Hs0&Ha0&Ho0&_). destruct (po_open s) eqn:Ho; [|done].
  rewrite (H id s0 Hs0 ltac:(congruence)) in Ho0. by specialize (Ho0 eq_refl).
Qed.

Lemma close_locked_map addr p : pl_connections (close_locked addr p) = pl_connections p.
Proof. unfold close_locked. by destruct (pool_lock addr p) as [[i t]|]. Qed.

Lemma pool_ok_forget addr p : pool_ok p -> all_closed addr p -> pool_ok (p <| pl_connections ::= delete addr |>).
Proof.
  intros [H1 H2] Hc. split; simpl.
  - intros id s Hs Ho. destruct (H1 id s Hs Ho) as [Hh Hm]. split; [done|]. rewrite lookup_delete_ne; [done|].
    intros ->. rewrite (Hc id s Hs eq_refl) in Ho. done.
  - intros a id [_ Hi]%lookup_delete_Some. eauto.
Qed.

Lemma close_all_ok p : pool_ok p -> pool_ok (CloseAll p).
Proof.
  intros Hp. unfold CloseAll. set (addrs := (map_to_list (pl_connections p)).*1).
  assert (forall l q, pool_ok q -> pool_ok (foldl (fun p addr => close_locked addr p) q l) /\
    (forall a, all_closed a q \/ a ∈ l -> all_closed a (foldl (fun p addr => close_locked addr p) q l)) /\
    pl_connections (foldl (fun p addr => close_locked addr p) q l) = pl_connections q) as Hfold.
  { induction l as [|a l IH]; intros q Hq; simpl; [split_and!; [done| |done]; by intros a [?|?%elem_of_nil]|].
    destruct (IH (close_locked a q) (close_locked_ok a q Hq)) as (I1&I2&I3). split_and!; [done| |by rewrite I3, close_locked_map].
    intros b Hb. apply I2. destruct Hb as [Hb|[->|Hb]%elem_of_cons]; [left; by apply close_locked_stays|left|by right].
    by apply close_locked_closed. }
  destruct (Hfold addrs p Hp) as ([F1 F2]&F3&F4). split; simpl; [|intros a id Hx; by rewrite lookup_empty in Hx].
  intros id s Hs Ho. exfalso. destruct (F1 id s Hs Ho) as [_ Hm]. rewrite F4 in Hm.
  assert (po_addr s ∈ addrs) as Hin.
  { apply list_elem_of_fmap. exists (po_addr s, id). split; [done|]. by apply elem_of_map_to_list. }
  by rewrite (F3 (po_addr s) (or_intror Hin) id s Hs eq_refl) in Ho.
Qed.

(** What [GetConnection] gives is an open socket to the address. *)
Lemma get_connection_ok connects addr p :
  pool_ok p -> pool_ok (GetConnection connects addr p).2 /\
  forall id, (GetConnection connects addr p).1 = Some id ->
    pl_sockets (GetConnection connects addr p).2 !! id = Some (mkPoolSocket addr true true).
Proof.
  intros Hp. pose proof Hp as [H1 H2].
  assert (match pool_lock addr p with Some (_, mkPoolSocket _ true _) => True | _ => all_closed addr p end) as Hc.
  { destruct (pool_lock addr p) as [[i [a [] h]]|] eqn:El; [done|..].
    - intros id s Hs Ha. destruct (po_open s) eqn:Ho; [|done]. destruct (H1 id s Hs Ho) as [_ Hm].
      apply pool_lock_Some in El as (El&Es&_). rewrite Ha, El in Hm. by simplify_eq.
    - intros id s Hs Ha. destruct (po_open s) eqn:Ho; [|done]. destruct (H1 id s Hs Ho) as [Hh Hm]. rewrite Ha in Hm.
      assert (pool_lock addr p = Some (id, s)) by (by apply pool_lock_Some). congruence. }
  assert (all_closed addr p -> forall s, CreateConnection connects addr = Some s ->
    pool_ok (mkConnectionPool (<[addr := length (pl_sockets p)]> (pl_connections p)) (pl_sockets p ++ [s])) /\
    s = mkPoolSocket addr true true) as Hnew.
  { unfold CreateConnection. intros Hcl s Hs. destruct (split_colon 0 addr) as [[host port]|]; [|done].
    destruct (connects host port); [|done]. injection Hs as <-. split; [|done]. split; simpl.
    - intros id s Hs Ho. apply lookup_app_Some in Hs as [Hs|[Hl Hs]].
      + destruct (H1 id s Hs Ho) as [Hh Hm]. split; [done|]. rewrite lookup_insert_ne; [done|]. intros ->.
        by rewrite (Hcl id s Hs eq_refl) in Ho.
      + apply list_lookup_singleton_Some in Hs as [Hi <-]. split; [done|]. simpl. rewrite lookup_insert_eq. f_equal. lia.
    - intros a id Hi. apply lookup_insert_Some in Hi as [[<- <-]|[_ Hi]].
      + exists (mkPoolSocket addr true true). by rewrite lookup_app_r, Nat.sub_diag by lia.
      + destruct (H2 a id Hi) as (s&Hs&Ha). exists s. by rewrite (lookup_app_l_Some _ _ _ _ Hs). }
  unfold GetConnection. destruct (pool_lock addr p) as [[i [a [] h]]|] eqn:El.
  { split; [done|]. intros id [= <-]. apply pool_lock_Some in El as (Em&Es&Eh). simpl in *. subst h.
    destruct (H2 addr i Em) as (s&Hs&Ha). rewrite Es in Hs. simplify_eq/=. exact Es. }
  all: destruct (CreateConnection connects addr) as [s|]; [|done];
    destruct (Hnew Hc s eq_refl) as [Hok ->]; (split; [done|]); intros id [= <-]; simpl;
    by rewrite lookup_app_r, Nat.sub_diag by lia.
Qed.

(** However the pool is used and its sockets closed and given up: at most one
    open connection leads to a server, and the server counts as healthy exactly
    when there is one. *)
Theorem pool_one_connection events :
  let p := foldl pool_step ConnectionPool_new events in
  (forall i j s t, pl_sockets p !! i = Some s -> pl_sockets p !! j = Some t ->
     po_open s = true -> po_open t = true -> po_addr s = po_addr t -> i = j) /\
  (forall addr, IsHealthy addr p = true <-> exists i s, pl_sockets p !! i = Some s /\ po_addr s = addr /\ po_open s = true).
Proof.
  cbv zeta. set (p := foldl _ _ _). assert (pool_ok p) as [H1 H2].
  { unfold p. clear p. induction events as [|e es IH] using rev_ind; [by split|].
    rewrite foldl_app. simpl. destruct e as [connects addr|addr| |id|id]; simpl.
    - by apply get_connection_ok.
    - unfold CloseConnection. apply pool_ok_forget; [by apply close_locked_ok|by apply close_locked_closed].
    - by apply close_all_ok.
    - by apply close_socket_ok.
    - apply pool_ok_alter; [by intros []|done]. }
  clearbody p. split.
  - intros i j s t Hs Ht Ho Ho' Ha. destruct (H1 i s Hs Ho) as [_ Hi], (H1 j t Ht Ho') as [_ Hj]. congruence.
  - intros addr. unfold IsHealthy. split.
    + destruct (pool_lock addr p) as [[id s]|] eqn:El; [|done]. intros Ho. apply pool_lock_Some in El as (Em&Es&_).
      destruct (H2 addr id Em) as (t&Ht&Ha). exists id, s. split_and!; [done|congruence|done].
    + intros (i&s&Hs&<-&Ho). destruct (H1 i s Hs Ho) as [Hh Hm].
      by rewrite (proj2 (pool_lock_Some (po_addr s) p i s) (conj Hm (conj Hs Hh))).
Qed.

(** The pool itself keeps no connection: when the caller gives the socket up, the
    next call connects again. *)
Lemma pool_keeps_nothing connects addr p id :
  (GetConnection connects addr ConnectionPool_new) = (Some id, p) ->
  (GetConnection connects addr (pool_step p (PoRelease id))).1 = Some (S id).
Proof.
  unfold GetConnection at 1. assert (pool_lock addr ConnectionPool_new = None) as -> by done.
  destruct (CreateConnection connects addr) as [s|] eqn:E; [|done].
  assert (s = mkPoolSocket addr true true) as ->.
  { revert E. unfold CreateConnection. destruct (split_colon 0 addr) as [[host port]|]; [|done]. destruct (connects host port); congruence. }
  intros [= <- <-]. match goal with |- context [pool_step ?q ?e] => set (p := pool_step q e) end.
  assert (pool_lock addr p = None) as Hl.
  { unfold pool_lock. assert (pl_connections p !! addr = Some 0%nat) as -> by apply lookup_insert_eq. done. }
  unfold GetConnection. by rewrite Hl, E.
Qed.
