(* ===== verification/LogFrames.v ===== *)
(** * What the handlers do to the log and what they send

    [calm] steps leave the log alone and send no entries; [leads] steps append
    commands of the current term and send requests cut from the log; [logs] is
    what every handler but the follower's AppendEntries does: entries are
    appended and sent by a leader only.  Nodes that take no snapshot are looked
    at: [last_snapshot_index_] stays 0. *)

From S2P Require Import Prelude Types RaftLog Quorum Sessions RaftGroup Timers Replicate.
From S2P Require Import Membership Apply Election Leader Follower Snapshots NodeCore Frames Votes Campaign.
From S2P Require Import Replication.

(** ** Logs and requests *)

(** What matters of an entry. *)
Definition entry_view (e : RaftLogEntry) : Term * string := (term_ e, data_ e).
Definition log_view (l : RaftLog) : list (Term * string) := entry_view <$> entries_ l.

(** A log that was never compacted, with its indices in order. *)
Record log_ok (l : RaftLog) : Prop := mkLogOk {
  lo_start : start_index_ l = 1;
  lo_bound : 1 + log_size l <= UINT32_MAX;
  lo_index : contiguous 1 (entries_ l)
}.

Definition append_all (t : Term) (ds : list string) (l : RaftLog) : RaftLog :=
  foldl (fun l d => (Append t d l).2) l ds.

(** The AppendEntries requests among the effects. *)
Definition requests_of (tr : list Effect) : list AppendEntriesRequest :=
  omap (fun e => match e with SendRpc _ _ (AppendEntriesRpc r) _ => Some r | _ => None end) tr.

(** [r] carries consecutive entries of the log [v] and the term in front of
    them. *)
Definition cut_from (v : list (Term * string)) (r : AppendEntriesRequest) : Prop :=
  ae_entries r = [] \/
  exists n m,
    ae_prev_log_index r = Z.of_nat n /\ contiguous (Z.of_nat n + 1) (ae_entries r) /\
    entry_view <$> ae_entries r = take m (drop n v) /\ (n <= length v)%nat /\
    match n with O => True | S k => exists d, v !! k = Some (ae_prev_log_term r, d) end.

Lemma requests_of_app a b : requests_of (a ++ b) = requests_of a ++ requests_of b.
Proof. apply omap_app. Qed.

Lemma append_all_app t a b l : append_all t (a ++ b) l = append_all t b (append_all t a l).
Proof. apply foldl_app. Qed.

Lemma Append_entries t d l :
  exists i, entries_ (Append t d l).2 = entries_ l ++ [mkEntry i t d "" 0] /\
    start_index_ (Append t d l).2 = start_index_ l.
Proof. unfold Append, push_entry. by eexists. Qed.

Lemma append_all_view t ds l :
  log_view (append_all t ds l) = log_view l ++ ((fun d => (t, d)) <$> ds) /\
  start_index_ (append_all t ds l) = start_index_ l.
Proof.
  revert l. induction ds as [|d ds IH]; intros l; [by rewrite app_nil_r|].
  destruct (Append_entries t d l) as (i & He & Hs).
  change (append_all t (d :: ds) l) with (append_all t ds (Append t d l).2).
  destruct (IH (Append t d l).2) as [-> ->].
  unfold log_view at 1. rewrite He, fmap_app, <- app_assoc. by split.
Qed.

Lemma append_all_prefix t ds l : entries_ l `prefix_of` entries_ (append_all t ds l).
Proof.
  revert l. induction ds as [|d ds IH]; intros l; [done|].
  change (append_all t (d :: ds) l) with (append_all t ds (Append t d l).2).
  destruct (Append_entries t d l) as (i & He & _). etransitivity; [|apply IH].
  rewrite He. by apply prefix_app_r.
Qed.

Lemma log_ok_before t ds l : log_ok (append_all t ds l) -> log_ok l.
Proof.
  intros [Hs Hb Hi]. destruct (append_all_prefix t ds l) as [k Hk].
  destruct (append_all_view t ds l) as [_ Hst]. split; [congruence|..].
  - unfold log_size in *. rewrite Hk, length_app in Hb. lia.
  - intros j e He. apply Hi. rewrite Hk. by apply lookup_app_l_Some.
Qed.

Lemma append_all_wf t ds l :
  log_wf l -> start_index_ l + log_size (append_all t ds l) <= UINT32_MAX -> log_wf (append_all t ds l).
Proof.
  revert l. induction ds as [|d ds IH]; intros l Hl Hb; [done|].
  change (append_all t (d :: ds) l) with (append_all t ds (Append t d l).2) in *.
  destruct (append_all_prefix t ds (Append t d l).2) as [k Hk].
  destruct (Append_entries t d l) as (i & He & Hs).
  assert (next_free l < UINT32_MAX) as Hn.
  { unfold next_free, log_size in *. rewrite Hk, He, !length_app in Hb. simpl in Hb. lia. }
  apply IH; [|by rewrite Hs]. rewrite Append_run by done. by apply push_entry_wf.
Qed.

Lemma cut_from_app v v' r : cut_from v r -> cut_from (v ++ v') r.
Proof.
  intros [?|(n & m & Hp & Hc & He & Hn & Ht)]; [by left|]. right.
  exists n, (length (ae_entries r)). split_and!; [done|done| | |].
  - assert (length (ae_entries r) <= length (drop n v))%nat as Hl.
    { rewrite <- (length_fmap entry_view), He, length_take. lia. }
    rewrite drop_app_le, take_app_le by lia. rewrite He at 1.
    rewrite <- (length_fmap entry_view), He, length_take.
    destruct (decide (m <= length (drop n v))%nat); [by rewrite Nat.min_l|].
    rewrite Nat.min_r, !take_ge by lia. done.
  - rewrite length_app. lia.
  - destruct n as [|k]; [done|]. destruct Ht as [d Hd]. exists d. by apply lookup_app_l_Some.
Qed.

(** ** Three kinds of steps *)

Definition snap (w : Node) : Index := last_snapshot_index_ (group_ w).
Definition empty_requests (rs : list AppendEntriesRequest) : Prop := Forall (fun r => ae_entries r = []) rs.

Definition calm (w w' : Node) : Prop :=
  server_id_ (group_ w') = server_id_ (group_ w) /\ role_ (group_ w') = role_ (group_ w) /\
  current_term_ (group_ w') = current_term_ (group_ w) /\ snap w' = snap w /\
  log_ (group_ w') = log_ (group_ w) /\
  exists rs, requests_of (trace_ w') = requests_of (trace_ w) ++ rs /\ empty_requests rs.

(** A request of the leader [w], whose log is now [l]. *)
Definition sent_by (w : Node) (l : RaftLog) (r : AppendEntriesRequest) : Prop :=
  ae_entries r = [] \/
  (ae_term r = current_term_ (group_ w) /\ ae_leader_id r = server_id_ (group_ w) /\ cut_from (log_view l) r).

Definition leads (w w' : Node) : Prop :=
  server_id_ (group_ w') = server_id_ (group_ w) /\ role_ (group_ w') = role_ (group_ w) /\
  current_term_ (group_ w') = current_term_ (group_ w) /\ snap w <= snap w' /\
  exists rs, requests_of (trace_ w') = requests_of (trace_ w) ++ rs /\
    (0 <= snap w -> snap w' = 0 ->
     exists ds, log_ (group_ w') = append_all (current_term_ (group_ w)) ds (log_ (group_ w)) /\
       (log_ok (log_ (group_ w')) -> Forall (sent_by w (log_ (group_ w'))) rs)).

Definition logs (w w' : Node) : Prop :=
  server_id_ (group_ w') = server_id_ (group_ w) /\
  (role_ (group_ w') = LEADER ->
     role_ (group_ w) = LEADER /\ current_term_ (group_ w') = current_term_ (group_ w)) /\
  snap w <= snap w' /\
  exists rs, requests_of (trace_ w') = requests_of (trace_ w) ++ rs /\
    (0 <= snap w -> snap w' = 0 ->
     exists ds, log_ (group_ w') = append_all (current_term_ (group_ w)) ds (log_ (group_ w)) /\
       (log_ok (log_ (group_ w')) -> Forall (sent_by w (log_ (group_ w'))) rs) /\
       (role_ (group_ w) <> LEADER -> ds = [] /\ empty_requests rs)).

#[global] Instance calm_preorder : PreOrder calm.
Proof.
  split.
  - intros w. split_and!; try done. exists []. split; [by rewrite app_nil_r|constructor].
  - intros w1 w2 w3 (?&?&?&?&?&rs&E&H) (?&?&?&?&?&rs'&E'&H'). split_and!; try congruence.
    exists (rs ++ rs'). split; [by rewrite E', E, app_assoc|]. by apply Forall_app_2.
Qed.

Lemma sent_by_mono w w1 l l' r :
  server_id_ (group_ w1) = server_id_ (group_ w) -> current_term_ (group_ w1) = current_term_ (group_ w) ->
  log_view l `prefix_of` log_view l' -> sent_by w1 l r -> sent_by w l' r.
Proof.
  intros Hi Ht [k Hk] [?|(?&?&?)]; [by left|]. right. split_and!; [congruence..|].
  rewrite Hk. by apply cut_from_app.
Qed.

Lemma append_all_view_prefix t ds l : log_view l `prefix_of` log_view (append_all t ds l).
Proof. destruct (append_all_view t ds l) as [-> _]. by apply prefix_app_r. Qed.

Lemma empty_sent_by w l rs : empty_requests rs -> Forall (sent_by w l) rs.
Proof. intros H. eapply list.Forall_impl; [exact H|]. intros r Hr. by left. Qed.

#[global] Instance leads_preorder : PreOrder leads.
Proof.
  split.
  - intros w. split_and!; try done. exists []. split; [by rewrite app_nil_r|]. intros _ _. exists [].
    by split.
  - intros w1 w2 w3 (Hi&Hr&Ht&Hs&rs&E&H) (Hi'&Hr'&Ht'&Hs'&rs'&E'&H'). split_and!; [congruence..|lia|].
    exists (rs ++ rs'). split; [by rewrite E', E, app_assoc|]. intros H0 H3.
    destruct (H H0 ltac:(lia)) as (ds & El & Hok). destruct (H' ltac:(lia) H3) as (ds' & El' & Hok').
    rewrite Ht in El'. exists (ds ++ ds'). rewrite append_all_app, <- El. split; [done|].
    intros Hl. apply Forall_app_2.
    + eapply list.Forall_impl; [apply Hok; rewrite El' in Hl; by eapply log_ok_before|].
      intros r Hsent. apply (sent_by_mono w1 w1 (log_ (group_ w2))); [done|done| |done].
      rewrite El'. apply append_all_view_prefix.
    + eapply list.Forall_impl; [by apply Hok'|]. intros r Hsent.
      by apply (sent_by_mono w1 w2 (log_ (group_ w3))).
Qed.

#[global] Instance logs_preorder : PreOrder logs.
Proof.
  split.
  - intros w. split_and!; try done. exists []. split; [by rewrite app_nil_r|]. intros _ _. exists [].
    split; [done|]. split; [by constructor|]. intros _. by split; [|constructor].
  - intros w1 w2 w3 (Hi&Ho&Hs&rs&E&H) (Hi'&Ho'&Hs'&rs'&E'&H'). split_and!; [congruence| |lia|].
    { intros [Hr Ht]%Ho'. apply Ho in Hr as [??]. split; congruence. }
    exists (rs ++ rs'). split; [by rewrite E', E, app_assoc|]. intros H0 H3.
    destruct (H H0 ltac:(lia)) as (ds & El & Hok & Hn). destruct (H' ltac:(lia) H3) as (ds' & El' & Hok' & Hn').
    destruct (decide (role_ (group_ w2) = LEADER)) as [Hl|Hl].
    + destruct (Ho Hl) as [Hl1 Ht]. rewrite Ht in El'. exists (ds ++ ds'). rewrite append_all_app, <- El.
      split; [done|]. split; [|done]. intros Hlog. apply Forall_app_2.
      * eapply list.Forall_impl; [apply Hok; rewrite El' in Hlog; by eapply log_ok_before|].
        intros r Hsent. apply (sent_by_mono w1 w1 (log_ (group_ w2))); [done|done| |done].
      rewrite El'. apply append_all_view_prefix.
      * eapply list.Forall_impl; [by apply Hok'|]. intros r Hsent.
      by apply (sent_by_mono w1 w2 (log_ (group_ w3))).
    + destruct (Hn' Hl) as [-> He]. simpl in El'. exists ds. rewrite El'. split; [done|]. split.
      * intros Hlog. apply Forall_app_2; [by apply Hok|]. by apply empty_sent_by.
      * intros Hf. destruct (Hn Hf). split; [done|]. by apply Forall_app_2.
Qed.

Lemma calm_leads w w' : calm w w' -> leads w w'.
Proof.
  intros (Hi&Hr&Ht&Hs&El&rs&E&H). split_and!; try done; [lia|]. exists rs. split; [done|].
  intros _ _. exists []. split; [done|]. intros _. by apply empty_sent_by.
Qed.

Lemma calm_logs w w' : calm w w' -> logs w w'.
Proof.
  intros (Hi&Hr&Ht&Hs&El&rs&E&H). split_and!; [done|by rewrite Hr|lia|]. exists rs. split; [done|].
  intros _ _. exists []. split; [done|]. split; [|done]. intros _. by apply empty_sent_by.
Qed.

Lemma leads_logs w w' : role_ (group_ w) = LEADER -> leads w w' -> logs w w'.
Proof.
  intros Hl (Hi&Hr&Ht&Hs&rs&E&H). split_and!; [done|by rewrite Ht|lia|]. exists rs. split; [done|].
  intros H0 H1. destruct (H H0 H1) as (ds & El & Hok). exists ds. split_and!; [done|done|congruence].
Qed.

Lemma keeps_calm_leads {A} (m : M A) : keeps calm m -> keeps leads m.
Proof. apply keeps_mono, calm_leads. Qed.
Lemma keeps_calm_logs {A} (m : M A) : keeps calm m -> keeps logs m.
Proof. apply keeps_mono, calm_logs. Qed.
#[export] Hint Resolve keeps_calm_leads keeps_calm_logs | 4 : keeps.

(** ** The helpers *)

Ltac calm_leaf :=
  apply keeps_modify; intros ?; unfold calm, snap; split_and!; try reflexivity;
  eexists []; (split; [|by constructor]); proj_simp; rewrite ?requests_of_app, app_nil_r; simpl;
  rewrite ?app_nil_r; reflexivity.
#[export] Hint Extern 1 (keeps calm (modify _)) => calm_leaf : keeps.
#[export] Hint Extern 1 (keeps calm (putg _)) => calm_leaf : keeps.
#[export] Hint Extern 1 (keeps calm (emit _)) => calm_leaf : keeps.
#[export] Hint Extern 1 (keeps calm (getg _)) => eapply keeps_gets; apply _ : keeps.
#[export] Hint Extern 1 (keeps leads (modify _)) => apply keeps_calm_leads; calm_leaf : keeps.
#[export] Hint Extern 1 (keeps leads (putg _)) => apply keeps_calm_leads; calm_leaf : keeps.
#[export] Hint Extern 1 (keeps leads (emit _)) => apply keeps_calm_leads; calm_leaf : keeps.
#[export] Hint Extern 1 (keeps leads (getg _)) => eapply keeps_gets; apply _ : keeps.
#[export] Hint Extern 1 (keeps logs (modify _)) => apply keeps_calm_logs; calm_leaf : keeps.
#[export] Hint Extern 1 (keeps logs (putg _)) => apply keeps_calm_logs; calm_leaf : keeps.
#[export] Hint Extern 1 (keeps logs (emit _)) => apply keeps_calm_logs; calm_leaf : keeps.
#[export] Hint Extern 1 (keeps logs (getg _)) => eapply keeps_gets; apply _ : keeps.

Tactic Notation "calm" reference(f) := unfold f; keeps_solve.

Section calm.
Context `{!Env}.

Lemma calm_IsRunning : keeps calm IsRunning.
Proof. apply keeps_gets. apply _. Qed.
Lemma calm_CancelElectionTimer : keeps calm CancelElectionTimerLocked.
Proof. calm CancelElectionTimerLocked. Qed.
Hint Resolve calm_IsRunning calm_CancelElectionTimer : keeps.
Lemma calm_ResetElectionTimer : keeps calm ResetElectionTimerLocked.
Proof. calm ResetElectionTimerLocked. Qed.
Lemma calm_StartHeartbeatTimer n : keeps calm (StartHeartbeatTimerLocked n).
Proof. calm StartHeartbeatTimerLocked. Qed.
Lemma calm_StopHeartbeatTimer : keeps calm StopHeartbeatTimerLocked.
Proof. calm StopHeartbeatTimerLocked. Qed.
Lemma calm_StartSnapshotCheckTimer : keeps calm StartSnapshotCheckTimerLocked.
Proof. calm StartSnapshotCheckTimerLocked. Qed.
Lemma calm_StopSnapshotCheckTimer : keeps calm StopSnapshotCheckTimerLocked.
Proof. calm StopSnapshotCheckTimerLocked. Qed.
Lemma calm_next_index_at p : keeps calm (next_index_at p).
Proof. calm next_index_at. Qed.
Lemma calm_match_index_at p : keeps calm (match_index_at p).
Proof. calm match_index_at. Qed.
Lemma calm_set_next_index p i : keeps calm (set_next_index p i).
Proof. calm set_next_index. Qed.
Lemma calm_set_match_index p i : keeps calm (set_match_index p i).
Proof. calm set_match_index. Qed.
Lemma calm_GetLogTermLocked i : keeps calm (GetLogTermLocked i).
Proof. calm GetLogTermLocked. Qed.
Lemma calm_set_send p s : keeps calm (set_send p s).
Proof. calm set_send. Qed.
Hint Resolve calm_ResetElectionTimer calm_StartHeartbeatTimer calm_StopHeartbeatTimer
  calm_StartSnapshotCheckTimer calm_StopSnapshotCheckTimer calm_next_index_at calm_match_index_at
  calm_set_next_index calm_set_match_index calm_GetLogTermLocked calm_set_send : keeps.

Lemma calm_SendNextSnapshotChunk p : keeps calm (SendNextSnapshotChunkLocked p).
Proof. calm SendNextSnapshotChunkLocked. Qed.
Hint Resolve calm_SendNextSnapshotChunk : keeps.
Lemma calm_SendInstallSnapshotToPeer p : keeps calm (SendInstallSnapshotToPeerLocked p).
Proof. calm SendInstallSnapshotToPeerLocked. Qed.
Lemma calm_ScheduleRetryLocked p : keeps calm (ScheduleAppendEntriesRetryLocked p).
Proof. calm ScheduleAppendEntriesRetryLocked. Qed.
Hint Resolve calm_SendInstallSnapshotToPeer calm_ScheduleRetryLocked : keeps.
Lemma calm_ScheduleRetry p b : keeps calm (ScheduleAppendEntriesRetry p b).
Proof. calm ScheduleAppendEntriesRetry. Qed.

Lemma calm_SaveState s : keeps calm (SaveStateM s).
Proof. calm SaveStateM. Qed.
Hint Resolve calm_SaveState : keeps.
Lemma calm_PersistClusterConfig : keeps calm PersistClusterConfigLocked.
Proof. calm PersistClusterConfigLocked. Qed.
Lemma calm_persist_or_abort : keeps calm persist_or_abort.
Proof. calm persist_or_abort. Qed.
Lemma calm_upd_config f : keeps calm (upd_config f).
Proof. calm upd_config. Qed.
Lemma calm_learn_peer i a : keeps calm (learn_peer i a).
Proof. calm learn_peer. Qed.
Lemma calm_push_task t : keeps calm (push_task t).
Proof. calm push_task. Qed.
Lemma calm_complete_read i : keeps calm (complete_read i).
Proof. calm complete_read. Qed.
Hint Resolve calm_PersistClusterConfig calm_persist_or_abort calm_upd_config calm_learn_peer calm_push_task
  calm_complete_read : keeps.
Lemma calm_ProcessPendingReads : keeps calm ProcessPendingReadsLocked.
Proof. calm ProcessPendingReadsLocked. Qed.
Hint Resolve calm_ProcessPendingReads : keeps.
Lemma calm_OnReadIndexResponse p i r : keeps calm (OnReadIndexResponse p i r).
Proof. unfold OnReadIndexResponse, HandleReadIndexAckLocked. keeps_solve. Qed.

(** The heartbeats of a read carry no entries. *)
Lemma calm_send_read_heartbeat i p : keeps calm (send_read_heartbeat i p).
Proof.
  unfold send_read_heartbeat. keeps_step; [keeps_solve|]. keeps_step; [keeps_solve|]. cbv zeta.
  keeps_step; [keeps_solve|]. keeps_step; [|keeps_solve].
  apply keeps_modify. intros w. unfold calm, snap. split_and!; try reflexivity.
  eexists. split; [proj_simp; rewrite requests_of_app; reflexivity|]. simpl. by repeat constructor.
Qed.
Hint Resolve calm_OnReadIndexResponse calm_send_read_heartbeat : keeps.
Lemma calm_BroadcastReadIndex i : keeps calm (BroadcastReadIndexHeartbeatsLocked i).
Proof. calm BroadcastReadIndexHeartbeatsLocked. Qed.
Lemma calm_call_proposal cb r : keeps calm (call_proposal cb r).
Proof. calm call_proposal. Qed.
Hint Resolve calm_BroadcastReadIndex calm_call_proposal : keeps.
Lemma calm_apply_task i t : keeps calm (apply_task i t).
Proof. calm apply_task. Qed.
Hint Resolve calm_apply_task : keeps.
Lemma calm_apply_tasks i ts : keeps calm (apply_tasks i ts).
Proof. revert i. induction ts; intros i; simpl; keeps_solve. Qed.
Hint Resolve calm_apply_tasks : keeps.
Lemma calm_ApplyLoop : keeps calm ApplyLoop.
Proof. calm ApplyLoop. Qed.

Lemma calm_ExitQuiesced : keeps calm ExitQuiescedLocked.
Proof. calm ExitQuiescedLocked. Qed.
Hint Resolve calm_ExitQuiesced : keeps.
Lemma calm_EnterQuiesced : keeps calm EnterQuiescedLocked.
Proof. calm EnterQuiescedLocked. Qed.
Lemma calm_ShouldEnterQuiesced : keeps calm ShouldEnterQuiescedLocked.
Proof. calm ShouldEnterQuiescedLocked. Qed.
Lemma calm_RecordActivity : keeps calm RecordActivityLocked.
Proof. calm RecordActivityLocked. Qed.
Lemma calm_publish_role r : keeps calm (publish_role r).
Proof. calm publish_role. Qed.
Lemma calm_call_role r : keeps calm (call_role r).
Proof. calm call_role. Qed.
Lemma calm_init_peer i p : keeps calm (init_peer i p).
Proof. calm init_peer. Qed.
Lemma calm_ElectionQuorum V : keeps calm (ElectionQuorumSatisfiedLocked V).
Proof. calm ElectionQuorumSatisfiedLocked. Qed.
Lemma calm_BroadcastRequestVote : keeps calm BroadcastRequestVoteLocked.
Proof. unfold BroadcastRequestVoteLocked, SendRequestVoteToPeerLocked. keeps_solve. Qed.
Lemma calm_BroadcastPreVote : keeps calm BroadcastPreVoteLocked.
Proof. unfold BroadcastPreVoteLocked, SendPreVoteToPeerLocked. keeps_solve. Qed.
Lemma calm_learn_leader i : keeps calm (learn_leader i).
Proof. calm learn_leader. Qed.
Lemma calm_OnPreVoteTimeout : keeps calm OnPreVoteTimeout.
Proof. calm OnPreVoteTimeout. Qed.
Lemma calm_not_leader : keeps calm not_leader.
Proof. calm not_leader. Qed.
Lemma calm_add_read i cb a h : keeps calm (add_read i cb a h).
Proof. calm add_read. Qed.
Lemma calm_flush_to i : keeps calm (flush_to i).
Proof. calm flush_to. Qed.
Hint Resolve calm_flush_to : keeps.
Lemma calm_persist_sync i : keeps calm (persist_sync i).
Proof. calm persist_sync. Qed.
Lemma calm_persist_async i : keeps calm (persist_async i).
Proof. calm persist_async. Qed.

End calm.
#[export] Hint Resolve calm_IsRunning calm_CancelElectionTimer calm_ResetElectionTimer calm_StartHeartbeatTimer
  calm_StopHeartbeatTimer calm_StartSnapshotCheckTimer calm_StopSnapshotCheckTimer calm_next_index_at
  calm_match_index_at calm_set_next_index calm_set_match_index calm_GetLogTermLocked calm_set_send
  calm_SendNextSnapshotChunk calm_SendInstallSnapshotToPeer calm_ScheduleRetryLocked calm_ScheduleRetry
  calm_SaveState calm_PersistClusterConfig calm_persist_or_abort calm_upd_config calm_learn_peer calm_push_task
  calm_complete_read calm_ProcessPendingReads calm_OnReadIndexResponse calm_BroadcastReadIndex calm_call_proposal
  calm_apply_tasks calm_ApplyLoop calm_ExitQuiesced calm_EnterQuiesced calm_ShouldEnterQuiesced calm_RecordActivity
  calm_publish_role calm_call_role calm_init_peer calm_ElectionQuorum calm_BroadcastRequestVote
  calm_BroadcastPreVote calm_learn_leader calm_OnPreVoteTimeout calm_not_leader calm_add_read calm_flush_to
  calm_persist_sync calm_persist_async : keeps.

(** ** Sending and appending *)

(** The log with an exact byte count: reads do not see the count. *)
Definition exact_bytes (l : RaftLog) : RaftLog :=
  mkRaftLog (entries_ l) (start_index_ l) (u64 (total_bytes (entries_ l))).

Lemma exact_bytes_wf l : log_ok l -> log_wf (exact_bytes l).
Proof.
  intros [Hs Hb Hi]. split; simpl; [lia|rewrite Hs; exact Hb| |done].
  intros k e He. rewrite Hs. by apply Hi.
Qed.

(** What [SendAppendEntriesToPeerLocked] puts into a request is cut from the log. *)
Lemma slice_cut (g : RaftGroup) (n stop : Z) (t : Term) (i : NodeId) (c : Index) :
  log_ok (log_ g) -> last_snapshot_index_ g = 0 -> 1 <= n <= (GetLastLogInfo (log_ g)).1 ->
  cut_from (log_view (log_ g))
    (mkAppendEntriesRequest t i (u32 (n - 1)) (log_term g (u32 (n - 1))) (GetEntries (log_ g) n stop) c).
Proof.
  intros Hok Hsnap Hn. set (l := exact_bytes (log_ g)). assert (log_wf l) as W by by apply exact_bytes_wf.
  assert (start_index_ l = 1) as Hs by apply Hok.
  assert (next_free l <= UINT32_MAX /\ n < next_free l) as [Hb Hlt].
  { pose proof (wf_bound _ W). split; [done|]. change (GetLastLogInfo (log_ g)) with (GetLastLogInfo l) in Hn.
    destruct (GetLastLogInfo_cases l W) as [[_ E]|(e & _ & E & _)]; rewrite E in Hn; simpl in Hn; lia. }
  unfold next_free in Hlt, Hb. rewrite Hs in Hlt, Hb. unfold log_size, UINT32_MAX in *.
  change (entries_ l) with (entries_ (log_ g)) in *. rewrite u32_small by (unfold UINT32_MAX; lia).
  right. exists (Z.to_nat (n - 1)), (Z.to_nat (Z.min stop (next_free l) - n)). simpl.
  change (GetEntries (log_ g) n stop) with (GetEntries l n stop).
  split_and!; [lia| | | |].
  - replace (Z.of_nat _ + 1) with n by lia. apply GetEntries_contiguous; [done|lia].
  - rewrite GetEntries_wf by (done || lia). rewrite fmap_take, fmap_drop, Hs, Z.max_l by lia. done.
  - unfold log_view. rewrite length_fmap. lia.
  - destruct (Z.to_nat (n - 1)) as [|k] eqn:Ek; [done|].
    destruct (lookup_lt_is_Some_2 (entries_ (log_ g)) k) as [e He]; [lia|]. exists (data_ e).
    unfold log_view. rewrite list_lookup_fmap, He. simpl. unfold entry_view. do 2 f_equal.
    unfold log_term. rewrite !decide_False by lia. change (GetLogTerm (log_ g)) with (GetLogTerm l).
    rewrite GetLogTerm_at by done. unfold log_at. rewrite Hs, decide_True by lia.
    replace (Z.to_nat (n - 1 - 1)) with k by lia. change (entries_ l) with (entries_ (log_ g)). by rewrite He.
Qed.

Section sending.
Context `{!Env}.

Lemma leads_SendAppendEntries p : keeps leads (SendAppendEntriesToPeerLocked p).
Proof.
  intros w. unfold SendAppendEntriesToPeerLocked. rewrite run_bind, run_getg.
  destruct (next_index_ (group_ w) !! p) as [n|]; [|done]. rewrite run_bind, run_getg.
  destruct (decide _) as [|Hn]; [apply calm_leads, calm_SendInstallSnapshotToPeer|].
  unfold GetLogTermLocked. do 6 rewrite run_bind, run_getg. cbv zeta.
  set (es := if decide (n <= _) then _ else []). set (req := mkAppendEntriesRequest _ _ _ _ es _).
  rewrite run_bind, run_getg. destruct (_ && _); [done|]. destruct (negb _); [done|].
  rewrite run_bind, run_getg. destruct (peer_map_ _ !! p) as [addr|]; [|done].
  match goal with |- leads _ (final ((?m ≫= ?k) _)) => assert (keeps calm m) as Hm by keeps_solve end.
  specialize (Hm w). rewrite run_bind. destruct (bool_decide (es = [])) eqn:He.
  all: match goal with |- leads _ (final (match ?x with _ => _ end)) => destruct x as [a w1|w1] eqn:E end;
    [|by apply calm_leads]; simpl in Hm; rewrite run_emit; clear E;
    destruct Hm as (Hi&Hr&Ht&Hs&El&rs&Er&Hrs);
    (split_and!; [done|done|done|change (snap w <= snap w1); lia|]); exists (rs ++ [req]);
    (split; [simpl; proj_simp; rewrite requests_of_app, Er, <- app_assoc; done|]); intros H0 Hz; exists [];
    (split; [exact El|]); intros Hok; (apply Forall_app_2; [by apply empty_sent_by|]);
    (constructor; [|done]).
  - left. by apply bool_decide_eq_true in He.
  - right. split; [done|]. split; [done|]. change (log_ok (log_ (group_ w1))) in Hok. rewrite El in Hok.
    change (cut_from (log_view (log_ (group_ w1))) req). rewrite El. apply bool_decide_eq_false in He.
    unfold req, es in *. case_decide as Hle; [|done]. apply slice_cut; [done|change (snap w = 0); change (snap w1 = 0) in Hz; lia|].
    split; [|done]. unfold GetFirstIndex in Hn. destruct Hok as [Hst _ _]. lia.
Qed.
Hint Resolve leads_SendAppendEntries : keeps.

Lemma leads_broadcast_loop n p : keeps leads (broadcast_loop n p).
Proof. induction n; simpl; keeps_solve. Qed.
Hint Resolve leads_broadcast_loop : keeps.

Lemma leads_BroadcastAppendEntries : keeps leads BroadcastAppendEntriesLocked.
Proof. calm BroadcastAppendEntriesLocked. Qed.

(** Appending one command. *)
Lemma leads_append_command d : keeps leads (append_command d).
Proof.
  intros w. unfold append_command. rewrite run_bind, run_getg, run_bind, run_getg.
  destruct (Append _ d _) as [i l] eqn:E. rewrite run_bind, run_putg, run_ret. simpl.
  split_and!; [done..|]. exists []. split; [by rewrite app_nil_r|]. intros _ _. exists [d].
  split; [|by constructor]. proj_simp. unfold append_all. cbn [foldl]. by rewrite E.
Qed.

Lemma leads_append_and_persist d : keeps leads (append_and_persist d).
Proof.
  intros w. pose proof (leads_append_command d w) as Hap. unfold append_and_persist.
  unfold append_command in Hap. revert Hap.
  do 2 (rewrite !run_bind, !run_getg). destruct (Append _ d _) as [i l].
  rewrite !run_bind, !run_putg, !run_ret. intros Hap. cbn [final] in Hap. etransitivity; [exact Hap|].
  match goal with |- leads ?x (final (?m ?x)) => enough (keeps leads m) as Hm by apply Hm end. keeps_solve.
Qed.
Hint Resolve leads_append_command : keeps.

Lemma leads_append_batch ds : keeps leads (append_batch ds).
Proof. induction ds; simpl; keeps_solve. Qed.

End sending.
#[export] Hint Resolve leads_SendAppendEntries leads_BroadcastAppendEntries leads_append_command
  leads_append_and_persist leads_append_batch : keeps.

(** ** Committing and applying *)

(** What only a leader does. *)
Lemma logs_leader_only (m : M unit) :
  keeps leads m -> keeps logs (role ← getg role_; if decide (role = LEADER) then m else mret tt).
Proof.
  intros Hm w. rewrite run_bind, run_getg. destruct (decide _) as [Hl|]; [|done].
  apply leads_logs; [done|apply Hm].
Qed.

Section committing.
Context `{!Env}.

Lemma leads_ApplyConfigChange cmd : keeps leads (ApplyConfigChangeLocked cmd).
Proof.
  unfold ApplyConfigChangeLocked, apply_joint, apply_finalize, apply_add_learner, apply_promote,
    apply_add, apply_remove. keeps_solve.
Qed.

Lemma logs_ApplyConfigChange cmd : keeps logs (ApplyConfigChangeLocked cmd).
Proof.
  assert (keeps leads (c ← getg cluster_config_;
    append_and_persist (PREFIX_FINALIZE +:+ env_json_dump (nodes c)) ;; BroadcastAppendEntriesLocked)) as Hj
    by keeps_solve.
  unfold ApplyConfigChangeLocked, apply_joint, apply_finalize, apply_add_learner, apply_promote,
    apply_add, apply_remove.
  repeat (cbv beta zeta; first [ apply logs_leader_only, Hj | keeps_step | solve [eauto with keeps] ]).
Qed.
Hint Resolve leads_ApplyConfigChange logs_ApplyConfigChange : keeps.

Lemma leads_ApplyCommitted : keeps leads ApplyCommittedLocked.
Proof.
  assert (forall n, keeps leads (apply_committed_loop n)) as Hl.
  { induction n; simpl; unfold apply_one, complete_config_proposal; keeps_solve. }
  unfold ApplyCommittedLocked. keeps_solve.
Qed.

Lemma logs_ApplyCommitted : keeps logs ApplyCommittedLocked.
Proof.
  assert (forall n, keeps logs (apply_committed_loop n)) as Hl.
  { induction n; simpl; unfold apply_one, complete_config_proposal; keeps_solve. }
  unfold ApplyCommittedLocked. keeps_solve.
Qed.
Hint Resolve leads_ApplyCommitted logs_ApplyCommitted : keeps.

Lemma logs_follow_commit i : keeps logs (follow_commit i).
Proof. calm follow_commit. Qed.

Lemma leads_TryCommit : keeps leads TryCommitLocked.
Proof.
  assert (forall n i, keeps leads (try_commit_loop n i)) as Hl.
  { induction n; intros i; simpl; keeps_solve. }
  unfold TryCommitLocked. keeps_solve.
Qed.

End committing.
#[export] Hint Resolve leads_ApplyConfigChange logs_ApplyConfigChange leads_ApplyCommitted logs_ApplyCommitted
  logs_follow_commit leads_TryCommit : keeps.

(** ** Stepping down *)

Section stepping.
Context `{!Env}.

Lemma logs_enter_follower t : keeps logs (enter_follower t).
Proof.
  intros w. unfold enter_follower, getg, putg. run. proj_simp.
  case_bool_decide; simpl; run; (split_and!; [done|intros [=]|unfold snap; simpl; proj_simp; lia|]); exists [];
    rewrite app_nil_r; (split; [done|]); intros _ _; exists []; (split; [done|]); (split; [by constructor|]); intros _;
    by split; [|constructor].
Qed.
Hint Resolve logs_enter_follower : keeps.

Lemma logs_BecomeFollower t p : keeps logs (BecomeFollowerLockedImpl t p).
Proof. calm BecomeFollowerLockedImpl. Qed.

Lemma logs_BecomeFollowerLocked t : keeps logs (BecomeFollowerLocked t).
Proof. apply logs_BecomeFollower. Qed.
Lemma logs_BecomeFollowerWithReplication t : keeps logs (BecomeFollowerWithReplicationLocked t).
Proof. apply logs_BecomeFollower. Qed.
Lemma logs_BecomeFollowerAfterDiskFailure t : keeps logs (BecomeFollowerAfterDiskFailureLocked t).
Proof. apply logs_BecomeFollower. Qed.

End stepping.
#[export] Hint Resolve logs_BecomeFollower logs_BecomeFollowerLocked logs_BecomeFollowerWithReplication
  logs_BecomeFollowerAfterDiskFailure : keeps.
