(* ===== verification/LogEvents.v ===== *)
(** * The log under every handler

    Every handler that cannot win an election is a [logs] step, the follower's
    AppendEntries with entries apart. *)

From S2P Require Import Prelude Types RaftLog Quorum Sessions RaftGroup Timers Replicate.
From S2P Require Import Membership Apply Election Leader Follower Snapshots NodeCore Frames Votes Campaign.
From S2P Require Import Replication LogFrames.

(** Step through the reads and branches of a handler at a given state; a branch
    is [logs], or [leads] where a guard has shown the role. *)
Ltac leader_known :=
  match goal with
  | H : ?r = LEADER |- ?r = LEADER => exact H
  | H : ~ (?r <> LEADER) |- ?r = LEADER => exact (dec_stable H)
  end.
Ltac by_logs :=
  match goal with
  | |- logs ?w (final (?m ?w)) =>
      let Hm := fresh in
      first
        [ apply leads_logs; [leader_known|]; enough (keeps leads m) as Hm by apply Hm; solve [keeps_solve]
        | enough (keeps logs m) as Hm by apply Hm; solve [keeps_solve] ]
  end.
Ltac logs_step :=
  match goal with
  | |- logs ?w (final ((getg _ ≫= _) ?w)) =>
      eapply final_bind; [apply _|reflexivity|intros ? ? [= <- <-]; unfold id]
  | |- logs ?w (final ((gets _ ≫= _) ?w)) =>
      eapply final_bind; [apply _|reflexivity|intros ? ? [= <- <-]; unfold id]
  | |- logs ?w (final ((IsRunning ≫= _) ?w)) =>
      eapply final_bind; [apply _|reflexivity|intros ? ? [= <- <-]]
  | |- logs ?w (final (mret _ ?w)) => reflexivity
  | |- logs ?w (final (BecomeFollowerLocked _ ?w)) => apply logs_BecomeFollowerLocked
  | |- logs ?w (final (when (bool_decide _) _ ?w)) => case_bool_decide; simpl when
  | |- logs ?w (final (when ?b _ ?w)) => destruct b; simpl when
  | |- logs ?w (final ((if negb ?a || negb (bool_decide ?P) then _ else _) ?w)) =>
      destruct a; cbn [negb orb]; [case_bool_decide; cbn [negb]|]
  | |- logs ?w (final ((if ?b then _ else _) ?w)) => destruct b
  end; cbv beta zeta.
(** Past a step that is [logs] itself. *)
Ltac logs_past := eapply final_bind; [apply _|by_logs|intros ? ? _]; cbv beta zeta.
Ltac logs := cbv zeta; repeat logs_step; by_logs.

Section leader.
Context `{!Env}.

Lemma leads_record_ack p : keeps leads (record_ack p).
Proof. calm record_ack. Qed.
Lemma leads_update_lease : keeps leads update_lease.
Proof. calm update_lease. Qed.
Lemma leads_ack_pending_reads p : keeps leads (ack_pending_reads p).
Proof. calm ack_pending_reads. Qed.
Lemma leads_back_off p : keeps leads (back_off p).
Proof. calm back_off. Qed.
Hint Resolve leads_record_ack leads_update_lease leads_ack_pending_reads leads_back_off : keeps.
Lemma leads_on_append_success p r h : keeps leads (on_append_success p r h).
Proof. calm on_append_success. Qed.
Lemma leads_on_append_failure p r h : keeps leads (on_append_failure p r h).
Proof. calm on_append_failure. Qed.
Lemma leads_on_heartbeat_failure p r : keeps leads (on_heartbeat_failure p r).
Proof. calm on_heartbeat_failure. Qed.
Hint Resolve leads_on_append_success leads_on_append_failure leads_on_heartbeat_failure : keeps.

Lemma logs_HandleAppendEntriesResponse p r : keeps logs (HandleAppendEntriesResponse p r).
Proof. intros w. unfold HandleAppendEntriesResponse. logs. Qed.
Lemma logs_HandleHeartbeatResponse p r : keeps logs (HandleHeartbeatResponse p r).
Proof. intros w. unfold HandleHeartbeatResponse. logs. Qed.
Lemma logs_OnRetryAppendEntries p : keeps logs (OnRetryAppendEntries p).
Proof. intros w. unfold OnRetryAppendEntries. logs. Qed.
Lemma logs_CheckQuorum : keeps logs CheckQuorumLocked.
Proof. unfold CheckQuorumLocked. keeps_solve. Qed.
Hint Resolve logs_CheckQuorum : keeps.
Lemma logs_OnHeartbeatTimeout : keeps logs OnHeartbeatTimeoutLocked.
Proof.
  intros w. unfold OnHeartbeatTimeoutLocked. do 2 logs_step. do 2 (logs_step; [done|]). do 2 logs_past.
  do 2 logs_step. logs_step; [done|]. logs_step. logs_past. logs_step. logs_step; [done|].
  unfold MaybeAutoPromoteLearnersLocked, MaybeRemoveDeadNodesLocked. by_logs.
Qed.
Hint Resolve logs_OnHeartbeatTimeout : keeps.
Lemma logs_CheckHeartbeatTimeout : keeps logs CheckHeartbeatTimeoutLocked.
Proof. unfold CheckHeartbeatTimeoutLocked. keeps_solve. Qed.

End leader.

#[export] Hint Resolve logs_HandleAppendEntriesResponse logs_HandleHeartbeatResponse logs_OnRetryAppendEntries
  logs_CheckHeartbeatTimeout : keeps.

(** ** Snapshots *)

(** A compaction moves the snapshot index up. *)
Lemma leads_compact w w1 :
  server_id_ (group_ w1) = server_id_ (group_ w) -> role_ (group_ w1) = role_ (group_ w) ->
  current_term_ (group_ w1) = current_term_ (group_ w) -> snap w < snap w1 ->
  requests_of (trace_ w1) = requests_of (trace_ w) -> leads w w1.
Proof. intros ???? E. split_and!; [done..|lia|]. exists []. rewrite E, app_nil_r. split; [done|]. lia. Qed.

Lemma logs_compact w w1 :
  server_id_ (group_ w1) = server_id_ (group_ w) -> role_ (group_ w1) = role_ (group_ w) ->
  current_term_ (group_ w1) = current_term_ (group_ w) -> snap w < snap w1 ->
  requests_of (trace_ w1) = requests_of (trace_ w) -> logs w w1.
Proof.
  intros ? Hr ? ? E. split_and!; [done|by rewrite Hr|lia|]. exists []. rewrite E, app_nil_r. split; [done|]. lia.
Qed.

Section snapshots.
Context `{!Env}.

Lemma leads_ApplySnapshot i t : keeps leads (ApplySnapshotLocked i t).
Proof.
  intros w. unfold ApplySnapshotLocked, IsRunning. rewrite run_bind, run_gets, run_bind, run_getg.
  unfold id. destruct (negb _); [done|]. destruct (decide _); [done|]. destruct (decide _) as [|Hi]; [done|].
  destruct (decide _); [done|]. rewrite run_bind, run_putg. cbv zeta.
  match goal with |- leads _ (final (?m ?x)) => assert (keeps leads m) as Hm by keeps_solve; transitivity x; [|apply Hm] end.
  apply leads_compact; try done. unfold snap. proj_simp. lia.
Qed.
Hint Resolve leads_ApplySnapshot : keeps.

Lemma leads_create_and_apply : keeps leads create_and_apply.
Proof. unfold create_and_apply, CreateAndPersistSnapshot. keeps_solve. Qed.
Hint Resolve leads_create_and_apply : keeps.

Lemma logs_with_token st m : keeps logs m -> keeps logs (with_snapshot_token st m).
Proof. intros ?. unfold with_snapshot_token. keeps_solve. Qed.

Lemma logs_TriggerSnapshot : keeps logs TriggerSnapshot.
Proof. apply logs_with_token. intros w. logs. Qed.

Lemma logs_RunAutoSnapshot : keeps logs RunAutoSnapshotIfNeeded.
Proof. apply logs_with_token. intros w. logs. Qed.
Hint Resolve logs_RunAutoSnapshot : keeps.

Lemma logs_CheckSnapshotTimeout : keeps logs CheckSnapshotTimeoutLocked.
Proof. unfold CheckSnapshotTimeoutLocked. keeps_solve. Qed.

Lemma logs_PrepareSnapshotForPeer p : keeps logs (PrepareSnapshotForPeer p).
Proof. unfold PrepareSnapshotForPeer. keeps_solve. Qed.

Lemma logs_OnRetrySnapshotChunk p : keeps logs (OnRetrySnapshotChunk p).
Proof. unfold OnRetrySnapshotChunk. keeps_solve. Qed.

Lemma leads_snapshot_response_phase2 p b : keeps leads (snapshot_response_phase2 p b).
Proof. unfold snapshot_response_phase2. keeps_solve. Qed.

(** The second phase runs only when the first found a leader. *)
Lemma logs_HandleInstallSnapshotResponse p r b : keeps logs (HandleInstallSnapshotResponse p r b).
Proof.
  intros w. unfold HandleInstallSnapshotResponse, snapshot_response_phase1, IsRunning.
  rewrite !run_bind, run_gets, run_bind, run_getg. unfold id.
  destruct (negb _); [done|]. destruct (decide _) as [|Hl]; [done|]. destruct (decide _).
  - rewrite run_bind. pose proof (logs_BecomeFollowerLocked (isr_term r) w) as Hf.
    by destruct (BecomeFollowerLocked _ w).
  - apply leads_logs; [exact (dec_stable Hl)|]. apply leads_snapshot_response_phase2.
Qed.

Lemma logs_install_apply i t : keeps logs (install_apply i t).
Proof.
  intros w. unfold install_apply. rewrite run_bind, run_getg. unfold id.
  destruct (decide _) as [|Hi]; [done|]. destruct (decide _); [done|]. rewrite run_bind, run_putg.

  match goal with |- logs _ (final (?m ?x)) => assert (keeps logs m) as Hm by keeps_solve; transitivity x; [|apply Hm] end.
  apply logs_compact; try done. unfold snap. proj_simp. lia.
Qed.
Hint Resolve logs_install_apply : keeps.

Lemma logs_install_phase1 req : keeps logs (install_phase1 req).
Proof. unfold install_phase1. keeps_solve. Qed.

Lemma logs_install_phase2 req : keeps logs (install_phase2 req).
Proof.
  unfold install_phase2, begin_transfer, continue_transfer, write_chunk, file_content, remove_file,
    reset_receive. keeps_solve.
Qed.

Lemma logs_install_done p i t : keeps logs (install_done p i t).
Proof.
  unfold install_done, RestoreFromSnapshotFile, PersistSnapshotFile, file_content, remove_file. keeps_solve.
Qed.

End snapshots.
#[export] Hint Resolve logs_TriggerSnapshot logs_CheckSnapshotTimeout logs_PrepareSnapshotForPeer
  logs_OnRetrySnapshotChunk logs_HandleInstallSnapshotResponse logs_install_phase1 logs_install_phase2
  logs_install_done : keeps.

(** ** The follower and the node's interface *)

Section interface.
Context `{!Env}.

Lemma logs_append_phase1 req : keeps logs (append_phase1 req).
Proof. unfold append_phase1. keeps_solve. Qed.

Lemma logs_HandlePreVote req : keeps logs (HandlePreVote req).
Proof. unfold HandlePreVote. keeps_solve. Qed.

Lemma logs_HandleReadIndexRequest : keeps logs HandleReadIndexRequest.
Proof. unfold HandleReadIndexRequest. keeps_solve. Qed.

Lemma calm_grant_vote c : keeps calm (grant_vote c).
Proof. unfold grant_vote. keeps_solve. Qed.
Hint Resolve calm_grant_vote : keeps.

Lemma logs_HandleRequestVote req : keeps logs (HandleRequestVote req).
Proof. unfold HandleRequestVote. keeps_solve. Qed.

Lemma logs_Propose c cb i n : keeps logs (Propose c cb i n).
Proof.
  intros w. unfold Propose. logs_past. do 2 logs_step. logs_step; [done|]. logs_step; [by_logs|].
  unfold check_session, add_pending. by_logs.
Qed.

Lemma logs_ProposeBatch cs cb : keeps logs (ProposeBatch cs cb).
Proof.
  intros w. unfold ProposeBatch. logs_past. do 2 logs_step. logs_step; [done|]. logs_step; [by_logs|].
  unfold add_pending. by_logs.
Qed.

Lemma logs_OnLogEntryPersisted i s : keeps logs (OnLogEntryPersisted i s).
Proof. intros w. destruct s; unfold OnLogEntryPersisted; logs. Qed.

Lemma logs_guard_change ok err m :
  (forall w, role_ (group_ w) = LEADER -> logs w (final (m w))) -> keeps logs (guard_change ok err m).
Proof.
  intros Hm w. unfold guard_change. do 2 logs_step. logs_step; [done|]. logs_step; [by_logs|].
  do 2 (logs_step; [done|]). apply Hm. leader_known.
Qed.

Lemma leads_propose_change c k : keeps leads k -> keeps leads (propose_change c k).
Proof. intros ?. unfold propose_change. keeps_solve. Qed.

Lemma leads_add_peer i a : keeps leads (add_peer i a).
Proof. unfold add_peer. keeps_solve. Qed.
Hint Resolve leads_propose_change leads_add_peer : keeps.

Lemma logs_AddNode i a : keeps logs (AddNode i a).
Proof. apply logs_guard_change. intros w Hl. by_logs. Qed.

Lemma logs_AddLearner i a : keeps logs (AddLearner i a).
Proof. apply logs_guard_change. intros w Hl. by_logs. Qed.

Lemma logs_PromoteLearner i : keeps logs (PromoteLearner i).
Proof. apply logs_guard_change. intros w Hl. by_logs. Qed.

Lemma logs_leads_bind {A B} w (m : M A) (k : A -> M B) :
  role_ (group_ w) = LEADER -> keeps leads m ->
  (forall a w', role_ (group_ w') = LEADER -> logs w' (final (k a w'))) -> logs w (final ((m ≫= k) w)).
Proof.
  intros Hl Hm Hk. specialize (Hm w). rewrite run_bind. destruct (m w) as [a w'|w']; simpl in Hm.
  - transitivity w'; [by apply leads_logs|]. apply Hk. destruct Hm as (_&->&_). done.
  - by apply leads_logs.
Qed.

Lemma logs_RemoveNode i : keeps logs (RemoveNode i).
Proof.
  apply logs_guard_change. intros w Hl. logs_step. unfold propose_change.
  do 2 (apply logs_leads_bind; [done|keeps_solve|]; clear w Hl; intros ? w Hl).
  case_match; [|done]. apply logs_leads_bind; [done|keeps_solve|]. clear w Hl. intros ? w Hl.
  eapply final_bind; [apply _| |intros; reflexivity].
  do 2 (apply logs_leads_bind; [done|keeps_solve|]; clear w Hl; intros ? w Hl). logs_step. logs_step; [|done].
  logs_step.
Qed.

Lemma logs_TransferLeadershipTo i : keeps logs (TransferLeadershipTo i).
Proof.
  intros w. unfold TransferLeadershipTo. do 2 logs_step. logs_step; [done|]. logs_step; [by_logs|].
  do 2 (logs_step; [done|]). apply logs_leads_bind; [leader_known|keeps_solve|]. intros ? w' _. by_logs.
Qed.

Lemma logs_ReadIndex cb r : keeps logs (ReadIndex cb r).
Proof. unfold ReadIndex, read_index_leader, read_index_forwarded. keeps_solve. Qed.
Hint Resolve logs_ReadIndex : keeps.

Lemma logs_client_request_begin r cb resp : keeps logs (client_request_begin r cb resp).
Proof.
  intros w. unfold client_request_begin. logs_past. logs_step. logs_step; [done|]. logs_step.
  - unfold client_read_begin. enough (keeps logs (ReadIndex (Some cb) resp)) by by_logs. apply logs_ReadIndex.
  - unfold propose_and_wait, add_pending. by_logs.
Qed.

Lemma logs_client_read_end r : keeps logs (client_read_end r).
Proof. unfold client_read_end. keeps_solve. Qed.

Lemma logs_client_request_end r a : keeps logs (client_request_end r a).
Proof. unfold client_request_end. keeps_solve. Qed.

Lemma logs_propose_waited i r : keeps logs (propose_waited i r).
Proof. unfold propose_waited. keeps_solve. Qed.

Lemma logs_Stop : keeps logs Stop.
Proof. unfold Stop, DoGracefulShutdown, publish_lifecycle. keeps_solve. Qed.

End interface.

#[export] Hint Resolve logs_append_phase1 logs_HandlePreVote logs_HandleReadIndexRequest logs_HandleRequestVote
  logs_Propose logs_ProposeBatch logs_OnLogEntryPersisted logs_AddNode logs_RemoveNode logs_AddLearner
  logs_PromoteLearner logs_TransferLeadershipTo logs_ReadIndex logs_client_request_begin logs_client_read_end
  logs_client_request_end logs_propose_waited logs_Stop : keeps.
