(* ===== verification/LogPromotion.v ===== *)
(** * Winning elections, AppendEntries and the log

    Each event of a running node is a [logs] step, or a promotion followed by
    one.  What [HandleAppendEntries] does to the log of its receiver: nothing
    when the first phase answers, the merge of [Replication.v] when it goes on.
    A request without entries is a [logs] step. *)

From S2P Require Import Prelude Types RaftLog Quorum Sessions RaftGroup Timers Replicate Membership Apply.
From S2P Require Import Election Leader Follower Snapshots NodeCore Frames Votes Campaign Cluster Ballots.
From S2P Require Import Replication Commit LogFrames LogEvents.

(** ** Promotions *)

(** From [w] to [w1] nothing but office, term and bookkeeping changed, and the
    office is new. *)
Definition kept (w w1 : Node) : Prop :=
  server_id_ (group_ w1) = server_id_ (group_ w) /\ snap w1 = snap w /\ log_ (group_ w1) = log_ (group_ w) /\
  exists rs, requests_of (trace_ w1) = requests_of (trace_ w) ++ rs /\ empty_requests rs.

#[global] Instance kept_preorder : PreOrder kept.
Proof.
  split.
  - intros w. split_and!; try done. exists []. split; [by rewrite app_nil_r|constructor].
  - intros w1 w2 w3 (?&?&?&rs&E&H) (?&?&?&rs'&E'&H'). split_and!; try congruence.
    exists (rs ++ rs'). split; [by rewrite E', E, app_assoc|]. by apply Forall_app_2.
Qed.

Lemma calm_kept w w1 : calm w w1 -> kept w w1.
Proof. intros (?&_&_&?&?&?). done. Qed.

Definition promoted (w w1 : Node) : Prop :=
  kept w w1 /\ role_ (group_ w1) = LEADER /\
  (role_ (group_ w) = CANDIDATE /\ current_term_ (group_ w1) = current_term_ (group_ w) \/
   current_term_ (group_ w) < current_term_ (group_ w1)).

(** What is promised of a run that may win an election; it does not abort after
    the promotion. *)
Definition promotes {A} (w : Node) (o : Outcome Node A) : Prop :=
  logs w (final o) \/ exists w1 a w', o = Done a w' /\ promoted w w1 /\ leads w1 w'.

Lemma kept_logs w w1 : kept w w1 -> role_ (group_ w1) <> LEADER -> logs w w1.
Proof.
  intros (?&?&El&rs&E&H) Hr. split_and!; [done|done|lia|]. exists rs. split; [done|].
  intros _ _. exists []. split; [done|]. split; [|done]. intros _. by apply empty_sent_by.
Qed.

Lemma promotes_after {A} w w1 (o : Outcome Node A) : calm w w1 -> promotes w1 o -> promotes w o.
Proof.
  intros Hc [Hl|(w2&a&w'&E&(Hk&Hr&Ho)&Hl)]; [left; transitivity w1; [by apply calm_logs|done]|].
  right. exists w2, a, w'. split_and!; [done| |done]. pose proof (calm_kept _ _ Hc).
  destruct Hc as (_&Hr1&Ht&_). rewrite Hr1, Ht in Ho. split_and!; [by transitivity w1|done|done].
Qed.

Lemma promotes_calm_bind {A B} w (m : M A) (k : A -> M B) :
  keeps calm m -> (forall a w1, calm w w1 -> promotes w1 (k a w1)) -> promotes w ((m ≫= k) w).
Proof.
  intros Hm Hk. specialize (Hm w). rewrite run_bind. destruct (m w) as [a w1|w1]; simpl in *.
  - apply (promotes_after w w1); [done|]. by apply Hk.
  - left. by apply calm_logs.
Qed.

(** A candidacy for a later term. *)
Lemma promotes_candidacy {A} w w1 (o : Outcome Node A) :
  kept w w1 -> role_ (group_ w1) = CANDIDATE -> current_term_ (group_ w) < current_term_ (group_ w1) ->
  promotes w1 o -> promotes w o.
Proof.
  intros Hk Hr Ht [Hl|(w2&a&w'&E&(Hk2&Hr2&Ho)&Hl)].
  - left. transitivity w1; [|done]. apply kept_logs; congruence.
  - right. exists w2, a, w'. split_and!; [done| |done]. split_and!; [by transitivity w1|done|]. right.
    destruct Ho as [[_ ->]|]; lia.
Qed.

Section promotion.
Context `{!Env}.

Lemma BecomeLeader_completes w : exists w', BecomeLeaderLocked w = Done tt w'.
Proof.
  assert (runs anywhere BroadcastAppendEntriesLocked).
  { intros w0. destruct (runs_Broadcast w0) as (a&w1&E&_). by exists a, w1. }
  assert (runs anywhere BecomeLeaderLocked) as Hr.
  { unfold BecomeLeaderLocked, init_peer, CancelElectionTimerLocked, StartHeartbeatTimerLocked,
      StartSnapshotCheckTimerLocked, append_and_persist, publish_role, call_role, set_next_index, set_match_index.
    runs_solve. }
  destruct (Hr w) as ([]&w'&E&_). by exists w'.
Qed.

Lemma BecomeLeader_promotes w : role_ (group_ w) = CANDIDATE -> promotes w (BecomeLeaderLocked w).
Proof.
  intros Hc. destruct (BecomeLeader_completes w) as [w' E]. rewrite E. revert E.
  unfold BecomeLeaderLocked. rewrite run_bind, run_getg, run_bind, run_putg.
  match goal with |- ?m ?x = _ -> _ => assert (keeps leads m) as Hm by keeps_solve; specialize (Hm x);
    set (w1 := x) in * end.
  intros E. rewrite E in Hm. simpl in Hm. right. exists w1, tt, w'. split; [done|].
  split; [|done]. split_and!; [|done|by left]. split_and!; [done..|]. exists [].
  split; [by rewrite app_nil_r|constructor].
Qed.

Lemma enter_candidate_kept w :
  exists w1, enter_candidate w = Done tt w1 /\ kept w w1 /\ role_ (group_ w1) = CANDIDATE /\
    current_term_ (group_ w1) = u32 (current_term_ (group_ w) + 1).
Proof.
  eexists. split; [done|]. split_and!; [|done|done]. split_and!; [done..|]. exists [].
  split; [by rewrite app_nil_r|constructor].
Qed.

(** Past one calm step, keeping a fact [Ht] about term or role. *)
Ltac calm_step Ht :=
  apply promotes_calm_bind; [keeps_solve|];
  let w1 := fresh "w" in let Hs := fresh in let Er := fresh in let Et := fresh in
  intros ? w1 Hs; destruct Hs as (_&Er&Et&_);
  match type of Ht with
  | role_ _ = _ => rewrite <- Er in Ht
  | _ => rewrite <- Et in Ht
  end; clear Er Et.

Lemma BecomeCandidate_promotes w :
  0 <= current_term_ (group_ w) < UINT32_MAX -> promotes w (BecomeCandidateLocked w).
Proof.
  intros Ht. unfold BecomeCandidateLocked. rewrite run_bind, run_getg, run_bind.
  destruct (enter_candidate_kept w) as (w1&->&Hk&Hr&Ht1).
  rewrite u32_small in Ht1 by (unfold UINT32_MAX in *; lia).
  apply (promotes_candidacy w w1); [done|done|lia|]. do 5 calm_step Hr.
  match goal with |- context [if ?b then _ else _] => destruct b end; [by apply BecomeLeader_promotes|].
  left. by_logs.
Qed.

Lemma start_election_promotes w :
  0 <= current_term_ (group_ w) < UINT32_MAX -> promotes w (start_election w).
Proof.
  intros Ht. unfold start_election. rewrite run_bind, run_getg.
  destruct (negb _); [by apply BecomeCandidate_promotes|]. unfold start_pre_vote. do 5 calm_step Ht.
  match goal with |- context [if ?b then _ else _] => destruct b end.
  - calm_step Ht. by apply BecomeCandidate_promotes.
  - left. by_logs.
Qed.

Lemma OnElectionTimeout_promotes w :
  0 <= current_term_ (group_ w) < UINT32_MAX -> promotes w (OnElectionTimeoutLocked w).
Proof.
  intros Ht. unfold OnElectionTimeoutLocked. do 2 calm_step Ht.
  destruct (negb _); [by left|]. destruct (decide _); [by left|]. calm_step Ht.
  match goal with |- context [if ?b then _ else _] => destruct b end; [|by apply start_election_promotes].
  do 3 calm_step Ht. destruct (decide _); [calm_step Ht; by apply start_election_promotes|]. left. by_logs.
Qed.

Lemma HandlePreVoteResponse_promotes from resp t w :
  0 <= current_term_ (group_ w) < UINT32_MAX -> promotes w (HandlePreVoteResponse from resp t w).
Proof.
  intros Ht. unfold HandlePreVoteResponse. calm_step Ht. rewrite run_bind, run_getg. unfold id.
  do 2 (destruct (negb _); [by left|]). do 2 (destruct (decide _); [by left|]).
  destruct (decide _); [left; by_logs|]. destruct (pvr_vote_granted resp); [|by left].
  do 4 calm_step Ht.
  match goal with |- context [when ?b _] => destruct b; simpl when end; [|by left].
  do 3 calm_step Ht. by apply BecomeCandidate_promotes.
Qed.

Lemma HandleRequestVoteResponse_promotes from resp t w :
  promotes w (HandleRequestVoteResponse from resp t w).
Proof.
  unfold HandleRequestVoteResponse, IsRunning. rewrite run_bind, run_gets, run_bind, run_getg. unfold id.
  destruct (negb _); [by left|]. destruct (decide _) as [|Hr]; [by left|].
  destruct (decide _); [left; by_logs|]. do 2 (destruct (decide _); [by left|]).
  destruct (rvr_vote_granted resp); [|by left]. apply dec_stable in Hr. do 4 calm_step Hr.
  match goal with |- context [when ?b _] => destruct b; simpl when end; [by apply BecomeLeader_promotes|by left].
Qed.

End promotion.

(** ** Events *)

(** [OnStoreTick] takes the election lock for each of its three parts anew. *)
Inductive TickPart := TickElection | TickHeartbeat | TickSnapshot.

Definition run_part `{!Env} (p : TickPart) : M unit :=
  match p with
  | TickElection =>
      g ← getg id;
      when (election_timer_enabled_ g && bool_decide (election_deadline_ g <= env_now)) OnElectionTimeoutLocked
  | TickHeartbeat => CheckHeartbeatTimeoutLocked
  | TickSnapshot => CheckSnapshotTimeoutLocked
  end.

Lemma OnStoreTick_parts `{!Env} w :
  OnStoreTick w =
    if decide (state_ w = kRunning)
    then (run_part TickElection ;; run_part TickHeartbeat ;; run_part TickSnapshot) w else Done tt w.
Proof.
  unfold OnStoreTick, IsRunning. rewrite run_bind, run_gets. case_bool_decide.
  - rewrite decide_True by done. cbn [negb]. unfold run_part. by rewrite !run_bind, run_getg.
  - by rewrite decide_False.
Qed.

(** The steps of a node but the two sides of RequestVote and AppendEntries. *)
Inductive LogEvent := LogTick (p : TickPart) | LogOther (e : Event).

Definition run_log_event `{!Env} (e : LogEvent) : M unit :=
  match e with LogTick p => run_part p | LogOther e => run_event e end.

Definition other_event (e : LogEvent) : Prop :=
  match e with LogOther (EvTick | EvAppend1 _ | EvAppend2 _ _) => False | _ => True end.

Section events.
Context `{!Env}.

Lemma run_part_campaigns p w :
  env_persister = true -> term_small w -> campaigns w (run_part p w).
Proof.
  intros Hp Ht. destruct p; simpl.
  - rewrite run_bind, run_getg. destruct (_ && _); simpl when; [by apply OnElectionTimeout_campaigns|].
    by apply evolves_campaigns.
  - apply evolves_campaigns, evolves_CheckHeartbeatTimeout.
  - apply evolves_campaigns, evolves_CheckSnapshotTimeout.
Qed.

Lemma run_log_event_campaigns e w :
  env_persister = true -> term_small w -> server_id_ (group_ w) <> -1 -> campaigns w (run_log_event e w).
Proof. intros. destruct e; [by apply run_part_campaigns|by apply run_event_campaigns]. Qed.

Lemma logs_ignore {A} (m : M A) : keeps logs m -> keeps logs (ignore m).
Proof. intros ?. unfold ignore. keeps_solve. Qed.

Lemma run_log_event_promotes e w : other_event e -> term_small w -> promotes w (run_log_event e w).
Proof.
  intros He Ht. assert (forall m : M unit, keeps logs m -> promotes w (m w)) as Hl by (intros m Hm; left; apply Hm).
  destruct e as [[]|e]; simpl run_log_event; [|by apply Hl, logs_CheckHeartbeatTimeout|
    by apply Hl, logs_CheckSnapshotTimeout|].
  - simpl. rewrite run_bind, run_getg. destruct (_ && _); simpl when; [by apply OnElectionTimeout_promotes|by left].
  - destruct e; try done; simpl run_event;
      [by apply OnElectionTimeout_promotes| | |by apply HandlePreVoteResponse_promotes|..];
      apply Hl; try apply logs_ignore; auto with keeps.
Qed.

End events.

(** ** AppendEntries and the log *)

(** ** The first phase *)

Lemma keeps_calm_kept {A} (m : M A) : keeps calm m -> keeps kept m.
Proof. apply keeps_mono, calm_kept. Qed.
#[local] Hint Resolve keeps_calm_kept | 4 : keeps.
Ltac kept_leaf :=
  apply keeps_modify; intros ?; unfold kept, snap; split_and!; try reflexivity;
  eexists []; (split; [|by constructor]); proj_simp; rewrite ?requests_of_app, app_nil_r; simpl;
  rewrite ?app_nil_r; reflexivity.
#[local] Hint Extern 1 (keeps kept (modify _)) => kept_leaf : keeps.
#[local] Hint Extern 1 (keeps kept (putg _)) => kept_leaf : keeps.
#[local] Hint Extern 1 (keeps kept (emit _)) => kept_leaf : keeps.
#[local] Hint Extern 1 (keeps kept (getg _)) => (eapply keeps_gets; apply _) : keeps.

(** What the second phase does besides changing the log. *)
Definition follows (w w' : Node) : Prop :=
  server_id_ (group_ w') = server_id_ (group_ w) /\ role_ (group_ w') = role_ (group_ w) /\
  current_term_ (group_ w') = current_term_ (group_ w) /\ snap w <= snap w' /\
  exists rs, requests_of (trace_ w') = requests_of (trace_ w) ++ rs /\
    (role_ (group_ w) <> LEADER -> 0 <= snap w -> snap w' = 0 -> empty_requests rs).

#[global] Instance follows_preorder : PreOrder follows.
Proof.
  split.
  - intros w. split_and!; try done. exists []. split; [by rewrite app_nil_r|constructor].
  - intros w1 w2 w3 (?&Hr&?&?&rs&E&He) (?&?&?&?&rs'&E'&He'). split_and!; [congruence..|lia|].
    exists (rs ++ rs'). split; [by rewrite E', E, app_assoc|]. intros Hl Hs1 Hs3.
    apply Forall_app_2; [apply He|apply He']; congruence || lia.
Qed.

Lemma calm_follows w w' : calm w w' -> follows w w'.
Proof. intros (?&?&?&?&?&rs&?&?). split_and!; [done..|lia|]. by exists rs. Qed.

Lemma leads_logs_follows w w' : leads w w' -> logs w w' -> follows w w'.
Proof.
  intros (?&?&?&?&_) (_&_&_&rs&E&Hd). split_and!; try done. exists rs. split; [done|].
  intros Hl Hs Hs'. destruct (Hd Hs Hs') as (ds&_&_&Hn). by apply Hn.
Qed.

Lemma keeps_calm_follows {A} (m : M A) : keeps calm m -> keeps follows m.
Proof. apply keeps_mono, calm_follows. Qed.
#[local] Hint Resolve keeps_calm_follows | 4 : keeps.
Ltac follows_leaf :=
  apply keeps_modify; intros ?; split_and!; try reflexivity;
  eexists []; (split; [|by constructor]); proj_simp; rewrite ?requests_of_app, app_nil_r; simpl;
  rewrite ?app_nil_r; reflexivity.
#[local] Hint Extern 1 (keeps follows (putg _)) => follows_leaf : keeps.
#[local] Hint Extern 1 (keeps follows (emit _)) => follows_leaf : keeps.
#[local] Hint Extern 1 (keeps follows (getg _)) => (eapply keeps_gets; apply _) : keeps.

Section append.
Context `{!Env}.

Lemma kept_enter_follower t : keeps kept (enter_follower t).
Proof.
  intros w. unfold enter_follower, getg, putg. run. proj_simp.
  case_bool_decide; simpl; run; (split_and!; [done..|]); exists []; rewrite app_nil_r; by split; [|constructor].
Qed.
Hint Resolve kept_enter_follower : keeps.

Lemma kept_BecomeFollower t : keeps kept (BecomeFollowerLocked t).
Proof. unfold BecomeFollowerLocked, BecomeFollowerLockedImpl. keeps_solve. Qed.
Hint Resolve kept_BecomeFollower : keeps.

Lemma kept_append_phase1 req : keeps kept (append_phase1 req).
Proof. unfold append_phase1. keeps_solve. Qed.

(** A node that goes on as leader leads the term of the request. *)
Lemma append_phase1_leader req w t w1 :
  append_phase1 req w = Done (inr t) w1 -> role_ (group_ w1) = LEADER ->
  role_ (group_ w) = LEADER /\ ae_term req = current_term_ (group_ w).
Proof.
  unfold append_phase1. intros E Hl. revert E. rewrite run_bind.
  pose proof (calm_RecordActivity w) as Hc. destruct (RecordActivityLocked w) as [? w2|]; [|done].
  simpl in Hc. destruct Hc as (_&<-&<-&_). rewrite run_bind, run_getg. unfold id.
  destruct (negb _); [by intros [=]|]. rewrite run_bind.
  destruct (when _ _ w2) as [? w3|] eqn:E3; [|done]. rewrite run_bind, run_getg.
  destruct (decide _) as [|Hge]; [by intros [=]|].
  match goal with |- ?m w3 = _ -> _ => assert (keeps calm m) as Hm by keeps_solve; specialize (Hm w3) end.
  intros E. rewrite E in Hm. simpl in Hm. destruct Hm as (_&Hr&_). rewrite Hl in Hr.
  revert E3. case_bool_decide as Hlt; simpl when.
  - intros (_&_&Hf&_)%BecomeFollower_done. congruence.
  - intros [= _ ->]. split; [done|lia].
Qed.

(** ** The second phase *)

Lemma follows_truncate_conflicts es : keeps follows (truncate_conflicts es).
Proof. induction es; simpl; keeps_solve. Qed.

Lemma follows_append_new es : keeps follows (append_new es).
Proof. induction es; simpl; keeps_solve. Qed.

Lemma leads_follow_commit i : keeps leads (follow_commit i).
Proof. unfold follow_commit. keeps_solve. Qed.

Lemma follows_follow_commit i : keeps follows (follow_commit i).
Proof. intros w. apply leads_logs_follows; [apply leads_follow_commit|apply logs_follow_commit]. Qed.
Hint Resolve follows_truncate_conflicts follows_append_new follows_follow_commit : keeps.

Lemma follows_append_phase2 req t : keeps follows (append_phase2 req t).
Proof. unfold append_phase2. keeps_solve. Qed.

Lemma logs_append_phase2_empty req t : ae_entries req = [] -> keeps logs (append_phase2 req t).
Proof. intros He. unfold append_phase2. rewrite He. simpl. keeps_solve. Qed.

(** ** Starting *)

Lemma kept_restore_state sa : keeps kept (restore_state sa).
Proof. unfold restore_state. keeps_solve. Qed.

Lemma kept_start_services sa : keeps kept (start_services sa).
Proof. unfold start_services, start_failed, publish_lifecycle. keeps_solve. Qed.

Lemma start_failed_done st w w' : start_failed st w = Done StOK w' -> st = StOK.
Proof. by intros [= ->]. Qed.

(** A node that starts without a snapshot has the log that was kept. *)
Lemma Start_log sa w w' :
  env_persister = true -> sa_snapshot sa = None -> Start sa w = Done StOK w' ->
  log_ (group_ w') = restore_log (sa_entries sa) (log_ (group_ w)) /\ snap w' = snap w /\
  exists rs, requests_of (trace_ w') = requests_of (trace_ w) ++ rs /\ empty_requests rs.
Proof.
  intros Hp Hsnap. unfold Start. rewrite run_bind, run_gets. destruct (decide _); [by intros [=]|].
  rewrite run_bind, run_modify, Hp. cbv [negb].
  assert (kept w (w <| state_ := kRunning |>)) as Hk0.
  { split_and!; [done..|]. exists []. split; [by rewrite app_nil_r|constructor]. }
  destruct (sa_open sa) as [|? ?]; [|by intros H0%start_failed_done].
  rewrite run_bind. pose proof (kept_restore_state sa (w <| state_ := kRunning |>)) as Hk1.
  destruct (restore_state _ _) as [? w1|]; [|done]. simpl in Hk1. rewrite run_bind.
  unfold restore_snapshot. rewrite Hsnap, run_ret, run_bind. unfold restore_entries.
  rewrite run_bind, run_putg, run_putg. intros E.
  match type of E with start_services _ ?x = _ => pose proof (kept_start_services sa x) as Hk2 end.
  rewrite E in Hk2. simpl in Hk2. destruct Hk2 as (_&Hs2&Hl2&rs2&Er2&?).
  assert (kept w w1) as (_&Hs1&Hl1&rs1&Er1&?) by (by etransitivity).
  split_and!.
  - rewrite Hl2, <- Hl1. done.
  - rewrite Hs2. exact Hs1.
  - exists (rs1 ++ rs2). split; [|by apply Forall_app_2]. rewrite Er2. simpl. by rewrite Er1, <- app_assoc.
Qed.

End append.
