(* ===== verification/LogCluster.v ===== *)
(** * A cluster of nodes: Log Matching

    The logs of the nodes of a cluster whose membership is a fixed
    configuration and which takes no snapshots.  Besides what [Cluster.v]
    composes, the AppendEntries requests that nodes send are delivered, late,
    repeatedly or never, and a node that starts reads back what its log
    persister kept.  Every request that carries entries is one that some node
    sent.  The two phases of [HandleAppendEntries], between which the code
    holds no lock, are two steps with any others in between; only a second
    phase at a node elected for another term since the first is left out. *)

From S2P Require Import Prelude Types RaftLog Quorum Sessions RaftGroup Timers Replicate.
From S2P Require Import Membership Apply Election Leader Follower Snapshots NodeCore Frames Votes Campaign.
From S2P Require Import Cluster Replication LogFrames LogEvents LogPromotion.

Notation View := (list (Term * string)).

(** ** The logs of the terms *)

(** [canon] maps a term to the log of its leader.  Each entry of a log has the
    history that the leader of its term gave it. *)
Definition consistent (canon : gmap Z View) (v : View) : Prop :=
  forall k t d, v !! k = Some (t, d) ->
    0 < t /\ exists c, canon !! t = Some c /\ take (S k) v = take (S k) c.

Definition grows (canon canon' : gmap Z View) : Prop :=
  forall t c, canon !! t = Some c -> exists c', canon' !! t = Some c' /\ c `prefix_of` c'.

Lemma grows_refl canon : grows canon canon.
Proof. intros t c Hc. by exists c. Qed.

Lemma consistent_nil canon : consistent canon [].
Proof. intros k t d Hk. by rewrite lookup_nil in Hk. Qed.

Lemma take_lookup_agree {A} k (v c : list A) x :
  take (S k) v = take (S k) c -> v !! k = Some x -> c !! k = Some x.
Proof.
  intros E Hv. rewrite <- (lookup_take_lt c (S k)), <- E, lookup_take_lt by lia. done.
Qed.

Lemma consistent_mono canon canon' v : grows canon canon' -> consistent canon v -> consistent canon' v.
Proof.
  intros Hg Hv k t d Hk. destruct (Hv k t d Hk) as (Ht&c&Hc&E). split; [done|].
  destruct (Hg t c Hc) as (c'&Hc'&[r ->]). exists (c ++ r). split; [done|].
  pose proof (take_lookup_agree _ _ _ _ E Hk) as Hck. apply lookup_lt_Some in Hck. by rewrite take_app_le by lia.
Qed.

Lemma consistent_prefix canon v v' : v' `prefix_of` v -> consistent canon v -> consistent canon v'.
Proof.
  intros [r ->] Hv k t d Hk. destruct (Hv k t d) as (Ht&c&Hc&E); [by apply lookup_app_l_Some|].
  split; [done|]. exists c. split; [done|]. rewrite <- E. apply lookup_lt_Some in Hk. by rewrite take_app_le by lia.
Qed.

Lemma consistent_take canon v n : consistent canon v -> consistent canon (take n v).
Proof. apply consistent_prefix. exists (drop n v). by rewrite take_drop. Qed.

(** Logs that agree on the term of an index agree up to it. *)
Lemma consistent_agree canon u v p t d d' :
  consistent canon u -> consistent canon v -> u !! p = Some (t, d) -> v !! p = Some (t, d') ->
  take (S p) u = take (S p) v.
Proof.
  intros Hu Hv Hup Hvp. destruct (Hu p t d Hup) as (_&c&Hc&->).
  destruct (Hv p t d' Hvp) as (_&c'&Hc'&->). by simplify_eq.
Qed.

(** The leader of [t] appends to its log. *)
Lemma consistent_append canon t v ds :
  consistent canon v -> 0 < t -> grows canon (<[t := v ++ ((fun d => (t, d)) <$> ds)]> canon) ->
  consistent (<[t := v ++ ((fun d => (t, d)) <$> ds)]> canon) (v ++ ((fun d => (t, d)) <$> ds)).
Proof.
  intros Hv Ht Hg k t' d Hk. destruct (decide (k < length v)%nat) as [Hlt|Hge].
  - rewrite lookup_app_l in Hk by lia.
    destruct (consistent_mono _ _ _ Hg Hv k t' d Hk) as (?&c&?&E). split; [done|]. exists c. split; [done|].
    by rewrite take_app_le by lia.
  - rewrite lookup_app_r in Hk by lia. apply list_lookup_fmap_Some in Hk as (d'&[= -> ->]&_).
    split; [done|]. eexists. split; [apply lookup_insert_eq|done].
Qed.

(** ** The merge on views *)

Lemma store_view s es : entry_view <$> store s es = entry_view <$> es.
Proof. revert s. induction es as [|e es IH]; intros s; simpl; [done|]. by rewrite IH. Qed.

Section merge.
Context (canon : gmap Z View) (L es : list RaftLogEntry) (c : View) (n : nat).
Context (HL : consistent canon (entry_view <$> L)) (Hc : consistent canon c).
Context (Hn : (n <= length L)%nat) (Hnc : (n <= length c)%nat).
Context (Hes : entry_view <$> es = take (length es) (drop n c)).
Context (Hprev : match n with
                 | O => True
                 | S p => exists t d d', (entry_view <$> L) !! p = Some (t, d) /\ c !! p = Some (t, d')
                 end).

(** Up to the first conflict the log agrees with the leader's. *)
Lemma merge_agree m :
  (m < length es)%nat ->
  (forall j e, (j < m)%nat -> es !! j = Some e -> exists x, L !! (n + j)%nat = Some x /\ term_ x = term_ e) ->
  take (n + m) (entry_view <$> L) = take (n + m) c.
Proof.
  intros Hm Ha. destruct m as [|j].
  - rewrite Nat.add_0_r. destruct n as [|p]; [done|]. destruct Hprev as (t&d&d'&Hu&Hv).
    by eapply consistent_agree.
  - destruct (lookup_lt_is_Some_2 es j) as [e He]; [lia|]. destruct (Ha j e) as (x&Hx&Ht); [lia|done|].
    rewrite <- plus_n_Sm. apply (consistent_agree canon _ _ _ (term_ e) (data_ x) (data_ e)); [done|done| |].
    + rewrite list_lookup_fmap, Hx. simpl. unfold entry_view. by rewrite Ht.
    + rewrite <- lookup_drop, <- (lookup_take_lt _ (length es)) by lia. rewrite <- Hes, list_lookup_fmap, He. done.
Qed.

Lemma merge_view s :
  let v := entry_view <$> merge s L n es in
  v = entry_view <$> L \/ v = take (n + length es) c.
Proof.
  cbv zeta. destruct (merge_cases s L n es Hn) as [[-> _]|(m&Hm&Hl&->&Ha)]; [by left|]. right.
  rewrite fmap_app, fmap_take, store_view, fmap_drop, Hes, (merge_agree m Hm Ha).
  replace (n + length es)%nat with ((n + m) + (length es - m))%nat by lia.
  by rewrite skipn_firstn_comm, drop_drop, take_take_drop.
Qed.

End merge.

(** ** The cluster *)

(** [sent] has every AppendEntries request that was sent, [past] every log that
    a node has had after one of its steps, [midway] the requests whose handler
    has run its first phase at a node and not yet its second. *)
Record LogState := mkLogState {
  base : Cluster;
  sent : list AppendEntriesRequest;
  past : list (Z * View);
  midway : list (Z * (AppendEntriesRequest * Term))
}.

(** No snapshot was taken or installed, and the log fits its index type. *)
Definition plain (w : Node) : Prop :=
  snap w = 0 /\ 1 + log_size (log_ (group_ w)) <= UINT32_MAX.

(** The handlers under way at node [i] end with its process. *)
Definition still_running (i : Z) (p : Proc) (l : list (Z * (AppendEntriesRequest * Term))) :
    list (Z * (AppendEntriesRequest * Term)) :=
  match p with
  | Up _ => l
  | Down _ => filter (fun x => x.1 <> i) l
  end.

(** Node [i] is at [w'] after a step, and the rest of the cluster at [b]. *)
Definition record (s : LogState) (i : Z) (w' : Node) (b : Cluster)
    (mid : list (Z * (AppendEntriesRequest * Term))) : LogState :=
  mkLogState b (sent s ++ requests_of (trace_ w')) (past s ++ [(i, log_view (log_ (group_ w')))]) mid.

(** [mid] are the handlers midway before the end of node [i]'s process, if
    the step ends it. *)
Definition log_advance_to {A} (s : LogState) (i : Z) (o : Outcome Node A) (new : list VoteAnswer)
    (mid : list (Z * (AppendEntriesRequest * Term))) : LogState :=
  record s i (final o) (advance (base s) i (after o) new) (still_running i (after o) mid).

Definition log_advance {A} (s : LogState) (i : Z) (o : Outcome Node A) (new : list VoteAnswer) : LogState :=
  log_advance_to s i o new (midway s).

(** The handler of a request that passed its first phase goes on to the second. *)
Definition passed (i : Z) (req : AppendEntriesRequest) (o : Outcome Node (AppendEntriesResponse + Term)) :
    list (Z * (AppendEntriesRequest * Term)) :=
  match value o with
  | Some (inr term) => [(i, (req, term))]
  | _ => []
  end.

(** Between the phases the node has been elected for another term, and the
    request has entries. *)
Definition elected_between (w : Node) (req : AppendEntriesRequest) : Prop :=
  role_ (group_ w) = LEADER /\ current_term_ (group_ w) <> ae_term req /\ ae_entries req <> [].

(** Heartbeats may say anything; entries come from a request that was sent by
    another node. *)
Definition deliverable (s : LogState) (i : Z) (req : AppendEntriesRequest) : Prop :=
  ae_entries req = [] \/ req ∈ sent s /\ ae_leader_id req <> i.

(** What the log persister gives back: a prefix of a log the node has had. *)
Definition readable (s : LogState) (i : Z) (es : list RaftLogEntry) : Prop :=
  contiguous 1 es /\ 1 + Z.of_nat (length es) <= UINT32_MAX /\
  (es = [] \/ exists v, (i, v) ∈ past s /\ (entry_view <$> es) `prefix_of` v).

Inductive lstep (C : ClusterConfig) (s : LogState) : LogState -> Prop :=
| lstep_event (E : Env) i w e :
    procs (base s) !! i = Some (Up w) -> env_persister = true -> term_small w -> other_event e ->
    config_is C (after (run_log_event e w)) -> plain (final (run_log_event e w)) ->
    lstep C s (log_advance s i (run_log_event e w) [])
| lstep_append1 (E : Env) i w req :
    procs (base s) !! i = Some (Up w) -> env_persister = true -> deliverable s i req ->
    config_is C (after (append_phase1 req w)) -> plain (final (append_phase1 req w)) ->
    lstep C s (log_advance_to s i (append_phase1 req w) [] (passed i req (append_phase1 req w) ++ midway s))
| lstep_append2 (E : Env) i w req term l1 l2 :
    procs (base s) !! i = Some (Up w) -> env_persister = true ->
    midway s = l1 ++ (i, (req, term)) :: l2 -> ~ elected_between w req ->
    next_free (log_ (group_ w)) + Z.of_nat (length (ae_entries req)) <= UINT32_MAX ->
    config_is C (after (append_phase2 req term w)) -> plain (final (append_phase2 req term w)) ->
    lstep C s (log_advance_to s i (append_phase2 req term w) [] (l1 ++ l2))
| lstep_vote (E : Env) i w req :
    procs (base s) !! i = Some (Up w) -> env_persister = true ->
    config_is C (after (HandleRequestVote req w)) -> plain (final (HandleRequestVote req w)) ->
    lstep C s (log_advance s i (HandleRequestVote req w) (answer_of i req (HandleRequestVote req w)))
| lstep_answer (E : Env) i w a :
    procs (base s) !! i = Some (Up w) -> env_persister = true ->
    a ∈ answers (base s) -> va_candidate a = i ->
    config_is C (after (HandleRequestVoteResponse (va_voter a) (va_resp a) (va_term a) w)) ->
    plain (final (HandleRequestVoteResponse (va_voter a) (va_resp a) (va_term a) w)) ->
    lstep C s (log_advance s i (HandleRequestVoteResponse (va_voter a) (va_resp a) (va_term a) w) [])
| lstep_crash i w :
    procs (base s) !! i = Some (Up w) ->
    lstep C s (mkLogState (advance (base s) i (Down (disk_ w)) []) (sent s) (past s)
      (still_running i (Down (disk_ w)) (midway s)))
| lstep_start (E : Env) i d w sa :
    procs (base s) !! i = Some (Down d) -> env_persister = true -> fresh i d w ->
    log_ (group_ w) = RaftLog_init -> snap w = 0 -> trace_ w = [] ->
    sa_load sa = d -> sa_snapshot sa = None -> readable s i (sa_entries sa) ->
    config_is C (after_start (Start sa w)) ->
    lstep C s (mkLogState (advance (base s) i (after_start (Start sa w)) []) (sent s) (past s) (midway s)).

Inductive lreachable (C : ClusterConfig) (ids : list Z) : LogState -> Prop :=
| lreach_init : lreachable C ids (mkLogState (cluster_init ids) [] [] [])
| lreach_step s s' : lreachable C ids s -> lstep C s s' -> lreachable C ids s'.

(** ** The invariant *)

(** A request with entries was cut from the log of the term's leader. *)
Definition request_ok (canon : gmap Z View) (L : gset (Z * Z)) (r : AppendEntriesRequest) : Prop :=
  ae_entries r = [] \/
  ((ae_term r, ae_leader_id r) ∈ L /\ exists c, canon !! ae_term r = Some c /\ cut_from c r).

(** A handler midway has such a request, from another node. *)
Definition midway_ok (canon : gmap Z View) (L : gset (Z * Z)) (x : Z * (AppendEntriesRequest * Term)) : Prop :=
  request_ok canon L x.2.1 /\ (ae_entries x.2.1 = [] \/ ae_leader_id x.2.1 <> x.1).

Record node_log_ok (canon : gmap Z View) (L : gset (Z * Z)) (i : Z) (w : Node) : Prop := mkNodeLogOk {
  nl_wf : log_wf (log_ (group_ w));
  nl_start : start_index_ (log_ (group_ w)) = 1;
  nl_snap : snap w = 0;
  nl_view : consistent canon (log_view (log_ (group_ w)));
  nl_trace : Forall (request_ok canon L) (requests_of (trace_ w));
  nl_lead : role_ (group_ w) = LEADER ->
    canon !! current_term_ (group_ w) = Some (log_view (log_ (group_ w))) /\ (current_term_ (group_ w), i) ∈ L;
  nl_office : role_ (group_ w) <> FOLLOWER -> 0 < current_term_ (group_ w);
  nl_cand : role_ (group_ w) = CANDIDATE -> (current_term_ (group_ w), i) ∉ L
}.

Record linv (C : ClusterConfig) (canon : gmap Z View) (s : LogState) : Prop := mkLinv {
  li_base : inv C (base s);
  li_own : forall t i, (t, i) ∈ leaders (base s) -> (i, t, i) ∈ votes (base s);
  li_nodes : forall i w, procs (base s) !! i = Some (Up w) -> node_log_ok canon (leaders (base s)) i w;
  li_sent : Forall (request_ok canon (leaders (base s))) (sent s);
  li_past : Forall (fun p => consistent canon p.2) (past s);
  li_midway : Forall (midway_ok canon (leaders (base s))) (midway s);
  li_canon : forall t c, canon !! t = Some c -> consistent canon c /\ exists j, (t, j) ∈ leaders (base s)
}.

Lemma request_ok_mono canon canon' L L' r :
  grows canon canon' -> L ⊆ L' -> request_ok canon L r -> request_ok canon' L' r.
Proof.
  intros Hg HL [?|(Hl&c&Hc&Hcut)]; [by left|]. right. split; [auto|].
  destruct (Hg _ _ Hc) as (c'&Hc'&[k ->]). exists (c ++ k). split; [done|]. by apply cut_from_app.
Qed.

Lemma requests_ok_mono canon canon' L L' rs :
  grows canon canon' -> L ⊆ L' -> Forall (request_ok canon L) rs -> Forall (request_ok canon' L') rs.
Proof. intros Hg HL H. eapply list.Forall_impl; [exact H|]. intros r. by apply request_ok_mono. Qed.

Lemma midway_ok_mono canon canon' L L' l :
  grows canon canon' -> L ⊆ L' -> Forall (midway_ok canon L) l -> Forall (midway_ok canon' L') l.
Proof.
  intros Hg HL H. eapply list.Forall_impl; [exact H|]. intros x [Hr ?]. split; [|done]. by eapply request_ok_mono.
Qed.

Lemma still_running_ok canon L i p l :
  Forall (midway_ok canon L) l -> Forall (midway_ok canon L) (still_running i p l).
Proof.
  destruct p; [done|]. rewrite !list.Forall_forall. intros H x Hx. apply H. by apply list_elem_of_filter in Hx as [_ Hx].
Qed.

Lemma empty_requests_ok canon L rs : empty_requests rs -> Forall (request_ok canon L) rs.
Proof. intros H. eapply list.Forall_impl; [exact H|]. intros r Hr. by left. Qed.

Lemma leaders_grow s i p new : leaders s ⊆ leaders (advance s i p new).
Proof. simpl. set_solver. Qed.

Section invariant.
Context (C : ClusterConfig) (Hsmall : config_small C).

(** *** One node moves *)

Section advance.
Context (canon canon' : gmap Z View) (s : LogState) (Hinv : linv C canon s).
Context (i : Z) (p' : Proc) (new : list VoteAnswer) (rs : list AppendEntriesRequest) (vs : list (Z * View)).
Context (mid : list (Z * (AppendEntriesRequest * Term))) (Hmid : Forall (midway_ok canon (leaders (base s))) mid).
Let b := advance (base s) i p' new.
Context (Hb : inv C b) (Hg : grows canon canon').
Context (Hcanon : forall t, canon' !! t = canon !! t \/
  (t, i) ∈ leaders b /\ exists c, canon' !! t = Some c /\ consistent canon' c).
Context (Hnode : forall w', p' = Up w' -> node_log_ok canon' (leaders b) i w').
Context (Hrs : Forall (request_ok canon' (leaders b)) rs).
Context (Hvs : Forall (fun p => consistent canon' p.2) vs).

(** The other nodes do not notice. *)
Lemma other_node_ok j w :
  j <> i -> procs (base s) !! j = Some (Up w) -> node_log_ok canon' (leaders b) j w.
Proof.
  intros Hj Hw. destruct (li_nodes _ _ _ Hinv _ _ Hw) as [? ? ? Hv Htr Hl Ho Hc]. split; try done.
  - by eapply consistent_mono.
  - eapply requests_ok_mono; [done|apply leaders_grow|done].
  - intros Hlead. destruct (Hl Hlead) as [Hcl Hin]. apply (leaders_grow _ i p' new) in Hin. split; [|done].
    destruct (Hcanon (current_term_ (group_ w))) as [->|[Hi _]]; [done|].
    by destruct Hj; eapply leader_unique.
  - intros Hcand. simpl. intros [?|Hown]%elem_of_union; [by apply Hc|]. revert Hown.
    destruct p' as [w'|]; simpl; [case_decide|]; set_solver.
Qed.

Lemma advance_linv : linv C canon' (mkLogState b (sent s ++ rs) (past s ++ vs) mid).
Proof.
  split; simpl base; simpl sent; simpl past; simpl midway.
  - done.
  - intros t j. simpl. intros [Hl|Hl]%elem_of_union.
    + apply (li_own _ _ _ Hinv) in Hl. set_solver.
    + destruct p' as [w'|]; simpl in *; [|set_solver]. destruct (decide (role_ (group_ w') = LEADER)) as [Hr|];
        [|set_solver]. rewrite Hr. simpl. set_solver.
  - intros j w. simpl. intros [[<- E]|[Hne Hw]]%lookup_insert_Some; [by apply Hnode|by apply other_node_ok].
  - apply Forall_app_2; [|done]. eapply requests_ok_mono; [done|apply leaders_grow|apply Hinv].
  - apply Forall_app_2; [|done]. eapply list.Forall_impl; [apply Hinv|]. intros q. by apply consistent_mono.
  - eapply midway_ok_mono; [done|apply leaders_grow|done].
  - intros t c Hc. destruct (Hcanon t) as [E|[Hin (c'&Hc'&?)]].
    + rewrite E in Hc. destruct (li_canon _ _ _ Hinv _ _ Hc) as [? [j Hj]].
      split; [by eapply consistent_mono|]. exists j. by apply leaders_grow.
    + simplify_eq. split; [done|]. by exists i.
Qed.

End advance.

(** *** Offices *)

(** How a node that does not end as a follower came to its office. *)
Definition stands (w w' : Node) : Prop :=
  role_ (group_ w') <> FOLLOWER ->
  (role_ (group_ w') = role_ (group_ w) \/ role_ (group_ w) = CANDIDATE /\ role_ (group_ w') = LEADER) /\
    current_term_ (group_ w') = current_term_ (group_ w) \/
  0 <= current_term_ (group_ w) < current_term_ (group_ w').

Lemma evolves_stands w w' : evolves w w' -> stands w w'.
Proof. intros (_&_&_&[?|(?&?&_)]) Hr; [done|]. left. auto. Qed.

Lemma role_step_stands w w' : 0 <= current_term_ (group_ w) -> role_step w w' -> stands w w'.
Proof. intros Ht [?|???|????|????] Hr; [done| | |]; [left; auto..|right; lia]. Qed.

Lemma led_term canon s i w t :
  linv C canon s -> procs (base s) !! i = Some (Up w) -> (t, i) ∈ leaders (base s) ->
  t <= current_term_ (group_ w).
Proof.
  intros Hinv Hw Hl. apply (li_own _ _ _ Hinv) in Hl.
  destruct (inv_bound _ _ (li_base _ _ _ Hinv) _ _ _ Hl) as (_&p&d&Hp&Hd&Hb). simplify_eq.
  destruct (inv_procs _ _ (li_base _ _ _ Hinv) _ _ Hw) as [_ Hok]. simpl in Hok.
  pose proof (no_disk _ _ _ _ Hok d Hd) as Hle. unfold vote_le, vote_of in Hle. simpl in Hle.
  destruct Hb as [?| ->]; simpl in Hle; lia.
Qed.

(** What a node's office needs after a step; [L'] adds at most its own lead. *)
Lemma office_kept (canon : gmap Z View) (s : LogState) (i : Z) (w w' : Node) (L' : gset (Z * Z)) :
  linv C canon s -> procs (base s) !! i = Some (Up w) -> stands w w' ->
  (forall t, (t, i) ∈ L' -> (t, i) ∈ leaders (base s) \/ role_ (group_ w') = LEADER) ->
  (role_ (group_ w') <> FOLLOWER -> 0 < current_term_ (group_ w')) /\
  (role_ (group_ w') = CANDIDATE -> (current_term_ (group_ w'), i) ∉ L').
Proof.
  intros Hinv Hw Hs HL. pose proof (li_nodes _ _ _ Hinv _ _ Hw) as Hok. split.
  - intros Hr. destruct (Hs Hr) as [[Ho ->]|?]; [|lia]. apply (nl_office _ _ _ _ Hok).
    destruct Ho as [Ho|[Ho _]]; congruence.
  - intros Hr Hin. destruct (HL _ Hin) as [Hl|?]; [|congruence]. pose proof (led_term _ _ _ _ _ Hinv Hw Hl).
    destruct (Hs ltac:(congruence)) as [[Ho Ht]|?]; [|lia]. rewrite Ht in *.
    apply (nl_cand _ _ _ _ Hok); [|done]. destruct Ho as [Ho|[_ Ho]]; congruence.
Qed.

Lemma own_lead_role {A} (o : Outcome Node A) (i t : Z) (L : gset (Z * Z)) :
  (t, i) ∈ L ∪ own_lead i (after o) -> (t, i) ∈ L \/ role_ (group_ (final o)) = LEADER.
Proof.
  intros [?|Hl]%elem_of_union; [by left|]. right. destruct o as [a w'|w']; simpl in *; [|set_solver].
  case_decide; [done|set_solver].
Qed.

(** *** Steps that append as a leader *)

Section run.
Context {A : Type} (canon : gmap Z View) (s : LogState) (Hinv : linv C canon s).
Context (i : Z) (w : Node) (o : Outcome Node A) (new : list VoteAnswer).
Context (mid : list (Z * (AppendEntriesRequest * Term))) (Hmid : Forall (midway_ok canon (leaders (base s))) mid).
Let w' := final o.
Let b := advance (base s) i (after o) new.
Context (Hw : procs (base s) !! i = Some (Up w)) (Hb : inv C b).
Context (Hstands : forall a w1, o = Done a w1 -> stands w w1) (Hplain : plain w').

Let Hok : node_log_ok canon (leaders (base s)) i w := li_nodes _ _ _ Hinv _ _ Hw.

Lemma node_id : server_id_ (group_ w) = i.
Proof. destruct (inv_procs _ _ (li_base _ _ _ Hinv) _ _ Hw) as [_ Ho]. apply (no_id _ _ _ _ Ho). Qed.

(** The log stays what it was, and nothing with entries is sent. *)
Lemma still_linv rs :
  log_wf (log_ (group_ w')) -> start_index_ (log_ (group_ w')) = 1 ->
  consistent canon (log_view (log_ (group_ w'))) ->
  (role_ (group_ w') = LEADER -> canon !! current_term_ (group_ w') = Some (log_view (log_ (group_ w')))) ->
  requests_of (trace_ w') = requests_of (trace_ w) ++ rs -> empty_requests rs ->
  linv C canon (log_advance_to s i o new mid).
Proof.
  intros Hwf Hst Hv Hl Er Hrs. assert (leaders (base s) ⊆ leaders b) as Hsub by apply leaders_grow.
  assert (Forall (request_ok canon (leaders b)) (requests_of (trace_ w'))) as Hreq.
  { rewrite Er. apply Forall_app_2; [|by apply empty_requests_ok].
    eapply requests_ok_mono; [apply grows_refl|done|apply Hok]. }
  apply (advance_linv canon canon s Hinv i); [by apply still_running_ok|done|apply grows_refl|by left| |done|by apply list.Forall_singleton].
  intros w1 E. assert (exists a, o = Done a w1) as [a Ho].
  { destruct o as [a w2|w2]; simpl in E; [|done]. exists a. congruence. }
  assert (w' = w1) as <- by (unfold w'; by rewrite Ho).
  destruct (office_kept canon s i w w' (leaders b) Hinv Hw (Hstands _ _ Ho)) as [Hof Hca].
  { intros t. apply own_lead_role. }
  split; try done; [apply Hplain|]. intros Hlead. split; [by apply Hl|]. unfold b. rewrite Ho. simpl.
  rewrite decide_True by done. set_solver.
Qed.

(** The leader of [t] has appended [ds] and sent [rs]. *)
Lemma lead_linv t ds rs :
  log_ (group_ w') = append_all t ds (log_ (group_ w)) ->
  0 < t -> (t, i) ∈ leaders b ->
  grows canon (<[t := log_view (log_ (group_ w'))]> canon) ->
  (role_ (group_ w') = LEADER -> current_term_ (group_ w') = t) ->
  requests_of (trace_ w') = requests_of (trace_ w) ++ rs ->
  (log_ok (log_ (group_ w')) -> Forall (fun r => ae_entries r = [] \/
     ae_term r = t /\ ae_leader_id r = i /\ cut_from (log_view (log_ (group_ w'))) r) rs) ->
  exists canon', linv C canon' (log_advance_to s i o new mid).
Proof.
  intros El Ht Hin Hg Hr Er Hrs. set (v := log_view (log_ (group_ w'))) in *. exists (<[t := v]> canon).
  assert (leaders (base s) ⊆ leaders b) as Hsub by apply leaders_grow.
  assert (log_wf (log_ (group_ w')) /\ start_index_ (log_ (group_ w')) = 1) as [Hwf Hst].
  { pose proof (nl_start _ _ _ _ Hok) as H1. destruct Hplain as [_ Hbd]. rewrite El in *.
    split; [apply append_all_wf; [apply Hok|lia]|]. by rewrite (proj2 (append_all_view _ _ _)). }
  assert (consistent (<[t := v]> canon) v) as Hv.
  { unfold v in *. rewrite El in *. destruct (append_all_view t ds (log_ (group_ w))) as [Ev _].
    rewrite Ev in *. apply consistent_append; [apply Hok|done|done]. }
  assert (Forall (request_ok (<[t := v]> canon) (leaders b)) (requests_of (trace_ w'))) as Hreq.
  { rewrite Er. apply Forall_app_2; [eapply requests_ok_mono; [exact Hg|done|apply Hok]|].
    eapply list.Forall_impl; [apply Hrs|].
    - split; [done|destruct Hplain as [_ Hp]; exact Hp|]. intros k e He. rewrite <- Hst. by apply Hwf.
    - intros r [?|(Et&Ei&Hcut)]; [by left|]. right. rewrite Et, Ei. split; [done|]. exists v. by rewrite lookup_insert_eq. }
  apply (advance_linv canon (<[t := v]> canon) s Hinv i); [by apply still_running_ok|done|done| | |done|by apply list.Forall_singleton].
  { intros t'. destruct (decide (t' = t)) as [->|Hne]; [right|left; by rewrite lookup_insert_ne].
    split; [done|]. exists v. by rewrite lookup_insert_eq. }
  intros w1 E. assert (exists a, o = Done a w1) as [a Ho].
  { destruct o as [a w2|w2]; simpl in E; [|done]. exists a. congruence. }
  assert (w' = w1) as <- by (unfold w'; by rewrite Ho).
  destruct (office_kept canon s i w w' (leaders b) Hinv Hw (Hstands _ _ Ho)) as [Hof Hca].
  { intros t'. apply own_lead_role. }
  split; try done; [apply Hplain|]. intros Hlead. rewrite (Hr Hlead). by rewrite lookup_insert_eq.
Qed.

(** A handler that appends as a leader only. *)
Lemma logs_linv : logs w w' -> exists canon', linv C canon' (log_advance_to s i o new mid).
Proof.
  intros (_&Ho&_&rs&Er&Hd). destruct Hplain as [Hs' Hbd].
  destruct Hd as (ds&El&Hsent&Hn); [rewrite (nl_snap _ _ _ _ Hok); lia|done|].
  destruct (decide (role_ (group_ w) = LEADER)) as [Hl|Hl].
  - destruct (nl_lead _ _ _ _ Hok Hl) as [Hc Hin].
    apply (lead_linv (current_term_ (group_ w)) ds rs); try done.
    + apply (nl_office _ _ _ _ Hok). congruence.
    + by apply leaders_grow.
    + intros t c Hc'. destruct (decide (t = current_term_ (group_ w))) as [->|Hne].
      * eexists. split; [apply lookup_insert_eq|]. simplify_eq. rewrite El. apply append_all_view_prefix.
      * exists c. by rewrite lookup_insert_ne.
    + intros Hl'. by apply Ho.
    + intros Hlog. rewrite <- node_id. by apply Hsent.
  - destruct (Hn Hl) as [-> Hrs]. simpl in El. exists canon.
    apply (still_linv rs); rewrite ?El; try done; try apply Hok. intros Hl'. by destruct (Ho Hl').
Qed.

(** A promotion: no one has led the term before. *)
Lemma promoted_linv w1 a :
  o = Done a w' -> promoted w w1 -> leads w1 w' -> exists canon', linv C canon' (log_advance_to s i o new mid).
Proof.
  intros Eo ((Hi&Hsn&El&rs0&Er0&Hrs0)&Hr1&Hterm) (Hi'&Hr'&Ht'&_&rs&Er&Hd). destruct Hplain as [Hs' Hbd].
  pose proof (nl_snap _ _ _ _ Hok) as H0. destruct Hd as (ds&El'&Hsent); [lia|done|]. rewrite El in El'.
  set (t := current_term_ (group_ w1)) in *.
  assert ((t, i) ∈ leaders b) as Hin.
  { unfold b. rewrite Eo. simpl. rewrite decide_True by congruence. rewrite Ht'. set_solver. }
  assert ((t, i) ∉ leaders (base s)) as Hnew.
  { intros Hl. pose proof (led_term _ _ _ _ _ Hinv Hw Hl). destruct Hterm as [[Hc Et]|]; [|lia].
    apply (nl_cand _ _ _ _ Hok Hc). by rewrite <- Et. }
  assert (canon !! t = None) as Hnone.
  { destruct (canon !! t) as [c|] eqn:E; [|done]. destruct (li_canon _ _ _ Hinv _ _ E) as [_ [j Hj]].
    destruct Hnew. by rewrite (leader_unique C b t i j Hsmall Hb Hin (leaders_grow _ _ _ _ _ Hj)). }
  destruct (office_kept canon s i w w' (leaders b) Hinv Hw (Hstands _ _ Eo)) as [Hof _].
  { intros t0. apply own_lead_role. }
  apply (lead_linv t ds (rs0 ++ rs)); try done.
  - rewrite <- Ht'. apply Hof. congruence.
  - intros t0 c Hc. exists c. rewrite lookup_insert_ne by congruence. done.
  - by rewrite Er, Er0, app_assoc.
  - intros Hlog. apply Forall_app_2.
    + eapply list.Forall_impl; [exact Hrs0|]. by left.
    + rewrite <- node_id, <- Hi. by apply Hsent.
Qed.

Lemma promotes_linv : promotes w o -> exists canon', linv C canon' (log_advance_to s i o new mid).
Proof.
  intros [Hl|(w1&a&w2&Eo&Hp&Hl)]; [by apply logs_linv|].
  assert (w' = w2) as E by (unfold w'; by rewrite Eo). rewrite <- E in *. by eapply promoted_linv.
Qed.

End run.

(** *** The follower's merge *)

Section deliver.
Context `{!Env} (canon : gmap Z View) (s : LogState) (Hinv : linv C canon s).
Context (i : Z) (w : Node) (req : AppendEntriesRequest) (t : Term).
Context (mid : list (Z * (AppendEntriesRequest * Term))) (Hmid : Forall (midway_ok canon (leaders (base s))) mid).
Context (Hw : procs (base s) !! i = Some (Up w)) (Hr : role_ (group_ w) <> LEADER).
Let o := append_phase2 req t w.
Let b := advance (base s) i (after o) [].
Context (Hb : inv C b) (Hplain : plain (final o)).
Context (Hfits : next_free (log_ (group_ w)) + Z.of_nat (length (ae_entries req)) <= UINT32_MAX).

Let Hok : node_log_ok canon (leaders (base s)) i w := li_nodes _ _ _ Hinv _ _ Hw.

Lemma consistent_positive canon' es : consistent canon' (entry_view <$> es) -> positive_terms es.
Proof.
  intros Hc. apply Forall_lookup_2. intros k e He. apply (Hc k (term_ e) (data_ e)). by rewrite list_lookup_fmap, He.
Qed.

(** The second phase runs at [w], which does not lead. *)
Lemma phase2_linv :
  log_wf (log_ (group_ (final o))) -> start_index_ (log_ (group_ (final o))) = 1 ->
  consistent canon (log_view (log_ (group_ (final o)))) ->
  linv C canon (log_advance_to s i o [] mid).
Proof.
  intros Hwf Hst Hv. destruct (follows_append_phase2 req t w) as (_&Hr'&_&_&rs&Er&Hrs). fold o in Hr', Er, Hrs.
  eapply (still_linv canon s Hinv i w o [] mid Hmid); [done|done| |done|done|done|done|congruence|done|].
  - intros a w2 E. apply evolves_stands. pose proof (evolves_append_phase2 req t w) as He. fold o in He.
    by rewrite E in He.
  - apply Hrs; [done| |apply Hplain]. rewrite (nl_snap _ _ _ _ Hok). lia.
Qed.

Context (c : View) (n m : nat).
Context (Hc : consistent canon c) (Hn : ae_prev_log_index req = Z.of_nat n) (Hnc : (n <= length c)%nat).
Context (Hcont : contiguous (Z.of_nat n + 1) (ae_entries req)).
Context (Hes : entry_view <$> ae_entries req = take m (drop n c)).
Context (Hprev : match n with O => True | S k => exists d, c !! k = Some (ae_prev_log_term req, d) end).

Lemma request_positive : positive_terms (ae_entries req).
Proof.
  apply Forall_lookup_2. intros k e He.
  assert ((entry_view <$> ae_entries req) !! k = Some (entry_view e)) as Hv by by rewrite list_lookup_fmap, He.
  rewrite Hes in Hv. apply lookup_take_Some in Hv as [Hv _]. rewrite lookup_drop in Hv. by apply (Hc _ _ _ Hv).
Qed.

Lemma request_slice : entry_view <$> ae_entries req = take (length (ae_entries req)) (drop n c).
Proof.
  rewrite <- (length_fmap entry_view (ae_entries req)), Hes, length_take.
  destruct (decide (m <= length (drop n c))%nat); [by rewrite Nat.min_l|].
  rewrite Nat.min_r, !take_ge by lia. done.
Qed.

(** What the second phase leaves of the log. *)
Lemma phase2_log :
  let l := log_ (group_ (final o)) in
  log_wf l /\ start_index_ l = 1 /\ consistent canon (log_view l).
Proof.
  cbv zeta. unfold o. pose proof (nl_wf _ _ _ _ Hok) as Hwf. pose proof (nl_start _ _ _ _ Hok) as Hst.
  pose proof (nl_view _ _ _ _ Hok) as Hv. pose proof (nl_snap _ _ _ _ Hok) as Hs0.
  assert (group_wf (group_ w)) as Hg.
  { split; [done|by eapply consistent_positive|]. change (snap w < start_index_ (log_ (group_ w))). lia. }
  destruct (decide (n <= length (entries_ (log_ (group_ w))))%nat) as [Hle|Hgt].
  - pose proof (append_phase2_run w req t Hg Hr request_positive) as Hrun. rewrite Hn in Hrun.
    cbv zeta in Hrun. specialize (Hrun Hcont ltac:(rewrite Hst; unfold next_free, log_size; lia) Hfits).
    destruct (decide _) as [|Hm]; [by rewrite Hrun|]. destruct Hrun as (Hwf'&Hst'&Hent&_).
    split_and!; [done|congruence|]. unfold log_view. rewrite Hent, Hst.
    replace (Z.to_nat (Z.of_nat n + 1 - 1)) with n by lia.
    destruct (merge_view canon (entries_ (log_ (group_ w))) (ae_entries req) c n Hv Hc Hle Hnc request_slice)
      with (s := 1) as [-> | ->]; [|done|by apply consistent_take].
    destruct n as [|p]; [done|]. destruct Hprev as [d Hd].
    destruct (lookup_lt_is_Some_2 (entries_ (log_ (group_ w))) p) as [x Hx]; [lia|].
    exists (term_ x), (data_ x), d. rewrite list_lookup_fmap, Hx. split; [done|]. rewrite Hd. do 2 f_equal.
    pose proof (log_term_at (group_ w) p Hg) as Hlt. rewrite Hx, Hst in Hlt.
    replace (1 + Z.of_nat p) with (Z.of_nat (S p)) in Hlt by lia. rewrite Hlt in Hm.
    destruct (decide (term_ x = ae_prev_log_term req)); [done|]. destruct Hm. split; [lia|done].
  - assert (final (append_phase2 req t w) = w) as ->; [|done].
    destruct n as [|p]; [lia|]. destruct Hprev as [d Hd]. pose proof (Hc _ _ _ Hd) as [Hpos _].
    unfold append_phase2. rewrite run_bind, run_getg. unfold id. cbv zeta. destruct (decide _); [done|].
    rewrite decide_True; [done|]. rewrite Hn. split; [lia|].
    pose proof (log_term_at (group_ w) p Hg) as Hlt. rewrite Hst, lookup_ge_None_2 in Hlt by lia.
    replace (Z.of_nat (S p)) with (1 + Z.of_nat p) by lia. rewrite Hlt. lia.
Qed.

End deliver.

Lemma append1_linv `{!Env} canon s i w req :
  linv C canon s -> procs (base s) !! i = Some (Up w) -> deliverable s i req ->
  inv C (advance (base s) i (after (append_phase1 req w)) []) ->
  plain (final (append_phase1 req w)) ->
  exists canon', linv C canon' (log_advance_to s i (append_phase1 req w) [] (passed i req (append_phase1 req w) ++ midway s)).
Proof.
  intros Hinv Hw Hdel Hb Hplain. eapply logs_linv; [done| |done|done| |done|apply logs_append_phase1].
  - apply Forall_app_2; [|apply Hinv]. unfold passed. destruct (value _) as [[|t]|]; try constructor; [|constructor].
    destruct Hdel as [?|[Hs ?]]; [split; by left|]. split; [|by right].
    pose proof (li_sent _ _ _ Hinv) as Ha. rewrite list.Forall_forall in Ha. by apply Ha.
  - intros a w1 E. apply evolves_stands. pose proof (evolves_append_phase1 req w) as He. by rewrite E in He.
Qed.

Lemma append2_linv `{!Env} canon s i w req t l1 l2 :
  linv C canon s -> procs (base s) !! i = Some (Up w) -> midway s = l1 ++ (i, (req, t)) :: l2 ->
  ~ elected_between w req ->
  next_free (log_ (group_ w)) + Z.of_nat (length (ae_entries req)) <= UINT32_MAX ->
  inv C (advance (base s) i (after (append_phase2 req t w)) []) ->
  plain (final (append_phase2 req t w)) ->
  exists canon', linv C canon' (log_advance_to s i (append_phase2 req t w) [] (l1 ++ l2)).
Proof.
  intros Hinv Hw Hmid Hne Hfit Hb Hplain. pose proof (li_midway _ _ _ Hinv) as Hm. rewrite Hmid in Hm.
  apply Forall_app in Hm as [Hm1 Hm2]. apply list.Forall_cons in Hm2 as [[Hreq Hfrom] Hm2]. simpl in Hreq, Hfrom.
  assert (Forall (midway_ok canon (leaders (base s))) (l1 ++ l2)) as Hm by by apply Forall_app_2.
  assert (ae_entries req = [] -> exists canon', linv C canon' (log_advance_to s i (append_phase2 req t w) [] (l1 ++ l2)))
    as Hempty.
  { intros He. eapply logs_linv; [done|done|done|done| |done|by apply logs_append_phase2_empty].
    intros a w1 E. apply evolves_stands. pose proof (evolves_append_phase2 req t w) as Hev. by rewrite E in Hev. }
  destruct (decide (ae_entries req = [])) as [|Hnil]; [by apply Hempty|]. destruct Hfrom as [?|Hfrom]; [done|].
  destruct Hreq as [He|(Hin&c&Hc&[He|(n&m&Hn&Hcont&Hes&Hnc&Hprev)])]; [by apply Hempty..|].
  assert (role_ (group_ w) <> LEADER) as Hr.
  { intros Hlead. destruct (nl_lead _ _ _ _ (li_nodes _ _ _ Hinv _ _ Hw) Hlead) as [_ Hi].
    assert (current_term_ (group_ w) = ae_term req) as Et by (apply dec_stable; intros ?; apply Hne; split_and!; [done|done|intros E; by apply Hnil]).
    rewrite Et in Hi. destruct Hfrom.
    by apply (leader_unique C (base s) (ae_term req) _ _ Hsmall (li_base _ _ _ Hinv)). }
  destruct (phase2_log canon s Hinv i w req t Hw Hr Hfit c n m (proj1 (li_canon _ _ _ Hinv _ _ Hc)) Hn Hnc Hcont Hes
    Hprev) as (Hwf&Hs1&Hv).
  exists canon. by apply (phase2_linv canon s Hinv i w req t (l1 ++ l2) Hm Hw Hr Hb Hplain).
Qed.

(** *** Starting *)

Lemma restore_log_run es :
  contiguous 1 es -> 1 + Z.of_nat (length es) <= UINT32_MAX ->
  let l := restore_log es RaftLog_init in
  log_wf l /\ start_index_ l = 1 /\ entries_ l = es.
Proof.
  intros Hc Hb. cbv zeta.
  assert (forall l, log_wf l -> contiguous (next_free l) es -> next_free l + Z.of_nat (length es) <= UINT32_MAX ->
    let l' := foldl (fun l e => AppendLogEntry e l) l es in
    log_wf l' /\ start_index_ l' = start_index_ l /\ entries_ l' = entries_ l ++ es) as Hfold.
  { clear Hc Hb. induction es as [|e es IH]; intros l Hl Hc Hb; [by rewrite app_nil_r|].
    apply contiguous_cons in Hc as [He Hc]. simpl in Hb.
    destruct (IH (push_entry l e)) as (?&?&Hent).
    - apply push_entry_wf; [done|lia|done].
    - replace (next_free (push_entry l e)) with (next_free l + 1); [done|].
      unfold next_free, log_size. simpl. len.
    - unfold next_free, log_size in *. simpl. len.
    - split_and!; [done|done|]. simpl. unfold AppendLogEntry at 2. rewrite Hent. simpl. by rewrite <- app_assoc. }
  destruct (Hfold RaftLog_init RaftLog_init_wf Hc Hb) as (?&?&?).
  assert (restore_log es RaftLog_init = foldl (fun l e => AppendLogEntry e l) RaftLog_init es) as ->; [|done].
  destruct es as [|e es]; [done|]. unfold restore_log. rewrite decide_False; [done|].
  apply contiguous_cons in Hc as [-> _]. by intros [].
Qed.

(** A step of one node that shows no entries and no office. *)
Lemma start_linv `{!Env} canon s i d w sa :
  linv C canon s -> procs (base s) !! i = Some (Down d) -> env_persister = true -> fresh i d w ->
  log_ (group_ w) = RaftLog_init -> snap w = 0 -> trace_ w = [] ->
  sa_load sa = d -> sa_snapshot sa = None -> readable s i (sa_entries sa) ->
  inv C (advance (base s) i (after_start (Start sa w)) []) ->
  linv C canon (mkLogState (advance (base s) i (after_start (Start sa w)) []) (sent s) (past s) (midway s)).
Proof.
  intros Hinv Hp He Hf Hl Hs0 Ht Hload Hsn (Hcont&Hlen&Hread) Hb. rewrite <- (app_nil_r (sent s)), <- (app_nil_r (past s)).
  apply (advance_linv canon canon s Hinv i); [apply Hinv|done|apply grows_refl|by left| |constructor|constructor].
  intros w' E. assert (Start sa w = Done StOK w') as Hst.
  { revert E. unfold after_start. destruct (Start sa w) as [[|] w2|w2]; [|done..]. by intros [= ->]. }
  destruct (Start_started sa w He ltac:(rewrite Hload; symmetry; apply Hf)) as [_ Hok]. destruct (Hok w' Hst) as [_ Hr].
  destruct (Start_log sa w w' He Hsn Hst) as (El&Es&rs&Er&Hrs). rewrite Hl in El. rewrite Ht in Er.
  destruct (restore_log_run (sa_entries sa) Hcont Hlen) as (Hwf&Hsi&Hent). rewrite <- El in *.
  split; try congruence.
  - unfold log_view. rewrite Hent. destruct Hread as [->|(v&Hv&Hpre)]; [apply consistent_nil|].
    pose proof (li_past _ _ _ Hinv) as Hpast. rewrite list.Forall_forall in Hpast.
    by eapply consistent_prefix, (Hpast _ Hv).
  - rewrite Er. simpl. by apply empty_requests_ok.
Qed.

Context (HC : forall c, IsVoter C c = true -> c <> -1).

Lemma lstep_linv canon s s' : linv C canon s -> lstep C s s' -> exists canon', linv C canon' s'.
Proof.
  intros Hinv Hs. pose proof (li_base _ _ _ Hinv) as Hbase.
  assert (forall i w, procs (base s) !! i = Some (Up w) -> server_id_ (group_ w) <> -1) as Hid.
  { intros i w Hp. destruct (inv_procs _ _ Hbase _ _ Hp) as [? Hok]. simpl in Hok. by rewrite (no_id _ _ _ _ Hok). }
  destruct Hs as [E i w e Hp He Ht Ho Hc Hpl|E i w req Hp He Hdel Hc Hpl|E i w req t l1 l2 Hp He Hm Hel Hfit Hc Hpl|E i w req Hp He Hc Hpl
    |E i w a Hp He Ha Hi Hc Hpl|i w Hp|E i d w sa Hp He Hf Hl Hsn Htr Hload Hsa Hre Hc].
  - pose proof (run_log_event_campaigns e w He Ht (Hid _ _ Hp)) as Hcam.
    eapply promotes_linv; [done|apply Hinv|done|by eapply campaigns_inv, no_answers| |done|by apply run_log_event_promotes].
    intros a w1 E1. apply role_step_stands; [apply Ht|]. by eapply Hcam.
  - apply (append1_linv canon); try done.
    eapply campaigns_inv; [done..|apply evolves_campaigns, evolves_append_phase1|done|apply no_answers].
  - apply (append2_linv canon); try done.
    eapply campaigns_inv; [done..|apply evolves_campaigns, evolves_append_phase2|done|apply no_answers].
  - pose proof (HandleRequestVote_run req w) as [Hev _].
    eapply promotes_linv; [done|apply Hinv|done|by apply vote_inv| |done|left; apply logs_HandleRequestVote].
    intros a w1 E1. rewrite E1 in Hev. by apply evolves_stands.
  - eapply promotes_linv; [done|apply Hinv|done|by apply answer_inv with (w := w)| |done|apply HandleRequestVoteResponse_promotes].
    intros u w1 E1. destruct (HandleRequestVoteResponse_run (va_voter a) (va_resp a) (va_term a) w)
      as [Hev|(_&Hr&_&_&Ht'&_&Hr')]; rewrite E1 in *; [by apply evolves_stands|]. simpl in *.
    intros _. left. split; [|done]. destruct Hr' as [->|[-> _]]; [by left|by right].
  - exists canon. rewrite <- (app_nil_r (sent s)), <- (app_nil_r (past s)).
    apply (advance_linv canon canon s Hinv i); [apply still_running_ok, Hinv|by apply crash_inv|apply grows_refl|by left|done|constructor|constructor].
  - exists canon. eapply start_linv; try done. by eapply start_inv.
Qed.

Lemma lreachable_linv ids s :
  Forall (fun i => i <> -1) ids -> lreachable C ids s -> exists canon, linv C canon s.
Proof.
  intros Hids Hr. induction Hr as [|s s' _ [canon IH] Hs]; [|by eapply lstep_linv].
  exists ∅. split; simpl; [by apply inv_init|set_solver| |constructor|constructor|constructor|].
  - intros i w Hp. by apply elem_of_list_to_map_2, list_elem_of_fmap in Hp as (j&[=]&_).
  - intros t c Hc. by rewrite lookup_empty in Hc.
Qed.

End invariant.

(** ** Properties *)

Lemma consistent_matching canon l l' :
  start_index_ l = 1 -> start_index_ l' = 1 -> consistent canon (log_view l) -> consistent canon (log_view l') ->
  log_matching l l'.
Proof.
  intros Hs Hs' Hv Hv' i x y Hx Hy Ht j x' y' Hj Hx' Hy'.
  apply log_at_inv in Hx as (k&->&Hx), Hy as (k'&Ek&Hy), Hx' as (m&->&Hx'), Hy' as (m'&Em&Hy').
  assert (k' = k /\ m' = m /\ (m <= k)%nat) as (->&->&Hle) by lia.
  assert (take (S k) (log_view l) = take (S k) (log_view l')) as E.
  { apply (consistent_agree canon _ _ _ (term_ x) (data_ x) (data_ y)); [done|done| |];
      unfold log_view; rewrite list_lookup_fmap; [by rewrite Hx|]. rewrite Hy. simpl. unfold entry_view. by rewrite Ht. }
  assert (log_view l !! m = log_view l' !! m) as Em'.
  { rewrite <- (lookup_take_lt (log_view l) (S k)), E, lookup_take_lt by lia. done. }
  unfold log_view in Em'. rewrite !list_lookup_fmap, Hx', Hy' in Em'. simpl in Em'. by injection Em'.
Qed.

(** C2. Log Matching: in every run of a cluster with a fixed membership, without
    snapshots and with logs that fit 32-bit indices, in which nodes crash and
    restart with a prefix of a log they had, messages are delayed, repeated or
    lost, saves may fail, and other handlers run between the two phases of an
    AppendEntries handler, but in which no second phase with entries runs at a
    node that was elected leader for another term since the first
    ([late_phase2_overwrites_leader] shows that the code then breaks its
    leader's log): two nodes whose logs have an entry with the same index and
    term agree on every entry up to it. *)
Theorem cluster_log_matching (C : ClusterConfig) (ids : list Z) (s : LogState) (i j : Z) (w w' : Node)
    (Hsmall : config_small C)
    (Hvoters : forall c, IsVoter C c = true -> c <> -1)
    (Hids : Forall (fun i => i <> -1) ids)
    (Hs : lreachable C ids s)
    (Hi : procs (base s) !! i = Some (Up w)) (Hj : procs (base s) !! j = Some (Up w')) :
  log_matching (log_ (group_ w)) (log_ (group_ w')).
Proof.
  destruct (lreachable_linv C Hsmall Hvoters ids s Hids Hs) as [canon Hinv].
  destruct (li_nodes _ _ _ Hinv _ _ Hi), (li_nodes _ _ _ Hinv _ _ Hj). by apply (consistent_matching canon).
Qed.

(** A run of three nodes: 1 is elected by 2 and appends a command, 2 runs the
    first phase on the request, 1 appends another command, 2 runs the second
    phase, crashes and starts again with what it had stored. *)
#[local] Existing Instance demo_env.

Definition log_up (s : LogState) (i : Z) : Node := demo_up (base s) i.
Definition log_start (s : LogState) (i : Z) (es : list RaftLogEntry) : LogState :=
  mkLogState (advance (base s) i (after_start (Start (mkStartAnswers StOK None None true es StOK) (demo_node i))) [])
    (sent s) (past s) (midway s).
Definition run_0 : LogState := mkLogState (cluster_init demo_ids) [] [] [].
Definition run_1 : LogState := log_start run_0 1 [].
Definition run_2 : LogState := log_start run_1 2 [].
Definition run_3 : LogState :=
  log_advance run_2 1 (run_log_event (LogOther EvElectionTimeout) (log_up run_2 1)) [].
Definition run_vote : Outcome Node RequestVoteResponse :=
  HandleRequestVote (mkRequestVoteRequest 1 1 0 0) (log_up run_3 2).
Definition run_4 : LogState := log_advance run_3 2 run_vote (answer_of 2 (mkRequestVoteRequest 1 1 0 0) run_vote).
Definition run_5 : LogState :=
  log_advance run_4 1 (HandleRequestVoteResponse 2 (mkRequestVoteResponse 1 true) 1 (log_up run_4 1)) [].
Definition run_6 : LogState :=
  log_advance run_5 1 (run_log_event (LogOther (EvPropose "x" None 0 0)) (log_up run_5 1)) [].
Definition run_entry : RaftLogEntry := mkEntry 1 1 "x" "" 0.
Definition run_request : AppendEntriesRequest := mkAppendEntriesRequest 1 1 0 0 [run_entry] 0.
Definition run_accept : Outcome Node (AppendEntriesResponse + Term) := append_phase1 run_request (log_up run_6 2).
Definition run_7 : LogState := log_advance_to run_6 2 run_accept [] (passed 2 run_request run_accept ++ midway run_6).
Definition run_beat : LogEvent := LogOther (EvPropose "y" None 0 0).
Definition run_8 : LogState := log_advance run_7 1 (run_log_event run_beat (log_up run_7 1)) [].
Definition run_9 : LogState := log_advance_to run_8 2 (append_phase2 run_request 1 (log_up run_8 2)) [] [].
Definition run_10 : LogState :=
  mkLogState (advance (base run_9) 2 (Down (disk_ (log_up run_9 2))) []) (sent run_9) (past run_9)
    (still_running 2 (Down (disk_ (log_up run_9 2))) (midway run_9)).
Definition run_node_2 : Node := (demo_node 2) <| disk_ := disk_ (log_up run_9 2) |>.
Definition run_11 : LogState :=
  mkLogState (advance (base run_10) 2 (after_start (Start (mkStartAnswers StOK (disk_ (log_up run_9 2)) None true [run_entry] StOK) run_node_2)) [])
    (sent run_10) (past run_10) (midway run_10).

Lemma run_reachable : lreachable demo_config demo_ids run_11.
Proof.
  apply (lreach_step _ _ run_10); [|
    apply (lstep_start _ _ demo_env 2 (disk_ (log_up run_9 2)) run_node_2 (mkStartAnswers StOK (disk_ (log_up run_9 2)) None true [run_entry] StOK));
      try demo_eval].
  2:{ split_and!; [by intros [|[|k]] e; [intros [= <-]|..]|by vm_compute|]. right.
      exists [(1, "x")]. split; [apply list_elem_of_In; vm_compute; tauto|done]. }
  apply (lreach_step _ _ run_9); [|apply (lstep_crash _ _ 2 (log_up run_9 2)); demo_eval].
  apply (lreach_step _ _ run_8); [|
    apply (lstep_append2 _ _ demo_env 2 (log_up run_8 2) run_request 1 [] []); try demo_eval].
  2:{ intros [Hl _]. vm_compute in Hl. discriminate. }
  2:{ vm_compute. discriminate. }
  apply (lreach_step _ _ run_7); [|
    apply (lstep_event _ _ demo_env 1 (log_up run_7 1) run_beat); try demo_eval; done].
  apply (lreach_step _ _ run_6); [|
    apply (lstep_append1 _ _ demo_env 2 (log_up run_6 2) run_request); try demo_eval].
  2:{ right. split; [apply list_elem_of_In; vm_compute; tauto|done]. }
  apply (lreach_step _ _ run_5); [|
    apply (lstep_event _ _ demo_env 1 (log_up run_5 1) (LogOther (EvPropose "x" None 0 0))); try demo_eval; done].
  apply (lreach_step _ _ run_4); [|
    apply (lstep_answer _ _ demo_env 1 (log_up run_4 1) demo_answer); try demo_eval;
      apply list_elem_of_In; vm_compute; auto].
  apply (lreach_step _ _ run_3); [|
    apply (lstep_vote _ _ demo_env 2 (log_up run_3 2) (mkRequestVoteRequest 1 1 0 0)); demo_eval].
  apply (lreach_step _ _ run_2); [|
    apply (lstep_event _ _ demo_env 1 (log_up run_2 1) (LogOther EvElectionTimeout)); try demo_eval; done].
  apply (lreach_step _ _ run_1); [|
    apply (lstep_start _ _ demo_env 2 None (demo_node 2) (mkStartAnswers StOK None None true [] StOK)); try demo_eval].
  2:{ split_and!; [by intros k e|by vm_compute|by left]. }
  apply (lreach_step _ _ run_0); [apply lreach_init|].
  apply (lstep_start _ _ demo_env 1 None (demo_node 1) (mkStartAnswers StOK None None true [] StOK)); try demo_eval.
  split_and!; [by intros k e|by vm_compute|by left].
Defined.

Lemma cluster_log_matching_witness :
  log_view (log_ (group_ (log_up run_11 1))) = [(1, "x"); (1, "y")] /\
  log_view (log_ (group_ (log_up run_11 2))) = [(1, "x")] /\
  log_matching (log_ (group_ (log_up run_11 1))) (log_ (group_ (log_up run_11 2))).
Proof.
  split; [vm_compute; reflexivity|]. split; [vm_compute; reflexivity|].
  apply (cluster_log_matching demo_config demo_ids run_11 1 2);
    [| | |exact run_reachable|vm_compute; reflexivity|vm_compute; reflexivity].
  - split; vm_compute; reflexivity.
  - intros c. rewrite IsVoter_spec. intros [Hc|[[=] _]]. unfold demo_config, demo_ids in Hc.
    simpl in Hc. rewrite !elem_of_cons, elem_of_nil in Hc. lia.
  - repeat constructor; discriminate.
Defined.

(** ** Why no election may come between the phases *)

(** [HandleAppendEntries] releases the election lock between its phases, and
    the second does not look at the term again.  Node 2 has accepted a request
    of term 2, is elected for term 3 before the second phase runs, and appends
    a command; the second phase then overwrites the new leader's log.  This is
    the interleaving that [elected_between] leaves out of [lstep_append2]. *)
Definition late_request : AppendEntriesRequest := mkAppendEntriesRequest 2 1 0 0 [mkEntry 1 2 "c" "" 0] 0.
Definition late_0 : Node :=
  (log_up run_2 2) <| group_ ::= fun g => (relog (build_log [(1, "a")]) g) <| current_term_ := 1 |> |>.
Definition late_1 : Node := final (append_phase1 late_request late_0).
Definition late_2 : Node := final (OnElectionTimeoutLocked late_1).
Definition late_3 : Node := final (HandleRequestVoteResponse 3 (mkRequestVoteResponse 3 true) 3 late_2).
Definition late_4 : Node := final (Propose "b" None 0 0 late_3).

Lemma late_phase2_overwrites_leader :
  value (append_phase1 late_request late_0) = Some (inr 2) /\
  role_ (group_ late_4) = LEADER /\ current_term_ (group_ late_4) = 3 /\
  log_view (log_ (group_ late_4)) = [(1, "a"); (3, "b")] /\
  role_ (group_ (final (append_phase2 late_request 2 late_4))) = LEADER /\
  log_view (log_ (group_ (final (append_phase2 late_request 2 late_4)))) = [(2, "c")].
Proof. vm_compute. split_and!; reflexivity. Qed.

(** A candidate that hears from the leader of its own term stays a candidate. *)
Lemma candidate_stays_candidate :
  let w := final (HandleAppendEntries (mkAppendEntriesRequest 1 2 0 0 [] 0) (log_up run_3 1)) in
  role_ (group_ (log_up run_3 1)) = CANDIDATE /\ current_term_ (group_ (log_up run_3 1)) = 1 /\
  leader_id_ (group_ w) = 2 /\ role_ (group_ w) = CANDIDATE.
Proof. vm_compute. split_and!; reflexivity. Qed.
