(* ===== verification/LevelPersister.v ===== *)
(** * The LevelDB persister: [src/leveldb_persister.cpp]

    [LevelDBPersister] keeps the log, the persistent state and the snapshot in
    one LevelDB database: an entry under a key that sorts by its index, with a
    CRC32 of its own.  It implements the same interface as the hybrid
    persister; the factory [CreateLevelDBPersister] builds the latter.  The
    hash is that of [Sha256.v], whose code the file repeats. *)

From stdpp Require Import sorting.
From Stdlib Require Import Ascii.
From S2P Require Import Prelude Types Bytes Disk RaftLog Sha256 LevelDb StatePersister.

(** ** Iterators *)

(** [db_range start stop]: the pairs of an iterator from [Seek(start)] while it
    is valid and its key is below [stop], and the error of its [status()], if
    any.  [db_before limit]: the pair it stands on after [Seek(limit)] and
    [Prev()], or [SeekToLast()] when the seek found nothing. *)
Class LevelIter (DB : Type) := {
  db_range : string -> string -> State DB (list (string * bytes) * option string);
  db_before : string -> State DB (option (string * bytes))
}.

(** ** Entries *)

Definition kCrc32Table : list Z :=
  [0x00000000; 0x77073096; 0xee0e612c; 0x990951ba; 0x076dc419; 0x706af48f; 0xe963a535; 0x9e6495a3;
   0x0edb8832; 0x79dcb8a4; 0xe0d5e91e; 0x97d2d988; 0x09b64c2b; 0x7eb17cbd; 0xe7b82d07; 0x90bf1d91;
   0x1db71064; 0x6ab020f2; 0xf3b97148; 0x84be41de; 0x1adad47d; 0x6ddde4eb; 0xf4d4b551; 0x83d385c7;
   0x136c9856; 0x646ba8c0; 0xfd62f97a; 0x8a65c9ec; 0x14015c4f; 0x63066cd9; 0xfa0f3d63; 0x8d080df5;
   0x3b6e20c8; 0x4c69105e; 0xd56041e4; 0xa2677172; 0x3c03e4d1; 0x4b04d447; 0xd20d85fd; 0xa50ab56b;
   0x35b5a8fa; 0x42b2986c; 0xdbbbc9d6; 0xacbcf940; 0x32d86ce3; 0x45df5c75; 0xdcd60dcf; 0xabd13d59;
   0x26d930ac; 0x51de003a; 0xc8d75180; 0xbfd06116; 0x21b4f4b5; 0x56b3c423; 0xcfba9599; 0xb8bda50f;
   0x2802b89e; 0x5f058808; 0xc60cd9b2; 0xb10be924; 0x2f6f7c87; 0x58684c11; 0xc1611dab; 0xb6662d3d;
   0x76dc4190; 0x01db7106; 0x98d220bc; 0xefd5102a; 0x71b18589; 0x06b6b51f; 0x9fbfe4a5; 0xe8b8d433;
   0x7807c9a2; 0x0f00f934; 0x9609a88e; 0xe10e9818; 0x7f6a0dbb; 0x086d3d2d; 0x91646c97; 0xe6635c01;
   0x6b6b51f4; 0x1c6c6162; 0x856530d8; 0xf262004e; 0x6c0695ed; 0x1b01a57b; 0x8208f4c1; 0xf50fc457;
   0x65b0d9c6; 0x12b7e950; 0x8bbeb8ea; 0xfcb9887c; 0x62dd1ddf; 0x15da2d49; 0x8cd37cf3; 0xfbd44c65;
   0x4db26158; 0x3ab551ce; 0xa3bc0074; 0xd4bb30e2; 0x4adfa541; 0x3dd895d7; 0xa4d1c46d; 0xd3d6f4fb;
   0x4369e96a; 0x346ed9fc; 0xad678846; 0xda60b8d0; 0x44042d73; 0x33031de5; 0xaa0a4c5f; 0xdd0d7cc9;
   0x5005713c; 0x270241aa; 0xbe0b1010; 0xc90c2086; 0x5768b525; 0x206f85b3; 0xb966d409; 0xce61e49f;
   0x5edef90e; 0x29d9c998; 0xb0d09822; 0xc7d7a8b4; 0x59b33d17; 0x2eb40d81; 0xb7bd5c3b; 0xc0ba6cad;
   0xedb88320; 0x9abfb3b6; 0x03b6e20c; 0x74b1d29a; 0xead54739; 0x9dd277af; 0x04db2615; 0x73dc1683;
   0xe3630b12; 0x94643b84; 0x0d6d6a3e; 0x7a6a5aa8; 0xe40ecf0b; 0x9309ff9d; 0x0a00ae27; 0x7d079eb1;
   0xf00f9344; 0x8708a3d2; 0x1e01f268; 0x6906c2fe; 0xf762575d; 0x806567cb; 0x196c3671; 0x6e6b06e7;
   0xfed41b76; 0x89d32be0; 0x10da7a5a; 0x67dd4acc; 0xf9b9df6f; 0x8ebeeff9; 0x17b7be43; 0x60b08ed5;
   0xd6d6a3e8; 0xa1d1937e; 0x38d8c2c4; 0x4fdff252; 0xd1bb67f1; 0xa6bc5767; 0x3fb506dd; 0x48b2364b;
   0xd80d2bda; 0xaf0a1b4c; 0x36034af6; 0x41047a60; 0xdf60efc3; 0xa867df55; 0x316e8eef; 0x4669be79;
   0xcb61b38c; 0xbc66831a; 0x256fd2a0; 0x5268e236; 0xcc0c7795; 0xbb0b4703; 0x220216b9; 0x5505262f;
   0xc5ba3bbe; 0xb2bd0b28; 0x2bb45a92; 0x5cb36a04; 0xc2d7ffa7; 0xb5d0cf31; 0x2cd99e8b; 0x5bdeae1d;
   0x9b64c2b0; 0xec63f226; 0x756aa39c; 0x026d930a; 0x9c0906a9; 0xeb0e363f; 0x72076785; 0x05005713;
   0x95bf4a82; 0xe2b87a14; 0x7bb12bae; 0x0cb61b38; 0x92d28e9b; 0xe5d5be0d; 0x7cdcefb7; 0x0bdbdf21;
   0x86d3d2d4; 0xf1d4e242; 0x68ddb3f8; 0x1fda836e; 0x81be16cd; 0xf6b9265b; 0x6fb077e1; 0x18b74777;
   0x88085ae6; 0xff0f6a70; 0x66063bca; 0x11010b5c; 0x8f659eff; 0xf862ae69; 0x616bffd3; 0x166ccf45;
   0xa00ae278; 0xd70dd2ee; 0x4e048354; 0x3903b3c2; 0xa7672661; 0xd06016f7; 0x4969474d; 0x3e6e77db;
   0xaed16a4a; 0xd9d65adc; 0x40df0b66; 0x37d83bf0; 0xa9bcae53; 0xdebb9ec5; 0x47b2cf7f; 0x30b5ffe9;
   0xbdbdf21c; 0xcabac28a; 0x53b39330; 0x24b4a3a6; 0xbad03605; 0xcdd70693; 0x54de5729; 0x23d967bf;
   0xb3667a2e; 0xc4614ab8; 0x5d681b02; 0x2a6f2b94; 0xb40bbe37; 0xc30c8ea1; 0x5a05df1b; 0x2d02ef8d].

Definition ComputeCrc32 (data : bytes) : Z :=
  Z.lxor
    (foldl (fun crc b =>
       Z.lxor (Z.shiftr crc 8) (nth (Z.to_nat (Z.land (Z.lxor crc (byte_val b)) 0xFF)) kCrc32Table 0))
     0xFFFFFFFF data) 0xFFFFFFFF.

Definition kStateKey : string := "state".
Definition kClusterConfigKey : string := "cluster_config".
Definition kLogPrefix : string := "log:".
Definition kSnapshotKey : string := "snapshot".
Definition kLvSnapshotMetaKey : string := "snapshot_meta".
Definition kLvSnapshotHashKey : string := "snapshot_hash".
Definition kLvSnapshotChunkPrefix : string := "snapshot_chunk:".

Definition hex_digit (d : Z) : ascii :=
  ascii_of_N (Z.to_N (if decide (d < 10) then 48 + d else 97 + (d - 10))).

(** ["%0nllx"] of a number with at most [n] digits. *)
Fixpoint hex (n : nat) (z : Z) : string :=
  match n with
  | O => ""
  | S n' => hex n' (z / 16) +:+ String (hex_digit (z mod 16)) ""
  end.

Definition MakeLogKey (index : Z) : string := kLogPrefix +:+ hex 16 (u64 index).

Definition entry_bytes (e : RaftLogEntry) : bytes := String.list_byte_of_string (data_ e).

Definition SerializeEntry (entry : RaftLogEntry) : bytes :=
  let result := le 4 (index_ entry) ++ le 4 (term_ entry) ++
                le 4 (Z.of_nat (length (entry_bytes entry))) ++ entry_bytes entry in
  result ++ le 4 (ComputeCrc32 result).

(** The result and the output parameter, which an entry that is refused may
    have changed. *)
Definition DeserializeEntry (slice : bytes) (entry : RaftLogEntry) : bool * RaftLogEntry :=
  if decide (length slice < 16)%nat then (false, entry)
  else
    let index := le_val (take 4 slice) in
    let term := le_val (take 4 (drop 4 slice)) in
    let data_len := le_val (take 4 (drop 8 slice)) in
    let entry := mkEntry index (term_ entry) (data_ entry) (command_ entry) (checksum_ entry) in
    if decide (Z.of_nat (length slice) <> u32 (16 + data_len)) then (false, entry)
    else
      let stored_checksum := le_val (take 4 (drop (12 + Z.to_nat data_len) slice)) in
      let computed_checksum := ComputeCrc32 (take (Z.to_nat (u32 (12 + data_len))) slice) in
      if decide (computed_checksum <> stored_checksum) then (false, entry)
      else
        (true, mkEntry index term
                 (String.string_of_list_byte (take (Z.to_nat data_len) (drop 12 slice)))
                 (command_ entry) stored_checksum).

(** ** State *)

Record LevelDBPersister (DB : Type) := mkLevelDBPersister {
  (** the database of the directory, and whether [db_] is set *)
  lv_db : DB;
  lv_open : bool;
  lv_cached_state : PersistentState;
  lv_snapshot_last_index : Z;
  lv_snapshot_last_term : Z;
  lv_sync_on_write : bool;
  lv_compression_type : CompressionType
}.
#[global] Instance LevelDBPersister_eta DB : Eta (LevelDBPersister DB) := fun r =>
  mkLevelDBPersister DB (lv_db DB r) (lv_open DB r) (lv_cached_state DB r)
    (lv_snapshot_last_index DB r) (lv_snapshot_last_term DB r) (lv_sync_on_write DB r)
    (lv_compression_type DB r).
Arguments mkLevelDBPersister {DB}.
Arguments lv_db {DB}.
Arguments lv_open {DB}.
Arguments lv_cached_state {DB}.
Arguments lv_snapshot_last_index {DB}.
Arguments lv_snapshot_last_term {DB}.
Arguments lv_sync_on_write {DB}.
Arguments lv_compression_type {DB}.

Definition RaftLogEntry_default : RaftLogEntry := mkEntry 0 0 "" "" 0.

Section persister.
Context {DB : Type} `{!LevelDB DB} `{!LevelIter DB} `{!ClusterJson}.
Notation LV := (LevelDBPersister DB).

Definition LevelDBPersister_new (db : DB) : LV :=
  mkLevelDBPersister db false PersistentState_default 0 0 false kSnappyCompression.

Definition LvSetSyncOnWrite (sync : bool) : State LV unit :=
  updates (fun s => s <| lv_sync_on_write := sync |>).

Definition LvSetCompressionType (type : CompressionType) : State LV unit :=
  updates (fun s => s <| lv_compression_type := type |>).

Definition on_level {A} (m : State DB A) : State LV A := fun s =>
  ((m (lv_db s)).1, s <| lv_db := (m (lv_db s)).2 |>).

Definition lv_not_open : Status := Error1 "Persister not open".

(** The guard of every operation. *)
Definition lv_if_open {A} (k : A) (m : State LV A) : State LV A :=
  o ← reads lv_open;
  if negb o then mret k else m.

(** ** The persistent state *)

(** What is not found or not readable keeps the value it had. *)
Definition LvLoadStateFromDB : State LV unit :=
  value ← on_level (db_get kStateKey);
  (if value is GFound v then
     whenS (bool_decide (length v = 16%nat))
       (updates (fun s => s <| lv_cached_state ::= fun c =>
          c <| p_current_term := le_val (take 4 v) |>
            <| p_voted_for := i32 (le_val (take 4 (drop 8 v))) |> |>))
   else mret tt) ;;
  cluster_value ← on_level (db_get kClusterConfigKey);
  if cluster_value is GFound v then
    if cj_parse v is Some j then updates (fun s => s <| lv_cached_state ::= load_cluster j |>) else mret tt
  else mret tt.

Definition LvOpen : State LV Status :=
  o ← reads lv_open;
  if (o : bool) then mret (Error1 "Persister already open")
  else
    type ← reads lv_compression_type;
    err ← on_level (db_open (if type is kSnappyCompression then true else false));
    if err is Some what then mret (Error1 ("Failed to open LevelDB: " +:+ what))
    else
      updates (fun s => s <| lv_open := true |>) ;;
      LvLoadStateFromDB ;;
      mret StOK.

Definition LvClose : State LV unit :=
  o ← reads lv_open;
  whenS o (on_level db_close) ;;
  updates (fun s => s <| lv_open := false |>).

(** [junk]: what the halves of the buffer that are not written hold. *)
Definition level_state_batch (junk : Z * Z) (st : PersistentState) : list BatchOp :=
  [BPut kStateKey (le 4 (p_current_term st) ++ le 4 junk.1 ++ le 4 (p_voted_for st) ++ le 4 junk.2);
   BPut kClusterConfigKey (cj_dump (cluster_json st))].

Definition LvSaveState (junk : Z * Z) (st : PersistentState) : State LV Status :=
  lv_if_open lv_not_open
    (err ← on_level (db_write true (level_state_batch junk st));
     if err is Some what then mret (Error1 ("Failed to save state: " +:+ what))
     else
       updates (fun s => s <| lv_cached_state := st |>) ;;
       mret StOK).

(** The second component is the state parameter on return. *)
Definition LvLoadState (st : PersistentState) : State LV (Status * PersistentState) :=
  lv_if_open (lv_not_open, st) (c ← reads lv_cached_state; mret (StOK, c)).

(** ** The log *)

Definition LvAppendEntries (entries : list RaftLogEntry) : State LV Status :=
  lv_if_open lv_not_open
    (if decide (entries = []) then mret StOK
     else
       sync ← reads lv_sync_on_write;
       err ← on_level (db_write sync
         (map (fun e => BPut (MakeLogKey (index_ e)) (SerializeEntry e)) entries));
       if err is Some what then mret (Error1 ("Failed to append entries: " +:+ what)) else mret StOK).

(** The entries that can be read; the others are passed over. *)
Definition deserialize_all (pairs : list (string * bytes)) : list RaftLogEntry :=
  omap (fun p => let '(ok, e) := DeserializeEntry p.2 RaftLogEntry_default in
                 if (ok : bool) then Some e else None) pairs.

(** The output vector on return; not open, it is left as it was, here empty. *)
Definition LvGetEntries (start end_ : Z) : State LV (Status * list RaftLogEntry) :=
  lv_if_open (lv_not_open, [])
    (if decide (end_ <= start) then mret (StOK, [])
     else
       r ← on_level (db_range (MakeLogKey start) (MakeLogKey end_));
       let out := deserialize_all r.1 in
       if r.2 is Some what then mret (Error1 ("Failed to read entries: " +:+ what), out)
       else mret (StOK, out)).

(** [entry] is the output parameter. *)
Definition LvGetEntry (index : Z) (entry : RaftLogEntry) : State LV (Status * RaftLogEntry) :=
  lv_if_open (lv_not_open, entry)
    (r ← on_level (db_get (MakeLogKey index));
     match r with
     | GNotFound => mret (Error1 "Entry not found", entry)
     | GFailed what => mret (Error1 ("Failed to get entry: " +:+ what), entry)
     | GFound value =>
         let '(ok, entry) := DeserializeEntry value entry in
         mret (if ok then StOK else Error1 "Failed to deserialize entry", entry)
     end).

(** [log:] with its last character raised. *)
Definition log_limit : string := "log;".

Definition LvGetLastLogInfoLocked : State LV (Z * Z) :=
  lv_if_open (0, 0)
    (r ← on_level (db_before log_limit);
     match r with
     | None => mret (0, 0)
     | Some (key, value) =>
         if negb (String.prefix kLogPrefix key) then mret (0, 0)
         else
           let '(ok, entry) := DeserializeEntry value RaftLogEntry_default in
           mret (if ok then (index_ entry, term_ entry) else (0, 0))
     end).

Definition LvGetLastLogInfo : State LV (Z * Z) := LvGetLastLogInfoLocked.

(** The deletions of the indices from [from] on, [n] of them. *)
Definition delete_log (from n : Z) : list BatchOp := map (fun i => BDelete (MakeLogKey i)) (seqZ from n).

Definition LvTruncateSuffix (from_index : Z) : State LV Status :=
  lv_if_open lv_not_open
    (info ← LvGetLastLogInfoLocked;
     if decide (info.1 < from_index) then mret StOK
     else
       err ← on_level (db_write true (delete_log from_index (info.1 - from_index + 1)));
       if err is Some what then mret (Error1 ("Failed to truncate suffix: " +:+ what)) else mret StOK).

Definition LvTruncatePrefix (before_index : Z) : State LV Status :=
  lv_if_open lv_not_open
    (if decide (before_index <= 1) then mret StOK
     else
       err ← on_level (db_write true (delete_log 1 (before_index - 1)));
       if err is Some what then mret (Error1 ("Failed to truncate prefix: " +:+ what)) else mret StOK).

Definition LvSync : State LV Status :=
  lv_if_open lv_not_open
    (err ← on_level (db_write true []);
     if err is Some what then mret (Error1 ("Sync failed: " +:+ what)) else mret StOK).

(** ** Snapshots *)

Definition lv_set_snapshot (last_index last_term : Z) : State LV unit :=
  updates (fun s => s <| lv_snapshot_last_index := last_index |>
                      <| lv_snapshot_last_term := last_term |>).

Definition LvSaveSnapshot (snapshot_data : bytes) (last_index last_term : Z) : State LV Status :=
  lv_if_open lv_not_open
    (err ← on_level (db_write true
       [BPut kSnapshotKey snapshot_data;
        BPut kLvSnapshotMetaKey (le 8 last_index ++ le 8 last_term);
        BPut kLvSnapshotHashKey (ComputeSha256 snapshot_data)]);
     if err is Some what then mret (Error1 ("Failed to save snapshot: " +:+ what))
     else lv_set_snapshot last_index last_term ;; mret StOK).

Definition LvLoadSnapshot (out : SnapshotOut) : State LV (Status * SnapshotOut) :=
  lv_if_open (lv_not_open, out)
    (r ← on_level (db_get kSnapshotKey);
     match r with
     | GNotFound => mret (Error1 "No snapshot available", out)
     | GFailed what => mret (Error1 ("Failed to load snapshot: " +:+ what), out)
     | GFound data =>
       r ← on_level (db_get kLvSnapshotMetaKey);
       let bad := (Error1 "Failed to load snapshot metadata",
                   mkSnapshotOut data (so_last_index out) (so_last_term out)) in
       match r with
       | GNotFound | GFailed _ => mret bad
       | GFound meta =>
         if decide (length meta <> 16%nat) then mret bad
         else
           let li := le_val (take 8 meta) in
           let lt := le_val (take 8 (drop 8 meta)) in
           r ← on_level (db_get kLvSnapshotHashKey);
           let ok := (StOK, mkSnapshotOut data li lt) in
           match r with
           | GNotFound | GFailed _ => mret ok
           | GFound stored_hash =>
             if decide (length stored_hash = 32%nat) then
               if decide (stored_hash <> ComputeSha256 data) then
                 mret (Error1 "Snapshot integrity check failed: SHA-256 mismatch", mkSnapshotOut [] li lt)
               else mret ok
             else mret ok
           end
       end
     end).

Definition lv_chunk_key (i : Z) : string := kLvSnapshotChunkPrefix +:+ pretty i.

(** The results of the deletions are not looked at. *)
Definition LvDeleteSnapshotData : State LV unit :=
  on_level (db_write false [BDelete kSnapshotKey]) ;;
  on_level (db_write false [BDelete kLvSnapshotMetaKey]) ;;
  on_level (db_write false [BDelete kLvSnapshotHashKey]) ;;
  keys ← on_level (db_scan kLvSnapshotChunkPrefix);
  forS keys (fun k => on_level (db_write false [BDelete k]) ;; mret tt).

(** The loop over the chunks: [inl] the error of a put. *)
Fixpoint lv_save_chunks (chunks : list bytes) (sha_ctx : Sha256Context) (chunk_index : Z) :
    State LV (string + Sha256Context * Z) :=
  match chunks with
  | [] => mret (inr (sha_ctx, chunk_index))
  | chunk :: rest =>
      if decide (chunk = []) then lv_save_chunks rest sha_ctx chunk_index
      else
        err ← on_level (db_write false [BPut (lv_chunk_key chunk_index) chunk]);
        if err is Some what then mret (inl what)
        else lv_save_chunks rest (Sha256Update sha_ctx chunk) (u32 (chunk_index + 1))
  end.

(** [inl] is the exception of the provider, which leaves the function. *)
Definition LvSaveSnapshotStream (provider : ChunkProvider) (last_index last_term : Z) :
    State LV (string + Status) :=
  lv_if_open (inr lv_not_open)
    (LvDeleteSnapshotData ;;
     r ← lv_save_chunks (cp_chunks provider) Sha256Init 0;
     match r with
     | inl what => mret (inr (Error1 ("Failed to save snapshot chunk: " +:+ what)))
     | inr (sha_ctx, chunk_index) =>
       if cp_throws provider is Some what then mret (inl what)
       else if decide (chunk_index = 0) then mret (inr StOK)
       else
         let meta := le 8 last_index ++ le 8 last_term ++ le 4 chunk_index in
         err ← on_level (db_write true
           [BPut kLvSnapshotMetaKey meta; BPut kLvSnapshotHashKey (Sha256Final sha_ctx)]);
         if err is Some what then mret (inr (Error1 ("Failed to save snapshot metadata: " +:+ what)))
         else lv_set_snapshot last_index last_term ;; mret (inr StOK)
     end).

(** One round of the [while (true)] of the load, as in the state persister. *)
Definition lv_load_chunk (chunk_count : option Z) :
    Sha256Context * Z * list bytes ->
    State LV (Sha256Context * Z * list bytes + option string * Sha256Context * list bytes) :=
  fun '(sha_ctx, chunk_index, consumed) =>
  if decide (is_Some chunk_count /\ default 0 chunk_count <= chunk_index)
  then mret (inr (None, sha_ctx, consumed))
  else
    r ← on_level (db_get (lv_chunk_key chunk_index));
    match r with
    | GNotFound => mret (inr (None, sha_ctx, consumed))
    | GFailed what => mret (inr (Some what, sha_ctx, consumed))
    | GFound chunk =>
        mret (inl (Sha256Update sha_ctx chunk, u32 (chunk_index + 1), consumed ++ [chunk]))
    end.

(** The result: the status, the chunks consumed and the output parameters;
    [None] when the loop has not ended after [kMaxLoadRounds] rounds. *)
Definition LvLoadSnapshotStream (last_index last_term : Z) :
    State LV (option (Status * list bytes * Z * Z)) :=
  lv_if_open (Some (lv_not_open, [], last_index, last_term))
    (r ← on_level (db_get kSnapshotKey);
     match r with
     | GFound old_value =>
         r ← LvLoadSnapshot (mkSnapshotOut old_value last_index last_term);
         let '(status, out) := r in
         let consumed := if status_ok status && bool_decide (so_data out <> []) then [so_data out] else [] in
         mret (Some (status, consumed, so_last_index out, so_last_term out))
     | GNotFound | GFailed _ =>
       r ← on_level (db_get kLvSnapshotMetaKey);
       let bad := Some (Error1 "Failed to load snapshot metadata", [], last_index, last_term) in
       match r with
       | GNotFound => mret (Some (Error1 "No snapshot available", [], last_index, last_term))
       | GFailed _ => mret bad
       | GFound meta =>
         if decide (length meta <> 16%nat /\ length meta <> 20%nat) then mret bad
         else
           let li := le_val (take 8 meta) in
           let lt := le_val (take 8 (drop 8 meta)) in
           let chunk_count :=
             if decide (length meta = 20%nat) then Some (le_val (take 4 (drop 16 meta))) else None in
           h ← on_level (db_get kLvSnapshotHashKey);
           let stored_hash := if h is GFound v then v else [] in
           r ← iter_pos (lv_load_chunk chunk_count) kMaxLoadRounds (Sha256Init, 0, []);
           match r with
           | inl _ => mret None
           | inr (Some what, _, consumed) =>
               mret (Some (Error1 ("Failed to load snapshot chunk: " +:+ what), consumed, li, lt))
           | inr (None, sha_ctx, consumed) =>
               if decide (length stored_hash = 32%nat /\ stored_hash <> Sha256Final sha_ctx) then
                 mret (Some (Error1 "Snapshot integrity check failed: SHA-256 mismatch", consumed, li, lt))
               else mret (Some (StOK, consumed, li, lt))
           end
       end
     end).

Definition LvHasSnapshot : State LV bool :=
  lv_if_open false
    (r ← on_level (db_get kSnapshotKey);
     match r with
     | GFound _ => mret true
     | _ =>
       r ← on_level (db_get kLvSnapshotMetaKey);
       mret (if r is GFound _ then true else false)
     end).

End persister.
