(* ===== verification/LevelLog.v ===== *)
(** * The LevelDB persister's log is a finite map

    Keys sort by index, an entry reads back as it was written, and the log
    operations of an open persister are those of a map from indices to
    entries, whatever is called in whatever order.  After a crash the map of
    some earlier moment is found, not before the last [Sync]. *)

From stdpp Require Import sorting.
From Stdlib Require Import Ascii.
From S2P Require Import Prelude Types Bytes DenseIndex Disk RaftLog Quorum RaftGroup Timers Replicate Membership.
From S2P Require Import Text Sha256 LevelDb StatePersister Wal WalScan WalInv WalOpen WalOps WalLog StateDurable LevelPersister.

#[local] Arguments ComputeCrc32 : simpl never.
#[local] Arguments SerializeEntry : simpl never.
#[local] Arguments DeserializeEntry : simpl never.
#[local] Arguments MakeLogKey : simpl never.

(** ** The order of the keys *)

Definition key_lt (a b : string) : Prop := String.compare a b = Lt.

(** What the documentation says of iterators: keys come in order, and [status]
    tells whether all of them came. *)
Class LevelIterLaws (DB : Type) `{!LevelDB DB} `{!LevelIter DB} `{!LevelDBLaws DB} := {
  range_map a b db : db_map (db_range a b db).2 = db_map db;
  range_survives a b db m : survives (db_range a b db).2 m -> survives db m;
  range_sorted a b db : StronglySorted key_lt (db_range a b db).1.1.*1;
  range_pairs a b db :
    (db_range a b db).1.2 = None -> forall k v,
      (k, v) ∈ (db_range a b db).1.1 <-> db_map db !! k = Some v /\ ~ key_lt k a /\ key_lt k b;
  before_map a db : db_map (db_before a db).2 = db_map db;
  before_survives a db m : survives (db_before a db).2 m -> survives db m;
  before_pair a db k v :
    (db_before a db).1 = Some (k, v) ->
    db_map db !! k = Some v /\ key_lt k a /\
    forall k', key_lt k' a -> is_Some (db_map db !! k') -> ~ key_lt k k';
  before_none a db :
    db_healthy db -> (db_before a db).1 = None -> forall k, key_lt k a -> db_map db !! k = None;
  healthy_range a b db :
    db_healthy db -> (db_range a b db).1.2 = None /\ db_healthy (db_range a b db).2;
  healthy_before a db : db_healthy db -> db_healthy (db_before a db).2;
  healthy_write s ops db : db_healthy db -> (db_write s ops db).1 = None /\ db_healthy (db_write s ops db).2
}.

Lemma compare_refl s : String.compare s s = Eq.
Proof. induction s as [|c s IH]; [done|]. simpl. unfold Ascii.compare. by rewrite N.compare_refl. Qed.

Lemma compare_app s s' t t' :
  String.length s = String.length s' ->
  String.compare (s +:+ t) (s' +:+ t') =
    match String.compare s s' with Eq => String.compare t t' | c => c end.
Proof.
  revert s'. induction s as [|c s IH]; intros [|c' s'] Hl; try done. simpl in Hl. injection Hl as Hl.
  change (String c s +:+ t) with (String c (s +:+ t)). change (String c' s' +:+ t') with (String c' (s' +:+ t')).
  cbn [String.compare]. destruct (Ascii.compare c c'); [by apply IH|done|done].
Qed.

Lemma length_hex n z : String.length (hex n z) = n.
Proof.
  revert z. induction n as [|n IH]; intros z; [done|]. cbn [hex]. rewrite length_str_app, IH. simpl. lia.
Qed.

Lemma hex_digit_compare a b :
  0 <= a < 16 -> 0 <= b < 16 -> Ascii.compare (hex_digit a) (hex_digit b) = (a ?= b).
Proof.
  intros Ha Hb.
  assert (forallb (fun a => forallb (fun b => bool_decide (Ascii.compare (hex_digit a) (hex_digit b) = (a ?= b)))
    (seqZ 0 16)) (seqZ 0 16) = true) as H by by vm_compute.
  rewrite forallb_forall in H. specialize (H a). rewrite forallb_forall in H.
  apply (bool_decide_eq_true_1 (Ascii.compare (hex_digit a) (hex_digit b) = (a ?= b))).
  apply H; apply list_elem_of_In, elem_of_seqZ; lia.
Qed.

(** Fixed width hexadecimal sorts as the numbers. *)
Lemma hex_compare n a b :
  0 <= a < 16 ^ Z.of_nat n -> 0 <= b < 16 ^ Z.of_nat n -> String.compare (hex n a) (hex n b) = (a ?= b).
Proof.
  revert a b. induction n as [|n IH]; intros a b Ha Hb; cbn [hex].
  { simpl in *. replace a with 0 by lia. replace b with 0 by lia. done. }
  rewrite Nat2Z.inj_succ, Z.pow_succ_r in Ha, Hb by lia.
  rewrite compare_app by by rewrite !length_hex.
  rewrite IH by (split; [apply Z.div_pos; lia|apply Z.div_lt_upper_bound; lia]).
  pose proof (Z.mod_pos_bound a 16). pose proof (Z.mod_pos_bound b 16).
  pose proof (Z.div_mod a 16). pose proof (Z.div_mod b 16).
  destruct (Z.compare_spec (a / 16) (b / 16)) as [E|E|E]; symmetry.
  - cbn [String.compare]. rewrite hex_digit_compare by lia.
    destruct (Z.compare_spec (a mod 16) (b mod 16)); [apply Z.compare_eq_iff|apply Z.compare_lt_iff|
      apply Z.compare_gt_iff]; lia.
  - apply Z.compare_lt_iff. lia.
  - apply Z.compare_gt_iff. lia.
Qed.

Lemma MakeLogKey_compare i j :
  is_u64 i -> is_u64 j -> String.compare (MakeLogKey i) (MakeLogKey j) = (i ?= j).
Proof.
  intros Hi Hj. unfold MakeLogKey. rewrite compare_app by done. rewrite compare_refl.
  unfold is_u64, UINT64_MAX in *. rewrite !u64_small by (unfold UINT64_MAX; lia).
  apply hex_compare; simpl; lia.
Qed.

Lemma MakeLogKey_inj i j : is_u64 i -> is_u64 j -> MakeLogKey i = MakeLogKey j -> i = j.
Proof.
  intros Hi Hj E. apply Z.compare_eq_iff. rewrite <- MakeLogKey_compare by done. rewrite E. apply compare_refl.
Qed.

Lemma key_lt_trans a b c : key_lt a b -> key_lt b c -> key_lt a c.
Proof.
  unfold key_lt. revert b c. induction a as [|x a IH]; intros [|y b] [|z c]; try done. cbn [String.compare].
  unfold Ascii.compare. destruct (N.compare_spec (N_of_ascii x) (N_of_ascii y)) as [E|E|E],
    (N.compare_spec (N_of_ascii y) (N_of_ascii z)) as [E'|E'|E']; try done; intros Hab Hbc.
  - rewrite E, E', N.compare_refl. by eapply IH.
  - rewrite E. apply N.compare_lt_iff in E'. by rewrite E'.
  - rewrite <- E'. apply N.compare_lt_iff in E. by rewrite E.
  - assert (N.lt (N_of_ascii x) (N_of_ascii z)) as ->%N.compare_lt_iff by lia. done.
Qed.

Lemma key_lt_irrefl a : ~ key_lt a a.
Proof. unfold key_lt. by rewrite compare_refl. Qed.

Lemma key_lt_total a b : key_lt a b \/ a = b \/ key_lt b a.
Proof.
  unfold key_lt. destruct (String.compare a b) eqn:E; [right; left; by apply String.compare_eq_iff|by left|].
  right; right. rewrite String.compare_antisym, E. done.
Qed.

Lemma log_key_prefix i : String.prefix kLogPrefix (MakeLogKey i) = true.
Proof. unfold MakeLogKey, kLogPrefix. by destruct (hex 16 (u64 i)). Qed.

Lemma log_key_below i : key_lt (MakeLogKey i) log_limit.
Proof. done. Qed.

Lemma key_lt_cons x a y b :
  key_lt (String x a) (String y b) <-> N.lt (N_of_ascii x) (N_of_ascii y) \/ x = y /\ key_lt a b.
Proof.
  unfold key_lt. cbn [String.compare]. unfold Ascii.compare.
  destruct (N.compare_spec (N_of_ascii x) (N_of_ascii y)) as [E|E|E].
  - apply (f_equal ascii_of_N) in E. rewrite !ascii_N_embedding in E. subst y. split; [by right|].
    intros [?|[_ ?]]; [lia|done].
  - split; [by left|done].
  - split; [done|]. intros [?|[-> _]]; lia.
Qed.

Lemma key_lt_nil y b : key_lt "" (String y b).
Proof. done. Qed.

(** What is below the limit of the log keys but not one of them is below them
    all. *)
Lemma below_log_keys k i : key_lt k log_limit -> String.prefix kLogPrefix k = false -> key_lt k (MakeLogKey i).
Proof.
  unfold log_limit, MakeLogKey, kLogPrefix. intros Hk Hp.
  change ("log:" +:+ hex 16 (u64 i)) with (String "l" (String "o" (String "g" (String ":" (hex 16 (u64 i)))))).
  destruct k as [|a k]; [done|]. apply key_lt_cons. apply key_lt_cons in Hk as [?|[-> Hk]]; [by left|]. right. split; [done|].
  destruct k as [|b k]; [done|]. apply key_lt_cons. apply key_lt_cons in Hk as [?|[-> Hk]]; [by left|]. right. split; [done|].
  destruct k as [|c k]; [done|]. apply key_lt_cons. apply key_lt_cons in Hk as [?|[-> Hk]]; [by left|]. right. split; [done|].
  destruct k as [|d k]; [done|]. apply key_lt_cons. apply key_lt_cons in Hk as [Hd|[-> Hk]]; [|by destruct k]. left.
  assert (d <> ":"%char) as Hne by (intros ->; by destruct k).
  destruct (N.lt_trichotomy (N_of_ascii d) (N_of_ascii ":")) as [?|[E|Hgt]]; [done| |].
  - destruct Hne. apply (f_equal ascii_of_N) in E. by rewrite !ascii_N_embedding in E.
  - change (N_of_ascii ";") with 59%N in Hd. change (N_of_ascii ":") with 58%N in Hgt. lia.
Qed.

(** ** Entries read back *)

Definition entry_fits (e : RaftLogEntry) : Prop :=
  1 <= index_ e <= UINT32_MAX /\ is_u32 (term_ e) /\ 16 + Z.of_nat (String.length (data_ e)) <= UINT32_MAX.

Definition entry_head (e : RaftLogEntry) : bytes :=
  le 4 (index_ e) ++ le 4 (term_ e) ++ le 4 (Z.of_nat (length (entry_bytes e))) ++ entry_bytes e.

(** What a stored entry reads back as. *)
Definition read_back (e : RaftLogEntry) : RaftLogEntry :=
  mkEntry (index_ e) (term_ e) (data_ e) "" (ComputeCrc32 (entry_head e)).

Lemma ComputeCrc32_same data : ComputeCrc32 data = ComputeCRC32 data.
Proof. reflexivity. Qed.

Lemma length_entry_bytes e : length (entry_bytes e) = String.length (data_ e).
Proof.
  unfold entry_bytes, String.list_byte_of_string. rewrite length_map.
  induction (data_ e) as [|c s IH]; simpl; [done|]. by rewrite IH.
Qed.

Lemma take_app_exact {A} n (l k : list A) : length l = n -> take n (l ++ k) = l.
Proof. intros <-. apply take_app_length. Qed.
Lemma drop_app_exact {A} n (l k : list A) : length l = n -> drop n (l ++ k) = k.
Proof. intros <-. apply drop_app_length. Qed.

Lemma DeserializeEntry_Serialize e d :
  entry_fits e -> DeserializeEntry (SerializeEntry e) d =
    (true, mkEntry (index_ e) (term_ e) (data_ e) (command_ d) (ComputeCrc32 (entry_head e))).
Proof.
  intros (Hi&Ht&Hl). set (n := length (entry_bytes e)).
  assert (16 + Z.of_nat n <= UINT32_MAX) as Hn by (unfold n; rewrite length_entry_bytes; done).
  assert (length (entry_head e) = (12 + n)%nat) as Hlen by (unfold entry_head; rewrite !length_app, !length_le; fold n; lia).
  assert (SerializeEntry e = entry_head e ++ le 4 (ComputeCrc32 (entry_head e))) as E by done.
  assert (length (SerializeEntry e) = (16 + n)%nat) as Hs by (rewrite E, length_app, length_le; lia).
  unfold DeserializeEntry. rewrite decide_False by lia.
  assert (take 4 (SerializeEntry e) = le 4 (index_ e)) as ->.
  { rewrite E. unfold entry_head. rewrite <- !app_assoc. by apply take_app_exact, length_le. }
  assert (take 4 (drop 4 (SerializeEntry e)) = le 4 (term_ e)) as ->.
  { rewrite E. unfold entry_head. rewrite <- !app_assoc, drop_app_exact by apply length_le.
    by apply take_app_exact, length_le. }
  assert (take 4 (drop 8 (SerializeEntry e)) = le 4 (Z.of_nat n)) as ->.
  { rewrite E. unfold entry_head. rewrite app_assoc, <- !app_assoc, app_assoc.
    rewrite drop_app_exact by (rewrite length_app, !length_le; done). by apply take_app_exact, length_le. }
  rewrite (le32 (index_ e)), (le32 (term_ e)), (le32 (Z.of_nat n)) by (unfold is_u32 in *; lia).
  cbv zeta. rewrite u32_small by lia. rewrite decide_False by lia. rewrite u32_small, !Nat2Z.id by lia.
  assert (take (Z.to_nat (12 + Z.of_nat n)) (SerializeEntry e) = entry_head e) as ->.
  { rewrite E. apply take_app_exact. lia. }
  assert (drop (12 + n) (SerializeEntry e) = le 4 (ComputeCrc32 (entry_head e))) as ->.
  { rewrite E. by apply drop_app_exact. }
  rewrite take_ge by (rewrite length_le; lia).
  rewrite le32 by (rewrite ComputeCrc32_same; apply u32_ComputeCRC32). rewrite decide_False by auto.
  assert (take n (drop 12 (SerializeEntry e)) = entry_bytes e) as ->.
  { rewrite E. unfold entry_head. rewrite !app_assoc. rewrite <- (app_assoc _ (entry_bytes e)).
    rewrite drop_app_exact by (rewrite !length_app, !length_le; done). by apply take_app_exact. }
  unfold entry_bytes. by rewrite String.string_of_list_byte_of_string.
Qed.

(** ** The log in the database *)

Notation Log := (gmap Z RaftLogEntry).

Definition log_fits (L : Log) : Prop := forall i e, L !! i = Some e -> index_ e = i /\ entry_fits e.

Definition level_stores (m : gmap string bytes) (L : Log) : Prop :=
  (forall i, is_u64 i -> m !! MakeLogKey i = SerializeEntry <$> L !! i) /\
  (forall k, String.prefix kLogPrefix k = true -> is_Some (m !! k) -> exists i, is_u64 i /\ k = MakeLogKey i).

Definition put_entry (e : RaftLogEntry) : BatchOp := BPut (MakeLogKey (index_ e)) (SerializeEntry e).

Lemma log_fits_u64 L i e : log_fits L -> L !! i = Some e -> is_u64 i.
Proof. intros HL Hi. destruct (HL i e Hi) as (<-&H&_). unfold is_u64, UINT64_MAX, UINT32_MAX in *. lia. Qed.

Lemma log_fits_insert L e : log_fits L -> entry_fits e -> log_fits (<[index_ e := e]> L).
Proof. intros HL He i x [[<- <-]|[_ Hx]]%lookup_insert_Some; [done|by apply HL]. Qed.

Lemma log_fits_filter L (P : Z * RaftLogEntry -> Prop) `{!forall x, Decision (P x)} : log_fits L -> log_fits (filter P L).
Proof. intros HL i e [Hi _]%map_lookup_filter_Some. by apply HL. Qed.

Lemma stores_put m L e : level_stores m L -> entry_fits e ->
  level_stores (apply_op m (put_entry e)) (<[index_ e := e]> L).
Proof.
  intros [Hm Hk] He. assert (is_u64 (index_ e)) as Hu.
  { destruct He as (H&_). unfold is_u64, UINT64_MAX, UINT32_MAX in *. lia. }
  split; simpl.
  - intros i Hi. destruct (decide (i = index_ e)) as [->|Hne]; [by rewrite !lookup_insert_eq|].
    rewrite !lookup_insert_ne; [by apply Hm|done|]. intros E. by apply MakeLogKey_inj in E.
  - intros k Hp. destruct (decide (k = MakeLogKey (index_ e))) as [->|Hne]; [by exists (index_ e)|].
    rewrite lookup_insert_ne by done. by apply Hk.
Qed.

Lemma stores_puts m L es :
  level_stores m L -> log_fits L -> Forall entry_fits es ->
  let L' := foldl (fun L e => <[index_ e := e]> L) L es in
  level_stores (apply_batch (map put_entry es) m) L' /\ log_fits L'.
Proof.
  revert m L. induction es as [|e es IH]; intros m L Hm HL Hes; [done|].
  apply list.Forall_cons in Hes as [He Hes]. apply IH; [by apply stores_put|by apply log_fits_insert|done].
Qed.

Lemma delete_log_lookup from n m i :
  is_u64 from -> from + n - 1 <= UINT64_MAX -> is_u64 i ->
  apply_batch (delete_log from n) m !! MakeLogKey i =
    if decide (from <= i < from + n) then None else m !! MakeLogKey i.
Proof.
  intros Hf Hn Hi. unfold delete_log.
  assert (forall js m, Forall is_u64 js -> apply_batch (map (fun i => BDelete (MakeLogKey i)) js) m !! MakeLogKey i =
    if decide (i ∈ js) then None else m !! MakeLogKey i) as Hd.
  { induction js as [|j js IH]; intros m0 Hj; [by rewrite decide_False by set_solver|].
    apply list.Forall_cons in Hj as [Hj Hjs]. cbn [map apply_batch foldl].
    change (foldl apply_op ?x ?l) with (apply_batch l x). rewrite IH by done. simpl apply_op.
    destruct (decide (i ∈ js)); [rewrite decide_True by set_solver; done|].
    destruct (decide (i = j)) as [->|Hne]; [rewrite decide_True by set_solver; apply lookup_delete_eq|].
    rewrite decide_False by set_solver. apply lookup_delete_ne. intros E. by apply MakeLogKey_inj in E. }
  rewrite Hd.
  - destruct (decide (from <= i < from + n)) as [H|H]; [rewrite decide_True|rewrite decide_False]; try done;
      rewrite elem_of_seqZ; lia.
  - apply list.Forall_forall. intros j [? ?]%elem_of_seqZ. unfold is_u64 in *. lia.
Qed.

Lemma stores_delete from n m L :
  is_u64 from -> from + n - 1 <= UINT64_MAX -> level_stores m L ->
  level_stores (apply_batch (delete_log from n) m) (filter (fun p => ~ (from <= p.1 < from + n)) L).
Proof.
  intros Hf Hn [Hm Hk]. split.
  - intros i Hi. rewrite delete_log_lookup by done. rewrite map_lookup_filter.
    destruct (decide (from <= i < from + n)) as [H|H].
    + destruct (L !! i); simpl; [|done]. by rewrite option_guard_False by tauto.
    + rewrite Hm by done. destruct (L !! i); simpl; [|done]. by rewrite option_guard_True by tauto.
  - intros k Hp Hs. apply Hk; [done|]. destruct (apply_batch _ m !! k) eqn:E; [|by destruct Hs].
    destruct (decide (k ∈ map batch_key (delete_log from n))) as [Hin|Hin]; [|by rewrite apply_batch_other in E by done].
    unfold delete_log in Hin. rewrite map_map in Hin. apply list_elem_of_In, in_map_iff in Hin as (j&<-&Hj).
    apply list_elem_of_In, elem_of_seqZ in Hj. cbn [batch_key] in E. rewrite delete_log_lookup in E by (unfold is_u64 in *; lia).
    by rewrite decide_True in E by lia.
Qed.

(** ** The operations *)

Inductive LevelCall :=
| LcAppend (entries : list RaftLogEntry)
| LcSuffix (from_index : Z)
| LcPrefix (before_index : Z)
| LcSync
| LcSetSync (sync : bool)
| LcGet (index : Z)
| LcRange (start end_ : Z)
| LcLast.

Inductive LevelAnswer :=
| LaStatus (status : Status)
| LaDone
| LaEntry (status : Status) (entry : RaftLogEntry)
| LaEntries (status : Status) (entries : list RaftLogEntry)
| LaInfo (index term : Z).

Definition call_fits (c : LevelCall) : Prop :=
  match c with
  | LcAppend es => Forall entry_fits es
  | LcSuffix i | LcPrefix i | LcGet i => is_u64 i
  | LcRange a b => is_u64 a /\ is_u64 b
  | LcSync | LcSetSync _ | LcLast => True
  end.

(** The log after a call. *)
Definition log_after (L : Log) (c : LevelCall) : Log :=
  match c with
  | LcAppend es => foldl map_op L (map (fun e => log_op (CEntry e)) es)
  | LcSuffix f => map_op L (log_op (CSuffix f))
  | LcPrefix b => map_op L (log_op (CPrefix b))
  | _ => L
  end.

(** What a call answers when the log is [L]. *)
Definition answers (L : Log) (c : LevelCall) (a : LevelAnswer) : Prop :=
  match c, a with
  | (LcAppend _ | LcSuffix _ | LcPrefix _ | LcSync), LaStatus st => st = StOK
  | LcSetSync _, LaDone => True
  | LcGet i, LaEntry st e =>
      match L !! i with
      | Some x => st = StOK /\ e = read_back x
      | None => st = Error1 "Entry not found" /\ e = RaftLogEntry_default
      end
  | LcRange a b, LaEntries st es =>
      st = StOK /\ StronglySorted (fun x y => index_ x < index_ y) es /\
      forall x, x ∈ es <-> exists i e, a <= i < b /\ L !! i = Some e /\ x = read_back e
  | LcLast, LaInfo i t =>
      (L = ∅ /\ i = 0 /\ t = 0) \/
      exists e, L !! i = Some e /\ t = term_ e /\ forall j, is_Some (L !! j) -> j <= i
  | _, _ => False
  end.

Section operations.
Context {DB : Type} `{!LevelDB DB} `{!LevelIter DB} `{!LevelDBLaws DB} `{!LevelIterLaws DB}.
Notation LV := (LevelDBPersister DB).

Definition level_call (c : LevelCall) : State LV LevelAnswer :=
  match c with
  | LcAppend es => st ← LvAppendEntries es; mret (LaStatus st)
  | LcSuffix f => st ← LvTruncateSuffix f; mret (LaStatus st)
  | LcPrefix b => st ← LvTruncatePrefix b; mret (LaStatus st)
  | LcSync => st ← LvSync; mret (LaStatus st)
  | LcSetSync b => LvSetSyncOnWrite b ;; mret LaDone
  | LcGet i => r ← LvGetEntry i RaftLogEntry_default; mret (LaEntry r.1 r.2)
  | LcRange a b => r ← LvGetEntries a b; mret (LaEntries r.1 r.2)
  | LcLast => r ← LvGetLastLogInfo; mret (LaInfo r.1 r.2)
  end.

Fixpoint level_run (cs : list LevelCall) : State LV (list LevelAnswer) :=
  match cs with
  | [] => mret []
  | c :: cs => a ← level_call c; rest ← level_run cs; mret (a :: rest)
  end.

(** An open persister whose database works and holds [L]. *)
Record level_ok (s : LV) (L : Log) : Prop := mkLevelOk {
  lo_open : lv_open s = true;
  lo_healthy : db_healthy (lv_db s);
  lo_stores : level_stores (db_map (lv_db s)) L;
  lo_fits : log_fits L
}.

(** What a step does: the log becomes [L'], and a crash finds what it could
    find before, or [L']. *)
Definition level_step (s s' : LV) (L' : Log) : Prop :=
  level_ok s' L' /\
  forall m, survives (lv_db s') m -> survives (lv_db s) m \/ level_stores m L'.

Lemma lv_if_open_run {A} (k : A) (m : State LV A) s : lv_open s = true -> lv_if_open k m s = m s.
Proof. intros Ho. unfold lv_if_open. st. by rewrite Ho. Qed.

Lemma level_read_step {A} (m : State DB A) s L :
  level_ok s L -> db_map (m (lv_db s)).2 = db_map (lv_db s) ->
  (forall x, survives (m (lv_db s)).2 x -> survives (lv_db s) x) -> db_healthy (m (lv_db s)).2 ->
  level_step s (on_level m s).2 L.
Proof. intros [] E Hs Hh. split; [split; simpl; try done; by rewrite E|]. intros x Hx. left. by apply Hs. Qed.

(** Every write of the persister, and what follows it. *)
Lemma level_write_step sync ops s L L' (k : string -> Status) :
  level_ok s L -> level_stores (apply_batch ops (db_map (lv_db s))) L' -> log_fits L' ->
  let r := (err ← on_level (db_write sync ops); if err is Some what then mret (k what) else mret StOK) s in
  r.1 = StOK /\ level_step s r.2 L' /\
  (sync = true -> forall m, survives (lv_db r.2) m -> level_stores m L').
Proof.
  intros [Ho Hh Hst Hf] Hst' Hf'. cbv zeta. destruct (healthy_write sync ops (lv_db s) Hh) as [Hn Hh'].
  unfold on_level. st. rewrite Hn. cbn [fst snd]. st. split; [done|]. split; [split; [split; simpl; try done|]|].
  - rewrite write_map, Hn. done.
  - intros m [?| ->]%write_survives; auto.
  - intros -> m Hm. simpl in Hm. by rewrite (write_synced _ _ _ Hn Hm).
Qed.

Lemma foldl_puts L es :
  foldl map_op L (map (fun e => log_op (CEntry e)) es) = foldl (fun L e => <[index_ e := e]> L) L es.
Proof. revert L. induction es as [|e es IH]; intros L; [done|]. apply IH. Qed.

Lemma level_append_step es s L :
  level_ok s L -> Forall entry_fits es ->
  (LvAppendEntries es s).1 = StOK /\ level_step s (LvAppendEntries es s).2 (log_after L (LcAppend es)).
Proof.
  intros Hs Hes. unfold LvAppendEntries. rewrite lv_if_open_run by apply Hs. cbn [log_after]. rewrite foldl_puts.
  destruct (decide _) as [->|Hne]; [split; [done|]; split; [done|]; by left|]. st.
  destruct (stores_puts _ _ es (lo_stores _ _ Hs) (lo_fits _ _ Hs) Hes) as [Hst Hf].
  destruct (level_write_step (lv_sync_on_write s) _ s L _ (fun what => Error1 ("Failed to append entries: " +:+ what)) Hs Hst Hf)
    as (H1&H2&_). by split.
Qed.

Lemma level_sync_step s L :
  level_ok s L ->
  (LvSync s).1 = StOK /\ level_step s (LvSync s).2 L /\ forall m, survives (lv_db (LvSync s).2) m -> level_stores m L.
Proof.
  intros Hs. unfold LvSync. rewrite lv_if_open_run by apply Hs.
  destruct (level_write_step true [] s L L (fun what => Error1 ("Sync failed: " +:+ what)) Hs (lo_stores _ _ Hs) (lo_fits _ _ Hs))
    as (H1&H2&H3). split_and!; [done|done|by apply H3].
Qed.


(** The last pair before the limit is the last entry of the log. *)
Lemma level_last_step s L :
  level_ok s L ->
  level_step s (LvGetLastLogInfoLocked s).2 L /\
  answers L LcLast (LaInfo (LvGetLastLogInfoLocked s).1.1 (LvGetLastLogInfoLocked s).1.2).
Proof.
  intros Hs. unfold LvGetLastLogInfoLocked. rewrite lv_if_open_run by apply Hs. st.
  pose proof (level_read_step (db_before log_limit) s L Hs (before_map _ _) (before_survives _ _)
    (healthy_before _ _ (lo_healthy _ _ Hs))) as Hstep.
  destruct Hs as [Ho Hh [Hm Hk] Hf]. change ((on_level (db_before log_limit) s).1) with ((db_before log_limit (lv_db s)).1).
  assert (forall i e, L !! i = Some e -> db_map (lv_db s) !! MakeLogKey i = Some (SerializeEntry e)) as Hin.
  { intros i e Hi. rewrite Hm by by eapply log_fits_u64. by rewrite Hi. }
  destruct ((db_before log_limit (lv_db s)).1) as [[k v]|] eqn:E; cbn [fst snd].
  - destruct (before_pair _ _ _ _ E) as (Hkv&Hlt&Hmax).
    destruct (String.prefix kLogPrefix k) eqn:Hp; cbn [negb].
    + destruct (Hk k Hp ltac:(by eexists)) as (i&Hi&->). rewrite Hm in Hkv by done.
      apply fmap_Some in Hkv as (e&He&->). destruct (Hf i e He) as [Ei He'].
      rewrite DeserializeEntry_Serialize by done. st. split; [exact Hstep|]. simpl. right. exists e. rewrite Ei.
      split_and!; [done|done|]. intros j [x Hj]. pose proof (Hin j x Hj) as Hkj.
      specialize (Hmax (MakeLogKey j) (log_key_below j) ltac:(by eexists)). unfold key_lt in Hmax.
      rewrite MakeLogKey_compare in Hmax by (try done; by eapply log_fits_u64). apply Z.nlt_ge. intros Hij. by apply Hmax, Z.compare_lt_iff.
    + st. split; [exact Hstep|]. simpl. left. split; [|done]. apply map_empty. intros i.
      destruct (L !! i) as [e|] eqn:He; [|done]. pose proof (below_log_keys k i Hlt Hp) as Hki.
      by destruct (Hmax (MakeLogKey i) (log_key_below i) ltac:(by eexists; apply Hin)).
  - st. split; [exact Hstep|]. simpl. left. split; [|done]. apply map_empty. intros i.
    destruct (L !! i) as [e|] eqn:He; [|done]. pose proof (before_none _ _ Hh E _ (log_key_below i)) as Hnone.
    rewrite (Hin i e He) in Hnone. done.
Qed.

Lemma level_step_trans s s1 s2 L L' : level_step s s1 L -> level_step s1 s2 L' ->
  (forall m, survives (lv_db s1) m -> survives (lv_db s) m) -> level_step s s2 L'.
Proof. intros [_ H1] [Hok H2] Hs. split; [done|]. intros m [?|?]%H2; auto. Qed.

Lemma level_last_survives s m : survives (lv_db (LvGetLastLogInfoLocked s).2) m -> survives (lv_db s) m.
Proof.
  unfold LvGetLastLogInfoLocked, lv_if_open. st. destruct (lv_open s); cbn [negb]; [|done]. st.
  change ((on_level (db_before log_limit) s).2) with (s <| lv_db := (db_before log_limit (lv_db s)).2 |>).
  destruct ((on_level (db_before log_limit) s).1) as [[k v]|]; [|apply before_survives].
  destruct (negb _); [apply before_survives|]. destruct (DeserializeEntry v _). apply before_survives.
Qed.

Lemma filter_same (P Q : Z * RaftLogEntry -> Prop) `{!forall x, Decision (P x)} `{!forall x, Decision (Q x)} (L : Log) :
  (forall i e, L !! i = Some e -> P (i, e) <-> Q (i, e)) -> filter P L = filter Q L.
Proof. intros HPQ. apply map_filter_ext. intros i e Hi. by apply HPQ. Qed.

Lemma level_suffix_step f s L :
  level_ok s L -> is_u64 f ->
  (LvTruncateSuffix f s).1 = StOK /\ level_step s (LvTruncateSuffix f s).2 (log_after L (LcSuffix f)).
Proof.
  intros Hs Hf. unfold LvTruncateSuffix. rewrite lv_if_open_run by apply Hs. st.
  destruct (level_last_step s L Hs) as [Hstep Hlast]. pose proof (level_last_survives s) as Hsurv.
  destruct (LvGetLastLogInfoLocked s) as [[i t] s1]. cbn [fst snd] in *. simpl in Hlast.
  assert (forall j e, L !! j = Some e -> j <= i) as Hmax.
  { intros j e Hj. destruct Hlast as [[-> _]|(x&_&_&Hle)]; [done|]. by apply Hle; eexists. }
  assert (is_u64 i) as Hi.
  { destruct Hlast as [(_&->&_)|(x&Hx&_)]; [by unfold is_u64, UINT64_MAX|]. eapply log_fits_u64; [apply Hs|done]. }
  cbn [log_after log_op map_op]. destruct (decide (i < f)) as [Hlt|Hge].
  - st. split; [done|]. rewrite map_filter_id; [done|]. intros j e Hj. simpl. specialize (Hmax j e Hj). lia.
  - destruct Hstep as [Hok1 Hs1].
    destruct (level_write_step true (delete_log f (i - f + 1)) s1 L (filter (fun p => p.1 < f) L)
      (fun what => Error1 ("Failed to truncate suffix: " +:+ what)) Hok1) as (H1&H2&_).
    + erewrite filter_same; [apply stores_delete; [done| |apply Hok1]|]; [unfold is_u64 in *; lia|].
      intros j e Hj. simpl. specialize (Hmax j e Hj). lia.
    + apply log_fits_filter, Hok1.
    + split; [exact H1|]. by eapply level_step_trans.
Qed.

Lemma level_prefix_step b s L :
  level_ok s L -> is_u64 b ->
  (LvTruncatePrefix b s).1 = StOK /\ level_step s (LvTruncatePrefix b s).2 (log_after L (LcPrefix b)).
Proof.
  intros Hs Hb. unfold LvTruncatePrefix. rewrite lv_if_open_run by apply Hs. cbn [log_after log_op map_op].
  assert (forall j e, L !! j = Some e -> 1 <= j) as Hmin.
  { intros j e Hj. destruct (lo_fits _ _ Hs j e Hj) as [<- (?&_)]. lia. }
  destruct (decide (b <= 1)) as [Hle|Hgt].
  - st. split; [done|]. rewrite map_filter_id; [split; [done|]; by left|].
    intros j e Hj. simpl. specialize (Hmin j e Hj). lia.
  - destruct (level_write_step true (delete_log 1 (b - 1)) s L (filter (fun p => b <= p.1) L)
      (fun what => Error1 ("Failed to truncate prefix: " +:+ what)) Hs) as (H1&H2&_); [|apply log_fits_filter, Hs|by split].
    erewrite filter_same; [apply stores_delete; [done| |apply Hs]|]; [unfold is_u64 in *; lia|].
    intros j e Hj. simpl. specialize (Hmin j e Hj). lia.
Qed.

Lemma level_get_step i s L :
  level_ok s L -> is_u64 i ->
  level_step s (LvGetEntry i RaftLogEntry_default s).2 L /\
  answers L (LcGet i) (LaEntry (LvGetEntry i RaftLogEntry_default s).1.1 (LvGetEntry i RaftLogEntry_default s).1.2).
Proof.
  intros Hs Hi. unfold LvGetEntry. rewrite lv_if_open_run by apply Hs. st.
  destruct (healthy_get (MakeLogKey i) _ (lo_healthy _ _ Hs)) as [Hnf Hh].
  pose proof (level_read_step (db_get (MakeLogKey i)) s L Hs (get_map _ _) (get_survives _ _) Hh) as Hstep.
  pose proof (proj1 (lo_stores _ _ Hs) i Hi) as Hm. cbn [answers].
  change ((on_level (db_get (MakeLogKey i)) s).1) with ((db_get (MakeLogKey i) (lv_db s)).1).
  destruct ((db_get (MakeLogKey i) (lv_db s)).1) as [v| |what] eqn:E; [| |by destruct (Hnf what)].
  - apply get_found in E. rewrite E in Hm. destruct (L !! i) as [e|] eqn:He; [|done]. injection Hm as ->.
    destruct (lo_fits _ _ Hs i e He) as [_ Hf]. rewrite DeserializeEntry_Serialize by done. st. by split.
  - apply get_not_found in E. rewrite E in Hm. destruct (L !! i) as [e|] eqn:He; [done|]. st. by split.
Qed.

(** A key of the range is the key of an index of the range. *)
Lemma range_key m L a b k v :
  level_stores m L -> log_fits L -> is_u64 a -> is_u64 b ->
  m !! k = Some v -> ~ key_lt k (MakeLogKey a) -> key_lt k (MakeLogKey b) ->
  exists i e, k = MakeLogKey i /\ a <= i < b /\ L !! i = Some e /\ v = SerializeEntry e.
Proof.
  intros [Hm Hk] Hf Ha Hb Hkv Hge Hlt.
  assert (String.prefix kLogPrefix k = true) as Hp.
  { destruct (String.prefix kLogPrefix k) eqn:Hp; [done|]. destruct Hge. apply below_log_keys; [|done].
    eapply key_lt_trans; [done|apply log_key_below]. }
  destruct (Hk k Hp ltac:(by eexists)) as (i&Hi&->). rewrite Hm in Hkv by done.
  apply fmap_Some in Hkv as (e&He&->). exists i, e. split_and!; try done.
  - unfold key_lt in Hge. rewrite MakeLogKey_compare in Hge by done. apply Z.nlt_ge. intros ?. by apply Hge, Z.compare_lt_iff.
  - unfold key_lt in Hlt. rewrite MakeLogKey_compare in Hlt by done. by apply Z.compare_lt_iff.
Qed.

Lemma deserialize_cons k v pairs :
  deserialize_all ((k, v) :: pairs) =
    match DeserializeEntry v RaftLogEntry_default with
    | (true, e) => e :: deserialize_all pairs
    | (false, _) => deserialize_all pairs
    end.
Proof.
  change (deserialize_all ((k, v) :: pairs)) with
    (match (let '(ok, e) := DeserializeEntry v RaftLogEntry_default in if (ok : bool) then Some e else None) with
     | Some e => e :: deserialize_all pairs | None => deserialize_all pairs end).
  by destruct (DeserializeEntry v RaftLogEntry_default) as [[] e].
Qed.

(** The pairs of a range, deserialised. *)
Lemma deserialize_pairs L pairs :
  log_fits L ->
  (forall k v, (k, v) ∈ pairs -> exists i e, k = MakeLogKey i /\ L !! i = Some e /\ v = SerializeEntry e) ->
  StronglySorted key_lt pairs.*1 ->
  StronglySorted (fun x y => index_ x < index_ y) (deserialize_all pairs) /\
  forall x, x ∈ deserialize_all pairs <->
    exists i e, (MakeLogKey i, SerializeEntry e) ∈ pairs /\ L !! i = Some e /\ x = read_back e.
Proof.
  intros Hf. induction pairs as [|[k v] pairs IH]; intros Hp Hso.
  { split; [constructor|]. intros x. split; [by intros ?%not_elem_of_nil|]. by intros (i&e&?%not_elem_of_nil&_). }
  destruct (Hp k v ltac:(by left)) as (i&e&->&He&->). destruct (Hf i e He) as [Ei Hfe].
  assert (deserialize_all ((MakeLogKey i, SerializeEntry e) :: pairs) = read_back e :: deserialize_all pairs) as ->.
  { rewrite deserialize_cons. by rewrite DeserializeEntry_Serialize. }
  apply StronglySorted_inv in Hso as [Hso Hall].
  destruct IH as [IHs IHm]; [intros k v Hkv; apply Hp; by right|done|]. split.
  - constructor; [done|]. apply list.Forall_forall. intros x Hx. apply IHm in Hx as (j&e'&Hin&He'&->).
    destruct (Hf j e' He') as [Ej _].
    change (index_ e < index_ e'). rewrite Ei, Ej.
    rewrite list.Forall_forall in Hall. specialize (Hall (MakeLogKey j)).
    assert (MakeLogKey j ∈ pairs.*1) as Hkj by (apply (list_elem_of_fmap_2 fst _ _ Hin)).
    apply Hall in Hkj. unfold key_lt in Hkj. cbn [fst] in Hkj.
    rewrite MakeLogKey_compare in Hkj by (by eapply log_fits_u64). by apply Z.compare_lt_iff.
  - intros x. rewrite elem_of_cons, IHm. split.
    + intros [->|(j&e'&?&?&?)]; [exists i, e; split; [by left|done]|exists j, e'; split; [by right|done]].
    + intros (j&e'&[Hjk|Hin]%elem_of_cons&He'&->).
      * left. apply (f_equal fst) in Hjk. apply MakeLogKey_inj in Hjk; [|by eapply log_fits_u64..]. subst j. congruence.
      * right. by exists j, e'.
Qed.

Lemma level_range_step a b s L :
  level_ok s L -> is_u64 a -> is_u64 b ->
  level_step s (LvGetEntries a b s).2 L /\
  answers L (LcRange a b) (LaEntries (LvGetEntries a b s).1.1 (LvGetEntries a b s).1.2).
Proof.
  intros Hs Ha Hb. unfold LvGetEntries. rewrite lv_if_open_run by apply Hs. cbn [answers].
  destruct (decide (b <= a)) as [Hle|Hgt].
  { st. split; [split; [done|]; by left|]. split_and!; [done|constructor|]. intros x.
    split; [by intros ?%not_elem_of_nil|]. intros (i&e&?&_). lia. }
  st. destruct (healthy_range (MakeLogKey a) (MakeLogKey b) _ (lo_healthy _ _ Hs)) as [Hn Hh].
  pose proof (level_read_step (db_range (MakeLogKey a) (MakeLogKey b)) s L Hs (range_map _ _ _) (range_survives _ _ _) Hh) as Hstep.
  change ((on_level (db_range (MakeLogKey a) (MakeLogKey b)) s).1) with ((db_range (MakeLogKey a) (MakeLogKey b) (lv_db s)).1).
  rewrite Hn. st. split; [exact Hstep|]. split; [done|]. pose proof (range_pairs _ _ _ Hn) as Hpairs.
  destruct (deserialize_pairs L (db_range (MakeLogKey a) (MakeLogKey b) (lv_db s)).1.1) as [Hso Hel];
    [apply Hs| |apply range_sorted|].
  { intros k v (Hkv&Hge&Hlt)%Hpairs.
    destruct (range_key _ L a b k v (lo_stores _ _ Hs) (lo_fits _ _ Hs)) as (i&e&?&_&?&?); try done. by exists i, e. }
  split; [exact Hso|]. intros x. rewrite Hel. split.
  - intros (i&e&(Hkv&Hge&Hlt)%Hpairs&He&->). exists i, e. split_and!; try done.
    all: pose proof (log_fits_u64 _ _ _ (lo_fits _ _ Hs) He) as Hi; unfold key_lt in *;
      rewrite MakeLogKey_compare in Hge, Hlt by done.
    + apply Z.nlt_ge. intros ?. by apply Hge, Z.compare_lt_iff.
    + by apply Z.compare_lt_iff.
  - intros (i&e&Hr&He&->). exists i, e. split_and!; try done. apply Hpairs.
    pose proof (log_fits_u64 _ _ _ (lo_fits _ _ Hs) He) as Hi. unfold key_lt. rewrite !MakeLogKey_compare by done.
    rewrite (proj1 (lo_stores _ _ Hs) i Hi), He. split_and!; [done| |apply Z.compare_lt_iff; lia].
    rewrite Z.compare_lt_iff. lia.
Qed.

(** Every call answers for the log and changes it as the log's operation. *)
Lemma level_call_step c s L :
  level_ok s L -> call_fits c ->
  answers L c (level_call c s).1 /\ level_step s (level_call c s).2 (log_after L c) /\
  (c = LcSync -> forall m, survives (lv_db (level_call c s).2) m -> level_stores m L).
Proof.
  intros Hs Hc. destruct c as [es|f|b| |sync|i|a b|]; cbn [level_call]; st.
  - destruct (level_append_step es s L Hs Hc). by split_and!.
  - destruct (level_suffix_step f s L Hs Hc). by split_and!.
  - destruct (level_prefix_step b s L Hs Hc). by split_and!.
  - destruct (level_sync_step s L Hs) as (?&?&?). by split_and!.
  - destruct Hs. split_and!; [done| |done]. split; [by split|]. by left.
  - destruct (level_get_step i s L Hs Hc). by split_and!.
  - destruct Hc as [Ha Hb]. destruct (level_range_step a b s L Hs Ha Hb). by split_and!.
  - destruct (level_last_step s L Hs). by split_and!.
Qed.

End operations.

(** ** Runs, crashes and restarts *)

Fixpoint answered (L : Log) (cs : list LevelCall) (rs : list LevelAnswer) : Prop :=
  match cs, rs with
  | [], [] => True
  | c :: cs, a :: rs => answers L c a /\ answered (log_after L c) cs rs
  | _, _ => False
  end.

Section runs.
Context {DB : Type} `{!LevelDB DB} `{!LevelIter DB} `{!LevelDBLaws DB} `{!LevelIterLaws DB}.
Notation LV := (LevelDBPersister DB).

Lemma level_run_ok cs (s : LV) L :
  level_ok s L -> Forall call_fits cs ->
  answered L cs (level_run cs s).1 /\ level_ok (level_run cs s).2 (foldl log_after L cs).
Proof.
  revert s L. induction cs as [|c cs IH]; intros s L Hs Hc; [done|].
  apply list.Forall_cons in Hc as [Hc Hcs]. destruct (level_call_step c s L Hs Hc) as (Ha&[Hs' _]&_).
  cbn [level_run]. st. destruct (IH _ _ Hs' Hcs) as [Has Hok]. by split.
Qed.

(** What a crash after the run may find: the log after some of the calls, all
    those before the last [Sync] among them. *)
Definition found_log (L : Log) (cs : list LevelCall) (L' : Log) : Prop :=
  exists n, L' = foldl log_after L (take n cs) /\ forall pre post, cs = pre ++ LcSync :: post -> (length pre <= n)%nat.

Lemma level_run_survives cs (s : LV) L :
  level_ok s L -> (forall m, survives (lv_db s) m -> level_stores m L) -> Forall call_fits cs ->
  forall m, survives (lv_db (level_run cs s).2) m -> exists L', found_log L cs L' /\ level_stores m L'.
Proof.
  intros Hs Hm Hcs. induction cs as [|c cs IH] using rev_ind.
  { intros m Hx. exists L. split; [|by apply Hm]. exists 0%nat. split; [done|]. by intros [] post [=]. }
  apply Forall_app in Hcs as [Hcs Hc]. apply list.Forall_cons in Hc as [Hc _]. specialize (IH Hcs).
  destruct (level_run_ok cs s L Hs Hcs) as [_ Hs']. set (s1 := (level_run cs s).2) in *.
  destruct (level_call_step c s1 _ Hs' Hc) as (_&[_ Hstep]&Hsync).
  assert ((level_run (cs ++ [c]) s).2 = (level_call c s1).2) as ->.
  { unfold s1. clear. revert s. induction cs as [|d cs IH]; intros s; cbn [level_run app]; st; [done|]. by rewrite IH. }
  intros m Hx.
  assert (level_stores m (log_after (foldl log_after L cs) c) ->
    exists L', found_log L (cs ++ [c]) L' /\ level_stores m L') as Hnew.
  { intros Hst. eexists. split; [|exact Hst]. exists (length (cs ++ [c])). split.
    - rewrite take_ge by lia. by rewrite foldl_app.
    - intros pre post E. rewrite E, length_app. lia. }
  destruct (Hstep m Hx) as [Hold|Hst]; [|by apply Hnew].
  assert (c = LcSync \/ c <> LcSync) as [->|Hne] by (destruct c; first [by left|by right]); [by apply Hnew, Hsync|].
  destruct (IH m Hold) as (L'&(n&->&Hn)&Hst). eexists. split; [|exact Hst].
  exists (n `min` length cs)%nat. split.
  { f_equal. rewrite take_app_le by lia. destruct (decide (n <= length cs)%nat); [by rewrite Nat.min_l|].
    by rewrite Nat.min_r, !take_ge by lia. }
  intros pre post E. induction post as [|d post _] using rev_ind.
  { apply app_inj_tail in E as [_ E]. done. }
  rewrite app_comm_cons, app_assoc in E. apply app_inj_tail in E as [E _].
  apply Nat.min_glb; [by eapply Hn|]. rewrite E, length_app. lia.
Qed.

Context `{!ClusterJson}.

Definition keeps_db (s s' : LV) : Prop :=
  db_map (lv_db s') = db_map (lv_db s) /\ lv_open s' = lv_open s /\ (db_healthy (lv_db s) -> db_healthy (lv_db s')).

Definition steady {A} (m : State LV A) : Prop := forall s, keeps_db s (m s).2.

Lemma steady_bind {A B} (m : State LV A) (f : A -> State LV B) :
  steady m -> (forall a, steady (f a)) -> steady (a ← m; f a).
Proof.
  intros Hm Hf s. st. destruct (Hm s) as (H1&H2&H3). destruct (Hf (m s).1 (m s).2) as (H4&H5&H6).
  split_and!; [congruence|congruence|auto].
Qed.

Lemma LvLoadStateFromDB_steady : steady LvLoadStateFromDB.
Proof.
  assert (forall k, steady (on_level (db_get k))) as Hg.
  { intros k s. unfold on_level. split_and!; simpl; [apply get_map|done|]. intros Hh. by apply healthy_get. }
  unfold LvLoadStateFromDB. apply steady_bind; [apply Hg|]. intros v. apply steady_bind; [|intros _].
  { destruct v; try done. unfold whenS. by case_match. }
  apply steady_bind; [apply Hg|]. intros [| |]; try done. by case_match.
Qed.

Lemma LvOpen_ok (db : DB) L :
  db_healthy db -> level_stores (db_map db) L -> log_fits L ->
  let t := LvOpen (LevelDBPersister_new db) in t.1 = StOK /\ level_ok t.2 L.
Proof.
  intros Hh HL Hf. unfold LvOpen. st. cbn [LevelDBPersister_new lv_open lv_compression_type]. cbv zeta.
  destruct (healthy_open true db Hh) as [Ho Hh']. pose proof (open_map true db) as Hm.
  st. cbn [LevelDBPersister_new lv_open lv_compression_type]. unfold on_level.
  change (lv_db (LevelDBPersister_new db)) with db. cbn [fst snd]. rewrite Ho. st.
  split; [done|].
  destruct (LvLoadStateFromDB_steady ((LevelDBPersister_new db) <| lv_db := (db_open true db).2 |> <| lv_open := true |>))
    as (H1&H2&H3).
  simpl in *. split; [exact H2|by apply H3| |done]. rewrite H1, Hm. exact HL.
Qed.

(** C35. The LevelDB persister's log over a healthy database.  Every call of a run
    returns what the log says; and if the process stops at any moment, a new
    persister on the same directory opens, holds the log as some of the calls
    left it, every call before the last [Sync] among them, and goes on
    answering from that log. *)
Theorem level_log_refines (s : LV) (L : Log) (cs : list LevelCall) :
  level_ok s L -> (forall m, survives (lv_db s) m -> level_stores m L) -> Forall call_fits cs ->
  answered L cs (level_run cs s).1 /\
  forall db, crash (lv_db (level_run cs s).2) db -> db_healthy db ->
  exists L', found_log L cs L' /\
    (LvOpen (LevelDBPersister_new db)).1 = StOK /\
    forall more, Forall call_fits more ->
      answered L' more (level_run more (LvOpen (LevelDBPersister_new db)).2).1.
Proof.
  intros Hs Hm Hcs. split; [by apply level_run_ok|]. intros db Hc Hh.
  destruct (level_run_survives cs s L Hs Hm Hcs _ (crash_finds _ _ Hc)) as (L'&HL&Hst).
  exists L'. split; [done|]. destruct HL as (n&->&_).
  destruct (level_run_ok (take n cs) s L Hs (Forall_take _ n _ Hcs)) as [_ [_ _ _ Hf]].
  destruct (LvOpen_ok db _ Hh Hst Hf) as [-> Ho]. split; [done|]. intros more Hmore. by apply level_run_ok.
Qed.

End runs.

(** ** A database with iterators *)

Definition pair_le (p q : string * bytes) : Prop := ~ key_lt q.1 p.1.

#[global] Instance pair_le_dec p q : Decision (pair_le p q).
Proof. unfold pair_le, key_lt. apply _. Defined.

Lemma pair_le_trans : Transitive pair_le.
Proof.
  intros [x ?] [y ?] [z ?] H1 H2 H3. unfold pair_le in *. simpl in *.
  destruct (key_lt_total x y) as [H|[->|H]]; [|done|done]. by apply H2, key_lt_trans with x.
Qed.

Lemma pair_le_total : Total pair_le.
Proof.
  intros [x ?] [y ?]. unfold pair_le. simpl.
  destruct (key_lt_total x y) as [H|[->|H]]; [left|left|right]; try apply key_lt_irrefl;
    intros H'; by apply (key_lt_irrefl x), key_lt_trans with y.
Qed.

Definition sorted_pairs (m : gmap string bytes) : list (string * bytes) := merge_sort pair_le (map_to_list m).

Lemma elem_of_sorted_pairs m k v : (k, v) ∈ sorted_pairs m <-> m !! k = Some v.
Proof. unfold sorted_pairs. rewrite merge_sort_Permutation. apply elem_of_map_to_list. Qed.

Lemma sorted_strictly (l : list (string * bytes)) :
  StronglySorted pair_le l -> NoDup l.*1 -> StronglySorted key_lt l.*1.
Proof.
  induction 1 as [|p l Hl IH Hp]; [constructor|]. simpl. intros [Hn Hd]%list.NoDup_cons. constructor; [auto|].
  apply list.Forall_forall. intros k Hk. rewrite list.Forall_forall in Hp.
  apply list_elem_of_fmap in Hk as (q&->&Hq). specialize (Hp q Hq). unfold pair_le in Hp.
  destruct (key_lt_total p.1 q.1) as [H|[H|H]]; [done| |done].
  destruct Hn. rewrite H. by apply list_elem_of_fmap_2.
Qed.

Lemma filter_sorted {A} (R : relation A) (P : A -> Prop) `{!forall x, Decision (P x)} l :
  StronglySorted R l -> StronglySorted R (filter P l).
Proof.
  induction 1 as [|x l Hl IH Hx]; [constructor|]. rewrite filter_cons. case_decide; [|done]. constructor; [done|].
  rewrite list.Forall_forall in *. intros y Hy. apply list_elem_of_filter in Hy as [_ Hy]. auto.
Qed.

Lemma filter_pairs_sorted (P : string * bytes -> Prop) `{!forall x, Decision (P x)} m :
  StronglySorted key_lt (filter P (sorted_pairs m)).*1.
Proof.
  apply sorted_strictly.
  - apply filter_sorted, StronglySorted_merge_sort; [apply pair_le_trans|apply pair_le_total].
  - assert (NoDup (sorted_pairs m).*1) as Hn.
    { unfold sorted_pairs. rewrite merge_sort_Permutation. apply NoDup_fst_map_to_list. }
    eapply sublist_NoDup; [exact Hn|]. apply fmap_sublist, sublist_filter.
Qed.

Definition in_range (a b : string) (p : string * bytes) : Prop := ~ key_lt p.1 a /\ key_lt p.1 b.
Definition is_before (a : string) (p : string * bytes) : Prop := key_lt p.1 a.
#[global] Instance in_range_dec a b p : Decision (in_range a b p).
Proof. unfold in_range, key_lt. apply _. Defined.
#[global] Instance is_before_dec a p : Decision (is_before a p).
Proof. unfold is_before, key_lt. apply _. Defined.

#[global] Instance MemDb_iter : LevelIter MemDb := {
  db_range a b := mem_op (fun m => ((filter (in_range a b) (sorted_pairs m), None), m))
                    ([], Some "IO error: iterator") keep_survivors;
  db_before a := mem_op (fun m => (list.last (filter (is_before a) (sorted_pairs m)), m)) None keep_survivors
}.

#[global, refine] Instance MemDb_iter_laws : LevelIterLaws MemDb := {}.
Proof.
  all: try (intros; unfold db_write, db_range, db_before, MemDb_level, MemDb_iter, mem_op, keep_survivors in *;
    repeat case_match; simplify_eq/=; done).
  - intros a b db. simpl. unfold mem_op. case_match; [constructor|]. apply filter_pairs_sorted.
  - intros a b db. simpl. unfold mem_op. case_match; [done|]. intros _ k v. simpl.
    rewrite list_elem_of_filter, elem_of_sorted_pairs. unfold in_range. simpl. tauto.
  - intros a db k v. simpl. unfold mem_op. case_match; [done|]. simpl. intros Hl.
    pose proof (filter_pairs_sorted (is_before a) (mem_map db)) as Hs.
    assert ((k, v) ∈ filter (is_before a) (sorted_pairs (mem_map db))) as Hin.
    { apply last_Some in Hl as [l ->]. set_solver. }
    apply list_elem_of_filter in Hin as [Hb Hin]. apply elem_of_sorted_pairs in Hin. split_and!; [done|done|].
    intros k' Hk' [v' Hv'] Hlt. apply last_Some in Hl as [l El].
    assert ((k', v') ∈ l ++ [(k, v)]) as Hin'.
    { rewrite <- El. apply list_elem_of_filter. split; [done|]. by apply elem_of_sorted_pairs. }
    rewrite El, fmap_app in Hs.
    apply elem_of_app in Hin' as [Hin'|Hin'].
    + apply (key_lt_irrefl k), key_lt_trans with k'; [done|].
      eapply StronglySorted_app_1_elem_of; [exact Hs|by apply (list_elem_of_fmap_2 fst) in Hin'|by left].
    + apply list_elem_of_singleton in Hin'. simplify_eq. by apply (key_lt_irrefl k).
  - intros a db Hh. simpl. unfold mem_op. rewrite Hh. simpl. intros Hl k Hk.
    apply last_None in Hl. destruct (mem_map db !! k) as [v|] eqn:E; [|done].
    assert ((k, v) ∈ filter (is_before a) (sorted_pairs (mem_map db))) as Hin.
    { apply list_elem_of_filter. split; [done|]. by apply elem_of_sorted_pairs. }
    rewrite Hl in Hin. set_solver.
  - intros a b db Hh. change (mem_faults db = []) in Hh. simpl. unfold mem_op. rewrite Hh. by split.
  - intros a db Hh. change (mem_faults db = []) in Hh. simpl. unfold mem_op. by rewrite Hh.
  - intros sy ops db Hh. change (mem_faults db = []) in Hh. simpl. unfold mem_op. rewrite Hh. by split.
Qed.

Definition new_level : LevelDBPersister MemDb :=
  (LevelDBPersister_new (mkMemDb ∅ [∅] [])) <| lv_open := true |>.

Definition sample_calls : list LevelCall :=
  [LcAppend [mkEntry 1 1 "a" "" 0; mkEntry 2 1 "b" "" 0]; LcSync; LcSuffix 2; LcAppend [mkEntry 2 3 "c" "" 0];
   LcLast; LcGet 2; LcRange 1 3].

Lemma stores_nothing : level_stores ∅ ∅.
Proof. split; [intros i _; by rewrite !lookup_empty|]. intros k _ [x Hx]. by rewrite lookup_empty in Hx. Qed.

Lemma new_level_ok : level_ok new_level ∅.
Proof. split; [done|done|exact stores_nothing|]. intros i e Hi. by rewrite lookup_empty in Hi. Qed.

Lemma sample_calls_fit : Forall call_fits sample_calls.
Proof. repeat constructor; vm_compute; by intros. Qed.

Import PlainJson.

(** Seven calls on a new persister, and every crash after them: a restart
    answers from a log that has the first append at least. *)
Lemma level_log_refines_witness :
  let s := (level_run sample_calls new_level).2 in
  answered ∅ sample_calls (level_run sample_calls new_level).1 /\
  mem_faults (lv_db s) = [] /\
  forall db, crash (lv_db s) db -> db_healthy db ->
  exists L', found_log ∅ sample_calls L' /\
    (LvOpen (LevelDBPersister_new db)).1 = StOK /\
    forall more, Forall call_fits more ->
      answered L' more (level_run more (LvOpen (LevelDBPersister_new db)).2).1.
Proof.
  destruct (level_log_refines new_level ∅ sample_calls) as [H1 H2];
    [exact new_level_ok| |exact sample_calls_fit|].
  { intros m Hm. apply list_elem_of_singleton in Hm as ->. exact stores_nothing. }
  split_and!; [exact H1|by vm_compute|exact H2].
Defined.

(** Entry 3's bytes cannot be read.  The log reports that it is empty, cutting
    it from entry 1 on reports success, and entry 1 is still there. *)
Definition damaged : LevelDBPersister MemDb :=
  let s := (LvAppendEntries [mkEntry 1 1 "a" "" 0; mkEntry 2 1 "b" "" 0] new_level).2 in
  s <| lv_db := (db_write true [BPut (MakeLogKey 3) [Byte.x00]] (lv_db s)).2 |>.

Lemma damaged_log_not_cut :
  (LvGetLastLogInfo damaged).1 = (0, 0) /\ (LvTruncateSuffix 1 damaged).1 = StOK /\
  index_ (LvGetEntry 1 RaftLogEntry_default (LvTruncateSuffix 1 damaged).2).1.2 = 1 /\
  (fun e => index_ e) <$> (LvGetEntries 1 4 damaged).1.2 = [1; 2] /\ (LvGetEntries 1 4 damaged).1.1 = StOK.
Proof. by vm_compute. Qed.

(** A snapshot is stored; the first write of the next one, given as chunks,
    fails: the call reports it, and no snapshot is left. *)
Definition has_snapshot : LevelDBPersister MemDb := (LvSaveSnapshot [Byte.x01] 5 2 new_level).2.
Definition full_disk (s : LevelDBPersister MemDb) : LevelDBPersister MemDb :=
  s <| lv_db ::= fun d => mkMemDb (mem_map d) (mem_survivors d) [false; false; false; false; true] |>.

Lemma failed_stream_loses_snapshot :
  let r := LvSaveSnapshotStream (mkChunkProvider [[Byte.x02]] None) 9 3 (full_disk has_snapshot) in
  (LvHasSnapshot has_snapshot).1 = true /\
  r.1 = inr (Error1 "Failed to save snapshot chunk: IO error: write") /\ (LvHasSnapshot r.2).1 = false.
Proof. by vm_compute. Qed.
