(* ===== verification/NodeLifecycle.v ===== *)
(** * The life of a node: [Start], [Stop], [DoGracefulShutdown] and [ForceShutdown]
    of [src/raft_node_core.cpp]

    The node with the services around its group: the persister, the log
    persister, and, when the node owns them, the network, the timer service with
    the tick, and the HTTP server.  What starting and stopping do to the group is
    [NodeCore.v] and [Shutdown.v]; here the services are started and stopped
    around it, and whatever fails, the node is up with all of them or has given
    up those it owns. *)

From S2P Require Import Prelude Types RuntimeConfig RaftLog Quorum Sessions RaftGroup Timers Replicate.
From S2P Require Import Membership Apply Election Leader Follower Snapshots NodeCore Shutdown.
From S2P Require Import Text Config Peers Transport TimerService StoreLifecycle.

(** [log_persister_]: not made yet, with its threads running, or stopped. *)
Inductive LpLife := LpNone | LpRunning | LpStopped.

(** [nl_server] is whether there is an HTTP server, [nl_apply_thread] whether the
    apply thread runs. *)
Record NodeLife := mkNodeLife {
  nl_node : Node;
  nl_persister : bool;
  nl_log_persister : LpLife;
  nl_network : Transport;
  nl_timer : TimerSvc;
  nl_tick : TimerId;
  nl_server : bool;
  nl_apply_thread : bool
}.
#[global] Instance NodeLife_eta : Eta NodeLife := fun r =>
  mkNodeLife (nl_node r) (nl_persister r) (nl_log_persister r) (nl_network r) (nl_timer r) (nl_tick r)
    (nl_server r) (nl_apply_thread r).

(** What the outside answers while the node starts: the persister (the field for
    the network is not looked at), the transport as for a store, and the text of
    an exception of the HTTP server's start. *)
Record NodeOutcome := mkNodeOutcome {
  no_answers : StartAnswers;
  no_supports_auth : bool;
  no_bind : string * Z -> option string;
  no_contexts : option string;
  no_threads : nat;
  no_server : option string
}.

Definition on_node {A} (m : M A) : Prog NodeLife A := fun s =>
  match m (nl_node s) with
  | Done a n => Done a (s <| nl_node := n |>)
  | Aborted n => Aborted (s <| nl_node := n |>)
  end.

Section life.
Context `{!Env} (manage_network_ tls metrics_ : bool) (metrics_addr : string).

(** ** Start *)

Definition close_persister : Prog NodeLife unit :=
  when env_persister (modify (fun s => s <| nl_persister := false |>)).

(** [Some err]: what is stored cannot be used. *)
Definition start_persistence (sa : StartAnswers) : Prog NodeLife (option Status) :=
  match sa_open sa with
  | StErr _ _ => mret (Some (sa_open sa))
  | StOK =>
      modify (fun s => s <| nl_persister := true |>) ;;
      on_node (restore_state sa) ;;
      bad ← on_node (restore_snapshot sa);
      match bad with
      | Some err => modify (fun s => s <| nl_persister := false |>) ;; mret (Some err)
      | None =>
          modify (fun s => s <| nl_log_persister := LpRunning |>) ;;
          on_node (restore_entries sa) ;;
          mret None
      end
  end.

Definition start_network (o : NodeOutcome) : Prog NodeLife (option Status) :=
  config ← gets (fun s => config_ (group_ (nl_node s)));
  if client_auth_enabled config && negb (no_supports_auth o) then
    mret (Some (Error2 "CONFIG_INVALID" "client authentication requires authenticated transport support"))
  else
    net ← gets nl_network;
    let r := Initialize (no_bind o) (no_contexts o) (listen_addr config) net in
    modify (fun s => s <| nl_network := r.2 |>) ;;
    if negb (status_ok r.1) then close_persister ;; mret (Some r.1)
    else
      modify (fun s => s <| nl_network ::=
        SetBatchingEnabled tls (transport_batching_enabled (runtime_config_ (group_ (nl_node s)))) |>) ;;
      net ← gets nl_network;
      let r := tr_start (no_threads o) net in
      modify (fun s => s <| nl_network := r.2 |>) ;;
      if negb (status_ok r.1) then close_persister ;; mret (Some r.1) else mret None.

Definition wants_node_server : bool := metrics_ && bool_decide (metrics_addr <> "").

(** The timer service with the tick, and the HTTP server: [Some] is an exception. *)
Definition start_infrastructure (o : NodeOutcome) : Prog NodeLife (option string) :=
  modify (fun s => s <| nl_timer ::= ts_start |>) ;;
  t ← gets nl_timer;
  let r := SetInterval t in
  modify (fun s => s <| nl_timer := r.2 |> <| nl_tick := r.1 |>) ;;
  server ← gets nl_server;
  if wants_node_server && negb server then modify (fun s => s <| nl_server := true |>) ;; mret (no_server o)
  else mret None.

Definition enter_running : M unit :=
  term ← getg current_term_;
  BecomeFollowerLocked term ;;
  apply_running_ <~ true.

Definition fail_start (err : Status) : Prog NodeLife (string + Status) :=
  st ← on_node (start_failed err); mret (inr st).

(** What is started once the storage is there; [inl] is an exception that leaves
    the function. *)
Definition start_rest_of (o : NodeOutcome) : Prog NodeLife (string + Status) :=
  bad ← (if manage_network_ then start_network o else mret None);
  match bad with
  | Some err => fail_start err
  | None =>
      exn ← (if manage_network_ then start_infrastructure o else mret None);
      match exn with
      | Some what => mret (inl what)
      | None =>
          on_node enter_running ;;
          modify (fun s => s <| nl_apply_thread := true |>) ;;
          on_node (publish_lifecycle true) ;;
          mret (inr StOK)
      end
  end.

Definition NodeStart (o : NodeOutcome) : Prog NodeLife (string + Status) :=
  st ← gets (fun s => state_ (nl_node s));
  if decide (st <> kInitialized) then mret (inr (Error1 "Already started or stopped"))
  else
    on_node (modify (fun n => n <| state_ := kRunning |>)) ;;
    bad ← (if env_persister then start_persistence (no_answers o) else mret None);
    match bad with
    | Some err => fail_start err
    | None => on_node remove_received_files ;; start_rest_of o
    end.

(** ** Stop *)

Definition stop_node_server : Prog NodeLife unit :=
  when manage_network_ (modify (fun s => s <| nl_server := false |>)).
Definition cancel_node_tick : Prog NodeLife unit :=
  tick ← gets nl_tick;
  when (manage_network_ && bool_decide (tick <> 0))
    (modify (fun s => s <| nl_timer ::= fun t => (CancelTimer tick t).2 |> <| nl_tick := 0 |>)).
Definition stop_timer_service : Prog NodeLife unit :=
  when manage_network_ (modify (fun s => s <| nl_timer ::= ts_stop |>)).
Definition stop_node_network : Prog NodeLife unit :=
  when manage_network_ (modify (fun s => s <| nl_network ::= tr_stop tls |>)).
Definition stop_log_persister : Prog NodeLife unit :=
  modify (fun s => s <| nl_log_persister ::= fun l => if l is LpNone then LpNone else LpStopped |>).

(** The thread is joined before the queue is emptied. *)
Definition stop_applying : Prog NodeLife unit :=
  modify (fun s => s <| nl_apply_thread := false |>) ;; on_node drain_apply_queue.

Definition node_phases : list (Prog NodeLife unit) :=
  [stop_node_server; on_node stop_timers; cancel_node_tick; stop_timer_service; stop_node_network;
   stop_log_persister; stop_applying; on_node fail_proposals; on_node end_shutdown].

Definition ForceNode : Prog NodeLife unit :=
  on_node mark_stopped ;;
  stop_node_server ;;
  on_node stop_timers ;;
  cancel_node_tick ;;
  stop_log_persister ;;
  on_node (pending_proposals_ <~ ∅ ;; publish_lifecycle false).

(** [timeout] is how many phases are over when the timeout passes; the node is
    looked at when the detached thread has run to its end. *)
Definition NodeStop (timeout : option nat) : Prog NodeLife Status :=
  st ← gets (fun s => state_ (nl_node s));
  match st with
  | kRunning =>
      on_node (modify (fun n => n <| state_ := kStopping |>)) ;;
      match timeout with
      | None => forM node_phases id ;; mret StOK
      | Some k =>
          forM (take k node_phases ++ ForceNode :: drop k node_phases) id ;;
          mret (Error1 "Shutdown timeout")
      end
  | kStopped => mret StOK
  | _ => mret (Error1 "Node not running")
  end.

(** ** Up or down *)

(** Work of the group that leaves [state_] alone. *)
Definition same_state (n n' : Node) : Prop := state_ n' = state_ n.
#[local] Instance same_state_preorder : PreOrder same_state.
Proof. split; [done|]. unfold same_state. intros n1 n2 n3 H1 H2. congruence. Qed.
#[local] Hint Extern 1 (keeps same_state (modify _)) => (intros ?; reflexivity) : keeps.
#[local] Hint Extern 1 (keeps same_state (putg _)) => (intros ?; reflexivity) : keeps.
#[local] Hint Extern 1 (keeps same_state (emit _)) => (intros ?; reflexivity) : keeps.
#[local] Hint Extern 1 (keeps same_state (getg _)) => (eapply keeps_gets; apply _) : keeps.

Lemma state_BecomeFollower t : keeps same_state (BecomeFollowerLocked t).
Proof.
  unfold BecomeFollowerLocked, BecomeFollowerLockedImpl, enter_follower, StopHeartbeatTimerLocked,
    StopSnapshotCheckTimerLocked, ResetElectionTimerLocked, CancelElectionTimerLocked,
    persist_or_abort, publish_role, call_role, SaveStateM. keeps_solve.
Qed.
#[local] Hint Resolve state_BecomeFollower : keeps.

Lemma state_restore sa :
  keeps same_state (restore_state sa) /\ keeps same_state (restore_snapshot sa) /\ keeps same_state (restore_entries sa) /\
  keeps same_state remove_received_files /\ keeps same_state enter_running /\
  forall b, keeps same_state (publish_lifecycle b).
Proof.
  unfold restore_state, restore_snapshot, restore_entries, remove_received_files, enter_running, publish_lifecycle.
  split_and!; [..|intros b]; keeps_solve.
Qed.

Lemma state_stop_timers : keeps same_state stop_timers.
Proof.
  unfold stop_timers, CancelElectionTimerLocked, StopHeartbeatTimerLocked, StopSnapshotCheckTimerLocked. keeps_solve.
Qed.
Lemma state_drain : keeps same_state drain_apply_queue.
Proof. unfold drain_apply_queue, call_proposal. keeps_solve. Qed.
Lemma state_fail_proposals : keeps same_state fail_proposals.
Proof. unfold fail_proposals. keeps_solve. Qed.

(** What stopping turns off stays off. *)
Definition winds (s s' : NodeLife) : Prop :=
  (nl_server s = false -> nl_server s' = false) /\ (nl_tick s = 0 -> nl_tick s' = 0) /\
  (ts_running (nl_timer s) = false -> ts_running (nl_timer s') = false) /\
  (tr_running (nl_network s) = false -> tr_running (nl_network s') = false) /\
  (nl_log_persister s <> LpRunning -> nl_log_persister s' <> LpRunning) /\
  (nl_apply_thread s = false -> nl_apply_thread s' = false) /\
  (state_ (nl_node s) = kStopped -> state_ (nl_node s') = kStopped) /\
  ts_next_timer_id (nl_timer s') = ts_next_timer_id (nl_timer s).
#[local] Instance winds_preorder : PreOrder winds.
Proof.
  split; [done|]. intros s1 s2 s3 (?&?&?&?&?&?&?&?) (?&?&?&?&?&?&?&?). split_and!; [auto..|congruence].
Qed.

Lemma winds_on_node {A} (m : M A) : keeps same_state m -> keeps winds (on_node m).
Proof.
  intros Hm s. specialize (Hm (nl_node s)). unfold on_node. destruct (m (nl_node s)); unfold same_state in Hm; simpl in *;
    (split_and!; simpl; auto; congruence).
Qed.


Lemma winds_phases : Forall (keeps winds) (ForceNode :: node_phases).
Proof.
  assert (keeps winds (on_node mark_stopped)) as Hm by (intros s; by split_and!).
  assert (forall b, keeps winds (on_node (publish_lifecycle b))) as Hp
    by (intros b; apply winds_on_node; unfold publish_lifecycle; keeps_solve).
  assert (keeps winds stop_node_server) as H1.
  { intros s. unfold stop_node_server. by destruct manage_network_. }
  assert (keeps winds cancel_node_tick) as H2.
  { intros s. unfold cancel_node_tick. run. destruct (_ && _); [|reflexivity]. run. split_and!; simpl; auto.
    - unfold CancelTimer. by case_decide.
    - apply cancel_next. }
  assert (keeps winds stop_timer_service) as H3.
  { intros s. unfold stop_timer_service. destruct manage_network_; [|reflexivity]. unfold when. run.
    destruct (ts_stop_down (nl_timer s)) as [? ?]. by split_and!. }
  assert (keeps winds stop_node_network) as H4.
  { intros s. unfold stop_node_network. destruct manage_network_; [|reflexivity]. unfold when. run.
    pose proof (f_equal snd (stop_flags tls (nl_network s))) as Hf. by split_and!. }
  assert (keeps winds stop_log_persister) as H5.
  { intros s. split_and!; simpl; auto. by destruct (nl_log_persister s). }
  pose proof (winds_on_node _ state_stop_timers) as H6.
  assert (keeps winds stop_applying) as H7.
  { unfold stop_applying. apply keeps_bind; [apply _| |intros _; apply winds_on_node, state_drain].
    intros s. by split_and!. }
  pose proof (winds_on_node _ state_fail_proposals) as H8.
  assert (keeps winds (on_node end_shutdown)) as H9.
  { intros s. unfold end_shutdown. by split_and!. }
  assert (keeps winds ForceNode) as H10.
  { unfold ForceNode. repeat (apply keeps_bind; [apply _|assumption|intros _]).
    apply winds_on_node. unfold publish_lifecycle. keeps_solve. }
  unfold node_phases. repeat (apply list.Forall_cons; split; [assumption|]). by apply list.Forall_nil.
Qed.

Lemma winds_forM (l : list (Prog NodeLife unit)) s s' : Forall (keeps winds) l -> forM l id s = Done tt s' -> winds s s'.
Proof.
  intros Hl. revert s. induction Hl as [|q l Hq Hl IH]; intros t; simpl; [by intros [= <-]|]. rewrite run_bind.
  specialize (Hq t). unfold id. destruct (q t) as [[] t1|]; [|done]. simpl in Hq. intros E.
  transitivity t1; [exact Hq|by apply IH].
Qed.

(** A phase that is run leaves its mark. *)
Lemma phase_marks (l : list (Prog NodeLife unit)) p (Q : NodeLife -> Prop) s s' :
  Forall (keeps winds) l -> p ∈ l -> (forall s s', p s = Done tt s' -> Q s') ->
  (forall s s', winds s s' -> Q s -> Q s') -> forM l id s = Done tt s' -> Q s'.
Proof.
  intros Hl. revert s. induction Hl as [|q l Hq Hl IH]; intros s Hp Hd Hw; [by apply elem_of_nil in Hp|].
  simpl. rewrite run_bind. unfold id at 1. destruct (q s) as [[] s1|] eqn:E; [|done]. intros E'.
  apply elem_of_cons in Hp as [->|Hp]; [|by apply (IH s1)]. apply (Hw s1); [by eapply winds_forM|by apply (Hd s)].
Qed.

(** Nothing the node owns runs. *)
Definition infra_down (s : NodeLife) : Prop :=
  tr_running (nl_network s) = false /\ ts_running (nl_timer s) = false /\ nl_tick s = 0 /\ nl_server s = false.
Definition infra_up (s : NodeLife) : Prop :=
  tr_running (nl_network s) = true /\ ts_running (nl_timer s) = true /\
  IsTimerActive (nl_tick s) (nl_timer s) = true /\ nl_server s = wants_node_server.

Lemma stop_phases_down l s s' :
  Forall (keeps winds) l -> (forall p, p ∈ node_phases -> p ∈ l) -> forM l id s = Done tt s' ->
  (manage_network_ = true -> infra_down s') /\ nl_apply_thread s' = false /\
  nl_log_persister s' <> LpRunning /\ state_ (nl_node s') = kStopped /\
  ts_next_timer_id (nl_timer s') = ts_next_timer_id (nl_timer s).
Proof.
  intros Hl Hin E.
  assert (forall p (Q : NodeLife -> Prop), p ∈ node_phases -> (forall s s', p s = Done tt s' -> Q s') ->
    (forall s s', winds s s' -> Q s -> Q s') -> Q s') as Hmark.
  { intros p Q Hp Hd Hw. by apply (phase_marks l p Q s s' Hl (Hin p Hp) Hd Hw). }
  split_and!.
  - intros Hman. unfold infra_down. split_and!.
    + apply (Hmark stop_node_network); [set_solver| |intros ?? Hw; apply Hw]. unfold stop_node_network. rewrite Hman.
      intros t t' [= <-]. exact (f_equal snd (stop_flags tls (nl_network t))).
    + apply (Hmark stop_timer_service); [set_solver| |intros ?? Hw; apply Hw]. unfold stop_timer_service. rewrite Hman.
      intros t t' [= <-]. apply ts_stop_down.
    + apply (Hmark cancel_node_tick); [set_solver| |intros ?? Hw; apply Hw]. unfold cancel_node_tick. rewrite Hman.
      intros t t'. run. case_bool_decide as Ht; intros [= <-]; [done|exact Ht].
    + apply (Hmark stop_node_server); [set_solver| |intros ?? Hw; apply Hw]. unfold stop_node_server. rewrite Hman.
      by intros t t' [= <-].
  - apply (Hmark stop_applying); [set_solver| |intros ?? Hw; apply Hw]. intros t t'. unfold stop_applying, on_node. run.
    destruct (drain_apply_queue _) as [[] n|]; [|done]. intros [= <-]. done.
  - apply (Hmark stop_log_persister); [set_solver| |intros ?? Hw; apply Hw]. intros t t' [= <-]. simpl.
    by destruct (nl_log_persister t).
  - apply (Hmark (on_node end_shutdown)); [set_solver| |intros ?? Hw; apply Hw]. by intros t t' [= <-].
  - by apply (winds_forM l).
Qed.


(** ** Everything the node goes through *)

(** [NWork] is any work of the group that neither starts nor stops the node. *)
Inductive NodeEvent :=
| NStart (o : NodeOutcome)
| NStop (timeout : option nat)
| NWork (n : Node)
| NNetwork (e : TransportEvent).

(** [None]: the process has ended. *)
Definition node_step (s : NodeLife) (e : NodeEvent) : option NodeLife :=
  match e with
  | NStart o => match NodeStart o s with Done _ s' => Some s' | Aborted _ => None end
  | NStop timeout => match NodeStop timeout s with Done _ s' => Some s' | Aborted _ => None end
  | NWork n => if decide (state_ n = state_ (nl_node s)) then Some (s <| nl_node := n |>) else Some s
  | NNetwork e => if lifecycle_event e then Some s else Some (s <| nl_network ::= fun t => tr_step tls t e |>)
  end.
(** The step is a start that an exception of the HTTP server ends. *)
Definition throws (s : NodeLife) (e : NodeEvent) : bool :=
  match e with
  | NStart o => match NodeStart o s with Done (inl _) _ => true | _ => false end
  | _ => false
  end.

(** With the state, whether a start has thrown. *)
Definition node_run (s : NodeLife) (es : list NodeEvent) : option (NodeLife * bool) :=
  foldl (fun o e => o ≫= fun st => (fun s' => (s', st.2 || throws st.1 e)) <$> node_step st.1 e)
    (Some (s, false)) es.

Definition life_ok (thrown : bool) (s : NodeLife) : Prop :=
  match state_ (nl_node s) with
  | kInitialized => (manage_network_ = true -> infra_down s) /\ nl_apply_thread s = false /\ thrown = false
  | kRunning =>
      (manage_network_ = true -> infra_up s) /\ nl_apply_thread s = negb thrown /\
      (env_persister = true -> nl_log_persister s = LpRunning /\ nl_persister s = true)
  | kStopping => False
  | kStopped =>
      (manage_network_ = true -> infra_down s) /\ nl_apply_thread s = false /\ nl_log_persister s <> LpRunning
  end.
Definition node_inv (n : Z) (thrown : bool) (s : NodeLife) : Prop :=
  life_ok thrown s /\ 0 < ts_next_timer_id (nl_timer s) <= n.

Lemma node_stop_inv n x timeout s status s' :
  node_inv n x s -> NodeStop timeout s = Done status s' -> node_inv n x s'.
Proof.
  intros [Hok Hn]. unfold NodeStop. rewrite run_bind, run_gets.
  destruct (state_ (nl_node s)) eqn:Es; [intros [= _ <-]; by split| | |intros [= _ <-]; by split].
  2: { exfalso. unfold life_ok in Hok. by rewrite Es in Hok. }
  pose proof winds_phases as Hall. apply list.Forall_cons in Hall as [Hf Hl].
  rewrite run_bind. unfold on_node at 1. rewrite run_modify.
  set (s1 := s <| nl_node := _ |>). assert (ts_next_timer_id (nl_timer s1) = ts_next_timer_id (nl_timer s)) as H1 by done.
  destruct timeout as [k|]; rewrite run_bind;
    (match goal with |- context [forM ?l id s1] => destruct (forM l id s1) as [[] s2|] eqn:E; [|done] end);
    intros [= _ <-]; eapply stop_phases_down in E as (H2&H3&H4&H5&H6);
    try (split; [unfold life_ok; by rewrite H5|lia]); try done.
  - rewrite <- (take_drop k node_phases) in Hl. apply Forall_app in Hl as [??]. apply Forall_app. split; [done|].
    by apply list.Forall_cons.
  - intros p Hp. rewrite <- (take_drop k node_phases) in Hp. set_solver.
Qed.


(** What a part of the start leaves alone besides the node: the services it owns
    and the apply thread. *)
Definition services (s : NodeLife) : Transport * TimerSvc * TimerId * bool * bool :=
  (nl_network s, nl_timer s, nl_tick s, nl_server s, nl_apply_thread s).
Definition storage (s : NodeLife) : bool * LpLife := (nl_persister s, nl_log_persister s).

Lemma on_node_done {A} (m : M A) s a s' :
  keeps same_state m -> on_node m s = Done a s' ->
  state_ (nl_node s') = state_ (nl_node s) /\ services s' = services s /\ storage s' = storage s.
Proof.
  intros Hm. specialize (Hm (nl_node s)). unfold on_node. destruct (m (nl_node s)); [|done].
  intros [= <- <-]. by split.
Qed.

Lemma start_persistence_done sa s r s' :
  start_persistence sa s = Done r s' ->
  state_ (nl_node s') = state_ (nl_node s) /\ services s' = services s /\
  (r = None -> storage s' = (true, LpRunning)).
Proof.
  destruct (state_restore sa) as (Hr&Hs&He&_). unfold start_persistence. destruct (sa_open sa); [|by intros [= <- <-]].
  rewrite run_bind, run_modify, run_bind.
  destruct (on_node (restore_state sa) _) as [[] s1|] eqn:E1; [|done].
  apply on_node_done in E1 as (A1&B1&C1); [|done]. rewrite run_bind.
  destruct (on_node (restore_snapshot sa) s1) as [bad s2|] eqn:E2; [|done].
  apply on_node_done in E2 as (A2&B2&C2); [|done]. destruct bad as [err|].
  { intros [= <- <-]. split_and!; [simpl in *; congruence| |done].
    change (services s2 = services s). rewrite B2, B1. done. }
  rewrite run_bind, run_modify, run_bind.
  destruct (on_node (restore_entries sa) _) as [[] s3|] eqn:E3; [|done].
  apply on_node_done in E3 as (A3&B3&C3); [|done]. intros [= <- <-]. simpl in *.
  split_and!; [congruence| |].
  - rewrite B3. change (services s2 = services s). rewrite B2, B1. done.
  - intros _. rewrite C3. unfold storage in *. simpl in *. congruence.
Qed.

Lemma close_persister_done s : exists s', close_persister s = Done tt s' /\ services s' = services s /\
  state_ (nl_node s') = state_ (nl_node s).
Proof. unfold close_persister, when. destruct env_persister; eexists; by split. Qed.

Lemma Initialize_flags bind contexts addr t :
  tr_running t = false ->
  tr_running (Initialize bind contexts addr t).2 = false /\
  ((Initialize bind contexts addr t).1 = StOK -> tr_initialized (Initialize bind contexts addr t).2 = true).
Proof.
  intros Hr. unfold Initialize. repeat (case_match; try done). split; [done|]. simpl. intros ->.
  by match goal with H : listen_endpoint _ = inl StOK |- _ => apply listen_error in H end.
Qed.

(** The network is up or, with an error, down; nothing else is touched but the
    persister. *)
Lemma start_network_done o s r s' :
  tr_running (nl_network s) = false -> start_network o s = Done r s' ->
  state_ (nl_node s') = state_ (nl_node s) /\
  (nl_timer s', nl_tick s', nl_server s', nl_apply_thread s') = (nl_timer s, nl_tick s, nl_server s, nl_apply_thread s) /\
  match r with
  | None => tr_running (nl_network s') = true /\ storage s' = storage s
  | Some err => tr_running (nl_network s') = false /\ status_ok err = false
  end.
Proof.
  intros Hr. unfold start_network. rewrite run_bind, run_gets.
  destruct (_ && _); [intros [= <- <-]; by split_and!|]. rewrite run_bind, run_gets. cbv zeta.
  set (c := config_ (group_ (nl_node s))).
  destruct (Initialize_flags (no_bind o) (no_contexts o) (listen_addr c) _ Hr) as [Hf Hi].
  destruct (Initialize _ _ _ (nl_network s)) as [st net]. cbn [fst snd] in *. rewrite run_bind, run_modify.
  destruct (status_ok st) eqn:Est; cbn [negb].
  2: { rewrite run_bind. destruct (close_persister_done (s <| nl_network := net |>)) as (s1&->&Hs&Hst).
    intros [= <- <-]. injection Hs as ?????. simpl in *. split_and!; try congruence. }
  assert (st = StOK) as -> by by destruct st. specialize (Hi eq_refl).
  rewrite run_bind, run_modify, run_bind, run_gets, run_bind, run_modify. simpl.
  destruct (start_flags (no_threads o) (SetBatchingEnabled tls (transport_batching_enabled (runtime_config_ (group_ (nl_node s)))) net))
    as (t'&->&[= _ Hrun]).
  { pose proof (f_equal fst (batching_flags tls (transport_batching_enabled (runtime_config_ (group_ (nl_node s)))) net)) as Hb.
    simpl in Hb. by rewrite Hb. }
  simpl. intros [= <- <-]. by split_and!.
Qed.

Lemma start_infrastructure_done o s r s' :
  0 < ts_next_timer_id (nl_timer s) < UINT64_MAX -> nl_server s = false -> start_infrastructure o s = Done r s' ->
  nl_node s' = nl_node s /\ storage s' = storage s /\ nl_network s' = nl_network s /\
  nl_apply_thread s' = nl_apply_thread s /\ ts_running (nl_timer s') = true /\
  IsTimerActive (nl_tick s') (nl_timer s') = true /\ nl_server s' = wants_node_server /\
  ts_next_timer_id (nl_timer s') = ts_next_timer_id (nl_timer s) + 1.
Proof.
  intros Hn Hs. unfold start_infrastructure. rewrite run_bind, run_modify, run_bind, run_gets. cbv zeta.
  rewrite run_bind, run_modify, run_bind, run_gets. simpl. rewrite Hs. cbn [negb]. rewrite andb_true_r.
  assert (u64 (ts_next_timer_id (nl_timer s) + 1) = ts_next_timer_id (nl_timer s) + 1) as Hu by (apply u64_small; lia).
  destruct wants_node_server eqn:Ew; [rewrite run_bind, run_modify|]; intros [= <- <-]; simpl; split_and!; try done;
    unfold IsTimerActive, kInvalidTimerId; apply bool_decide_eq_true; (split; [lia|]; simpl; set_solver).
Qed.


Lemma fail_start_done n err s r s' :
  0 < ts_next_timer_id (nl_timer s) <= n -> (manage_network_ = true -> infra_down s) -> nl_apply_thread s = false ->
  fail_start err s = Done r s' -> node_inv n (if r is inl _ then true else false) s'.
Proof. intros Hn Hd Ht [= <- <-]. split; [by split|done]. Qed.

(** The exception: everything but the apply thread is there. *)
Lemma thrown_inv n s :
  0 < ts_next_timer_id (nl_timer s) <= n -> state_ (nl_node s) = kRunning -> (manage_network_ = true -> infra_up s) ->
  nl_apply_thread s = false -> (env_persister = true -> storage s = (true, LpRunning)) -> node_inv n true s.
Proof.
  intros Hn Hst Hup Ht Hp. split; [|done]. unfold life_ok. rewrite Hst. split_and!; [done|done|].
  intros HP. specialize (Hp HP). unfold storage in Hp. split; congruence.
Qed.

Lemma finish_done n s s1 s' r r' :
  0 < ts_next_timer_id (nl_timer s) <= n -> state_ (nl_node s) = kRunning -> (manage_network_ = true -> infra_up s) ->
  (env_persister = true -> storage s = (true, LpRunning)) -> on_node enter_running s = Done tt s1 ->
  (on_node (publish_lifecycle true) ;; mret r : Prog NodeLife (string + Status)) (s1 <| nl_apply_thread := true |>) = Done r' s' ->
  r' = r /\ node_inv n false s'.
Proof.
  intros Hn Hst Hup Hp E1 E2. destruct (state_restore (mkStartAnswers StOK None None true [] StOK)) as (_&_&_&_&He&_).
  apply on_node_done in E1 as (A1&B1&C1); [|done].
  revert E2. rewrite run_bind. destruct (on_node (publish_lifecycle true) _) as [[] s2|] eqn:E2; [|done]. intros [= <- <-]. split; [done|].
  apply on_node_done in E2 as (A2&B2&C2); [|unfold publish_lifecycle; keeps_solve].
  unfold services, storage in *. simpl in *. injection B1 as Hn1 Ht1 Hk1 Hs1 _.
  injection B2 as Hn2 Ht2 Hk2 Hs2 Ha2. rewrite Hn1 in Hn2. rewrite Ht1 in Ht2. rewrite Hk1 in Hk2. rewrite Hs1 in Hs2.
  split; [|by rewrite Ht2]. unfold life_ok, infra_up in *. rewrite A2, A1, Hst, Hn2, Ht2, Hk2, Hs2, Ha2.
  split_and!; try done. intros HP. specialize (Hp HP). split; congruence.
Qed.

Lemma start_rest_done n o s r s' :
  n < UINT64_MAX -> 0 < ts_next_timer_id (nl_timer s) <= n -> state_ (nl_node s) = kRunning ->
  (manage_network_ = true -> infra_down s) -> nl_apply_thread s = false ->
  (env_persister = true -> storage s = (true, LpRunning)) ->
  start_rest_of o s = Done r s' -> node_inv (n + 1) (if r is inl _ then true else false) s'.
Proof.
  intros Hmax Hn Hst Hd Ht Hp. unfold start_rest_of. rewrite run_bind. destruct manage_network_ eqn:Em.
  - destruct (Hd eq_refl) as (Hd1&Hd2&Hd3&Hd4).
    destruct (start_network o s) as [bad s1|] eqn:E1; [|done].
    apply start_network_done in E1 as (A1&[= B1 B2 B3 B4]&C1); [|done]. destruct bad as [err|].
    { apply fail_start_done; [rewrite B1; lia| |congruence]. intros _. destruct C1. split_and!; congruence. }
    destruct C1 as [C1 D1]. rewrite run_bind.
    destruct (start_infrastructure o s1) as [exn s2|] eqn:E2; [|done].
    apply start_infrastructure_done in E2 as (A2&B2'&C2&D2&F2&G2&H2&I2); [|rewrite B1; lia|congruence].
    assert (infra_up s2) as Hup by (split_and!; try done; by rewrite C2). destruct exn as [what|].
    { intros [= <- <-]. apply thrown_inv; [rewrite I2, B1; lia|by rewrite A2, A1|done|congruence|by rewrite B2', D1]. }
    rewrite run_bind. destruct (on_node enter_running s2) as [[] s3|] eqn:E3; [|done].
    rewrite run_bind, run_modify. intros E4.
    apply (finish_done (n + 1) s2) in E4 as [-> ?]; [done|rewrite I2, B1; lia|by rewrite A2, A1|done|by rewrite B2', D1|done].
  - rewrite run_ret, run_bind, run_ret, run_bind. destruct (on_node enter_running s) as [[] s3|] eqn:E3; [|done].
    rewrite run_bind, run_modify. intros E4.
    apply (finish_done (n + 1) s) in E4 as [-> ?]; [done|lia|done|by rewrite Em|done|done].
Qed.

Lemma node_start_inv n x o s r s' :
  n < UINT64_MAX -> node_inv n x s -> NodeStart o s = Done r s' ->
  node_inv (n + 1) (x || if r is inl _ then true else false) s'.
Proof.
  intros Hmax [Hok Hn]. unfold NodeStart. rewrite run_bind, run_gets.
  case_decide as Es; [intros [= <- <-]; rewrite orb_false_r; split; [done|lia]|].
  unfold life_ok in Hok. rewrite Es in Hok. destruct Hok as (Hd&Ht&->). rewrite orb_false_l.
  rewrite run_bind. unfold on_node at 1. rewrite run_modify. set (s1 := s <| nl_node := _ |>). rewrite run_bind.
  assert (state_ (nl_node s1) = kRunning /\ services s1 = services s) as [A1 B1] by done. clearbody s1.
  match goal with |- context [match ?p s1 with Done _ _ => _ | Aborted _ => _ end] =>
    destruct (p s1) as [bad s2|] eqn:E2; [|done] end.
  assert (state_ (nl_node s2) = kRunning /\ services s2 = services s /\
    (bad = None -> env_persister = true -> storage s2 = (true, LpRunning))) as (A2&B2&C2).
  { destruct env_persister; [|by injection E2 as <- <-].
    apply start_persistence_done in E2 as (?&?&?). split_and!; [congruence|congruence|auto]. }
  clear E2 A1 B1. injection B2 as Hnet Htim Htick Hserv Hthr.
  assert (0 < ts_next_timer_id (nl_timer s2) <= n + 1) as Hn2 by (rewrite Htim; lia).
  assert (manage_network_ = true -> infra_down s2) as Hd2
    by (intros Hm; destruct (Hd Hm) as (?&?&?&?); split_and!; congruence).
  destruct bad as [err|].
  { apply fail_start_done; [done|done|congruence]. }
  destruct (state_restore (no_answers o)) as (_&_&_&Hrm&_&_). rewrite run_bind.
  destruct (on_node remove_received_files s2) as [[] s3|] eqn:E3; [|done].
  apply on_node_done in E3 as (A3&B3&C3); [|done]. rewrite A2 in A3. rewrite <- C3 in C2.
  injection B3 as Hnet3 Htim3 Htick3 Hserv3 Hthr3.
  assert (0 < ts_next_timer_id (nl_timer s3) <= n) as Hn3 by (rewrite Htim3, Htim; lia).
  assert (manage_network_ = true -> infra_down s3) as Hd3
    by (intros Hm; destruct (Hd2 Hm) as (?&?&?&?); split_and!; congruence).
  apply start_rest_done; [lia|done|done|done|congruence|by apply C2].
Qed.

Lemma node_step_inv n x s e s' :
  n < UINT64_MAX -> node_inv n x s -> node_step s e = Some s' -> node_inv (n + 1) (x || throws s e) s'.
Proof.
  intros Hmax Hs. assert (forall t, node_inv n x t -> node_inv (n + 1) (x || false) t) as Hw
    by (intros t [??]; rewrite orb_false_r; split; [done|lia]).
  destruct e as [o|timeout|m|e]; simpl.
  - destruct (NodeStart o s) as [r t|] eqn:E; [|done]. intros [= <-].
    replace (match r with inl _ => true | inr _ => false end) with (if r is inl _ then true else false) by done.
    by eapply node_start_inv.
  - destruct (NodeStop timeout s) as [r t|] eqn:E; [|done]. intros [= <-]. by eapply Hw, node_stop_inv.
  - case_decide as Hm; intros [= <-]; [|by apply Hw]. apply Hw. destruct Hs as [Hok Hn]. split; [|done].
    unfold life_ok in *. simpl. by rewrite Hm.
  - destruct (lifecycle_event e) eqn:El; intros [= <-]; [by apply Hw|]. apply Hw. destruct Hs as [Hok Hn]. split; [|done].
    pose proof (f_equal snd (tr_step_flags tls (nl_network s) e El)) as Hf. simpl in Hf.
    unfold life_ok, infra_up, infra_down in *. simpl. by rewrite Hf.
Qed.

(** C23. Whatever a new node goes through and whatever fails on the way, after each
    start, stop or other event that does not end the process: a running node has
    its open persister with the log persister's threads and, of the services it
    owns, the network, the timer service with an active tick and, if configured,
    the HTTP server's object; it has its apply thread exactly if no start was ended
    by an exception of the HTTP server ([server_exception_without_applying] is such
    a start); a node that has not started, or was refused with an error status,
    has no apply thread and runs none of the services it owns; a stopped one, also
    after a timeout once the shutdown thread has come to its end, has no log
    persister threads either. *)
Theorem node_up_or_down s events s' thrown :
  state_ (nl_node s) = kInitialized -> infra_down s -> nl_apply_thread s = false -> ts_next_timer_id (nl_timer s) = 1 ->
  Z.of_nat (length events) < UINT64_MAX - 1 -> node_run s events = Some (s', thrown) -> life_ok thrown s'.
Proof.
  intros Hst Hd Ht Hn Hl Hrun.
  assert (node_inv (1 + Z.of_nat (length events)) thrown s') as [Hok _]; [|done].
  revert s' thrown Hrun. induction events as [|e es IH] using rev_ind; intros s' thrown.
  { intros [= <- <-]. split; [|simpl; lia]. unfold life_ok. by rewrite Hst. }
  unfold node_run. rewrite foldl_app, length_app in *. simpl. fold (node_run s es).
  destruct (node_run s es) as [[t x]|]; [|done]. simpl. intros E. apply fmap_Some in E as (t'&E&[= -> ->]).
  replace (1 + Z.of_nat (length es + 1)) with (1 + Z.of_nat (length es) + 1) by lia.
  eapply node_step_inv; [simpl in Hl; lia| |done]. apply IH; [simpl in Hl; lia|done].
Qed.

End life.

(** ** Witness, and what a second start finds *)

Definition life_env : Env := sample_env true true 0.
Definition stored : list RaftLogEntry := [mkEntry 1 1 "a" "" 0; mkEntry 2 1 "b" "" 0].
Definition life_node : Node := mkNode (sample_group 1 [2; 3] false false) kInitialized false None ∅ [].
Definition new_life : NodeLife := mkNodeLife life_node false LpNone Transport_new TimerSvc_new 0 false false.

(** The listener can be opened or not; the HTTP server starts or throws. *)
Definition life_outcome (bind server : option string) : NodeOutcome :=
  mkNodeOutcome (mkStartAnswers StOK None None true stored StOK) true (fun _ => bind) None 4 server.

(** A start that cannot listen, one that can, and a stop with a timeout after
    three phases. *)
Definition life_events : list NodeEvent :=
  [NStart (life_outcome (Some "address in use") None); NStart (life_outcome None None); NStop (Some 3%nat)].

Lemma node_up_or_down_witness :
  exists s', @node_run life_env true false true "0.0.0.0:9001" new_life life_events = Some (s', false) /\
    state_ (nl_node s') = kStopped /\ infra_down s' /\ nl_log_persister s' <> LpRunning.
Proof.
  assert ((fun s => (state_ (nl_node s.1), s.2)) <$> @node_run life_env true false true "0.0.0.0:9001" new_life life_events
    = Some (kStopped, false)) as Hs by (vm_compute; reflexivity).
  destruct (@node_run life_env true false true "0.0.0.0:9001" new_life life_events) as [[s' x]|] eqn:E; [|done].
  injection Hs as Hs ->.
  pose proof (@node_up_or_down life_env true false true "0.0.0.0:9001" new_life life_events s' false eq_refl
    ltac:(by split_and!) eq_refl eq_refl ltac:(unfold UINT64_MAX; simpl; lia) E) as Hok.
  unfold life_ok in Hok. rewrite Hs in Hok. destruct Hok as (Hd&_&Hl). exists s'. split_and!; [done|done|by apply Hd|done].
Defined.

(** The state after some starts: of the node, the log persister, the persister,
    the network and the apply thread, the number of entries and the index of the
    entry found as number 3. *)
Definition after_starts (os : list NodeOutcome) :=
  (fun s => (state_ (nl_node s), nl_log_persister s, nl_persister s, tr_running (nl_network s), nl_apply_thread s,
             log_size (log_ (group_ (nl_node s))), index_ <$> GetEntry (log_ (group_ (nl_node s))) 3)) <$> (fst <$>
  @node_run life_env true false true "0.0.0.0:9001" new_life (NStart <$> os)).

(** After a start that could not listen, the log persister still runs over the
    closed persister; and a second start, which succeeds, appends the stored
    entries to those the first one had read: the log holds every entry twice, and
    what it takes for entry 3 is entry 1. *)
Lemma failed_start_then_started :
  after_starts [life_outcome (Some "address in use") None] =
    Some (kInitialized, LpRunning, false, false, false, 2, None) /\
  after_starts [life_outcome (Some "address in use") None; life_outcome None None] =
    Some (kRunning, LpRunning, true, true, true, 4, Some 1).
Proof. split; vm_compute; reflexivity. Qed.

(** An exception of the HTTP server's start leaves a node that counts as running
    and listens, but never applies a command. *)
Lemma server_exception_without_applying :
  after_starts [life_outcome None (Some "bind: Address already in use")] =
    Some (kRunning, LpRunning, true, true, false, 2, None).
Proof. vm_compute. reflexivity. Qed.
