(* ===== verification/Metrics.v ===== *)
(** * Metrics: [include/rollingraft/metrics.h], [src/metrics.cpp]

    Counters, gauges and histograms behind a registry, and the text it prints.
    Floating-point numbers are the class [Doubles].  A reference that the registry
    gives out is the number of its object; the objects live in a store of their
    own, so that two references to one object see each other's changes. *)

From stdpp Require Import sorting.
From S2P Require Import Prelude.

(** What is used of [double]: zero, sums and differences, the order, and the text
    that a stream prints. *)
Class Doubles := {
  double : Type;
  d_zero : double;
  d_add : double -> double -> double;
  d_sub : double -> double -> double;
  d_le : double -> double -> bool;
  d_show : double -> string
}.

(** The order is transitive. *)
Class DoublesLaws `{!Doubles} : Prop :=
  d_le_trans x y z : d_le x y = true -> d_le y z = true -> d_le x z = true.

Section metrics.
Context `{!Doubles}.

(** ** Counters, gauges and histograms *)

Record Counter := mkCounter { cn_value : Z }.
Definition CounterIncrement (delta : Z) (c : Counter) : Counter := mkCounter (u64 (cn_value c + delta)).

(** The bits of a value are copied in and out unchanged. *)
Record Gauge := mkGauge { gg_value : double }.
Definition GaugeSet (value : double) (g : Gauge) : Gauge := mkGauge value.
Definition GaugeIncrement (delta : double) (g : Gauge) : Gauge := GaugeSet (d_add (gg_value g) delta) g.
Definition GaugeDecrement (delta : double) (g : Gauge) : Gauge := GaugeSet (d_sub (gg_value g) delta) g.

(** [counts_] has one place more than [buckets_]. *)
Record Histogram := mkHistogram {
  hg_buckets : list double;
  hg_counts : list Z;
  hg_sum : double;
  hg_count : Z
}.
Definition Histogram_new (buckets : list double) : Histogram :=
  mkHistogram buckets (replicate (length buckets + 1) 0) d_zero 0.

Definition Observe (value : double) (h : Histogram) : Histogram :=
  mkHistogram (hg_buckets h)
    (imap (fun i c =>
       match hg_buckets h !! i with
       | Some b => if d_le value b then u64 (c + 1) else c
       | None => u64 (c + 1)
       end) (hg_counts h))
    (d_add (hg_sum h) value) (u64 (hg_count h + 1)).

Definition GetBucketCount (idx : nat) (h : Histogram) : option Z := hg_counts h !! idx.

(** ** The registry *)

(** The labels are the contents of a [std::map], in the order of their names. *)
Definition MetricKey : Type := string * list (string * string).

Record Registry := mkRegistry {
  rg_counters : gmap MetricKey nat;
  rg_gauges : gmap MetricKey nat;
  rg_histograms : gmap MetricKey nat;
  rg_counter : gmap nat Counter;
  rg_gauge : gmap nat Gauge;
  rg_histogram : gmap nat Histogram;
  rg_next : nat
}.
#[global] Instance Registry_eta : Eta Registry := fun r =>
  mkRegistry (rg_counters r) (rg_gauges r) (rg_histograms r) (rg_counter r) (rg_gauge r) (rg_histogram r) (rg_next r).

Definition Registry_new : Registry := mkRegistry ∅ ∅ ∅ ∅ ∅ ∅ 0.

Definition GetCounter (key : MetricKey) (r : Registry) : nat * Registry :=
  match rg_counters r !! key with
  | Some id => (id, r)
  | None =>
      (rg_next r, r <| rg_counters ::= <[key := rg_next r]> |> <| rg_counter ::= <[rg_next r := mkCounter 0]> |>
                    <| rg_next ::= S |>)
  end.

Definition GetGauge (key : MetricKey) (r : Registry) : nat * Registry :=
  match rg_gauges r !! key with
  | Some id => (id, r)
  | None =>
      (rg_next r, r <| rg_gauges ::= <[key := rg_next r]> |> <| rg_gauge ::= <[rg_next r := mkGauge d_zero]> |>
                    <| rg_next ::= S |>)
  end.

(** The buckets count for the first call only. *)
Definition GetHistogram (key : MetricKey) (buckets : list double) (r : Registry) : nat * Registry :=
  match rg_histograms r !! key with
  | Some id => (id, r)
  | None =>
      (rg_next r, r <| rg_histograms ::= <[key := rg_next r]> |>
                    <| rg_histogram ::= <[rg_next r := Histogram_new buckets]> |> <| rg_next ::= S |>)
  end.

(** The object goes with the entry. *)
Definition RemoveCounter (key : MetricKey) (r : Registry) : Registry :=
  match rg_counters r !! key with
  | Some id => r <| rg_counters ::= delete key |> <| rg_counter ::= delete id |>
  | None => r
  end.
Definition RemoveGauge (key : MetricKey) (r : Registry) : Registry :=
  match rg_gauges r !! key with
  | Some id => r <| rg_gauges ::= delete key |> <| rg_gauge ::= delete id |>
  | None => r
  end.
Definition RemoveHistogram (key : MetricKey) (r : Registry) : Registry :=
  match rg_histograms r !! key with
  | Some id => r <| rg_histograms ::= delete key |> <| rg_histogram ::= delete id |>
  | None => r
  end.

(** ** The text *)

Definition quote_char : string := String (Ascii.ascii_of_nat 34) "".
Definition newline : string := String (Ascii.ascii_of_nat 10) "".

Definition format_label (kv : string * string) : string := kv.1 +:+ "=" +:+ quote_char +:+ kv.2 +:+ quote_char.
Definition label_list (labels : list (string * string)) : string := String.concat "," (map format_label labels).
Definition FormatLabels (labels : list (string * string)) : string :=
  if decide (labels = []) then "" else "{" +:+ label_list labels +:+ "}".

Definition type_line (name kind : string) : string := "# TYPE " +:+ name +:+ " " +:+ kind +:+ newline.
Definition value_line (name labels value : string) : string := name +:+ labels +:+ " " +:+ value +:+ newline.

Definition format_counter (key : MetricKey) (c : Counter) : string :=
  type_line key.1 "counter" +:+ value_line key.1 (FormatLabels key.2) (pretty (cn_value c)).
Definition format_gauge (key : MetricKey) (g : Gauge) : string :=
  type_line key.1 "gauge" +:+ value_line key.1 (FormatLabels key.2) (d_show (gg_value g)).

(** [lbl.substr(1, lbl.size() - 2)] is the list of the labels again. *)
Definition bucket_line (key : MetricKey) (bound : string) (count : Z) : string :=
  let lbl := FormatLabels key.2 in
  key.1 +:+ "_bucket{le=" +:+ quote_char +:+ bound +:+ quote_char +:+
  (if decide (lbl = "") then "" else "," +:+ String.substring 1 (String.length lbl - 2) lbl) +:+
  "} " +:+ pretty count +:+ newline.
Definition format_histogram (key : MetricKey) (h : Histogram) : string :=
  type_line key.1 "histogram" +:+
  String.concat "" (zip_with (fun b c => bucket_line key (d_show b) c) (hg_buckets h) (hg_counts h)) +:+
  bucket_line key "+Inf" (default 0 (GetBucketCount (length (hg_buckets h)) h)) +:+
  value_line (key.1 +:+ "_sum") (FormatLabels key.2) (d_show (hg_sum h)) +:+
  value_line (key.1 +:+ "_count") (FormatLabels key.2) (pretty (hg_count h)).

(** Keys are ordered by name, then by their labels in turn. *)
Fixpoint labels_compare (a b : list (string * string)) : comparison :=
  match a, b with
  | [], [] => Eq
  | [], _ :: _ => Lt
  | _ :: _, [] => Gt
  | (k, v) :: a, (k', v') :: b =>
      match String.compare k k' with
      | Eq => match String.compare v v' with Eq => labels_compare a b | c => c end
      | c => c
      end
  end.
Definition key_compare (a b : MetricKey) : comparison :=
  match String.compare a.1 b.1 with Eq => labels_compare a.2 b.2 | c => c end.
Definition pair_before {V : Type} (p q : MetricKey * V) : Prop := key_compare p.1 q.1 <> Gt.
#[global] Instance pair_before_dec {V : Type} (p q : MetricKey * V) : Decision (pair_before p q).
Proof. unfold pair_before. apply _. Defined.

(** What a table of references leads to, and the walk through it. *)
Definition contents {V : Type} (refs : gmap MetricKey nat) (objects : gmap nat V) : gmap MetricKey V :=
  omap (fun id => objects !! id) refs.
Definition print_all {V : Type} (format : MetricKey -> V -> string) (m : gmap MetricKey V) : string :=
  String.concat "" (map (fun p => format p.1 p.2) (merge_sort pair_before (map_to_list m))).

Definition FormatPrometheus (r : Registry) : string :=
  print_all format_counter (contents (rg_counters r) (rg_counter r)) +:+
  print_all format_gauge (contents (rg_gauges r) (rg_gauge r)) +:+
  print_all format_histogram (contents (rg_histograms r) (rg_histogram r)).

(** ** Histograms count *)

Definition observed (h : Histogram) (values : list double) : Histogram := foldl (fun h v => Observe v h) h values.
Definition at_most (values : list double) (b : double) : Z :=
  Z.of_nat (length (filter (fun v => d_le v b = true) values)).

Lemma observed_counts buckets values :
  observed (Histogram_new buckets) values =
    mkHistogram buckets (map (fun b => u64 (at_most values b)) buckets ++ [u64 (Z.of_nat (length values))])
      (foldl d_add d_zero values) (u64 (Z.of_nat (length values))).
Proof.
  induction values as [|v values IH] using rev_ind.
  { unfold observed, Histogram_new. simpl. f_equal. rewrite replicate_add. f_equal.
    induction buckets as [|b buckets IHb]; [done|]. simpl. by f_equal. }
  unfold observed in *. rewrite foldl_app, IH. simpl. unfold Observe. simpl. rewrite foldl_app, length_app. simpl.
  assert (forall x, u64 (u64 x + 1) = u64 (x + 1)) as Hu by (intros x; unfold u64; by rewrite Zplus_mod_idemp_l).
  rewrite imap_app, Hu, Nat2Z.inj_add. f_equal. f_equal.
  - apply list_eq. intros i. rewrite list_lookup_imap, !list_lookup_fmap.
    destruct (buckets !! i) as [b|]; [|done]. simpl. f_equal. unfold at_most.
    rewrite list.filter_app, length_app, filter_cons, Nat2Z.inj_add. destruct (d_le v b) eqn:El; simpl.
    + rewrite Hu. done.
    + f_equal. lia.
  - simpl. rewrite length_fmap, Nat.add_0_r, lookup_ge_None_2, Hu by lia. done.
Qed.

Lemma at_most_bounds values b : 0 <= at_most values b <= Z.of_nat (length values).
Proof. unfold at_most. pose proof (length_filter (fun v => d_le v b = true) values). lia. Qed.

Lemma at_most_mono `{!DoublesLaws} values b b' : d_le b b' = true -> at_most values b <= at_most values b'.
Proof.
  intros Hb. unfold at_most. induction values as [|v values IH]; [done|]. rewrite !filter_cons.
  destruct (decide (d_le v b = true)) as [H1|H1]; [rewrite decide_True by (by eapply d_le_trans); simpl; lia|].
  destruct (decide (d_le v b' = true)); simpl; lia.
Qed.

(** A histogram that has seen fewer than 2^64 values counts them: all of them,
    and for every bucket those that are not above its bound.  When the bounds
    ascend the counts do, up to the bucket of all values. *)
Theorem histogram_counts `{!DoublesLaws} buckets values :
  Z.of_nat (length values) <= UINT64_MAX ->
  let h := observed (Histogram_new buckets) values in
  hg_count h = Z.of_nat (length values) /\
  (forall i b, buckets !! i = Some b -> GetBucketCount i h = Some (at_most values b)) /\
  GetBucketCount (length buckets) h = Some (Z.of_nat (length values)) /\
  (StronglySorted (fun b b' => d_le b b' = true) buckets -> StronglySorted Z.le (hg_counts h)).
Proof.
  intros Hn. cbv zeta. rewrite observed_counts.
  assert (forall b, u64 (at_most values b) = at_most values b) as Hu
    by (intros b; apply u64_small; pose proof (at_most_bounds values b); lia).
  rewrite (u64_small (Z.of_nat (length values))) by lia. split_and!; [done|..]; unfold GetBucketCount; simpl.
  - intros i b Hi. rewrite lookup_app, list_lookup_fmap, Hi. simpl. by rewrite Hu.
  - rewrite lookup_app_r by (by rewrite length_fmap). by rewrite length_fmap, Nat.sub_diag.
  - intros Hs. apply StronglySorted_app_2; [|induction Hs as [|b bs Hs IH Hb]; [constructor|]|by repeat constructor].
    + intros x y Hx ->%list_elem_of_singleton. apply list_elem_of_fmap in Hx as (b&->&_). rewrite Hu. apply at_most_bounds.
    + simpl. constructor; [done|]. apply list.Forall_forall. intros x Hx. apply list_elem_of_fmap in Hx as (b'&->&Hb').
      rewrite !Hu. apply at_most_mono. rewrite list.Forall_forall in Hb. auto.
Qed.

(** ** The registry is three maps *)

Inductive MetricCall :=
| Count (key : MetricKey) (delta : Z)
| SetGauge (key : MetricKey) (value : double)
| RaiseGauge (key : MetricKey) (delta : double)
| LowerGauge (key : MetricKey) (delta : double)
| ObserveIn (key : MetricKey) (buckets : list double) (value : double)
| DropCounter (key : MetricKey)
| DropGauge (key : MetricKey)
| DropHistogram (key : MetricKey).

Definition metric_call (r : Registry) (c : MetricCall) : Registry :=
  match c with
  | Count key delta => let '(id, r) := GetCounter key r in r <| rg_counter ::= alter (CounterIncrement delta) id |>
  | SetGauge key value => let '(id, r) := GetGauge key r in r <| rg_gauge ::= alter (GaugeSet value) id |>
  | RaiseGauge key delta => let '(id, r) := GetGauge key r in r <| rg_gauge ::= alter (GaugeIncrement delta) id |>
  | LowerGauge key delta => let '(id, r) := GetGauge key r in r <| rg_gauge ::= alter (GaugeDecrement delta) id |>
  | ObserveIn key buckets value =>
      let '(id, r) := GetHistogram key buckets r in r <| rg_histogram ::= alter (Observe value) id |>
  | DropCounter key => RemoveCounter key r
  | DropGauge key => RemoveGauge key r
  | DropHistogram key => RemoveHistogram key r
  end.

Definition MetricMaps : Type := gmap MetricKey Counter * gmap MetricKey Gauge * gmap MetricKey Histogram.
Definition update {V : Type} (new : V) (f : V -> V) (key : MetricKey) (m : gmap MetricKey V) : gmap MetricKey V :=
  <[key := f (default new (m !! key))]> m.
Definition spec_call (m : MetricMaps) (c : MetricCall) : MetricMaps :=
  let '(cs, gs, hs) := m in
  match c with
  | Count key delta => (update (mkCounter 0) (CounterIncrement delta) key cs, gs, hs)
  | SetGauge key value => (cs, update (mkGauge d_zero) (GaugeSet value) key gs, hs)
  | RaiseGauge key delta => (cs, update (mkGauge d_zero) (GaugeIncrement delta) key gs, hs)
  | LowerGauge key delta => (cs, update (mkGauge d_zero) (GaugeDecrement delta) key gs, hs)
  | ObserveIn key buckets value => (cs, gs, update (Histogram_new buckets) (Observe value) key hs)
  | DropCounter key => (delete key cs, gs, hs)
  | DropGauge key => (cs, delete key gs, hs)
  | DropHistogram key => (cs, gs, delete key hs)
  end.

(** References lead to objects, different keys to different ones. *)
Definition table_ok {V : Type} (refs : gmap MetricKey nat) (objects : gmap nat V) (next : nat) : Prop :=
  (forall k id, refs !! k = Some id -> is_Some (objects !! id)) /\
  (forall k k' id, refs !! k = Some id -> refs !! k' = Some id -> k = k') /\
  (forall id, is_Some (objects !! id) -> (id < next)%nat).

Section table.
Context {V : Type} (refs : gmap MetricKey nat) (objects : gmap nat V) (next : nat).
Hypothesis Hok : table_ok refs objects next.

Lemma table_alter f key id :
  refs !! key = Some id ->
  table_ok refs (alter f id objects) next /\
  forall new, contents refs (alter f id objects) = update new f key (contents refs objects).
Proof.
  destruct Hok as (H1&H2&H3). intros Hk. split.
  - split_and!; [|done|]; intros.
    + destruct (decide (id0 = id)) as [->|?]; [rewrite lookup_alter_eq, fmap_is_Some; eauto|].
      rewrite lookup_alter_ne by done. eauto.
    + apply H3. destruct (decide (id0 = id)) as [->|?]; [by rewrite lookup_alter_eq, fmap_is_Some in *|].
      by rewrite lookup_alter_ne in *.
  - intros new. apply map_eq. intros k. unfold contents, update. destruct (decide (k = key)) as [->|Hne].
    + rewrite lookup_insert_eq, !lookup_omap, Hk. simpl. rewrite lookup_alter_eq.
      destruct (H1 _ _ Hk) as [v ->]. done.
    + rewrite lookup_insert_ne, !lookup_omap by done. destruct (refs !! k) as [id'|] eqn:E; [|done]. simpl.
      apply lookup_alter_ne. intros ->. by apply Hne, (H2 _ _ id').
Qed.

Lemma table_new v key :
  refs !! key = None ->
  table_ok (<[key := next]> refs) (<[next := v]> objects) (S next) /\
  contents (<[key := next]> refs) (<[next := v]> objects) = <[key := v]> (contents refs objects).
Proof.
  destruct Hok as (H1&H2&H3). intros Hk.
  assert (forall k id, refs !! k = Some id -> id <> next) as Hne.
  { intros k id Hid ->. destruct (H1 _ _ Hid) as [v' Hv']. pose proof (H3 next (ex_intro _ v' Hv')). lia. }
  split; [split_and!|].
  - intros k id Hid. apply lookup_insert_Some in Hid as [[_ <-]|[_ Hid]]; [rewrite lookup_insert_eq; eauto|].
    rewrite lookup_insert_ne by (apply not_eq_sym; eauto). eauto.
  - intros k k' id Hid Hid'. apply lookup_insert_Some in Hid as [[<- <-]|[_ Hid]];
      apply lookup_insert_Some in Hid' as [[<- Heq]|[_ Hid']]; [done|by apply Hne in Hid'| |eauto].
    by apply Hne in Hid.
  - intros id [v' Hid]. apply lookup_insert_Some in Hid as [[<- _]|[_ Hid]]; [lia|].
    pose proof (H3 id (ex_intro _ v' Hid)). lia.
  - apply map_eq. intros k. unfold contents. rewrite lookup_omap. destruct (decide (k = key)) as [->|Hkk].
    + rewrite !lookup_insert_eq. simpl. by rewrite lookup_insert_eq.
    + rewrite !lookup_insert_ne, lookup_omap by done. destruct (refs !! k) as [id|] eqn:E; [|done]. simpl.
      apply lookup_insert_ne. apply not_eq_sym. eauto.
Qed.

Lemma metric_delete key id :
  refs !! key = Some id ->
  table_ok (delete key refs) (delete id objects) next /\
  contents (delete key refs) (delete id objects) = delete key (contents refs objects).
Proof.
  destruct Hok as (H1&H2&H3). intros Hk.
  assert (forall k id', delete key refs !! k = Some id' -> id' <> id /\ refs !! k = Some id') as Hd.
  { intros k id' Hid. apply lookup_delete_Some in Hid as [Hne Hid]. split; [|done]. intros ->. by apply Hne, (H2 _ _ id). }
  split; [split_and!|].
  - intros k id' [Hne Hid]%Hd. rewrite lookup_delete_ne by done. eauto.
  - intros k k' id' [_ Hid]%Hd [_ Hid']%Hd. eauto.
  - intros id' [v Hid]. apply lookup_delete_Some in Hid as [_ Hid]. apply H3. eauto.
  - apply map_eq. intros k. unfold contents. destruct (decide (k = key)) as [->|Hkk].
    + by rewrite lookup_omap, !lookup_delete_eq.
    + rewrite !lookup_omap, !lookup_delete_ne, lookup_omap by done. destruct (refs !! k) as [id'|] eqn:E; [|done]. simpl.
      apply lookup_delete_ne. intros ->. by apply Hkk, (H2 _ _ id').
Qed.

Lemma table_next next' : (next <= next')%nat -> table_ok refs objects next'.
Proof. destruct Hok as (H1&H2&H3). intros Hl. split_and!; [done..|]. intros id Hid. specialize (H3 id Hid). lia. Qed.
End table.

Lemma table_empty {V : Type} : table_ok (V := V) ∅ ∅ 0.
Proof.
  split_and!; [intros k id Hx|intros k k' id Hx|intros id [v Hx]]; by rewrite lookup_empty in Hx.
Qed.

Definition registry_ok (r : Registry) : Prop :=
  table_ok (rg_counters r) (rg_counter r) (rg_next r) /\ table_ok (rg_gauges r) (rg_gauge r) (rg_next r) /\
  table_ok (rg_histograms r) (rg_histogram r) (rg_next r).
Definition registry_maps (r : Registry) : MetricMaps :=
  (contents (rg_counters r) (rg_counter r), contents (rg_gauges r) (rg_gauge r),
   contents (rg_histograms r) (rg_histogram r)).

(** Looking an object up and changing it, in one of the tables. *)
Lemma table_call {V : Type} refs (objects : gmap nat V) next new f key :
  table_ok refs objects next ->
  let '(id, refs', objects', next') :=
    match refs !! key with
    | Some id => (id, refs, objects, next)
    | None => (next, <[key := next]> refs, <[next := new]> objects, S next)
    end in
  table_ok refs' (alter f id objects') next' /\
  contents refs' (alter f id objects') = update new f key (contents refs objects) /\ (next <= next')%nat.
Proof.
  intros Hok. destruct (refs !! key) as [id|] eqn:Hk.
  - destruct (table_alter refs objects next Hok f key id Hk) as [H1 H2]. by split_and!.
  - destruct (table_new refs objects next Hok new key Hk) as [H1 H2].
    destruct (table_alter _ _ _ H1 f key next ltac:(by rewrite lookup_insert_eq)) as [H3 H4].
    split_and!; [done| |lia]. rewrite (H4 new), H2. unfold update.
    rewrite lookup_insert_eq, insert_insert_eq. unfold contents. by rewrite lookup_omap, Hk.
Qed.

Lemma table_drop {V : Type} refs (objects : gmap nat V) next key :
  table_ok refs objects next ->
  let '(refs', objects') :=
    match refs !! key with Some id => (delete key refs, delete id objects) | None => (refs, objects) end in
  table_ok refs' objects' next /\ contents refs' objects' = delete key (contents refs objects).
Proof.
  intros Hok. destruct (refs !! key) as [id|] eqn:Hk; [by apply metric_delete|]. split; [done|].
  symmetry. apply delete_id. unfold contents. by rewrite lookup_omap, Hk.
Qed.

(** One table changes as [Ht] says, the others stay. *)
Ltac metric_table Ht :=
  match type of Ht with context [match ?m !! ?k with _ => _ end] => destruct (m !! k) end;
  first [destruct Ht as (?&Ht&?) | destruct Ht as (?&Ht)];
  (split; [split_and!; simpl; first [assumption | eapply table_next; [eassumption|lia]]
          |unfold registry_maps; simpl; first [by rewrite Ht | by rewrite <- Ht]]).

Lemma metric_call_refines r c :
  registry_ok r -> registry_ok (metric_call r c) /\ registry_maps (metric_call r c) = spec_call (registry_maps r) c.
Proof.
  intros (Hc&Hg&Hh). destruct c as [key d|key v|key d|key d|key bs v|key|key|key]; simpl.
  - unfold GetCounter. pose proof (table_call _ _ _ (mkCounter 0) (CounterIncrement d) key Hc) as Ht. metric_table Ht.
  - unfold GetGauge. pose proof (table_call _ _ _ (mkGauge d_zero) (GaugeSet v) key Hg) as Ht. metric_table Ht.
  - unfold GetGauge. pose proof (table_call _ _ _ (mkGauge d_zero) (GaugeIncrement d) key Hg) as Ht. metric_table Ht.
  - unfold GetGauge. pose proof (table_call _ _ _ (mkGauge d_zero) (GaugeDecrement d) key Hg) as Ht. metric_table Ht.
  - unfold GetHistogram. pose proof (table_call _ _ _ (Histogram_new bs) (Observe v) key Hh) as Ht. metric_table Ht.
  - unfold RemoveCounter. pose proof (table_drop _ _ _ key Hc) as Ht. metric_table Ht.
  - unfold RemoveGauge. pose proof (table_drop _ _ _ key Hg) as Ht. metric_table Ht.
  - unfold RemoveHistogram. pose proof (table_drop _ _ _ key Hh) as Ht. metric_table Ht.
Qed.

Definition print_maps (m : MetricMaps) : string :=
  print_all format_counter m.1.1 +:+ print_all format_gauge m.1.2 +:+ print_all format_histogram m.2.


(** ** Gauges in two threads *)

(** [Increment] loads the value and stores the sum.  [order] says which thread takes
    the next step: its first loads, its second stores. *)
Definition gauge_threads (delta : double) (order : list bool) (start : Gauge) : Gauge :=
  (foldl (fun '(g, loaded) (second : bool) =>
     match loaded !! second with
     | None => (g, <[second := gg_value g]> loaded)
     | Some v => (GaugeSet (d_add v delta) g, loaded)
     end) (start, (∅ : gmap bool double)) order).1.

(** Two threads that load before either stores raise the gauge once. *)
Lemma gauge_increment_lost delta g :
  gauge_threads delta [false; false; true; true] g = GaugeIncrement delta (GaugeIncrement delta g) /\
  gauge_threads delta [false; true; false; true] g = GaugeIncrement delta g.
Proof. by split. Qed.

End metrics.

(** ** Whole numbers as values *)

Module WholeNumbers.
#[export] Instance whole : Doubles := {
  double := Z; d_zero := 0; d_add := Z.add; d_sub := Z.sub; d_le := Z.leb; d_show := pretty
}.
#[export] Instance whole_laws : DoublesLaws.
Proof. intros x y z Hx Hy. apply Z.leb_le in Hx, Hy. apply Z.leb_le. simpl in *. lia. Qed.

Definition sample_histogram : Histogram := @observed whole (@Histogram_new whole [1; 5; 10]) [3; 7; 12; 5].

Lemma histogram_counts_witness :
  hg_counts sample_histogram = [0; 2; 3; 4] /\ StronglySorted Z.le (hg_counts sample_histogram).
Proof.
  split; [reflexivity|].
  destruct (@histogram_counts whole whole_laws [1; 5; 10] [3; 7; 12; 5] ltac:(unfold UINT64_MAX; simpl; lia))
    as (_&_&_&H).
  apply H. repeat constructor.
Defined.

(** A metric with two sets of labels is printed with its type twice. *)
Lemma type_printed_twice :
  let key p : MetricKey := ("up", [("peer", p)]) in
  FormatPrometheus (foldl metric_call Registry_new [Count (key "1") 2; Count (key "2") 3]) =
    type_line "up" "counter" +:+ value_line "up" (FormatLabels [("peer", "1")]) "2" +:+
    type_line "up" "counter" +:+ value_line "up" (FormatLabels [("peer", "2")]) "3".
Proof. vm_compute. reflexivity. Qed.
End WholeNumbers.
