(* ===== verification/Counter.v ===== *)
(** * The replicated counter of the examples

    [example/multi_raft/multi_raft_server.cpp]: the state machine [CounterMachine]
    with its snapshots, and the node ids that the servers derive from their
    addresses; and the [Apply] of [example/counter/counter_server.cpp], which lets
    the exceptions of [std::stoll] out.  A callback is a number. *)

From stdpp Require Import sorting.
From S2P Require Import Prelude Types Bytes RaftLog Quorum Sessions RaftGroup Timers Replicate Membership Text.

(** ** Snapshots *)

Definition int64_ok (z : Z) : bool := bool_decide (-9223372036854775808 <= z <= 9223372036854775807).
(** An [int64_t] read back from its eight bytes. *)
Definition i64 (z : Z) : Z :=
  let m := z mod 18446744073709551616 in
  if decide (m < 9223372036854775808) then m else m - 18446744073709551616.

Definition counter_data (value : Z) : bytes := le 8 value.

(** [Read]: the bytes put into the buffer. *)
Definition CounterSnapshotRead (data : bytes) (offset length_ : Z) : bytes :=
  if decide (Z.of_nat (length data) < offset) then []
  else take (Z.to_nat (Z.min (Z.of_nat (length data) - offset) length_)) (drop (Z.to_nat offset) data).

Definition CounterSnapshot (value index term : Z) : Snapshot :=
  mkSnapshot index term (fun offset len =>
    String.string_of_list_byte (CounterSnapshotRead (counter_data value) offset len)).

(** ** The machine *)

(** [cm_waiters] is the multimap in its order, [cm_called] the callbacks called. *)
Record CounterMachine := mkCounterMachine {
  cm_value : Z;
  cm_last_applied : Z;
  cm_waiters : list (Z * nat);
  cm_called : list nat
}.
#[global] Instance CounterMachine_eta : Eta CounterMachine := fun r =>
  mkCounterMachine (cm_value r) (cm_last_applied r) (cm_waiters r) (cm_called r).

Definition CounterMachine_new : CounterMachine := mkCounterMachine 0 0 [] [].

(** What a command adds; [None] is an exception of [std::stoll]. *)
Definition counter_delta (cmd : string) : option Z :=
  if decide (cmd = "inc") then Some 1
  else if decide (cmd = "dec") then Some (-1)
  else if starts_with cmd "add " then stoll (substr_from 4 cmd)
  else if starts_with cmd "sub " then Z.opp <$> stoll (substr_from 4 cmd)
  else Some 0.

Fixpoint NotifyWaitersLocked (index : Z) (waiters : list (Z * nat)) : list nat * list (Z * nat) :=
  match waiters with
  | (i, cb) :: rest =>
      if decide (i <= index) then let '(called, waiting) := NotifyWaitersLocked index rest in (cb :: called, waiting)
      else ([], waiters)
  | [] => ([], [])
  end.

Definition applied (index : Z) (m : CounterMachine) : ApplyResult * CounterMachine :=
  let '(called, waiting) := NotifyWaitersLocked index (cm_waiters m) in
  (mkApplyResult true (pretty (cm_value m)) index "",
   m <| cm_last_applied := index |> <| cm_waiters := waiting |> <| cm_called ::= fun c => c ++ called |>).

(** [what] is the text of the exception; [None] is the overflow of a signed
    number, which has no defined result. *)
Definition CounterApply (what : string) (cmd : string) (index : Z) (m : CounterMachine) :
    option (ApplyResult * CounterMachine) :=
  match counter_delta cmd with
  | None => Some (mkApplyResult false "" index ("invalid command: " +:+ what), m)
  | Some delta =>
      if int64_ok (cm_value m + delta) then Some (applied index (m <| cm_value ::= Z.add delta |>)) else None
  end.

(** The same machine of [counter_server.cpp]; [inl] is the exception. *)
Definition CounterServerApply (what : string) (cmd : string) (index : Z) (m : CounterMachine) :
    option (string + ApplyResult * CounterMachine) :=
  match counter_delta cmd with
  | None => Some (inl what)
  | Some delta =>
      if int64_ok (cm_value m + delta) then Some (inr (applied index (m <| cm_value ::= Z.add delta |>))) else None
  end.

Definition CounterCreateSnapshot (m : CounterMachine) : Snapshot :=
  CounterSnapshot (cm_value m) (cm_last_applied m) 0.

Definition CounterRestore (snapshot : bytes) (m : CounterMachine) : bool * CounterMachine :=
  if decide (length snapshot < 8)%nat then (false, m)
  else (true, m <| cm_value := i64 (le_val (take 8 snapshot)) |>).

(** [emplace] puts an element behind those with the same key. *)
Fixpoint insert_waiter (index : Z) (cb : nat) (waiters : list (Z * nat)) : list (Z * nat) :=
  match waiters with
  | (i, cb') :: rest => if decide (i <= index) then (i, cb') :: insert_waiter index cb rest else (index, cb) :: waiters
  | [] => [(index, cb)]
  end.

Definition CounterWaitIndex (index : Z) (cb : nat) (m : CounterMachine) : CounterMachine :=
  if decide (index <= cm_last_applied m) then m <| cm_called ::= fun c => c ++ [cb] |>
  else m <| cm_waiters ::= insert_waiter index cb |>.

Definition CounterQuery (m : CounterMachine) : ApplyResult :=
  mkApplyResult true (pretty (cm_value m)) (cm_last_applied m) "".

(** ** Node ids *)

Definition NormalizeAddr (addr : string) : string :=
  if decide (String.index 0 ":" addr = None) then "127.0.0.1:" +:+ addr else addr.
Definition CanonicalAddr (addr : string) : string :=
  if starts_with addr "0.0.0.0:" then "127.0.0.1:" +:+ substr_from 8 addr else addr.

(** The set in its order, and the ids given out in turn. *)
Definition sorted_addrs (addrs : list string) : list string :=
  merge_sort String.le (elements (list_to_set (CanonicalAddr <$> addrs) : gset string)).
Definition addr_to_id (addrs : list string) (addr : string) : option Z :=
  (fun p => Z.of_nat p.1 + 1) <$> list_find (fun a => a = addr) (sorted_addrs addrs).

(** The node's id, and those of the peers in their order; [None] is [false]. *)
Definition BuildNodeMapping (listen_addr : string) (peer_addrs : list string) : option (Z * list Z) :=
  let ids := addr_to_id (listen_addr :: peer_addrs) in
  node_id ← ids (CanonicalAddr listen_addr);
  peer_ids ← mapM (fun peer => ids (CanonicalAddr peer)) peer_addrs;
  Some (node_id, peer_ids).

(** ** A snapshot stands for the commands before it *)

Fixpoint apply_all (what : string) (cmds : list (string * Z)) (m : CounterMachine) : option CounterMachine :=
  match cmds with
  | [] => Some m
  | (cmd, index) :: rest =>
      match CounterApply what cmd index m with Some (_, m') => apply_all what rest m' | None => None end
  end.

Lemma CounterApply_value what cmd index m :
  int64_ok (cm_value m) = true ->
  match CounterApply what cmd index m with
  | Some (_, m') => cm_value m' = cm_value m + default 0 (counter_delta cmd) /\ int64_ok (cm_value m') = true
  | None => int64_ok (cm_value m + default 0 (counter_delta cmd)) = false
  end.
Proof.
  intros Hm. unfold CounterApply, applied. destruct (counter_delta cmd) as [d|]; simpl; [|by rewrite Z.add_0_r].
  destruct (int64_ok (cm_value m + d)) eqn:E; [|done]. simpl.
  destruct (NotifyWaitersLocked _ _) as [called waiting]. simpl. split; [lia|]. by rewrite Z.add_comm.
Qed.

(** The value depends on the value before and the commands only. *)
Lemma apply_all_value what cmds m m0 :
  int64_ok (cm_value m) = true -> cm_value m = cm_value m0 ->
  cm_value <$> apply_all what cmds m = cm_value <$> apply_all what cmds m0 /\
  forall m', apply_all what cmds m = Some m' -> int64_ok (cm_value m') = true.
Proof.
  revert m m0. induction cmds as [|[cmd index] cmds IH]; intros m m0 Hm E; simpl.
  { split; [by rewrite E|]. by intros m' [= <-]. }
  pose proof (CounterApply_value what cmd index m Hm) as H1.
  pose proof (CounterApply_value what cmd index m0 ltac:(by rewrite <- E)) as H2.
  destruct (CounterApply what cmd index m) as [[r m1]|], (CounterApply what cmd index m0) as [[r0 m2]|]; [| | |done].
  - destruct H1 as [H1 Hok], H2 as [H2 _]. apply IH; [done|congruence].
  - destruct H1 as [H1 Hok]. rewrite <- E, <- H1 in H2. congruence.
  - destruct H2 as [H2 Hok]. rewrite E, <- H2 in H1. congruence.
Qed.

Lemma apply_all_app what pre post m :
  apply_all what (pre ++ post) m = match apply_all what pre m with Some m' => apply_all what post m' | None => None end.
Proof.
  revert m. induction pre as [|[cmd index] pre IH]; intros m; [done|]. simpl.
  destruct (CounterApply what cmd index m) as [[r m']|]; [apply IH|done].
Qed.

Lemma restore_data v m : int64_ok v = true -> CounterRestore (counter_data v) m = (true, m <| cm_value := v |>).
Proof.
  unfold int64_ok. intros Hv%bool_decide_eq_true. unfold CounterRestore, counter_data.
  rewrite decide_False by (rewrite length_le; lia). rewrite take_ge by (rewrite length_le; lia).
  rewrite le_val_le. assert (i64 (v mod 256 ^ Z.of_nat 8) = v) as ->; [|done].
  unfold i64. change (256 ^ Z.of_nat 8) with 18446744073709551616. rewrite Z.mod_mod by lia. destruct (decide (0 <= v)).
  - rewrite Z.mod_small by lia. by rewrite decide_True by lia.
  - rewrite <- (Z_mod_plus_full v 1), Z.mod_small by lia. rewrite decide_False by lia. lia.
Qed.

(** A machine that is restored from the snapshot of another one and applies the
    commands after it ends with the value of a machine that applied them all. *)
Theorem counter_snapshot_replaces_log what pre post m0 m1 m :
  apply_all what (pre ++ post) CounterMachine_new = Some m -> apply_all what pre CounterMachine_new = Some m1 ->
  let data := CounterSnapshotRead (counter_data (cm_value m1)) 0 8 in
  exists m2 m', CounterRestore data m0 = (true, m2) /\ apply_all what post m2 = Some m' /\ cm_value m' = cm_value m.
Proof.
  intros E E1 data. rewrite apply_all_app, E1 in E.
  assert (int64_ok (cm_value m1) = true) as Hok by (by eapply (apply_all_value what pre CounterMachine_new)).
  assert (data = counter_data (cm_value m1)) as ->.
  { unfold data, CounterSnapshotRead, counter_data. rewrite decide_False by lia.
    by rewrite length_le, drop_0, take_ge by (rewrite length_le; simpl; lia). }
  rewrite restore_data by done. set (m2 := m0 <| cm_value := cm_value m1 |>).
  destruct (apply_all_value what post m1 m2 Hok eq_refl) as [Hv _]. rewrite E in Hv. simpl in Hv.
  destruct (apply_all what post m2) as [m'|] eqn:E2; [|done]. exists m2, m'. split_and!; [done|done|]. simpl in Hv. congruence.
Qed.

(** The index of the snapshot is not restored: who waits for it waits although
    its commands are part of the state. *)
Lemma restore_forgets_index cb :
  exists m1, apply_all "" [("inc", 1); ("add 41", 2)] CounterMachine_new = Some m1 /\
    sn_last_included_index (CounterCreateSnapshot m1) = 2 /\
    let m2 := (CounterRestore (counter_data (cm_value m1)) CounterMachine_new).2 in
    cm_value m2 = 42 /\ cm_called (CounterWaitIndex 2 cb m2) = [].
Proof. eexists. split; [vm_compute; reflexivity|]. by split_and!. Qed.

(** ** All servers give the same ids *)

Lemma elem_of_sorted addrs a : a ∈ sorted_addrs addrs <-> exists x, x ∈ addrs /\ a = CanonicalAddr x.
Proof. unfold sorted_addrs. rewrite merge_sort_Permutation. set_solver. Qed.

Lemma addr_to_id_known addrs x : x ∈ addrs -> is_Some (addr_to_id addrs (CanonicalAddr x)).
Proof.
  intros Hx. unfold addr_to_id. apply fmap_is_Some.
  eapply (list_find_elem_of _ _ (CanonicalAddr x)); [|done]. apply elem_of_sorted. eauto.
Qed.

(** Servers that list the same addresses, in whatever order and with whatever
    spelling of the local one, give every server the same id, no two servers the
    same one, and their own start finds itself. *)
Theorem servers_agree_on_ids listen peers listen' peers' :
  (forall a, (exists x, x ∈ listen :: peers /\ a = CanonicalAddr x) <->
             (exists x, x ∈ listen' :: peers' /\ a = CanonicalAddr x)) ->
  addr_to_id (listen :: peers) = addr_to_id (listen' :: peers') /\
  (forall x y i, addr_to_id (listen :: peers) x = Some i -> addr_to_id (listen :: peers) y = Some i -> x = y) /\
  exists node_id ids, BuildNodeMapping listen peers = Some (node_id, ids) /\
    addr_to_id (listen :: peers) (CanonicalAddr listen) = Some node_id /\
    Forall2 (fun peer i => addr_to_id (listen :: peers) (CanonicalAddr peer) = Some i) peers ids.
Proof.
  intros Hsame. split_and!.
  - assert (sorted_addrs (listen :: peers) = sorted_addrs (listen' :: peers')) as Hs; [|unfold addr_to_id; by rewrite Hs].
    unfold sorted_addrs. f_equal. f_equal. apply leibniz_equiv. intros a.
    rewrite !elem_of_list_to_set, !list_elem_of_fmap. specialize (Hsame a). naive_solver.
  - unfold addr_to_id. intros x y i Hx Hy. destruct (list_find (fun a => a = x) _) as [[j a]|] eqn:Ex; [|done].
    destruct (list_find (fun a => a = y) _) as [[k b]|] eqn:Ey; [|done]. simpl in Hx, Hy.
    apply list_find_Some in Ex as (Ex&->&_), Ey as (Ey&->&_). assert (j = k) as -> by (simplify_eq; lia). congruence.
  - unfold BuildNodeMapping. destruct (addr_to_id_known (listen :: peers) listen ltac:(by left)) as [node_id Hn].
    rewrite Hn. cbn [mbind option_bind]. destruct (mapM _ peers) as [ids|] eqn:E.
    + exists node_id, ids. split_and!; [done|done|]. exact (mapM_Some_1 _ _ _ E).
    + exfalso. apply mapM_None in E. apply list.Exists_exists in E as (x&Hx&E).
      destruct (addr_to_id_known (listen :: peers) x ltac:(by right)) as [i Hi]. congruence.
Qed.

Lemma servers_agree_on_ids_witness :
  BuildNodeMapping "0.0.0.0:8002" ["127.0.0.1:8001"; "127.0.0.1:8003"] = Some (2, [1; 3]) /\
  addr_to_id ["0.0.0.0:8002"; "127.0.0.1:8001"; "127.0.0.1:8003"] =
    addr_to_id ["127.0.0.1:8001"; "127.0.0.1:8003"; "127.0.0.1:8002"].
Proof.
  split; [vm_compute; reflexivity|].
  apply (servers_agree_on_ids "0.0.0.0:8002" ["127.0.0.1:8001"; "127.0.0.1:8003"] "127.0.0.1:8001"
    ["127.0.0.1:8003"; "127.0.0.1:8002"]).
  assert (CanonicalAddr "0.0.0.0:8002" = CanonicalAddr "127.0.0.1:8002") as E by reflexivity.
  intros a. split; intros (x&Hx&->).
  - apply elem_of_cons in Hx as [->|Hx]; [exists "127.0.0.1:8002"; set_solver|]. exists x. set_solver.
  - apply elem_of_cons in Hx as [->|Hx]; [exists "127.0.0.1:8001"; set_solver|].
    apply elem_of_cons in Hx as [->|Hx]; [exists "127.0.0.1:8003"; set_solver|]. exists "0.0.0.0:8002".
    apply list_elem_of_singleton in Hx as ->. set_solver.
Defined.

(** A command with an unreadable number: the one server throws, the other answers
    with an error; the counter stays. *)
Lemma unreadable_command what index m :
  CounterServerApply what "add x" index m = Some (inl what) /\
  CounterApply what "add x" index m = Some (mkApplyResult false "" index ("invalid command: " +:+ what), m).
Proof. by split. Qed.

Lemma counter_snapshot_replaces_log_witness :
  exists m2 m', CounterRestore (CounterSnapshotRead (counter_data 42) 0 8) CounterMachine_new = (true, m2) /\
    apply_all "" [("sub 2", 3); ("add x", 4)] m2 = Some m' /\ cm_value m' = 40.
Proof.
  apply (counter_snapshot_replaces_log "" [("inc", 1); ("add 41", 2)] [("sub 2", 3); ("add x", 4)] CounterMachine_new
    (mkCounterMachine 42 2 [] []) (mkCounterMachine 40 3 [] [])); vm_compute; reflexivity.
Defined.
